(* ===== verification/_CoqProject ===== *)
-Q . S2P
Prelude.v
Base64url.v
Identity.v
Jansson.v
Envelope.v
Claims.v
Jwks.v
CacheState.v
CacheKey.v
Policy.v
Freshness.v
Transport.v
Metadata.v
Signature.v
IssuerKey.v
SharedCache.v
Validator.v
Callback.v
Backends.v
Coherence.v
