(* ===== verification/Prelude.v ===== *)
(** * pg_oauth_validator: a verification development

    pg_oauth_validator is a PostgreSQL OAuth validator module.  PostgreSQL hands
    its callback a bearer token and the requested role; the module validates the
    token (a compact JWS access token) against the issuer of the matched HBA
    rule and the administrator's settings, and reports whether the client is
    authorised and under which identity.  This library models the C sources
    under src/src, function by function, and proves what makes them correct.

    ** The program and its model

    The callback ([Callback], pg_oauth_validator.c) reads the rule and the
    settings ([Policy]: config.c, hba_policy.c, policy.c), attaches to the shared
    cache ([SharedCache]: shared_cache.c) and runs the pipeline ([Validator]:
    validator.c), whose stages are
    - the envelope ([Envelope]: jwt_envelope.c, algorithms.h), over Base64URL
      ([Base64url]: base64url.c);
    - the issuer's key ([IssuerKey]: issuer_key.c, cache_io.h): discovery
      metadata ([Metadata]: metadata.c) and key set ([Jwks]: jwks.c), each from
      the cache under a key that encodes the policy ([CacheKey]: cache_key.c) or
      over HTTP ([Transport]: http_transport.c), cached for as long as the
      response allows ([Freshness]: http_freshness.c);
    - the signature ([Signature]: signature.c);
    - the claims ([Claims]: claims.c);
    - the identity ([Identity]: identity.c).
    The cache is a state machine over a fixed array ([CacheState]:
    cache_state.c), which [SharedCache] puts behind a lock in shared memory.
    [Backends] composes any number of callbacks with one shared cache, and
    [Coherence] the retrieval with what the cache holds.
    [Jansson] is the interface to the JSON library.

    A C function is a Rocq function with the C function's name.  Structures are
    records, enumerations inductive types.  An output parameter is an argument
    ([None] for NULL) and a component of the result; a C string or buffer is a
    list of bytes, [c_str] cutting it at its first NUL where the code relies on
    the terminator; integers are in Z, wrapped ([u32], [u64], [i64]) where the
    code computes at that width.  Allocation is a predicate on sizes.  A loop
    over a list is structural recursion; [comma_loop] (lists of settings) and
    [valid_utf8_loop] advance by several bytes and take fuel, one more than the
    length of the text and the length of the text, proved enough.  Code that
    talks to the cache or the network is a program over these calls
    ([IssuerKey.prog]), and theorems about it quantify over every run
    ([IssuerKey.exec]), that is over everything cache and network may answer.
    Concurrency is the step relation [Backends.step], one call of one backend at
    a time, as every operation of the shared cache runs under its lock.

    ** What the theorems show

    - End to end: the module reports [authorized] only for a token that was
      authenticated by every stage ([callback_sound], [validator_sound]),
      everything else fails closed ([callback_fail_closed],
      [validator_fail_closed], with [misconfigured] spelling out which servers
      judge no token at all), no stage refuses what it should accept
      ([validator_complete]) and the policies built fit the stages, with the one
      exception that the texts of the settings must fit into a cache key of 4096
      bytes, which the settings are not checked for ([callback_policies_fit]).
    - Each stage decides exactly what its declarative specification says:
      [accepted_envelope], [metadata_acceptable], [key_selectable], [signed_by],
      [claims_accepted], [subject_acceptable], [settings_ok].  What is passed on
      is pinned field by field: [policy_reflects] and [claims_reflect] for the
      policies, [options_secure] for the options of a request.
    - Keys: where an accepted key comes from ([issuer_key_provenance]), how much
      work one retrieval does ([issuer_key_bounded]).
    - The cache refines a finite map ([cache_lookup_refines],
      [cache_begin_refines], [cache_complete_refines], [shared_lookup_refines]),
      its keys are injective ([cache_key_injective]), lifetimes are bounded
      ([freshness_limits]), attaching and resizing are safe; what is published is
      what is served ([publish_then_lookup]), a retrieval from a warm cache
      gives what the network would have given ([cache_transparent]), and tokens
      with unknown key ids cause a request only once in a cooldown
      ([unknown_kid_gate], which also says where the cooldown does not apply).
    - Concurrency: refreshes are completed by their owner
      ([issuer_key_refresh_discipline]), have one owner in every interleaving
      ([backends_single_flight]), and every execution ends without one left
      behind ([backends_quiesce]).

    ** Parameters

    Code that is not in the repository is a parameter, and what the proofs use
    of its documentation is a law of a class or a named hypothesis: the JSON
    library ([Jansson], with the flag that rejects repeated member names,
    [JanssonText], [json_integers_bounded]), OpenSSL
    ([OpenSsl], [OpenSslP256]), libcurl's URL parser and transfers ([CurlUrl],
    [Transfer]) and date parser, libjwt ([LibJwt], [LibJwtVerify]) and
    PostgreSQL's named shared memory ([NamedDsm]).  Every such interface has an
    instance that the witnesses compute with.

    ** Not modelled

    Log messages, the table of callbacks and the magic block; the memory of the
    C program (ownership of buffers, double frees) beyond what is returned;
    locale-dependent character classes (the "C" locale is taken); PostgreSQL's
    own interpretation of the result; and the build, packaging, demo and test
    files. *)

From Stdlib Require Export Strings.Byte Strings.String ZArith Lia.
From stdpp Require Export gmap.
From stdpp Require Export prelude.

#[export] Set Default Goal Selector "!".
#[global] Open Scope Z_scope.

(** ** Bytes

    A [char] of the C code is a [byte]; all arithmetic on it goes through its
    unsigned value [bz], and a conversion to [uint8_t] is [zb]. *)

Abbreviation bytes := (list byte).

Definition bz (b : byte) : Z := Z.of_N (Byte.to_N b).

Definition zb (z : Z) : byte :=
  match Byte.of_N (Z.to_N (z mod 256)) with
  | Some b => b
  | None => x00
  end.

#[global] Instance byte_eq_decision : EqDecision byte := Byte.byte_eq_dec.

#[global] Instance byte_countable : Countable byte.
Proof.
  apply (inj_countable Byte.to_N Byte.of_N). exact Byte.of_to_N.
Defined.

Lemma bz_range b : 0 <= bz b < 256.
Proof. unfold bz. pose proof (Byte.to_N_bounded b). lia. Qed.

Lemma bz_inj a b : bz a = bz b -> a = b.
Proof.
  unfold bz. intros H%N2Z.inj.
  pose proof (Byte.of_to_N a). pose proof (Byte.of_to_N b). congruence.
Qed.

Lemma bz_zb z : bz (zb z) = z mod 256.
Proof.
  unfold bz, zb. pose proof (Z.mod_pos_bound z 256 eq_refl).
  destruct (Byte.of_N _) as [b|] eqn:E.
  - apply Byte.to_of_N in E. lia.
  - apply Byte.of_N_None_iff in E. lia.
Qed.

Lemma zb_bz b : zb (bz b) = b.
Proof. apply bz_inj. rewrite bz_zb. apply Z.mod_small, bz_range. Qed.

(** A property of all 256 bytes is decided by enumeration. *)
Definition all_bytes : bytes := map (fun n => zb (Z.of_nat n)) (seq 0 256).

Lemma all_bytes_complete b : b ∈ all_bytes.
Proof.
  apply (list_elem_of_lookup_2 _ (Z.to_nat (bz b))). by destruct b; vm_compute.
Qed.

Lemma byte_forallb (P : byte -> bool) :
  forallb P all_bytes = true -> forall b, P b = true.
Proof.
  intros H b. rewrite forallb_forall in H. apply H.
  apply list_elem_of_In, all_bytes_complete.
Qed.

(** A string literal of the source, without its terminator. *)
Definition B (s : string) : bytes := list_byte_of_string s.
Arguments B s%_string_scope.

(** The length of an object as a [size_t]. *)
Definition zlen {A} (l : list A) : Z := Z.of_nat (length l).

Lemma zlen_nonneg {A} (l : list A) : 0 <= zlen l.
Proof. unfold zlen. lia. Qed.

Lemma zlen_app {A} (l k : list A) : zlen (l ++ k) = zlen l + zlen k.
Proof. unfold zlen. rewrite length_app. lia. Qed.

Lemma zlen_cons {A} (x : A) l : zlen (x :: l) = 1 + zlen l.
Proof. unfold zlen. simpl length. lia. Qed.

Lemma zlen_nil {A} (l : list A) : zlen l = 0 <-> l = [].
Proof. unfold zlen. destruct l; simpl; split; [done..|lia|done]. Qed.

Definition is_inr {A B} (x : A + B) : bool :=
  match x with inl _ => false | inr _ => true end.

(** ** Machine integers *)

Definition SIZE_MAX : Z := 2 ^ 64 - 1.
Definition UINT64_MAX : Z := 2 ^ 64 - 1.
Definition UINT32_MAX : Z := 2 ^ 32 - 1.
Definition UINT_MAX : Z := 2 ^ 32 - 1.
Definition INT64_MAX : Z := 2 ^ 63 - 1.
Definition INT64_MIN : Z := - 2 ^ 63.

Definition u8 (z : Z) : Z := z mod 2 ^ 8.
Definition u32 (z : Z) : Z := z mod 2 ^ 32.
Definition u64 (z : Z) : Z := z mod 2 ^ 64.

(** Signed 64-bit arithmetic wraps: PostgreSQL and its extensions are built
    with [-fwrapv]. *)
Definition i64 (z : Z) : Z := (z + 2 ^ 63) mod 2 ^ 64 - 2 ^ 63.

Lemma i64_id z : INT64_MIN <= z <= INT64_MAX -> i64 z = z.
Proof. unfold i64, INT64_MIN, INT64_MAX. intros. rewrite Z.mod_small; lia. Qed.

Lemma i64_range z : INT64_MIN <= i64 z <= INT64_MAX.
Proof.
  unfold i64, INT64_MIN, INT64_MAX.
  pose proof (Z.mod_pos_bound (z + 2 ^ 63) (2 ^ 64) eq_refl). lia.
Qed.

Lemma u64_id z : 0 <= z <= UINT64_MAX -> u64 z = z.
Proof. unfold u64, UINT64_MAX. intros. apply Z.mod_small. lia. Qed.

(** Joining bit fields is addition when the fields are disjoint. *)
Lemma lor_shiftl a b n :
  0 <= n -> 0 <= b < 2 ^ n -> Z.lor (Z.shiftl a n) b = a * 2 ^ n + b.
Proof.
  intros Hn Hb. rewrite Z.shiftl_mul_pow2 by done.
  assert (Z.land (a * 2 ^ n) b = 0) as Hdisj.
  { apply Z.bits_inj'; intros i Hi. rewrite Z.land_spec, Z.bits_0.
    destruct (decide (i < n)); [by rewrite Z.mul_pow2_bits_low|].
    rewrite <- (Z.mod_small b (2 ^ n)) by done.
    rewrite Z.mod_pow2_bits_high, andb_false_r; [done|lia]. }
  rewrite Z.add_nocarry_lxor, Z.lxor_lor by done. done.
Qed.

Lemma land_ones_mod a n : 0 <= n -> Z.land a (Z.ones n) = a mod 2 ^ n.
Proof. apply Z.land_ones. Qed.

(** ** Numbers in big-endian bytes *)

Definition be (s : bytes) : Z := foldl (fun acc c => acc * 256 + bz c) 0 s.

Lemma foldl_be acc s :
  foldl (fun acc c => acc * 256 + bz c) acc s = acc * 256 ^ zlen s + be s.
Proof.
  unfold be. revert acc. induction s as [|c s IH]; intros acc; [unfold zlen; simpl; lia|].
  pose proof (zlen_nonneg s). cbn [foldl]. rewrite IH, (IH (0 * 256 + bz c)), zlen_cons.
  rewrite Z.pow_add_r by lia. lia.
Qed.

Lemma be_cons c s : be (c :: s) = bz c * 256 ^ zlen s + be s.
Proof. unfold be at 1. cbn [foldl]. rewrite foldl_be. lia. Qed.

Lemma be_app s c : be (s ++ [c]) = be s * 256 + bz c.
Proof. unfold be. by rewrite foldl_app. Qed.

Lemma be_range s : 0 <= be s < 256 ^ zlen s.
Proof.
  induction s as [|c s IH]; [done|]. pose proof (zlen_nonneg s). pose proof (bz_range c).
  rewrite be_cons, zlen_cons, Z.pow_add_r by lia. nia.
Qed.

(** ** The C library on strings

    A C string is given by the bytes of its buffer; what the library sees of it
    ends at the first NUL ([c_str]).  Character classes are those of the "C"
    locale. *)

Fixpoint c_str (s : bytes) : bytes :=
  match s with
  | [] => []
  | c :: t => if bool_decide (c = x00) then [] else c :: c_str t
  end.

Definition strlen (s : bytes) : Z := zlen (c_str s).

Definition memchr (c : byte) (s : bytes) : bool := bool_decide (c ∈ s).

(** [memcmp(a, b, n) == 0] guarded by equality of the two lengths. *)
Definition bytes_eqb (a b : bytes) : bool := bool_decide (a = b).

Definition isspace (c : byte) : bool :=
  let z := bz c in ((9 <=? z) && (z <=? 13)) || (z =? 32).
Definition iscntrl (c : byte) : bool :=
  let z := bz c in (z <? 32) || (z =? 127).
Definition isalnum (c : byte) : bool :=
  let z := bz c in ((48 <=? z) && (z <=? 57)) || ((65 <=? z) && (z <=? 90)) ||
                   ((97 <=? z) && (z <=? 122)).
Definition tolower (c : byte) : byte :=
  let z := bz c in if (65 <=? z) && (z <=? 90) then zb (z + 32) else c.
Definition is_blank (c : byte) : bool :=
  bool_decide (c = x20) || bool_decide (c = x09).

(** [strncasecmp(a, b, n) == 0] on two strings of the same length [n]. *)
Definition strcaseeq (a b : bytes) : bool :=
  bytes_eqb (map tolower a) (map tolower b).

(** [value != NULL && value[0] != '\0'] for a C string. *)
Definition is_nonempty (value : option bytes) : bool :=
  match value with
  | Some (c :: _) => negb (bool_decide (c = x00))
  | _ => false
  end.

Fixpoint ltrim (p : byte -> bool) (s : bytes) : bytes :=
  match s with
  | [] => []
  | c :: t => if p c then ltrim p t else s
  end.

Fixpoint rtrim (p : byte -> bool) (s : bytes) : bytes :=
  match s with
  | [] => []
  | c :: t =>
      match rtrim p t with
      | [] => if p c then [] else [c]
      | t' => c :: t'
      end
  end.

Definition trim_by (p : byte -> bool) (s : bytes) : bytes := rtrim p (ltrim p s).

(** [strchr]: the text before the first [c], and the text after it. *)
Fixpoint split_at (c : byte) (s : bytes) : bytes * option bytes :=
  match s with
  | [] => ([], None)
  | d :: t =>
      if bool_decide (d = c) then ([], Some t)
      else let '(h, r) := split_at c t in (d :: h, r)
  end.

(** [codes[error]] with the bound check the error-code functions have. *)
Definition code_at (codes : list bytes) (fallback : bytes) (error : Z) : bytes :=
  if zlen codes <=? u64 error then fallback
  else default fallback (codes !! Z.to_nat (u64 error)).

Lemma memchr_spec c s : memchr c s = false <-> c ∉ s.
Proof. unfold memchr. rewrite bool_decide_eq_false. done. Qed.

Lemma c_str_id s : x00 ∉ s -> c_str s = s.
Proof.
  induction s as [|c s IH]; [done|]. rewrite not_elem_of_cons. intros [Hc Hs].
  simpl. rewrite bool_decide_eq_false_2 by congruence. by rewrite IH.
Qed.

Lemma c_str_no_nul s : x00 ∉ c_str s.
Proof.
  induction s as [|c s IH]; simpl; [apply not_elem_of_nil|].
  case_bool_decide; [apply not_elem_of_nil|]. rewrite not_elem_of_cons. done.
Qed.

Lemma c_str_idemp s : c_str (c_str s) = c_str s.
Proof. apply c_str_id, c_str_no_nul. Qed.

Lemma split_at_None c s h : split_at c s = (h, None) <-> h = s /\ c ∉ s.
Proof.
  revert h. induction s as [|d s IH]; intros h; simpl.
  - split; [intros [= <-]; split; [done|apply not_elem_of_nil]|intros [-> _]; done].
  - rewrite not_elem_of_cons. case_bool_decide as Hd.
    + subst d. split; [done|]. by intros [_ [? _]].
    + destruct (split_at c s) as [h' r'] eqn:E. split.
      * intros [= <- ->]. destruct (proj1 (IH h') eq_refl) as [-> Hn]. done.
      * intros [-> [_ Hn]].
        pose proof (proj2 (IH s) (conj eq_refl Hn)) as E'. by simplify_eq.
Qed.

Lemma split_at_Some c s h r :
  split_at c s = (h, Some r) <-> s = h ++ c :: r /\ c ∉ h.
Proof.
  revert h. induction s as [|d s IH]; intros h; simpl.
  - split; [done|]. intros [Hs _]. by destruct h.
  - case_bool_decide as Hd.
    + subst d. split.
      * intros [= <- <-]. split; [done|apply not_elem_of_nil].
      * intros [Hs Hn]. destruct h as [|e h]; simplify_eq/=; [done|].
        by apply not_elem_of_cons in Hn as [? _].
    + destruct (split_at c s) as [h' o] eqn:E. split.
      * intros [= <- ->]. destruct (proj1 (IH h') eq_refl) as [-> Hn].
        split; [done|]. by rewrite not_elem_of_cons.
      * intros [Hs Hn]. destruct h as [|e h]; simplify_eq/=.
        apply not_elem_of_cons in Hn as [_ Hn].
        pose proof (proj2 (IH h) (conj eq_refl Hn)) as E'. by simplify_eq.
Qed.

(** The pieces of a text between occurrences of [c]; never empty. *)
Fixpoint split_on (c : byte) (s : bytes) : list bytes :=
  match s with
  | [] => [[]]
  | d :: t =>
      if bool_decide (d = c) then [] :: split_on c t
      else match split_on c t with
           | h :: r => (d :: h) :: r
           | [] => [[d]]
           end
  end.

Lemma split_on_nonempty c s : split_on c s <> [].
Proof. destruct s; simpl; [done|]. repeat case_match; done. Qed.

Lemma split_on_none c s : c ∉ s -> split_on c s = [s].
Proof.
  intros Hn. induction s as [|d s IH]; [done|].
  apply not_elem_of_cons in Hn as [Hc Hn]. simpl.
  rewrite bool_decide_eq_false_2 by congruence. by rewrite IH.
Qed.

Lemma split_on_app c h r : c ∉ h -> split_on c (h ++ c :: r) = h :: split_on c r.
Proof.
  intros Hn. induction h as [|d h IH]; simpl.
  { by rewrite bool_decide_eq_true_2. }
  apply not_elem_of_cons in Hn as [Hc Hn].
  rewrite bool_decide_eq_false_2 by congruence. by rewrite IH.
Qed.

Lemma split_on_nil_iff c s : split_on c s = [[]] <-> s = [].
Proof.
  split; [|by intros ->]. destruct s as [|d s]; [done|]. simpl.
  case_bool_decide.
  - pose proof (split_on_nonempty c s). intros [= ?]. done.
  - case_match; done.
Qed.

Lemma split_on_pieces c s : Forall (fun p => c ∉ p) (split_on c s).
Proof.
  induction s as [|d s IH]; simpl; [repeat constructor; apply not_elem_of_nil|].
  case_bool_decide; [constructor; [apply not_elem_of_nil|done]|].
  destruct (split_on c s) as [|h r] eqn:E; [by apply split_on_nonempty in E|].
  rewrite Forall_cons in *. rewrite not_elem_of_cons. naive_solver.
Qed.

(** ** Separated lists

    [for (i = 0; i <= length; i++)] over a text, with the body run at every
    separator and at the end, is [sep_loop]: [current] is the text since the
    last separator.  It is a pass over the pieces of the text. *)

Section SepLoop.
Context {St R : Type} (sep : byte) (body : St -> bytes -> St + R) (finish : St -> R).

Fixpoint sep_loop (rest current : bytes) (st : St) : R :=
  match rest with
  | [] =>
      match body st current with
      | inr r => r
      | inl st => finish st
      end
  | c :: rest =>
      if negb (bool_decide (c = sep)) then sep_loop rest (current ++ [c]) st
      else match body st current with
           | inr r => r
           | inl st => sep_loop rest [] st
           end
  end.

Fixpoint piece_pass (pieces : list bytes) (st : St) : R :=
  match pieces with
  | [] => finish st
  | piece :: pieces =>
      match body st piece with
      | inr r => r
      | inl st => piece_pass pieces st
      end
  end.

Lemma sep_loop_pieces rest current st :
  sep ∉ current ->
  sep_loop rest current st = piece_pass (split_on sep (current ++ rest)) st.
Proof.
  revert current st. induction rest as [|c rest IH]; intros current st Hc; simpl.
  - rewrite app_nil_r, split_on_none by done. done.
  - case_bool_decide as Hsep; simpl.
    + subst c. rewrite split_on_app by done. simpl.
      destruct (body st current); [|done]. rewrite IH; [done|apply not_elem_of_nil].
    + rewrite IH; [by rewrite <- app_assoc|].
      rewrite not_elem_of_app, list_elem_of_singleton. split; congruence.
Qed.
End SepLoop.

(** ** Comma-separated settings

    Every list-valued setting is read by the same loop: find the next comma,
    handle the text before it, and go on after it.  [comma_loop] is that loop,
    with the body as a parameter: the body sees the state, the text of the
    entry, and whether a comma ends the string right after it. *)

Definition comma : byte := x2c.

Section CommaLoop.
Context {St R : Type} (body : St -> bytes -> bool -> St + R) (finish : St -> R).

Fixpoint comma_loop (fuel : nat) (entry : bytes) (st : St) : option R :=
  match fuel with
  | O => None
  | S fuel =>
      match entry with
      | [] => Some (finish st)
      | _ =>
          let '(item, rest) := split_at comma entry in
          match body st item (bool_decide (rest = Some [])) with
          | inr r => Some r
          | inl st =>
              match rest with
              | None => Some (finish st)
              | Some tail => comma_loop fuel tail st
              end
          end
      end
  end.

(** The loop as a pass over the entries. *)
Fixpoint segment_pass (segs : list bytes) (st : St) : R :=
  match segs with
  | [] | [[]] => finish st
  | item :: rest =>
      match body st item (bool_decide (rest = [[]])) with
      | inr r => r
      | inl st => segment_pass rest st
      end
  end.

(** Enough fuel for the loop is one more than the length of the text. *)
Lemma comma_loop_segments fuel entry st :
  (length entry < fuel)%nat ->
  comma_loop fuel entry st = Some (segment_pass (split_on comma entry) st).
Proof.
  revert entry st. induction fuel as [|fuel IH]; intros entry st Hf; [lia|].
  destruct entry as [|c t]; [done|]. simpl comma_loop.
  change (if bool_decide (c = comma) then _ else _)
    with (split_at comma (c :: t)).
  remember (c :: t) as e eqn:He.
  destruct (split_at comma e) as [h [r|]] eqn:E.
  - apply split_at_Some in E as [-> Hn]. rewrite split_on_app by done.
    rewrite length_app in Hf; simpl in Hf.
    rewrite (bool_decide_ext (Some r = Some []) (split_on comma r = [[]])).
    2:{ rewrite split_on_nil_iff. naive_solver. }
    cbn [segment_pass]. pose proof (split_on_nonempty comma r).
    destruct (split_on comma r) eqn:Er; [done|]. rewrite <- Er.
    destruct h; destruct (body _ _ _); try done; apply IH; simpl in *; lia.
  - apply split_at_None in E as [-> Hn]. rewrite split_on_none by done.
    rewrite He. cbn [segment_pass].
    rewrite !bool_decide_eq_false_2 by done. by destruct (body _ _ _).
Qed.
End CommaLoop.

(** ** Automation *)

Create HintDb pgo.
#[export] Hint Resolve bz_range zlen_nonneg i64_range c_str_no_nul : pgo.
Create Rewrite HintDb pgo.
#[export] Hint Rewrite @zlen_app @zlen_cons bz_zb zb_bz c_str_idemp : pgo.

(** Split the boolean guards of a handler into its branches. *)
Ltac guards :=
  repeat (case_match; simplify_eq/=).

(** Turn boolean tests in the context into propositions. *)
Ltac prop_bools :=
  repeat match goal with
  | H : context [negb (negb _)] |- _ => rewrite negb_involutive in H
  | H : _ && _ = true |- _ => apply andb_true_iff in H as [? ?]
  | H : _ || _ = false |- _ => apply orb_false_iff in H as [? ?]
  | H : negb _ = true |- _ => apply negb_true_iff in H
  | H : negb _ = false |- _ => apply negb_false_iff in H
  | H : bytes_eqb _ _ = true |- _ => apply bool_decide_eq_true in H
  | H : bytes_eqb _ _ = false |- _ => apply bool_decide_eq_false in H
  | H : bool_decide _ = true |- _ => apply bool_decide_eq_true in H
  | H : bool_decide _ = false |- _ => apply bool_decide_eq_false in H
  end.
