(* ===== verification/Base64url.v ===== *)
(** * Base64URL (src/base64url.c)

    Strict unpadded Base64URL: validity, sizes, decoding and encoding as the C
    code computes them, with the bit operations at the width of [uint32_t].
    The theorems are the two round trips, hence that the decoder accepts
    exactly one encoding of every byte string, and that the size functions give
    the size of what the coders write. *)

From S2P Require Import Prelude.

#[local] Ltac Zify.zify_post_hook ::= Z.div_mod_to_equations.

(** ** Definitions *)

Definition base64url_alphabet : bytes :=
  B "ABCDEFGHIJKLMNOPQRSTUVWXYZabcdefghijklmnopqrstuvwxyz0123456789-_".

Definition base64url_value (byte : byte) : Z :=
  let c := bz byte in
  if (65 <=? c) && (c <=? 90) then c - 65
  else if (97 <=? c) && (c <=? 122) then c - 97 + 26
  else if (48 <=? c) && (c <=? 57) then c - 48 + 52
  else if c =? 45 then 62
  else if c =? 95 then 63
  else -1.

(** [data[length - 1]] of a non-empty buffer. *)
Definition last_byte (data : bytes) : byte := List.last data x00.

Definition pg_oauth_base64url_valid (data : option bytes) : bool :=
  match data with
  | None => false
  | Some data =>
      let length := zlen data in
      if (length =? 0) || (length mod 4 =? 1) then false
      else if negb (forallb (fun c => 0 <=? base64url_value c) data) then false
      else
        let last_value := base64url_value (last_byte data) in
        if (length mod 4 =? 2) && negb (Z.land last_value 15 =? 0) then false
        else if (length mod 4 =? 3) && negb (Z.land last_value 3 =? 0) then false
        else true
  end.

(** The result replaces the output parameter [decoded_length]. *)
Definition pg_oauth_base64url_decoded_size (encoded_length maximum : Z) : option Z :=
  let length := encoded_length / 4 * 3 in
  let length :=
    if encoded_length mod 4 =? 2 then length + 1
    else if encoded_length mod 4 =? 3 then length + 2
    else length in
  if maximum <? length then None else Some length.

(** The decoding loop and the two tails, four characters at a time. *)
Fixpoint base64url_decode_blocks (data : bytes) : bytes :=
  match data with
  | a :: b :: c :: d :: rest =>
      let bits := Z.lor (Z.lor (Z.lor
        (Z.shiftl (u32 (base64url_value a)) 18)
        (Z.shiftl (u32 (base64url_value b)) 12))
        (Z.shiftl (u32 (base64url_value c)) 6))
        (u32 (base64url_value d)) in
      zb (Z.shiftr bits 16) :: zb (Z.shiftr bits 8) :: zb bits ::
        base64url_decode_blocks rest
  | [a; b; c] =>
      let bits := Z.lor (Z.lor
        (Z.shiftl (u32 (base64url_value a)) 12)
        (Z.shiftl (u32 (base64url_value b)) 6))
        (u32 (base64url_value c)) in
      [zb (Z.shiftr bits 10); zb (Z.shiftr bits 2)]
  | [a; b] =>
      let bits := Z.lor
        (Z.shiftl (u32 (base64url_value a)) 6) (u32 (base64url_value b)) in
      [zb (Z.shiftr bits 4)]
  | _ => []
  end.

(** [decoded] is non-NULL; the bytes written to it are the result. *)
Definition pg_oauth_base64url_decode (data : option bytes) (decoded_size : Z)
  : option bytes :=
  match data with
  | None => None
  | Some s =>
      if negb (pg_oauth_base64url_valid data) then None
      else match pg_oauth_base64url_decoded_size (zlen s) SIZE_MAX with
           | None => None
           | Some expected =>
               if negb (expected =? decoded_size) then None
               else Some (base64url_decode_blocks s)
           end
  end.

Definition pg_oauth_base64url_encoded_size (input_length maximum : Z) : option Z :=
  let full_blocks := input_length / 3 in
  if SIZE_MAX / 4 <? full_blocks then None
  else
    let length := full_blocks * 4 in
    if negb (input_length mod 3 =? 0) &&
       (SIZE_MAX - (input_length mod 3 + 1) <? length) then None
    else
      let length :=
        if negb (input_length mod 3 =? 0) then length + (input_length mod 3 + 1)
        else length in
      if maximum <? length then None else Some length.

Definition alphabet_at (i : Z) : byte :=
  default x00 (base64url_alphabet !! Z.to_nat i).

Fixpoint base64url_encode_blocks (data : bytes) : bytes :=
  match data with
  | a :: b :: c :: rest =>
      let bits := Z.lor (Z.lor (Z.shiftl (bz a) 16) (Z.shiftl (bz b) 8)) (bz c) in
      alphabet_at (Z.land (Z.shiftr bits 18) 63) ::
      alphabet_at (Z.land (Z.shiftr bits 12) 63) ::
      alphabet_at (Z.land (Z.shiftr bits 6) 63) ::
      alphabet_at (Z.land bits 63) :: base64url_encode_blocks rest
  | [a; b] =>
      let bits := Z.lor (Z.shiftl (bz a) 10) (Z.shiftl (bz b) 2) in
      [alphabet_at (Z.land (Z.shiftr bits 12) 63);
       alphabet_at (Z.land (Z.shiftr bits 6) 63);
       alphabet_at (Z.land bits 63)]
  | [a] =>
      let bits := Z.shiftl (bz a) 4 in
      [alphabet_at (Z.land (Z.shiftr bits 6) 63); alphabet_at (Z.land bits 63)]
  | [] => []
  end.

Definition pg_oauth_base64url_encode (data : bytes) (encoded_size : Z) : option bytes :=
  match pg_oauth_base64url_encoded_size (zlen data) SIZE_MAX with
  | None => None
  | Some expected =>
      if negb (expected =? encoded_size) then None
      else Some (base64url_encode_blocks data)
  end.

(** ** The alphabet *)

Lemma value_range c : -1 <= base64url_value c < 64.
Proof. unfold base64url_value. pose proof (bz_range c). repeat case_match; lia. Qed.

Lemma alphabet_value c : 0 <= base64url_value c -> alphabet_at (base64url_value c) = c.
Proof.
  intros H. pose proof (byte_forallb (fun c => (base64url_value c <? 0) ||
    Byte.eqb (alphabet_at (base64url_value c)) c) ltac:(vm_compute; reflexivity) c) as Hc.
  cbv beta in Hc. apply orb_true_iff in Hc as [Hc|Hc]; [lia|].
  by apply Byte.byte_dec_bl.
Qed.

Lemma value_alphabet i : 0 <= i < 64 -> base64url_value (alphabet_at i) = i.
Proof.
  intros H. assert (forallb (fun n => base64url_value (alphabet_at (Z.of_nat n)) =? Z.of_nat n)
    (seq 0 64) = true) as Hall by (vm_compute; reflexivity).
  rewrite forallb_forall in Hall. specialize (Hall (Z.to_nat i)).
  rewrite Z2Nat.id in Hall by lia. apply Z.eqb_eq, Hall, in_seq. lia.
Qed.

(** ** Bit fields as arithmetic *)

Lemma lor_plus n k a b :
  0 <= n -> k = 2 ^ n -> a mod k = 0 -> 0 <= b < k -> Z.lor a b = a + b.
Proof.
  intros Hn -> Ha Hb. pose proof (Z.div_mod a (2 ^ n) ltac:(lia)) as E.
  rewrite Ha, Z.add_0_r, Z.mul_comm in E. rewrite E at 1.
  rewrite <- Z.shiftl_mul_pow2, lor_shiftl by done. lia.
Qed.

Lemma u32_value c : 0 <= base64url_value c -> u32 (base64url_value c) = base64url_value c.
Proof. intros. pose proof (value_range c). unfold u32. apply Z.mod_small. lia. Qed.

Lemma land_63 a : Z.land a 63 = a mod 64.
Proof. by apply (Z.land_ones a 6). Qed.

Lemma land_15 a : Z.land a 15 = a mod 16.
Proof. by apply (Z.land_ones a 4). Qed.

Lemma land_3 a : Z.land a 3 = a mod 4.
Proof. by apply (Z.land_ones a 2). Qed.

Ltac bits_to_arith :=
  repeat first
    [ rewrite u32_value by lia
    | rewrite Z.shiftl_mul_pow2 by lia
    | rewrite Z.shiftr_div_pow2 by lia
    | rewrite land_63 | rewrite land_15 | rewrite land_3 ];
  change (2 ^ 18) with 262144; change (2 ^ 16) with 65536; change (2 ^ 12) with 4096;
  change (2 ^ 10) with 1024; change (2 ^ 8) with 256; change (2 ^ 6) with 64;
  change (2 ^ 4) with 16; change (2 ^ 2) with 4;
  repeat match goal with
  | |- context [Z.lor ?a ?b] =>
      first
        [ rewrite (lor_plus 12 4096 a b) by lia | rewrite (lor_plus 6 64 a b) by lia
        | rewrite (lor_plus 16 65536 a b) by lia | rewrite (lor_plus 10 1024 a b) by lia
        | rewrite (lor_plus 18 262144 a b) by lia | rewrite (lor_plus 8 256 a b) by lia ]
  end.

(** ** Canonical texts *)

(** What a decodable text looks like, block by block: only characters of the
    alphabet, no lone trailing character, and zero bits after the last byte. *)
Fixpoint canonical (s : bytes) : Prop :=
  let v := base64url_value in
  match s with
  | a :: b :: c :: d :: rest =>
      (0 <= v a /\ 0 <= v b /\ 0 <= v c /\ 0 <= v d) /\ canonical rest
  | [a; b; c] => 0 <= v a /\ 0 <= v b /\ 0 <= v c /\ v c mod 4 = 0
  | [a; b] => 0 <= v a /\ 0 <= v b /\ v b mod 16 = 0
  | [a] => False
  | [] => True
  end.

Lemma zlen_block {A} (a b c d : A) s : zlen (a :: b :: c :: d :: s) mod 4 = zlen s mod 4.
Proof. autorewrite with pgo. lia. Qed.

Lemma last_byte_block a b c d s :
  s <> [] -> last_byte (a :: b :: c :: d :: s) = last_byte s.
Proof. destruct s; [done|]. done. Qed.

Definition valid_chars (s : bytes) : bool :=
  forallb (fun c => 0 <=? base64url_value c) s.

Lemma valid_spec s :
  pg_oauth_base64url_valid (Some s) = true <->
  s <> [] /\ zlen s mod 4 <> 1 /\ valid_chars s = true /\
  (zlen s mod 4 = 2 -> base64url_value (last_byte s) mod 16 = 0) /\
  (zlen s mod 4 = 3 -> base64url_value (last_byte s) mod 4 = 0).
Proof.
  unfold pg_oauth_base64url_valid. fold (valid_chars s). rewrite <- zlen_nil.
  bits_to_arith. destruct (valid_chars s); simpl.
  - repeat case_match; split; try done; lia.
  - rewrite Tauto.if_same. split; [done|]. intuition done.
Qed.

Lemma canonical_spec s :
  canonical s <->
  zlen s mod 4 <> 1 /\ valid_chars s = true /\
  (zlen s mod 4 = 2 -> base64url_value (last_byte s) mod 16 = 0) /\
  (zlen s mod 4 = 3 -> base64url_value (last_byte s) mod 4 = 0).
Proof.
  revert s. fix IH 1. intros s. destruct s as [|a [|b [|c [|d s]]]].
  5: { destruct (decide (s = [])) as [->|Hs].
    - unfold valid_chars. simpl. change (zlen [a; b; c; d] mod 4) with 0. lia.
    - rewrite zlen_block, last_byte_block by done. cbn [canonical]. rewrite IH.
      unfold valid_chars. simpl. rewrite !andb_true_iff, !Z.leb_le. tauto. }
  - by cbn.
  - change (zlen [a] mod 4) with 1. split; [done|]. by intros [? _].
  - unfold valid_chars. change (zlen [a; b] mod 4) with 2. cbn. lia.
  - unfold valid_chars. change (zlen [a; b; c] mod 4) with 3. cbn. lia.
Qed.

Lemma valid_canonical s :
  pg_oauth_base64url_valid (Some s) = true <-> s <> [] /\ canonical s.
Proof. by rewrite valid_spec, canonical_spec. Qed.

(** ** Block-wise round trips *)

Lemma u32_alphabet i : u32 (base64url_value (alphabet_at (Z.land i 63))) = i mod 64.
Proof.
  pose proof (Z.mod_pos_bound i 64 eq_refl). rewrite land_63, value_alphabet by lia.
  unfold u32. apply Z.mod_small. lia.
Qed.

Lemma alphabet_mod v c :
  base64url_value c = v mod 64 -> alphabet_at (Z.land v 63) = c.
Proof.
  intros E. pose proof (Z.mod_pos_bound v 64 eq_refl). rewrite land_63, <- E.
  apply alphabet_value. lia.
Qed.

Lemma decode_encode_blocks data :
  base64url_decode_blocks (base64url_encode_blocks data) = data.
Proof.
  revert data. fix IH 1. intros data. destruct data as [|a [|b [|c data]]].
  1: done.
  all: cbn [base64url_encode_blocks base64url_decode_blocks]; rewrite !u32_alphabet.
  all: pose proof (bz_range a); try pose proof (bz_range b); try pose proof (bz_range c).
  all: bits_to_arith.
  3: rewrite IH.
  all: repeat f_equal; apply bz_inj; rewrite bz_zb; lia.
Qed.

Lemma encode_decode_blocks s :
  canonical s -> base64url_encode_blocks (base64url_decode_blocks s) = s.
Proof.
  revert s. fix IH 1. intros s. destruct s as [|a [|b [|c [|d s]]]]; [done|done|..].
  all: cbn [canonical]; intros Hs; cbn [base64url_encode_blocks base64url_decode_blocks].
  all: pose proof (value_range a); pose proof (value_range b).
  all: try pose proof (value_range c); try pose proof (value_range d).
  3: rewrite IH by apply Hs.
  all: repeat f_equal; apply alphabet_mod; bits_to_arith; rewrite ?bz_zb.
  all: bits_to_arith; lia.
Qed.

Lemma length_encode_blocks data :
  zlen (base64url_encode_blocks data) =
  zlen data / 3 * 4 + (if zlen data mod 3 =? 0 then 0 else zlen data mod 3 + 1).
Proof.
  revert data. fix IH 1. intros data. destruct data as [|a [|b [|c data]]]; [done..|].
  cbn [base64url_encode_blocks]. autorewrite with pgo. rewrite IH.
  pose proof (zlen_nonneg data). repeat case_match; lia.
Qed.

Lemma length_decode_blocks s :
  zlen s mod 4 <> 1 ->
  pg_oauth_base64url_decoded_size (zlen s) (zlen (base64url_decode_blocks s)) =
    Some (zlen (base64url_decode_blocks s)).
Proof.
  intros Hs. unfold pg_oauth_base64url_decoded_size.
  enough (zlen (base64url_decode_blocks s) = zlen s / 4 * 3 +
    (if zlen s mod 4 =? 2 then 1 else if zlen s mod 4 =? 3 then 2 else 0)) as ->.
  { repeat case_match; try lia; f_equal; lia. }
  revert s Hs. fix IH 1. intros s. destruct s as [|a [|b [|c [|d s]]]]; [done..|].
  cbn [base64url_decode_blocks]. autorewrite with pgo. intros Hs.
  pose proof (zlen_nonneg s). rewrite IH by lia. repeat case_match; lia.
Qed.

(** ** The operations *)

Lemma encode_spec data e n :
  pg_oauth_base64url_encode data n = Some e <->
  e = base64url_encode_blocks data /\
  pg_oauth_base64url_encoded_size (zlen data) SIZE_MAX = Some n.
Proof.
  unfold pg_oauth_base64url_encode. case_match; [|naive_solver].
  destruct (Z.eqb_spec z n); simpl; naive_solver.
Qed.

Lemma decode_spec s d n :
  pg_oauth_base64url_decode (Some s) n = Some d <->
  (s <> [] /\ canonical s) /\ d = base64url_decode_blocks s /\
  pg_oauth_base64url_decoded_size (zlen s) SIZE_MAX = Some n.
Proof.
  unfold pg_oauth_base64url_decode. rewrite <- valid_canonical.
  destruct (pg_oauth_base64url_valid _); simpl; [|naive_solver].
  case_match; [|naive_solver]. destruct (Z.eqb_spec z n); simpl; naive_solver.
Qed.

Lemma encoded_size_value data n :
  pg_oauth_base64url_encoded_size (zlen data) SIZE_MAX = Some n ->
  n = zlen (base64url_encode_blocks data).
Proof.
  rewrite length_encode_blocks. unfold pg_oauth_base64url_encoded_size.
  pose proof (zlen_nonneg data). intros. repeat case_match; simplify_eq; lia.
Qed.

Lemma decoded_size_value s n :
  zlen s mod 4 <> 1 ->
  pg_oauth_base64url_decoded_size (zlen s) SIZE_MAX = Some n ->
  n = zlen (base64url_decode_blocks s).
Proof.
  intros Hs Hn. pose proof (length_decode_blocks s Hs) as Hd. revert Hn Hd.
  unfold pg_oauth_base64url_decoded_size. intros. repeat case_match; simplify_eq; lia.
Qed.

Lemma encoded_size_ok data :
  zlen (base64url_encode_blocks data) <= SIZE_MAX ->
  pg_oauth_base64url_encoded_size (zlen data) SIZE_MAX =
    Some (zlen (base64url_encode_blocks data)).
Proof.
  rewrite length_encode_blocks. unfold pg_oauth_base64url_encoded_size, SIZE_MAX.
  pose proof (zlen_nonneg data). intros. repeat case_match; try lia; f_equal; lia.
Qed.

Lemma decoded_size_ok s :
  zlen s mod 4 <> 1 -> zlen (base64url_decode_blocks s) <= SIZE_MAX ->
  pg_oauth_base64url_decoded_size (zlen s) SIZE_MAX =
    Some (zlen (base64url_decode_blocks s)).
Proof.
  intros Hs Hd. pose proof (length_decode_blocks s Hs) as E. revert E Hd.
  unfold pg_oauth_base64url_decoded_size, SIZE_MAX. intros.
  repeat case_match; simplify_eq; try lia; f_equal; lia.
Qed.

Lemma encode_blocks_canonical data : canonical (base64url_encode_blocks data).
Proof.
  revert data. fix IH 1. intros data. destruct data as [|a [|b [|c data]]]; [done|..].
  all: cbn [base64url_encode_blocks canonical]; rewrite !value_alphabet.
  all: try (rewrite land_63; lia).
  3: split; [|apply IH].
  all: pose proof (bz_range a); try pose proof (bz_range b).
  all: rewrite !land_63; bits_to_arith; lia.
Qed.

Lemma decode_blocks_shorter s : zlen (base64url_decode_blocks s) <= zlen s.
Proof.
  revert s. fix IH 1. intros s. destruct s as [|a [|b [|c [|d s]]]]; [unfold zlen; simpl; lia..|].
  cbn [base64url_decode_blocks]. autorewrite with pgo. specialize (IH s). lia.
Qed.

Lemma encode_blocks_longer data : zlen data <= zlen (base64url_encode_blocks data).
Proof. rewrite length_encode_blocks. pose proof (zlen_nonneg data). case_match; lia. Qed.

(** ** Properties *)

(** C29: canonicity.  Whatever the decoder accepts is the encoding of what it
    returns, so no two texts decode to the same bytes and a signed segment has
    exactly one spelling. *)
Theorem base64url_decode_canonical s d n :
  zlen s <= SIZE_MAX ->
  pg_oauth_base64url_decode (Some s) n = Some d ->
  pg_oauth_base64url_encode d (zlen s) = Some s.
Proof.
  rewrite decode_spec, encode_spec. intros Hlen [[_ Hs] [-> _]].
  rewrite encode_decode_blocks by done. split; [done|].
  rewrite encoded_size_ok; by rewrite encode_decode_blocks.
Qed.

Lemma base64url_decode_canonical_witness :
  pg_oauth_base64url_encode (B "{}!") (zlen (B "e30h")) = Some (B "e30h").
Proof.
  apply (base64url_decode_canonical (B "e30h") (B "{}!") 3); by vm_compute.
Defined.

(** C30: round trip.  The encoding of a non-empty byte string decodes to that
    byte string, and the decoder is given the exact size of its output. *)
Theorem base64url_encode_decode data e n :
  data <> [] ->
  pg_oauth_base64url_encode data n = Some e ->
  pg_oauth_base64url_decode (Some e) (zlen data) = Some data.
Proof.
  rewrite encode_spec, decode_spec. intros Hne [-> Hn].
  pose proof (encode_blocks_canonical data) as Hc.
  pose proof (encode_blocks_longer data) as Hl.
  assert (zlen (base64url_encode_blocks data) <= SIZE_MAX) as Hmax.
  { pose proof (encoded_size_value _ _ Hn) as <-. revert Hn.
    unfold pg_oauth_base64url_encoded_size. intros. guards; lia. }
  rewrite decode_encode_blocks. split_and!; [|done..|].
  - intros E. rewrite E in Hl. apply Hne, zlen_nil. pose proof (zlen_nonneg data).
    change (zlen data <= 0) in Hl. lia.
  - rewrite decoded_size_ok; rewrite ?decode_encode_blocks; [done| |lia].
    by apply canonical_spec in Hc as [? _].
Qed.

Lemma base64url_encode_decode_witness :
  pg_oauth_base64url_decode (Some (B "AP8")) (zlen [x00; xff]) = Some [x00; xff].
Proof.
  apply (base64url_encode_decode [x00; xff] (B "AP8") 3); by vm_compute.
Defined.

(** The coders write exactly as many bytes as the size functions announce,
    so a buffer of that size is neither overrun nor left partly unwritten. *)
Theorem base64url_sizes_exact s d n data e m :
  pg_oauth_base64url_decode (Some s) n = Some d ->
  pg_oauth_base64url_encode data m = Some e ->
  zlen d = n /\ zlen e = m /\ zlen d <= zlen s /\ zlen data <= zlen e.
Proof.
  rewrite decode_spec, encode_spec. intros [[_ Hs] [-> Hn]] [-> Hm].
  apply canonical_spec in Hs as [Hs _].
  rewrite (decoded_size_value _ _ Hs Hn), (encoded_size_value _ _ Hm).
  auto using decode_blocks_shorter, encode_blocks_longer.
Qed.

Lemma base64url_sizes_exact_witness :
  zlen (B "{}!") = 3 /\ zlen (B "e30h") = 4 /\
  zlen (B "{}!") <= zlen (B "e30h") /\ zlen (B "{}!") <= zlen (B "e30h").
Proof.
  apply (base64url_sizes_exact (B "e30h") _ _ (B "{}!")); by vm_compute.
Defined.

#[global] Arguments pg_oauth_base64url_valid : simpl never.
#[global] Arguments pg_oauth_base64url_decode : simpl never.
#[global] Arguments pg_oauth_base64url_encode : simpl never.
#[global] Arguments pg_oauth_base64url_decoded_size : simpl never.
#[global] Arguments pg_oauth_base64url_encoded_size : simpl never.
