(* ===== verification/Identity.v ===== *)
(** * The authenticated identity (src/identity.c)

    The UTF-8 check, the bounded copy of the subject and its error codes.  The
    check is a byte loop; [printable_utf8] is the reference it is proved equal
    to: the text is the encoding of a sequence of Unicode scalar values, none
    of them a C0, DEL or C1 control. *)

From S2P Require Import Prelude.

#[local] Ltac Zify.zify_post_hook ::= Z.div_mod_to_equations.

(** ** Data *)

Inductive PgOAuthIdentityError :=
| PG_OAUTH_IDENTITY_OK
| PG_OAUTH_IDENTITY_INVALID_ARGUMENT
| PG_OAUTH_IDENTITY_INVALID_SUBJECT
| PG_OAUTH_IDENTITY_TOO_LARGE
| PG_OAUTH_IDENTITY_ALLOCATION_FAILED.

#[global] Instance identity_error_eq_dec : EqDecision PgOAuthIdentityError.
Proof. solve_decision. Defined.

Record PgOAuthIdentityPolicy := {
  id_max_subject_size : Z;
  id_max_authn_id_size : Z
}.

(** [value] is the allocated C string without its terminator. *)
Record PgOAuthIdentity := {
  id_value : option bytes;
  id_length : Z
}.

Definition identity_zero : PgOAuthIdentity := {| id_value := None; id_length := 0 |}.

(** ** Definitions *)

(** The inner loop over the continuation bytes. *)
Fixpoint utf8_continuations (n : nat) (value : bytes) (codepoint : Z)
  : option (Z * bytes) :=
  match n with
  | O => Some (codepoint, value)
  | S n =>
      match value with
      | [] => None
      | byte :: rest =>
          if negb (Z.land (bz byte) 192 =? 128) then None
          else utf8_continuations n rest
                 (u32 (Z.lor (Z.shiftl codepoint 6) (Z.land (bz byte) 63)))
      end
  end.

(** One iteration of the loop of [valid_utf8]: the code point at the front and
    what follows it, or [None] where the C code returns false. *)
Definition utf8_step (first_byte : byte) (value : bytes) : option (Z * bytes) :=
  let first := bz first_byte in
  if first <=? 127 then
    if (first <? 32) || (first =? 127) then None else Some (first, value)
  else
    let start :=
      if (194 <=? first) && (first <=? 223) then Some (1%nat, Z.land first 31)
      else if (224 <=? first) && (first <=? 239) then Some (2%nat, Z.land first 15)
      else if (240 <=? first) && (first <=? 244) then Some (3%nat, Z.land first 7)
      else None in
    match start with
    | None => None
    | Some (continuations, codepoint) =>
        if zlen value <? Z.of_nat continuations then None
        else match utf8_continuations continuations value codepoint with
             | None => None
             | Some (codepoint, rest) =>
                 if (bool_decide (continuations = 2%nat) && (codepoint <? 2048)) ||
                    (bool_decide (continuations = 3%nat) && (codepoint <? 65536)) ||
                    ((128 <=? codepoint) && (codepoint <=? 159)) ||
                    ((55296 <=? codepoint) && (codepoint <=? 57343)) ||
                    (1114111 <? codepoint)
                 then None else Some (codepoint, rest)
             end
    end.

(** The loop; every iteration consumes at least one byte, so the length of the
    text is enough fuel. *)
Fixpoint valid_utf8_loop (fuel : nat) (value : bytes) : bool :=
  match value with
  | [] => true
  | first :: rest =>
      match fuel with
      | O => false
      | S fuel =>
          match utf8_step first rest with
          | None => false
          | Some (_, rest) => valid_utf8_loop fuel rest
          end
      end
  end.

Definition valid_utf8 (value : bytes) : bool := valid_utf8_loop (length value) value.

Definition pg_oauth_identity_clear (identity : option PgOAuthIdentity)
  : option PgOAuthIdentity :=
  match identity with
  | None => None
  | Some _ => Some identity_zero
  end.

(** [malloc n] tells whether an allocation of [n] bytes succeeds; [identity] is
    the output object, [None] for a NULL pointer. *)
Definition pg_oauth_identity_build (malloc : Z -> bool) (subject : option bytes)
  (policy : option PgOAuthIdentityPolicy) (identity : option PgOAuthIdentity)
  : PgOAuthIdentityError * option PgOAuthIdentity :=
  match identity with
  | None => (PG_OAUTH_IDENTITY_INVALID_ARGUMENT, None)
  | Some _ =>
      let identity := Some identity_zero in
      match subject, policy with
      | Some subject, Some policy =>
          let subject_length := zlen subject in
          if (id_max_subject_size policy =? 0) || (id_max_authn_id_size policy =? 0)
          then (PG_OAUTH_IDENTITY_INVALID_ARGUMENT, identity)
          else if (subject_length =? 0) ||
                  (id_max_subject_size policy <? subject_length) ||
                  (id_max_authn_id_size policy <? subject_length) ||
                  memchr x00 subject || negb (valid_utf8 subject)
          then (PG_OAUTH_IDENTITY_INVALID_SUBJECT, identity)
          else if subject_length =? SIZE_MAX
          then (PG_OAUTH_IDENTITY_TOO_LARGE, identity)
          else if negb (malloc (subject_length + 1))
          then (PG_OAUTH_IDENTITY_ALLOCATION_FAILED, identity)
          else (PG_OAUTH_IDENTITY_OK,
                Some {| id_value := Some subject; id_length := subject_length |})
      | _, _ => (PG_OAUTH_IDENTITY_INVALID_ARGUMENT, identity)
      end
  end.

(** The enumerator's value in C, and the array of codes it indexes. *)
Definition identity_error_value (error : PgOAuthIdentityError) : Z :=
  match error with
  | PG_OAUTH_IDENTITY_OK => 0
  | PG_OAUTH_IDENTITY_INVALID_ARGUMENT => 1
  | PG_OAUTH_IDENTITY_INVALID_SUBJECT => 2
  | PG_OAUTH_IDENTITY_TOO_LARGE => 3
  | PG_OAUTH_IDENTITY_ALLOCATION_FAILED => 4
  end.

Definition pg_oauth_identity_error_code (error : Z) : bytes :=
  code_at [B "ok"; B "invalid_argument"; B "invalid_subject"; B "too_large";
           B "allocation_failed"] (B "unknown") error.

(** ** Reference: printable UTF-8 *)

Definition printable (cp : Z) : Prop :=
  32 <= cp <= 126 \/ 160 <= cp <= 55295 \/ 57344 <= cp <= 1114111.

Definition utf8_encode (cp : Z) : bytes :=
  if cp <? 128 then [zb cp]
  else if cp <? 2048 then [zb (192 + cp / 64); zb (128 + cp mod 64)]
  else if cp <? 65536 then
    [zb (224 + cp / 4096); zb (128 + cp / 64 mod 64); zb (128 + cp mod 64)]
  else [zb (240 + cp / 262144); zb (128 + cp / 4096 mod 64);
        zb (128 + cp / 64 mod 64); zb (128 + cp mod 64)].

Definition printable_utf8 (s : bytes) : Prop :=
  exists cps, Forall printable cps /\ s = concat (map utf8_encode cps).

(** ** The loop against the reference *)

Lemma continuation_byte b :
  (Z.land (bz b) 192 =? 128) = (128 <=? bz b) && (bz b <=? 191).
Proof.
  pose proof (byte_forallb (fun b => Bool.eqb (Z.land (bz b) 192 =? 128)
    ((128 <=? bz b) && (bz b <=? 191))) ltac:(vm_compute; reflexivity) b) as H.
  by apply eqb_prop in H.
Qed.

Lemma land_low n k a : 0 <= n -> k = Z.ones n -> Z.land a k = a mod 2 ^ n.
Proof. intros ? ->. by apply Z.land_ones. Qed.

Lemma continuation_join cp b :
  0 <= cp < 2 ^ 21 ->
  u32 (Z.lor (Z.shiftl cp 6) (Z.land (bz b) 63)) = cp * 64 + bz b mod 64.
Proof.
  intros Hcp. rewrite (land_low 6 63) by done.
  rewrite lor_shiftl by lia. unfold u32. rewrite Z.mod_small; lia.
Qed.

(** One continuation byte, in both directions. *)
Lemma continuations_S n value cp r :
  0 <= cp < 2 ^ 21 ->
  utf8_continuations (S n) value cp = Some r <->
  exists b rest, value = b :: rest /\ 128 <= bz b <= 191 /\
    utf8_continuations n rest (cp * 64 + bz b mod 64) = Some r.
Proof.
  intros Hcp. cbn [utf8_continuations]. destruct value as [|b rest].
  { split; [done|]. by intros (? & ? & ? & _). }
  rewrite continuation_byte, continuation_join by done.
  destruct (_ && _) eqn:E; simpl; split.
  - intros H. exists b, rest. split_and!; [done|lia..|done].
  - by intros (? & ? & [= <- <-] & _ & ?).
  - done.
  - intros (? & ? & [= <- <-] & ? & _). lia.
Qed.

Ltac byte_bounds :=
  repeat match goal with
  | b : byte |- _ =>
      lazymatch goal with
      | _ : 0 <= bz b < 256 |- _ => fail
      | _ => pose proof (bz_range b)
      end
  end.

(** The checks after the continuation bytes. *)
Lemma utf8_step_sound first value cp rest :
  utf8_step first value = Some (cp, rest) ->
  printable cp /\ first :: value = utf8_encode cp ++ rest.
Proof.
  unfold utf8_step, printable. pose proof (bz_range first).
  rewrite (land_low 5 31), (land_low 4 15), (land_low 3 7) by done.
  intros Hs. destruct (bz first <=? 127) eqn:E1.
  { guards. split; [lia|]. unfold utf8_encode.
    rewrite (proj2 (Z.ltb_lt _ _)) by lia. by rewrite zb_bz. }
  repeat case_match; simplify_eq.
  all: repeat match goal with
       | H : utf8_continuations (S _) _ _ = Some _ |- _ =>
           apply continuations_S in H as (? & ? & -> & ? & H); [|lia]
       | H : utf8_continuations O _ _ = Some _ |- _ => injection H as <- <-
       end.
  all: split; [simpl in *; lia|]; unfold utf8_encode.
  all: repeat (rewrite (proj2 (Z.ltb_ge _ _)) by (simpl in *; lia)).
  all: try (rewrite (proj2 (Z.ltb_lt _ _)) by (simpl in *; lia)).
  all: simpl; repeat f_equal; apply bz_inj; rewrite bz_zb; simpl in *; lia.
Qed.

(** The number of continuation bytes and the first bits a lead byte gives. *)
Lemma utf8_step_multi n lead first value cp rest :
  utf8_continuations n value lead = Some (cp, rest) ->
  (n = 1%nat /\ 194 <= bz first <= 223 /\ lead = bz first mod 32 /\ 160 <= cp <= 2047) \/
  (n = 2%nat /\ 224 <= bz first <= 239 /\ lead = bz first mod 16 /\
     (2048 <= cp <= 55295 \/ 57344 <= cp <= 65535)) \/
  (n = 3%nat /\ 240 <= bz first <= 244 /\ lead = bz first mod 8 /\
     65536 <= cp <= 1114111) ->
  (n <= length value)%nat ->
  utf8_step first value = Some (cp, rest).
Proof.
  intros Hc Hn Hlen. unfold utf8_step.
  rewrite (land_low 5 31), (land_low 4 15), (land_low 3 7) by done.
  rewrite (proj2 (Z.leb_gt (bz first) 127)) by lia.
  replace (if (194 <=? bz first) && (bz first <=? 223) then _ else _)
    with (Some (n, lead)) by (repeat case_match; try lia; f_equal; f_equal; lia).
  rewrite (proj2 (Z.ltb_ge (zlen value) (Z.of_nat n))) by (unfold zlen; lia).
  rewrite Hc. case_match eqn:E; [|done]. exfalso. revert E.
  rewrite !orb_true_iff, !andb_true_iff, !bool_decide_eq_true. lia.
Qed.

Lemma continuations_zb n v rest cp :
  0 <= cp < 2 ^ 21 -> 0 <= v < 64 ->
  utf8_continuations (S n) (zb (128 + v) :: rest) cp =
  utf8_continuations n rest (cp * 64 + v).
Proof.
  intros Hcp Hv. cbn [utf8_continuations].
  rewrite continuation_byte, continuation_join, bz_zb by done.
  rewrite (Z.mod_small (128 + v)) by lia.
  replace ((128 <=? 128 + v) && (128 + v <=? 191)) with true by lia.
  simpl. f_equal. lia.
Qed.

Lemma utf8_step_complete cp first value rest :
  printable cp -> utf8_encode cp ++ rest = first :: value ->
  utf8_step first value = Some (cp, rest).
Proof.
  unfold printable, utf8_encode. intros Hp.
  destruct (Z.ltb_spec cp 128).
  { intros [= <- <-]. unfold utf8_step. rewrite bz_zb, Z.mod_small by lia.
    by repeat (case_match; try lia). }
  destruct (Z.ltb_spec cp 2048); [|destruct (Z.ltb_spec cp 65536)]; intros [= <- <-].
  1: apply (utf8_step_multi 1 (cp / 64)).
  4: apply (utf8_step_multi 2 (cp / 4096)).
  7: apply (utf8_step_multi 3 (cp / 262144)).
  all: rewrite ?continuations_zb, ?bz_zb by lia; simpl; try lia.
  all: f_equal; f_equal; lia.
Qed.

Lemma utf8_encode_nonempty cp : utf8_encode cp <> [].
Proof. unfold utf8_encode. by repeat case_match. Qed.

Lemma valid_utf8_loop_sound fuel value :
  valid_utf8_loop fuel value = true -> printable_utf8 value.
Proof.
  revert value. induction fuel as [|fuel IH]; intros [|first value]; try done.
  1,2: intros _; by exists [].
  simpl. destruct (utf8_step first value) as [[cp rest]|] eqn:E; [|done].
  intros (cps & Hcps & ->)%IH. apply utf8_step_sound in E as [Hp E].
  exists (cp :: cps). split; [by constructor|]. done.
Qed.

Lemma valid_utf8_loop_complete fuel cps :
  Forall printable cps -> (length (concat (map utf8_encode cps)) <= fuel)%nat ->
  valid_utf8_loop fuel (concat (map utf8_encode cps)) = true.
Proof.
  intros Hcps. revert fuel. induction Hcps as [|cp cps Hp Hcps IH]; intros fuel Hf.
  { by destruct fuel. }
  simpl in *. rewrite length_app in Hf.
  destruct (utf8_encode cp ++ concat (map utf8_encode cps)) as [|first value] eqn:E.
  { by destruct fuel. }
  assert (0 < length (utf8_encode cp))%nat.
  { destruct (utf8_encode cp) eqn:?; [by apply utf8_encode_nonempty in Heql|simpl; lia]. }
  destruct fuel as [|fuel]; [lia|]. simpl.
  rewrite (utf8_step_complete _ _ _ _ Hp E). apply IH. lia.
Qed.

Lemma valid_utf8_spec value : valid_utf8 value = true <-> printable_utf8 value.
Proof.
  split; [apply valid_utf8_loop_sound|]. intros (cps & Hcps & ->).
  by apply valid_utf8_loop_complete.
Qed.

(** Printable text has no byte below the space, in particular no NUL. *)
Lemma utf8_encode_bytes cp : printable cp -> Forall (fun b => 32 <= bz b /\ bz b <> 127) (utf8_encode cp).
Proof.
  unfold printable, utf8_encode. intros Hp.
  repeat case_match; repeat constructor; rewrite bz_zb; lia.
Qed.

Lemma printable_utf8_bytes s : printable_utf8 s -> Forall (fun b => 32 <= bz b /\ bz b <> 127) s.
Proof.
  intros (cps & Hcps & ->). induction Hcps; simpl; [constructor|].
  apply Forall_app; split; [by apply utf8_encode_bytes|done].
Qed.

Lemma printable_utf8_no_nul s : printable_utf8 s -> x00 ∉ s.
Proof.
  intros Hs%printable_utf8_bytes Hin. rewrite Forall_forall in Hs.
  destruct (Hs x00 Hin) as [? _]. by vm_compute in H.
Qed.

(** What the stage demands of a subject. *)
Definition subject_acceptable (policy : PgOAuthIdentityPolicy) (subject : bytes) : Prop :=
  subject <> [] /\ zlen subject <= id_max_subject_size policy /\
  zlen subject <= id_max_authn_id_size policy /\ printable_utf8 subject.

Lemma subject_check_spec policy subject :
  (id_max_subject_size policy =? 0) || (id_max_authn_id_size policy =? 0) ||
  ((zlen subject =? 0) || (id_max_subject_size policy <? zlen subject) ||
   (id_max_authn_id_size policy <? zlen subject) || memchr x00 subject ||
   negb (valid_utf8 subject)) = false <-> subject_acceptable policy subject.
Proof.
  unfold subject_acceptable. rewrite <- valid_utf8_spec, <- zlen_nil.
  pose proof (zlen_nonneg subject).
  rewrite !orb_false_iff, negb_false_iff, !Z.eqb_neq, !Z.ltb_ge. split; [tauto|].
  intros (? & ? & ? & Hv). split_and!; try lia; [|done].
  by apply memchr_spec, printable_utf8_no_nul, valid_utf8_spec.
Qed.

(** The identity stage succeeds exactly on an acceptable subject whose copy can
    be allocated, the identity is then the subject byte for byte, and on every
    other outcome the identity object is empty. *)
Lemma identity_build_outcome malloc subject policy old :
  let '(error, identity) :=
    pg_oauth_identity_build malloc (Some subject) (Some policy) (Some old) in
  (error = PG_OAUTH_IDENTITY_OK <->
     subject_acceptable policy subject /\ zlen subject <> SIZE_MAX /\
     malloc (zlen subject + 1) = true) /\
  identity = Some (if decide (error = PG_OAUTH_IDENTITY_OK)
                   then {| id_value := Some subject; id_length := zlen subject |}
                   else identity_zero).
Proof.
  pose proof (subject_check_spec policy subject) as Hs.
  unfold pg_oauth_identity_build.
  destruct ((id_max_subject_size policy =? 0) || _); [naive_solver|].
  simpl in Hs. destruct ((zlen subject =? 0) || _ || _ || _ || _); [naive_solver|].
  destruct (Z.eqb_spec (zlen subject) SIZE_MAX); [naive_solver|].
  destruct (malloc _); naive_solver.
Qed.

(** ** Properties *)

(** C31: the byte loop of [valid_utf8] accepts exactly the well-formed UTF-8
    texts of Unicode scalar values without C0, DEL or C1 controls: overlong
    forms, surrogates, values above U+10FFFF and truncated sequences are
    refused, and every other text is accepted. *)
Theorem valid_utf8_iff_printable value :
  valid_utf8 value = true <-> printable_utf8 value.
Proof. apply valid_utf8_spec. Qed.
