(* ===== verification/Jansson.v ===== *)
(** * The JSON library the program is linked with (interface)

    Jansson is not part of the repository: the development is parametric in an
    implementation of it.  [Jansson] gives the values, their documented kinds
    and the three calls the sources make ([json_loadb] with its flags,
    [json_object_get], [json_dumps] with JSON_COMPACT | JSON_SORT_KEYS), and what
    the manual promises of the flag JSON_REJECT_DUPLICATES; the accessor macros
    are derived from the kind as the manual describes them.  [JanssonText] states
    what the manual promises of the strings of a loaded document.
    [reference_jansson] is a concrete implementation, used to evaluate the
    development on examples. *)

From S2P Require Import Prelude Identity.

(** The type of a value together with the content of a scalar or an array. *)
Inductive json_kind (J : Type) :=
| JSON_OBJECT
| JSON_ARRAY (elements : list J)
| JSON_STRING (value : bytes)
| JSON_INTEGER (value : Z)
| JSON_REAL
| JSON_TRUE
| JSON_FALSE
| JSON_NULL.
Arguments JSON_OBJECT {J}.
Arguments JSON_ARRAY {J} _.
Arguments JSON_STRING {J} _.
Arguments JSON_INTEGER {J} _.
Arguments JSON_REAL {J}.
Arguments JSON_TRUE {J}.
Arguments JSON_FALSE {J}.
Arguments JSON_NULL {J}.

(** The flag of jansson.h the program decodes with. *)
Definition JSON_REJECT_DUPLICATES : Z := 1.

(** [json_loadb] takes the text and the flags.  [json_duplicate_keys] is the
    property of a text that some object in it has two members of one name; the
    manual: with JSON_REJECT_DUPLICATES such a text is a decoding error, without
    the flag the last member wins. *)
Class Jansson := {
  json_t : Type;
  json_typeof : json_t -> json_kind json_t;
  json_member : json_t -> bytes -> option json_t;
  json_duplicate_keys : bytes -> Prop;
  json_loadb : bytes -> Z -> option json_t;
  json_dumps : json_t -> option bytes;
  json_loadb_unique : forall document flags j,
    json_loadb document flags = Some j -> Z.land flags JSON_REJECT_DUPLICATES <> 0 ->
    ~ json_duplicate_keys document
}.

Section Accessors.
Context `{Jansson}.

(** The macros of jansson.h; a NULL pointer is of no kind. *)
Definition json_is_object (v : option json_t) : bool :=
  match json_typeof <$> v with Some JSON_OBJECT => true | _ => false end.
Definition json_is_array (v : option json_t) : bool :=
  match json_typeof <$> v with Some (JSON_ARRAY _) => true | _ => false end.
Definition json_is_string (v : option json_t) : bool :=
  match json_typeof <$> v with Some (JSON_STRING _) => true | _ => false end.
Definition json_is_integer (v : option json_t) : bool :=
  match json_typeof <$> v with Some (JSON_INTEGER _) => true | _ => false end.

Definition json_string_value (v : option json_t) : bytes :=
  match json_typeof <$> v with Some (JSON_STRING s) => s | _ => [] end.
Definition json_string_length (v : option json_t) : Z := zlen (json_string_value v).
Definition json_integer_value (v : option json_t) : Z :=
  match json_typeof <$> v with Some (JSON_INTEGER n) => n | _ => 0 end.
Definition json_array_elements (v : option json_t) : list json_t :=
  match json_typeof <$> v with Some (JSON_ARRAY l) => l | _ => [] end.
Definition json_array_size (v : option json_t) : Z := zlen (json_array_elements v).
Definition json_object_get (v : option json_t) (key : bytes) : option json_t :=
  match v with
  | Some j => if json_is_object v then json_member j key else None
  | None => None
  end.

(** The values inside a value. *)
Inductive json_within : json_t -> json_t -> Prop :=
| within_self j : json_within j j
| within_member j k v w : json_member j k = Some v -> json_within v w -> json_within j w
| within_element j l v w :
    json_typeof j = JSON_ARRAY l -> v ∈ l -> json_within v w -> json_within j w.

(** A value that is the string [s]. *)
Definition is_text (v : option json_t) (s : bytes) : Prop :=
  exists j, v = Some j /\ json_typeof j = JSON_STRING s.

Lemma json_is_string_text v :
  json_is_string v = true <-> is_text v (json_string_value v).
Proof.
  unfold json_is_string, json_string_value, is_text.
  destruct v as [j|]; simpl; [|split; [done|]; by intros (? & ? & _)].
  destruct (json_typeof j) eqn:E; split; eauto; try done; intros (? & [= <-] & ?); congruence.
Qed.

Lemma is_text_string v s : is_text v s -> json_is_string v = true.
Proof. intros (j & -> & E). unfold json_is_string. simpl. by rewrite E. Qed.

Lemma is_text_value v s : is_text v s -> json_string_value v = s.
Proof. intros (j & -> & E). unfold json_string_value. simpl. by rewrite E. Qed.

Lemma json_is_array_elements v :
  json_is_array v = true <->
  exists j, v = Some j /\ json_typeof j = JSON_ARRAY (json_array_elements v).
Proof.
  unfold json_is_array, json_array_elements.
  destruct v as [j|]; simpl; [|split; [done|]; by intros (? & ? & _)].
  destruct (json_typeof j) eqn:E; split; eauto; try done; intros (? & [= <-] & ?); congruence.
Qed.

Lemma json_is_object_some v :
  json_is_object v = true -> exists j, v = Some j /\ json_typeof j = JSON_OBJECT.
Proof.
  unfold json_is_object. destruct v as [j|]; simpl; [|done].
  destruct (json_typeof j) eqn:E; try done. eauto.
Qed.

(** A document as every reader of the program loads it. *)
Lemma loaded_unique document j :
  json_loadb document JSON_REJECT_DUPLICATES = Some j -> ~ json_duplicate_keys document.
Proof. intros Hl. by eapply json_loadb_unique. Qed.
End Accessors.

(** ** Well-formed text *)

Definition scalar_value (cp : Z) : Prop :=
  0 <= cp <= 55295 \/ 57344 <= cp <= 1114111.

Definition utf8_text (s : bytes) : Prop :=
  exists cps, Forall scalar_value cps /\ s = concat (map utf8_encode cps).

(** Jansson checks the UTF-8 encoding of every string and, without
    JSON_ALLOW_NUL, refuses a NUL in one. *)
Class JanssonText `{J : Jansson} : Prop := {
  loaded_text : forall document flags j v s,
    json_loadb document flags = Some j -> json_within j v ->
    json_typeof v = JSON_STRING s -> utf8_text s /\ x00 ∉ s
}.
Arguments JanssonText : clear implicits.

(** ** A reference implementation *)

Inductive Json :=
| JObject (members : list (bytes * Json))
| JArray (elements : list Json)
| JString (value : bytes)
| JInteger (value : Z)
| JReal
| JBool (value : bool)
| JNull.

Definition assoc {A} (key : bytes) (l : list (bytes * A)) : option A :=
  snd <$> head (filter (fun kv => kv.1 = key) l).

Definition Json_typeof (j : Json) : json_kind Json :=
  match j with
  | JObject _ => JSON_OBJECT
  | JArray l => JSON_ARRAY l
  | JString s => JSON_STRING s
  | JInteger n => JSON_INTEGER (i64 n)
  | JReal => JSON_REAL
  | JBool true => JSON_TRUE
  | JBool false => JSON_FALSE
  | JNull => JSON_NULL
  end.

Definition Json_member (j : Json) (key : bytes) : option Json :=
  match j with JObject l => assoc key l | _ => None end.

Lemma assoc_in {A} key (l : list (bytes * A)) v : assoc key l = Some v -> (key, v) ∈ l.
Proof.
  unfold assoc. intros ([k w] & Hh & ->)%fmap_Some. simpl.
  destruct (filter _ l) as [|x t] eqn:E; simplify_eq/=.
  assert ((k, w) ∈ filter (fun kv => kv.1 = key) l) as Hin by (rewrite E; constructor).
  by apply list_elem_of_filter in Hin as [<- ?].
Qed.

(** No object in the value has two members of one name. *)
Fixpoint Json_unique (j : Json) : bool :=
  match j with
  | JArray l => forallb Json_unique l
  | JObject l => bool_decide (NoDup (map fst l)) && forallb (fun kv => Json_unique kv.2) l
  | _ => true
  end.

(** Loading from a table of texts with what they say. *)
Definition table_load (documents : list (bytes * Json)) (document : bytes) (flags : Z)
  : option Json :=
  match assoc document documents with
  | Some j => if negb (Z.land flags JSON_REJECT_DUPLICATES =? 0) && negb (Json_unique j)
              then None else Some j
  | None => None
  end.

Definition table_duplicates (documents : list (bytes * Json)) (document : bytes) : Prop :=
  exists j, assoc document documents = Some j /\ Json_unique j = false.

Lemma table_load_assoc documents document flags j :
  table_load documents document flags = Some j -> assoc document documents = Some j.
Proof. unfold table_load. destruct (assoc _ _); [|done]. by destruct (_ && _). Qed.

Lemma table_load_unique documents document flags j :
  table_load documents document flags = Some j -> Z.land flags JSON_REJECT_DUPLICATES <> 0 ->
  ~ table_duplicates documents document.
Proof.
  unfold table_load. intros Hl Hf%Z.eqb_neq (j' & Hj & Hu). by rewrite Hj, Hf, Hu in Hl.
Qed.

(** The documents it can load are given with their values, and how it prints. *)
Definition reference_jansson_with (dumps : Json -> option bytes)
  (documents : list (bytes * Json)) : Jansson := {|
  json_t := Json;
  json_typeof := Json_typeof;
  json_member := Json_member;
  json_duplicate_keys := table_duplicates documents;
  json_loadb := table_load documents;
  json_dumps := dumps;
  json_loadb_unique := table_load_unique documents
|}.

Definition reference_jansson (documents : list (bytes * Json)) : Jansson :=
  reference_jansson_with (fun _ => None) documents.

(** The strings in a value. *)
Fixpoint Json_strings (j : Json) : list bytes :=
  match j with
  | JString s => [s]
  | JArray l => flat_map Json_strings l
  | JObject l => flat_map (fun kv => Json_strings kv.2) l
  | _ => []
  end.

Lemma Json_strings_within dumps documents (j v : Json) s :
  @json_within (reference_jansson_with dumps documents) j v ->
  Json_typeof v = JSON_STRING s -> In s (Json_strings j).
Proof.
  intros Hw. induction Hw as [j|j k v w Hm _ IH|j l v w Hl Hv _ IH]; intros Hs.
  - destruct j as [| | | | |[]|]; simplify_eq/=. by left.
  - specialize (IH Hs). destruct j as [l| | | | | |]; simpl in Hm; try done.
    apply assoc_in in Hm. simpl. apply in_flat_map. exists (k, v).
    by rewrite <- list_elem_of_In.
  - specialize (IH Hs). destruct j as [|l'| | | |[]|]; simplify_eq/=. apply in_flat_map.
    exists v. by rewrite <- list_elem_of_In.
Qed.

(** It keeps the promise where the given documents are ASCII. *)
Definition ascii_text (s : bytes) : bool := forallb (fun c => (0 <? bz c) && (bz c <? 128)) s.

Lemma ascii_utf8 s : ascii_text s = true -> utf8_text s /\ x00 ∉ s.
Proof.
  unfold ascii_text. rewrite forallb_forall. intros Ha. split.
  - exists (map bz s). split.
    + apply Forall_forall. intros z Hz. apply list_elem_of_fmap in Hz as (c & -> & Hc).
      apply list_elem_of_In, Ha in Hc. unfold scalar_value. lia.
    + induction s as [|c s IH]; [done|]. simpl.
      pose proof (Ha c ltac:(by left)) as Hc. unfold utf8_encode at 1.
      replace (bz c <? 128) with true by lia. rewrite zb_bz. simpl. f_equal. apply IH.
      intros d Hd. apply Ha. by right.
  - rewrite list_elem_of_In. intros Hin%Ha. by vm_compute in Hin.
Qed.

Lemma reference_jansson_text dumps documents :
  forallb (fun d => forallb ascii_text (Json_strings d.2)) documents = true ->
  JanssonText (reference_jansson_with dumps documents).
Proof.
  rewrite forallb_forall. intros Hd. constructor. intros document flags j v s Hl Hw Hs.
  apply table_load_assoc, assoc_in, list_elem_of_In, Hd in Hl. rewrite forallb_forall in Hl.
  apply ascii_utf8, Hl. by eapply Json_strings_within.
Qed.

(** Documents written with single quotes in place of double ones. *)
Definition json_text (s : string) : bytes :=
  map (fun c => if bool_decide (c = x27) then x22 else c) (B s).
Arguments json_text s%_string_scope.
