(* ===== verification/Envelope.v ===== *)
(** * The compact JWS envelope (src/jwt_envelope.c, src/algorithms.h)

    Splitting the token, decoding its first two segments, and reading the
    algorithm, type and key id from the protected header.  The theorem
    [envelope_parse_sound] says what a successful parse guarantees. *)

From S2P Require Import Prelude Base64url Identity Jansson.

(** ** Data *)

Definition PG_OAUTH_ALGORITHM_RS256 : Z := 1.
Definition PG_OAUTH_ALGORITHM_ES256 : Z := 2.
Definition PG_OAUTH_ALGORITHM_EDDSA : Z := 4.

Definition PG_OAUTH_TOKEN_TYPE_AT_JWT : Z := 1.
Definition PG_OAUTH_TOKEN_TYPE_APPLICATION_AT_JWT : Z := 2.
Definition PG_OAUTH_TOKEN_TYPES_ALL : Z :=
  Z.lor PG_OAUTH_TOKEN_TYPE_AT_JWT PG_OAUTH_TOKEN_TYPE_APPLICATION_AT_JWT.

Definition PG_OAUTH_JWT_MAX_KEY_ID_SIZE : Z := 1024.

Inductive PgOAuthJwtEnvelopeError :=
| PG_OAUTH_JWT_ENVELOPE_OK
| PG_OAUTH_JWT_ENVELOPE_INVALID_ARGUMENT
| PG_OAUTH_JWT_ENVELOPE_EMPTY
| PG_OAUTH_JWT_ENVELOPE_TOO_LARGE
| PG_OAUTH_JWT_ENVELOPE_INVALID_COMPACT_JWS
| PG_OAUTH_JWT_ENVELOPE_INVALID_BASE64URL
| PG_OAUTH_JWT_ENVELOPE_HEADER_TOO_LARGE
| PG_OAUTH_JWT_ENVELOPE_PAYLOAD_TOO_LARGE
| PG_OAUTH_JWT_ENVELOPE_INVALID_HEADER_JSON
| PG_OAUTH_JWT_ENVELOPE_INVALID_PAYLOAD_JSON
| PG_OAUTH_JWT_ENVELOPE_UNSUPPORTED_HEADER
| PG_OAUTH_JWT_ENVELOPE_INVALID_ALGORITHM
| PG_OAUTH_JWT_ENVELOPE_INVALID_TOKEN_TYPE
| PG_OAUTH_JWT_ENVELOPE_INVALID_KEY_ID.

#[global] Instance envelope_error_eq_dec : EqDecision PgOAuthJwtEnvelopeError.
Proof. solve_decision. Defined.

Record PgOAuthJwtEnvelopePolicy := {
  env_max_token_size : Z;
  env_max_header_size : Z;
  env_max_payload_size : Z;
  env_allowed_algorithms : Z;
  env_allowed_token_types : Z;
  env_allow_missing_token_type : bool
}.

Record PgOAuthJwtEnvelope `{Jansson} := {
  untrusted_header : option json_t;
  untrusted_payload : option json_t;
  env_algorithm : Z;
  env_key_id : option bytes
}.

(** ** Definitions *)

Definition dot : byte := x2e.

(** The loop over the token: [current] is [token[start..i)], [segments] what has
    been stored; the end of the token closes a segment as a dot does. *)
Fixpoint split_compact_jws_loop (token current : bytes) (segments : list bytes)
  : option (list bytes) :=
  match token with
  | [] =>
      if (3 <=? zlen segments) || bool_decide (current = []) then None
      else let segments := segments ++ [current] in
           if zlen segments =? 3 then Some segments else None
  | c :: rest =>
      if negb (bool_decide (c = dot))
      then split_compact_jws_loop rest (current ++ [c]) segments
      else if (3 <=? zlen segments) || bool_decide (current = []) then None
      else split_compact_jws_loop rest [] (segments ++ [current])
  end.

Definition split_compact_jws (token : bytes) : option (bytes * bytes * bytes) :=
  match split_compact_jws_loop token [] [] with
  | Some [header; payload; signature] => Some (header, payload, signature)
  | _ => None
  end.

Definition decode_base64url (malloc : Z -> bool) (segment : bytes) (maximum : Z)
  : option bytes :=
  match pg_oauth_base64url_decoded_size (zlen segment) maximum with
  | None => None
  | Some length =>
      if negb (malloc (length + 1)) then None
      else pg_oauth_base64url_decode (Some segment) length
  end.

Section Envelope.
Context `{Jansson}.

Definition envelope_zero : PgOAuthJwtEnvelope :=
  {| untrusted_header := None; untrusted_payload := None;
     env_algorithm := 0; env_key_id := None |}.

Definition pg_oauth_jwt_envelope_clear (envelope : option PgOAuthJwtEnvelope)
  : option PgOAuthJwtEnvelope :=
  match envelope with
  | None => None
  | Some _ => Some envelope_zero
  end.

Definition decode_json_object (malloc : Z -> bool) (segment : bytes) (maximum : Z)
  (size_error json_error : PgOAuthJwtEnvelopeError)
  : PgOAuthJwtEnvelopeError + json_t :=
  match decode_base64url malloc segment maximum with
  | None => inl size_error
  | Some decoded =>
      match json_loadb decoded JSON_REJECT_DUPLICATES with
      | Some object => if json_is_object (Some object) then inr object else inl json_error
      | None => inl json_error
      end
  end.

Definition forbidden : list bytes :=
  [B "jku"; B "jwk"; B "x5u"; B "x5c"; B "x5t"; B "x5t#S256"; B "crit"; B "zip";
   B "b64"; B "cty"].

Definition has_unsupported_header (header : json_t) : bool :=
  existsb (fun name => match json_object_get (Some header) name with
                       | Some _ => true | None => false end) forbidden.

Definition parse_algorithm (header : json_t) : Z :=
  let value := json_object_get (Some header) (B "alg") in
  if negb (json_is_string value) then 0
  else
    let algorithm := json_string_value value in
    if (json_string_length value =? 5) && bytes_eqb algorithm (B "RS256")
    then PG_OAUTH_ALGORITHM_RS256
    else if (json_string_length value =? 5) && bytes_eqb algorithm (B "ES256")
    then PG_OAUTH_ALGORITHM_ES256
    else if (json_string_length value =? 5) && bytes_eqb algorithm (B "EdDSA")
    then PG_OAUTH_ALGORITHM_EDDSA
    else 0.

(** The test of the [typ] member. *)
Definition token_type_allowed (policy : PgOAuthJwtEnvelopePolicy) (value : option json_t)
  : bool :=
  match value with
  | None => env_allow_missing_token_type policy
  | Some _ =>
      json_is_string value &&
      ((bytes_eqb (json_string_value value) (B "at+jwt") &&
        negb (Z.land (env_allowed_token_types policy) PG_OAUTH_TOKEN_TYPE_AT_JWT =? 0)) ||
       (bytes_eqb (json_string_value value) (B "application/at+jwt") &&
        negb (Z.land (env_allowed_token_types policy)
                PG_OAUTH_TOKEN_TYPE_APPLICATION_AT_JWT =? 0)))
  end.

(** The test of the [kid] member. *)
Definition envelope_key_id (value : option json_t) : option bytes :=
  if negb (json_is_string value) then None
  else if (json_string_length value =? 0) ||
          (PG_OAUTH_JWT_MAX_KEY_ID_SIZE <? json_string_length value) then None
  else if existsb iscntrl (json_string_value value) then None
  else Some (json_string_value value).

(** The guards on the arguments and the policy. *)
Definition envelope_policy_invalid (policy : PgOAuthJwtEnvelopePolicy) : bool :=
  (env_allowed_token_types policy =? 0) ||
  negb (Z.land (env_allowed_token_types policy)
          (Z.lnot PG_OAUTH_TOKEN_TYPES_ALL) =? 0) ||
  (env_max_token_size policy =? 0) || (env_max_header_size policy =? 0) ||
  (env_max_payload_size policy =? 0) || (env_allowed_algorithms policy =? 0).

(** The checks on the two decoded objects. *)
Definition envelope_header_checks (policy : PgOAuthJwtEnvelopePolicy)
  (header payload : json_t) : PgOAuthJwtEnvelopeError + PgOAuthJwtEnvelope :=
  if has_unsupported_header header then inl PG_OAUTH_JWT_ENVELOPE_UNSUPPORTED_HEADER
  else
    let algorithm := parse_algorithm header in
    if (algorithm =? 0) || (Z.land algorithm (env_allowed_algorithms policy) =? 0)
    then inl PG_OAUTH_JWT_ENVELOPE_INVALID_ALGORITHM
    else if negb (token_type_allowed policy (json_object_get (Some header) (B "typ")))
    then inl PG_OAUTH_JWT_ENVELOPE_INVALID_TOKEN_TYPE
    else match envelope_key_id (json_object_get (Some header) (B "kid")) with
         | None => inl PG_OAUTH_JWT_ENVELOPE_INVALID_KEY_ID
         | Some key_id =>
             inr {| untrusted_header := Some header; untrusted_payload := Some payload;
                    env_algorithm := algorithm; env_key_id := Some key_id |}
         end.

(** The parse of a token under a valid policy; [malloc i] answers the [i]-th
    allocation. *)
Definition envelope_parse_token (malloc : nat -> Z -> bool) (token : bytes)
  (policy : PgOAuthJwtEnvelopePolicy) : PgOAuthJwtEnvelopeError + PgOAuthJwtEnvelope :=
  if zlen token =? 0 then inl PG_OAUTH_JWT_ENVELOPE_EMPTY
  else if env_max_token_size policy <? zlen token
  then inl PG_OAUTH_JWT_ENVELOPE_TOO_LARGE
  else if memchr x00 token then inl PG_OAUTH_JWT_ENVELOPE_INVALID_COMPACT_JWS
  else match split_compact_jws token with
  | None => inl PG_OAUTH_JWT_ENVELOPE_INVALID_COMPACT_JWS
  | Some (header, payload, signature) =>
      if negb (pg_oauth_base64url_valid (Some header)) ||
         negb (pg_oauth_base64url_valid (Some payload)) ||
         negb (pg_oauth_base64url_valid (Some signature))
      then inl PG_OAUTH_JWT_ENVELOPE_INVALID_BASE64URL
      else match decode_json_object (malloc 0%nat) header (env_max_header_size policy)
                   PG_OAUTH_JWT_ENVELOPE_HEADER_TOO_LARGE
                   PG_OAUTH_JWT_ENVELOPE_INVALID_HEADER_JSON with
      | inl error => inl error
      | inr header =>
          match decode_json_object (malloc 1%nat) payload (env_max_payload_size policy)
                  PG_OAUTH_JWT_ENVELOPE_PAYLOAD_TOO_LARGE
                  PG_OAUTH_JWT_ENVELOPE_INVALID_PAYLOAD_JSON with
          | inl error => inl error
          | inr payload => envelope_header_checks policy header payload
          end
      end
  end.

Definition pg_oauth_jwt_envelope_parse (malloc : nat -> Z -> bool) (token : option bytes)
  (policy : option PgOAuthJwtEnvelopePolicy) (envelope : option PgOAuthJwtEnvelope)
  : PgOAuthJwtEnvelopeError * option PgOAuthJwtEnvelope :=
  match envelope with
  | None => (PG_OAUTH_JWT_ENVELOPE_INVALID_ARGUMENT, None)
  | Some _ =>
      match token, policy with
      | Some token, Some policy =>
          if envelope_policy_invalid policy
          then (PG_OAUTH_JWT_ENVELOPE_INVALID_ARGUMENT, Some envelope_zero)
          else match envelope_parse_token malloc token policy with
               | inl error => (error, pg_oauth_jwt_envelope_clear envelope)
               | inr result => (PG_OAUTH_JWT_ENVELOPE_OK, Some result)
               end
      | _, _ => (PG_OAUTH_JWT_ENVELOPE_INVALID_ARGUMENT, Some envelope_zero)
      end
  end.
End Envelope.

Definition envelope_error_value (error : PgOAuthJwtEnvelopeError) : Z :=
  match error with
  | PG_OAUTH_JWT_ENVELOPE_OK => 0
  | PG_OAUTH_JWT_ENVELOPE_INVALID_ARGUMENT => 1
  | PG_OAUTH_JWT_ENVELOPE_EMPTY => 2
  | PG_OAUTH_JWT_ENVELOPE_TOO_LARGE => 3
  | PG_OAUTH_JWT_ENVELOPE_INVALID_COMPACT_JWS => 4
  | PG_OAUTH_JWT_ENVELOPE_INVALID_BASE64URL => 5
  | PG_OAUTH_JWT_ENVELOPE_HEADER_TOO_LARGE => 6
  | PG_OAUTH_JWT_ENVELOPE_PAYLOAD_TOO_LARGE => 7
  | PG_OAUTH_JWT_ENVELOPE_INVALID_HEADER_JSON => 8
  | PG_OAUTH_JWT_ENVELOPE_INVALID_PAYLOAD_JSON => 9
  | PG_OAUTH_JWT_ENVELOPE_UNSUPPORTED_HEADER => 10
  | PG_OAUTH_JWT_ENVELOPE_INVALID_ALGORITHM => 11
  | PG_OAUTH_JWT_ENVELOPE_INVALID_TOKEN_TYPE => 12
  | PG_OAUTH_JWT_ENVELOPE_INVALID_KEY_ID => 13
  end.

Definition pg_oauth_jwt_envelope_error_code (error : Z) : bytes :=
  code_at
    [B "ok"; B "invalid_argument"; B "empty"; B "too_large"; B "invalid_compact_jws";
     B "invalid_base64url"; B "header_too_large"; B "payload_too_large";
     B "invalid_header_json"; B "invalid_payload_json"; B "unsupported_header";
     B "invalid_algorithm"; B "invalid_token_type"; B "invalid_key_id"]
    (B "unknown") error.

(** ** Splitting *)

Definition segment_ok (s : bytes) : Prop := s <> [] /\ dot ∉ s.

Fixpoint dot_join (segments : list bytes) : bytes :=
  match segments with
  | [] => []
  | [s] => s
  | s :: rest => s ++ dot :: dot_join rest
  end.

Lemma split_loop_sound token current segments out :
  dot ∉ current ->
  split_compact_jws_loop token current segments = Some out ->
  exists more, out = segments ++ more /\ more <> [] /\ Forall segment_ok more /\
    current ++ token = dot_join more.
Proof.
  revert current segments. induction token as [|c token IH]; intros current segments Hd; simpl.
  - intros Hs. guards. prop_bools. exists [current].
    rewrite app_nil_r. split_and!; try done. by repeat constructor.
  - case_bool_decide as Hc; simpl.
    + intros Hs. guards. prop_bools. apply IH in Hs as (more & -> & Hne & Hall & Hj).
      2: apply not_elem_of_nil.
      simpl in Hj. subst token. exists (current :: more). rewrite <- app_assoc. split_and!; try done.
      * by repeat constructor.
      * by destruct more.
    + intros Hs. apply IH in Hs as (more & -> & Hne & Hall & Hj).
      2:{ rewrite not_elem_of_app, list_elem_of_singleton. by split; [|congruence]. }
      rewrite <- app_assoc in Hj. by exists more.
Qed.

Lemma split_loop_run s token current segments :
  dot ∉ s ->
  split_compact_jws_loop (s ++ token) current segments =
  split_compact_jws_loop token (current ++ s) segments.
Proof.
  revert current. induction s as [|c s IH]; intros current; simpl; [by rewrite app_nil_r|].
  rewrite not_elem_of_cons. intros [Hc Hs].
  rewrite bool_decide_eq_false_2 by congruence. simpl. rewrite IH by done.
  by rewrite <- app_assoc.
Qed.

Lemma split_compact_jws_spec token h p s :
  split_compact_jws token = Some (h, p, s) <->
  token = h ++ dot :: p ++ dot :: s /\ segment_ok h /\ segment_ok p /\ segment_ok s.
Proof.
  unfold split_compact_jws. split.
  - destruct (split_compact_jws_loop token [] []) as [out|] eqn:E; [|done].
    apply split_loop_sound in E as (more & -> & _ & Hall & Ht); [|apply not_elem_of_nil].
    simpl in *. intros Hm. guards. rewrite !Forall_cons in Hall. naive_solver.
  - intros (-> & [Hh Hh'] & [Hp Hp'] & [Hs Hs']).
    do 2 (rewrite split_loop_run by done; simpl; rewrite bool_decide_eq_false_2 by done;
          simpl).
    rewrite <- (app_nil_r s) at 1. rewrite split_loop_run by done. simpl.
    by rewrite bool_decide_eq_false_2.
Qed.

(** ** What the checks mean *)

Section EnvelopeFacts.
Context `{Jansson}.

(** The decoded object of a segment. *)
Definition segment_object (segment : bytes) (maximum : Z) (object : json_t) : Prop :=
  exists decoded, canonical segment /\ decoded = base64url_decode_blocks segment /\
    zlen decoded <= maximum /\ json_loadb decoded JSON_REJECT_DUPLICATES = Some object /\
    ~ json_duplicate_keys decoded /\ json_typeof object = JSON_OBJECT.

Lemma decode_base64url_spec malloc segment maximum decoded :
  decode_base64url malloc segment maximum = Some decoded ->
  (segment <> [] /\ canonical segment) /\ decoded = base64url_decode_blocks segment /\
  zlen decoded <= maximum.
Proof.
  unfold decode_base64url. intros Hd. guards.
  apply decode_spec in Hd as ([Hne Hc] & -> & Hn). split_and!; try done.
  apply canonical_spec in Hc as [Hc _].
  rewrite <- (decoded_size_value _ _ Hc Hn).
  unfold pg_oauth_base64url_decoded_size in *. guards; lia.
Qed.

Lemma decode_base64url_complete malloc segment maximum :
  (forall n, malloc n = true) -> segment <> [] -> canonical segment ->
  zlen (base64url_decode_blocks segment) <= maximum ->
  zlen segment <= SIZE_MAX ->
  decode_base64url malloc segment maximum = Some (base64url_decode_blocks segment).
Proof.
  intros Hm Hne Hc Hlen Hmax. unfold decode_base64url.
  pose proof (decode_blocks_shorter segment).
  destruct (proj1 (canonical_spec _) Hc) as [Hmod _].
  pose proof (decoded_size_ok _ Hmod ltac:(lia)) as Hok.
  replace (pg_oauth_base64url_decoded_size (zlen segment) maximum)
    with (Some (zlen (base64url_decode_blocks segment))).
  - rewrite Hm. by apply decode_spec.
  - revert Hok. unfold pg_oauth_base64url_decoded_size. intros.
    repeat case_match; simplify_eq; try done; try lia; f_equal; lia.
Qed.

Lemma decode_json_object_spec malloc segment maximum e1 e2 object :
  decode_json_object malloc segment maximum e1 e2 = inr object ->
  segment_object segment maximum object.
Proof.
  unfold decode_json_object. intros Hd. guards.
  destruct (decode_base64url_spec _ _ _ _ H0) as ([_ Hc] & -> & Hlen).
  apply json_is_object_some in H2 as (j & [= <-] & Hj).
  eexists. split_and!; try done. by eapply loaded_unique.
Qed.

Lemma decode_json_object_complete malloc segment maximum e1 e2 object :
  (forall n, malloc n = true) -> segment <> [] -> zlen segment <= SIZE_MAX ->
  segment_object segment maximum object ->
  decode_json_object malloc segment maximum e1 e2 = inr object.
Proof.
  intros Hm Hne Hmax (decoded & Hc & -> & Hlen & Hload & _ & Hobj).
  unfold decode_json_object. rewrite decode_base64url_complete, Hload by done.
  unfold json_is_object. simpl. by rewrite Hobj.
Qed.

(** The algorithm named by the header. *)
Definition header_algorithm (header : json_t) (algorithm : Z) : Prop :=
  exists name, is_text (json_object_get (Some header) (B "alg")) name /\
    ((name = B "RS256" /\ algorithm = PG_OAUTH_ALGORITHM_RS256) \/
     (name = B "ES256" /\ algorithm = PG_OAUTH_ALGORITHM_ES256) \/
     (name = B "EdDSA" /\ algorithm = PG_OAUTH_ALGORITHM_EDDSA)).

Lemma parse_algorithm_spec header algorithm :
  parse_algorithm header = algorithm /\ algorithm <> 0 <->
  header_algorithm header algorithm.
Proof.
  unfold parse_algorithm, header_algorithm, json_string_length. split.
  - intros [<- Hn]. destruct (json_is_string _) eqn:E; [|done].
    apply json_is_string_text in E. eexists. split; [done|].
    simpl in *. guards; prop_bools; tauto.
  - intros (name & Ht & Hname). rewrite (is_text_string _ _ Ht), (is_text_value _ _ Ht).
    by destruct Hname as [[-> ->]|[[-> ->]|[-> ->]]].
Qed.

(** The header type the policy admits. *)
Definition header_type_ok (policy : PgOAuthJwtEnvelopePolicy) (header : json_t) : Prop :=
  match json_object_get (Some header) (B "typ") with
  | None => env_allow_missing_token_type policy = true
  | v => (is_text v (B "at+jwt") /\ Z.land (env_allowed_token_types policy) 1 <> 0) \/
         (is_text v (B "application/at+jwt") /\
          Z.land (env_allowed_token_types policy) 2 <> 0)
  end.

Lemma token_type_allowed_spec policy header :
  token_type_allowed policy (json_object_get (Some header) (B "typ")) = true <->
  header_type_ok policy header.
Proof.
  unfold token_type_allowed, header_type_ok.
  destruct (json_object_get _ _) as [v|]; [|done].
  rewrite andb_true_iff, orb_true_iff, !andb_true_iff, !negb_true_iff, !Z.eqb_neq.
  unfold bytes_eqb. rewrite !bool_decide_eq_true. split.
  - intros [Ht%json_is_string_text [[E ?]|[E ?]]]; rewrite E in Ht; auto.
  - intros [[Ht ?]|[Ht ?]];
      rewrite (is_text_value _ _ Ht); (split; [by eapply is_text_string|auto]).
Qed.

(** A usable key id. *)
Definition key_id_ok (maximum : Z) (key_id : bytes) : Prop :=
  key_id <> [] /\ zlen key_id <= maximum /\ Forall (fun c => iscntrl c = false) key_id.

Lemma existsb_cntrl s : existsb iscntrl s = false <-> Forall (fun c => iscntrl c = false) s.
Proof.
  induction s as [|c s IH]; simpl; [by split; [constructor|]|].
  rewrite orb_false_iff, Forall_cons. tauto.
Qed.

Lemma envelope_key_id_spec value key_id :
  envelope_key_id value = Some key_id <->
  is_text value key_id /\ key_id_ok PG_OAUTH_JWT_MAX_KEY_ID_SIZE key_id.
Proof.
  unfold envelope_key_id, key_id_ok, json_string_length. rewrite <- existsb_cntrl. split.
  - destruct (json_is_string value) eqn:E; [|done]. apply json_is_string_text in E.
    simpl. intros Hk. guards. rewrite <- zlen_nil. split; [done|]. split; [lia|]. split; [lia|done].
  - intros (Ht & Hne & Hl & Hc). rewrite <- zlen_nil in Hne.
    rewrite (is_text_string _ _ Ht), (is_text_value _ _ Ht).
    simpl. rewrite Hc. case_match; [lia|done].
Qed.

Lemma has_unsupported_header_spec header :
  has_unsupported_header header = false <->
  forall name, name ∈ forbidden -> json_object_get (Some header) name = None.
Proof.
  unfold has_unsupported_header. rewrite <- not_true_iff_false, existsb_exists.
  split.
  - intros Hn name Hin%list_elem_of_In. destruct (json_object_get _ _) eqn:E; [|done].
    exfalso. apply Hn. exists name. by rewrite E.
  - intros Hall (name & Hin%list_elem_of_In & Hm). by rewrite Hall in Hm.
Qed.

(** ** What an accepted token is *)

Record accepted_envelope (policy : PgOAuthJwtEnvelopePolicy) (token : bytes)
  (envelope : PgOAuthJwtEnvelope) (h p s : bytes) (header payload : json_t)
  (key_id : bytes) : Prop := {
  ae_size : zlen token <= env_max_token_size policy;
  ae_split : token = h ++ dot :: p ++ dot :: s;
  ae_segments : segment_ok h /\ segment_ok p /\ segment_ok s;
  ae_signature : canonical s;
  ae_header : segment_object h (env_max_header_size policy) header;
  ae_payload : segment_object p (env_max_payload_size policy) payload;
  ae_unsupported : forall name, name ∈ forbidden ->
    json_object_get (Some header) name = None;
  ae_algorithm : header_algorithm header (env_algorithm envelope);
  ae_allowed : Z.land (env_algorithm envelope) (env_allowed_algorithms policy) <> 0;
  ae_type : header_type_ok policy header;
  ae_key_id : is_text (json_object_get (Some header) (B "kid")) key_id;
  ae_key_id_ok : key_id_ok PG_OAUTH_JWT_MAX_KEY_ID_SIZE key_id;
  ae_result : envelope =
    {| untrusted_header := Some header; untrusted_payload := Some payload;
       env_algorithm := env_algorithm envelope; env_key_id := Some key_id |}
}.

Lemma envelope_header_checks_spec policy header payload envelope :
  envelope_header_checks policy header payload = inr envelope <->
  (forall name, name ∈ forbidden -> json_object_get (Some header) name = None) /\
  header_algorithm header (env_algorithm envelope) /\
  Z.land (env_algorithm envelope) (env_allowed_algorithms policy) <> 0 /\
  header_type_ok policy header /\
  exists key_id, is_text (json_object_get (Some header) (B "kid")) key_id /\
    key_id_ok PG_OAUTH_JWT_MAX_KEY_ID_SIZE key_id /\
    envelope = {| untrusted_header := Some header; untrusted_payload := Some payload;
                  env_algorithm := env_algorithm envelope; env_key_id := Some key_id |}.
Proof.
  rewrite <- has_unsupported_header_spec, <- parse_algorithm_spec, <- token_type_allowed_spec.
  unfold envelope_header_checks. split.
  - intros Hc. destruct (has_unsupported_header _); [done|].
    destruct (_ || _) eqn:Ea; [done|]. destruct (token_type_allowed _ _); [|done]. simpl in Hc.
    destruct (envelope_key_id _) as [k|] eqn:Ek; simplify_eq. simpl.
    apply envelope_key_id_spec in Ek as [? ?]. split_and!; try done; try lia. by exists k.
  - intros (-> & [Ha Hn] & Hl & -> & k & Hk & Hok & ->). simpl in *. rewrite Ha.
    rewrite (proj2 (Z.eqb_neq _ _) Hn), (proj2 (Z.eqb_neq _ _) Hl). simpl.
    by rewrite (proj2 (envelope_key_id_spec _ _) (conj Hk Hok)).
Qed.

Lemma canonical_no_nul s : canonical s -> x00 ∉ s.
Proof.
  intros (_ & Hv & _)%canonical_spec Hin%list_elem_of_In.
  unfold valid_chars in Hv. rewrite forallb_forall in Hv. by specialize (Hv _ Hin).
Qed.

Lemma envelope_parse_token_sound malloc token policy envelope :
  envelope_parse_token malloc token policy = inr envelope ->
  exists h p s header payload key_id,
    accepted_envelope policy token envelope h p s header payload key_id.
Proof.
  unfold envelope_parse_token. intros Hp.
  destruct (zlen token =? 0); [done|]. destruct (_ <? _) eqn:Esize; [done|].
  destruct (memchr _ _); [done|].
  destruct (split_compact_jws token) as [[[h p] s]|] eqn:Esplit; [|done].
  destruct (_ || _ || _) eqn:Ev in Hp; [done|]. prop_bools.
  apply split_compact_jws_spec in Esplit as (Ht & Hseg).
  destruct (decode_json_object (malloc 0%nat) _ _ _ _) as [|header] eqn:Eh; [done|].
  destruct (decode_json_object (malloc 1%nat) _ _ _ _) as [|payload] eqn:Epl; [done|].
  apply decode_json_object_spec in Eh, Epl.
  apply envelope_header_checks_spec in Hp as (? & ? & ? & ? & k & ? & ? & ?).
  exists h, p, s, header, payload, k. split; try done; try lia.
  by apply valid_canonical.
Qed.

Lemma envelope_parse_token_complete malloc token policy envelope h p s header payload key_id :
  (forall i n, malloc i n = true) -> zlen token <= SIZE_MAX ->
  accepted_envelope policy token envelope h p s header payload key_id ->
  envelope_parse_token malloc token policy = inr envelope.
Proof.
  intros Hm Hmax [Hsize Hsplit ([Hh Hh'] & [Hp Hp'] & [Hs Hs']) Hcs Hhd Hpl Hun Hal Hallow Hty Hk Hkok Hres].
  assert (canonical h) as Hch by (by destruct Hhd as (? & ? & _)).
  assert (canonical p) as Hcp by (by destruct Hpl as (? & ? & _)).
  assert (zlen token = zlen h + zlen p + zlen s + 2) as Hlen.
  { rewrite Hsplit. autorewrite with pgo. lia. }
  pose proof (zlen_nonneg h); pose proof (zlen_nonneg p); pose proof (zlen_nonneg s).
  unfold envelope_parse_token. rewrite (proj2 (Z.eqb_neq _ _)), (proj2 (Z.ltb_ge _ _)) by lia.
  replace (memchr x00 token) with false.
  2:{ symmetry. apply memchr_spec. rewrite Hsplit. intros Hin.
      pose proof (canonical_no_nul h Hch). pose proof (canonical_no_nul p Hcp).
      pose proof (canonical_no_nul s Hcs).
      rewrite elem_of_app, elem_of_cons, elem_of_app, elem_of_cons in Hin. naive_solver. }
  rewrite (proj2 (split_compact_jws_spec token h p s)) by done.
  rewrite !(fun x => proj2 (valid_canonical x)) by done. simpl.
  rewrite !(decode_json_object_complete _ _ _ _ _ header) by (done || lia).
  rewrite !(decode_json_object_complete _ _ _ _ _ payload) by (done || lia).
  apply envelope_header_checks_spec. split_and!; try done. by exists key_id.
Qed.
End EnvelopeFacts.

#[global] Arguments pg_oauth_jwt_envelope_parse : simpl never.

(** ** An example token *)

Module EnvelopeExample.
Definition header_text : bytes := json_text "{'alg':'RS256','typ':'at+jwt','kid':'k1'}".
Definition payload_text : bytes := json_text "{'iss':'https://idp','sub':'u'}".

Definition header_object : Json :=
  JObject [(B "alg", JString (B "RS256")); (B "typ", JString (B "at+jwt"));
           (B "kid", JString (B "k1"))].
Definition payload_object : Json :=
  JObject [(B "iss", JString (B "https://idp")); (B "sub", JString (B "u"))].

#[export] Instance lib : Jansson :=
  reference_jansson [(header_text, header_object); (payload_text, payload_object)].

Definition header_segment : bytes := base64url_encode_blocks header_text.
Definition payload_segment : bytes := base64url_encode_blocks payload_text.

Definition token : bytes := header_segment ++ dot :: payload_segment ++ dot :: B "c2ln".

Definition policy : PgOAuthJwtEnvelopePolicy :=
  {| env_max_token_size := 1024; env_max_header_size := 4096;
     env_max_payload_size := 1024; env_allowed_algorithms := 3;
     env_allowed_token_types := 3; env_allow_missing_token_type := false |}.

Definition envelope : PgOAuthJwtEnvelope :=
  {| untrusted_header := Some (header_object : json_t);
     untrusted_payload := Some (payload_object : json_t);
     env_algorithm := 1; env_key_id := Some (B "k1") |}.
End EnvelopeExample.

(** ** Properties *)

(** C19: the envelope stage is strict.  A successful parse means the token is
    three non-empty dot-separated canonical Base64URL segments within the size
    bounds, its first two are bounded JSON objects, the header has none of the
    forbidden members, names an allowed algorithm, an allowed type and a
    bounded key id without control characters, and the result is exactly these
    values; after any failure the envelope object is empty. *)
Theorem envelope_parse_sound `{Jansson} malloc token policy old :
  let '(error, result) :=
    pg_oauth_jwt_envelope_parse malloc (Some token) (Some policy) (Some old) in
  (error = PG_OAUTH_JWT_ENVELOPE_OK ->
     envelope_policy_invalid policy = false /\
     exists envelope h p s header payload key_id, result = Some envelope /\
       accepted_envelope policy token envelope h p s header payload key_id) /\
  (error <> PG_OAUTH_JWT_ENVELOPE_OK -> result = Some envelope_zero).
Proof.
  unfold pg_oauth_jwt_envelope_parse. destruct (envelope_policy_invalid policy); [done|].
  destruct (envelope_parse_token malloc token policy) as [error|envelope] eqn:E; simpl.
  - split; [|done]. intros ->. exfalso. revert E.
    unfold envelope_parse_token, envelope_header_checks, decode_json_object.
    intros. guards.
  - split; [|done]. intros _. split; [done|].
    apply envelope_parse_token_sound in E. naive_solver.
Qed.

(** C28: the envelope stage is not stricter than that: when memory suffices,
    every token with these properties is accepted. *)
Theorem envelope_parse_complete `{Jansson} malloc token policy old envelope
    h p s header payload key_id :
  (forall i n, malloc i n = true) -> zlen token <= SIZE_MAX ->
  envelope_policy_invalid policy = false ->
  accepted_envelope policy token envelope h p s header payload key_id ->
  pg_oauth_jwt_envelope_parse malloc (Some token) (Some policy) (Some old) =
    (PG_OAUTH_JWT_ENVELOPE_OK, Some envelope).
Proof.
  intros Hm Hmax Hpol Hacc. unfold pg_oauth_jwt_envelope_parse. rewrite Hpol.
  by erewrite envelope_parse_token_complete.
Qed.

Lemma envelope_parse_complete_witness :
  fst (pg_oauth_jwt_envelope_parse (H := EnvelopeExample.lib) (fun _ _ => true) (Some EnvelopeExample.token)
    (Some EnvelopeExample.policy) (Some envelope_zero)) = PG_OAUTH_JWT_ENVELOPE_OK.
Proof.
  assert (is_inr (envelope_parse_token (H := EnvelopeExample.lib) (fun _ _ => true) EnvelopeExample.token
    EnvelopeExample.policy) = true) as E by (vm_compute; reflexivity).
  destruct (envelope_parse_token _ _ _) as [|envelope] eqn:Et; [discriminate E|].
  apply envelope_parse_token_sound in Et as (h & p & s & header & payload & key_id & Hacc).
  rewrite (envelope_parse_complete (fun _ _ => true) _ _ _ envelope h p s header payload key_id).
  - reflexivity.
  - reflexivity.
  - vm_compute. discriminate.
  - vm_compute. reflexivity.
  - exact Hacc.
Defined.
