(* ===== verification/Claims.v ===== *)
(** * Claim validation (src/claims.c, src/claims.h)

    The checks on a payload whose signature has been verified: issuer,
    audience, times, subject, identity, scopes and the delegated role.
    [claims_accepted] states declaratively what an acceptable payload is;
    [claims_validate_correct] proves that the code accepts exactly those. *)

From S2P Require Import Prelude Identity Jansson.

(** ** Data *)

Inductive PgOAuthClaimsError :=
| PG_OAUTH_CLAIMS_OK
| PG_OAUTH_CLAIMS_INVALID_ARGUMENT
| PG_OAUTH_CLAIMS_INVALID_ISSUER
| PG_OAUTH_CLAIMS_INVALID_AUDIENCE
| PG_OAUTH_CLAIMS_MISSING_EXPIRY
| PG_OAUTH_CLAIMS_INVALID_EXPIRY
| PG_OAUTH_CLAIMS_EXPIRED
| PG_OAUTH_CLAIMS_INVALID_NOT_BEFORE
| PG_OAUTH_CLAIMS_NOT_YET_VALID
| PG_OAUTH_CLAIMS_INVALID_ISSUED_AT
| PG_OAUTH_CLAIMS_ISSUED_IN_FUTURE
| PG_OAUTH_CLAIMS_INVALID_SUBJECT
| PG_OAUTH_CLAIMS_INVALID_IDENTITY
| PG_OAUTH_CLAIMS_INVALID_SCOPE
| PG_OAUTH_CLAIMS_INSUFFICIENT_SCOPE
| PG_OAUTH_CLAIMS_INVALID_ROLES
| PG_OAUTH_CLAIMS_UNAUTHORIZED_ROLE.

#[global] Instance claims_error_eq_dec : EqDecision PgOAuthClaimsError.
Proof. solve_decision. Defined.

Record PgOAuthClaimsPolicy := {
  cl_issuer : option bytes;
  cl_audiences : option bytes;
  cl_required_scopes : option bytes;
  cl_identity_claim : option bytes;
  cl_role_claim : option bytes;
  cl_requested_role : option bytes;
  cl_current_time : Z;
  cl_clock_skew_seconds : Z;
  cl_max_identity_size : Z;
  cl_max_subject_size : Z;
  cl_max_audiences : Z;
  cl_max_scopes : Z;
  cl_max_roles : Z;
  cl_max_role_size : Z
}.

Record PgOAuthValidatedClaims := {
  vc_identity : option bytes;
  vc_identity_length : Z;
  vc_expires_at : Z
}.

Definition claims_zero : PgOAuthValidatedClaims :=
  {| vc_identity := None; vc_identity_length := 0; vc_expires_at := 0 |}.

(** The contents of a C string setting; [valid_policy] rules out NULL. *)
Definition setting (s : option bytes) : bytes := default [] (c_str <$> s).

(** ** Definitions *)

(** The loop of [valid_identity_string] over the bytes. *)
Fixpoint identity_bytes_ok (text : bytes) : bool :=
  match text with
  | [] => true
  | c :: rest =>
      if iscntrl c ||
         ((bz c =? 194) &&
          match rest with
          | d :: _ => (128 <=? bz d) && (bz d <=? 159)
          | [] => false
          end)
      then false
      else identity_bytes_ok rest
  end.

Definition valid_policy (policy : PgOAuthClaimsPolicy) : bool :=
  is_nonempty (cl_issuer policy) && is_nonempty (cl_audiences policy) &&
  is_nonempty (cl_required_scopes policy) && is_nonempty (cl_identity_claim policy) &&
  bool_decide (is_Some (cl_role_claim policy)) && (0 <=? cl_current_time policy) &&
  (cl_clock_skew_seconds policy <=? 300) && (0 <? cl_max_identity_size policy) &&
  (0 <? cl_max_subject_size policy) && (cl_max_subject_size policy <=? 1024) &&
  (0 <? cl_max_audiences policy) && (cl_max_audiences policy <=? 64) &&
  (0 <? cl_max_scopes policy) && (cl_max_scopes policy <=? 256) &&
  (bool_decide (setting (cl_role_claim policy) = []) ||
   (is_nonempty (cl_requested_role policy) &&
    (0 <? cl_max_roles policy) && (cl_max_roles policy <=? 256) &&
    (0 <? cl_max_role_size policy))).

(** One entry of the configured list: trimmed, counted, compared. *)
Definition configured_audience_body (token : bytes) (maximum : Z)
  (count : Z) (entry : bytes) (_ : bool) : Z + bool :=
  let entry := trim_by isspace entry in
  if bool_decide (entry = []) || (maximum <? count + 1) then inr false
  else if (zlen entry =? zlen token) && bytes_eqb entry token then inr true
  else inl (count + 1).

Definition configured_audience_matches (configured token : bytes) (maximum : Z) : bool :=
  default false
    (comma_loop (configured_audience_body token maximum) (fun _ => false)
       (S (length configured)) configured 0).

Definition scope_byte (c : byte) : bool :=
  let byte := bz c in
  (byte =? 33) || ((35 <=? byte) && (byte <=? 91)) || ((93 <=? byte) && (byte <=? 126)).

Definition valid_scope_token (scope : bytes) : bool :=
  if zlen scope =? 0 then false else forallb scope_byte scope.

(** One scope of the token's scope string; [starts]/[lengths] of the C code are
    the list [seen], and the pair is (found, valid). *)
Definition scope_string_body (required : bytes) (maximum : Z)
  (st : list bytes * bool) (scope : bytes) : (list bytes * bool) + (bool * bool) :=
  let '(seen, found) := st in
  if (zlen scope =? 0) || (maximum <=? zlen seen) || negb (valid_scope_token scope)
  then inr (false, false)
  else if existsb (bytes_eqb scope) seen then inr (false, false)
  else inl (seen ++ [scope], found || bytes_eqb scope required).

Definition scope_string_contains (scopes required : bytes) (maximum : Z) : bool * bool :=
  if zlen scopes =? 0 then (false, false)
  else sep_loop x20 (scope_string_body required maximum)
         (fun st => (snd st, true)) scopes [] ([], false).

Section Claims.
Context `{Jansson}.

Definition json_string_equals (value : option json_t) (expected : option bytes) : bool :=
  match expected with
  | None => false
  | Some expected => json_is_string value && bytes_eqb (json_string_value value) (c_str expected)
  end.

Definition valid_identity_string (value : option json_t) (maximum : Z) : bool :=
  json_is_string value && negb (json_string_length value =? 0) &&
  (json_string_length value <=? maximum) && identity_bytes_ok (json_string_value value).

(** The loop over an array of roles; [previous] holds the entries before it. *)
Fixpoint roles_loop (requested : bytes) (max_role_size : Z)
  (entries previous : list json_t) (found : bool) : PgOAuthClaimsError :=
  match entries with
  | [] => if found then PG_OAUTH_CLAIMS_OK else PG_OAUTH_CLAIMS_UNAUTHORIZED_ROLE
  | e :: entries =>
      let entry := json_string_value (Some e) in
      if negb (json_is_string (Some e)) || (zlen entry =? 0) ||
         (max_role_size <? zlen entry)
      then PG_OAUTH_CLAIMS_INVALID_ROLES
      else if existsb iscntrl entry then PG_OAUTH_CLAIMS_INVALID_ROLES
      else if existsb (fun p => bytes_eqb (json_string_value (Some p)) entry) previous
      then PG_OAUTH_CLAIMS_INVALID_ROLES
      else roles_loop requested max_role_size entries (previous ++ [e])
             (found || bytes_eqb entry requested)
  end.

Definition validate_requested_role (payload : option json_t) (policy : PgOAuthClaimsPolicy)
  : PgOAuthClaimsError :=
  if bool_decide (setting (cl_role_claim policy) = []) then PG_OAUTH_CLAIMS_OK
  else
    let roles := json_object_get payload (setting (cl_role_claim policy)) in
    let requested := setting (cl_requested_role policy) in
    if (zlen requested =? 0) || (cl_max_role_size policy <? zlen requested)
    then PG_OAUTH_CLAIMS_INVALID_ARGUMENT
    else if json_is_string roles then
      let role := json_string_value roles in
      if (zlen role =? 0) || (cl_max_role_size policy <? zlen role)
      then PG_OAUTH_CLAIMS_INVALID_ROLES
      else if existsb iscntrl role then PG_OAUTH_CLAIMS_INVALID_ROLES
      else if bytes_eqb role requested then PG_OAUTH_CLAIMS_OK
      else PG_OAUTH_CLAIMS_UNAUTHORIZED_ROLE
    else if negb (json_is_array roles) || (json_array_size roles =? 0) ||
            (cl_max_roles policy <? json_array_size roles)
    then PG_OAUTH_CLAIMS_INVALID_ROLES
    else roles_loop requested (cl_max_role_size policy) (json_array_elements roles) [] false.

(** The loop that checks the entries of an [aud] array. *)
Fixpoint audience_entries_ok (entries previous : list json_t) : bool :=
  match entries with
  | [] => true
  | e :: entries =>
      if negb (json_is_string (Some e)) || (json_string_length (Some e) =? 0) then false
      else if existsb (fun p => bytes_eqb (json_string_value (Some p))
                                  (json_string_value (Some e))) previous
      then false
      else audience_entries_ok entries (previous ++ [e])
  end.

Definition audience_matches (audience : option json_t) (policy : PgOAuthClaimsPolicy) : bool :=
  let configured := setting (cl_audiences policy) in
  if json_is_string audience then
    negb (json_string_length audience =? 0) &&
    configured_audience_matches configured (json_string_value audience)
      (cl_max_audiences policy)
  else if negb (json_is_array audience) || (json_array_size audience =? 0) ||
          (cl_max_audiences policy <? json_array_size audience)
  then false
  else if negb (audience_entries_ok (json_array_elements audience) []) then false
  else existsb (fun e => configured_audience_matches configured
                           (json_string_value (Some e)) (cl_max_audiences policy))
         (json_array_elements audience).

(** The loop over an array of scopes. *)
Fixpoint scope_array_loop (required : bytes) (entries previous : list json_t)
  (found : bool) : bool * bool :=
  match entries with
  | [] => (found, true)
  | e :: entries =>
      let entry := json_string_value (Some e) in
      if negb (json_is_string (Some e)) || negb (valid_scope_token entry)
      then (false, false)
      else if existsb (fun p => bytes_eqb (json_string_value (Some p)) entry) previous
      then (false, false)
      else scope_array_loop required entries (previous ++ [e])
             (found || bytes_eqb entry required)
  end.

Definition scope_array_contains (scopes : option json_t) (required : bytes) (maximum : Z)
  : bool * bool :=
  if negb (json_is_array scopes) || (json_array_size scopes =? 0) ||
     (maximum <? json_array_size scopes)
  then (false, false)
  else scope_array_loop required (json_array_elements scopes) [] false.

(** One required scope. *)
Definition required_scope_body (token_scopes : option json_t) (max_scopes : Z)
  (count : Z) (required : bytes) : Z + PgOAuthClaimsError :=
  if (zlen required =? 0) || (max_scopes <? count + 1) || negb (valid_scope_token required)
  then inr PG_OAUTH_CLAIMS_INVALID_ARGUMENT
  else
    let '(found, valid) :=
      if json_is_string token_scopes
      then scope_string_contains (json_string_value token_scopes) required max_scopes
      else scope_array_contains token_scopes required max_scopes in
    if negb valid then inr PG_OAUTH_CLAIMS_INVALID_SCOPE
    else if negb found then inr PG_OAUTH_CLAIMS_INSUFFICIENT_SCOPE
    else inl (count + 1).

Definition validate_scopes (payload : option json_t) (policy : PgOAuthClaimsPolicy)
  : PgOAuthClaimsError :=
  let token_scopes := json_object_get payload (B "scope") in
  if negb (json_is_string token_scopes) && negb (json_is_array token_scopes)
  then PG_OAUTH_CLAIMS_INVALID_SCOPE
  else sep_loop x20 (required_scope_body token_scopes (cl_max_scopes policy))
         (fun _ => PG_OAUTH_CLAIMS_OK) (setting (cl_required_scopes policy)) [] 0.

(** [exp]: the value to record, or the error. *)
Definition validate_expiry (payload : option json_t) (policy : PgOAuthClaimsPolicy)
  : PgOAuthClaimsError + Z :=
  let value := json_object_get payload (B "exp") in
  match value with
  | None => inl PG_OAUTH_CLAIMS_MISSING_EXPIRY
  | Some _ =>
      let numeric_date := json_integer_value value in
      if negb (json_is_integer value) || (numeric_date <=? 0)
      then inl PG_OAUTH_CLAIMS_INVALID_EXPIRY
      else if (numeric_date <=? cl_current_time policy) &&
              (cl_clock_skew_seconds policy <=?
                 u64 (i64 (cl_current_time policy - numeric_date)))
      then inl PG_OAUTH_CLAIMS_EXPIRED
      else inr numeric_date
  end.

(** [nbf] and [iat]: optional, and not in the future. *)
Definition validate_not_future (value : option json_t) (policy : PgOAuthClaimsPolicy)
  (invalid future : PgOAuthClaimsError) : PgOAuthClaimsError :=
  match value with
  | None => PG_OAUTH_CLAIMS_OK
  | Some _ =>
      let numeric_date := json_integer_value value in
      if negb (json_is_integer value) || (numeric_date <? 0) then invalid
      else if (cl_current_time policy <? numeric_date) &&
              (cl_clock_skew_seconds policy <?
                 u64 (i64 (numeric_date - cl_current_time policy)))
      then future
      else PG_OAUTH_CLAIMS_OK
  end.

(** The checks after the expiry, in order. *)
Definition validate_remaining (payload : option json_t) (policy : PgOAuthClaimsPolicy)
  : PgOAuthClaimsError :=
  let nbf := validate_not_future (json_object_get payload (B "nbf")) policy
               PG_OAUTH_CLAIMS_INVALID_NOT_BEFORE PG_OAUTH_CLAIMS_NOT_YET_VALID in
  if negb (bool_decide (nbf = PG_OAUTH_CLAIMS_OK)) then nbf
  else
    let iat := validate_not_future (json_object_get payload (B "iat")) policy
                 PG_OAUTH_CLAIMS_INVALID_ISSUED_AT PG_OAUTH_CLAIMS_ISSUED_IN_FUTURE in
    if negb (bool_decide (iat = PG_OAUTH_CLAIMS_OK)) then iat
    else if negb (valid_identity_string (json_object_get payload (B "sub"))
                    (cl_max_subject_size policy))
    then PG_OAUTH_CLAIMS_INVALID_SUBJECT
    else if negb (valid_identity_string
                    (json_object_get payload (setting (cl_identity_claim policy)))
                    (cl_max_identity_size policy))
    then PG_OAUTH_CLAIMS_INVALID_IDENTITY
    else
      let scope_error := validate_scopes payload policy in
      if negb (bool_decide (scope_error = PG_OAUTH_CLAIMS_OK)) then scope_error
      else validate_requested_role payload policy.

Definition pg_oauth_claims_validate (verified_payload : option json_t)
  (policy : option PgOAuthClaimsPolicy) (claims : option PgOAuthValidatedClaims)
  : PgOAuthClaimsError * option PgOAuthValidatedClaims :=
  match claims with
  | None => (PG_OAUTH_CLAIMS_INVALID_ARGUMENT, None)
  | Some _ =>
      match policy with
      | None => (PG_OAUTH_CLAIMS_INVALID_ARGUMENT, Some claims_zero)
      | Some policy =>
          if negb (json_is_object verified_payload) || negb (valid_policy policy)
          then (PG_OAUTH_CLAIMS_INVALID_ARGUMENT, Some claims_zero)
          else if negb (json_string_equals (json_object_get verified_payload (B "iss"))
                          (cl_issuer policy))
          then (PG_OAUTH_CLAIMS_INVALID_ISSUER, Some claims_zero)
          else if negb (audience_matches (json_object_get verified_payload (B "aud")) policy)
          then (PG_OAUTH_CLAIMS_INVALID_AUDIENCE, Some claims_zero)
          else match validate_expiry verified_payload policy with
          | inl error => (error, Some claims_zero)
          | inr expires_at =>
              let error := validate_remaining verified_payload policy in
              if negb (bool_decide (error = PG_OAUTH_CLAIMS_OK))
              then (error, Some {| vc_identity := None; vc_identity_length := 0;
                                   vc_expires_at := expires_at |})
              else
                let value := json_object_get verified_payload
                               (setting (cl_identity_claim policy)) in
                (PG_OAUTH_CLAIMS_OK,
                 Some {| vc_identity := Some (json_string_value value);
                         vc_identity_length := json_string_length value;
                         vc_expires_at := expires_at |})
          end
      end
  end.
End Claims.

Definition claims_error_value (error : PgOAuthClaimsError) : Z :=
  match error with
  | PG_OAUTH_CLAIMS_OK => 0
  | PG_OAUTH_CLAIMS_INVALID_ARGUMENT => 1
  | PG_OAUTH_CLAIMS_INVALID_ISSUER => 2
  | PG_OAUTH_CLAIMS_INVALID_AUDIENCE => 3
  | PG_OAUTH_CLAIMS_MISSING_EXPIRY => 4
  | PG_OAUTH_CLAIMS_INVALID_EXPIRY => 5
  | PG_OAUTH_CLAIMS_EXPIRED => 6
  | PG_OAUTH_CLAIMS_INVALID_NOT_BEFORE => 7
  | PG_OAUTH_CLAIMS_NOT_YET_VALID => 8
  | PG_OAUTH_CLAIMS_INVALID_ISSUED_AT => 9
  | PG_OAUTH_CLAIMS_ISSUED_IN_FUTURE => 10
  | PG_OAUTH_CLAIMS_INVALID_SUBJECT => 11
  | PG_OAUTH_CLAIMS_INVALID_IDENTITY => 12
  | PG_OAUTH_CLAIMS_INVALID_SCOPE => 13
  | PG_OAUTH_CLAIMS_INSUFFICIENT_SCOPE => 14
  | PG_OAUTH_CLAIMS_INVALID_ROLES => 15
  | PG_OAUTH_CLAIMS_UNAUTHORIZED_ROLE => 16
  end.

Definition pg_oauth_claims_error_code (error : Z) : bytes :=
  code_at
    [B "ok"; B "invalid_argument"; B "invalid_issuer"; B "invalid_audience";
     B "missing_expiry"; B "invalid_expiry"; B "expired"; B "invalid_not_before";
     B "not_yet_valid"; B "invalid_issued_at"; B "issued_in_future";
     B "invalid_subject"; B "invalid_identity"; B "invalid_scope"; B "insufficient_scope";
     B "invalid_roles"; B "unauthorized_role"] (B "unknown") error.

(** ** Specification *)

(** The leading non-empty entries of a list of entries. *)
Fixpoint take_nonempty (l : list bytes) : list bytes :=
  match l with
  | [] => []
  | [] :: _ => []
  | x :: l => x :: take_nonempty l
  end.

(** The audiences an administrator configured, at most [maximum] of them. *)
Definition configured_audiences (configured : bytes) (maximum : Z) : list bytes :=
  take (Z.to_nat maximum)
    (take_nonempty (map (trim_by isspace) (split_on comma configured))).

Section ClaimsSpec.
Context `{Jansson}.

(** A claim that is a single text or an array of texts, as a list of texts. *)
Inductive claim_texts : option json_t -> list bytes -> Prop :=
| claim_single v s : is_text v s -> claim_texts v [s]
| claim_array j l texts :
    json_typeof j = JSON_ARRAY l -> Forall2 (fun e s => is_text (Some e) s) l texts ->
    claim_texts (Some j) texts.

(** The scopes of a token: a space-separated text or an array of texts. *)
Inductive claim_scopes : option json_t -> list bytes -> Prop :=
| scopes_text v s : is_text v s -> claim_scopes v (split_on x20 s)
| scopes_array j l texts :
    json_typeof j = JSON_ARRAY l -> Forall2 (fun e s => is_text (Some e) s) l texts ->
    claim_scopes (Some j) texts.

Definition identity_text (maximum : Z) (s : bytes) : Prop :=
  s <> [] /\ zlen s <= maximum /\ identity_bytes_ok s = true.

Definition audience_ok (policy : PgOAuthClaimsPolicy) (v : option json_t) : Prop :=
  exists auds, claim_texts v auds /\ auds <> [] /\ NoDup auds /\
    zlen auds <= cl_max_audiences policy /\ Forall (fun a => a <> []) auds /\
    exists a, a ∈ auds /\
      a ∈ configured_audiences (setting (cl_audiences policy)) (cl_max_audiences policy).

Definition scopes_ok (policy : PgOAuthClaimsPolicy) (v : option json_t) : Prop :=
  let required := split_on x20 (setting (cl_required_scopes policy)) in
  zlen required <= cl_max_scopes policy /\
  Forall (fun r => valid_scope_token r = true) required /\
  exists granted, claim_scopes v granted /\ granted <> [] /\ NoDup granted /\
    zlen granted <= cl_max_scopes policy /\
    Forall (fun g => valid_scope_token g = true) granted /\
    forall r, r ∈ required -> r ∈ granted.

Definition role_text (maximum : Z) (r : bytes) : Prop :=
  r <> [] /\ zlen r <= maximum /\ existsb iscntrl r = false.

(** The claim is a bounded list of distinct usable roles with [requested]. *)
Definition role_granted (policy : PgOAuthClaimsPolicy) (v : option json_t)
  (requested : bytes) : Prop :=
  exists roles, claim_texts v roles /\ roles <> [] /\ NoDup roles /\
    zlen roles <= cl_max_roles policy /\
    Forall (role_text (cl_max_role_size policy)) roles /\ requested ∈ roles.

Definition role_ok (policy : PgOAuthClaimsPolicy) (payload : option json_t) : Prop :=
  setting (cl_role_claim policy) = [] \/
  let requested := setting (cl_requested_role policy) in
  requested <> [] /\ zlen requested <= cl_max_role_size policy /\
  role_granted policy (json_object_get payload (setting (cl_role_claim policy))) requested.

Definition not_future_ok (policy : PgOAuthClaimsPolicy) (v : option json_t) : Prop :=
  v = None \/
  exists j t, v = Some j /\ json_typeof j = JSON_INTEGER t /\
    0 <= t <= cl_current_time policy + cl_clock_skew_seconds policy.

(** An acceptable payload, the identity it gives and when it expires. *)
Record claims_accepted (policy : PgOAuthClaimsPolicy) (payload : option json_t)
  (identity : bytes) (expires_at : Z) : Prop := {
  ca_object : json_is_object payload = true;
  ca_issuer : is_text (json_object_get payload (B "iss")) (setting (cl_issuer policy));
  ca_audience : audience_ok policy (json_object_get payload (B "aud"));
  ca_expiry : exists j, json_object_get payload (B "exp") = Some j /\
    json_typeof j = JSON_INTEGER expires_at /\ 0 < expires_at /\
    cl_current_time policy < expires_at + cl_clock_skew_seconds policy;
  ca_not_before : not_future_ok policy (json_object_get payload (B "nbf"));
  ca_issued_at : not_future_ok policy (json_object_get payload (B "iat"));
  ca_subject : exists s, is_text (json_object_get payload (B "sub")) s /\
    identity_text (cl_max_subject_size policy) s;
  ca_identity :
    is_text (json_object_get payload (setting (cl_identity_claim policy))) identity /\
    identity_text (cl_max_identity_size policy) identity;
  ca_scopes : scopes_ok policy (json_object_get payload (B "scope"));
  ca_role : role_ok policy payload
}.

(** Jansson's integers are [long long] values. *)
Definition json_integers_bounded : Prop :=
  forall j n, json_typeof j = JSON_INTEGER n -> INT64_MIN <= n <= INT64_MAX.
End ClaimsSpec.

(** ** Audiences *)

Lemma configured_audience_pass token maximum segs count :
  0 <= count ->
  segment_pass (configured_audience_body token maximum) (fun _ => false) segs count =
  bool_decide (token ∈ take (Z.to_nat (maximum - count))
                 (take_nonempty (map (trim_by isspace) segs))).
Proof.
  revert count. induction segs as [|seg segs IH]; intros count Hc.
  { simpl. rewrite take_nil. by rewrite bool_decide_eq_false_2 by apply not_elem_of_nil. }
  assert (segment_pass (configured_audience_body token maximum) (fun _ => false)
    (seg :: segs) count =
    match configured_audience_body token maximum count seg (bool_decide (segs = [[]])) with
    | inr r => r | inl st => segment_pass (configured_audience_body token maximum)
                               (fun _ => false) segs st end) as ->.
  { destruct seg, segs; done. }
  cbn [map take_nonempty]. unfold configured_audience_body at 1.
  destruct (trim_by isspace seg) as [|c t] eqn:Et.
  { simpl. by rewrite take_nil, bool_decide_eq_false_2 by apply not_elem_of_nil. }
  rewrite (bool_decide_eq_false_2 (c :: t = [])) by done. simpl orb.
  destruct (Z.ltb_spec maximum (count + 1)).
  { replace (Z.to_nat (maximum - count)) with 0%nat by lia.
    by rewrite bool_decide_eq_false_2 by apply not_elem_of_nil. }
  replace (Z.to_nat (maximum - count)) with (S (Z.to_nat (maximum - (count + 1)))) by lia.
  rewrite firstn_cons. unfold bytes_eqb.
  destruct (decide (c :: t = token)) as [<-|Hne].
  - rewrite Z.eqb_refl, !bool_decide_eq_true_2; [done|apply list_elem_of_here|done].
  - rewrite (bool_decide_eq_false_2 (_ = token)), andb_false_r, IH by (done || lia).
    apply bool_decide_ext. rewrite elem_of_cons. naive_solver.
Qed.

Lemma configured_audience_matches_spec configured token maximum :
  configured_audience_matches configured token maximum =
  bool_decide (token ∈ configured_audiences configured maximum).
Proof.
  unfold configured_audience_matches. rewrite comma_loop_segments by lia. simpl.
  rewrite configured_audience_pass by lia. by rewrite Z.sub_0_r.
Qed.

(** ** Arrays of distinct texts

    The loops over the roles, the audiences and the scopes of a token share
    their shape: every entry must be usable and differ from the entries before
    it.  What such a loop computes is proved once. *)

Section DistinctTexts.
Context `{Jansson}.

Definition text (e : json_t) : bytes := json_string_value (Some e).
Definition texts (l : list json_t) : list bytes := map text l.

Lemma existsb_texts (previous : list json_t) entry :
  existsb (fun p => bytes_eqb (json_string_value (Some p)) entry) previous =
  bool_decide (entry ∈ texts previous).
Proof.
  induction previous as [|p previous IH].
  { symmetry. apply bool_decide_eq_false_2, not_elem_of_nil. }
  simpl. rewrite IH. unfold bytes_eqb, texts. simpl. fold (text p).
  apply eq_bool_prop_intro. rewrite orb_True, !bool_decide_spec, elem_of_cons.
  naive_solver.
Qed.

Context {R : Type} (loop : list json_t -> list json_t -> bool -> R).
Context (ok : json_t -> bool) (mark : bytes -> bool) (bad : R) (fin : bool -> R).
Hypothesis loop_nil : forall p f, loop [] p f = fin f.
Hypothesis loop_cons : forall e l p f, loop (e :: l) p f =
  if ok e then
    if existsb (fun q => bytes_eqb (json_string_value (Some q)) (text e)) p then bad
    else loop l (p ++ [e]) (f || mark (text e))
  else bad.

Lemma distinct_loop_spec l p f :
  NoDup (texts p) ->
  loop l p f = if decide (Forall (fun e => ok e = true) l /\ NoDup (texts (p ++ l)))
               then fin (f || existsb mark (texts l)) else bad.
Proof.
  revert p f. induction l as [|e l IH]; intros p f Hp.
  { rewrite app_nil_r, orb_false_r, loop_nil, decide_True; done. }
  rewrite loop_cons. destruct (ok e) eqn:Hok.
  2:{ rewrite decide_False; [done|]. rewrite Forall_cons. intros [[? _] _]. congruence. }
  rewrite existsb_texts. case_bool_decide as Hin.
  { rewrite decide_False; [done|]. intros [_ Hnd]. unfold texts in *.
    rewrite map_app, NoDup_app in Hnd. destruct Hnd as (_ & Hnd & _).
    apply (Hnd _ Hin). simpl. apply list_elem_of_here. }
  assert (NoDup (texts (p ++ [e]))).
  { unfold texts in *. rewrite map_app, NoDup_app. split_and!; [done| |apply NoDup_singleton].
    intros x Hx ->%list_elem_of_singleton. done. }
  rewrite IH by done. rewrite <- app_assoc. simpl. rewrite orb_assoc.
  apply decide_ext. rewrite Forall_cons. tauto.
Qed.
End DistinctTexts.

Section ArrayClaims.
Context `{Jansson}.

Lemma Forall2_texts (l : list json_t) (ts : list bytes) :
  Forall2 (fun e s => is_text (Some e) s) l ts <->
  Forall (fun e => json_is_string (Some e) = true) l /\ ts = texts l.
Proof.
  split.
  - induction 1 as [|e s l ts He _ [IH ->]]; [done|]. unfold texts, text. simpl.
    rewrite (is_text_value _ _ He). by rewrite Forall_cons, (is_text_string _ _ He).
  - intros [Hl ->]. induction Hl as [|e l He _ IH]; [constructor|].
    constructor; [by apply json_is_string_text|done].
Qed.

Lemma claim_texts_array v ts :
  json_is_string v = false ->
  claim_texts v ts <->
  json_is_array v = true /\ ts = texts (json_array_elements v) /\
  Forall (fun e => json_is_string (Some e) = true) (json_array_elements v).
Proof.
  intros Hs. rewrite json_is_array_elements. split.
  - destruct 1 as [v s Ht|j l ts Hj Hl]; [by rewrite (is_text_string _ _ Ht) in Hs|].
    unfold json_array_elements. simpl. rewrite Hj.
    apply Forall2_texts in Hl as [? ->]. eauto.
  - intros ((j & -> & Hj) & -> & Hl). eapply claim_array; [done|]. by apply Forall2_texts.
Qed.

Lemma claim_texts_text v s ts : is_text v s -> claim_texts v ts <-> ts = [s].
Proof.
  intros Ht. split.
  - destruct 1 as [v s' Ht'|j l ts Hj Hl].
    + apply is_text_value in Ht, Ht'. congruence.
    + destruct Ht as (j' & [= <-] & Hj'). congruence.
  - intros ->. by constructor.
Qed.
End ArrayClaims.

#[global] Arguments configured_audience_matches : simpl never.

Section CheckSpecs.
Context `{Jansson}.
Implicit Types policy : PgOAuthClaimsPolicy.

Lemma json_string_equals_spec v expected :
  is_nonempty (Some expected) = true ->
  json_string_equals v (Some expected) = true <-> is_text v (c_str expected).
Proof.
  intros _. unfold json_string_equals, bytes_eqb.
  rewrite andb_true_iff, bool_decide_eq_true, json_is_string_text. split.
  - by intros [Ht <-].
  - intros Ht. by rewrite (is_text_value _ _ Ht).
Qed.

Lemma valid_identity_string_spec v maximum :
  valid_identity_string v maximum = true <->
  exists s, is_text v s /\ identity_text maximum s.
Proof.
  unfold valid_identity_string, identity_text, json_string_length.
  rewrite !andb_true_iff, negb_true_iff, Z.eqb_neq, Z.leb_le, json_is_string_text, zlen_nil.
  split; [intros [[[? ?] ?] ?]; by eauto|].
  intros (s & Ht & ? & ? & ?). rewrite (is_text_value _ _ Ht). tauto.
Qed.

Lemma Forall_usable (Q : bytes -> bool) (P : bytes -> Prop) (l : list json_t) :
  (forall s, Q s = true <-> P s) ->
  Forall (fun e => json_is_string (Some e) && Q (text e) = true) l <->
  Forall (fun e => json_is_string (Some e) = true) l /\ Forall P (texts l).
Proof.
  intros HQ. unfold texts. induction l as [|e l IH]; simpl.
  { split; [by split|constructor]. }
  rewrite !Forall_cons, IH, andb_true_iff, HQ. tauto.
Qed.

Lemma if_decide_true (P : Prop) `{Decision P} (b : bool) :
  (if decide P then b else false) = true <-> P /\ b = true.
Proof. case_decide; split; try done; tauto. Qed.

(** *** Audience *)

Lemma audience_entries_ok_spec (l : list json_t) :
  audience_entries_ok l [] = true <->
  Forall (fun e => json_is_string (Some e) = true) l /\
  Forall (fun a => a <> []) (texts l) /\ NoDup (texts l).
Proof.
  rewrite (distinct_loop_spec (fun l p _ => audience_entries_ok l p)
    (fun e => json_is_string (Some e) && negb (zlen (text e) =? 0)) (fun _ => false)
    false (fun _ => true)) with (f := false); [|done| |apply NoDup_nil_2].
  - rewrite if_decide_true, (Forall_usable (fun s => negb (zlen s =? 0)) (fun a => a <> [])).
    + simpl. tauto.
    + intros s. rewrite negb_true_iff, Z.eqb_neq, zlen_nil. done.
  - intros e l' p _. simpl. unfold json_string_length. fold (text e).
    by destruct (json_is_string _), (zlen (text e) =? 0).
Qed.

Lemma existsb_configured configured maximum (l : list json_t) :
  existsb (fun e => configured_audience_matches configured
                      (json_string_value (Some e)) maximum) l = true <->
  exists a, a ∈ texts l /\ a ∈ configured_audiences configured maximum.
Proof.
  unfold texts. rewrite existsb_exists. split.
  - intros (e & He%list_elem_of_In & Hm). rewrite configured_audience_matches_spec in Hm.
    apply bool_decide_eq_true in Hm. exists (text e). split; [|done].
    by apply list_elem_of_fmap_2.
  - intros (a & (e & -> & He)%list_elem_of_fmap & Ha). exists e.
    rewrite configured_audience_matches_spec, bool_decide_eq_true.
    by split; [apply list_elem_of_In|].
Qed.

Lemma audience_matches_spec policy v :
  0 < cl_max_audiences policy -> audience_matches v policy = true <-> audience_ok policy v.
Proof.
  intros Hmax. unfold audience_matches, audience_ok, json_string_length, json_array_size.
  destruct (json_is_string v) eqn:Es.
  - apply json_is_string_text in Es. set (s := json_string_value v) in *.
    rewrite andb_true_iff, negb_true_iff, Z.eqb_neq, zlen_nil.
    rewrite configured_audience_matches_spec, bool_decide_eq_true. split.
    + intros [Hne Hin]. exists [s]. rewrite (claim_texts_text v s) by done.
      rewrite Forall_singleton. unfold zlen. simpl. split_and!; try done; try lia.
      * apply NoDup_singleton.
      * exists s. by split; [apply list_elem_of_singleton|].
    + intros (auds & Ht & _ & _ & _ & Hne & a & Ha & Hin).
      rewrite (claim_texts_text v s) in Ht by done. subst auds.
      apply list_elem_of_singleton in Ha as ->. by rewrite Forall_singleton in Hne.
  - split.
    + destruct (json_is_array v) eqn:Ea; [|done]. simpl.
      destruct (_ || _) eqn:Esz; [done|]. prop_bools. intros Hm.
      destruct (audience_entries_ok _ []) eqn:Eok; [|done]. simpl in Hm.
      apply audience_entries_ok_spec in Eok as (Hs & Hne & Hnd).
      apply existsb_configured in Hm. exists (texts (json_array_elements v)).
      rewrite claim_texts_array by done. unfold texts in *.
      assert (json_array_elements v <> []) by (rewrite <- zlen_nil; lia).
      split_and!; try done.
      * by destruct (json_array_elements v).
      * unfold zlen in *. rewrite length_map. lia.
    + intros (auds & Ht & Hnil & Hnd & Hlen & Hne & Ha).
      rewrite claim_texts_array in Ht by done. destruct Ht as (-> & -> & Hs). simpl.
      assert (zlen (json_array_elements v) <> 0 /\
              zlen (json_array_elements v) <= cl_max_audiences policy).
      { unfold texts, zlen in *. rewrite length_map in Hlen. split; [|lia].
        destruct (json_array_elements v); simpl in *; [done|lia]. }
      rewrite (proj2 (Z.eqb_neq _ _)), (proj2 (Z.ltb_ge _ _)) by lia. simpl.
      rewrite (proj2 (audience_entries_ok_spec _)) by done. simpl.
      by apply existsb_configured.
Qed.

(** *** Role *)

Definition role_usable (maximum : Z) (r : bytes) : bool :=
  negb (zlen r =? 0) && negb (maximum <? zlen r) && negb (existsb iscntrl r).

Lemma role_usable_spec maximum r : role_usable maximum r = true <-> role_text maximum r.
Proof.
  unfold role_usable, role_text.
  rewrite !andb_true_iff, !negb_true_iff, Z.eqb_neq, Z.ltb_ge, zlen_nil. tauto.
Qed.

Lemma existsb_bytes_eqb x l : existsb (fun y => bytes_eqb y x) l = bool_decide (x ∈ l).
Proof.
  apply eq_bool_prop_intro. rewrite bool_decide_spec, Is_true_true, existsb_exists.
  unfold bytes_eqb. split.
  - intros (y & Hy%list_elem_of_In & ->%bool_decide_eq_true). done.
  - intros Hx. exists x. split; [by apply list_elem_of_In|by apply bool_decide_eq_true].
Qed.

Lemma roles_loop_spec requested maximum (l : list json_t) :
  roles_loop requested maximum l [] false = PG_OAUTH_CLAIMS_OK <->
  Forall (fun e => json_is_string (Some e) = true) l /\
  Forall (role_text maximum) (texts l) /\ NoDup (texts l) /\ requested ∈ texts l.
Proof.
  rewrite (distinct_loop_spec (roles_loop requested maximum)
    (fun e => json_is_string (Some e) && role_usable maximum (text e))
    (fun r => bytes_eqb r requested) PG_OAUTH_CLAIMS_INVALID_ROLES
    (fun found => if found then PG_OAUTH_CLAIMS_OK else PG_OAUTH_CLAIMS_UNAUTHORIZED_ROLE));
    [|done| |apply NoDup_nil_2].
  - rewrite existsb_bytes_eqb. simpl.
    pose proof (Forall_usable (role_usable maximum) (role_text maximum) l
      (role_usable_spec maximum)).
    case_decide as Hd; [case_bool_decide|]; (split; [done || tauto|]); tauto || done.
  - intros e l' p f. simpl. fold (text e). unfold role_usable.
    destruct (json_is_string _), (zlen (text e) =? 0), (_ <? _); simpl; try done.
    by destruct (existsb iscntrl _).
Qed.

Lemma role_granted_text policy v r requested :
  0 < cl_max_roles policy -> is_text v r ->
  role_granted policy v requested <->
  role_text (cl_max_role_size policy) r /\ r = requested.
Proof.
  intros Hmax Ht. unfold role_granted. split.
  - intros (roles & Hc & _ & _ & _ & Hr & Hin).
    rewrite (claim_texts_text v r) in Hc by done. subst roles.
    rewrite Forall_singleton in Hr. by apply list_elem_of_singleton in Hin.
  - intros [Hr <-]. exists [r]. rewrite (claim_texts_text v r) by done.
    rewrite Forall_singleton, list_elem_of_singleton. unfold zlen. simpl.
    split_and!; try done; [apply NoDup_singleton|lia].
Qed.

Lemma role_granted_array policy v requested :
  json_is_string v = false ->
  role_granted policy v requested <->
  json_is_array v = true /\ zlen (json_array_elements v) <> 0 /\
  zlen (json_array_elements v) <= cl_max_roles policy /\
  roles_loop requested (cl_max_role_size policy) (json_array_elements v) [] false =
    PG_OAUTH_CLAIMS_OK.
Proof.
  intros Hs. unfold role_granted. rewrite roles_loop_spec, zlen_nil. split.
  - intros (roles & Ht & Hnil & Hnd & Hlen & Hr & Hin).
    rewrite claim_texts_array in Ht by done. destruct Ht as (Ha & -> & Hstr).
    split_and!; try done.
    + intros E. by rewrite E in Hnil.
    + unfold texts, zlen in *. by rewrite length_map in Hlen.
  - intros (Ha & Hnil & Hlen & Hstr & Hr & Hnd & Hin).
    exists (texts (json_array_elements v)). rewrite claim_texts_array by done.
    split_and!; try done.
    + intros E. rewrite E in Hin. by apply not_elem_of_nil in Hin.
    + unfold texts, zlen in *. by rewrite length_map.
Qed.

Lemma validate_requested_role_spec policy payload :
  0 < cl_max_roles policy \/ setting (cl_role_claim policy) = [] ->
  validate_requested_role payload policy = PG_OAUTH_CLAIMS_OK <-> role_ok policy payload.
Proof.
  intros Hmax. unfold validate_requested_role, role_ok, json_array_size.
  case_bool_decide as Hrc; [tauto|]. destruct Hmax as [Hmax|]; [|done].
  set (v := json_object_get payload _). set (requested := setting (cl_requested_role policy)).
  rewrite <- (zlen_nil requested). destruct (_ || _) eqn:Ereq.
  { split; [done|]. intros [|(Hne & Hl & _)]; [done|]. lia. }
  prop_bools. transitivity (role_granted policy v requested).
  2:{ split; [intros ?; right; split_and!; (done || lia)|by intros [|(_ & _ & ?)]]. }
  destruct (json_is_string v) eqn:Es.
  - apply json_is_string_text in Es. rewrite (role_granted_text _ _ _ _ Hmax Es).
    rewrite <- role_usable_spec. unfold role_usable, bytes_eqb.
    destruct (zlen (json_string_value v) =? 0), (_ <? zlen (json_string_value v)),
      (existsb iscntrl _); simpl; try (split; [done|by intros []]).
    case_bool_decide; split; try done. by intros [].
  - rewrite role_granted_array by done.
    destruct (json_is_array v); simpl; [|split; [done|by intros []]].
    destruct (_ || _) eqn:Esz; prop_bools.
    + split; [done|]. intros (_ & ? & ? & _). lia.
    + split; [intros ?; split_and!; (done || lia)|tauto].
Qed.

(** *** Scopes *)

(** A usable list of granted scopes, and the two readers of one. *)
Definition scopes_wf (maximum : Z) (granted : list bytes) : Prop :=
  granted <> [] /\ NoDup granted /\ zlen granted <= maximum /\
  Forall (fun g => valid_scope_token g = true) granted.

#[global] Instance scopes_wf_decision maximum granted : Decision (scopes_wf maximum granted).
Proof. unfold scopes_wf. apply _. Defined.

Lemma scope_string_pass required maximum pieces seen found :
  NoDup seen -> zlen seen <= maximum ->
  piece_pass (scope_string_body required maximum) (fun st => (snd st, true))
    pieces (seen, found) =
  if decide (Forall (fun g => valid_scope_token g = true) pieces /\
             NoDup (seen ++ pieces) /\ zlen (seen ++ pieces) <= maximum)
  then (found || bool_decide (required ∈ pieces), true) else (false, false).
Proof.
  revert seen found. induction pieces as [|p pieces IH]; intros seen found Hnd Hlen.
  { rewrite app_nil_r, decide_True by done. simpl. by rewrite orb_false_r. }
  cbn [piece_pass]. unfold scope_string_body at 1.
  destruct (valid_scope_token p) eqn:Ep.
  2:{ rewrite orb_true_r, decide_False; [done|]. rewrite Forall_cons. intros [[? _] _]. congruence. }
  assert (zlen p <> 0).
  { unfold valid_scope_token in Ep. by destruct (Z.eqb_spec (zlen p) 0). }
  rewrite orb_false_r, (proj2 (Z.eqb_neq _ _)) by done. simpl orb.
  destruct (Z.leb_spec maximum (zlen seen)).
  { rewrite decide_False; [done|]. rewrite zlen_app, zlen_cons.
    pose proof (zlen_nonneg pieces). intros (_ & _ & ?). lia. }
  replace (existsb (bytes_eqb p) seen) with (bool_decide (p ∈ seen)).
  2:{ rewrite <- existsb_bytes_eqb. clear. induction seen; simpl; [done|].
      rewrite IHseen. unfold bytes_eqb. f_equal. apply bool_decide_ext. done. }
  destruct (bool_decide_reflect (p ∈ seen)) as [Hin|Hin].
  { rewrite decide_False; [done|]. rewrite NoDup_app. intros (_ & (_ & Hd & _) & _).
    apply (Hd p Hin), list_elem_of_here. }
  rewrite IH.
  - rewrite <- app_assoc. simpl. unfold bytes_eqb.
    replace (found || bool_decide (p = required) || bool_decide (required ∈ pieces))
      with (found || bool_decide (required ∈ p :: pieces)).
    + apply decide_ext. rewrite Forall_cons. tauto.
    + rewrite <- orb_assoc. f_equal. apply eq_bool_prop_intro.
      rewrite orb_True, !bool_decide_spec, elem_of_cons. naive_solver congruence.
  - rewrite NoDup_app. split_and!; [done| |apply NoDup_singleton].
    intros x Hx ->%list_elem_of_singleton. done.
  - rewrite zlen_app. unfold zlen at 2. simpl. lia.
Qed.

Lemma scope_string_contains_spec scopes required maximum :
  0 <= maximum ->
  scope_string_contains scopes required maximum =
  let granted := split_on x20 scopes in
  if decide (scopes_wf maximum granted) then (bool_decide (required ∈ granted), true)
  else (false, false).
Proof.
  intros Hmax. unfold scope_string_contains. destruct (Z.eqb_spec (zlen scopes) 0) as [E|E].
  { apply zlen_nil in E as ->. cbv zeta. rewrite decide_False; [done|].
    intros (_ & _ & _ & Hv). simpl in Hv. by rewrite Forall_singleton in Hv. }
  rewrite sep_loop_pieces by apply not_elem_of_nil. simpl app.
  rewrite scope_string_pass; [|apply NoDup_nil_2|done]. cbv zeta. simpl.
  apply decide_ext. unfold scopes_wf. pose proof (split_on_nonempty x20 scopes). tauto.
Qed.

Lemma scope_array_contains_spec v required maximum :
  json_is_array v = true ->
  scope_array_contains v required maximum =
  let granted := texts (json_array_elements v) in
  if decide (Forall (fun e => json_is_string (Some e) = true) (json_array_elements v) /\
             scopes_wf maximum granted)
  then (bool_decide (required ∈ granted), true) else (false, false).
Proof.
  intros Ha. unfold scope_array_contains, json_array_size. rewrite Ha. simpl.
  assert (zlen (texts (json_array_elements v)) = zlen (json_array_elements v)) as Hlen.
  { unfold texts, zlen. by rewrite length_map. }
  destruct (_ || _) eqn:E.
  { rewrite decide_False; [done|]. intros [_ (Hne & _ & Hl & _)].
    rewrite <- zlen_nil in Hne. rewrite Hlen in *. lia. }
  prop_bools. rewrite (distinct_loop_spec (scope_array_loop required)
    (fun e => json_is_string (Some e) && valid_scope_token (text e))
    (fun r => bytes_eqb r required) (false, false) (fun found => (found, true)));
    [|done| |apply NoDup_nil_2].
  - rewrite existsb_bytes_eqb. simpl. apply decide_ext.
    rewrite (Forall_usable valid_scope_token (fun g => valid_scope_token g = true)) by done.
    unfold scopes_wf. rewrite <- zlen_nil, Hlen. split; [|tauto].
    intros [[? ?] ?]. split_and!; try done; lia.
  - intros e l p f. simpl. fold (text e).
    by destruct (json_is_string _), (valid_scope_token _).
Qed.

(** The scopes a claim grants, when it is a usable list of them. *)
Definition granted_scopes (v : option json_t) (maximum : Z) : option (list bytes) :=
  if json_is_string v then
    let granted := split_on x20 (json_string_value v) in
    if decide (scopes_wf maximum granted) then Some granted else None
  else
    let granted := texts (json_array_elements v) in
    if decide (Forall (fun e => json_is_string (Some e) = true) (json_array_elements v) /\
               scopes_wf maximum granted)
    then Some granted else None.

Lemma claim_scopes_text v s granted : is_text v s -> claim_scopes v granted <-> granted = split_on x20 s.
Proof.
  intros Ht. split.
  - destruct 1 as [v s' Ht'|j l ts Hj Hl].
    + apply is_text_value in Ht, Ht'. congruence.
    + destruct Ht as (j' & [= <-] & Hj'). congruence.
  - intros ->. by constructor.
Qed.

Lemma claim_scopes_array v ts :
  json_is_string v = false ->
  claim_scopes v ts <->
  json_is_array v = true /\ ts = texts (json_array_elements v) /\
  Forall (fun e => json_is_string (Some e) = true) (json_array_elements v).
Proof.
  intros Hs. rewrite <- claim_texts_array by done. split.
  - destruct 1 as [v s Ht|]; [by rewrite (is_text_string _ _ Ht) in Hs|].
    by eapply claim_array.
  - destruct 1 as [v s Ht|]; [by rewrite (is_text_string _ _ Ht) in Hs|].
    by eapply scopes_array.
Qed.

Lemma granted_scopes_spec v maximum granted :
  json_is_string v || json_is_array v = true ->
  granted_scopes v maximum = Some granted <-> claim_scopes v granted /\ scopes_wf maximum granted.
Proof.
  intros Hv. unfold granted_scopes. destruct (json_is_string v) eqn:Es.
  - apply json_is_string_text in Es. rewrite (claim_scopes_text _ _ _ Es).
    case_decide; split; try done; naive_solver.
  - rewrite claim_scopes_array by done. simpl in Hv.
    case_decide as Hd; split; try done.
    + intros [= <-]. tauto.
    + by intros ((_ & -> & _) & _).
    + intros ((_ & -> & ?) & ?). tauto.
Qed.

Lemma required_scope_body_spec v maximum count required :
  json_is_string v || json_is_array v = true -> 0 <= maximum ->
  required_scope_body v maximum count required =
  if negb (valid_scope_token required) || (maximum <? count + 1)
  then inr PG_OAUTH_CLAIMS_INVALID_ARGUMENT
  else match granted_scopes v maximum with
       | None => inr PG_OAUTH_CLAIMS_INVALID_SCOPE
       | Some granted => if bool_decide (required ∈ granted) then inl (count + 1)
                         else inr PG_OAUTH_CLAIMS_INSUFFICIENT_SCOPE
       end.
Proof.
  intros Hv Hmax. unfold required_scope_body, granted_scopes.
  destruct (valid_scope_token required) eqn:Er; [|by rewrite orb_true_r].
  assert (zlen required <> 0).
  { unfold valid_scope_token in Er. by destruct (Z.eqb_spec (zlen required) 0). }
  rewrite (proj2 (Z.eqb_neq _ _)) by done. simpl. rewrite orb_false_r.
  destruct (_ <? _); [done|]. destruct (json_is_string v) eqn:Es.
  - rewrite scope_string_contains_spec by done. cbv zeta. case_decide; [|done].
    by case_bool_decide.
  - simpl in Hv. rewrite scope_array_contains_spec by done. cbv zeta. case_decide; [|done].
    by case_bool_decide.
Qed.

Lemma required_scopes_pass v maximum pieces count :
  json_is_string v || json_is_array v = true -> 0 <= maximum -> count <= maximum ->
  piece_pass (required_scope_body v maximum) (fun _ => PG_OAUTH_CLAIMS_OK) pieces count =
    PG_OAUTH_CLAIMS_OK <->
  Forall (fun r => valid_scope_token r = true) pieces /\ count + zlen pieces <= maximum /\
  (pieces <> [] -> exists granted, granted_scopes v maximum = Some granted /\
     forall r, r ∈ pieces -> r ∈ granted).
Proof.
  intros Hv Hmax. revert count. induction pieces as [|p pieces IH]; intros count Hc.
  { simpl. unfold zlen. simpl. split; [intros _|done]. split_and!; [constructor|lia|done]. }
  cbn [piece_pass]. rewrite required_scope_body_spec, zlen_cons, Forall_cons by done.
  pose proof (zlen_nonneg pieces).
  destruct (valid_scope_token p); simpl; [|split; [done|by intros [[] _]]].
  destruct (Z.ltb_spec maximum (count + 1)); [split; [done|]; intros (_ & ? & _); lia|].
  destruct (granted_scopes v maximum) as [g|] eqn:Eg.
  2:{ split; [done|]. intros (_ & _ & Hg). by destruct Hg as (? & ? & _). }
  case_bool_decide as Hin.
  - rewrite IH by lia. split.
    + intros (Hf & Hl & Hg). split_and!; [done..|lia|]. intros _. exists g. split; [done|].
      intros r [->|Hr]%elem_of_cons; [done|].
      destruct Hg as (g' & Eg' & Hg'); [by destruct pieces; [apply not_elem_of_nil in Hr|]|].
      simplify_eq. auto.
    + intros ((_ & Hf) & Hl & Hg). split_and!; [done|lia|]. intros _.
      destruct Hg as (g' & Eg' & Hg'); [done|]. exists g'. split; [done|].
      intros r Hr. apply Hg'. by apply list_elem_of_further.
  - split; [done|]. intros (_ & _ & Hg). destruct Hg as (g' & Eg' & Hg'); [done|].
    simplify_eq. exfalso. apply Hin, Hg', list_elem_of_here.
Qed.

Lemma validate_scopes_spec policy payload :
  0 <= cl_max_scopes policy ->
  validate_scopes payload policy = PG_OAUTH_CLAIMS_OK <->
  scopes_ok policy (json_object_get payload (B "scope")).
Proof.
  intros Hmax. unfold validate_scopes, scopes_ok.
  set (v := json_object_get payload (B "scope")).
  set (required := split_on x20 (setting (cl_required_scopes policy))).
  destruct (json_is_string v || json_is_array v) eqn:Hv.
  - assert (negb (json_is_string v) && negb (json_is_array v) = false) as ->.
    { by destruct (json_is_string v), (json_is_array v). }
    rewrite sep_loop_pieces by apply not_elem_of_nil. simpl app. fold required.
    rewrite required_scopes_pass by done. rewrite Z.add_0_l.
    pose proof (split_on_nonempty x20 (setting (cl_required_scopes policy))) as Hne.
    fold required in Hne. split.
    + intros (Hf & Hl & Hg). destruct (Hg Hne) as (g & Eg & Hall). split_and!; try done.
      apply granted_scopes_spec in Eg as (? & ? & ? & ? & ?); [|done]. by exists g.
    + intros (Hl & Hf & g & Hc & ? & ? & ? & ? & ?). split_and!; try done. intros _.
      exists g. by rewrite granted_scopes_spec.
  - assert (negb (json_is_string v) && negb (json_is_array v) = true) as ->.
    { by destruct (json_is_string v), (json_is_array v). }
    split; [done|]. intros (_ & _ & g & Hc & _). exfalso. destruct Hc as [v' s Ht|j l ts Hj _].
    + by rewrite (is_text_string _ _ Ht) in Hv.
    + rewrite (proj2 (json_is_array_elements (Some j))) in Hv; [by rewrite orb_true_r in Hv|].
      exists j. split; [done|]. unfold json_array_elements. simpl. by rewrite Hj.
Qed.

(** *** Times *)

Lemma small_difference a b :
  0 <= b <= a -> a <= INT64_MAX -> u64 (i64 (a - b)) = a - b.
Proof.
  intros ? ?. rewrite i64_id by (unfold INT64_MIN, INT64_MAX in *; lia).
  apply u64_id. unfold UINT64_MAX, INT64_MAX in *. lia.
Qed.

Lemma integer_cases j :
  (json_is_integer (Some j) = false /\ forall t, json_typeof j <> JSON_INTEGER t) \/
  exists t, json_is_integer (Some j) = true /\ json_integer_value (Some j) = t /\
    json_typeof j = JSON_INTEGER t.
Proof.
  unfold json_is_integer, json_integer_value. simpl.
  destruct (json_typeof j); eauto; by left.
Qed.

Lemma validate_expiry_spec policy payload expires_at :
  cl_current_time policy <= INT64_MAX -> 0 <= cl_clock_skew_seconds policy ->
  validate_expiry payload policy = inr expires_at <->
  exists j, json_object_get payload (B "exp") = Some j /\
    json_typeof j = JSON_INTEGER expires_at /\ 0 < expires_at /\
    cl_current_time policy < expires_at + cl_clock_skew_seconds policy.
Proof.
  intros Hct Hskew. unfold validate_expiry.
  destruct (json_object_get payload (B "exp")) as [j|] eqn:Ej.
  2:{ split; [done|]. by intros (? & ? & _). }
  destruct (integer_cases j) as [[Ei Hno]|(t & Ei & Ev & Hj)]; rewrite Ei; simpl.
  { split; [done|]. intros (? & [= <-] & Hj & _). by destruct (Hno _ Hj). }
  rewrite Ev. transitivity (expires_at = t /\ 0 < t /\
    cl_current_time policy < t + cl_clock_skew_seconds policy).
  - destruct (Z.leb_spec t 0); simpl; [split; [done|lia]|].
    destruct (Z.leb_spec t (cl_current_time policy)); simpl.
    + rewrite small_difference by lia. destruct (Z.leb_spec (cl_clock_skew_seconds policy)
        (cl_current_time policy - t)); split; try done; try lia.
      * intros [= <-]. lia.
      * by intros [-> _].
    + split; [intros [= <-]; lia|by intros [-> _]].
  - split.
    + intros (-> & ? & ?). by exists j.
    + intros (? & [= <-] & Hj' & ? & ?). assert (expires_at = t) as -> by congruence. done.
Qed.

Lemma validate_not_future_spec policy v invalid future :
  json_integers_bounded -> 0 <= cl_current_time policy -> 0 <= cl_clock_skew_seconds policy ->
  invalid <> PG_OAUTH_CLAIMS_OK -> future <> PG_OAUTH_CLAIMS_OK ->
  validate_not_future v policy invalid future = PG_OAUTH_CLAIMS_OK <-> not_future_ok policy v.
Proof.
  intros Hb Hct Hskew Hi Hf. unfold validate_not_future, not_future_ok.
  destruct v as [j|]; [|tauto].
  destruct (integer_cases j) as [[Ei Hno]|(t & Ei & Ev & Hj)]; rewrite Ei; simpl.
  { split; [done|]. intros [|(? & ? & [= <-] & Hj & _)]; [done|]. by destruct (Hno _ Hj). }
  rewrite Ev. pose proof (Hb _ _ Hj).
  transitivity (0 <= t <= cl_current_time policy + cl_clock_skew_seconds policy).
  - destruct (Z.ltb_spec t 0); simpl; [split; [done|lia]|].
    destruct (Z.ltb_spec (cl_current_time policy) t); simpl; [|split; [lia|done]].
    rewrite small_difference by lia. destruct (Z.ltb_spec (cl_clock_skew_seconds policy)
      (t - cl_current_time policy)); split; try done; lia.
  - split; [intros ?; right; by exists j, t|].
    intros [|(? & t' & [= <-] & ? & ?)]; [done|]. assert (t' = t) as -> by congruence. done.
Qed.

(** *** The whole check *)

Record policy_bounds (policy : PgOAuthClaimsPolicy) : Prop := {
  pb_time : 0 <= cl_current_time policy;
  pb_audiences : 0 < cl_max_audiences policy;
  pb_scopes : 0 < cl_max_scopes policy;
  pb_roles : 0 < cl_max_roles policy \/ setting (cl_role_claim policy) = [];
  pb_issuer : exists issuer, cl_issuer policy = Some issuer /\ is_nonempty (Some issuer) = true
}.

Lemma valid_policy_bounds policy : valid_policy policy = true -> policy_bounds policy.
Proof.
  unfold valid_policy. rewrite !andb_true_iff, orb_true_iff, !andb_true_iff, !bool_decide_eq_true.
  intros Hv. destruct_and?. split; try lia.
  - match goal with H : _ \/ _ |- _ => destruct H as [?|?] end; [by right|left; lia].
  - destruct (cl_issuer policy); [eauto|done].
Qed.

Lemma validate_remaining_spec policy payload :
  json_integers_bounded -> policy_bounds policy -> 0 <= cl_clock_skew_seconds policy ->
  validate_remaining payload policy = PG_OAUTH_CLAIMS_OK <->
  not_future_ok policy (json_object_get payload (B "nbf")) /\
  not_future_ok policy (json_object_get payload (B "iat")) /\
  (exists s, is_text (json_object_get payload (B "sub")) s /\
     identity_text (cl_max_subject_size policy) s) /\
  (exists s, is_text (json_object_get payload (setting (cl_identity_claim policy))) s /\
     identity_text (cl_max_identity_size policy) s) /\
  scopes_ok policy (json_object_get payload (B "scope")) /\ role_ok policy payload.
Proof.
  intros Hb Hp Hskew. unfold validate_remaining.
  rewrite <- (validate_not_future_spec policy _ PG_OAUTH_CLAIMS_INVALID_NOT_BEFORE
    PG_OAUTH_CLAIMS_NOT_YET_VALID) by (done || apply Hp).
  rewrite <- (validate_not_future_spec policy (json_object_get payload (B "iat"))
    PG_OAUTH_CLAIMS_INVALID_ISSUED_AT PG_OAUTH_CLAIMS_ISSUED_IN_FUTURE) by (done || apply Hp).
  rewrite <- !valid_identity_string_spec, <- validate_scopes_spec by (destruct Hp; lia).
  rewrite <- validate_requested_role_spec by apply Hp.
  repeat match goal with
  | |- context [bool_decide (?x = PG_OAUTH_CLAIMS_OK)] =>
      destruct (bool_decide_reflect (x = PG_OAUTH_CLAIMS_OK)); simpl; [|tauto]
  | |- context [negb (valid_identity_string ?v ?m)] =>
      destruct (valid_identity_string v m); simpl; [|by split; [|intros (_ & _ & ? & ? & _)]]
  end. tauto.
Qed.
End CheckSpecs.

#[global] Arguments audience_matches : simpl never.
#[global] Arguments json_string_equals : simpl never.
#[global] Arguments validate_expiry : simpl never.
#[global] Arguments validate_remaining : simpl never.
#[global] Arguments valid_policy : simpl never.

Lemma reference_integers_bounded documents :
  json_integers_bounded (H := reference_jansson documents).
Proof.
  intros j n Hj. destruct j as [| | |m| |[]|]; simpl in Hj; try done.
  injection Hj as <-. apply i64_range.
Qed.

Module ClaimsExample.
#[export] Instance lib : Jansson := reference_jansson [].

Definition payload : Json := JObject
  [(B "iss", JString (B "https://idp.example")); (B "sub", JString (B "user-7"));
   (B "aud", JArray [JString (B "other"); JString (B "postgres")]);
   (B "exp", JInteger 1000); (B "nbf", JInteger 905); (B "iat", JInteger 900);
   (B "scope", JString (B "openid db.read")); (B "email", JString (B "a@example.org"));
   (B "roles", JArray [JString (B "reader"); JString (B "writer")])].

Definition verified : option json_t := Some (payload : json_t).

Definition policy : PgOAuthClaimsPolicy :=
  {| cl_issuer := Some (B "https://idp.example"); cl_audiences := Some (B "db, postgres");
     cl_required_scopes := Some (B "db.read"); cl_identity_claim := Some (B "email");
     cl_role_claim := Some (B "roles"); cl_requested_role := Some (B "writer");
     cl_current_time := 900; cl_clock_skew_seconds := 30; cl_max_identity_size := 1024;
     cl_max_subject_size := 1024; cl_max_audiences := 16; cl_max_scopes := 64;
     cl_max_roles := 64; cl_max_role_size := 63 |}.

End ClaimsExample.

(** ** Properties *)

Section ClaimsProperties.
Context `{Jansson}.
Implicit Types (policy : PgOAuthClaimsPolicy) (claims : PgOAuthValidatedClaims).

(** The equivalence both for claim validation and for its callers. *)
Lemma claims_validate_iff policy payload claims identity expires_at :
  json_integers_bounded -> valid_policy policy = true ->
  cl_current_time policy <= INT64_MAX -> 0 <= cl_clock_skew_seconds policy ->
  pg_oauth_claims_validate payload (Some policy) (Some claims) =
    (PG_OAUTH_CLAIMS_OK,
     Some {| vc_identity := Some identity; vc_identity_length := zlen identity;
             vc_expires_at := expires_at |}) <->
  claims_accepted policy payload identity expires_at.
Proof.
  intros Hb Hv Hct Hskew. pose proof (valid_policy_bounds _ Hv) as Hp.
  destruct (pb_issuer _ Hp) as (issuer & Ei & Hi).
  assert (setting (cl_issuer policy) = c_str issuer) as Eiss by (unfold setting; by rewrite Ei).
  unfold pg_oauth_claims_validate. rewrite Hv, orb_false_r.
  destruct (json_is_object payload) eqn:Eo; simpl.
  2:{ split; [done|]. intros [Ho]. congruence. }
  rewrite Ei. destruct (json_string_equals _ _) eqn:Eq; simpl.
  2:{ split; [done|]. intros [_ Hiss]. rewrite Eiss in Hiss.
      apply json_string_equals_spec in Hiss; [congruence|done]. }
  apply json_string_equals_spec in Eq; [|done]. rewrite <- Eiss in Eq.
  destruct (audience_matches _ _) eqn:Ea; simpl.
  2:{ split; [done|]. intros [_ _ Haud]. 
      apply audience_matches_spec in Haud; [congruence|apply Hp]. }
  apply audience_matches_spec in Ea; [|apply Hp].
  destruct (validate_expiry payload policy) as [err|t] eqn:Et.
  { split; [by intros [= -> ?]|]. intros [_ _ _ He].
    apply validate_expiry_spec in He; [congruence|done..]. }
  pose proof (validate_remaining_spec policy payload Hb Hp Hskew) as Hr.
  destruct (bool_decide_reflect (validate_remaining payload policy = PG_OAUTH_CLAIMS_OK))
    as [Eok|Eno]; simpl.
  - destruct (proj1 Hr Eok) as (? & ? & ? & (s & Hs & ?) & ? & ?).
    rewrite (is_text_value _ _ Hs). unfold json_string_length.
    rewrite (is_text_value _ _ Hs). split.
    + intros ?. simplify_eq. apply validate_expiry_spec in Et; [|done..]. by split.
    + intros [_ _ _ He _ _ _ [Hid _]]. apply validate_expiry_spec in He; [|done..].
      apply is_text_value in Hid, Hs. congruence.
  - split; [by intros [= -> ?]|]. intros []. destruct Eno. apply Hr. split_and!; eauto.
Qed.

(** What an accepted payload leaves in the result. *)
Lemma claims_validate_ok policy payload claims result :
  pg_oauth_claims_validate payload (Some policy) (Some claims) = (PG_OAUTH_CLAIMS_OK, result) ->
  valid_policy policy = true /\ exists identity expires_at,
    result = Some {| vc_identity := Some identity; vc_identity_length := zlen identity;
                     vc_expires_at := expires_at |}.
Proof.
  unfold pg_oauth_claims_validate. intros E.
  destruct (json_is_object payload); [|done]. destruct (valid_policy policy); [|done].
  simpl in E. guards; unfold json_string_length; eauto.
  - unfold validate_expiry in *. by guards.
  - by prop_bools.
Qed.

(** C3: claim validation accepts exactly the payloads [claims_accepted]
    describes (issuer equal to the configured one; a bounded, duplicate-free
    audience that meets the configured list; [exp] present, positive and not
    passed by more than the skew; [nbf] and [iat], if there, integers not in the
    future; usable subject and identity; every required scope among bounded,
    distinct, well-formed scopes; the requested role granted where a role claim
    is configured), and it returns the identity claim and the expiry.  The
    64-bit comparisons of times are exact. *)
Theorem claims_validate_correct policy payload claims identity expires_at :
  json_integers_bounded -> valid_policy policy = true ->
  cl_current_time policy <= INT64_MAX -> 0 <= cl_clock_skew_seconds policy ->
  pg_oauth_claims_validate payload (Some policy) (Some claims) =
    (PG_OAUTH_CLAIMS_OK,
     Some {| vc_identity := Some identity; vc_identity_length := zlen identity;
             vc_expires_at := expires_at |}) <->
  claims_accepted policy payload identity expires_at.
Proof. exact (claims_validate_iff policy payload claims identity expires_at). Qed.

(** C25: claim validation fails closed: with an invalid policy or a payload that
    is no object it reports an invalid argument, and after any error the result
    names no identity. *)
Theorem claims_validate_fail_closed (policy : option PgOAuthClaimsPolicy) payload claims :
  let '(error, result) := pg_oauth_claims_validate payload policy (Some claims) in
  (error <> PG_OAUTH_CLAIMS_OK ->
     exists c, result = Some c /\ vc_identity c = None /\ vc_identity_length c = 0) /\
  ((forall p, policy = Some p -> valid_policy p = true -> json_is_object payload = false) ->
     error = PG_OAUTH_CLAIMS_INVALID_ARGUMENT).
Proof.
  unfold pg_oauth_claims_validate. destruct policy as [p|]; [|by eauto].
  destruct (valid_policy p) eqn:Ev.
  - destruct (json_is_object payload) eqn:Eo; simpl; [|by eauto].
    guards; (split; [by eauto|by intros E; specialize (E p eq_refl Ev)]).
  - rewrite orb_true_r. by eauto.
Qed.
End ClaimsProperties.

Lemma claims_validate_correct_witness :
  claims_accepted (H := ClaimsExample.lib) ClaimsExample.policy
    ClaimsExample.verified (B "a@example.org") 1000.
Proof.
  apply (claims_validate_correct (H := ClaimsExample.lib) ClaimsExample.policy
    ClaimsExample.verified claims_zero (B "a@example.org") 1000).
  - apply reference_integers_bounded.
  - by vm_compute.
  - by vm_compute.
  - by vm_compute.
  - by vm_compute.
Defined.
