(* ===== verification/Jwks.v ===== *)
(** * Key selection (src/jwks.c, src/jwks.h)

    From a JWKS document and the key id and algorithm of a token, the one key
    that may verify the token, or an error.  [key_selectable] states what that
    key is; [jwks_select_sound] and [jwks_select_complete] prove that the code
    selects exactly it.
    OpenSSL's point arithmetic is a parameter (class [OpenSsl]). *)

From S2P Require Import Prelude Base64url Jansson Envelope.

#[local] Ltac Zify.zify_post_hook ::= Z.div_mod_to_equations.

(** ** Data *)

Definition PG_OAUTH_JWK_MAX_EXPONENT_BYTES : Z := 8.
Definition NID_X9_62_prime256v1 : Z := 415.
Definition EVP_PKEY_ED25519 : Z := 1087.

Inductive PgOAuthJwksError :=
| PG_OAUTH_JWKS_OK
| PG_OAUTH_JWKS_INVALID_ARGUMENT
| PG_OAUTH_JWKS_EMPTY
| PG_OAUTH_JWKS_TOO_LARGE
| PG_OAUTH_JWKS_INVALID_JSON
| PG_OAUTH_JWKS_INVALID_KEYS
| PG_OAUTH_JWKS_TOO_MANY_KEYS
| PG_OAUTH_JWKS_INVALID_KEY_ID
| PG_OAUTH_JWKS_DUPLICATE_KEY_ID
| PG_OAUTH_JWKS_KEY_NOT_FOUND
| PG_OAUTH_JWKS_ALGORITHM_MISMATCH
| PG_OAUTH_JWKS_KEY_NOT_FOR_SIGNATURE
| PG_OAUTH_JWKS_INVALID_KEY.

#[global] Instance jwks_error_eq_dec : EqDecision PgOAuthJwksError.
Proof. solve_decision. Defined.

Record PgOAuthJwksPolicy := {
  jp_max_jwks_size : Z;
  jp_max_keys : Z;
  jp_max_key_id_size : Z;
  jp_allowed_algorithms : Z;
  jp_minimum_rsa_bits : Z;
  jp_maximum_rsa_bits : Z
}.

Record PgOAuthSelectedJwk `{Jansson} := {
  sel_jwks : option json_t;
  sel_jwk : option json_t;
  sel_algorithm : Z
}.

(** What the code calls of OpenSSL; a constructor that fails returns NULL. *)
Class OpenSsl := {
  EC_GROUP : Type;
  EC_POINT : Type;
  BIGNUM : Type;
  EVP_PKEY : Type;
  EC_GROUP_new_by_curve_name : Z -> option EC_GROUP;
  EC_POINT_new : EC_GROUP -> option EC_POINT;
  BN_bin2bn : bytes -> option BIGNUM;
  EC_POINT_set_affine_coordinates : EC_GROUP -> EC_POINT -> BIGNUM -> BIGNUM -> Z * EC_POINT;
  EC_POINT_is_at_infinity : EC_GROUP -> EC_POINT -> Z;
  EC_POINT_is_on_curve : EC_GROUP -> EC_POINT -> Z;
  EVP_PKEY_new_raw_public_key : Z -> bytes -> option EVP_PKEY
}.

(** ** Definitions *)

(** [while ((first & 0x80) == 0)] on an 8-bit value; [fuel] bounds the shifts. *)
Fixpoint leading_zero_bits (fuel : nat) (first : Z) : Z :=
  match fuel with
  | O => 0
  | S fuel =>
      if Z.land first 128 =? 0 then 1 + leading_zero_bits fuel (u8 (Z.shiftl first 1)) else 0
  end.

Definition unsigned_bit_length (value : bytes) : Z :=
  match ltrim (fun c => bz c =? 0) value with
  | [] => 0
  | (first :: _) as value =>
      if UINT_MAX / 8 <? zlen value then 0
      else u32 (u32 (zlen value * 8) - leading_zero_bits 8 (bz first))
  end.

(** [exponent_value = (exponent_value << 8) | exponent[i]]. *)
Definition exponent_value (exponent : bytes) : Z :=
  foldl (fun acc c => Z.lor (u64 (Z.shiftl acc 8)) (bz c)) 0 exponent.

Definition first_byte (data : bytes) : byte := default x00 (head data).

Section Jwks.
Context `{Jansson} `{OpenSsl}.

Definition json_string_equals (value : option json_t) (expected : bytes) : bool :=
  if negb (json_is_string value) then false
  else (json_string_length value =? zlen expected) &&
       bytes_eqb (json_string_value value) expected.

Definition valid_key_id (value : option json_t) (maximum : Z) : bool :=
  if negb (json_is_string value) then false
  else if (json_string_length value =? 0) || (maximum <? json_string_length value) then false
  else negb (existsb iscntrl (json_string_value value)).

Definition key_allows_verification (key : option json_t) : bool :=
  let use := json_object_get key (B "use") in
  let operations := json_object_get key (B "key_ops") in
  if bool_decide (is_Some use) && negb (json_string_equals use (B "sig")) then false
  else if bool_decide (is_Some operations) &&
          (negb (json_is_array operations) || negb (json_array_size operations =? 1) ||
           negb (json_string_equals (head (json_array_elements operations)) (B "verify")))
  then false
  else bool_decide (is_Some use) || bool_decide (is_Some operations).

Definition private_members : list bytes :=
  [B "d"; B "p"; B "q"; B "dp"; B "dq"; B "qi"; B "oth"; B "k"].

Definition contains_private_key_material (key : option json_t) : bool :=
  existsb (fun member => bool_decide (is_Some (json_object_get key member))) private_members.

Definition key_algorithm (key : option json_t) : Z :=
  let algorithm := json_object_get key (B "alg") in
  if json_string_equals algorithm (B "RS256") then PG_OAUTH_ALGORITHM_RS256
  else if json_string_equals algorithm (B "ES256") then PG_OAUTH_ALGORITHM_ES256
  else if json_string_equals algorithm (B "EdDSA") then PG_OAUTH_ALGORITHM_EDDSA
  else 0.

Definition decode_parameter (malloc : Z -> bool) (value : option json_t) (maximum : Z)
  : option bytes :=
  if negb (json_is_string value) then None
  else
    let encoded := json_string_value value in
    if negb (pg_oauth_base64url_valid (Some encoded)) then None
    else match pg_oauth_base64url_decoded_size (zlen encoded) maximum with
    | None => None
    | Some decoded_length =>
        if negb (malloc decoded_length) then None
        else pg_oauth_base64url_decode (Some encoded) decoded_length
    end.

Definition valid_rsa_key (malloc : nat -> Z -> bool) (key : option json_t)
  (policy : PgOAuthJwksPolicy) : bool :=
  if negb (json_string_equals (json_object_get key (B "kty")) (B "RSA")) then false
  else match decode_parameter (malloc 0%nat) (json_object_get key (B "n"))
               (jp_maximum_rsa_bits policy / 8 + 1) with
  | None => false
  | Some modulus =>
      match decode_parameter (malloc 1%nat) (json_object_get key (B "e"))
              PG_OAUTH_JWK_MAX_EXPONENT_BYTES with
      | None => false
      | Some exponent =>
          if (bz (first_byte modulus) =? 0) || (bz (first_byte exponent) =? 0) ||
             (Z.land (bz (last_byte modulus)) 1 =? 0)
          then false
          else
            let bits := unsigned_bit_length modulus in
            if (bits <? jp_minimum_rsa_bits policy) || (jp_maximum_rsa_bits policy <? bits)
            then false
            else if (exponent_value exponent <? 3) || (Z.land (exponent_value exponent) 1 =? 0)
            then false
            else true
      end
  end.

(** The calls of [valid_ec_key] into OpenSSL on the two coordinates. *)
Definition ec_point_ok (x y : bytes) : bool :=
  match EC_GROUP_new_by_curve_name NID_X9_62_prime256v1 with
  | None => false
  | Some group =>
      match EC_POINT_new group, BN_bin2bn x, BN_bin2bn y with
      | Some point, Some x_coordinate, Some y_coordinate =>
          let '(status, point) :=
            EC_POINT_set_affine_coordinates group point x_coordinate y_coordinate in
          if negb (status =? 1) || (EC_POINT_is_at_infinity group point =? 1) ||
             negb (EC_POINT_is_on_curve group point =? 1)
          then false else true
      | _, _, _ => false
      end
  end.

Definition valid_ec_key (malloc : nat -> Z -> bool) (key : option json_t) : bool :=
  if negb (json_string_equals (json_object_get key (B "kty")) (B "EC")) ||
     negb (json_string_equals (json_object_get key (B "crv")) (B "P-256"))
  then false
  else match decode_parameter (malloc 0%nat) (json_object_get key (B "x")) 32 with
  | None => false
  | Some x =>
      match decode_parameter (malloc 1%nat) (json_object_get key (B "y")) 32 with
      | None => false
      | Some y =>
          if negb (zlen x =? 32) || negb (zlen y =? 32) then false else ec_point_ok x y
      end
  end.

Definition valid_ed25519_key (malloc : nat -> Z -> bool) (key : option json_t) : bool :=
  if negb (json_string_equals (json_object_get key (B "kty")) (B "OKP")) ||
     negb (json_string_equals (json_object_get key (B "crv")) (B "Ed25519"))
  then false
  else match decode_parameter (malloc 0%nat) (json_object_get key (B "x")) 32 with
  | None => false
  | Some x =>
      if negb (zlen x =? 32) then false
      else bool_decide (is_Some (EVP_PKEY_new_raw_public_key EVP_PKEY_ED25519 x))
  end.

Definition selected_zero : PgOAuthSelectedJwk :=
  {| sel_jwks := None; sel_jwk := None; sel_algorithm := 0 |}.

Definition pg_oauth_selected_jwk_clear (selected : option PgOAuthSelectedJwk)
  : option PgOAuthSelectedJwk :=
  match selected with
  | None => None
  | Some _ => Some selected_zero
  end.

Definition jwks_arguments_invalid (policy : PgOAuthJwksPolicy) (key_id : bytes)
  (token_algorithm : Z) : bool :=
  (jp_max_jwks_size policy =? 0) || (jp_max_keys policy =? 0) ||
  (jp_max_key_id_size policy =? 0) || (jp_allowed_algorithms policy =? 0) ||
  (jp_minimum_rsa_bits policy <? 2048) ||
  (jp_maximum_rsa_bits policy <? jp_minimum_rsa_bits policy) ||
  (16384 <? jp_maximum_rsa_bits policy) || (token_algorithm =? 0) ||
  negb (Z.land token_algorithm (u32 (token_algorithm - 1)) =? 0) ||
  (Z.land token_algorithm (jp_allowed_algorithms policy) =? 0) ||
  (strlen key_id =? 0) || (jp_max_key_id_size policy <? strlen key_id) ||
  existsb iscntrl (c_str key_id).

(** The loop over the keys. *)
Fixpoint candidate_loop (maximum : Z) (key_id : bytes) (keys : list json_t)
  (candidate : option json_t) : PgOAuthJwksError + option json_t :=
  match keys with
  | [] => inr candidate
  | key :: keys =>
      if negb (json_is_object (Some key)) then inl PG_OAUTH_JWKS_INVALID_KEYS
      else match json_object_get (Some key) (B "kid") with
      | None => candidate_loop maximum key_id keys candidate
      | Some candidate_id =>
          if negb (valid_key_id (Some candidate_id) maximum)
          then inl PG_OAUTH_JWKS_INVALID_KEY_ID
          else if (json_string_length (Some candidate_id) =? zlen key_id) &&
                  bytes_eqb (json_string_value (Some candidate_id)) key_id
          then match candidate with
               | Some _ => inl PG_OAUTH_JWKS_DUPLICATE_KEY_ID
               | None => candidate_loop maximum key_id keys (Some key)
               end
          else candidate_loop maximum key_id keys candidate
      end
  end.

Definition key_checks (malloc : nat -> Z -> bool) (policy : PgOAuthJwksPolicy)
  (token_algorithm : Z) (candidate : option json_t) : PgOAuthJwksError :=
  let algorithm := key_algorithm candidate in
  if (algorithm =? 0) || negb (algorithm =? token_algorithm) ||
     (Z.land algorithm (jp_allowed_algorithms policy) =? 0)
  then PG_OAUTH_JWKS_ALGORITHM_MISMATCH
  else if negb (key_allows_verification candidate) then PG_OAUTH_JWKS_KEY_NOT_FOR_SIGNATURE
  else if contains_private_key_material candidate then PG_OAUTH_JWKS_INVALID_KEY
  else if ((algorithm =? PG_OAUTH_ALGORITHM_RS256) &&
             negb (valid_rsa_key malloc candidate policy)) ||
          ((algorithm =? PG_OAUTH_ALGORITHM_ES256) && negb (valid_ec_key malloc candidate)) ||
          ((algorithm =? PG_OAUTH_ALGORITHM_EDDSA) &&
             negb (valid_ed25519_key malloc candidate))
  then PG_OAUTH_JWKS_INVALID_KEY
  else PG_OAUTH_JWKS_OK.

(** The document and the choice of the candidate. *)
Definition jwks_candidate (policy : PgOAuthJwksPolicy) (document key_id : bytes)
  : PgOAuthJwksError + (json_t * json_t) :=
  if zlen document =? 0 then inl PG_OAUTH_JWKS_EMPTY
  else if jp_max_jwks_size policy <? zlen document then inl PG_OAUTH_JWKS_TOO_LARGE
  else if memchr x00 document then inl PG_OAUTH_JWKS_INVALID_JSON
  else match json_loadb document JSON_REJECT_DUPLICATES with
  | None => inl PG_OAUTH_JWKS_INVALID_JSON
  | Some jwks =>
      if negb (json_is_object (Some jwks)) then inl PG_OAUTH_JWKS_INVALID_JSON
      else
        let keys := json_object_get (Some jwks) (B "keys") in
        if negb (json_is_array keys) || (json_array_size keys =? 0)
        then inl PG_OAUTH_JWKS_INVALID_KEYS
        else if jp_max_keys policy <? json_array_size keys then inl PG_OAUTH_JWKS_TOO_MANY_KEYS
        else match candidate_loop (jp_max_key_id_size policy) key_id
                     (json_array_elements keys) None with
        | inl error => inl error
        | inr None => inl PG_OAUTH_JWKS_KEY_NOT_FOUND
        | inr (Some candidate) => inr (jwks, candidate)
        end
  end.

Definition pg_oauth_jwks_select (malloc : nat -> Z -> bool) (document key_id : option bytes)
  (token_algorithm : Z) (policy : option PgOAuthJwksPolicy)
  (selected : option PgOAuthSelectedJwk) : PgOAuthJwksError * option PgOAuthSelectedJwk :=
  match selected with
  | None => (PG_OAUTH_JWKS_INVALID_ARGUMENT, None)
  | Some _ =>
      match document, key_id, policy with
      | Some document, Some key_id, Some policy =>
          if jwks_arguments_invalid policy key_id token_algorithm
          then (PG_OAUTH_JWKS_INVALID_ARGUMENT, Some selected_zero)
          else match jwks_candidate policy document (c_str key_id) with
          | inl error => (error, Some selected_zero)
          | inr (jwks, candidate) =>
              let error := key_checks malloc policy token_algorithm (Some candidate) in
              if negb (bool_decide (error = PG_OAUTH_JWKS_OK))
              then (error, pg_oauth_selected_jwk_clear selected)
              else (PG_OAUTH_JWKS_OK,
                    Some {| sel_jwks := Some jwks; sel_jwk := Some candidate;
                            sel_algorithm := key_algorithm (Some candidate) |})
          end
      | _, _, _ => (PG_OAUTH_JWKS_INVALID_ARGUMENT, Some selected_zero)
      end
  end.
End Jwks.

Definition jwks_error_value (error : PgOAuthJwksError) : Z :=
  match error with
  | PG_OAUTH_JWKS_OK => 0
  | PG_OAUTH_JWKS_INVALID_ARGUMENT => 1
  | PG_OAUTH_JWKS_EMPTY => 2
  | PG_OAUTH_JWKS_TOO_LARGE => 3
  | PG_OAUTH_JWKS_INVALID_JSON => 4
  | PG_OAUTH_JWKS_INVALID_KEYS => 5
  | PG_OAUTH_JWKS_TOO_MANY_KEYS => 6
  | PG_OAUTH_JWKS_INVALID_KEY_ID => 7
  | PG_OAUTH_JWKS_DUPLICATE_KEY_ID => 8
  | PG_OAUTH_JWKS_KEY_NOT_FOUND => 9
  | PG_OAUTH_JWKS_ALGORITHM_MISMATCH => 10
  | PG_OAUTH_JWKS_KEY_NOT_FOR_SIGNATURE => 11
  | PG_OAUTH_JWKS_INVALID_KEY => 12
  end.

Definition pg_oauth_jwks_error_code (error : Z) : bytes :=
  code_at
    [B "ok"; B "invalid_argument"; B "empty"; B "too_large"; B "invalid_json";
     B "invalid_keys"; B "too_many_keys"; B "invalid_key_id"; B "duplicate_key_id";
     B "key_not_found"; B "algorithm_mismatch"; B "key_not_for_signature"; B "invalid_key"]
    (B "unknown") error.

#[global] Arguments json_string_equals : simpl never.
#[global] Arguments json_object_get : simpl never.

(** ** Bit lengths *)

Lemma be_ltrim s : be (ltrim (fun c => bz c =? 0) s) = be s.
Proof.
  induction s as [|c s IH]; [done|]. simpl. destruct (Z.eqb_spec (bz c) 0) as [E|]; [|done].
  by rewrite be_cons, E, IH.
Qed.

Lemma ltrim_head p s c t : ltrim p s = c :: t -> p c = false.
Proof. induction s as [|d s IH]; simpl; [done|]. destruct (p d) eqn:E; [done|]. by intros [= <- _]. Qed.

Lemma ltrim_shorter p s : zlen (ltrim p s) <= zlen s.
Proof. induction s as [|c s IH]; simpl; [done|]. destruct (p c); rewrite ?zlen_cons; lia. Qed.

Lemma log2_first c s :
  bz c <> 0 -> Z.log2 (be (c :: s)) = Z.log2 (bz c) + 8 * zlen s.
Proof.
  intros Hc. pose proof (bz_range c). pose proof (be_range s). pose proof (zlen_nonneg s).
  pose proof (Z.log2_spec (bz c) ltac:(lia)). pose proof (Z.log2_nonneg (bz c)).
  apply Z.log2_unique; [lia|]. rewrite be_cons.
  change 256 with (2 ^ 8) in *. rewrite <- Z.pow_mul_r in * by lia.
  rewrite Z.pow_succ_r, !Z.pow_add_r by lia.
  rewrite Z.pow_succ_r in * by lia. nia.
Qed.

Lemma leading_zero_bits_log2 c : bz c <> 0 -> leading_zero_bits 8 (bz c) = 7 - Z.log2 (bz c).
Proof.
  intros Hc. apply Z.eqb_eq.
  assert ((bz c =? 0) || (leading_zero_bits 8 (bz c) =? 7 - Z.log2 (bz c)) = true) as Hall.
  { revert c Hc. intros c _.
    apply (byte_forallb (fun c => (bz c =? 0) || (leading_zero_bits 8 (bz c) =? 7 - Z.log2 (bz c)))).
    by vm_compute. }
  apply orb_true_iff in Hall as [?%Z.eqb_eq|]; done.
Qed.

Lemma unsigned_bit_length_spec value :
  zlen value <= UINT_MAX / 8 ->
  unsigned_bit_length value = if be value =? 0 then 0 else Z.log2 (be value) + 1.
Proof.
  intros Hlen. unfold unsigned_bit_length. rewrite <- (be_ltrim value).
  pose proof (ltrim_shorter (fun c => bz c =? 0) value) as Hs.
  destruct (ltrim (fun c => bz c =? 0) value) as [|c s] eqn:El; [done|].
  apply ltrim_head in El. apply Z.eqb_neq in El.
  assert ((be (c :: s) =? 0) = false) as ->.
  { apply Z.eqb_neq. rewrite be_cons. pose proof (be_range s). pose proof (bz_range c).
    pose proof (zlen_nonneg s). pose proof (Z.pow_pos_nonneg 256 (zlen s) eq_refl ltac:(done)). nia. }
  change (UINT_MAX / 8) with 536870911 in *. rewrite zlen_cons in *.
  destruct (Z.ltb_spec 536870911 (1 + zlen s)); [lia|].
  rewrite leading_zero_bits_log2, log2_first by done.
  pose proof (zlen_nonneg s). pose proof (bz_range c).
  assert (0 <= Z.log2 (bz c) <= 7).
  { split; [apply Z.log2_nonneg|]. change 7 with (Z.log2 255). apply Z.log2_le_mono. lia. }
  unfold u32. rewrite (Z.mod_small (_ * 8)) by lia. rewrite Z.mod_small by lia. lia.
Qed.

Lemma exponent_value_spec exponent : zlen exponent <= 8 -> exponent_value exponent = be exponent.
Proof.
  unfold exponent_value, be.
  assert (forall acc k, 0 <= acc < 256 ^ k -> 0 <= k -> k + zlen exponent <= 8 ->
    foldl (fun acc c => Z.lor (u64 (Z.shiftl acc 8)) (bz c)) acc exponent =
    foldl (fun acc c => acc * 256 + bz c) acc exponent) as Hgen.
  { induction exponent as [|c s IH]; intros acc k Ha Hk Hl; [done|].
    rewrite zlen_cons in Hl. pose proof (zlen_nonneg s). pose proof (bz_range c).
    assert (256 ^ k <= 256 ^ 7) by (apply Z.pow_le_mono_r; lia).
    cbn [foldl]. rewrite u64_id, lor_shiftl; rewrite ?Z.shiftl_mul_pow2; try lia.
    2:{ unfold UINT64_MAX. lia. }
    apply (IH _ (k + 1)); try lia. rewrite Z.pow_add_r by lia. lia. }
  intros. apply (Hgen 0 0); lia.
Qed.

Lemma land_1_odd z : (Z.land z 1 =? 0) = negb (Z.odd z).
Proof.
  change 1 with (Z.ones 1). rewrite Z.land_ones by done. change (2 ^ 1) with 2.
  rewrite Zmod_odd. by destruct (Z.odd z).
Qed.

Lemma be_odd s : Z.odd (be s) = Z.odd (bz (last_byte s)).
Proof.
  destruct s as [|c s] using rev_ind; [done|]. rewrite be_app. unfold last_byte.
  rewrite last_last, Z.odd_add, Z.odd_mul. simpl. by rewrite andb_false_r.
Qed.

(** ** Specification *)

Section JwksSpec.
Context `{Jansson} `{OpenSsl}.
Implicit Types policy : PgOAuthJwksPolicy.

(** A member that is the canonical Base64URL text of [data]. *)
Definition parameter (key : json_t) (name data : bytes) : Prop :=
  exists s, is_text (json_object_get (Some key) name) s /\ s <> [] /\ canonical s /\
    data = base64url_decode_blocks s.

Definition member_text (key : json_t) (name value : bytes) : Prop :=
  is_text (json_object_get (Some key) name) value.

Definition rsa_key (policy : PgOAuthJwksPolicy) (key : json_t) : Prop :=
  member_text key (B "kty") (B "RSA") /\
  exists n e, parameter key (B "n") n /\ parameter key (B "e") e /\
    bz (first_byte n) <> 0 /\ bz (first_byte e) <> 0 /\
    Z.odd (be n) = true /\
    jp_minimum_rsa_bits policy <= Z.log2 (be n) + 1 <= jp_maximum_rsa_bits policy /\
    zlen e <= PG_OAUTH_JWK_MAX_EXPONENT_BYTES /\ 3 <= be e /\ Z.odd (be e) = true.

Definition ec_key (key : json_t) : Prop :=
  member_text key (B "kty") (B "EC") /\ member_text key (B "crv") (B "P-256") /\
  exists x y, parameter key (B "x") x /\ parameter key (B "y") y /\
    zlen x = 32 /\ zlen y = 32 /\ ec_point_ok x y = true.

Definition ed25519_key (key : json_t) : Prop :=
  member_text key (B "kty") (B "OKP") /\ member_text key (B "crv") (B "Ed25519") /\
  exists x, parameter key (B "x") x /\ zlen x = 32 /\
    is_Some (EVP_PKEY_new_raw_public_key EVP_PKEY_ED25519 x).

(** The algorithm a key declares, with material of that algorithm's type. *)
Definition key_for (policy : PgOAuthJwksPolicy) (algorithm : Z) (key : json_t) : Prop :=
  (algorithm = PG_OAUTH_ALGORITHM_RS256 /\ member_text key (B "alg") (B "RS256") /\
   rsa_key policy key) \/
  (algorithm = PG_OAUTH_ALGORITHM_ES256 /\ member_text key (B "alg") (B "ES256") /\
   ec_key key) \/
  (algorithm = PG_OAUTH_ALGORITHM_EDDSA /\ member_text key (B "alg") (B "EdDSA") /\
   ed25519_key key).

(** Marked for verifying signatures, by [use], by [key_ops] or by both. *)
Definition for_verification (key : json_t) : Prop :=
  let use := json_object_get (Some key) (B "use") in
  let operations := json_object_get (Some key) (B "key_ops") in
  (use = None \/ is_text use (B "sig")) /\
  (operations = None \/
   exists j o, operations = Some j /\ json_typeof j = JSON_ARRAY [o] /\
     is_text (Some o) (B "verify")) /\
  (is_Some use \/ is_Some operations).

Definition usable_kid (maximum : Z) (key : json_t) : Prop :=
  json_typeof key = JSON_OBJECT /\
  (json_object_get (Some key) (B "kid") = None \/
   exists k, member_text key (B "kid") k /\ key_id_ok maximum k).

(** The key set of a document: bounded, without NUL, an object in which (as in all
    objects within) no member name occurs twice. *)
Definition key_set (policy : PgOAuthJwksPolicy) (document : bytes) (jwks : json_t)
  (keys : list json_t) : Prop :=
  document <> [] /\ zlen document <= jp_max_jwks_size policy /\ ~ x00 ∈ document /\
  json_loadb document JSON_REJECT_DUPLICATES = Some jwks /\ ~ json_duplicate_keys document /\
  json_typeof jwks = JSON_OBJECT /\
  (exists k, json_object_get (Some jwks) (B "keys") = Some k /\
             json_typeof k = JSON_ARRAY keys) /\
  keys <> [] /\ zlen keys <= jp_max_keys policy.

(** The key for a token: the only one with its key id, declared for exactly its
    algorithm, marked for verification, public and well-formed. *)
Record key_selectable (policy : PgOAuthJwksPolicy) (document key_id : bytes)
  (algorithm : Z) (jwks jwk : json_t) : Prop := {
  ks_keys : exists before after, key_set policy document jwks (before ++ jwk :: after) /\
    Forall (usable_kid (jp_max_key_id_size policy)) (before ++ jwk :: after) /\
    member_text jwk (B "kid") key_id /\
    Forall (fun other => ~ member_text other (B "kid") key_id) (before ++ after);
  ks_algorithm : key_for policy algorithm jwk;
  ks_allowed : Z.land algorithm (jp_allowed_algorithms policy) <> 0;
  ks_use : for_verification jwk;
  ks_public : forall m, m ∈ private_members -> json_object_get (Some jwk) m = None
}.

(** ** The checks on one key *)

Lemma jwk_string_equals_spec v expected :
  json_string_equals v expected = true <-> is_text v expected.
Proof.
  unfold json_string_equals, bytes_eqb, json_string_length.
  destruct (json_is_string v) eqn:E; simpl.
  - apply json_is_string_text in E. rewrite andb_true_iff, Z.eqb_eq, bool_decide_eq_true. split.
    + intros [_ <-]. done.
    + intros Ht. by rewrite (is_text_value _ _ Ht).
  - split; [done|]. intros Ht. by rewrite (is_text_string _ _ Ht) in E.
Qed.

Lemma is_text_fun v s s' : is_text v s -> is_text v s' -> s = s'.
Proof. intros H1%is_text_value H2%is_text_value. congruence. Qed.

Lemma decode_parameter_spec malloc key name maximum data :
  maximum <= SIZE_MAX ->
  decode_parameter malloc (json_object_get (Some key) name) maximum = Some data <->
  parameter key name data /\ zlen data <= maximum /\ malloc (zlen data) = true.
Proof.
  intros Hmax. unfold decode_parameter, parameter.
  set (v := json_object_get (Some key) name).
  destruct (json_is_string v) eqn:Es; simpl.
  2:{ split; [done|]. intros ((s & Ht & _) & _). by rewrite (is_text_string _ _ Ht) in Es. }
  apply json_is_string_text in Es. set (s := json_string_value v) in *.
  transitivity (s <> [] /\ canonical s /\ data = base64url_decode_blocks s /\
    zlen data <= maximum /\ malloc (zlen data) = true).
  2:{ split; [intros (? & ? & ? & ? & ?); eauto 10|].
      intros ((s' & Ht & ?) & ?). rewrite (is_text_fun _ _ _ Es Ht). tauto. }
  pose proof (valid_canonical s) as Hv. destruct (pg_oauth_base64url_valid (Some s)); simpl.
  2:{ split; [done|]. intros (? & ? & _). by assert (false = true) by tauto. }
  destruct (proj1 Hv eq_refl) as [Hne Hc]. destruct (proj1 (canonical_spec _) Hc) as [Hmod _].
  pose proof (length_decode_blocks s Hmod) as Hl. set (d := base64url_decode_blocks s) in *.
  destruct (pg_oauth_base64url_decoded_size (zlen s) maximum) as [n|] eqn:En.
  - assert (n = zlen d /\ zlen d <= maximum) as [-> Hle].
    { revert En Hl. unfold pg_oauth_base64url_decoded_size. intros. guards; lia. }
    destruct (malloc (zlen d)) eqn:Em; simpl.
    + rewrite decode_spec, decoded_size_ok by (done || (fold d; lia)). fold d.
      split; [intros (_ & -> & _); tauto|]. intros (_ & _ & -> & _). tauto.
    + split; [done|]. intros (_ & _ & -> & _ & ?). congruence.
  - split; [done|]. intros (_ & _ & -> & Hle & _). exfalso. revert En Hl.
    unfold pg_oauth_base64url_decoded_size. intros. guards; lia.
Qed.

(** Memory that never runs out. *)
Definition plenty : nat -> Z -> bool := fun _ _ => true.

Lemma decode_parameter_plenty key name maximum data i :
  maximum <= SIZE_MAX ->
  decode_parameter (plenty i) (json_object_get (Some key) name) maximum = Some data <->
  parameter key name data /\ zlen data <= maximum.
Proof. intros. rewrite decode_parameter_spec by done. unfold plenty. tauto. Qed.

Lemma parameter_fun key name d d' : parameter key name d -> parameter key name d' -> d = d'.
Proof.
  intros (s & Ht & _ & _ & ->) (s' & Ht' & _ & _ & ->). by rewrite (is_text_fun _ _ _ Ht Ht').
Qed.

Lemma parameter_nonempty key name d : parameter key name d -> d <> [].
Proof.
  intros (s & _ & Hne & Hc & ->). destruct s as [|a [|b [|c [|e s]]]]; [done| |done..].
  apply canonical_spec in Hc as [Hc _]. by unfold zlen in Hc.
Qed.

Lemma first_byte_bits d :
  bz (first_byte d) <> 0 -> 8 * (zlen d - 1) <= Z.log2 (be d) /\ be d <> 0.
Proof.
  destruct d as [|c d]; [done|]. unfold first_byte. simpl. intros Hc.
  rewrite log2_first, zlen_cons, be_cons by done. pose proof (Z.log2_nonneg (bz c)).
  pose proof (be_range d). pose proof (bz_range c). pose proof (zlen_nonneg d). nia.
Qed.

Lemma modulus_size bits : 0 <= bits <= 16384 -> bits / 8 + 1 <= SIZE_MAX.
Proof. unfold SIZE_MAX. lia. Qed.

Lemma valid_rsa_key_spec policy key :
  0 <= jp_minimum_rsa_bits policy -> 0 <= jp_maximum_rsa_bits policy <= 16384 ->
  valid_rsa_key plenty (Some key) policy = true <-> rsa_key policy key.
Proof.
  intros Hmin Hmax. unfold valid_rsa_key, rsa_key, member_text, PG_OAUTH_JWK_MAX_EXPONENT_BYTES.
  rewrite <- jwk_string_equals_spec.
  destruct (json_string_equals _ _); simpl; [|split; [done|]; by intros [? _]].
  destruct (decode_parameter (plenty 0) _ _) as [n|] eqn:En.
  - apply decode_parameter_plenty in En as [Hn Hnl]; [|by apply modulus_size].
    destruct (decode_parameter (plenty 1) _ _) as [e|] eqn:Ee.
    + apply decode_parameter_plenty in Ee as [He Hel]; [|done].
      assert (zlen n <= UINT_MAX / 8) by (change (UINT_MAX / 8) with 536870911; lia).
      rewrite unsigned_bit_length_spec, exponent_value_spec, !land_1_odd, <- be_odd by done.
      transitivity (bz (first_byte n) <> 0 /\ bz (first_byte e) <> 0 /\ Z.odd (be n) = true /\
        jp_minimum_rsa_bits policy <= Z.log2 (be n) + 1 <= jp_maximum_rsa_bits policy /\
        3 <= be e /\ Z.odd (be e) = true).
      2:{ split; [intros; split; [done|]; exists n, e; tauto|].
          intros (_ & n' & e' & Hn' & He' & Hrest).
          rewrite (parameter_fun _ _ _ _ Hn Hn'), (parameter_fun _ _ _ _ He He'). tauto. }
      destruct (Z.eqb_spec (bz (first_byte n)) 0); simpl; [by split; [|intros (? & _)]|].
      destruct (Z.eqb_spec (bz (first_byte e)) 0); simpl; [by split; [|intros (_ & ? & _)]|].
      destruct (first_byte_bits n) as [_ Hb]; [done|]. apply Z.eqb_neq in Hb. rewrite Hb.
      destruct (Z.odd (be n)), (Z.odd (be e)); simpl.
      all: repeat match goal with |- context [?a <? ?b] => destruct (Z.ltb_spec a b); simpl end.
      all: split; [try done|by intros; destruct_and?; try lia].
      all: intros _; split_and!; (done || lia).
    + split; [done|]. intros (_ & n' & e & _ & He & _ & _ & _ & _ & Hel & _). 
      rewrite (proj2 (decode_parameter_plenty key (B "e") 8 e 1 ltac:(done))) in Ee; done.
  - split; [done|]. intros (_ & n & e & Hn & _ & Hf & _ & _ & [_ Hb] & _). 
    destruct (first_byte_bits n Hf) as [Hlen _].
    rewrite (proj2 (decode_parameter_plenty key (B "n") (jp_maximum_rsa_bits policy / 8 + 1)
      n 0 ltac:(by apply modulus_size))) in En; [done|]. split; [done|lia].
Qed.

Lemma valid_ec_key_spec key : valid_ec_key plenty (Some key) = true <-> ec_key key.
Proof.
  unfold valid_ec_key, ec_key, member_text. rewrite <- !jwk_string_equals_spec.
  do 2 (destruct (json_string_equals _ _); simpl; [|by intuition done]).
  assert (forall name d i, decode_parameter (plenty i) (json_object_get (Some key) name) 32 = Some d
    <-> parameter key name d /\ zlen d <= 32) as Hd by (intros; by apply decode_parameter_plenty).
  transitivity (exists x y, (parameter key (B "x") x /\ zlen x <= 32) /\
    (parameter key (B "y") y /\ zlen y <= 32) /\
    zlen x = 32 /\ zlen y = 32 /\ ec_point_ok x y = true).
  2:{ split; [intros (x & y & ?); split_and!; try done; exists x, y; tauto|].
      intros (_ & _ & x & y & ? & ? & ? & ? & ?). exists x, y. split_and!; (done || lia). }
  setoid_rewrite <- (Hd _ _ 0%nat) at 1. setoid_rewrite <- (Hd _ _ 1%nat).
  destruct (decode_parameter _ _ _) as [x|]; [|split; [done|]; by intros (? & ? & ? & _)].
  destruct (decode_parameter _ _ _) as [y|]; [|split; [done|]; by intros (? & ? & _ & ? & _)].
  destruct (Z.eqb_spec (zlen x) 32), (Z.eqb_spec (zlen y) 32); simpl; split; try done.
  all: intros; repeat match goal with
    | H : exists _, _ |- _ => destruct H as [? H] | H : _ /\ _ |- _ => destruct H as [? H] end.
  all: simplify_eq; eauto 10.
Qed.

Lemma valid_ed25519_key_spec key : valid_ed25519_key plenty (Some key) = true <-> ed25519_key key.
Proof.
  unfold valid_ed25519_key, ed25519_key, member_text. rewrite <- !jwk_string_equals_spec.
  do 2 (destruct (json_string_equals _ _); simpl; [|by intuition done]).
  destruct (decode_parameter _ _ _) as [x|] eqn:Ex.
  - apply decode_parameter_plenty in Ex as [Hx Hl]; [|done].
    destruct (Z.eqb_spec (zlen x) 32); simpl.
    + rewrite bool_decide_eq_true. split; [eauto 10|].
      intros (_ & _ & x' & Hx' & _ & ?). by rewrite (parameter_fun _ _ _ _ Hx Hx').
    + split; [done|]. intros (_ & _ & x' & Hx' & ? & _).
      by rewrite (parameter_fun _ _ _ _ Hx Hx') in *.
  - split; [done|]. intros (_ & _ & x & Hx & ? & _).
    rewrite (proj2 (decode_parameter_plenty key (B "x") 32 x 0 ltac:(done))) in Ex; [done|].
    split; [done|lia].
Qed.

(** ** The choice of the key *)

Lemma valid_key_id_spec v maximum :
  valid_key_id v maximum = true <-> exists k, is_text v k /\ key_id_ok maximum k.
Proof.
  unfold valid_key_id, key_id_ok, json_string_length.
  destruct (json_is_string v) eqn:Es; simpl.
  - apply json_is_string_text in Es. set (s := json_string_value v) in *.
    transitivity (s <> [] /\ zlen s <= maximum /\ Forall (fun c => iscntrl c = false) s).
    + rewrite <- existsb_cntrl, <- zlen_nil.
      destruct (Z.eqb_spec (zlen s) 0), (Z.ltb_spec maximum (zlen s)); simpl;
        try (split; [done|lia]). rewrite negb_true_iff. intuition lia.
    + split; [by eauto|]. intros (k & Ht & ?). by rewrite (is_text_fun _ _ _ Es Ht).
  - split; [done|]. intros (k & Ht & _). by rewrite (is_text_string _ _ Ht) in Es.
Qed.

(** One step of the loop. *)
Lemma candidate_step maximum key_id key keys candidate :
  let result := candidate_loop maximum key_id (key :: keys) candidate in
  (usable_kid maximum key /\ member_text key (B "kid") key_id /\
   result = match candidate with
            | Some _ => inl PG_OAUTH_JWKS_DUPLICATE_KEY_ID
            | None => candidate_loop maximum key_id keys (Some key)
            end) \/
  (usable_kid maximum key /\ ~ member_text key (B "kid") key_id /\
   result = candidate_loop maximum key_id keys candidate) \/
  (~ usable_kid maximum key /\ exists e, result = inl e /\ e <> PG_OAUTH_JWKS_OK).
Proof.
  cbn [candidate_loop]. unfold usable_kid, member_text.
  destruct (json_is_object (Some key)) eqn:Eo; simpl.
  2:{ right; right. split; [|eauto]. intros [Ht _]. revert Eo. unfold json_is_object. simpl.
      by rewrite Ht. }
  apply json_is_object_some in Eo as (? & [= <-] & Ho).
  destruct (json_object_get (Some key) (B "kid")) as [v|].
  2:{ right; left. split_and!; eauto. by intros (? & ? & _). }
  pose proof (valid_key_id_spec (Some v) maximum) as Hv.
  destruct (valid_key_id (Some v) maximum); simpl.
  2:{ right; right. split; [|eauto]. intros [_ [?|Hk]]; [done|]. by apply Hv in Hk. }
  destruct (proj1 Hv eq_refl) as (k & Ht & Hk). unfold json_string_length, bytes_eqb.
  rewrite (is_text_value _ _ Ht). destruct (decide (k = key_id)) as [<-|Hne].
  - left. rewrite Z.eqb_refl, bool_decide_eq_true_2 by done. simpl. eauto 8.
  - right; left. rewrite (bool_decide_eq_false_2 (k = key_id)), andb_false_r by done.
    split_and!; eauto. intros Ht'. by apply (is_text_fun _ _ _ Ht) in Ht'.
Qed.

Lemma candidate_loop_found maximum key_id keys c r :
  candidate_loop maximum key_id keys (Some c) = inr r <->
  r = Some c /\ Forall (usable_kid maximum) keys /\
  Forall (fun key => ~ member_text key (B "kid") key_id) keys.
Proof.
  induction keys as [|key keys IH].
  { simpl. split; [intros [= <-]; split_and!; constructor|by intros [-> _]]. }
  rewrite !Forall_cons.
  destruct (candidate_step maximum key_id key keys (Some c)) as
    [(? & ? & ->)|[(? & ? & ->)|(? & e & -> & _)]]; [by intuition done| |by intuition done].
  rewrite IH. tauto.
Qed.

Lemma candidate_loop_spec maximum key_id keys c :
  candidate_loop maximum key_id keys None = inr (Some c) <->
  Forall (usable_kid maximum) keys /\
  exists before after, keys = before ++ c :: after /\ member_text c (B "kid") key_id /\
    Forall (fun other => ~ member_text other (B "kid") key_id) (before ++ after).
Proof.
  induction keys as [|key keys IH].
  { simpl. split; [done|]. intros (_ & before & after & ? & _). by destruct before. }
  rewrite Forall_cons.
  destruct (candidate_step maximum key_id key keys None) as
    [(Hu & Hk & ->)|[(Hu & Hk & ->)|(? & e & -> & _)]]; [| |by intuition done].
  - rewrite candidate_loop_found. split.
    + intros ([= <-] & ? & ?). split; [done|]. by exists [], keys.
    + intros ((_ & ?) & before & after & Heq & _ & Hno). destruct before as [|k before]; simplify_eq/=.
      { done. }
      by apply Forall_cons in Hno as [? _].
  - rewrite IH. split.
    + intros (? & before & after & -> & ? & ?). split; [done|]. exists (key :: before), after.
      split_and!; try done. simpl. by constructor.
    + intros ((_ & ?) & before & after & Heq & ? & Hno). split; [done|].
      destruct before as [|k before]; simplify_eq/=; [done|].
      apply Forall_cons in Hno as [_ Hno].
      by exists before, after.
Qed.

Lemma candidate_loop_error maximum key_id keys c :
  candidate_loop maximum key_id keys c <> inl PG_OAUTH_JWKS_OK.
Proof.
  revert c. induction keys as [|key keys IH]; intros c; [done|].
  destruct (candidate_step maximum key_id key keys c) as
    [(_ & _ & ->)|[(_ & _ & ->)|(_ & e & -> & ?)]]; [by destruct c|done|congruence].
Qed.

Lemma jwks_candidate_spec policy document key_id jwks c :
  jwks_candidate policy document key_id = inr (jwks, c) <->
  exists before after, key_set policy document jwks (before ++ c :: after) /\
    Forall (usable_kid (jp_max_key_id_size policy)) (before ++ c :: after) /\
    member_text c (B "kid") key_id /\
    Forall (fun other => ~ member_text other (B "kid") key_id) (before ++ after).
Proof.
  transitivity (exists keys, key_set policy document jwks keys /\
    candidate_loop (jp_max_key_id_size policy) key_id keys None = inr (Some c)).
  2:{ setoid_rewrite candidate_loop_spec. split.
      - intros (? & ? & ? & before & after & -> & ? & ?). by exists before, after.
      - intros (before & after & ? & ? & ? & ?). exists (before ++ c :: after). eauto 10. }
  unfold jwks_candidate, key_set, memchr, json_array_size. split.
  - intros Hj. repeat (case_match; try done). simplify_eq. prop_bools.
    match goal with E : json_is_object _ = true |- _ =>
      apply json_is_object_some in E as (? & [= <-] & ?) end.
    match goal with E : json_is_array _ = true |- _ =>
      apply json_is_array_elements in E as (k & Ek & ?) end.
    eexists. split; [|done]. rewrite Z.ltb_ge, Z.eqb_neq, zlen_nil in *.
    split_and!; eauto; [by rewrite <- zlen_nil|by eapply loaded_unique].
  - intros (keys & (? & ? & ? & El & _ & Ho & (k & Ek & Hk) & ? & ?) & Hc).
    destruct (Z.eqb_spec (zlen document) 0) as [E|]; [by apply zlen_nil in E|].
    destruct (Z.ltb_spec (jp_max_jwks_size policy) (zlen document)); [lia|].
    rewrite bool_decide_eq_false_2, El by done. unfold json_is_object. simpl. rewrite Ho. simpl.
    rewrite Ek. unfold json_is_array, json_array_elements. simpl. rewrite Hk.
    destruct (Z.eqb_spec (zlen keys) 0) as [E|]; [by apply zlen_nil in E|]. simpl.
    destruct (Z.ltb_spec (jp_max_keys policy) (zlen keys)); [lia|]. by rewrite Hc.
Qed.

(** ** The checks on the key *)

Lemma key_allows_verification_spec key :
  key_allows_verification (Some key) = true <-> for_verification key.
Proof.
  unfold key_allows_verification, for_verification, json_array_size.
  set (use := json_object_get (Some key) (B "use")).
  set (ops := json_object_get (Some key) (B "key_ops")).
  assert (forall o, json_is_array (Some o) && (zlen (json_array_elements (Some o)) =? 1) &&
    json_string_equals (head (json_array_elements (Some o))) (B "verify") = true <->
    exists x, json_typeof o = JSON_ARRAY [x] /\ is_text (Some x) (B "verify")) as Hops.
  { intros o. rewrite !andb_true_iff, jwk_string_equals_spec. split.
    - intros [[Ha Hl] Ht]. apply json_is_array_elements in Ha as (j & [= <-] & Hj).
      destruct (json_array_elements (Some o)) as [|x [|y l]]; [done|eauto|].
      apply Z.eqb_eq in Hl. unfold zlen in Hl. simpl in Hl. lia.
    - intros (x & Hj & Ht). unfold json_is_array, json_array_elements. simpl. by rewrite Hj. }
  destruct use as [u|], ops as [o|]; simpl.
  all: try (destruct (json_string_equals (Some u) (B "sig")) eqn:Eu;
    [apply jwk_string_equals_spec in Eu|]; simpl).
  all: try (specialize (Hops o); destruct (json_is_array (Some o)),
    (zlen (json_array_elements (Some o)) =? 1),
    (json_string_equals (head (json_array_elements (Some o))) (B "verify")); simpl in *).
  all: split; try done.
  all: try (intros _; split_and!; eauto; right; destruct (proj1 Hops eq_refl) as (x & ? & ?); eauto).
  all: intros ([?|Hu] & [?|(j & x & [= <-] & ? & ?)] & ?); try done.
  all: try (apply jwk_string_equals_spec in Hu; congruence).
  all: try (exfalso; assert (false = true) by (apply Hops; eauto); done).
  all: match goal with Hs : is_Some _ \/ is_Some _ |- _ => by destruct Hs as [[? ?]|[? ?]] end.
Qed.

Lemma contains_private_spec key :
  contains_private_key_material (Some key) = false <->
  forall m, m ∈ private_members -> json_object_get (Some key) m = None.
Proof.
  unfold contains_private_key_material. induction private_members as [|m l IH]; simpl.
  { split; [|done]. by intros _ ? ?%not_elem_of_nil. }
  rewrite orb_false_iff, IH, bool_decide_eq_false, <- eq_None_not_Some. split.
  - intros [Hm Hl] m' [->|?]%elem_of_cons; auto.
  - intros Hall. split; [|intros ? ?]; apply Hall; [apply list_elem_of_here|by apply list_elem_of_further].
Qed.

Lemma key_algorithm_spec key algorithm :
  algorithm <> 0 ->
  key_algorithm (Some key) = algorithm <->
  (algorithm = PG_OAUTH_ALGORITHM_RS256 /\ member_text key (B "alg") (B "RS256")) \/
  (algorithm = PG_OAUTH_ALGORITHM_ES256 /\ member_text key (B "alg") (B "ES256")) \/
  (algorithm = PG_OAUTH_ALGORITHM_EDDSA /\ member_text key (B "alg") (B "EdDSA")).
Proof.
  intros Hne. unfold key_algorithm, member_text. set (v := json_object_get _ _).
  assert (forall a b, is_text v a -> is_text v b -> a = b) as Hfun by (intros; by eapply is_text_fun).
  destruct (json_string_equals v (B "RS256")) eqn:E1; [|destruct (json_string_equals v (B "ES256"))
    eqn:E2; [|destruct (json_string_equals v (B "EdDSA")) eqn:E3]].
  all: repeat match goal with
    | E : json_string_equals _ _ = true |- _ => apply jwk_string_equals_spec in E
    | E : json_string_equals _ _ = false |- _ =>
        rewrite <- not_true_iff_false, jwk_string_equals_spec in E end.
  all: split; [intros <-; tauto|].
  all: intros [[-> Ht]|[[-> Ht]|[-> Ht]]]; try done.
  all: by specialize (Hfun _ _ E1 Ht) || by specialize (Hfun _ _ E2 Ht).
Qed.

Lemma key_checks_spec policy algorithm key :
  0 <= jp_minimum_rsa_bits policy -> 0 <= jp_maximum_rsa_bits policy <= 16384 ->
  algorithm <> 0 ->
  key_checks plenty policy algorithm (Some key) = PG_OAUTH_JWKS_OK <->
  key_for policy algorithm key /\ Z.land algorithm (jp_allowed_algorithms policy) <> 0 /\
  for_verification key /\
  (forall m, m ∈ private_members -> json_object_get (Some key) m = None).
Proof.
  intros Hmin Hmax Hne. rewrite <- key_allows_verification_spec, <- contains_private_spec.
  unfold key_for. rewrite <- valid_rsa_key_spec, <- valid_ec_key_spec, <- valid_ed25519_key_spec by done.
  pose proof (key_algorithm_spec key algorithm Hne) as Ha. unfold key_checks.
  destruct (Z.eqb_spec (key_algorithm (Some key)) algorithm) as [E|E]; simpl.
  2:{ rewrite orb_true_r. simpl. split; [done|]. intros (Hk & _). destruct E. apply Ha. tauto. }
  rewrite E. apply Ha in E. clear Ha.
  destruct (Z.eqb_spec algorithm 0); [done|]. simpl.
  destruct (Z.eqb_spec (Z.land algorithm (jp_allowed_algorithms policy)) 0); [by split; [|intros (_ & ? & _)]|].
  destruct (key_allows_verification (Some key)); simpl; [|by intuition done].
  destruct (contains_private_key_material (Some key)); [by intuition done|].
  destruct E as [[-> ?]|[[-> ?]|[-> ?]]]; simpl.
  - destruct (valid_rsa_key _ _ _); simpl; intuition done.
  - destruct (valid_ec_key _ _); simpl; intuition done.
  - destruct (valid_ed25519_key _ _); simpl; intuition done.
Qed.

(** More memory never turns an accepted key into a rejected one. *)
Lemma decode_parameter_mono m m' v maximum d :
  (forall n, m n = true -> m' n = true) ->
  decode_parameter m v maximum = Some d -> decode_parameter m' v maximum = Some d.
Proof.
  intros Hm. unfold decode_parameter. repeat case_match; try done. prop_bools.
  match goal with E : m _ = true |- _ => apply Hm in E; congruence end.
Qed.

Lemma key_checks_mono m m' policy algorithm key :
  (forall i n, m i n = true -> m' i n = true) ->
  key_checks m policy algorithm key = PG_OAUTH_JWKS_OK ->
  key_checks m' policy algorithm key = PG_OAUTH_JWKS_OK.
Proof.
  intros Hm. unfold key_checks.
  assert (forall i v maximum d, decode_parameter (m i) v maximum = Some d ->
    decode_parameter (m' i) v maximum = Some d) as Hd.
  { intros i v maximum d. apply decode_parameter_mono, Hm. }
  assert (valid_rsa_key m key policy = true -> valid_rsa_key m' key policy = true).
  { unfold valid_rsa_key. case_match; [done|].
    destruct (decode_parameter (m 0%nat) _ _) as [n|] eqn:E1; [|done].
    destruct (decode_parameter (m 1%nat) _ _) as [e|] eqn:E2; [|done].
    by rewrite (Hd _ _ _ _ E1), (Hd _ _ _ _ E2). }
  assert (valid_ec_key m key = true -> valid_ec_key m' key = true).
  { unfold valid_ec_key. case_match; [done|].
    destruct (decode_parameter (m 0%nat) _ _) as [n|] eqn:E1; [|done].
    destruct (decode_parameter (m 1%nat) _ _) as [e|] eqn:E2; [|done].
    by rewrite (Hd _ _ _ _ E1), (Hd _ _ _ _ E2). }
  assert (valid_ed25519_key m key = true -> valid_ed25519_key m' key = true).
  { unfold valid_ed25519_key. case_match; [done|].
    destruct (decode_parameter (m 0%nat) _ _) as [n|] eqn:E1; [|done].
    by rewrite (Hd _ _ _ _ E1). }
  assert (forall a x x', (x = true -> x' = true) -> a && negb x = false -> a && negb x' = false)
    as Hmono by (intros [] [] [] Hx; simpl; auto; intros; by rewrite Hx).
  destruct (_ || (Z.land _ _ =? 0)); [done|].
  destruct (negb (key_allows_verification key)); [done|].
  destruct (contains_private_key_material key); [done|].
  destruct (_ || _) eqn:Eb; [done|]. intros _. apply orb_false_iff in Eb as [Eb ?].
  apply orb_false_iff in Eb as [? ?]. 
  by rewrite (Hmono _ (valid_rsa_key m key policy)), (Hmono _ (valid_ec_key m key)),
    (Hmono _ (valid_ed25519_key m key)) by assumption.
Qed.
End JwksSpec.

(** ** P-256

    What OpenSSL documents of the calls on the two coordinates. *)

Definition p256_p : Z := 2 ^ 256 - 2 ^ 224 + 2 ^ 192 + 2 ^ 96 - 1.
Definition p256_b : Z := 41058363725152142129326129780047268409114441015993725554835256314039467401291.

Definition on_p256 (x y : Z) : bool :=
  (y * y - (x * x * x - 3 * x + p256_b)) mod p256_p =? 0.

Class OpenSslP256 `{O : OpenSsl} := {
  bn_value : BIGNUM -> Z;
  point_coordinates : EC_POINT -> option (Z * Z);
  bin2bn_value s n : BN_bin2bn s = Some n -> bn_value n = be s;
  set_affine_value group point x y point' :
    EC_POINT_set_affine_coordinates group point x y = (1, point') ->
    point_coordinates point' = Some (bn_value x, bn_value y);
  on_curve_value group point x y :
    EC_GROUP_new_by_curve_name NID_X9_62_prime256v1 = Some group ->
    EC_POINT_is_on_curve group point = 1 -> point_coordinates point = Some (x, y) ->
    on_p256 x y = true
}.
Arguments OpenSslP256 : clear implicits.

Lemma ec_point_on_curve `{OpenSslP256} x y :
  ec_point_ok x y = true -> on_p256 (be x) (be y) = true.
Proof.
  unfold ec_point_ok. intros Hok. repeat (case_match; try done). prop_bools.
  repeat match goal with
  | E : (_ =? 1) = true |- _ => apply Z.eqb_eq in E; subst
  | E : BN_bin2bn _ = Some _ |- _ => apply bin2bn_value in E as <-
  end.
  eapply on_curve_value; [done..|]. by eapply set_affine_value.
Qed.

(** A reference implementation of these calls. *)
Definition reference_openssl : OpenSsl := {|
  EC_GROUP := unit;
  EC_POINT := option (Z * Z);
  BIGNUM := Z;
  EVP_PKEY := bytes;
  EC_GROUP_new_by_curve_name nid := if nid =? NID_X9_62_prime256v1 then Some () else None;
  EC_POINT_new _ := Some None;
  BN_bin2bn s := Some (be s);
  EC_POINT_set_affine_coordinates _ point x y :=
    if on_p256 x y then (1, Some (x, y)) else (0, point);
  EC_POINT_is_at_infinity _ point := if bool_decide (point = None) then 1 else 0;
  EC_POINT_is_on_curve _ point :=
    match point with Some (x, y) => if on_p256 x y then 1 else 0 | None => 1 end;
  EVP_PKEY_new_raw_public_key _ raw := if zlen raw =? 32 then Some raw else None
|}.

#[global] Instance reference_openssl_p256 : OpenSslP256 reference_openssl.
Proof.
  refine {| bn_value := fun n : @BIGNUM reference_openssl => n;
            point_coordinates := fun p : @EC_POINT reference_openssl => p |}.
  - intros s n [= <-]. done.
  - intros group point x y point' Hs. simpl in *. destruct (on_p256 x y); by simplify_eq.
  - intros group point x y _ Hc ->. simpl in Hc. by destruct (on_p256 x y).
Qed.

Module JwksExample.
Definition document : bytes := B "{keys}".

Definition key_rsa_less : Json :=
  JObject [(B "kid", JString (B "old")); (B "alg", JString (B "EdDSA"))].
Definition key_ec : Json :=
  JObject [(B "kty", JString (B "EC")); (B "crv", JString (B "P-256"));
           (B "kid", JString (B "k1")); (B "alg", JString (B "ES256"));
           (B "use", JString (B "sig"));
           (B "x", JString (B "axfR8uEsQkf4vOblY6RA8ncDfYEt6zOg9KE5RdiYwpY"));
           (B "y", JString (B "T-NC4v4af5uO5-tKfA-eFivOM1drMV7Oy7ZAaDe_UfU"))].
Definition key_set_value : Json := JObject [(B "keys", JArray [key_rsa_less; key_ec])].

#[export] Instance lib : Jansson := reference_jansson [(document, key_set_value)].
#[export] Instance ssl : OpenSsl := reference_openssl.

Definition policy : PgOAuthJwksPolicy :=
  {| jp_max_jwks_size := 65536; jp_max_keys := 16; jp_max_key_id_size := 1024;
     jp_allowed_algorithms := 7; jp_minimum_rsa_bits := 2048; jp_maximum_rsa_bits := 8192 |}.

Definition jwks : json_t := key_set_value.
Definition jwk : json_t := key_ec.

Definition select : PgOAuthJwksError * option PgOAuthSelectedJwk :=
  pg_oauth_jwks_select plenty (Some document) (Some (B "k1")) 2 (Some policy)
    (Some selected_zero).
End JwksExample.

(** ** Properties *)

Section JwksProperties.
Context `{Jansson} `{OpenSsl}.
Implicit Types policy : PgOAuthJwksPolicy.

Lemma arguments_valid policy key_id algorithm :
  jwks_arguments_invalid policy key_id algorithm = false ->
  0 <= jp_minimum_rsa_bits policy /\ 0 <= jp_maximum_rsa_bits policy <= 16384 /\
  algorithm <> 0 /\ key_id_ok (jp_max_key_id_size policy) (c_str key_id).
Proof.
  unfold jwks_arguments_invalid, key_id_ok, strlen. intros Hv. prop_bools.
  rewrite <- existsb_cntrl, <- zlen_nil. split_and!; (done || lia).
Qed.

Lemma jwks_candidate_error policy document key_id :
  jwks_candidate policy document key_id <> inl PG_OAUTH_JWKS_OK.
Proof.
  unfold jwks_candidate. repeat (case_match; try done). intros [= ->].
  by eapply candidate_loop_error.
Qed.

Lemma select_ok malloc document key_id algorithm policy old selected :
  pg_oauth_jwks_select malloc (Some document) (Some key_id) algorithm (Some policy) (Some old) =
    (PG_OAUTH_JWKS_OK, selected) ->
  jwks_arguments_invalid policy key_id algorithm = false /\
  exists jwks jwk,
    selected = Some {| sel_jwks := Some jwks; sel_jwk := Some jwk;
                       sel_algorithm := algorithm |} /\
    key_selectable policy document (c_str key_id) algorithm jwks jwk.
Proof.
  unfold pg_oauth_jwks_select. destruct (jwks_arguments_invalid _ _ _) eqn:Ea; [done|].
  destruct (jwks_candidate _ _ _) as [e|[jwks jwk]] eqn:Ec.
  { intros [= -> _]. by apply jwks_candidate_error in Ec. }
  destruct (bool_decide_reflect (key_checks malloc policy algorithm (Some jwk) =
    PG_OAUTH_JWKS_OK)) as [Ek|Ek]; simpl; [|by intros [= ? _]].
  intros [= <-]. split; [done|]. exists jwks, jwk.
  destruct (arguments_valid _ _ _ Ea) as (? & ? & ? & _).
  apply (key_checks_mono _ plenty) in Ek; [|done].
  apply key_checks_spec in Ek as (Hk & ? & ? & ?); [|done..]. split.
  - repeat f_equal. apply key_algorithm_spec; [done|]. unfold key_for in Hk. tauto.
  - apply jwks_candidate_spec in Ec. by split.
Qed.

(** C4: a key is selected only if the arguments are valid, the document is a
    bounded JSON text in which no object repeats a member name and whose keys are
    all usable objects, and the key is the only one with the token's key id
    (other key ids may repeat), declares exactly the token's algorithm (allowed by
    the administrator), is marked for verification, has no private member and has
    well-formed material of that algorithm: an odd RSA modulus whose bit length is
    within the policy with an odd exponent of at least 3, a P-256 point, or an
    Ed25519 point.  After any failure nothing is selected. *)
Theorem jwks_select_sound malloc document key_id algorithm policy old :
  let '(error, selected) := pg_oauth_jwks_select malloc (Some document) (Some key_id)
    algorithm (Some policy) (Some old) in
  (error = PG_OAUTH_JWKS_OK ->
     jwks_arguments_invalid policy key_id algorithm = false /\
     exists jwks jwk,
       selected = Some {| sel_jwks := Some jwks; sel_jwk := Some jwk;
                          sel_algorithm := algorithm |} /\
       key_selectable policy document (c_str key_id) algorithm jwks jwk) /\
  (error <> PG_OAUTH_JWKS_OK -> selected = Some selected_zero).
Proof.
  destruct (pg_oauth_jwks_select _ _ _ _ _ _) as [error selected] eqn:E. split.
  - intros ->. by apply select_ok in E.
  - revert E. unfold pg_oauth_jwks_select. intros. guards; done.
Qed.

(** C27: every key with these properties is selected, when memory suffices. *)
Theorem jwks_select_complete malloc document key_id algorithm policy old jwks jwk :
  (forall i n, malloc i n = true) ->
  jwks_arguments_invalid policy key_id algorithm = false ->
  key_selectable policy document (c_str key_id) algorithm jwks jwk ->
  pg_oauth_jwks_select malloc (Some document) (Some key_id) algorithm (Some policy) (Some old) =
  (PG_OAUTH_JWKS_OK, Some {| sel_jwks := Some jwks; sel_jwk := Some jwk;
                             sel_algorithm := algorithm |}).
Proof.
  intros Hm Ha [Hkeys Hfor ? ? ?]. destruct (arguments_valid _ _ _ Ha) as (? & ? & ? & _).
  unfold pg_oauth_jwks_select. rewrite Ha.
  apply jwks_candidate_spec in Hkeys. rewrite Hkeys.
  assert (key_checks malloc policy algorithm (Some jwk) = PG_OAUTH_JWKS_OK) as ->.
  { apply (key_checks_mono plenty); [auto|]. by apply key_checks_spec. }
  rewrite bool_decide_eq_true_2 by done. simpl. repeat f_equal.
  apply key_algorithm_spec; [done|]. unfold key_for in Hfor. tauto.
Qed.

(** The bit length the RSA limits are checked against is the real one: for
    every buffer the code can be given, the number of significant bits of the
    big-endian number in it. *)
Theorem unsigned_bit_length_correct value :
  zlen value <= UINT_MAX / 8 ->
  unsigned_bit_length value = (if be value =? 0 then 0 else Z.log2 (be value) + 1) /\
  (forall n, 0 < n -> unsigned_bit_length value <= n <-> be value < 2 ^ n).
Proof.
  intros Hlen. rewrite unsigned_bit_length_spec by done. split; [done|]. intros n Hn.
  pose proof (be_range value). destruct (Z.eqb_spec (be value) 0) as [E|E].
  - rewrite E. pose proof (Z.pow_pos_nonneg 2 n). lia.
  - rewrite (Z.log2_lt_pow2 (be value) n) by lia. lia.
Qed.
End JwksProperties.

(** C32: a selected ES256 key is a point of P-256: with OpenSSL's documented
    behaviour, the coordinates in the document satisfy the curve equation, so an
    invalid-curve key is never used. *)
Theorem jwks_ec_on_curve `{Jansson} `{OpenSslP256} malloc document key_id policy old selected :
  pg_oauth_jwks_select malloc (Some document) (Some key_id) PG_OAUTH_ALGORITHM_ES256
    (Some policy) (Some old) = (PG_OAUTH_JWKS_OK, selected) ->
  exists jwks jwk x y,
    selected = Some {| sel_jwks := Some jwks; sel_jwk := Some jwk;
                       sel_algorithm := PG_OAUTH_ALGORITHM_ES256 |} /\
    parameter jwk (B "x") x /\ parameter jwk (B "y") y /\ zlen x = 32 /\ zlen y = 32 /\
    on_p256 (be x) (be y) = true.
Proof.
  intros (_ & jwks & jwk & -> & [_ Hfor _ _ _])%select_ok.
  destruct Hfor as [[? _]|[(_ & _ & _ & _ & x & y & ? & ? & ? & ? & ?)|[? _]]]; [done| |done].
  exists jwks, jwk, x, y. split_and!; try done. by apply ec_point_on_curve.
Qed.

(** The example document gives its EC key. *)
Lemma example_selected : fst JwksExample.select = PG_OAUTH_JWKS_OK.
Proof. vm_compute. reflexivity. Qed.

Lemma example_select : exists selected, JwksExample.select = (PG_OAUTH_JWKS_OK, selected).
Proof.
  exists (snd JwksExample.select). rewrite <- example_selected. apply surjective_pairing.
Qed.

Lemma jwks_select_complete_witness :
  exists jwks jwk, JwksExample.select =
    (PG_OAUTH_JWKS_OK, Some {| sel_jwks := Some jwks; sel_jwk := Some jwk;
                               sel_algorithm := 2 |}).
Proof.
  destruct example_select as [selected E].
  apply select_ok in E as (Ha & jwks & jwk & -> & Hs). exists jwks, jwk.
  exact (jwks_select_complete plenty JwksExample.document (B "k1") 2 JwksExample.policy
    selected_zero jwks jwk (fun _ _ => eq_refl) Ha Hs).
Defined.

Lemma unsigned_bit_length_correct_witness :
  unsigned_bit_length [x00; x05; x01] <= 11 <-> be [x00; x05; x01] < 2 ^ 11.
Proof.
  apply (unsigned_bit_length_correct [x00; x05; x01]); [vm_compute; discriminate|lia].
Defined.

Lemma jwks_ec_on_curve_witness :
  exists x y, zlen x = 32 /\ zlen y = 32 /\ on_p256 (be x) (be y) = true.
Proof.
  destruct example_select as [selected E].
  destruct (jwks_ec_on_curve (H0 := reference_openssl_p256) plenty JwksExample.document (B "k1")
    JwksExample.policy selected_zero selected E) as (jwks & jwk & x & y & _ & _ & _ & ? & ? & ?).
  exists x, y. auto.
Defined.
