(* ===== verification/CacheState.v ===== *)
(** * The cache state machine (src/cache_state.c, src/cache_state.h)

    A fixed array of entries, looked up by key, with single-flight refreshes:
    [begin_refresh] hands out a handle (slot and serial), [complete_refresh]
    accepts only the handle of the refresh in progress.  [cache_inv] is the
    invariant, [contents] the abstraction to a finite map from keys to slots,
    and the refinement theorems say what each operation does to that map. *)

From S2P Require Import Prelude.

(** ** Data *)

Definition PG_OAUTH_CACHE_MAX_KEY_SIZE : Z := 4096.
Definition PG_OAUTH_CACHE_MAX_PAYLOAD_SIZE : Z := 65536.

Inductive PgOAuthCacheLookup :=
| PG_OAUTH_CACHE_MISS
| PG_OAUTH_CACHE_FRESH
| PG_OAUTH_CACHE_STALE.

Inductive PgOAuthCacheRefreshResult :=
| PG_OAUTH_CACHE_REFRESH_STARTED
| PG_OAUTH_CACHE_REFRESH_IN_PROGRESS
| PG_OAUTH_CACHE_REFRESH_SUPPRESSED
| PG_OAUTH_CACHE_REFRESH_CAPACITY
| PG_OAUTH_CACHE_REFRESH_INVALID_ARGUMENT.

Inductive PgOAuthCacheCopyResult :=
| PG_OAUTH_CACHE_COPY_OK
| PG_OAUTH_CACHE_COPY_NOT_FOUND
| PG_OAUTH_CACHE_COPY_TOO_SMALL
| PG_OAUTH_CACHE_COPY_INVALID_ARGUMENT.

#[global] Instance cache_lookup_eq_dec : EqDecision PgOAuthCacheLookup.
Proof. solve_decision. Defined.
#[global] Instance cache_refresh_result_eq_dec : EqDecision PgOAuthCacheRefreshResult.
Proof. solve_decision. Defined.
#[global] Instance cache_copy_result_eq_dec : EqDecision PgOAuthCacheCopyResult.
Proof. solve_decision. Defined.

(** The arrays [key] and [payload] are given by their used parts, of lengths
    [key_length] and [payload_length]: no operation reads beyond them. *)
Record PgOAuthCacheEntry := {
  ce_key : bytes;
  ce_payload : bytes;
  ce_refresh_serial : Z;
  ce_fresh_until_ms : Z;
  ce_stale_until_ms : Z;
  ce_last_used_ms : Z;
  ce_last_unknown_kid_refresh_ms : Z;
  ce_occupied : bool;
  ce_has_value : bool;
  ce_refreshing : bool;
  ce_has_unknown_kid_refresh : bool
}.

Definition ce_key_length (e : PgOAuthCacheEntry) : Z := zlen (ce_key e).
Definition ce_payload_length (e : PgOAuthCacheEntry) : Z := zlen (ce_payload e).

Record PgOAuthCacheStats := {
  st_fresh_hits : Z;
  st_stale_hits : Z;
  st_misses : Z;
  st_refreshes : Z;
  st_refresh_suppressions : Z;
  st_evictions : Z;
  st_failures : Z
}.

Record PgOAuthCacheControl := {
  cc_next_refresh_serial : Z;
  cc_stats : PgOAuthCacheStats
}.

(** [capacity] is the number of entries. *)
Record PgOAuthCache := {
  ca_entries : list PgOAuthCacheEntry;
  ca_control : PgOAuthCacheControl
}.

(** [entry_index] is [None] for SIZE_MAX. *)
Record PgOAuthCacheRefresh := {
  rf_entry_index : option nat;
  rf_serial : Z
}.

(** ** Definitions *)

Definition entry_zero : PgOAuthCacheEntry :=
  {| ce_key := []; ce_payload := []; ce_refresh_serial := 0; ce_fresh_until_ms := 0;
     ce_stale_until_ms := 0; ce_last_used_ms := 0; ce_last_unknown_kid_refresh_ms := 0;
     ce_occupied := false; ce_has_value := false; ce_refreshing := false;
     ce_has_unknown_kid_refresh := false |}.

Definition stats_zero : PgOAuthCacheStats :=
  {| st_fresh_hits := 0; st_stale_hits := 0; st_misses := 0; st_refreshes := 0;
     st_refresh_suppressions := 0; st_evictions := 0; st_failures := 0 |}.

Definition refresh_none : PgOAuthCacheRefresh := {| rf_entry_index := None; rf_serial := 0 |}.

Definition valid_key (key : option bytes) : bool :=
  match key with
  | None => false
  | Some key => (0 <? zlen key) && (zlen key <=? PG_OAUTH_CACHE_MAX_KEY_SIZE)
  end.

Definition same_key (entry : PgOAuthCacheEntry) (key : bytes) : bool :=
  ce_occupied entry && (ce_key_length entry =? zlen key) && bytes_eqb (ce_key entry) key.

Definition bounded_add (value duration : Z) : Z :=
  if i64 (INT64_MAX - value) <? duration then INT64_MAX else i64 (value + duration).

Definition increment (counter : Z) : Z :=
  if negb (counter =? UINT64_MAX) then u64 (counter + 1) else counter.

(** The counters, each incremented in place. *)
Inductive counter :=
| fresh_hits | stale_hits | misses | refreshes | refresh_suppressions | evictions | failures.

#[global] Instance counter_eq_dec : EqDecision counter.
Proof. solve_decision. Defined.

Definition count (k : counter) (s : PgOAuthCacheStats) : PgOAuthCacheStats :=
  let on k' z := if bool_decide (k = k') then increment z else z in
  {| st_fresh_hits := on fresh_hits (st_fresh_hits s);
     st_stale_hits := on stale_hits (st_stale_hits s);
     st_misses := on misses (st_misses s);
     st_refreshes := on refreshes (st_refreshes s);
     st_refresh_suppressions := on refresh_suppressions (st_refresh_suppressions s);
     st_evictions := on evictions (st_evictions s);
     st_failures := on failures (st_failures s) |}.

Definition count_in (k : counter) (c : PgOAuthCache) : PgOAuthCache :=
  {| ca_entries := ca_entries c;
     ca_control := {| cc_next_refresh_serial := cc_next_refresh_serial (ca_control c);
                      cc_stats := count k (cc_stats (ca_control c)) |} |}.

Definition set_entry (i : nat) (e : PgOAuthCacheEntry) (c : PgOAuthCache) : PgOAuthCache :=
  {| ca_entries := <[i := e]> (ca_entries c); ca_control := ca_control c |}.

(** [entries] is the caller's array of [capacity] entries. *)
Definition pg_oauth_cache_init (entries : option (list PgOAuthCacheEntry))
  : option PgOAuthCache :=
  match entries with
  | None => None
  | Some entries =>
      if zlen entries =? 0 then None
      else Some {| ca_entries := replicate (length entries) entry_zero;
                   ca_control := {| cc_next_refresh_serial := 1; cc_stats := stats_zero |} |}
  end.

Definition pg_oauth_cache_attach (entries : option (list PgOAuthCacheEntry))
  (control : option PgOAuthCacheControl) : option PgOAuthCache :=
  match entries, control with
  | Some entries, Some control =>
      if (zlen entries =? 0) || (cc_next_refresh_serial control =? 0) then None
      else Some {| ca_entries := entries; ca_control := control |}
  | _, _ => None
  end.

Definition touch (now_ms : Z) (e : PgOAuthCacheEntry) : PgOAuthCacheEntry :=
  {| ce_key := ce_key e; ce_payload := ce_payload e; ce_refresh_serial := ce_refresh_serial e;
     ce_fresh_until_ms := ce_fresh_until_ms e; ce_stale_until_ms := ce_stale_until_ms e;
     ce_last_used_ms := now_ms;
     ce_last_unknown_kid_refresh_ms := ce_last_unknown_kid_refresh_ms e;
     ce_occupied := ce_occupied e; ce_has_value := ce_has_value e;
     ce_refreshing := ce_refreshing e;
     ce_has_unknown_kid_refresh := ce_has_unknown_kid_refresh e |}.

(** The loop of the lookup: the entry it stops at, if it is a hit. *)
Fixpoint lookup_loop (key : bytes) (now_ms : Z) (allow_stale : bool) (i : nat)
  (entries : list PgOAuthCacheEntry) : option (nat * PgOAuthCacheEntry * PgOAuthCacheLookup) :=
  match entries with
  | [] => None
  | entry :: entries =>
      if negb (same_key entry key) || negb (ce_has_value entry)
      then lookup_loop key now_ms allow_stale (S i) entries
      else if now_ms <? ce_fresh_until_ms entry then Some (i, entry, PG_OAUTH_CACHE_FRESH)
      else if allow_stale && (now_ms <? ce_stale_until_ms entry)
      then Some (i, entry, PG_OAUTH_CACHE_STALE)
      else None
  end.

(** [cache] is [None] for a NULL cache and for one without entries. *)
Definition pg_oauth_cache_lookup (cache : option PgOAuthCache) (key : option bytes)
  (now_ms : Z) (allow_stale : bool)
  : PgOAuthCacheLookup * option nat * option PgOAuthCache :=
  match cache, key with
  | Some c, Some k =>
      if negb (valid_key key) || (now_ms <? 0) then (PG_OAUTH_CACHE_MISS, None, cache)
      else match lookup_loop k now_ms allow_stale 0 (ca_entries c) with
      | Some (i, entry, freshness) =>
          let hits := match freshness with
                      | PG_OAUTH_CACHE_FRESH => fresh_hits
                      | _ => stale_hits
                      end in
          (freshness, Some i, Some (count_in hits (set_entry i (touch now_ms entry) c)))
      | None => (PG_OAUTH_CACHE_MISS, None, Some (count_in misses c))
      end
  | _, _ => (PG_OAUTH_CACHE_MISS, None, cache)
  end.

(** [empty] and [victim] are [None] for SIZE_MAX; the victim comes with
    [victim_last_used].  The result is the slot and [existing]. *)
Fixpoint find_slot_loop (key : bytes) (now_ms : Z) (i : nat)
  (entries : list PgOAuthCacheEntry) (empty : option nat) (victim : option (nat * Z))
  : option nat * bool :=
  match entries with
  | [] => (match empty with Some _ => empty | None => fst <$> victim end, false)
  | entry :: entries =>
      if same_key entry key then (Some i, true)
      else if negb (ce_occupied entry) && bool_decide (empty = None)
      then find_slot_loop key now_ms (S i) entries (Some i) victim
      else if ce_occupied entry && negb (ce_refreshing entry) &&
              (ce_stale_until_ms entry <=? now_ms) &&
              match victim with
              | None => true
              | Some (_, victim_last_used) => ce_last_used_ms entry <? victim_last_used
              end
      then find_slot_loop key now_ms (S i) entries empty (Some (i, ce_last_used_ms entry))
      else find_slot_loop key now_ms (S i) entries empty victim
  end.

Definition find_refresh_slot (c : PgOAuthCache) (key : bytes) (now_ms : Z)
  : option nat * bool :=
  find_slot_loop key now_ms 0 (ca_entries c) None None.

Definition entry_new (key : bytes) (now_ms : Z) : PgOAuthCacheEntry :=
  {| ce_key := key; ce_payload := []; ce_refresh_serial := 0; ce_fresh_until_ms := 0;
     ce_stale_until_ms := 0; ce_last_used_ms := now_ms; ce_last_unknown_kid_refresh_ms := 0;
     ce_occupied := true; ce_has_value := false; ce_refreshing := false;
     ce_has_unknown_kid_refresh := false |}.

(** [entry->refreshing = true] with the serial, and the unknown-kid marks. *)
Definition mark_refreshing (now_ms : Z) (unknown_kid : bool) (serial : Z)
  (e : PgOAuthCacheEntry) : PgOAuthCacheEntry :=
  {| ce_key := ce_key e; ce_payload := ce_payload e; ce_refresh_serial := serial;
     ce_fresh_until_ms := ce_fresh_until_ms e; ce_stale_until_ms := ce_stale_until_ms e;
     ce_last_used_ms := ce_last_used_ms e;
     ce_last_unknown_kid_refresh_ms :=
       if unknown_kid then now_ms else ce_last_unknown_kid_refresh_ms e;
     ce_occupied := ce_occupied e; ce_has_value := ce_has_value e; ce_refreshing := true;
     ce_has_unknown_kid_refresh :=
       if unknown_kid then true else ce_has_unknown_kid_refresh e |}.

Definition next_serial (serial : Z) : Z :=
  let next := u64 (serial + 1) in if next =? 0 then 1 else next.

(** The slot is claimed: entry [i] holds [e], and the serial moves on. *)
Definition start_refresh (i : nat) (e : PgOAuthCacheEntry) (now_ms : Z) (unknown_kid : bool)
  (c : PgOAuthCache) : PgOAuthCacheRefresh * PgOAuthCache :=
  let serial := cc_next_refresh_serial (ca_control c) in
  ({| rf_entry_index := Some i; rf_serial := serial |},
   count_in refreshes
     {| ca_entries := <[i := mark_refreshing now_ms unknown_kid serial e]> (ca_entries c);
        ca_control := {| cc_next_refresh_serial := next_serial serial;
                         cc_stats := cc_stats (ca_control c) |} |}).

(** [refresh] is non-NULL in every call of the program. *)
Definition pg_oauth_cache_begin_refresh (cache : option PgOAuthCache) (key : option bytes)
  (now_ms : Z) (unknown_kid : bool) (unknown_kid_cooldown_ms : Z)
  : PgOAuthCacheRefreshResult * PgOAuthCacheRefresh * option PgOAuthCache :=
  match cache, key with
  | Some c, Some k =>
      if negb (valid_key key) || (now_ms <? 0) || (unknown_kid_cooldown_ms <? 0)
      then (PG_OAUTH_CACHE_REFRESH_INVALID_ARGUMENT, refresh_none, cache)
      else match find_refresh_slot c k now_ms with
      | (None, _) =>
          (PG_OAUTH_CACHE_REFRESH_CAPACITY, refresh_none, Some (count_in failures c))
      | (Some index, existing) =>
          let entry := default entry_zero (ca_entries c !! index) in
          if existing && ce_refreshing entry
          then (PG_OAUTH_CACHE_REFRESH_IN_PROGRESS, refresh_none,
                Some (count_in refresh_suppressions c))
          else if existing && unknown_kid && ce_has_unknown_kid_refresh entry &&
                  (i64 (now_ms - ce_last_unknown_kid_refresh_ms entry)
                     <? unknown_kid_cooldown_ms)
          then (PG_OAUTH_CACHE_REFRESH_SUPPRESSED, refresh_none,
                Some (count_in refresh_suppressions c))
          else
            let c := if negb existing && ce_occupied entry then count_in evictions c else c in
            let entry := if negb existing then entry_new k now_ms else entry in
            let '(refresh, c) := start_refresh index entry now_ms unknown_kid c in
            (PG_OAUTH_CACHE_REFRESH_STARTED, refresh, Some c)
      end
  | _, _ => (PG_OAUTH_CACHE_REFRESH_INVALID_ARGUMENT, refresh_none, cache)
  end.

Definition pg_oauth_cache_is_refreshing (cache : option PgOAuthCache) (key : option bytes)
  : bool :=
  match cache, key with
  | Some c, Some k =>
      if negb (valid_key key) then false
      else match head (List.filter (fun entry => same_key entry k) (ca_entries c)) with
           | Some entry => ce_refreshing entry
           | None => false
           end
  | _, _ => false
  end.

(** [entry->refreshing = false], clearing an entry that never had a value. *)
Definition release (e : PgOAuthCacheEntry) : PgOAuthCacheEntry :=
  if negb (ce_has_value e) then entry_zero
  else
  {| ce_key := ce_key e; ce_payload := ce_payload e; ce_refresh_serial := ce_refresh_serial e;
     ce_fresh_until_ms := ce_fresh_until_ms e; ce_stale_until_ms := ce_stale_until_ms e;
     ce_last_used_ms := ce_last_used_ms e;
     ce_last_unknown_kid_refresh_ms := ce_last_unknown_kid_refresh_ms e;
     ce_occupied := ce_occupied e; ce_has_value := ce_has_value e; ce_refreshing := false;
     ce_has_unknown_kid_refresh := ce_has_unknown_kid_refresh e |}.

Definition publish (now_ms : Z) (revalidation_required : bool) (ttl_ms stale_grace_ms : Z)
  (payload : bytes) (e : PgOAuthCacheEntry) : PgOAuthCacheEntry :=
  let fresh_until := bounded_add now_ms ttl_ms in
  {| ce_key := ce_key e; ce_payload := payload; ce_refresh_serial := ce_refresh_serial e;
     ce_fresh_until_ms := fresh_until;
     ce_stale_until_ms :=
       if negb revalidation_required then bounded_add fresh_until stale_grace_ms
       else fresh_until;
     ce_last_used_ms := now_ms;
     ce_last_unknown_kid_refresh_ms := ce_last_unknown_kid_refresh_ms e;
     ce_occupied := ce_occupied e; ce_has_value := true; ce_refreshing := false;
     ce_has_unknown_kid_refresh := ce_has_unknown_kid_refresh e |}.

Definition payload_invalid (payload : option bytes) : bool :=
  match payload with
  | None => true
  | Some payload => (zlen payload =? 0) || (PG_OAUTH_CACHE_MAX_PAYLOAD_SIZE <? zlen payload)
  end.

Definition pg_oauth_cache_complete_refresh (cache : option PgOAuthCache)
  (refresh : option PgOAuthCacheRefresh) (now_ms : Z)
  (success cacheable revalidation_required : bool) (ttl_ms stale_grace_ms : Z)
  (payload : option bytes) : bool * option PgOAuthCache :=
  match cache, refresh with
  | Some c, Some refresh =>
      match rf_entry_index refresh ≫= fun i => pair i <$> ca_entries c !! i with
      | None => (false, cache)
      | Some (i, entry) =>
          if rf_serial refresh =? 0 then (false, cache)
          else if negb (ce_occupied entry) || negb (ce_refreshing entry) ||
                  negb (ce_refresh_serial entry =? rf_serial refresh)
          then (false, cache)
          else if (now_ms <? 0) || (ttl_ms <? 0) || (stale_grace_ms <? 0) ||
                  (success && cacheable && payload_invalid payload)
          then (false, Some (count_in failures (set_entry i (release entry) c)))
          else if negb success
          then (true, Some (count_in failures (set_entry i (release entry) c)))
          else if negb cacheable
          then (true, Some (set_entry i entry_zero c))
          else (true, Some (set_entry i (publish now_ms revalidation_required ttl_ms
                              stale_grace_ms (default [] payload) entry) c))
      end
  | _, _ => (false, cache)
  end.

(** [output_size] is [None] for a NULL output; [payload_length] is non-NULL in
    every call of the program.  The result has the length reported and the bytes
    copied. *)
Definition pg_oauth_cache_copy_payload (cache : option PgOAuthCache) (entry_index : option nat)
  (output_size : option Z) : PgOAuthCacheCopyResult * Z * option bytes :=
  match cache with
  | None => (PG_OAUTH_CACHE_COPY_INVALID_ARGUMENT, 0, None)
  | Some c =>
      match entry_index ≫= fun i => ca_entries c !! i with
      | None => (PG_OAUTH_CACHE_COPY_INVALID_ARGUMENT, 0, None)
      | Some entry =>
          if negb (ce_occupied entry) || negb (ce_has_value entry)
          then (PG_OAUTH_CACHE_COPY_NOT_FOUND, 0, None)
          else match output_size with
          | None => (PG_OAUTH_CACHE_COPY_TOO_SMALL, ce_payload_length entry, None)
          | Some size =>
              if size <? ce_payload_length entry
              then (PG_OAUTH_CACHE_COPY_TOO_SMALL, ce_payload_length entry, None)
              else (PG_OAUTH_CACHE_COPY_OK, ce_payload_length entry, Some (ce_payload entry))
          end
      end
  end.

(** ** Invariant *)

Record entry_ok (e : PgOAuthCacheEntry) : Prop := {
  eo_free : ce_occupied e = false -> e = entry_zero;
  eo_key : ce_occupied e = true ->
    0 < zlen (ce_key e) <= PG_OAUTH_CACHE_MAX_KEY_SIZE;
  eo_used : ce_occupied e = true -> ce_has_value e = true \/ ce_refreshing e = true;
  eo_serial : ce_refreshing e = true -> 1 <= ce_refresh_serial e <= UINT64_MAX;
  eo_payload : ce_has_value e = true ->
    0 < zlen (ce_payload e) <= PG_OAUTH_CACHE_MAX_PAYLOAD_SIZE;
  eo_times : 0 <= ce_fresh_until_ms e <= ce_stale_until_ms e /\
    ce_stale_until_ms e <= INT64_MAX;
  eo_unknown_kid : 0 <= ce_last_unknown_kid_refresh_ms e <= INT64_MAX
}.

Record cache_inv (c : PgOAuthCache) : Prop := {
  ci_entries : forall i e, ca_entries c !! i = Some e -> entry_ok e;
  ci_keys : forall i j ei ej, ca_entries c !! i = Some ei -> ca_entries c !! j = Some ej ->
    ce_occupied ei = true -> ce_occupied ej = true -> ce_key ei = ce_key ej -> i = j;
  ci_serial : 1 <= cc_next_refresh_serial (ca_control c) <= UINT64_MAX
}.

(** ** Abstraction

    What the cache holds for a key; the owner is the serial of the refresh in
    progress. *)
Record slot := {
  sl_value : option (bytes * Z * Z);
  sl_owner : option Z;
  sl_unknown_kid : option Z;
  sl_last_used : Z
}.

Definition slot_of (e : PgOAuthCacheEntry) : slot :=
  {| sl_value := if ce_has_value e
                 then Some (ce_payload e, ce_fresh_until_ms e, ce_stale_until_ms e) else None;
     sl_owner := if ce_refreshing e then Some (ce_refresh_serial e) else None;
     sl_unknown_kid := if ce_has_unknown_kid_refresh e
                       then Some (ce_last_unknown_kid_refresh_ms e) else None;
     sl_last_used := ce_last_used_ms e |}.

Definition binding (e : PgOAuthCacheEntry) : option (bytes * slot) :=
  if ce_occupied e then Some (ce_key e, slot_of e) else None.

Definition contents (c : PgOAuthCache) : gmap bytes slot :=
  list_to_map (omap binding (ca_entries c)).

(** Entry [i] holds [k]. *)
Definition holds (c : PgOAuthCache) (i : nat) (k : bytes) (e : PgOAuthCacheEntry) : Prop :=
  ca_entries c !! i = Some e /\ ce_occupied e = true /\ ce_key e = k.

Definition expired (now_ms : Z) (s : slot) : Prop :=
  sl_owner s = None /\ forall p f t, sl_value s = Some (p, f, t) -> t <= now_ms.

(** ** The map of an array *)

Lemma same_key_spec e k : same_key e k = true <-> ce_occupied e = true /\ ce_key e = k.
Proof.
  unfold same_key, ce_key_length, bytes_eqb.
  rewrite !andb_true_iff, Z.eqb_eq, bool_decide_eq_true. split; [tauto|]. by intros [? <-].
Qed.

Lemma same_key_false e k :
  same_key e k = false <-> ~ (ce_occupied e = true /\ ce_key e = k).
Proof. by rewrite <- same_key_spec, not_true_iff_false. Qed.

Lemma contents_lookup c k s :
  cache_inv c -> contents c !! k = Some s <-> exists i e, holds c i k e /\ s = slot_of e.
Proof.
  intros [_ Hu _]. unfold contents, holds. destruct c as [l ctl]. simpl in *. clear ctl.
  induction l as [|e l IH].
  { simpl. split; [done|]. by intros (i & e & [? _] & _). }
  assert (forall i j ei ej, l !! i = Some ei -> l !! j = Some ej -> ce_occupied ei = true ->
    ce_occupied ej = true -> ce_key ei = ce_key ej -> i = j) as Hu'.
  { intros i j ei ej Hi Hj Ho Ho' Hk. by specialize (Hu (S i) (S j) ei ej Hi Hj Ho Ho' Hk) as [= ->]. }
  specialize (IH Hu'). simpl. unfold binding at 1. destruct (ce_occupied e) eqn:Eo; simpl.
  - destruct (decide (ce_key e = k)) as [<-|Hne].
    + rewrite lookup_insert_eq. split.
      * intros [= <-]. by exists 0%nat, e.
      * intros ([|i] & e' & (Hi & Ho & Hk) & ->); [by injection Hi as ->|].
        by specialize (Hu 0%nat (S i) e e' eq_refl Hi Eo Ho (eq_sym Hk)).
    + rewrite lookup_insert_ne by done. rewrite IH. split.
      * intros (i & e' & ? & ->). by exists (S i), e'.
      * intros ([|i] & e' & (Hi & Ho & Hk) & ->); [by injection Hi as ->|]. by exists i, e'.
  - rewrite IH. split.
    + intros (i & e' & ? & ->). by exists (S i), e'.
    + intros ([|i] & e' & (Hi & Ho & Hk) & ->); [injection Hi as ->; congruence|]. by exists i, e'.
Qed.

Lemma holds_fun c i j k e e' : cache_inv c -> holds c i k e -> holds c j k e' -> i = j /\ e = e'.
Proof.
  intros [_ Hu _] (Hi & Ho & Hk) (Hj & Ho' & Hk').
  assert (i = j) as -> by (eapply Hu; eauto; congruence). split; [done|congruence].
Qed.

Lemma contents_holds c i k e : cache_inv c -> holds c i k e -> contents c !! k = Some (slot_of e).
Proof. intros Hc Hh. apply contents_lookup; eauto. Qed.

Lemma contents_none c k :
  cache_inv c -> contents c !! k = None <-> forall i e, ~ holds c i k e.
Proof.
  intros Hc. rewrite eq_None_not_Some. split.
  - intros Hn i e Hh. apply Hn. exists (slot_of e). by eapply contents_holds.
  - intros Hn [s (i & e & Hh & _)%contents_lookup]; [by eapply Hn|done].
Qed.

(** Statistics are no part of the contents. *)
Lemma contents_count k c : contents (count_in k c) = contents c.
Proof. done. Qed.

Lemma inv_count k c : cache_inv c -> cache_inv (count_in k c).
Proof. by intros []. Qed.

(** Writing one entry. *)
Lemma lookup_set_entry i e c j e' :
  ca_entries (set_entry i e c) !! j = Some e' ->
  (j = i /\ e' = e) \/ (j <> i /\ ca_entries c !! j = Some e').
Proof.
  simpl. intros Hj. destruct (decide (i = j)) as [<-|Hne].
  - apply list_lookup_insert_Some in Hj. naive_solver.
  - rewrite list_lookup_insert_ne in Hj by done. auto.
Qed.

Lemma inv_set_entry c i old e :
  cache_inv c -> ca_entries c !! i = Some old -> entry_ok e ->
  (ce_occupied e = true -> forall j ej, j <> i -> ~ holds c j (ce_key e) ej) ->
  cache_inv (set_entry i e c).
Proof.
  intros [He Hu Hs] Hi Hok Hfresh. split; [| |done].
  - intros j ej Hj. apply lookup_set_entry in Hj as [[_ ->]|[_ Hj]]; eauto.
  - intros j j' ej ej' Hj Hj' Ho Ho' Hk.
    apply lookup_set_entry in Hj as [[-> ->]|[Hne Hj]];
      apply lookup_set_entry in Hj' as [[-> ->]|[Hne' Hj']]; eauto.
    + exfalso. by eapply (Hfresh Ho j' ej').
    + exfalso. by eapply (Hfresh Ho' j ej).
Qed.

(** Rewriting an entry under the same key. *)
Lemma inv_update c i k old e :
  cache_inv c -> holds c i k old -> entry_ok e ->
  (ce_occupied e = true -> ce_key e = k) -> cache_inv (set_entry i e c).
Proof.
  intros Hc Hh Hok Hk. eapply inv_set_entry; [done|apply Hh|done|].
  intros Ho j ej Hne Hj. rewrite (Hk Ho) in Hj. by destruct (holds_fun _ _ _ _ _ _ Hc Hh Hj).
Qed.

Lemma holds_set_entry c i e j k ej :
  (i < length (ca_entries c))%nat ->
  holds (set_entry i e c) j k ej <->
  (j = i /\ ej = e /\ ce_occupied e = true /\ ce_key e = k) \/ (j <> i /\ holds c j k ej).
Proof.
  intros Hi. unfold holds. simpl. destruct (decide (j = i)) as [->|Hne].
  - rewrite list_lookup_insert_eq by done. naive_solver.
  - rewrite list_lookup_insert_ne by done. naive_solver.
Qed.

Definition bind_slot (b : option (bytes * slot)) (m : gmap bytes slot) : gmap bytes slot :=
  match b with Some (k, s) => <[k := s]> m | None => m end.
Definition unbind_slot (b : option (bytes * slot)) (m : gmap bytes slot) : gmap bytes slot :=
  match b with Some (k, _) => delete k m | None => m end.

Lemma binding_Some e k s :
  binding e = Some (k, s) <-> ce_occupied e = true /\ ce_key e = k /\ s = slot_of e.
Proof. unfold binding. destruct (ce_occupied e); naive_solver. Qed.

Lemma contents_set c i old e :
  cache_inv c -> cache_inv (set_entry i e c) -> ca_entries c !! i = Some old ->
  contents (set_entry i e c) = bind_slot (binding e) (unbind_slot (binding old) (contents c)).
Proof.
  intros Hc Hc' Hi. pose proof (lookup_lt_Some _ _ _ Hi) as Hlt.
  assert (forall k s, unbind_slot (binding old) (contents c) !! k = Some s <->
    exists j ej, j <> i /\ holds c j k ej /\ s = slot_of ej) as Hun.
  { intros k s. transitivity (binding old <> Some (k, slot_of old) /\ contents c !! k = Some s).
    - unfold binding. destruct (ce_occupied old); simpl; [|naive_solver].
      rewrite lookup_delete_Some. naive_solver.
    - rewrite contents_lookup by done. split.
      + intros [Hb (j & ej & Hh & ->)]. exists j, ej. split; [|done]. intros ->. apply Hb.
        destruct Hh as (Hj & ? & ?). simplify_eq. by apply binding_Some.
      + intros (j & ej & Hne & Hh & ->). split; [|eauto]. intros (Ho & Hk & _)%binding_Some.
        by destruct (holds_fun c i j k old ej Hc (conj Hi (conj Ho Hk)) Hh). }
  apply map_eq. intros k. apply option_eq. intros s.
  rewrite contents_lookup by done. setoid_rewrite holds_set_entry; [|done].
  destruct (binding e) as [[k' s']|] eqn:Eb; simpl.
  - apply binding_Some in Eb as (Ho & Hk & ->). destruct (decide (k' = k)) as [->|Hne].
    + rewrite lookup_insert_eq. split.
      * intros (j & ej & [(_ & -> & _)|(Hne & Hh)] & ->); [done|].
        assert (j = i); [|done]. apply (ci_keys _ Hc' j i ej e).
        -- simpl. rewrite list_lookup_insert_ne by done. apply Hh.
        -- simpl. by rewrite list_lookup_insert_eq.
        -- apply Hh.
        -- done.
        -- rewrite Hk. apply Hh.
      * intros [= <-]. exists i, e. split; [by left|done].
    + rewrite lookup_insert_ne, Hun by done. split.
      * intros (j & ej & [(_ & _ & _ & ?)|[? ?]] & ->); [congruence|]. eauto 6.
      * intros (j & ej & ? & ? & ->). eauto 7.
  - rewrite Hun. assert (ce_occupied e = false) by (unfold binding in Eb; by case_match). split.
    + intros (j & ej & [(_ & _ & ? & _)|[? ?]] & ->); [congruence|]. eauto 6.
    + intros (j & ej & ? & ? & ->). eauto 7.
Qed.

Lemma contents_update c i k old e :
  cache_inv c -> cache_inv (set_entry i e c) -> holds c i k old ->
  ce_occupied e = true -> ce_key e = k ->
  contents (set_entry i e c) = <[k := slot_of e]> (contents c).
Proof.
  intros Hc Hc' (Hi & Ho & Hk) He Hke. rewrite (contents_set c i old e) by done.
  unfold binding. rewrite Ho, He. simpl. rewrite Hk, Hke. apply insert_delete_eq.
Qed.

Lemma contents_clear c i k old :
  cache_inv c -> cache_inv (set_entry i entry_zero c) -> holds c i k old ->
  contents (set_entry i entry_zero c) = delete k (contents c).
Proof.
  intros Hc Hc' (Hi & Ho & Hk). rewrite (contents_set c i old) by done.
  unfold binding. rewrite Ho. simpl. by rewrite Hk.
Qed.

(** ** Lookup *)

Definition hit (now_ms : Z) (allow_stale : bool) (s : slot)
  : option (bytes * PgOAuthCacheLookup) :=
  match sl_value s with
  | Some (payload, fresh_until, stale_until) =>
      if now_ms <? fresh_until then Some (payload, PG_OAUTH_CACHE_FRESH)
      else if allow_stale && (now_ms <? stale_until) then Some (payload, PG_OAUTH_CACHE_STALE)
      else None
  | None => None
  end.

Definition touch_slot (now_ms : Z) (s : slot) : slot :=
  {| sl_value := sl_value s; sl_owner := sl_owner s; sl_unknown_kid := sl_unknown_kid s;
     sl_last_used := now_ms |}.

Lemma lookup_loop_absent k now st n l :
  (forall j e, l !! j = Some e -> same_key e k = true -> ce_has_value e = false) ->
  lookup_loop k now st n l = None.
Proof.
  revert n. induction l as [|e l IH]; intros n Hn; [done|]. simpl.
  assert (negb (same_key e k) || negb (ce_has_value e) = true) as ->.
  { destruct (same_key e k) eqn:Es; [|done]. by rewrite (Hn 0%nat e eq_refl Es). }
  apply IH. intros j e' Hj. apply (Hn (S j)). done.
Qed.

Lemma lookup_loop_found k now st n l j e :
  l !! j = Some e -> same_key e k = true ->
  (forall j' e', l !! j' = Some e' -> same_key e' k = true -> j' = j) ->
  lookup_loop k now st n l =
  (fun pr => ((n + j)%nat, e, snd pr)) <$> hit now st (slot_of e).
Proof.
  revert n j. induction l as [|e' l IH]; intros n j Hj Hs Hu; [done|]. simpl.
  destruct j as [|j].
  - injection Hj as ->. rewrite Hs, Nat.add_0_r. unfold hit, slot_of. simpl.
    destruct (ce_has_value e); simpl; [by repeat case_match|].
    apply lookup_loop_absent. intros j e' Hj Hs'. by specialize (Hu (S j) e' Hj Hs').
  - destruct (same_key e' k) eqn:Es; simpl; [by specialize (Hu 0%nat e' eq_refl Es)|].
    rewrite (IH (S n) j); [by rewrite Nat.add_succ_r|done..|].
    intros j' e'' Hj' Hs'. by specialize (Hu (S j') e'' Hj' Hs') as [= ->].
Qed.

Lemma lookup_loop_contents c k now st :
  cache_inv c ->
  match contents c !! k ≫= hit now st with
  | Some (payload, freshness) =>
      exists i e, holds c i k e /\ ce_has_value e = true /\ ce_payload e = payload /\
        lookup_loop k now st 0 (ca_entries c) = Some (i, e, freshness) /\
        freshness <> PG_OAUTH_CACHE_MISS
  | None => lookup_loop k now st 0 (ca_entries c) = None
  end.
Proof.
  intros Hc. destruct (contents c !! k) as [s|] eqn:Ek; simpl.
  - apply contents_lookup in Ek as (i & e & Hh & ->); [|done].
    destruct Hh as (Hi & Ho & Hk). rewrite (lookup_loop_found k now st 0 _ i e); [|done..| |].
    + assert (hit now st (slot_of e) = None \/ exists f, hit now st (slot_of e) =
        Some (ce_payload e, f) /\ ce_has_value e = true /\ f <> PG_OAUTH_CACHE_MISS) as Hhit.
      { unfold hit, slot_of. simpl. destruct (ce_has_value e); simpl; [|by left].
        repeat case_match; eauto 6. }
      destruct Hhit as [->|(f & -> & ? & ?)]; [done|]. by exists i, e.
    + by apply same_key_spec.
    + intros j e' Hj [Ho' Hk']%same_key_spec.
      by destruct (holds_fun c j i k e' e Hc (conj Hj (conj Ho' Hk')) (conj Hi (conj Ho Hk))).
  - apply lookup_loop_absent. intros j e Hj [Ho Hk]%same_key_spec.
    by destruct (proj1 (contents_none c k Hc) Ek j e).
Qed.

Lemma touch_ok now e : entry_ok e -> entry_ok (touch now e) \/ ce_occupied e = false.
Proof.
  intros []. destruct (ce_occupied e) eqn:E; [left|by right]. split; simpl; auto. congruence.
Qed.

(** ** The slot for a refresh *)

Definition evictable (now_ms : Z) (e : PgOAuthCacheEntry) : Prop :=
  ce_occupied e = true /\ ce_refreshing e = false /\ ce_stale_until_ms e <= now_ms.

Definition chosen (now_ms : Z) (l : list PgOAuthCacheEntry) (r : option nat) : Prop :=
  (exists i e, r = Some i /\ l !! i = Some e /\ ce_occupied e = false) \/
  (Forall (fun e => ce_occupied e = true) l /\
   exists i e, r = Some i /\ l !! i = Some e /\ evictable now_ms e /\
     Forall (fun e' => evictable now_ms e' -> ce_last_used_ms e <= ce_last_used_ms e') l) \/
  (Forall (fun e => ce_occupied e = true) l /\ r = None /\
   Forall (fun e => ~ evictable now_ms e) l).

Lemma find_slot_existing k now n l empty victim j e :
  l !! j = Some e -> same_key e k = true ->
  (forall j' e', l !! j' = Some e' -> same_key e' k = true -> j' = j) ->
  find_slot_loop k now n l empty victim = (Some (n + j)%nat, true).
Proof.
  revert n j empty victim. induction l as [|e' l IH]; intros n j empty victim Hj Hs Hu; [done|].
  cbn [find_slot_loop]. destruct j as [|j].
  - injection Hj as ->. by rewrite Hs, Nat.add_0_r.
  - destruct (same_key e' k) eqn:Es; [by specialize (Hu 0%nat e' eq_refl Es)|].
    rewrite Nat.add_succ_r. assert (forall j' e'', l !! j' = Some e'' ->
      same_key e'' k = true -> j' = j) as Hu'.
    { intros j' e'' Hj' Hs'. by specialize (Hu (S j') e'' Hj' Hs') as [= ->]. }
    repeat case_match; by rewrite (IH (S n) j).
Qed.

(** What the loop knows after the entries [p]. *)
Definition empty_scan (l p : list PgOAuthCacheEntry) (empty : option nat) : Prop :=
  match empty with
  | None => Forall (fun e => ce_occupied e = true) p
  | Some i => exists e, l !! i = Some e /\ ce_occupied e = false
  end.

Definition victim_scan (now_ms : Z) (l p : list PgOAuthCacheEntry)
  (victim : option (nat * Z)) : Prop :=
  match victim with
  | None => Forall (fun e => ~ evictable now_ms e) p
  | Some (i, used) =>
      exists e, l !! i = Some e /\ evictable now_ms e /\ used = ce_last_used_ms e /\
        Forall (fun e' => evictable now_ms e' -> used <= ce_last_used_ms e') p
  end.

Lemma scanned_chosen now l empty victim :
  empty_scan l l empty -> victim_scan now l l victim ->
  chosen now l (match empty with Some _ => empty | None => fst <$> victim end).
Proof.
  intros He Hv. destruct empty as [i|]; [destruct He as (e & ? & ?); left; eauto|].
  right. destruct victim as [[i used]|]; simpl; [left|by right].
  destruct Hv as (e & ? & ? & -> & ?). split; [done|]. by exists i, e.
Qed.

Lemma empty_scan_keep l p empty e :
  empty_scan l p empty -> ce_occupied e = true \/ empty <> None -> empty_scan l (p ++ [e]) empty.
Proof.
  destruct empty; [done|]. simpl. rewrite Forall_app, Forall_singleton. naive_solver.
Qed.

Lemma victim_scan_keep now l p victim e :
  victim_scan now l p victim ->
  (evictable now e -> exists i used, victim = Some (i, used) /\ used <= ce_last_used_ms e) ->
  victim_scan now l (p ++ [e]) victim.
Proof.
  destruct victim as [[i used]|]; simpl.
  - intros (ev & ? & ? & -> & Hf) He. exists ev. split_and!; try done.
    rewrite Forall_app, Forall_singleton. split; [done|]. naive_solver.
  - rewrite Forall_app, Forall_singleton. naive_solver.
Qed.

Lemma victim_scan_take now l p victim e i :
  victim_scan now l p victim -> evictable now e -> l !! i = Some e ->
  match victim with None => True | Some (_, used) => ce_last_used_ms e < used end ->
  victim_scan now l (p ++ [e]) (Some (i, ce_last_used_ms e)).
Proof.
  intros Hv He Hi Hlt. exists e. split_and!; try done.
  rewrite Forall_app, Forall_singleton. split; [|lia].
  destruct victim as [[j used]|]; simpl in Hv.
  - destruct Hv as (ev & _ & _ & _ & Hf). eapply Forall_impl; [done|]. simpl. 
    intros e' Hle Hev. specialize (Hle Hev). lia.
  - eapply Forall_impl; [done|]. simpl. tauto.
Qed.

Lemma find_slot_new k now p l empty victim :
  Forall (fun e => same_key e k = false) l ->
  empty_scan (p ++ l) p empty -> victim_scan now (p ++ l) p victim ->
  exists r, find_slot_loop k now (length p) l empty victim = (r, false) /\
    chosen now (p ++ l) r.
Proof.
  revert p empty victim. induction l as [|e l IH]; intros p empty victim Hn He Hv.
  { rewrite app_nil_r in *. simpl. eexists. split; [done|]. by apply scanned_chosen. }
  apply Forall_cons in Hn as [Hk Hn]. cbn [find_slot_loop]. rewrite Hk.
  replace (p ++ e :: l) with ((p ++ [e]) ++ l) in * by by rewrite <- app_assoc.
  replace (S (length p)) with (length (p ++ [e])) by (rewrite length_app; simpl; lia).
  assert (((p ++ [e]) ++ l) !! length p = Some e) as Hi.
  { rewrite <- app_assoc. simpl. by apply list_lookup_middle. }
  destruct (negb (ce_occupied e) && bool_decide (empty = None)) eqn:E1; prop_bools.
  { apply IH; [done|by exists e|]. apply victim_scan_keep; [done|]. intros [? _]. congruence. }
  assert (empty_scan ((p ++ [e]) ++ l) (p ++ [e]) empty) as He'.
  { apply empty_scan_keep; [done|]. destruct (ce_occupied e); [by left|right].
    simpl in E1. by apply bool_decide_eq_false in E1. }
  case_match eqn:E2; apply IH; try done; prop_bools.
  - eapply victim_scan_take; [done| |done|].
    + unfold evictable. split_and!; [done..|lia].
    + destruct victim as [[? ?]|]; [lia|done].
  - apply victim_scan_keep; [done|]. intros (Ho & Hr & Ht). rewrite Ho, Hr in E2. simpl in E2.
    destruct (Z.leb_spec (ce_stale_until_ms e) now); [|lia]. simpl in E2.
    destruct victim as [[j used]|]; [|done]. exists j, used. split; [done|lia].
Qed.

Lemma find_refresh_slot_spec c k now :
  cache_inv c ->
  match contents c !! k with
  | Some s => exists i e, holds c i k e /\ s = slot_of e /\
      find_refresh_slot c k now = (Some i, true)
  | None => exists r, find_refresh_slot c k now = (r, false) /\ chosen now (ca_entries c) r
  end.
Proof.
  intros Hc. unfold find_refresh_slot. destruct (contents c !! k) as [s|] eqn:Ek.
  - apply contents_lookup in Ek as (i & e & Hh & ->); [|done]. exists i, e. split_and!; try done.
    destruct Hh as (Hi & Ho & Hk).
    rewrite (find_slot_existing k now 0 _ None None i e); [done|done|by apply same_key_spec|].
    intros j e' Hj [Ho' Hk']%same_key_spec.
    by destruct (holds_fun c j i k e' e Hc (conj Hj (conj Ho' Hk')) (conj Hi (conj Ho Hk))).
  - apply (find_slot_new k now [] (ca_entries c) None None); [|constructor..].
    apply Forall_lookup. intros i e Hi. apply same_key_false. intros [Ho Hk].
    by apply (proj1 (contents_none c k Hc) Ek i e).
Qed.

(** ** How full the cache is *)

Lemma omap_full (l : list PgOAuthCacheEntry) :
  (length (omap binding l) <= length l)%nat /\
  (length (omap binding l) = length l <-> Forall (fun e => ce_occupied e = true) l).
Proof.
  induction l as [|e l [IH1 IH2]]; [by split; [|split; constructor]|].
  rewrite Forall_cons. cbn [omap list_omap]. destruct (binding e) as [[k s]|] eqn:Eb; cbn [length].
  - apply binding_Some in Eb as (Ho & _ & _). rewrite <- IH2. split; [lia|].
    split; [intros [= ->]|intros [_ ->]]; done.
  - assert (ce_occupied e = false) by (unfold binding in Eb; by case_match).
    split; [change (length (omap binding l) <= S (length l))%nat; lia|].
    split; [|intros [? _]; congruence].
    change (length (omap binding l) = S (length l) -> ce_occupied e = true /\
      Forall (fun e => ce_occupied e = true) l). intros. exfalso. lia.
Qed.

Lemma contents_size c : cache_inv c -> size (contents c) = length (omap binding (ca_entries c)).
Proof.
  intros [_ Hu _]. unfold contents. rewrite map_size_list_to_map; [done|].
  destruct c as [l ctl]. simpl in *. clear ctl. induction l as [|e l IH]; [constructor|].
  assert (NoDup (omap binding l).*1) as Hnd.
  { apply IH. intros i j ei ej Hi Hj Ho Ho' Hk.
    by specialize (Hu (S i) (S j) ei ej Hi Hj Ho Ho' Hk) as [= ->]. }
  simpl. unfold binding at 1. destruct (ce_occupied e) eqn:Eo; [|done]. simpl.
  constructor; [|done]. intros ([k s] & Hk & Hin)%list_elem_of_fmap. simpl in Hk. subst k.
  apply list_elem_of_omap in Hin as (e' & Hin & (Ho & Hk & _)%binding_Some).
  apply list_elem_of_lookup in Hin as [i Hi].
  by specialize (Hu 0%nat (S i) e e' eq_refl Hi Eo Ho (eq_sym Hk)).
Qed.

Definition capacity (c : PgOAuthCache) : nat := length (ca_entries c).

Lemma contents_room c i e :
  cache_inv c -> ca_entries c !! i = Some e -> ce_occupied e = false ->
  (size (contents c) < capacity c)%nat.
Proof.
  intros Hc Hi Ho. rewrite contents_size by done.
  destruct (omap_full (ca_entries c)) as [Hle Hf]. unfold capacity.
  assert (length (omap binding (ca_entries c)) <> length (ca_entries c)); [|lia].
  rewrite Hf. intros Hall. rewrite Forall_lookup in Hall. specialize (Hall _ _ Hi). congruence.
Qed.

Lemma contents_full c :
  cache_inv c -> Forall (fun e => ce_occupied e = true) (ca_entries c) ->
  size (contents c) = capacity c.
Proof. intros Hc Hf. rewrite contents_size by done. by apply omap_full. Qed.

Lemma evictable_expired now c i k e :
  cache_inv c -> holds c i k e -> evictable now e <-> expired now (slot_of e).
Proof.
  intros Hc (Hi & Ho & _). pose proof (ci_entries _ Hc _ _ Hi) as Hok.
  unfold evictable, expired, slot_of. simpl. split.
  - intros (_ & -> & Ht). split; [done|]. intros p f t Hv. destruct (ce_has_value e); by simplify_eq.
  - intros [Hr Ht]. destruct (ce_refreshing e) eqn:Er; [done|]. split_and!; [done..|].
    destruct (eo_used _ Hok Ho) as [Hv|]; [|congruence]. rewrite Hv in Ht. by eapply Ht.
Qed.

(** ** Beginning a refresh *)

Definition start_slot (now_ms : Z) (unknown_kid : bool) (serial : Z) (s : slot) : slot :=
  {| sl_value := sl_value s; sl_owner := Some serial;
     sl_unknown_kid := if unknown_kid then Some now_ms else sl_unknown_kid s;
     sl_last_used := sl_last_used s |}.

Definition slot_new (now_ms : Z) : slot :=
  {| sl_value := None; sl_owner := None; sl_unknown_kid := None; sl_last_used := now_ms |}.

(** The refresh was made for an unknown key id less than the cooldown ago. *)
Definition cooling (now_ms cooldown_ms : Z) (unknown_kid : bool) (s : slot) : Prop :=
  unknown_kid = true /\ exists t, sl_unknown_kid s = Some t /\ now_ms - t < cooldown_ms.

(** What [begin_refresh] may do to the map, with [capacity] keys at most. *)
Inductive begin_spec (capacity : nat) (m : gmap bytes slot) (k : bytes) (now_ms : Z)
  (unknown_kid : bool) (cooldown_ms serial : Z)
  : PgOAuthCacheRefreshResult -> gmap bytes slot -> Prop :=
| begin_in_progress s owner :
    m !! k = Some s -> sl_owner s = Some owner ->
    begin_spec capacity m k now_ms unknown_kid cooldown_ms serial
      PG_OAUTH_CACHE_REFRESH_IN_PROGRESS m
| begin_suppressed s :
    m !! k = Some s -> sl_owner s = None -> cooling now_ms cooldown_ms unknown_kid s ->
    begin_spec capacity m k now_ms unknown_kid cooldown_ms serial
      PG_OAUTH_CACHE_REFRESH_SUPPRESSED m
| begin_again s :
    m !! k = Some s -> sl_owner s = None -> ~ cooling now_ms cooldown_ms unknown_kid s ->
    begin_spec capacity m k now_ms unknown_kid cooldown_ms serial
      PG_OAUTH_CACHE_REFRESH_STARTED (<[k := start_slot now_ms unknown_kid serial s]> m)
| begin_insert :
    m !! k = None -> (size m < capacity)%nat ->
    begin_spec capacity m k now_ms unknown_kid cooldown_ms serial
      PG_OAUTH_CACHE_REFRESH_STARTED
      (<[k := start_slot now_ms unknown_kid serial (slot_new now_ms)]> m)
| begin_evict victim s :
    m !! k = None -> size m = capacity -> m !! victim = Some s -> expired now_ms s ->
    (forall k' s', m !! k' = Some s' -> expired now_ms s' -> sl_last_used s <= sl_last_used s') ->
    begin_spec capacity m k now_ms unknown_kid cooldown_ms serial
      PG_OAUTH_CACHE_REFRESH_STARTED
      (<[k := start_slot now_ms unknown_kid serial (slot_new now_ms)]> (delete victim m))
| begin_full :
    m !! k = None -> size m = capacity ->
    (forall k' s, m !! k' = Some s -> ~ expired now_ms s) ->
    begin_spec capacity m k now_ms unknown_kid cooldown_ms serial
      PG_OAUTH_CACHE_REFRESH_CAPACITY m.

(** The holder of a refresh in progress for [k]. *)
Definition owns (c : PgOAuthCache) (refresh : PgOAuthCacheRefresh) (k : bytes) : Prop :=
  exists i e, rf_entry_index refresh = Some i /\ holds c i k e /\
    ce_refreshing e = true /\ ce_refresh_serial e = rf_serial refresh.

Lemma next_serial_range s : 1 <= s <= UINT64_MAX -> 1 <= next_serial s <= UINT64_MAX.
Proof.
  unfold next_serial, u64, UINT64_MAX. intros Hs.
  pose proof (Z.mod_pos_bound (s + 1) (2 ^ 64) eq_refl). destruct (Z.eqb_spec ((s + 1) mod 2 ^ 64) 0); lia.
Qed.

(** Claiming slot [i] for [k] with the entry [e]. *)
Lemma start_refresh_spec c i old k e now uk :
  cache_inv c -> ca_entries c !! i = Some old -> 0 <= now <= INT64_MAX ->
  0 < zlen k <= PG_OAUTH_CACHE_MAX_KEY_SIZE -> ce_occupied e = true -> ce_key e = k ->
  (e = old \/ (e = entry_new k now /\ contents c !! k = None)) ->
  let '(refresh, c1) := start_refresh i e now uk c in
  cache_inv c1 /\ owns c1 refresh k /\ rf_serial refresh = cc_next_refresh_serial (ca_control c) /\
  cc_next_refresh_serial (ca_control c1) = next_serial (cc_next_refresh_serial (ca_control c)) /\
  contents c1 = <[k := start_slot now uk (rf_serial refresh) (slot_of e)]>
                  (unbind_slot (binding old) (contents c)).
Proof.
  intros Hc Hi Hnow Hk Ho Hke Hcase. unfold start_refresh. simpl.
  set (serial := cc_next_refresh_serial (ca_control c)).
  set (e' := mark_refreshing now uk serial e).
  pose proof (lookup_lt_Some _ _ _ Hi) as Hlt.
  assert (cache_inv (set_entry i e' c)) as Hc'.
  { eapply inv_set_entry; [done..| |].
    - assert (ce_has_value e = true -> 0 < zlen (ce_payload e) <= PG_OAUTH_CACHE_MAX_PAYLOAD_SIZE)
        as Hp by (destruct Hcase as [->|[-> _]]; [apply (ci_entries _ Hc _ _ Hi)|done]).
      assert (0 <= ce_last_unknown_kid_refresh_ms e <= INT64_MAX) as Hl
        by (destruct Hcase as [->|[-> _]]; [apply (ci_entries _ Hc _ _ Hi)|done]).
      assert (0 <= ce_fresh_until_ms e <= ce_stale_until_ms e /\ ce_stale_until_ms e <= INT64_MAX)
        as Ht by (destruct Hcase as [->|[-> _]]; [apply (ci_entries _ Hc _ _ Hi)|done]).
      split; simpl; try done.
      + congruence.
      + by rewrite Hke.
      + by right.
      + intros _. apply (ci_serial _ Hc).
      + by destruct uk.
    - intros _ j ej Hne Hj. simpl in Hj. rewrite Hke in Hj. destruct Hcase as [->|[_ Hnone]].
      + by destruct (holds_fun c i j k old ej Hc (conj Hi (conj Ho Hke)) Hj).
      + by apply (proj1 (contents_none c k Hc) Hnone j ej). }
  split_and!.
  - destruct Hc' as [He Hu _]. split; [done..|]. apply next_serial_range, (ci_serial _ Hc).
  - exists i, e'. simpl. split_and!; try done. split_and!; try done. simpl.
    by rewrite list_lookup_insert_eq.
  - done.
  - done.
  - change (contents (set_entry i e' c) = <[k:=start_slot now uk serial (slot_of e)]>
      (unbind_slot (binding old) (contents c))).
    rewrite (contents_set c i old e') by done. unfold binding at 1. simpl. rewrite Ho. simpl.
    rewrite Hke. f_equal. unfold slot_of, start_slot, e', mark_refreshing. simpl. by destruct uk.
Qed.

(** What a call of [begin_refresh] guarantees. *)
Record begin_ok (c : PgOAuthCache) (k : bytes) (now_ms : Z) (unknown_kid : bool)
  (cooldown_ms : Z) (result : PgOAuthCacheRefreshResult) (refresh : PgOAuthCacheRefresh)
  (c1 : PgOAuthCache) : Prop := {
  bo_inv : cache_inv c1;
  bo_capacity : capacity c1 = capacity c;
  bo_contents : begin_spec (capacity c) (contents c) k now_ms unknown_kid cooldown_ms
    (cc_next_refresh_serial (ca_control c)) result (contents c1);
  bo_owner : result = PG_OAUTH_CACHE_REFRESH_STARTED ->
    owns c1 refresh k /\ rf_serial refresh = cc_next_refresh_serial (ca_control c) /\
    cc_next_refresh_serial (ca_control c1) = next_serial (cc_next_refresh_serial (ca_control c));
  bo_refused : result <> PG_OAUTH_CACHE_REFRESH_STARTED ->
    refresh = refresh_none /\ ca_entries c1 = ca_entries c /\
    cc_next_refresh_serial (ca_control c1) = cc_next_refresh_serial (ca_control c)
}.

Lemma capacity_start i e now uk c : capacity (snd (start_refresh i e now uk c)) = capacity c.
Proof. unfold capacity. simpl. apply length_insert. Qed.

#[global] Arguments start_refresh : simpl never.

(** A refresh started in slot [i] with the entry [e] is as the map says. *)
Lemma start_begin_ok c i old k e now uk cd c0 :
  cache_inv c -> ca_entries c !! i = Some old -> 0 <= now <= INT64_MAX ->
  0 < zlen k <= PG_OAUTH_CACHE_MAX_KEY_SIZE -> ce_occupied e = true -> ce_key e = k ->
  (e = old \/ (e = entry_new k now /\ contents c !! k = None)) ->
  c0 = c \/ c0 = count_in evictions c ->
  begin_spec (capacity c) (contents c) k now uk cd (cc_next_refresh_serial (ca_control c))
    PG_OAUTH_CACHE_REFRESH_STARTED
    (<[k := start_slot now uk (cc_next_refresh_serial (ca_control c)) (slot_of e)]>
       (unbind_slot (binding old) (contents c))) ->
  let '(refresh, c1) := start_refresh i e now uk c0 in
  begin_ok c k now uk cd PG_OAUTH_CACHE_REFRESH_STARTED refresh c1.
Proof.
  intros Hc Hi Hnow Hk Ho Hke Hcase Hc0 Hspec.
  assert (cache_inv c0 /\ contents c0 = contents c /\ ca_entries c0 = ca_entries c /\
    cc_next_refresh_serial (ca_control c0) = cc_next_refresh_serial (ca_control c))
    as (Hinv & Hcon & Hent & Hser) by (destruct Hc0 as [->| ->]; [done|]; by split; [apply inv_count|]).
  rewrite <- Hcon in Hcase. rewrite <- Hent in Hi.
  pose proof (start_refresh_spec c0 i old k e now uk Hinv Hi Hnow Hk Ho Hke Hcase) as Hstart.
  pose proof (capacity_start i e now uk c0) as Hcap.
  destruct (start_refresh i e now uk c0) as [refresh c1].
  destruct Hstart as (Hi1 & Hown & Hs & Hn & Hcont). simpl in Hcap. split; try done.
  - rewrite Hcap. unfold capacity. by rewrite Hent.
  - by rewrite Hcont, Hs, Hcon, Hser.
  - rewrite Hs, Hn, Hser. done.
Qed.

Lemma refuse_begin_ok c k now uk cd result counter :
  cache_inv c -> result <> PG_OAUTH_CACHE_REFRESH_STARTED ->
  begin_spec (capacity c) (contents c) k now uk cd (cc_next_refresh_serial (ca_control c))
    result (contents c) ->
  begin_ok c k now uk cd result refresh_none (count_in counter c).
Proof. intros Hc Hr Hs. split; try done. by apply inv_count. Qed.

Lemma valid_key_some k :
  valid_key (Some k) = true <-> 0 < zlen k <= PG_OAUTH_CACHE_MAX_KEY_SIZE.
Proof. simpl. rewrite andb_true_iff, Z.ltb_lt, Z.leb_le. done. Qed.

Lemma cooling_spec c i k e now uk cd :
  cache_inv c -> holds c i k e -> 0 <= now <= INT64_MAX ->
  (uk && ce_has_unknown_kid_refresh e &&
    (i64 (now - ce_last_unknown_kid_refresh_ms e) <? cd) = true <->
   cooling now cd uk (slot_of e)).
Proof.
  intros Hc (Hi & _) Hnow. pose proof (eo_unknown_kid _ (ci_entries _ Hc _ _ Hi)).
  unfold cooling, slot_of. simpl. rewrite i64_id by (unfold INT64_MIN, INT64_MAX in *; lia).
  destruct uk, (ce_has_unknown_kid_refresh e); simpl; [|naive_solver..].
  rewrite Z.ltb_lt. split; [eauto|]. by intros (_ & t & [= <-] & ?).
Qed.

Lemma begin_refresh_existing c i k e now uk cd :
  cache_inv c -> holds c i k e -> 0 <= now <= INT64_MAX -> 0 <= cd ->
  valid_key (Some k) = true -> find_refresh_slot c k now = (Some i, true) ->
  exists result refresh c1,
    pg_oauth_cache_begin_refresh (Some c) (Some k) now uk cd = (result, refresh, Some c1) /\
    begin_ok c k now uk cd result refresh c1.
Proof.
  intros Hc Hh Hnow Hcd Hvk Hf. pose proof Hh as (Hi & Ho & Hk).
  pose proof (contents_holds _ _ _ _ Hc Hh) as Hm. pose proof (cooling_spec c i k e now uk cd Hc Hh Hnow) as Hcool.
  unfold pg_oauth_cache_begin_refresh. rewrite Hvk. simpl negb.
  destruct (Z.ltb_spec now 0); [lia|]. destruct (Z.ltb_spec cd 0); [lia|]. simpl orb.
  rewrite Hf, Hi. simpl default.
  destruct (ce_refreshing e) eqn:Er; simpl.
  { eexists _, _, _. split; [done|]. apply refuse_begin_ok; [done..|].
    eapply begin_in_progress; [done|]. unfold slot_of. simpl. by rewrite Er. }
  assert (sl_owner (slot_of e) = None) as Hown by (unfold slot_of; simpl; by rewrite Er).
  destruct (uk && ce_has_unknown_kid_refresh e && _) eqn:Ecool; simpl.
  { eexists _, _, _. split; [done|]. apply refuse_begin_ok; [done..|].
    eapply begin_suppressed; [done..|]. by apply Hcool. }
  pose proof (start_begin_ok c i e k e now uk cd c Hc Hi Hnow) as Hstart.
  destruct (start_refresh i e now uk c) as [refresh c1] eqn:Es.
  exists PG_OAUTH_CACHE_REFRESH_STARTED, refresh, c1. split; [by injection Es as <- <-|].
  apply valid_key_some in Hvk. apply Hstart; auto.
  unfold binding. rewrite Ho. simpl. rewrite Hk, insert_delete_eq.
  apply begin_again; [done..|]. rewrite <- Hcool. done.
Qed.

Lemma begin_refresh_new c k now uk cd r :
  cache_inv c -> contents c !! k = None -> 0 <= now <= INT64_MAX -> 0 <= cd ->
  valid_key (Some k) = true -> find_refresh_slot c k now = (r, false) ->
  chosen now (ca_entries c) r ->
  exists result refresh c1,
    pg_oauth_cache_begin_refresh (Some c) (Some k) now uk cd = (result, refresh, Some c1) /\
    begin_ok c k now uk cd result refresh c1.
Proof.
  intros Hc Hm Hnow Hcd Hvk Hf Hch.
  unfold pg_oauth_cache_begin_refresh. rewrite Hvk. simpl negb.
  destruct (Z.ltb_spec now 0); [lia|]. destruct (Z.ltb_spec cd 0); [lia|]. simpl orb.
  rewrite Hf. destruct r as [i|].
  2:{ destruct Hch as [(? & ? & ? & _)|[(_ & ? & ? & ? & _)|(Hocc & _ & Hno)]]; [done..|].
      eexists _, _, _. split; [done|]. apply refuse_begin_ok; [done..|].
      apply begin_full; [done|by apply contents_full|].
      intros k' s (j & e & Hh & ->)%contents_lookup; [|done].
      rewrite <- evictable_expired by done. rewrite Forall_lookup in Hno. by eapply Hno, Hh. }
  apply valid_key_some in Hvk. simpl andb.
  assert (exists old, ca_entries c !! i = Some old /\
    begin_spec (capacity c) (contents c) k now uk cd (cc_next_refresh_serial (ca_control c))
      PG_OAUTH_CACHE_REFRESH_STARTED
      (<[k := start_slot now uk (cc_next_refresh_serial (ca_control c)) (slot_of (entry_new k now))]>
         (unbind_slot (binding old) (contents c)))) as (old & Hi & Hspec).
  { destruct Hch as [(j & e & [= <-] & Hi & Ho)|[(Hocc & j & e & [= <-] & Hi & Hev & Hmin)|
      (_ & ? & _)]]; [| |done]; exists e; (split; [done|]); unfold binding.
    - rewrite Ho. apply begin_insert; [done|]. by eapply contents_room.
    - pose proof Hev as (Ho & _). rewrite Ho.
      assert (holds c i (ce_key e) e) as Hh by done.
      apply (begin_evict _ _ _ _ _ _ _ (ce_key e) (slot_of e)); [done|by apply contents_full|..].
      + by eapply contents_holds.
      + by eapply evictable_expired.
      + intros k' s' (j & e' & Hh' & ->)%contents_lookup; [|done].
        rewrite <- evictable_expired by done. rewrite Forall_lookup in Hmin. by eapply Hmin, Hh'. }
  rewrite Hi. simpl default.
  pose proof (start_begin_ok c i old k (entry_new k now) now uk cd
    (if ce_occupied old then count_in evictions c else c) Hc Hi Hnow) as Hstart.
  destruct (start_refresh i (entry_new k now) now uk _) as [refresh c1] eqn:Es.
  exists PG_OAUTH_CACHE_REFRESH_STARTED, refresh, c1. split; [by injection Es as <- <-|]. apply Hstart; auto. destruct (ce_occupied old); auto.
Qed.

Lemma begin_refresh_ok c k now uk cd :
  cache_inv c -> 0 <= now <= INT64_MAX -> 0 <= cd -> valid_key (Some k) = true ->
  exists result refresh c1,
    pg_oauth_cache_begin_refresh (Some c) (Some k) now uk cd = (result, refresh, Some c1) /\
    begin_ok c k now uk cd result refresh c1.
Proof.
  intros Hc Hnow Hcd Hvk. pose proof (find_refresh_slot_spec c k now Hc) as Hf.
  destruct (contents c !! k) as [s|] eqn:Hm.
  - destruct Hf as (i & e & Hh & _ & Hf). by eapply begin_refresh_existing.
  - destruct Hf as (r & Hf & Hch). by eapply begin_refresh_new.
Qed.

(** ** Completing a refresh *)

Definition publish_slot (now_ms : Z) (revalidation_required : bool) (ttl_ms stale_grace_ms : Z)
  (payload : bytes) (s : slot) : slot :=
  let fresh_until := Z.min INT64_MAX (now_ms + ttl_ms) in
  {| sl_value := Some (payload, fresh_until,
       if revalidation_required then fresh_until
       else Z.min INT64_MAX (fresh_until + stale_grace_ms));
     sl_owner := None; sl_unknown_kid := sl_unknown_kid s; sl_last_used := now_ms |}.

(** Giving up a refresh keeps the last good value, and forgets an empty slot. *)
Definition release_slot (k : bytes) (s : slot) (m : gmap bytes slot) : gmap bytes slot :=
  match sl_value s with
  | None => delete k m
  | Some _ => <[k := {| sl_value := sl_value s; sl_owner := None;
                        sl_unknown_kid := sl_unknown_kid s;
                        sl_last_used := sl_last_used s |}]> m
  end.

Definition times_ok (now_ms ttl_ms stale_grace_ms : Z) : bool :=
  (0 <=? now_ms) && (0 <=? ttl_ms) && (0 <=? stale_grace_ms).

(** What completing the refresh of [k] makes of the map, and what it reports. *)
Definition complete_spec (m : gmap bytes slot) (k : bytes) (s : slot) (now_ms : Z)
  (success cacheable revalidation_required : bool) (ttl_ms stale_grace_ms : Z)
  (payload : option bytes) : bool * gmap bytes slot :=
  if negb (times_ok now_ms ttl_ms stale_grace_ms) then (false, release_slot k s m)
  else if negb success then (true, release_slot k s m)
  else if negb cacheable then (true, delete k m)
  else match payload with
  | Some p =>
      if (0 <? zlen p) && (zlen p <=? PG_OAUTH_CACHE_MAX_PAYLOAD_SIZE)
      then (true, <[k := publish_slot now_ms revalidation_required ttl_ms stale_grace_ms p s]> m)
      else (false, release_slot k s m)
  | None => (false, release_slot k s m)
  end.

Lemma bounded_add_min value duration :
  0 <= value <= INT64_MAX -> 0 <= duration <= INT64_MAX ->
  bounded_add value duration = Z.min INT64_MAX (value + duration).
Proof.
  intros Hv Hd. unfold bounded_add. rewrite (i64_id (INT64_MAX - value)).
  2:{ unfold INT64_MIN, INT64_MAX in *. lia. }
  destruct (Z.ltb_spec (INT64_MAX - value) duration); [lia|].
  rewrite i64_id by (unfold INT64_MIN, INT64_MAX in *; lia). lia.
Qed.

Lemma entry_zero_ok : entry_ok entry_zero.
Proof. split; done. Qed.

Lemma release_ok c i k e :
  cache_inv c -> holds c i k e -> ce_refreshing e = true ->
  cache_inv (set_entry i (release e) c) /\
  contents (set_entry i (release e) c) = release_slot k (slot_of e) (contents c).
Proof.
  intros Hc Hh Hr. pose proof Hh as (Hi & Ho & Hk).
  pose proof (ci_entries _ Hc _ _ Hi) as [? ? ? ? ? ? ?].
  unfold release, release_slot, slot_of at 1. simpl. destruct (ce_has_value e) eqn:Ev; simpl.
  - assert (cache_inv (set_entry i (release e) c)) as Hc'.
    { eapply inv_update; [done..| |by intros _; unfold release; rewrite Ev].
      unfold release. rewrite Ev. split; simpl; auto; congruence. }
    unfold release in Hc'. rewrite Ev in Hc'. simpl in Hc'. split; [done|].
    erewrite contents_update; [|done..]. f_equal.
  - assert (cache_inv (set_entry i entry_zero c)) as Hc'
      by (eapply inv_update; [done..|apply entry_zero_ok|done]).
    split; [done|]. by eapply contents_clear.
Qed.

Lemma publish_ok c i k e now reval ttl grace payload :
  cache_inv c -> holds c i k e -> 0 <= now <= INT64_MAX -> 0 <= ttl <= INT64_MAX ->
  0 <= grace <= INT64_MAX -> 0 < zlen payload <= PG_OAUTH_CACHE_MAX_PAYLOAD_SIZE ->
  cache_inv (set_entry i (publish now reval ttl grace payload e) c) /\
  contents (set_entry i (publish now reval ttl grace payload e) c) =
    <[k := publish_slot now reval ttl grace payload (slot_of e)]> (contents c).
Proof.
  intros Hc Hh Hnow Httl Hgrace Hp. pose proof Hh as (Hi & Ho & Hk).
  pose proof (ci_entries _ Hc _ _ Hi) as [? ? ? ? ? ? ?].
  assert (bounded_add now ttl = Z.min INT64_MAX (now + ttl)) as Ef by by apply bounded_add_min.
  assert (bounded_add (Z.min INT64_MAX (now + ttl)) grace =
    Z.min INT64_MAX (Z.min INT64_MAX (now + ttl) + grace)) as Es.
  { apply bounded_add_min; [|done]. unfold INT64_MAX in *. lia. }
  assert (cache_inv (set_entry i (publish now reval ttl grace payload e) c)) as Hc'.
  { eapply inv_update; [done..| |done]. unfold publish. rewrite Ef, Es.
    split; simpl; auto; try congruence; try done. unfold INT64_MAX in *. destruct reval; simpl; lia. }
  split; [done|]. erewrite contents_update; [|done..]. f_equal.
  unfold publish_slot, slot_of, publish. simpl. rewrite Ef, Es. by destruct reval.
Qed.

Lemma owns_fun c refresh k k' : owns c refresh k -> owns c refresh k' -> k = k'.
Proof.
  intros (i & e & Hi & (He & _ & <-) & _) (i' & e' & Hi' & (He' & _ & <-) & _). congruence.
Qed.

Lemma owns_cases c refresh :
  cache_inv c ->
  (exists k s, owns c refresh k /\ contents c !! k = Some s) \/ (forall k, ~ owns c refresh k).
Proof.
  intros Hc. destruct (rf_entry_index refresh) as [i|] eqn:Ei.
  2:{ right. intros k (? & ? & ? & _). congruence. }
  destruct (ca_entries c !! i) as [e|] eqn:Ee.
  2:{ right. intros k (? & ? & ? & (? & _) & _). congruence. }
  destruct (decide (ce_occupied e = true /\ ce_refreshing e = true /\
    ce_refresh_serial e = rf_serial refresh)) as [(? & ? & ?)|Hn].
  - left. assert (holds c i (ce_key e) e) by done. exists (ce_key e), (slot_of e).
    split; [by exists i, e|by eapply contents_holds].
  - right. intros k (? & ? & ? & (? & ? & _) & ? & ?). simplify_eq. tauto.
Qed.

(** A completion by anyone but the owner changes nothing. *)
Lemma complete_refresh_not_owner c refresh now success cacheable reval ttl grace payload :
  (forall k, ~ owns c refresh k) ->
  pg_oauth_cache_complete_refresh (Some c) (Some refresh) now success cacheable reval ttl grace
    payload = (false, Some c).
Proof.
  intros Hno. unfold pg_oauth_cache_complete_refresh.
  destruct (rf_entry_index refresh) as [i|] eqn:Ei; simpl; [|done].
  destruct (ca_entries c !! i) as [e|] eqn:Ee; simpl; [|done].
  destruct (rf_serial refresh =? 0); [done|].
  case_match eqn:Eg; [done|]. prop_bools. exfalso. apply (Hno (ce_key e)).
  exists i, e. split_and!; try done. lia.
Qed.

(** The owner's completion does what the map says, whatever its arguments. *)
Lemma complete_refresh_owner c refresh k s now success cacheable reval ttl grace payload :
  cache_inv c -> owns c refresh k -> contents c !! k = Some s ->
  now <= INT64_MAX -> ttl <= INT64_MAX -> grace <= INT64_MAX ->
  exists ok c1, pg_oauth_cache_complete_refresh (Some c) (Some refresh) now success cacheable
      reval ttl grace payload = (ok, Some c1) /\
    cache_inv c1 /\ capacity c1 = capacity c /\
    cc_next_refresh_serial (ca_control c1) = cc_next_refresh_serial (ca_control c) /\
    (ok, contents c1) = complete_spec (contents c) k s now success cacheable reval ttl grace payload.
Proof.
  intros Hc (i & e & Ei & Hh & Hr & Hser) Hs Hnow Httl Hgrace.
  rewrite (contents_holds _ _ _ _ Hc Hh) in Hs. injection Hs as <-.
  pose proof Hh as (Hi & Ho & Hk). pose proof (eo_serial _ (ci_entries _ Hc _ _ Hi) Hr) as Hs.
  destruct (release_ok _ _ _ _ Hc Hh Hr) as [Hci Hrel].
  unfold pg_oauth_cache_complete_refresh, complete_spec, times_ok.
  rewrite Ei. simpl. rewrite Hi. simpl. rewrite Ho, Hr, Hser, Z.eqb_refl. simpl.
  destruct (Z.eqb_spec (rf_serial refresh) 0); [lia|].
  assert (forall e', capacity (set_entry i e' c) = capacity c) as Hcap
    by (intros; apply length_insert).
  rewrite !(Z.leb_antisym _ 0).
  destruct (Z.ltb_spec now 0), (Z.ltb_spec ttl 0), (Z.ltb_spec grace 0); simpl.
  all: try (eexists _, _; split; [done|]; split_and!; [by apply inv_count|apply Hcap|done|
    by rewrite contents_count, Hrel]).
  destruct success; simpl.
  2:{ eexists _, _. split; [done|]. split_and!; [by apply inv_count|apply Hcap|done|].
      by rewrite contents_count, Hrel. }
  destruct cacheable; simpl.
  2:{ assert (cache_inv (set_entry i entry_zero c)) as Hz
        by (eapply inv_update; [done..|apply entry_zero_ok|done]).
      eexists _, _. split; [done|]. split_and!; [done|apply Hcap|done|]. f_equal.
      by eapply contents_clear. }
  destruct payload as [p|]; simpl.
  2:{ eexists _, _. split; [done|]. split_and!; [by apply inv_count|apply Hcap|done|].
      by rewrite contents_count, Hrel. }
  pose proof (zlen_nonneg p).
  destruct (Z.eqb_spec (zlen p) 0), (Z.ltb_spec PG_OAUTH_CACHE_MAX_PAYLOAD_SIZE (zlen p)),
    (Z.ltb_spec 0 (zlen p)), (Z.leb_spec (zlen p) PG_OAUTH_CACHE_MAX_PAYLOAD_SIZE);
    simpl; try lia.
  all: try (eexists _, _; split; [done|]; split_and!; [by apply inv_count|apply Hcap|done|
    by rewrite contents_count, Hrel]).
  destruct (publish_ok c i k e now reval ttl grace p Hc Hh) as [? Hpub]; [lia..|].
  eexists _, _. split; [done|]. split_and!; [done|apply Hcap|done|]. by f_equal.
Qed.

(** ** Reading *)

Lemma lookup_ok c k now st :
  cache_inv c -> valid_key (Some k) = true -> 0 <= now ->
  exists c1, cache_inv c1 /\ capacity c1 = capacity c /\
    cc_next_refresh_serial (ca_control c1) = cc_next_refresh_serial (ca_control c) /\
    match contents c !! k ≫= hit now st with
    | Some (payload, freshness) =>
        exists i, pg_oauth_cache_lookup (Some c) (Some k) now st = (freshness, Some i, Some c1) /\
          freshness <> PG_OAUTH_CACHE_MISS /\
          contents c1 = alter (touch_slot now) k (contents c) /\
          exists e, holds c1 i k e /\ ce_has_value e = true /\ ce_payload e = payload
    | None => pg_oauth_cache_lookup (Some c) (Some k) now st =
                (PG_OAUTH_CACHE_MISS, None, Some c1) /\ ca_entries c1 = ca_entries c
    end.
Proof.
  intros Hc Hvk Hnow. unfold pg_oauth_cache_lookup. rewrite Hvk. simpl negb.
  destruct (Z.ltb_spec now 0); [lia|]. simpl orb.
  pose proof (lookup_loop_contents c k now st Hc) as Hl.
  destruct (contents c !! k ≫= hit now st) as [[payload freshness]|].
  - destruct Hl as (i & e & Hh & Hv & Hp & -> & Hm). pose proof Hh as (Hi & Ho & Hk).
    assert (entry_ok (touch now e)) as Hok.
    { pose proof (ci_entries _ Hc _ _ Hi) as [? ? ? ? ? ? ?]. split; simpl; auto; congruence. }
    assert (cache_inv (set_entry i (touch now e) c)) as Hc' by by eapply inv_update.
    eexists. split; [|split; [|split; [|exists i; split; [done|]]]].
    + by apply inv_count.
    + apply length_insert.
    + done.
    + split; [done|]. split.
      * rewrite contents_count. erewrite contents_update; [|done..].
        apply map_eq. intros k'. destruct (decide (k' = k)) as [->|].
        -- by rewrite lookup_insert_eq, lookup_alter_eq, (contents_holds _ _ _ _ Hc Hh).
        -- by rewrite lookup_insert_ne, lookup_alter_ne.
      * exists (touch now e). split_and!; try done. split_and!; try done.
        simpl. rewrite list_lookup_insert_eq; [done|]. by eapply lookup_lt_Some.
  - rewrite Hl. eexists. split; [|split; [|split; [|split; [done|done]]]]; [by apply inv_count|done..].
Qed.

Lemma copy_payload_holds c i k e size :
  holds c i k e -> ce_has_value e = true -> zlen (ce_payload e) <= size ->
  pg_oauth_cache_copy_payload (Some c) (Some i) (Some size) =
    (PG_OAUTH_CACHE_COPY_OK, zlen (ce_payload e), Some (ce_payload e)).
Proof.
  intros (Hi & Ho & _) Hv Hs. unfold pg_oauth_cache_copy_payload, ce_payload_length. simpl.
  rewrite Hi, Ho, Hv. simpl. destruct (Z.ltb_spec size (zlen (ce_payload e))); [lia|done].
Qed.

Lemma is_refreshing_spec c k :
  cache_inv c -> valid_key (Some k) = true ->
  pg_oauth_cache_is_refreshing (Some c) (Some k) = true <->
  exists s owner, contents c !! k = Some s /\ sl_owner s = Some owner.
Proof.
  intros Hc Hvk. unfold pg_oauth_cache_is_refreshing. rewrite Hvk. simpl negb.
  destruct (head (List.filter (fun e => same_key e k) (ca_entries c))) as [e|] eqn:Eh.
  - assert (e ∈ ca_entries c /\ same_key e k = true) as [Hin Hs].
    { destruct (List.filter _ _) as [|e' l] eqn:Ef; simplify_eq/=.
      rewrite list_elem_of_In. apply (filter_In (fun e => same_key e k)). rewrite Ef. by left. }
    apply list_elem_of_lookup in Hin as [i Hi]. apply same_key_spec in Hs as [Ho Hk].
    assert (contents c !! k = Some (slot_of e)) as ->
      by (eapply contents_holds; [done|]; by split; [apply Hi|]).
    split.
    + intros Hr. eexists _, _. split; [done|]. unfold slot_of. simpl. by rewrite Hr.
    + intros (s & owner & [= <-] & Hown). unfold slot_of in Hown. simpl in Hown. by case_match.
  - split; [done|]. intros (s & owner & (i & e & (Hi & Ho & Hk) & _)%contents_lookup & _); [|done].
    exfalso. destruct (List.filter _ _) as [|e' l] eqn:Ef; [|done].
    assert (In e (List.filter (fun e => same_key e k) (ca_entries c))) as Hin.
    { apply filter_In. split; [|by apply same_key_spec].
      apply list_elem_of_In. by eapply list_elem_of_lookup_2. }
    by rewrite Ef in Hin.
Qed.

Lemma init_ok entries :
  entries <> [] ->
  exists c, pg_oauth_cache_init (Some entries) = Some c /\ cache_inv c /\
    contents c = ∅ /\ capacity c = length entries /\
    cc_next_refresh_serial (ca_control c) = 1.
Proof.
  intros Hne. unfold pg_oauth_cache_init. destruct (Z.eqb_spec (zlen entries) 0) as [E|_].
  { by apply zlen_nil in E. }
  assert (forall i e, replicate (length entries) entry_zero !! i = Some e -> e = entry_zero) as Hz.
  { intros i e [-> _]%lookup_replicate. done. }
  eexists. split; [done|]. assert (cache_inv {| ca_entries := replicate (length entries) entry_zero;
    ca_control := {| cc_next_refresh_serial := 1; cc_stats := stats_zero |} |}) as Hc.
  { split; simpl; [|..|done].
    - intros i e ->%Hz. apply entry_zero_ok.
    - intros i j ei ej ->%Hz _ Ho. done. }
  split_and!; [done| |unfold capacity; apply length_replicate|done].
  apply map_eq. intros k. rewrite lookup_empty. apply contents_none; [done|].
  intros i e (Hi & Ho & _). by apply Hz in Hi as ->.
Qed.

(** ** Properties *)

Module CacheExample.
Definition key : bytes := B "issuer-key".
Definition cache : PgOAuthCache :=
  default {| ca_entries := []; ca_control := {| cc_next_refresh_serial := 0; cc_stats := stats_zero |} |}
    (pg_oauth_cache_init (Some (replicate 8 entry_zero))).

Definition begun := pg_oauth_cache_begin_refresh (Some cache) (Some key) 100 false 0.
Definition refresh : PgOAuthCacheRefresh := snd (fst begun).
Definition claimed : PgOAuthCache := default cache (snd begun).
End CacheExample.

Lemma example_inv : cache_inv CacheExample.cache.
Proof.
  destruct (init_ok (replicate 8 entry_zero)) as (c & E & Hc & _); [done|].
  unfold CacheExample.cache. by rewrite E.
Qed.

Lemma example_claimed :
  cache_inv CacheExample.claimed /\ owns CacheExample.claimed CacheExample.refresh CacheExample.key.
Proof.
  destruct (begin_refresh_ok CacheExample.cache CacheExample.key 100 false 0 example_inv)
    as (r & h & c1 & E & []); [done..|].
  unfold CacheExample.claimed, CacheExample.refresh. fold CacheExample.begun in E.
  change (pg_oauth_cache_begin_refresh _ _ _ _ _) with CacheExample.begun in E.
  assert (r = fst (fst CacheExample.begun)) as Hr by (by rewrite E).
  rewrite E. simpl. split; [done|]. apply bo_owner0. rewrite Hr. by vm_compute.
Qed.

(** C22: a lookup answers from the map the cache stands for.  It reports a hit
    exactly when the key has a value that is still fresh (or, where the caller
    allows it, not past its stale limit); the payload then copied out of the
    reported slot is the value of that key; nothing but the time of last use
    changes; and on a miss no entry changes at all. *)
Theorem cache_lookup_refines c k now allow_stale size :
  cache_inv c -> valid_key (Some k) = true -> 0 <= now ->
  PG_OAUTH_CACHE_MAX_PAYLOAD_SIZE <= size ->
  exists c1, cache_inv c1 /\
    match contents c !! k ≫= hit now allow_stale with
    | Some (payload, freshness) =>
        exists i, pg_oauth_cache_lookup (Some c) (Some k) now allow_stale =
                    (freshness, Some i, Some c1) /\
          contents c1 = alter (touch_slot now) k (contents c) /\
          pg_oauth_cache_copy_payload (Some c1) (Some i) (Some size) =
            (PG_OAUTH_CACHE_COPY_OK, zlen payload, Some payload)
    | None => pg_oauth_cache_lookup (Some c) (Some k) now allow_stale =
                (PG_OAUTH_CACHE_MISS, None, Some c1) /\ contents c1 = contents c
    end.
Proof.
  intros Hc Hvk Hnow Hsize. destruct (lookup_ok c k now allow_stale Hc Hvk Hnow)
    as (c1 & Hc1 & _ & _ & Hl). exists c1. split; [done|].
  destruct (contents c !! k ≫= hit now allow_stale) as [[payload freshness]|].
  - destruct Hl as (i & E & _ & Hcon & e & Hh & Hv & <-). exists i. split_and!; try done.
    eapply copy_payload_holds; [done..|].
    pose proof (eo_payload _ (ci_entries _ Hc1 _ _ (proj1 Hh)) Hv). lia.
  - destruct Hl as [E Hent]. split; [done|]. unfold contents. by rewrite Hent.
Qed.

Lemma cache_lookup_refines_witness :
  exists c1, cache_inv c1 /\
    pg_oauth_cache_lookup (Some CacheExample.cache) (Some CacheExample.key) 5 true =
      (PG_OAUTH_CACHE_MISS, None, Some c1) /\ contents c1 = contents CacheExample.cache.
Proof.
  destruct (cache_lookup_refines CacheExample.cache CacheExample.key 5 true 65536 example_inv)
    as (c1 & Hc1 & H); [by vm_compute..|].
  exists c1. split; [exact Hc1|]. exact H.
Defined.

(** C21: beginning a refresh does what the map allows, and always answers.  A key
    being refreshed is never refreshed twice at a time; a refresh for an unknown
    key id waits for the cooldown; a new key takes a free slot or, only when the
    cache is full, the least recently used slot that is neither being refreshed
    nor usable even as stale; otherwise the cache reports that it is full.  Only
    a started refresh gets a handle, and that handle owns the key's refresh. *)
Theorem cache_begin_refines c k now unknown_kid cooldown :
  cache_inv c -> 0 <= now <= INT64_MAX -> 0 <= cooldown -> valid_key (Some k) = true ->
  exists result refresh c1,
    pg_oauth_cache_begin_refresh (Some c) (Some k) now unknown_kid cooldown =
      (result, refresh, Some c1) /\
    begin_ok c k now unknown_kid cooldown result refresh c1.
Proof. apply begin_refresh_ok. Qed.

Lemma cache_begin_refines_witness :
  exists result refresh c1,
    pg_oauth_cache_begin_refresh (Some CacheExample.cache) (Some CacheExample.key) 100 true 1000 =
      (result, refresh, Some c1) /\
    begin_ok CacheExample.cache CacheExample.key 100 true 1000 result refresh c1.
Proof.
  apply (cache_begin_refines CacheExample.cache CacheExample.key 100 true 1000 example_inv).
  - by vm_compute.
  - lia.
  - by vm_compute.
Defined.

(** C5: completing a refresh.  The owner's completion always ends the refresh,
    whatever its arguments are, and turns the map into the one
    [complete_spec] says: the new value with saturated expiry times, no value
    for an uncacheable answer, the last good value after a failure.  Anyone else
    (a stale, reused or forged handle) changes nothing. *)
Theorem cache_complete_refines c refresh now success cacheable revalidation ttl grace payload :
  cache_inv c -> now <= INT64_MAX -> ttl <= INT64_MAX -> grace <= INT64_MAX ->
  exists ok c1, pg_oauth_cache_complete_refresh (Some c) (Some refresh) now success cacheable
      revalidation ttl grace payload = (ok, Some c1) /\ cache_inv c1 /\
    ((forall k, ~ owns c refresh k) -> ok = false /\ c1 = c) /\
    (forall k s, owns c refresh k -> contents c !! k = Some s ->
       (ok, contents c1) = complete_spec (contents c) k s now success cacheable revalidation
                             ttl grace payload /\
       pg_oauth_cache_is_refreshing (Some c1) (Some k) = false).
Proof.
  intros Hc Hnow Httl Hgrace.
  destruct (owns_cases c refresh Hc) as [(k & s & Hown & Hs)|Hno].
  - destruct (complete_refresh_owner c refresh k s now success cacheable revalidation ttl grace
      payload Hc Hown Hs Hnow Httl Hgrace) as (ok & c1 & E & Hc1 & _ & _ & Hspec).
    exists ok, c1. split_and!; [done..|by intros Hn; destruct (Hn k)|].
    intros k' s' Hown' Hs'.
    assert (k' = k) as -> by by eapply owns_fun. assert (s' = s) as -> by congruence.
    split; [done|].
    apply not_true_iff_false. destruct (valid_key (Some k)) eqn:Hvk.
    2:{ unfold pg_oauth_cache_is_refreshing. by rewrite Hvk. }
    rewrite is_refreshing_spec by done. intros (s1 & owner & Hs1 & Ho1).
    apply (f_equal snd) in Hspec. simpl in Hspec. rewrite Hspec in Hs1. revert Hs1 Ho1.
    unfold complete_spec, release_slot.
    repeat case_match; simpl; rewrite ?lookup_delete_eq, ?lookup_insert_eq; intros; simplify_eq/=.
  - eexists _, _. split; [by apply complete_refresh_not_owner|]. split_and!; [done..|].
    intros k s Hown. by destruct (Hno k).
Qed.

Lemma cache_complete_refines_witness :
  exists ok c1, pg_oauth_cache_complete_refresh (Some CacheExample.claimed)
      (Some CacheExample.refresh) 200 true true false 3600 60 (Some (B "{}")) = (ok, Some c1) /\
    pg_oauth_cache_is_refreshing (Some c1) (Some CacheExample.key) = false.
Proof.
  destruct example_claimed as [Hc Ho].
  destruct (cache_complete_refines CacheExample.claimed CacheExample.refresh 200 true true false
    3600 60 (Some (B "{}")) Hc) as (ok & c1 & E & _ & _ & Hown); [by vm_compute..|].
  exists ok, c1. split; [exact E|].
  destruct Ho as (i & e & Hi & Hh & Hr).
  apply (Hown CacheExample.key (slot_of e)); [exists i, e; auto|].
  apply (contents_holds _ _ _ _ Hc Hh).
Defined.
