(* ===== verification/CacheKey.v ===== *)
(** * Cache keys (src/cache_key.c, src/cache_key.h)

    The bytes under which a metadata document or a key set is cached: every
    part of the policy that may influence the validation of the cached value,
    each in a self-delimiting encoding.  [cache_key_injective] proves that two
    policies share a key only if they agree on all of it. *)

From S2P Require Import Prelude Envelope CacheState.

#[local] Ltac Zify.zify_post_hook ::= Z.div_mod_to_equations.

(** ** Data *)

Definition PG_OAUTH_CACHE_KEY_VERSION : Z := 5.
Definition PG_OAUTH_CACHE_RESOURCE_METADATA : Z := 1.
Definition PG_OAUTH_CACHE_RESOURCE_JWKS : Z := 2.

Inductive PgOAuthCacheKeyError :=
| PG_OAUTH_CACHE_KEY_OK
| PG_OAUTH_CACHE_KEY_INVALID_ARGUMENT
| PG_OAUTH_CACHE_KEY_TOO_LARGE.

#[global] Instance cache_key_error_eq_dec : EqDecision PgOAuthCacheKeyError.
Proof. solve_decision. Defined.

Record PgOAuthCacheKeyPolicy := {
  ck_resource : Z;
  ck_issuer : option bytes;
  ck_metadata_url : option bytes;
  ck_jwks_url : option bytes;
  ck_policy_name : option bytes;
  ck_required_scopes : option bytes;
  ck_audiences : option bytes;
  ck_allowed_token_types : Z;
  ck_allow_missing_token_type : bool;
  ck_identity_claim : option bytes;
  ck_role_claim : option bytes;
  ck_allowed_jwks_hosts : option bytes;
  ck_ca_file : option bytes;
  ck_allowed_algorithms : Z;
  ck_clock_skew_ms : Z;
  ck_max_token_size : Z;
  ck_max_metadata_size : Z;
  ck_max_jwks_size : Z;
  ck_max_jwks_keys : Z;
  ck_minimum_rsa_bits : Z;
  ck_maximum_rsa_bits : Z;
  ck_jwks_stale_grace_ms : Z;
  ck_metadata_default_ttl_ms : Z;
  ck_jwks_default_ttl_ms : Z;
  ck_cache_max_ttl_ms : Z;
  ck_unknown_kid_refresh_cooldown_ms : Z;
  ck_allow_insecure_http : bool
}.

(** ** Definitions

    A [PgOAuthCacheKey] is the used part of its buffer. *)

Definition append_bytes (value : bytes) (key : bytes) : option bytes :=
  if PG_OAUTH_CACHE_MAX_KEY_SIZE - zlen key <? zlen value then None else Some (key ++ value).

Definition append_u8 (value : Z) (key : bytes) : option bytes := append_bytes [zb value] key.

Definition u32_bytes (value : Z) : bytes :=
  [zb (Z.shiftr value 24); zb (Z.shiftr value 16); zb (Z.shiftr value 8); zb value].

Definition append_u32 (value : Z) (key : bytes) : option bytes :=
  append_bytes (u32_bytes value) key.

Definition u64_bytes (value : Z) : bytes :=
  map (fun i => zb (Z.shiftr value (56 - i * 8))) [0; 1; 2; 3; 4; 5; 6; 7].

Definition append_u64 (value : Z) (key : bytes) : option bytes :=
  append_bytes (u64_bytes value) key.

Definition append_string (value : option bytes) (key : bytes) : option bytes :=
  match value with
  | None => None
  | Some value =>
      let length := Z.min PG_OAUTH_CACHE_MAX_KEY_SIZE (strlen value) in
      if (length =? PG_OAUTH_CACHE_MAX_KEY_SIZE) || (UINT32_MAX <? length) then None
      else match append_u32 length key with
           | None => None
           | Some key => append_bytes (take (Z.to_nat length) (c_str value)) key
           end
  end.

Definition magic : bytes := B "PGOC".

Definition cache_key_policy_invalid (policy : PgOAuthCacheKeyPolicy) : bool :=
  let null (s : option bytes) := negb (bool_decide (is_Some s)) in
  (negb (ck_resource policy =? PG_OAUTH_CACHE_RESOURCE_METADATA) &&
   negb (ck_resource policy =? PG_OAUTH_CACHE_RESOURCE_JWKS)) ||
  negb (is_nonempty (ck_issuer policy)) || negb (is_nonempty (ck_metadata_url policy)) ||
  ((ck_resource policy =? PG_OAUTH_CACHE_RESOURCE_JWKS) &&
   negb (is_nonempty (ck_jwks_url policy))) ||
  null (ck_policy_name policy) || null (ck_required_scopes policy) ||
  null (ck_audiences policy) || (ck_allowed_token_types policy =? 0) ||
  negb (Z.land (ck_allowed_token_types policy) (Z.lnot PG_OAUTH_TOKEN_TYPES_ALL) =? 0) ||
  null (ck_identity_claim policy) || null (ck_role_claim policy) ||
  null (ck_allowed_jwks_hosts policy) || null (ck_ca_file policy) ||
  (ck_allowed_algorithms policy =? 0) || (ck_max_token_size policy =? 0) ||
  (ck_max_metadata_size policy =? 0) || (ck_max_jwks_size policy =? 0) ||
  (ck_max_jwks_keys policy =? 0) || (ck_minimum_rsa_bits policy =? 0) ||
  (ck_maximum_rsa_bits policy <? ck_minimum_rsa_bits policy).

(** The calls that write the key, in order. *)
Definition key_writers (policy : PgOAuthCacheKeyPolicy) : list (bytes -> option bytes) :=
  [append_bytes magic;
   append_u8 PG_OAUTH_CACHE_KEY_VERSION;
   append_u8 (ck_resource policy);
   append_string (ck_issuer policy);
   append_string (ck_metadata_url policy);
   append_string (Some (default [] (ck_jwks_url policy)));
   append_string (ck_policy_name policy);
   append_string (ck_required_scopes policy);
   append_string (ck_audiences policy);
   append_u8 (ck_allowed_token_types policy);
   append_u8 (if ck_allow_missing_token_type policy then 1 else 0);
   append_string (ck_identity_claim policy);
   append_string (ck_role_claim policy);
   append_string (ck_allowed_jwks_hosts policy);
   append_string (ck_ca_file policy);
   append_u32 (ck_allowed_algorithms policy);
   append_u32 (ck_clock_skew_ms policy);
   append_u32 (ck_max_token_size policy);
   append_u32 (ck_max_metadata_size policy);
   append_u32 (ck_max_jwks_size policy);
   append_u32 (ck_max_jwks_keys policy);
   append_u32 (ck_minimum_rsa_bits policy);
   append_u32 (ck_maximum_rsa_bits policy);
   append_u64 (ck_jwks_stale_grace_ms policy);
   append_u64 (ck_metadata_default_ttl_ms policy);
   append_u64 (ck_jwks_default_ttl_ms policy);
   append_u64 (ck_cache_max_ttl_ms policy);
   append_u64 (ck_unknown_kid_refresh_cooldown_ms policy);
   append_u8 (if ck_allow_insecure_http policy then 1 else 0)].

(** Run the calls until one fails. *)
Fixpoint write_all (writers : list (bytes -> option bytes)) (key : bytes) : option bytes :=
  match writers with
  | [] => Some key
  | writer :: writers =>
      match writer key with
      | None => None
      | Some key => write_all writers key
      end
  end.

Definition pg_oauth_cache_key_build (policy : option PgOAuthCacheKeyPolicy)
  (key : option bytes) : PgOAuthCacheKeyError * option bytes :=
  match key with
  | None => (PG_OAUTH_CACHE_KEY_INVALID_ARGUMENT, None)
  | Some _ =>
      match policy with
      | None => (PG_OAUTH_CACHE_KEY_INVALID_ARGUMENT, Some [])
      | Some policy =>
          if cache_key_policy_invalid policy then (PG_OAUTH_CACHE_KEY_INVALID_ARGUMENT, Some [])
          else match write_all (key_writers policy) [] with
          | None => (PG_OAUTH_CACHE_KEY_TOO_LARGE, Some [])
          | Some key => (PG_OAUTH_CACHE_KEY_OK, Some key)
          end
      end
  end.

(** The text after the switch is for values outside the enumeration, which no
    caller passes. *)
Definition pg_oauth_cache_key_error_code (error : PgOAuthCacheKeyError) : bytes :=
  match error with
  | PG_OAUTH_CACHE_KEY_OK => B "cache_key_ok"
  | PG_OAUTH_CACHE_KEY_INVALID_ARGUMENT => B "cache_key_invalid_argument"
  | PG_OAUTH_CACHE_KEY_TOO_LARGE => B "cache_key_too_large"
  end.

(** ** Encodings *)

(** A field: how it is written, and what can be told from its bytes. *)
Inductive field :=
| FBytes (value : bytes)
| FU8 (value : Z)
| FU32 (value : Z)
| FU64 (value : Z)
| FString (value : bytes).

Definition field_bytes (f : field) : bytes :=
  match f with
  | FBytes v => v
  | FU8 v => [zb v]
  | FU32 v => u32_bytes v
  | FU64 v => u64_bytes v
  | FString s => u32_bytes (zlen s) ++ s
  end.

Definition field_ok (f : field) : Prop :=
  match f with
  | FBytes _ => True
  | FU8 v => 0 <= v < 2 ^ 8
  | FU32 v => 0 <= v < 2 ^ 32
  | FU64 v => 0 <= v < 2 ^ 64
  | FString s => zlen s < 2 ^ 32
  end.

Definition text_of (s : option bytes) : bytes := c_str (default [] s).

Definition bit (b : bool) : Z := if b then 1 else 0.

(** The fields of a policy, as the key has them. *)
Definition key_fields (p : PgOAuthCacheKeyPolicy) : list field :=
  [FBytes magic; FU8 PG_OAUTH_CACHE_KEY_VERSION; FU8 (ck_resource p);
   FString (text_of (ck_issuer p)); FString (text_of (ck_metadata_url p));
   FString (text_of (ck_jwks_url p)); FString (text_of (ck_policy_name p));
   FString (text_of (ck_required_scopes p)); FString (text_of (ck_audiences p));
   FU8 (ck_allowed_token_types p); FU8 (bit (ck_allow_missing_token_type p));
   FString (text_of (ck_identity_claim p)); FString (text_of (ck_role_claim p));
   FString (text_of (ck_allowed_jwks_hosts p)); FString (text_of (ck_ca_file p));
   FU32 (ck_allowed_algorithms p); FU32 (ck_clock_skew_ms p); FU32 (ck_max_token_size p);
   FU32 (ck_max_metadata_size p); FU32 (ck_max_jwks_size p); FU32 (ck_max_jwks_keys p);
   FU32 (ck_minimum_rsa_bits p); FU32 (ck_maximum_rsa_bits p);
   FU64 (ck_jwks_stale_grace_ms p); FU64 (ck_metadata_default_ttl_ms p);
   FU64 (ck_jwks_default_ttl_ms p); FU64 (ck_cache_max_ttl_ms p);
   FU64 (ck_unknown_kid_refresh_cooldown_ms p); FU8 (bit (ck_allow_insecure_http p))].

Definition encoding (p : PgOAuthCacheKeyPolicy) : bytes :=
  concat (map field_bytes (key_fields p)).

Lemma be_u32 v : 0 <= v < 2 ^ 32 -> be (u32_bytes v) = v.
Proof.
  intros Hv. unfold be, u32_bytes. cbn [foldl]. rewrite !bz_zb, !Z.shiftr_div_pow2 by done.
  change (2 ^ 24) with (2 ^ 8 * 2 ^ 8 * 2 ^ 8). change (2 ^ 16) with (2 ^ 8 * 2 ^ 8).
  change (2 ^ 8) with 256. rewrite <- !Z.div_div by done. lia.
Qed.

Lemma be_u64 v : 0 <= v < 2 ^ 64 -> be (u64_bytes v) = v.
Proof.
  intros Hv. unfold be, u64_bytes. cbn [map foldl]. rewrite !bz_zb, !Z.shiftr_div_pow2 by done.
  cbn [Z.sub Z.mul Z.add Z.opp Pos.mul]. 
  replace (2 ^ (56 - 0 * 8)) with (256 * 256 * 256 * 256 * 256 * 256 * 256) by done.
  replace (2 ^ (56 - 1 * 8)) with (256 * 256 * 256 * 256 * 256 * 256) by done.
  replace (2 ^ (56 - 2 * 8)) with (256 * 256 * 256 * 256 * 256) by done.
  replace (2 ^ (56 - 3 * 8)) with (256 * 256 * 256 * 256) by done.
  replace (2 ^ (56 - 4 * 8)) with (256 * 256 * 256) by done.
  replace (2 ^ (56 - 5 * 8)) with (256 * 256) by done.
  replace (2 ^ (56 - 6 * 8)) with 256 by done.
  replace (2 ^ (56 - 7 * 8)) with 1 by done.
  rewrite <- !Z.div_div, Z.div_1_r by done. lia.
Qed.

Lemma app_inj_len {A} (a b r s : list A) :
  length a = length b -> a ++ r = b ++ s -> a = b /\ r = s.
Proof. intros. by apply app_inj_1. Qed.

(** The bytes of a field determine it and where it ends. *)
Lemma field_prefix f g r s :
  field_ok f -> field_ok g ->
  match f, g with
  | FBytes a, FBytes b => length a = length b
  | FU8 _, FU8 _ | FU32 _, FU32 _ | FU64 _, FU64 _ | FString _, FString _ => True
  | _, _ => False
  end ->
  field_bytes f ++ r = field_bytes g ++ s -> f = g /\ r = s.
Proof.
  destruct f as [a|a|a|a|a], g as [b|b|b|b|b]; try done; cbn [field_bytes]; intros Ha Hb Hl E.
  - apply app_inj_len in E as [-> ->]; done.
  - injection E as E ->. split; [|done]. f_equal. apply (f_equal bz) in E.
    rewrite !bz_zb in E. simpl in Ha, Hb. lia.
  - apply app_inj_len in E as [E ->]; [|done]. split; [|done].
    apply (f_equal be) in E. rewrite !be_u32 in E by done. by subst.
  - apply app_inj_len in E as [E ->]; [|done]. split; [|done].
    apply (f_equal be) in E. rewrite !be_u64 in E by done. by subst.
  - rewrite <- !app_assoc in E. apply app_inj_len in E as [E1 E]; [|done].
    apply (f_equal be) in E1. pose proof (zlen_nonneg a). pose proof (zlen_nonneg b).
    rewrite !be_u32 in E1 by done. apply app_inj_len in E as [-> ->]; [done|]. unfold zlen in E1. lia.
Qed.

(** The same sequence of kinds of fields. *)
Inductive alike : list field -> list field -> Prop :=
| alike_nil : alike [] []
| alike_cons f g fs gs :
    match f, g with
    | FBytes a, FBytes b => length a = length b
    | FU8 _, FU8 _ | FU32 _, FU32 _ | FU64 _, FU64 _ | FString _, FString _ => True
    | _, _ => False
    end -> alike fs gs -> alike (f :: fs) (g :: gs).

Lemma fields_injective fs gs :
  alike fs gs -> Forall field_ok fs -> Forall field_ok gs ->
  concat (map field_bytes fs) = concat (map field_bytes gs) -> fs = gs.
Proof.
  induction 1 as [|f g fs gs Hfg _ IH]; [done|]. rewrite !Forall_cons. intros [Hf Hfs] [Hg Hgs] E.
  simpl in E. apply field_prefix in E as [-> E]; [|done..]. f_equal. auto.
Qed.

(** ** Writing *)

Definition writes (writer : bytes -> option bytes) (value : bytes) : Prop :=
  forall key, zlen key <= PG_OAUTH_CACHE_MAX_KEY_SIZE ->
  writer key = if zlen (key ++ value) <=? PG_OAUTH_CACHE_MAX_KEY_SIZE
               then Some (key ++ value) else None.

Lemma append_bytes_writes value : writes (append_bytes value) value.
Proof.
  intros key Hk. unfold append_bytes. rewrite zlen_app.
  destruct (Z.ltb_spec (PG_OAUTH_CACHE_MAX_KEY_SIZE - zlen key) (zlen value)),
    (Z.leb_spec (zlen key + zlen value) PG_OAUTH_CACHE_MAX_KEY_SIZE); (done || lia).
Qed.

Lemma append_string_writes value :
  writes (append_string (Some value)) (u32_bytes (strlen value) ++ c_str value).
Proof.
  intros key Hk. unfold append_string, strlen. set (s := c_str value).
  pose proof (zlen_nonneg s). pose proof (zlen_nonneg key).
  assert (zlen (u32_bytes (zlen s)) = 4) as H4 by done. rewrite !zlen_app, H4.
  change UINT32_MAX with 4294967295. unfold PG_OAUTH_CACHE_MAX_KEY_SIZE in *.
  destruct (Z.le_gt_cases 4096 (zlen s)).
  - rewrite Z.min_l by done. simpl orb.
    destruct (Z.leb_spec (zlen key + (4 + zlen s)) 4096); [lia|done].
  - rewrite Z.min_r by lia. destruct (Z.eqb_spec (zlen s) 4096); [lia|].
    destruct (Z.ltb_spec 4294967295 (zlen s)); [lia|]. simpl orb. cbv iota.
    unfold append_u32. rewrite append_bytes_writes, zlen_app, H4 by done.
    unfold PG_OAUTH_CACHE_MAX_KEY_SIZE. destruct (Z.leb_spec (zlen key + 4) 4096).
    + rewrite append_bytes_writes by (unfold PG_OAUTH_CACHE_MAX_KEY_SIZE; rewrite zlen_app, H4; lia).
      unfold PG_OAUTH_CACHE_MAX_KEY_SIZE. rewrite take_ge by (unfold zlen; lia).
      rewrite <- app_assoc, !zlen_app, H4. done.
    + destruct (Z.leb_spec (zlen key + (4 + zlen s)) 4096); [lia|done].
Qed.

Lemma write_all_spec writers values key :
  Forall2 writes writers values -> zlen key <= PG_OAUTH_CACHE_MAX_KEY_SIZE ->
  write_all writers key =
  if zlen (key ++ concat values) <=? PG_OAUTH_CACHE_MAX_KEY_SIZE
  then Some (key ++ concat values) else None.
Proof.
  intros Hw. revert key. induction Hw as [|w v ws vs Hw _ IH]; intros key Hk; simpl.
  { rewrite app_nil_r. by destruct (Z.leb_spec (zlen key) PG_OAUTH_CACHE_MAX_KEY_SIZE); [|lia]. }
  rewrite Hw by done. pose proof (zlen_nonneg (concat vs)). rewrite app_assoc.
  destruct (Z.leb_spec (zlen (key ++ v)) PG_OAUTH_CACHE_MAX_KEY_SIZE); [by apply IH|].
  rewrite (zlen_app (key ++ v)).
  destruct (Z.leb_spec (zlen (key ++ v) + zlen (concat vs)) PG_OAUTH_CACHE_MAX_KEY_SIZE); [lia|done].
Qed.

Definition settings_present (p : PgOAuthCacheKeyPolicy) : Prop :=
  is_Some (ck_issuer p) /\ is_Some (ck_metadata_url p) /\ is_Some (ck_policy_name p) /\
  is_Some (ck_required_scopes p) /\ is_Some (ck_audiences p) /\ is_Some (ck_identity_claim p) /\
  is_Some (ck_role_claim p) /\ is_Some (ck_allowed_jwks_hosts p) /\ is_Some (ck_ca_file p).

Lemma nonempty_some s : is_nonempty s = true -> is_Some s.
Proof. destruct s; [eauto|done]. Qed.

Lemma policy_valid_present p : cache_key_policy_invalid p = false -> settings_present p.
Proof.
  unfold cache_key_policy_invalid, settings_present. intros Hv. prop_bools.
  split_and!; (done || by apply nonempty_some).
Qed.

Lemma string_writes s :
  is_Some s -> writes (append_string s) (field_bytes (FString (text_of s))).
Proof. intros [v ->]. apply append_string_writes. Qed.

Lemma key_writers_spec p :
  settings_present p -> Forall2 writes (key_writers p) (map field_bytes (key_fields p)).
Proof.
  intros Hp. unfold settings_present in Hp. destruct_and? Hp.
  unfold key_writers, key_fields. cbn [map]. repeat (apply Forall2_cons_2).
  all: first [by apply string_writes|apply append_bytes_writes|apply append_string_writes|
    by constructor].
Qed.

(** ** The ranges of the machine integers in a policy *)
Record policy_ranges (p : PgOAuthCacheKeyPolicy) : Prop := {
  pr_resource : 0 <= ck_resource p < 2 ^ 8;
  pr_types : 0 <= ck_allowed_token_types p < 2 ^ 8;
  pr_u32 : Forall (fun v => 0 <= v < 2 ^ 32)
    [ck_allowed_algorithms p; ck_clock_skew_ms p; ck_max_token_size p; ck_max_metadata_size p;
     ck_max_jwks_size p; ck_max_jwks_keys p; ck_minimum_rsa_bits p; ck_maximum_rsa_bits p];
  pr_u64 : Forall (fun v => 0 <= v < 2 ^ 64)
    [ck_jwks_stale_grace_ms p; ck_metadata_default_ttl_ms p; ck_jwks_default_ttl_ms p;
     ck_cache_max_ttl_ms p; ck_unknown_kid_refresh_cooldown_ms p]
}.

Lemma string_fields_small fs s :
  FString s ∈ fs -> zlen (concat (map field_bytes fs)) <= PG_OAUTH_CACHE_MAX_KEY_SIZE ->
  zlen s < 2 ^ 32.
Proof.
  intros Hin. apply list_elem_of_split in Hin as (l1 & l2 & ->).
  rewrite map_app, concat_app. cbn [map concat field_bytes]. rewrite !zlen_app.
  pose proof (zlen_nonneg (concat (map field_bytes l1))).
  pose proof (zlen_nonneg (concat (map field_bytes l2))).
  pose proof (zlen_nonneg (u32_bytes (zlen s))). unfold PG_OAUTH_CACHE_MAX_KEY_SIZE. lia.
Qed.

Lemma key_fields_ok p :
  policy_ranges p -> zlen (encoding p) <= PG_OAUTH_CACHE_MAX_KEY_SIZE ->
  Forall field_ok (key_fields p).
Proof.
  intros [Hr Ht H32 H64] Hl. rewrite Forall_forall in H32, H64.
  assert (forall s, FString s ∈ key_fields p -> field_ok (FString s)) as Hs
    by (intros s Hin; by eapply string_fields_small).
  unfold key_fields in *. repeat (apply Forall_cons; split); try done.
  all: try (apply H32, list_elem_of_In; simpl; tauto).
  all: try (apply H64, list_elem_of_In; simpl; tauto).
  all: try (apply Hs, list_elem_of_In; simpl; tauto).
  all: try (unfold field_ok, bit; case_match; lia).
Qed.

Lemma build_ok p old k :
  pg_oauth_cache_key_build (Some p) (Some old) = (PG_OAUTH_CACHE_KEY_OK, Some k) <->
  cache_key_policy_invalid p = false /\ k = encoding p /\
  zlen (encoding p) <= PG_OAUTH_CACHE_MAX_KEY_SIZE.
Proof.
  unfold pg_oauth_cache_key_build. destruct (cache_key_policy_invalid p) eqn:Ev.
  { split; [done|]. by intros [? _]. }
  rewrite (write_all_spec _ _ [] (key_writers_spec p (policy_valid_present p Ev))) by done.
  rewrite app_nil_l. fold (encoding p).
  destruct (Z.leb_spec (zlen (encoding p)) PG_OAUTH_CACHE_MAX_KEY_SIZE).
  - split; [by intros [= <-]|by intros (_ & -> & _)].
  - split; [done|]. intros (_ & _ & ?). lia.
Qed.

(** The size of a key: 121 bytes and the texts. *)
Lemma encoding_size p :
  zlen (encoding p) =
  121 + zlen (text_of (ck_issuer p)) + zlen (text_of (ck_metadata_url p)) +
  zlen (text_of (ck_jwks_url p)) + zlen (text_of (ck_policy_name p)) +
  zlen (text_of (ck_required_scopes p)) + zlen (text_of (ck_audiences p)) +
  zlen (text_of (ck_identity_claim p)) + zlen (text_of (ck_role_claim p)) +
  zlen (text_of (ck_allowed_jwks_hosts p)) + zlen (text_of (ck_ca_file p)).
Proof.
  unfold encoding, key_fields. cbn [map concat field_bytes].
  assert (forall v, zlen (u32_bytes v) = 4) as H32 by done.
  assert (forall v, zlen (u64_bytes v) = 8) as H64 by done.
  assert (forall v, zlen [zb v] = 1) as H8 by done.
  rewrite !zlen_app, !H32, !H64, !H8. change (zlen magic) with 4. change (zlen []) with 0. lia.
Qed.

(** ** Properties *)

Module CacheKeyExample.
(** [name] is the buffer of the policy name. *)
Definition policy (name : bytes) : PgOAuthCacheKeyPolicy :=
  {| ck_resource := 2; ck_issuer := Some (B "https://idp");
     ck_metadata_url := Some (B "https://idp/.well-known/openid-configuration");
     ck_jwks_url := Some (B "https://idp/jwks"); ck_policy_name := Some name;
     ck_required_scopes := Some (B "db"); ck_audiences := Some (B "postgres");
     ck_allowed_token_types := 3; ck_allow_missing_token_type := false;
     ck_identity_claim := Some (B "sub"); ck_role_claim := Some (B "");
     ck_allowed_jwks_hosts := Some (B ""); ck_ca_file := Some (B "");
     ck_allowed_algorithms := 7; ck_clock_skew_ms := 30000; ck_max_token_size := 16384;
     ck_max_metadata_size := 65536; ck_max_jwks_size := 65536; ck_max_jwks_keys := 64;
     ck_minimum_rsa_bits := 2048; ck_maximum_rsa_bits := 8192; ck_jwks_stale_grace_ms := 0;
     ck_metadata_default_ttl_ms := 300000; ck_jwks_default_ttl_ms := 300000;
     ck_cache_max_ttl_ms := 3600000; ck_unknown_kid_refresh_cooldown_ms := 30000;
     ck_allow_insecure_http := false |}.
End CacheKeyExample.

(** C23: cache keys separate policies.  Two valid policies get the same key only
    if they agree on every field: resource, issuer, both URLs, policy name,
    scopes, audiences, claims, hosts, CA file, algorithms, limits, lifetimes and
    flags (strings as C strings, an absent JWKS URL counting as empty).  A value
    cached under one policy is therefore never used under another. *)
Theorem cache_key_injective p q old old' k :
  policy_ranges p -> policy_ranges q ->
  pg_oauth_cache_key_build (Some p) (Some old) = (PG_OAUTH_CACHE_KEY_OK, Some k) ->
  pg_oauth_cache_key_build (Some q) (Some old') = (PG_OAUTH_CACHE_KEY_OK, Some k) ->
  key_fields p = key_fields q.
Proof.
  intros Hp Hq (_ & -> & Hlp)%build_ok (_ & E & Hlq)%build_ok.
  apply fields_injective; [|by apply key_fields_ok..|done].
  unfold key_fields. repeat (apply alike_cons; [done|]). apply alike_nil.
Qed.

Lemma cache_key_injective_witness :
  key_fields (CacheKeyExample.policy []) = key_fields (CacheKeyExample.policy [x00; x61]).
Proof.
  apply (cache_key_injective (CacheKeyExample.policy []) (CacheKeyExample.policy [x00; x61]) [] []
    (encoding (CacheKeyExample.policy []))).
  1,2: split; repeat constructor; vm_compute; (discriminate || reflexivity).
  all: vm_compute; reflexivity.
Defined.

(** Building a key is total and fails closed.  It succeeds exactly for valid
    policies whose encoding fits in the key buffer, the result is then a key the
    cache accepts, and in every other case the key is left empty. *)
Theorem cache_key_build_total policy old :
  let '(error, key) := pg_oauth_cache_key_build policy (Some old) in
  (error = PG_OAUTH_CACHE_KEY_OK <->
     exists p, policy = Some p /\ cache_key_policy_invalid p = false /\
       zlen (encoding p) <= PG_OAUTH_CACHE_MAX_KEY_SIZE) /\
  (error = PG_OAUTH_CACHE_KEY_OK -> valid_key key = true) /\
  (error <> PG_OAUTH_CACHE_KEY_OK -> key = Some []).
Proof.
  destruct (pg_oauth_cache_key_build policy (Some old)) as [error key] eqn:E.
  destruct policy as [p|]; [|unfold pg_oauth_cache_key_build in E; simplify_eq; naive_solver].
  assert (exists k, key = Some k) as [k ->].
  { unfold pg_oauth_cache_key_build in E. repeat case_match; simplify_eq; eauto. }
  pose proof (build_ok p old k) as Hok. rewrite E in Hok. split_and!.
  - split.
    + intros ->. destruct (proj1 Hok eq_refl) as (? & _ & ?). eauto.
    + intros (? & [= <-] & Hv & Hl). 
      pose proof (proj2 (build_ok p old (encoding p)) (conj Hv (conj eq_refl Hl))). congruence.
  - intros ->. destruct (proj1 Hok eq_refl) as (_ & -> & Hl). apply valid_key_some. split; [|done].
    unfold encoding, key_fields. cbn [map concat]. rewrite zlen_app.
    match goal with |- context [zlen ?l + zlen ?r] => pose proof (zlen_nonneg r) end.
    change (zlen (field_bytes (FBytes magic))) with 4. lia.
  - intros Hne. unfold pg_oauth_cache_key_build in E. repeat case_match; by simplify_eq.
Qed.
