(* ===== verification/Policy.v ===== *)
(** * Configuration and policy (src/config.c, src/hba_policy.c, src/policy.c)

    The settings the module defines, the inputs of the matched HBA rule, and
    the policy built from both.  [settings_ok] says which settings make a policy;
    [policy_build_correct] proves the code agrees. *)

From S2P Require Import Prelude Envelope Claims.

(** ** Lists of settings

    The loops of policy.c over comma-separated settings trim an entry, check
    it, and reject a comma at the end of the text. *)

Section CheckedList.
Context {St R : Type} (step : St -> bytes -> option St) (bad : R) (finish : St -> R).

Definition list_body (st : St) (entry : bytes) (ends_in_comma : bool) : St + R :=
  match step st (trim_by isspace entry) with
  | None => inr bad
  | Some st => if ends_in_comma then inr bad else inl st
  end.

Definition list_loop (value : bytes) (st : St) : R :=
  default bad (comma_loop list_body finish (S (length value)) value st).

Fixpoint steps (st : St) (entries : list bytes) : option St :=
  match entries with
  | [] => Some st
  | entry :: entries =>
      match step st entry with
      | None => None
      | Some st => steps st entries
      end
  end.

Hypothesis empty_entry : forall st, step st [] = None.

(** Enough fuel is one more than the length; the loop is a fold. *)
Lemma list_loop_spec value st :
  value <> [] ->
  list_loop value st =
  match steps st (map (trim_by isspace) (split_on comma value)) with
  | None => bad
  | Some st => finish st
  end.
Proof.
  intros Hne. unfold list_loop. rewrite comma_loop_segments by lia. simpl default.
  assert (split_on comma value <> [[]]) as Hs by by rewrite split_on_nil_iff.
  pose proof (split_on_nonempty comma value) as Hn. clear Hne.
  revert st. induction (split_on comma value) as [|item segs IH]; intros st; [done|].
  assert (segment_pass list_body finish (item :: segs) st =
    match list_body st item (bool_decide (segs = [[]])) with
    | inr r => r | inl st => segment_pass list_body finish segs st end) as ->.
  { destruct item, segs; done. }
  unfold list_body at 1. simpl steps. destruct (step st (trim_by isspace item)) as [st'|]; [|done].
  case_bool_decide as Hseg.
  - subst segs. simpl. by rewrite empty_entry.
  - destruct segs as [|item' segs]; [done|]. by apply IH.
Qed.
End CheckedList.

Definition entries_of (value : bytes) : list bytes :=
  map (trim_by isspace) (split_on comma value).

(** ** Data *)

Definition PG_OAUTH_MAX_AUDIENCES : Z := 16.
Definition PG_OAUTH_MAX_AUTHN_CLAIM_LENGTH : Z := 128.
Definition PG_OAUTH_MAX_JWKS_HOSTS : Z := 16.
Definition PG_OAUTH_MAX_HOST_LENGTH : Z := 253.
Definition PG_OAUTH_MAX_CLOCK_SKEW_MS : Z := 5 * 60 * 1000.
Definition PG_OAUTH_MIN_TOKEN_SIZE : Z := 1024.
Definition PG_OAUTH_MAX_TOKEN_SIZE : Z := 64 * 1024.

Record PgOAuthPolicyConfig := {
  pc_audiences : option bytes;
  pc_allowed_algorithms : option bytes;
  pc_allowed_token_types : option bytes;
  pc_identity_claim : option bytes;
  pc_role_claim : option bytes;
  pc_allowed_jwks_hosts : option bytes;
  pc_ca_file : option bytes;
  pc_clock_skew_ms : Z;
  pc_max_token_size : Z;
  pc_metadata_default_ttl_ms : Z;
  pc_jwks_default_ttl_ms : Z;
  pc_cache_max_ttl_ms : Z;
  pc_jwks_stale_grace_ms : Z;
  pc_unknown_kid_refresh_cooldown_ms : Z;
  pc_refresh_wait_timeout_ms : Z;
  pc_allow_insecure_http : bool;
  pc_allow_missing_token_type : bool
}.

Record PgOAuthHbaPolicy := {
  hba_issuer : option bytes;
  hba_required_scopes : option bytes;
  hba_policy_name : option bytes;
  hba_delegate_ident_mapping : bool
}.

Record PgOAuthValidationPolicy := {
  vp_name : option bytes;
  vp_issuer : option bytes;
  vp_required_scopes : option bytes;
  vp_audiences : option bytes;
  vp_allowed_token_types : Z;
  vp_identity_claim : option bytes;
  vp_role_claim : option bytes;
  vp_allowed_jwks_hosts : option bytes;
  vp_ca_file : option bytes;
  vp_allowed_algorithms : Z;
  vp_clock_skew_ms : Z;
  vp_max_token_size : Z;
  vp_metadata_default_ttl_ms : Z;
  vp_jwks_default_ttl_ms : Z;
  vp_cache_max_ttl_ms : Z;
  vp_jwks_stale_grace_ms : Z;
  vp_unknown_kid_refresh_cooldown_ms : Z;
  vp_refresh_wait_timeout_ms : Z;
  vp_allow_insecure_http : bool;
  vp_allow_missing_token_type : bool
}.

Inductive PgOAuthPolicyError :=
| PG_OAUTH_POLICY_OK
| PG_OAUTH_POLICY_INVALID_ARGUMENT
| PG_OAUTH_POLICY_MISSING_ISSUER
| PG_OAUTH_POLICY_MISSING_SCOPES
| PG_OAUTH_POLICY_MISSING_AUDIENCE
| PG_OAUTH_POLICY_INVALID_AUDIENCES
| PG_OAUTH_POLICY_INVALID_ALGORITHMS
| PG_OAUTH_POLICY_INVALID_TOKEN_TYPE
| PG_OAUTH_POLICY_INVALID_AUTHN_CLAIM
| PG_OAUTH_POLICY_INVALID_ROLE_CLAIM
| PG_OAUTH_POLICY_DELEGATION_MISMATCH
| PG_OAUTH_POLICY_INVALID_JWKS_HOSTS
| PG_OAUTH_POLICY_INVALID_CA_FILE
| PG_OAUTH_POLICY_INVALID_CLOCK_SKEW
| PG_OAUTH_POLICY_INVALID_TOKEN_SIZE
| PG_OAUTH_POLICY_INVALID_CACHE_POLICY
| PG_OAUTH_POLICY_UNKNOWN_POLICY.

#[global] Instance policy_error_eq_dec : EqDecision PgOAuthPolicyError.
Proof. solve_decision. Defined.

(** ** Settings (config.c) *)

Inductive guc_kind :=
| GUC_STRING (boot : bytes)
| GUC_BOOL (boot : bool)
| GUC_INT (boot minimum maximum : Z).

(** The backend variables the settings are bound to. *)
Record Gucs := {
  oauth_audiences : option bytes;
  oauth_allowed_algorithms : option bytes;
  oauth_allowed_token_types : option bytes;
  oauth_identity_claim : option bytes;
  oauth_role_claim : option bytes;
  oauth_allowed_jwks_hosts : option bytes;
  oauth_ca_file : option bytes;
  oauth_clock_skew_ms : Z;
  oauth_max_token_size : Z;
  oauth_metadata_default_ttl_ms : Z;
  oauth_jwks_default_ttl_ms : Z;
  oauth_cache_max_ttl_ms : Z;
  oauth_jwks_stale_grace_ms : Z;
  oauth_unknown_kid_refresh_cooldown_ms : Z;
  oauth_refresh_wait_timeout_ms : Z;
  oauth_cache_max_entries : Z;
  oauth_allow_insecure_http : bool;
  oauth_allow_missing_token_type : bool
}.

Definition removed_settings : list bytes :=
  [B "pg_oauth_validator.identity_format"; B "pg_oauth_validator.authorization_mode";
   B "pg_oauth_validator.roles_claim"; B "pg_oauth_validator.required_token_type"].

(** The settings [_PG_init] defines, with their boot values and bounds. *)
Definition custom_settings : list (bytes * guc_kind) :=
  [(B "pg_oauth_validator.audiences", GUC_STRING []);
   (B "pg_oauth_validator.allowed_algorithms", GUC_STRING (B "RS256,ES256"));
   (B "pg_oauth_validator.allowed_token_types", GUC_STRING (B "at+jwt,application/at+jwt"));
   (B "pg_oauth_validator.allow_missing_token_type", GUC_BOOL false);
   (B "pg_oauth_validator.identity_claim", GUC_STRING (B "sub"));
   (B "pg_oauth_validator.role_claim", GUC_STRING []);
   (B "pg_oauth_validator.allowed_jwks_hosts", GUC_STRING []);
   (B "pg_oauth_validator.ca_file", GUC_STRING []);
   (B "pg_oauth_validator.clock_skew", GUC_INT 60000 0 300000);
   (B "pg_oauth_validator.max_token_size", GUC_INT 16384 1024 65536);
   (B "pg_oauth_validator.metadata_default_ttl", GUC_INT 300000 1000 3600000);
   (B "pg_oauth_validator.jwks_default_ttl", GUC_INT 300000 1000 3600000);
   (B "pg_oauth_validator.cache_max_ttl", GUC_INT 3600000 1000 86400000);
   (B "pg_oauth_validator.jwks_stale_grace", GUC_INT 0 0 3600000);
   (B "pg_oauth_validator.unknown_kid_refresh_cooldown", GUC_INT 30000 1000 300000);
   (B "pg_oauth_validator.refresh_wait_timeout", GUC_INT 5000 0 5000);
   (B "pg_oauth_validator.cache_max_entries", GUC_INT 32 8 256);
   (B "pg_oauth_validator.allow_insecure_http", GUC_BOOL false)].

(** [GetConfigOption] answers whether a setting is present.  The result is the
    removed setting that is still configured, or the settings defined. *)
Definition _PG_init (GetConfigOption : bytes -> option bytes)
  : bytes + list (bytes * guc_kind) :=
  match List.find (fun s => bool_decide (is_Some (GetConfigOption s))) removed_settings with
  | Some s => inl s
  | None => inr custom_settings
  end.

Definition pg_oauth_config_snapshot (g : Gucs) : PgOAuthPolicyConfig :=
  {| pc_audiences := oauth_audiences g;
     pc_allowed_algorithms := oauth_allowed_algorithms g;
     pc_allowed_token_types := oauth_allowed_token_types g;
     pc_identity_claim := oauth_identity_claim g;
     pc_role_claim := oauth_role_claim g;
     pc_allowed_jwks_hosts := oauth_allowed_jwks_hosts g;
     pc_ca_file := oauth_ca_file g;
     pc_clock_skew_ms := oauth_clock_skew_ms g;
     pc_max_token_size := oauth_max_token_size g;
     pc_metadata_default_ttl_ms := oauth_metadata_default_ttl_ms g;
     pc_jwks_default_ttl_ms := oauth_jwks_default_ttl_ms g;
     pc_cache_max_ttl_ms := oauth_cache_max_ttl_ms g;
     pc_jwks_stale_grace_ms := oauth_jwks_stale_grace_ms g;
     pc_unknown_kid_refresh_cooldown_ms := oauth_unknown_kid_refresh_cooldown_ms g;
     pc_refresh_wait_timeout_ms := oauth_refresh_wait_timeout_ms g;
     pc_allow_insecure_http := oauth_allow_insecure_http g;
     pc_allow_missing_token_type := oauth_allow_missing_token_type g |}.

Definition pg_oauth_config_cache_max_entries (g : Gucs) : Z := oauth_cache_max_entries g.

(** ** The HBA rule (hba_policy.c) *)

(** The fields of [MyProcPort->hba] the code reads. *)
Record HbaLine := {
  oauth_issuer : option bytes;
  oauth_scope : option bytes;
  oauth_skip_usermap : bool
}.

Definition hba_policy_none : PgOAuthHbaPolicy :=
  {| hba_issuer := None; hba_required_scopes := None; hba_policy_name := None;
     hba_delegate_ident_mapping := false |}.

(** [hba] is [None] when [MyProcPort] or its rule is NULL; [policy_option] is
    what [GetOAuthHBAOption] returns on a server that has it (PostgreSQL 19 and
    later), and [None] before. *)
Definition pg_oauth_hba_policy_read (hba : option HbaLine) (policy_option : option bytes)
  : bool * PgOAuthHbaPolicy :=
  match hba with
  | None => (false, hba_policy_none)
  | Some hba =>
      let policy name :=
        {| hba_issuer := oauth_issuer hba; hba_required_scopes := oauth_scope hba;
           hba_policy_name := name; hba_delegate_ident_mapping := oauth_skip_usermap hba |} in
      if negb (is_nonempty (oauth_issuer hba)) || negb (bool_decide (is_Some (oauth_scope hba)))
      then (false, policy None)
      else (true, policy policy_option)
  end.

(** ** The policy (policy.c) *)

Definition token_type_step (result : Z) (entry : bytes) : option Z :=
  let type :=
    if bytes_eqb entry (B "at+jwt") then Some PG_OAUTH_TOKEN_TYPE_AT_JWT
    else if bytes_eqb entry (B "application/at+jwt")
    then Some PG_OAUTH_TOKEN_TYPE_APPLICATION_AT_JWT
    else None in
  match type with
  | None => None
  | Some type => if negb (Z.land result type =? 0) then None else Some (Z.lor result type)
  end.

Definition parse_token_types (value : option bytes) : option Z :=
  if negb (is_nonempty value) then None
  else
    let value := setting value in
    if 64 <? zlen value then None
    else list_loop token_type_step None
           (fun result => if negb (result =? 0) then Some result else None) value 0.

Definition audience_step (count : Z) (entry : bytes) : option Z :=
  if bool_decide (entry = []) || (PG_OAUTH_MAX_AUDIENCES <? count + 1) then None
  else if existsb iscntrl entry then None
  else Some (count + 1).

Definition validate_audiences (value : bytes) : bool :=
  list_loop audience_step false (fun count => 0 <? count) (c_str value) 0.

Definition algorithm_step (result : Z) (entry : bytes) : option Z :=
  let algorithm :=
    if bytes_eqb entry (B "RS256") then Some PG_OAUTH_ALGORITHM_RS256
    else if bytes_eqb entry (B "ES256") then Some PG_OAUTH_ALGORITHM_ES256
    else if bytes_eqb entry (B "EdDSA") then Some PG_OAUTH_ALGORITHM_EDDSA
    else None in
  match algorithm with
  | None => None
  | Some algorithm =>
      if negb (Z.land result algorithm =? 0) then None else Some (Z.lor result algorithm)
  end.

Definition parse_algorithms (value : option bytes) : option Z :=
  if negb (is_nonempty value) then None
  else list_loop algorithm_step None
         (fun result => if negb (result =? 0) then Some result else None) (setting value) 0.

Definition validate_claim_name (claim : option bytes) : bool :=
  if negb (is_nonempty claim) then false
  else
    let claim := setting claim in
    if PG_OAUTH_MAX_AUTHN_CLAIM_LENGTH <? zlen claim then false
    else negb (existsb (fun c => iscntrl c || isspace c) claim).

Definition host_edge (c : byte) : bool := bool_decide (c = x2e) || bool_decide (c = x2d).

Definition jwks_host_step (count : Z) (entry : bytes) : option Z :=
  if (zlen entry =? 0) || (PG_OAUTH_MAX_HOST_LENGTH <? zlen entry) ||
     (PG_OAUTH_MAX_JWKS_HOSTS <? count + 1) ||
     host_edge (default x00 (head entry)) || host_edge (List.last entry x00)
  then None
  else if negb (forallb (fun c => isalnum c || host_edge c) entry) then None
  else Some (count + 1).

Definition validate_jwks_hosts (value : option bytes) : bool :=
  if negb (is_nonempty value) then true
  else list_loop jwks_host_step false (fun _ => true) (setting value) 0.

Definition policy_zero : PgOAuthValidationPolicy :=
  {| vp_name := None; vp_issuer := None; vp_required_scopes := None; vp_audiences := None;
     vp_allowed_token_types := 0; vp_identity_claim := None; vp_role_claim := None;
     vp_allowed_jwks_hosts := None; vp_ca_file := None; vp_allowed_algorithms := 0;
     vp_clock_skew_ms := 0; vp_max_token_size := 0; vp_metadata_default_ttl_ms := 0;
     vp_jwks_default_ttl_ms := 0; vp_cache_max_ttl_ms := 0; vp_jwks_stale_grace_ms := 0;
     vp_unknown_kid_refresh_cooldown_ms := 0; vp_refresh_wait_timeout_ms := 0;
     vp_allow_insecure_http := false; vp_allow_missing_token_type := false |}.

Definition cache_policy_invalid (config : PgOAuthPolicyConfig) : bool :=
  (pc_metadata_default_ttl_ms config <? 1000) ||
  (3600000 <? pc_metadata_default_ttl_ms config) ||
  (pc_jwks_default_ttl_ms config <? 1000) || (3600000 <? pc_jwks_default_ttl_ms config) ||
  (pc_cache_max_ttl_ms config <? pc_metadata_default_ttl_ms config) ||
  (pc_cache_max_ttl_ms config <? pc_jwks_default_ttl_ms config) ||
  (86400000 <? pc_cache_max_ttl_ms config) || (pc_jwks_stale_grace_ms config <? 0) ||
  (3600000 <? pc_jwks_stale_grace_ms config) ||
  (pc_unknown_kid_refresh_cooldown_ms config <? 1000) ||
  (300000 <? pc_unknown_kid_refresh_cooldown_ms config) ||
  (pc_refresh_wait_timeout_ms config <? 0) || (5000 <? pc_refresh_wait_timeout_ms config).

(** The checks, in order, up to the algorithms and token types found. *)
Definition policy_checks (config : PgOAuthPolicyConfig) (hba : PgOAuthHbaPolicy)
  : PgOAuthPolicyError + Z * Z :=
  if negb (is_nonempty (hba_issuer hba)) then inl PG_OAUTH_POLICY_MISSING_ISSUER
  else if negb (is_nonempty (hba_required_scopes hba)) then inl PG_OAUTH_POLICY_MISSING_SCOPES
  else if is_nonempty (hba_policy_name hba) &&
          negb (bytes_eqb (setting (hba_policy_name hba)) (B "default"))
  then inl PG_OAUTH_POLICY_UNKNOWN_POLICY
  else if negb (is_nonempty (pc_audiences config)) then inl PG_OAUTH_POLICY_MISSING_AUDIENCE
  else if negb (validate_audiences (setting (pc_audiences config)))
  then inl PG_OAUTH_POLICY_INVALID_AUDIENCES
  else match parse_algorithms (pc_allowed_algorithms config) with
  | None => inl PG_OAUTH_POLICY_INVALID_ALGORITHMS
  | Some algorithms =>
  match parse_token_types (pc_allowed_token_types config) with
  | None => inl PG_OAUTH_POLICY_INVALID_TOKEN_TYPE
  | Some token_types =>
      if negb (validate_claim_name (pc_identity_claim config))
      then inl PG_OAUTH_POLICY_INVALID_AUTHN_CLAIM
      else if negb (bool_decide (is_Some (pc_role_claim config))) ||
              (is_nonempty (pc_role_claim config) &&
               negb (validate_claim_name (pc_role_claim config)))
      then inl PG_OAUTH_POLICY_INVALID_ROLE_CLAIM
      else if negb (Bool.eqb (hba_delegate_ident_mapping hba) (is_nonempty (pc_role_claim config)))
      then inl PG_OAUTH_POLICY_DELEGATION_MISMATCH
      else if negb (validate_jwks_hosts (pc_allowed_jwks_hosts config))
      then inl PG_OAUTH_POLICY_INVALID_JWKS_HOSTS
      else if negb (bool_decide (is_Some (pc_ca_file config))) ||
              (2048 <? zlen (setting (pc_ca_file config))) ||
              existsb iscntrl (setting (pc_ca_file config))
      then inl PG_OAUTH_POLICY_INVALID_CA_FILE
      else if (pc_clock_skew_ms config <? 0) ||
              (PG_OAUTH_MAX_CLOCK_SKEW_MS <? pc_clock_skew_ms config)
      then inl PG_OAUTH_POLICY_INVALID_CLOCK_SKEW
      else if (pc_max_token_size config <? PG_OAUTH_MIN_TOKEN_SIZE) ||
              (PG_OAUTH_MAX_TOKEN_SIZE <? pc_max_token_size config)
      then inl PG_OAUTH_POLICY_INVALID_TOKEN_SIZE
      else if cache_policy_invalid config then inl PG_OAUTH_POLICY_INVALID_CACHE_POLICY
      else inr (algorithms, token_types)
  end end.

(** The assignments to the policy. *)
Definition policy_of (config : PgOAuthPolicyConfig) (hba : PgOAuthHbaPolicy)
  (algorithms token_types : Z) : PgOAuthValidationPolicy :=
  {| vp_name := Some (B "default"); vp_issuer := hba_issuer hba;
     vp_required_scopes := hba_required_scopes hba; vp_audiences := pc_audiences config;
     vp_allowed_token_types := token_types; vp_identity_claim := pc_identity_claim config;
     vp_role_claim := pc_role_claim config;
     vp_allowed_jwks_hosts := pc_allowed_jwks_hosts config; vp_ca_file := pc_ca_file config;
     vp_allowed_algorithms := algorithms; vp_clock_skew_ms := pc_clock_skew_ms config;
     vp_max_token_size := pc_max_token_size config;
     vp_metadata_default_ttl_ms := pc_metadata_default_ttl_ms config;
     vp_jwks_default_ttl_ms := pc_jwks_default_ttl_ms config;
     vp_cache_max_ttl_ms := pc_cache_max_ttl_ms config;
     vp_jwks_stale_grace_ms := pc_jwks_stale_grace_ms config;
     vp_unknown_kid_refresh_cooldown_ms := pc_unknown_kid_refresh_cooldown_ms config;
     vp_refresh_wait_timeout_ms := pc_refresh_wait_timeout_ms config;
     vp_allow_insecure_http := pc_allow_insecure_http config;
     vp_allow_missing_token_type := pc_allow_missing_token_type config |}.

Definition pg_oauth_policy_build (config : option PgOAuthPolicyConfig)
  (hba : option PgOAuthHbaPolicy) (policy : option PgOAuthValidationPolicy)
  : PgOAuthPolicyError * option PgOAuthValidationPolicy :=
  match config, hba, policy with
  | Some config, Some hba, Some _ =>
      match policy_checks config hba with
      | inl error => (error, Some policy_zero)
      | inr (algorithms, token_types) =>
          (PG_OAUTH_POLICY_OK, Some (policy_of config hba algorithms token_types))
      end
  | _, _, _ => (PG_OAUTH_POLICY_INVALID_ARGUMENT, policy)
  end.

(** ** What the loops accept *)

(** Loops that count entries. *)
Lemma steps_count (step : Z -> bytes -> option Z) (ok : bytes -> bool) maximum :
  (forall count e, step count e =
     if ok e && (count + 1 <=? maximum) then Some (count + 1) else None) ->
  forall l count n, count <= maximum ->
    steps step count l = Some n <->
    Forall (fun e => ok e = true) l /\ count + zlen l <= maximum /\ n = count + zlen l.
Proof.
  intros Hstep l. induction l as [|e l IH]; intros count n Hc.
  { simpl. unfold zlen. simpl. split; [intros [= <-]|intros (_ & _ & ->)].
    - split; [constructor|lia].
    - f_equal. lia. }
  simpl. rewrite Hstep, zlen_cons, Forall_cons. pose proof (zlen_nonneg l).
  destruct (ok e); simpl; [|split; [done|]; by intros [[? _] _]].
  destruct (Z.leb_spec (count + 1) maximum); [|split; [done|]; intros; lia].
  rewrite IH by lia. split; intros (? & ? & ?); split_and!; try done; try tauto; lia.
Qed.

(** Loops that collect a set of names as bits. *)
Section Masks.
Context (code : bytes -> option Z).
Hypothesis code_nonzero : forall e b, code e = Some b -> b <> 0.
Hypothesis code_disjoint : forall e e' b b',
  code e = Some b -> code e' = Some b' -> e <> e' -> Z.land b b' = 0.

Definition mask_step (result : Z) (e : bytes) : option Z :=
  match code e with
  | None => None
  | Some b => if negb (Z.land result b =? 0) then None else Some (Z.lor result b)
  end.

Definition mask (l : list bytes) : Z :=
  foldr (fun e m => Z.lor (default 0 (code e)) m) 0 l.

Lemma steps_mask l result m :
  steps mask_step result l = Some m <->
  Forall (fun e => exists b, code e = Some b /\ Z.land result b = 0) l /\ NoDup l /\
  m = Z.lor result (mask l).
Proof.
  revert result. induction l as [|e l IH]; intros result.
  { simpl. rewrite Z.lor_0_r. split; [intros [= <-]; by split_and!; [constructor..|]|].
    by intros (_ & _ & ->). }
  simpl. unfold mask_step at 1. rewrite Forall_cons, NoDup_cons.
  destruct (code e) as [b|] eqn:Ec; [|split; [done|]; by intros [[(? & ? & _) _] _]].
  destruct (Z.eqb_spec (Z.land result b) 0) as [Hb|Hb]; simpl.
  2:{ split; [done|]. intros [[(b' & [= <-] & ?) _] _]. done. }
  rewrite IH, Z.lor_assoc, !Forall_forall. split.
  - intros (Hl & Hnd & ->). split_and!; try done; eauto.
    + intros e' He'. destruct (Hl e' He') as (b' & ? & Hz). exists b'. split; [done|].
      rewrite Z.land_lor_distr_l in Hz. by apply Z.lor_eq_0_iff in Hz as [? _].
    + intros Hin. destruct (Hl e Hin) as (b' & Ec' & Hz).
      rewrite Z.land_lor_distr_l in Hz. apply Z.lor_eq_0_iff in Hz as [_ Hz].
      assert (b' = b) as -> by congruence. rewrite Z.land_diag in Hz. by eapply code_nonzero.
  - intros ((_ & Hl) & (Hni & Hnd) & ->). split_and!; try done.
    intros e' He'. destruct (Hl e' He') as (b' & Ec' & Hz). exists b'. split; [done|].
    rewrite Z.land_lor_distr_l, Hz. rewrite (code_disjoint e e' b b'); [done..|]. by intros ->.
Qed.

Lemma mask_nonzero l : Forall (fun e => is_Some (code e)) l -> l <> [] -> mask l <> 0.
Proof.
  intros Hl Hne. destruct Hl as [|e l [b Hb] _]; [done|]. simpl. rewrite Hb. simpl.
  intros [? _]%Z.lor_eq_0_iff. by eapply code_nonzero.
Qed.
End Masks.

Definition algorithm_code (e : bytes) : option Z :=
  if bytes_eqb e (B "RS256") then Some PG_OAUTH_ALGORITHM_RS256
  else if bytes_eqb e (B "ES256") then Some PG_OAUTH_ALGORITHM_ES256
  else if bytes_eqb e (B "EdDSA") then Some PG_OAUTH_ALGORITHM_EDDSA
  else None.

Definition token_type_code (e : bytes) : option Z :=
  if bytes_eqb e (B "at+jwt") then Some PG_OAUTH_TOKEN_TYPE_AT_JWT
  else if bytes_eqb e (B "application/at+jwt")
  then Some PG_OAUTH_TOKEN_TYPE_APPLICATION_AT_JWT
  else None.

(** A setting that lists known names, each at most once, as a set of bits. *)
Definition names_of (code : bytes -> option Z) (value : option bytes) (m : Z) : Prop :=
  is_nonempty value = true /\
  Forall (fun e => is_Some (code e)) (entries_of (setting value)) /\
  NoDup (entries_of (setting value)) /\ m = mask code (entries_of (setting value)).

Lemma setting_nonempty value : is_nonempty value = true -> setting value <> [].
Proof.
  destruct value as [[|c v]|]; try done. unfold is_nonempty, setting. simpl.
  intros Hc%negb_true_iff. by rewrite Hc.
Qed.

Lemma names_loop code value :
  code [] = None ->
  (forall e b, code e = Some b -> b <> 0) ->
  (forall e e' b b', code e = Some b -> code e' = Some b' -> e <> e' -> Z.land b b' = 0) ->
  is_nonempty value = true -> forall m,
  list_loop (mask_step code) None
    (fun result => if negb (result =? 0) then Some result else None) (setting value) 0 = Some m <->
  names_of code value m.
Proof.
  intros Hnil Hnz Hdisj Hne m. rewrite list_loop_spec.
  2:{ intros st. unfold mask_step. by rewrite Hnil. }
  2:{ by apply setting_nonempty. }
  fold (entries_of (setting value)). unfold names_of.
  assert (entries_of (setting value) <> []) as Hent.
  { unfold entries_of. pose proof (split_on_nonempty comma (setting value)).
    by destruct (split_on comma (setting value)). }
  pose proof (steps_mask code Hnz Hdisj (entries_of (setting value)) 0) as Hs.
  assert (forall e, (exists b, code e = Some b /\ Z.land 0 b = 0) <-> is_Some (code e)) as Hsome.
  { intros e. unfold is_Some. by setoid_rewrite (fun b => Z.land_0_l b); naive_solver. }
  setoid_rewrite Hsome in Hs. rewrite Z.lor_0_l in Hs.
  destruct (steps (mask_step code) 0 (entries_of (setting value))) as [r|].
  - destruct (proj1 (Hs r) eq_refl) as (Hall & Hnd & ->).
    pose proof (mask_nonzero code Hnz _ Hall Hent) as Hm. apply Z.eqb_neq in Hm. rewrite Hm. simpl.
    split; [intros [= <-]; done|by intros (_ & _ & _ & ->)].
  - split; [done|]. intros (_ & Hall & Hnd & ->). by specialize (proj2 (Hs _) (conj Hall (conj Hnd eq_refl))).
Qed.

Lemma parse_algorithms_spec value m :
  parse_algorithms value = Some m <-> names_of algorithm_code value m.
Proof.
  unfold parse_algorithms. destruct (is_nonempty value) eqn:Hne; simpl.
  - apply (names_loop algorithm_code); [done| | |done].
    + unfold algorithm_code. intros e b. repeat case_match; intros [= <-]; done.
    + unfold algorithm_code. intros e e' b b'. repeat case_match; intros [= <-] [= <-] ?;
        prop_bools; congruence || done.
  - split; [done|]. intros [? _]. congruence.
Qed.

Lemma parse_token_types_spec value m :
  parse_token_types value = Some m <->
  names_of token_type_code value m /\ zlen (setting value) <= 64.
Proof.
  unfold parse_token_types. destruct (is_nonempty value) eqn:Hne; simpl.
  2:{ split; [done|]. intros [[? _] _]. congruence. }
  destruct (Z.ltb_spec 64 (zlen (setting value))).
  { split; [done|]. intros [_ ?]. lia. }
  transitivity (names_of token_type_code value m); [|tauto].
  apply (names_loop token_type_code); [done| | |done].
  - unfold token_type_code. intros e b. repeat case_match; intros [= <-]; done.
  - unfold token_type_code. intros e e' b b'. repeat case_match; intros [= <-] [= <-] ?;
      prop_bools; congruence || done.
Qed.

(** An audience: some text without control characters. *)
Definition audience_entry (e : bytes) : Prop := e <> [] /\ existsb iscntrl e = false.

Definition audiences_ok (value : option bytes) : Prop :=
  is_nonempty value = true /\ Forall audience_entry (entries_of (setting value)) /\
  zlen (entries_of (setting value)) <= PG_OAUTH_MAX_AUDIENCES.

Lemma setting_idemp value : c_str (setting value) = setting value.
Proof. destruct value as [v|]; [apply c_str_idemp|done]. Qed.

Lemma entries_nonempty value : entries_of value <> [].
Proof.
  unfold entries_of. pose proof (split_on_nonempty comma value). by destruct (split_on comma value).
Qed.

Lemma zlen_pos {A} (l : list A) : l <> [] -> 0 < zlen l.
Proof. intros Hl. pose proof (zlen_nonneg l). assert (zlen l <> 0) by by rewrite zlen_nil. lia. Qed.

Definition audience_entry_ok (e : bytes) : bool :=
  negb (bool_decide (e = [])) && negb (existsb iscntrl e).

Lemma audience_entry_ok_spec e : audience_entry_ok e = true <-> audience_entry e.
Proof.
  unfold audience_entry_ok, audience_entry.
  by rewrite andb_true_iff, !negb_true_iff, bool_decide_eq_false.
Qed.

Lemma audience_step_spec count e :
  audience_step count e =
  if audience_entry_ok e && (count + 1 <=? PG_OAUTH_MAX_AUDIENCES) then Some (count + 1) else None.
Proof.
  unfold audience_step, audience_entry_ok. rewrite Z.leb_antisym.
  destruct (bool_decide (e = [])), (existsb iscntrl e), (PG_OAUTH_MAX_AUDIENCES <? count + 1); done.
Qed.

Lemma validate_audiences_spec value :
  is_nonempty value = true -> validate_audiences (setting value) = true <-> audiences_ok value.
Proof.
  intros Hne. unfold validate_audiences, audiences_ok. rewrite setting_idemp.
  rewrite list_loop_spec by (done || by apply setting_nonempty).
  fold (entries_of (setting value)). set (l := entries_of (setting value)).
  pose proof (steps_count audience_step audience_entry_ok PG_OAUTH_MAX_AUDIENCES
    audience_step_spec l 0) as Hs.
  setoid_rewrite audience_entry_ok_spec in Hs.
  assert (0 < zlen l) by (apply zlen_pos, entries_nonempty).
  destruct (steps audience_step 0 l) as [n|].
  - destruct (proj1 (Hs n ltac:(done)) eq_refl) as (? & ? & ->).
    rewrite Z.add_0_l in *. rewrite Z.ltb_lt. tauto.
  - split; [done|]. intros (_ & Hall & Hl).
    by specialize (proj2 (Hs (0 + zlen l) ltac:(done)) (conj Hall (conj Hl eq_refl))).
Qed.

(** A host: letters, digits, dots and hyphens, with a letter or digit at both
    ends. *)
Definition host_entry (e : bytes) : Prop :=
  0 < zlen e <= PG_OAUTH_MAX_HOST_LENGTH /\
  host_edge (default x00 (head e)) = false /\ host_edge (List.last e x00) = false /\
  Forall (fun c => isalnum c || host_edge c = true) e.

Definition hosts_ok (value : option bytes) : Prop :=
  is_nonempty value = false \/
  Forall host_entry (entries_of (setting value)) /\
  zlen (entries_of (setting value)) <= PG_OAUTH_MAX_JWKS_HOSTS.

Definition host_ok (e : bytes) : bool :=
  negb ((zlen e =? 0) || (PG_OAUTH_MAX_HOST_LENGTH <? zlen e) ||
        host_edge (default x00 (head e)) || host_edge (List.last e x00)) &&
  forallb (fun c => isalnum c || host_edge c) e.

Lemma host_ok_spec e : host_ok e = true <-> host_entry e.
Proof.
  unfold host_ok, host_entry. rewrite andb_true_iff, negb_true_iff, !orb_false_iff.
  rewrite Z.eqb_neq, Z.ltb_ge, forallb_forall, Forall_forall. setoid_rewrite list_elem_of_In.
  pose proof (zlen_nonneg e). intuition lia.
Qed.

Lemma jwks_host_step_spec count e :
  jwks_host_step count e =
  if host_ok e && (count + 1 <=? PG_OAUTH_MAX_JWKS_HOSTS) then Some (count + 1) else None.
Proof.
  unfold jwks_host_step, host_ok. rewrite Z.leb_antisym.
  destruct (zlen e =? 0), (PG_OAUTH_MAX_HOST_LENGTH <? zlen e),
    (PG_OAUTH_MAX_JWKS_HOSTS <? count + 1), (host_edge (default x00 (head e))),
    (host_edge (List.last e x00)), (forallb (fun c => isalnum c || host_edge c) e); done.
Qed.

Lemma validate_jwks_hosts_spec value : validate_jwks_hosts value = true <-> hosts_ok value.
Proof.
  unfold validate_jwks_hosts, hosts_ok. destruct (is_nonempty value) eqn:Hne; simpl; [|tauto].
  rewrite list_loop_spec by (done || by apply setting_nonempty).
  fold (entries_of (setting value)). set (l := entries_of (setting value)).
  pose proof (steps_count jwks_host_step host_ok PG_OAUTH_MAX_JWKS_HOSTS jwks_host_step_spec l 0) as Hs.
  setoid_rewrite host_ok_spec in Hs.
  destruct (steps jwks_host_step 0 l) as [n|].
  - destruct (proj1 (Hs n ltac:(done)) eq_refl) as (? & ? & _). split; [|done].
    intros _. right. by rewrite Z.add_0_l in *.
  - split; [done|]. intros [|[Hall Hl]]; [done|].
    by specialize (proj2 (Hs (0 + zlen l) ltac:(done)) (conj Hall (conj Hl eq_refl))).
Qed.

Definition claim_name_ok (claim : option bytes) : Prop :=
  is_nonempty claim = true /\ zlen (setting claim) <= PG_OAUTH_MAX_AUTHN_CLAIM_LENGTH /\
  Forall (fun c => iscntrl c = false /\ isspace c = false) (setting claim).

Lemma validate_claim_name_spec claim : validate_claim_name claim = true <-> claim_name_ok claim.
Proof.
  unfold validate_claim_name, claim_name_ok. destruct (is_nonempty claim); simpl; [|naive_solver].
  destruct (Z.ltb_spec PG_OAUTH_MAX_AUTHN_CLAIM_LENGTH (zlen (setting claim))).
  { split; [done|]. intros (_ & ? & _). lia. }
  rewrite negb_true_iff. transitivity (Forall (fun c => iscntrl c = false /\ isspace c = false)
    (setting claim)); [|intuition lia].
  clear. induction (setting claim) as [|c s IH]; simpl; [by split; [constructor|]|].
  rewrite Forall_cons, <- IH, !orb_false_iff. tauto.
Qed.

(** ** Policies *)

Record settings_ok (config : PgOAuthPolicyConfig) (hba : PgOAuthHbaPolicy)
  (algorithms token_types : Z) : Prop := {
  so_issuer : is_nonempty (hba_issuer hba) = true;
  so_scopes : is_nonempty (hba_required_scopes hba) = true;
  so_name : setting (hba_policy_name hba) = [] \/ setting (hba_policy_name hba) = B "default";
  so_audiences : audiences_ok (pc_audiences config);
  so_algorithms : names_of algorithm_code (pc_allowed_algorithms config) algorithms;
  so_types : names_of token_type_code (pc_allowed_token_types config) token_types /\
    zlen (setting (pc_allowed_token_types config)) <= 64;
  so_identity : claim_name_ok (pc_identity_claim config);
  so_role : is_Some (pc_role_claim config) /\
    (is_nonempty (pc_role_claim config) = false \/ claim_name_ok (pc_role_claim config));
  so_delegation : hba_delegate_ident_mapping hba = is_nonempty (pc_role_claim config);
  so_hosts : hosts_ok (pc_allowed_jwks_hosts config);
  so_ca_file : is_Some (pc_ca_file config) /\ zlen (setting (pc_ca_file config)) <= 2048 /\
    existsb iscntrl (setting (pc_ca_file config)) = false;
  so_clock_skew : 0 <= pc_clock_skew_ms config <= 300000;
  so_token_size : 1024 <= pc_max_token_size config <= 65536;
  so_metadata_ttl : 1000 <= pc_metadata_default_ttl_ms config <= 3600000;
  so_jwks_ttl : 1000 <= pc_jwks_default_ttl_ms config <= 3600000;
  so_max_ttl : Z.max (pc_metadata_default_ttl_ms config) (pc_jwks_default_ttl_ms config) <=
    pc_cache_max_ttl_ms config <= 86400000;
  so_grace : 0 <= pc_jwks_stale_grace_ms config <= 3600000;
  so_cooldown : 1000 <= pc_unknown_kid_refresh_cooldown_ms config <= 300000;
  so_wait : 0 <= pc_refresh_wait_timeout_ms config <= 5000
}.

Lemma nonempty_setting value : is_nonempty value = false <-> setting value = [].
Proof.
  split; [|intros Hs; apply not_true_iff_false; by intros ?%setting_nonempty].
  destruct value as [[|c v]|]; try done. unfold is_nonempty, setting. simpl.
  intros Hc%negb_false_iff. by rewrite Hc.
Qed.

Lemma cache_policy_spec config :
  cache_policy_invalid config = false <->
  1000 <= pc_metadata_default_ttl_ms config <= 3600000 /\
  1000 <= pc_jwks_default_ttl_ms config <= 3600000 /\
  Z.max (pc_metadata_default_ttl_ms config) (pc_jwks_default_ttl_ms config) <=
    pc_cache_max_ttl_ms config <= 86400000 /\
  0 <= pc_jwks_stale_grace_ms config <= 3600000 /\
  1000 <= pc_unknown_kid_refresh_cooldown_ms config <= 300000 /\
  0 <= pc_refresh_wait_timeout_ms config <= 5000.
Proof.
  unfold cache_policy_invalid. rewrite !orb_false_iff, !Z.ltb_ge. lia.
Qed.

Lemma policy_checks_sound config hba algorithms token_types :
  policy_checks config hba = inr (algorithms, token_types) ->
  settings_ok config hba algorithms token_types.
Proof.
  unfold policy_checks. intros Hc. repeat (case_match; try done). simplify_eq. prop_bools.
  repeat match goal with
  | E : (_ <? _) = false |- _ => apply Z.ltb_ge in E
  | E : cache_policy_invalid _ = false |- _ =>
      apply cache_policy_spec in E as (? & ? & ? & ? & ? & ?)
  | E : parse_algorithms _ = Some _ |- _ => apply parse_algorithms_spec in E
  | E : parse_token_types _ = Some _ |- _ => apply parse_token_types_spec in E
  | E : validate_audiences _ = true |- _ => apply validate_audiences_spec in E; [|done]
  | E : validate_claim_name _ = true |- _ => apply validate_claim_name_spec in E
  | E : validate_jwks_hosts _ = true |- _ => apply validate_jwks_hosts_spec in E
  | E : Bool.eqb _ _ = true |- _ => apply eqb_prop in E
  end.
  unfold PG_OAUTH_MAX_CLOCK_SKEW_MS, PG_OAUTH_MIN_TOKEN_SIZE, PG_OAUTH_MAX_TOKEN_SIZE in *.
  split; try done; try lia.
  - destruct (is_nonempty (hba_policy_name hba)) eqn:En; simpl in *; prop_bools; [by right|].
    left. by apply nonempty_setting.
  - split; [done|]. destruct (is_nonempty (pc_role_claim config)); simpl in *; [|by left].
    right. prop_bools. by apply validate_claim_name_spec.
Qed.

Lemma policy_checks_complete config hba algorithms token_types :
  settings_ok config hba algorithms token_types ->
  policy_checks config hba = inr (algorithms, token_types).
Proof.
  intros []. unfold policy_checks. rewrite so_issuer0, so_scopes0. simpl negb. cbv iota.
  destruct so_role0 as [Hrs Hr], so_ca_file0 as (Hcs & Hcl & Hcc).
  assert (is_nonempty (hba_policy_name hba) &&
    negb (bytes_eqb (setting (hba_policy_name hba)) (B "default")) = false) as ->.
  { destruct so_name0 as [E| ->].
    - apply nonempty_setting in E. by rewrite E.
    - unfold bytes_eqb. rewrite bool_decide_eq_true_2 by done. apply andb_false_r. }
  pose proof (proj1 so_audiences0) as Hna. rewrite Hna. 
  rewrite (proj2 (validate_audiences_spec _ Hna)) by done.
  rewrite (proj2 (parse_algorithms_spec _ _) so_algorithms0).
  rewrite (proj2 (parse_token_types_spec _ _) so_types0).
  rewrite (proj2 (validate_claim_name_spec _) so_identity0).
  rewrite (proj2 (validate_jwks_hosts_spec _) so_hosts0).
  rewrite (proj2 (cache_policy_spec _)) by done.
  rewrite so_delegation0, eqb_reflx, Hcc, !bool_decide_eq_true_2 by done. simpl.
  assert (is_nonempty (pc_role_claim config) && negb (validate_claim_name (pc_role_claim config))
    = false) as ->.
  { destruct Hr as [-> | Hr]; [done|]. rewrite (proj2 (validate_claim_name_spec _) Hr).
    apply andb_false_r. }
  unfold PG_OAUTH_MAX_CLOCK_SKEW_MS, PG_OAUTH_MIN_TOKEN_SIZE, PG_OAUTH_MAX_TOKEN_SIZE.
  repeat match goal with |- context [?a <? ?b] => destruct (Z.ltb_spec a b); [lia|] end. done.
Qed.

Lemma policy_checks_error config hba : policy_checks config hba <> inl PG_OAUTH_POLICY_OK.
Proof. unfold policy_checks. repeat case_match; done. Qed.

(** ** Boot values *)

Definition guc_string (name : bytes) : option bytes :=
  match List.find (fun s => bytes_eqb (fst s) name) custom_settings with
  | Some (_, GUC_STRING boot) => Some boot
  | _ => None
  end.
Definition guc_int (name : bytes) : Z :=
  match List.find (fun s => bytes_eqb (fst s) name) custom_settings with
  | Some (_, GUC_INT boot _ _) => boot
  | _ => 0
  end.
Definition guc_bool (name : bytes) : bool :=
  match List.find (fun s => bytes_eqb (fst s) name) custom_settings with
  | Some (_, GUC_BOOL boot) => boot
  | _ => false
  end.

(** The variables as they are when only the audiences are configured. *)
Definition boot_gucs (audiences : bytes) : Gucs :=
  {| oauth_audiences := Some audiences;
     oauth_allowed_algorithms := guc_string (B "pg_oauth_validator.allowed_algorithms");
     oauth_allowed_token_types := guc_string (B "pg_oauth_validator.allowed_token_types");
     oauth_identity_claim := guc_string (B "pg_oauth_validator.identity_claim");
     oauth_role_claim := guc_string (B "pg_oauth_validator.role_claim");
     oauth_allowed_jwks_hosts := guc_string (B "pg_oauth_validator.allowed_jwks_hosts");
     oauth_ca_file := guc_string (B "pg_oauth_validator.ca_file");
     oauth_clock_skew_ms := guc_int (B "pg_oauth_validator.clock_skew");
     oauth_max_token_size := guc_int (B "pg_oauth_validator.max_token_size");
     oauth_metadata_default_ttl_ms := guc_int (B "pg_oauth_validator.metadata_default_ttl");
     oauth_jwks_default_ttl_ms := guc_int (B "pg_oauth_validator.jwks_default_ttl");
     oauth_cache_max_ttl_ms := guc_int (B "pg_oauth_validator.cache_max_ttl");
     oauth_jwks_stale_grace_ms := guc_int (B "pg_oauth_validator.jwks_stale_grace");
     oauth_unknown_kid_refresh_cooldown_ms :=
       guc_int (B "pg_oauth_validator.unknown_kid_refresh_cooldown");
     oauth_refresh_wait_timeout_ms := guc_int (B "pg_oauth_validator.refresh_wait_timeout");
     oauth_cache_max_entries := guc_int (B "pg_oauth_validator.cache_max_entries");
     oauth_allow_insecure_http := guc_bool (B "pg_oauth_validator.allow_insecure_http");
     oauth_allow_missing_token_type := guc_bool (B "pg_oauth_validator.allow_missing_token_type") |}.

Module PolicyExample.
Definition hba : HbaLine :=
  {| oauth_issuer := Some (B "https://idp.example"); oauth_scope := Some (B "openid db.read");
     oauth_skip_usermap := false |}.
Definition config : PgOAuthPolicyConfig :=
  pg_oauth_config_snapshot (boot_gucs (B "db, postgres")).
End PolicyExample.

(** ** Properties *)

(** What each field of a policy must be, given the settings and the HBA rule. *)
Record policy_reflects (config : PgOAuthPolicyConfig) (hba : PgOAuthHbaPolicy)
  (algorithms token_types : Z) (p : PgOAuthValidationPolicy) : Prop := {
  pr_name : vp_name p = Some (B "default");
  pr_issuer : vp_issuer p = hba_issuer hba;
  pr_required_scopes : vp_required_scopes p = hba_required_scopes hba;
  pr_audiences : vp_audiences p = pc_audiences config;
  pr_token_types : vp_allowed_token_types p = token_types;
  pr_missing_type : vp_allow_missing_token_type p = pc_allow_missing_token_type config;
  pr_identity_claim : vp_identity_claim p = pc_identity_claim config;
  pr_role_claim : vp_role_claim p = pc_role_claim config;
  pr_jwks_hosts : vp_allowed_jwks_hosts p = pc_allowed_jwks_hosts config;
  pr_ca_file : vp_ca_file p = pc_ca_file config;
  pr_algorithms : vp_allowed_algorithms p = algorithms;
  pr_clock_skew : vp_clock_skew_ms p = pc_clock_skew_ms config;
  pr_token_size : vp_max_token_size p = pc_max_token_size config;
  pr_metadata_ttl : vp_metadata_default_ttl_ms p = pc_metadata_default_ttl_ms config;
  pr_jwks_ttl : vp_jwks_default_ttl_ms p = pc_jwks_default_ttl_ms config;
  pr_max_ttl : vp_cache_max_ttl_ms p = pc_cache_max_ttl_ms config;
  pr_stale_grace : vp_jwks_stale_grace_ms p = pc_jwks_stale_grace_ms config;
  pr_cooldown : vp_unknown_kid_refresh_cooldown_ms p = pc_unknown_kid_refresh_cooldown_ms config;
  pr_wait : vp_refresh_wait_timeout_ms p = pc_refresh_wait_timeout_ms config;
  pr_insecure : vp_allow_insecure_http p = pc_allow_insecure_http config
}.

Lemma policy_reflects_iff config hba algorithms token_types p :
  policy_reflects config hba algorithms token_types p <->
  p = policy_of config hba algorithms token_types.
Proof.
  split; [|intros ->; by constructor]. intros [].
  destruct p; simpl in *. unfold policy_of. by f_equal.
Qed.

(** C24: a policy is built exactly from acceptable settings ([settings_ok]:
    issuer, scopes and audiences present and well-formed, algorithm and type
    lists of known names without repetition, delegation consistent with the role
    claim, hosts and CA file well-formed, every number in range), and it reflects
    them field by field ([policy_reflects]), the bit sets being exactly the names
    listed.  Where the settings are not acceptable an error is reported and the
    policy is all zero; a missing argument is an error that leaves the caller's
    policy as it was. *)
Theorem policy_build_correct config hba old :
  (forall p, pg_oauth_policy_build (Some config) (Some hba) (Some old) =
       (PG_OAUTH_POLICY_OK, Some p) <->
     exists algorithms token_types, settings_ok config hba algorithms token_types /\
       policy_reflects config hba algorithms token_types p) /\
  (~ (exists algorithms token_types, settings_ok config hba algorithms token_types) ->
   exists error, error <> PG_OAUTH_POLICY_OK /\
     pg_oauth_policy_build (Some config) (Some hba) (Some old) = (error, Some policy_zero)) /\
  (forall config' hba' policy, config' = None \/ hba' = None \/ policy = None ->
     pg_oauth_policy_build config' hba' policy = (PG_OAUTH_POLICY_INVALID_ARGUMENT, policy)).
Proof.
  unfold pg_oauth_policy_build. setoid_rewrite policy_reflects_iff. split_and!.
  - intros p. destruct (policy_checks config hba) as [e|[algorithms types]] eqn:E; split.
    + intros [= -> _]. by apply policy_checks_error in E.
    + intros (a & t & Hs & _). by rewrite (policy_checks_complete _ _ _ _ Hs) in E.
    + intros [= <-]. exists algorithms, types. by split; [apply policy_checks_sound|].
    + intros (a & t & Hs & ->). rewrite (policy_checks_complete _ _ _ _ Hs) in E. by simplify_eq.
  - intros Hno. destruct (policy_checks config hba) as [e|[algorithms types]] eqn:E.
    + exists e. split; [|done]. intros ->. by apply policy_checks_error in E.
    + destruct Hno. exists algorithms, types. by apply policy_checks_sound.
  - intros config' hba' policy [-> | [-> | ->]]; [done|by destruct config'|].
    by destruct config', hba'.
Qed.

(** C39: the two readers of the audience list agree.  When the policy is built
    from an audience setting, the entries that claim validation compares a
    token's audience with are exactly the entries the policy check accepted:
    none is dropped by trimming, by an empty entry or by the limit of 16. *)
Theorem policy_audiences_honoured config hba algorithms token_types audience :
  policy_checks config hba = inr (algorithms, token_types) ->
  configured_audience_matches (setting (pc_audiences config)) audience PG_OAUTH_MAX_AUDIENCES =
    true <-> audience ∈ entries_of (setting (pc_audiences config)).
Proof.
  intros [_ _ _ (_ & Hf & Hl)]%policy_checks_sound.
  rewrite configured_audience_matches_spec, bool_decide_eq_true. unfold configured_audiences.
  fold (entries_of (setting (pc_audiences config))).
  set (l := entries_of (setting (pc_audiences config))) in *.
  assert (take_nonempty l = l) as ->.
  { clear Hl. induction Hf as [|e l [He _] _ IH]; [done|]. simpl. rewrite IH. by destruct e. }
  rewrite take_ge; [done|]. unfold zlen, PG_OAUTH_MAX_AUDIENCES in *. lia.
Qed.

Lemma policy_audiences_honoured_witness :
  configured_audience_matches (B "db, postgres") (B "postgres") PG_OAUTH_MAX_AUDIENCES = true.
Proof.
  apply (policy_audiences_honoured PolicyExample.config
    (snd (pg_oauth_hba_policy_read (Some PolicyExample.hba) None)) 3 3 (B "postgres")).
  - vm_compute. reflexivity.
  - apply list_elem_of_In. vm_compute. right. left. reflexivity.
Defined.

(** The boot values of the settings are safe and sufficient: with an
    audience configured and an HBA rule that has an issuer and a scope (and no
    delegation), they build a policy, one that allows only RS256 and ES256, only
    the two access-token types, no missing type, no plain HTTP and no stale key;
    without an audience no policy is built. *)
Theorem policy_boot_values audiences issuer scope :
  let hba := snd (pg_oauth_hba_policy_read
    (Some {| oauth_issuer := Some issuer; oauth_scope := Some scope;
             oauth_skip_usermap := false |}) None) in
  let '(error, policy) := pg_oauth_policy_build
    (Some (pg_oauth_config_snapshot (boot_gucs audiences))) (Some hba) (Some policy_zero) in
  (is_nonempty (Some issuer) = true -> is_nonempty (Some scope) = true ->
   audiences_ok (Some audiences) ->
   error = PG_OAUTH_POLICY_OK /\
   exists p, policy = Some p /\ vp_allowed_algorithms p = 3 /\ vp_allowed_token_types p = 3 /\
     vp_allow_missing_token_type p = false /\ vp_allow_insecure_http p = false /\
     vp_jwks_stale_grace_ms p = 0 /\ vp_audiences p = Some audiences) /\
  (is_nonempty (Some audiences) = false -> error <> PG_OAUTH_POLICY_OK).
Proof.
  cbv zeta. set (config := pg_oauth_config_snapshot (boot_gucs audiences)).
  set (hba := snd (pg_oauth_hba_policy_read _ None)).
  assert (forall algorithms types, audiences_ok (Some audiences) ->
    is_nonempty (Some issuer) = true -> is_nonempty (Some scope) = true ->
    algorithms = 3 -> types = 3 -> settings_ok config hba algorithms types) as Hok.
  { intros a t Haud Hi Hs -> ->.
    assert (hba = {| hba_issuer := Some issuer; hba_required_scopes := Some scope;
      hba_policy_name := None; hba_delegate_ident_mapping := false |}) as ->.
    { unfold hba, pg_oauth_hba_policy_read. cbn [oauth_issuer oauth_scope]. by rewrite Hi. }
    split; try done; try by left.
    - by apply (parse_algorithms_spec (Some (B "RS256,ES256"))).
    - by apply (parse_token_types_spec (Some (B "at+jwt,application/at+jwt"))).
    - by apply validate_claim_name_spec.
    - split; [by eexists|by left]. }
  unfold pg_oauth_policy_build. destruct (policy_checks config hba) as [e|[a t]] eqn:E.
  - split; [|intros _ ->; by apply policy_checks_error in E].
    intros Hi Hs Haud. rewrite (policy_checks_complete _ _ _ _ (Hok 3 3 Haud Hi Hs eq_refl eq_refl)) in E.
    done.
  - split.
    + intros Hi Hs Haud.
      rewrite (policy_checks_complete _ _ _ _ (Hok 3 3 Haud Hi Hs eq_refl eq_refl)) in E.
      simplify_eq. split; [done|]. by eexists.
    + intros Hne _. apply policy_checks_sound in E as [_ _ _ [Hna _]]. 
      change (is_nonempty (Some audiences) = true) in Hna. congruence.
Qed.
