(* ===== verification/Freshness.v ===== *)
(** * Freshness of responses (src/http_freshness.c, src/http_freshness.h)

    How long a fetched document may be used, from its Cache-Control, Date,
    Expires and Age headers and the administrator's limits.  libcurl's date
    parser is a parameter. *)

From S2P Require Import Prelude Claims.

#[local] Ltac Zify.zify_post_hook ::= Z.div_mod_to_equations.

(** ** Data *)

Inductive PgOAuthHttpFreshnessError :=
| PG_OAUTH_HTTP_FRESHNESS_OK
| PG_OAUTH_HTTP_FRESHNESS_INVALID_ARGUMENT
| PG_OAUTH_HTTP_FRESHNESS_INVALID_HEADER.

#[global] Instance freshness_error_eq_dec : EqDecision PgOAuthHttpFreshnessError.
Proof. solve_decision. Defined.

Record PgOAuthHttpFreshnessPolicy := {
  fp_default_ttl_ms : Z;
  fp_maximum_ttl_ms : Z
}.

Record PgOAuthHttpFreshness := {
  fr_ttl_ms : Z;
  fr_cacheable : bool;
  fr_revalidation_required : bool;
  fr_explicit_freshness : bool
}.

Record CacheControlValues := {
  cv_max_age_seconds : Z;
  cv_has_max_age : bool;
  cv_no_store : bool;
  cv_no_cache : bool;
  cv_must_revalidate : bool
}.

(** ** Definitions *)

Definition trim (s : bytes) : bytes := trim_by is_blank s.

Fixpoint decimal_loop (s : bytes) (parsed : Z) : option Z :=
  match s with
  | [] => Some parsed
  | c :: s =>
      if (bz c <? 48) || (57 <? bz c) then None
      else
        let digit := bz c - 48 in
        if (INT64_MAX - digit) / 10 <? parsed then None
        else decimal_loop s (i64 (parsed * 10 + digit))
  end.

Definition decimal (s : bytes) : option Z :=
  if bool_decide (s = []) then None else decimal_loop s 0.

Definition directive_name (s name : bytes) : bool :=
  (zlen name =? zlen s) && strcaseeq s name.

Definition control_zero : CacheControlValues :=
  {| cv_max_age_seconds := 0; cv_has_max_age := false; cv_no_store := false;
     cv_no_cache := false; cv_must_revalidate := false |}.

Definition equals_sign : byte := x3d.
Definition quote : byte := x22.

(** The text between the quotes, where the number is in quotes. *)
Definition unquote (s : bytes) : bytes :=
  if (2 <=? zlen s) && bool_decide (head s = Some quote) &&
     bool_decide (List.last s x00 = quote)
  then removelast (tail s) else s.

(** One directive: its name, and what follows the equals sign. *)
Definition split_directive (item : bytes) : bytes * option bytes :=
  let '(name, argument) := split_at equals_sign item in (rtrim is_blank name, argument).

Definition control_byte (c : byte) : bool := (bz c <? 32) || (127 <=? bz c).

Definition directive_body (parsed : CacheControlValues) (item : bytes) (_ : bool)
  : CacheControlValues + option CacheControlValues :=
  let item := trim item in
  if bool_decide (item = []) then inr None
  else if existsb control_byte item then inr None
  else
    let '(name, argument) := split_directive item in
    if bool_decide (name = []) then inr None
    else if directive_name name (B "no-store") then
      if bool_decide (is_Some argument) then inr None
      else inl {| cv_max_age_seconds := cv_max_age_seconds parsed;
                  cv_has_max_age := cv_has_max_age parsed; cv_no_store := true;
                  cv_no_cache := cv_no_cache parsed;
                  cv_must_revalidate := cv_must_revalidate parsed |}
    else if directive_name name (B "no-cache") then
      inl {| cv_max_age_seconds := cv_max_age_seconds parsed;
             cv_has_max_age := cv_has_max_age parsed; cv_no_store := cv_no_store parsed;
             cv_no_cache := true; cv_must_revalidate := cv_must_revalidate parsed |}
    else if directive_name name (B "must-revalidate") then
      if bool_decide (is_Some argument) then inr None
      else inl {| cv_max_age_seconds := cv_max_age_seconds parsed;
                  cv_has_max_age := cv_has_max_age parsed; cv_no_store := cv_no_store parsed;
                  cv_no_cache := cv_no_cache parsed; cv_must_revalidate := true |}
    else if directive_name name (B "max-age") then
      match argument with
      | None => inr None
      | Some argument =>
          if cv_has_max_age parsed then inr None
          else match decimal (unquote (trim argument)) with
          | None => inr None
          | Some n => inl {| cv_max_age_seconds := n; cv_has_max_age := true;
                             cv_no_store := cv_no_store parsed; cv_no_cache := cv_no_cache parsed;
                             cv_must_revalidate := cv_must_revalidate parsed |}
          end
      end
    else inl parsed.

Definition parse_cache_control (value : option bytes) : option CacheControlValues :=
  let value := setting value in
  default None (comma_loop directive_body Some (S (length value)) value control_zero).

Definition parse_age (value : option bytes) : option Z :=
  let value := setting value in
  if bool_decide (value = []) then Some 0 else decimal (trim value).

Definition seconds_to_milliseconds (seconds : Z) : Z :=
  if INT64_MAX / 1000 <? seconds then INT64_MAX else i64 (seconds * 1000).

Definition freshness_zero : PgOAuthHttpFreshness :=
  {| fr_ttl_ms := 0; fr_cacheable := false; fr_revalidation_required := false;
     fr_explicit_freshness := false |}.

Section Freshness.
Context (curl_getdate : bytes -> Z).

(** The lifetime of the response in seconds: [None] for an invalid date,
    [Some None] where no header gives one. *)
Definition freshness_lifetime (control : CacheControlValues) (date expires : option bytes)
  (response_time_seconds : Z) : option (option Z) :=
  if cv_has_max_age control then Some (Some (cv_max_age_seconds control))
  else if is_nonempty expires then
    let expires_at := curl_getdate (setting expires) in
    let date_at := if is_nonempty date then curl_getdate (setting date)
                   else response_time_seconds in
    if (expires_at =? -1) || (date_at =? -1) then None
    else Some (Some (if date_at <? expires_at then i64 (expires_at - date_at) else 0))
  else Some None.

(** The age of the response; [None] for an invalid date. *)
Definition apparent_age (date : option bytes) (age_seconds response_time_seconds : Z)
  : option Z :=
  if is_nonempty date then
    let date_at := curl_getdate (setting date) in
    if date_at =? -1 then None
    else if (date_at <? response_time_seconds) &&
            (age_seconds <? i64 (response_time_seconds - date_at))
    then Some (i64 (response_time_seconds - date_at))
    else Some age_seconds
  else Some age_seconds.

(** [if (ttl > maximum) ...; if (no_cache) ...]. *)
Definition bound_ttl (policy : PgOAuthHttpFreshnessPolicy) (control : CacheControlValues)
  (ttl_ms : Z) : Z :=
  let ttl_ms := if fp_maximum_ttl_ms policy <? ttl_ms then fp_maximum_ttl_ms policy
                else ttl_ms in
  if cv_no_cache control then 0 else ttl_ms.

Definition pg_oauth_http_freshness_calculate
  (cache_control date expires age : option bytes) (response_time_seconds : Z)
  (policy : option PgOAuthHttpFreshnessPolicy) (result : option PgOAuthHttpFreshness)
  : PgOAuthHttpFreshnessError * option PgOAuthHttpFreshness :=
  match result with
  | None => (PG_OAUTH_HTTP_FRESHNESS_INVALID_ARGUMENT, None)
  | Some _ =>
  match policy with
  | None => (PG_OAUTH_HTTP_FRESHNESS_INVALID_ARGUMENT, Some freshness_zero)
  | Some policy =>
  if (response_time_seconds <? 0) || (fp_default_ttl_ms policy <? 0) ||
     (fp_maximum_ttl_ms policy <? 0) || (fp_maximum_ttl_ms policy <? fp_default_ttl_ms policy)
  then (PG_OAUTH_HTTP_FRESHNESS_INVALID_ARGUMENT, Some freshness_zero)
  else match parse_cache_control cache_control, parse_age age with
  | Some control, Some age_seconds =>
      let answer explicit ttl :=
        {| fr_ttl_ms := ttl; fr_cacheable := negb (cv_no_store control);
           fr_revalidation_required := cv_no_cache control || cv_must_revalidate control;
           fr_explicit_freshness := explicit |} in
      match freshness_lifetime control date expires response_time_seconds with
      | None => (PG_OAUTH_HTTP_FRESHNESS_INVALID_HEADER, Some (answer false 0))
      | Some None =>
          (PG_OAUTH_HTTP_FRESHNESS_OK,
           Some (answer false (bound_ttl policy control (fp_default_ttl_ms policy))))
      | Some (Some freshness_seconds) =>
          match apparent_age date age_seconds response_time_seconds with
          | None => (PG_OAUTH_HTTP_FRESHNESS_INVALID_HEADER, Some (answer true 0))
          | Some apparent_age =>
              let ttl := if freshness_seconds <=? apparent_age then 0
                         else seconds_to_milliseconds (i64 (freshness_seconds - apparent_age)) in
              (PG_OAUTH_HTTP_FRESHNESS_OK, Some (answer true (bound_ttl policy control ttl)))
          end
      end
  | _, _ => (PG_OAUTH_HTTP_FRESHNESS_INVALID_HEADER, Some freshness_zero)
  end end end.
End Freshness.

(** The text after the switch is for values outside the enumeration, which no
    caller passes. *)
Definition pg_oauth_http_freshness_error_code (error : PgOAuthHttpFreshnessError) : bytes :=
  match error with
  | PG_OAUTH_HTTP_FRESHNESS_OK => B "http_freshness_ok"
  | PG_OAUTH_HTTP_FRESHNESS_INVALID_ARGUMENT => B "http_freshness_invalid_argument"
  | PG_OAUTH_HTTP_FRESHNESS_INVALID_HEADER => B "http_freshness_invalid_header"
  end.

(** ** Decimal numbers *)

Definition is_digit (c : byte) : Prop := 48 <= bz c <= 57.
Definition digits_value (s : bytes) : Z := foldl (fun acc c => acc * 10 + (bz c - 48)) 0 s.

Lemma foldl_digits_ge s acc :
  Forall is_digit s -> 0 <= acc -> acc <= foldl (fun acc c => acc * 10 + (bz c - 48)) acc s.
Proof.
  intros Hs. revert acc. induction Hs as [|c s Hc _ IH]; intros acc Ha; simpl; [lia|].
  unfold is_digit in Hc. specialize (IH (acc * 10 + (bz c - 48)) ltac:(lia)). lia.
Qed.

Lemma decimal_loop_spec s acc n :
  0 <= acc <= INT64_MAX ->
  decimal_loop s acc = Some n <->
  Forall is_digit s /\ n = foldl (fun acc c => acc * 10 + (bz c - 48)) acc s /\ n <= INT64_MAX.
Proof.
  revert acc. induction s as [|c s IH]; intros acc Ha; simpl.
  { split; [intros [= <-]; split_and!; (constructor || lia)|by intros (_ & -> & _)]. }
  rewrite Forall_cons. unfold is_digit at 1.
  destruct (Z.ltb_spec (bz c) 48), (Z.ltb_spec 57 (bz c)); simpl; try (split; [done|lia]).
  destruct (Z.ltb_spec ((INT64_MAX - (bz c - 48)) / 10) acc) as [Hov|Hov].
  - split; [done|]. intros ([_ Hs] & -> & Hn).
    pose proof (foldl_digits_ge s (acc * 10 + (bz c - 48)) Hs ltac:(lia)). lia.
  - rewrite i64_id by (unfold INT64_MIN, INT64_MAX in *; lia).
    rewrite IH by (unfold INT64_MAX in *; lia). intuition lia.
Qed.

Lemma decimal_spec s n :
  decimal s = Some n <->
  s <> [] /\ Forall is_digit s /\ n = digits_value s /\ n <= INT64_MAX.
Proof.
  unfold decimal. case_bool_decide; [naive_solver|].
  rewrite decimal_loop_spec by done. naive_solver.
Qed.

Lemma decimal_range s n : decimal s = Some n -> 0 <= n <= INT64_MAX.
Proof.
  intros (_ & Hs & -> & Hn)%decimal_spec. split; [|done].
  apply (foldl_digits_ge s 0); [done|lia].
Qed.

(** ** Cache-Control *)

(** An element of the header is the directive [name]. *)
Definition named (name item : bytes) : bool :=
  directive_name (fst (split_directive (trim item))) name.

Definition argument_of (item : bytes) : option bytes := snd (split_directive (trim item)).

Definition elements (value : option bytes) : list bytes := split_on comma (setting value).

Lemma directive_name_lower s name :
  directive_name s name = true -> map tolower s = map tolower name.
Proof. unfold directive_name, strcaseeq. intros H. by prop_bools. Qed.

Lemma directive_name_other s a b :
  directive_name s a = true -> map tolower a <> map tolower b -> directive_name s b = false.
Proof.
  intros Ha Hne. apply not_true_iff_false. intros Hb.
  apply directive_name_lower in Ha, Hb. congruence.
Qed.

(** What one directive adds. *)
Record directive_effect (st : CacheControlValues) (item : bytes) (st' : CacheControlValues)
  : Prop := {
  de_no_store : cv_no_store st' = cv_no_store st || named (B "no-store") item;
  de_no_cache : cv_no_cache st' = cv_no_cache st || named (B "no-cache") item;
  de_must_revalidate :
    cv_must_revalidate st' = cv_must_revalidate st || named (B "must-revalidate") item;
  de_max_age : named (B "max-age") item = true ->
    cv_has_max_age st = false /\ cv_has_max_age st' = true /\
    exists a, argument_of item = Some a /\
      decimal (unquote (trim a)) = Some (cv_max_age_seconds st');
  de_other : named (B "max-age") item = false ->
    cv_has_max_age st' = cv_has_max_age st /\
    cv_max_age_seconds st' = cv_max_age_seconds st
}.

Lemma directive_body_effect st item b st' :
  directive_body st item b = inl st' -> directive_effect st item st'.
Proof.
  unfold directive_body. intros Hb. do 2 (case_match; [done|]).
  destruct (split_directive (trim item)) as [name argument] eqn:Es.
  assert (forall n, named n item = directive_name name n) as Hn
    by (intros n; unfold named; by rewrite Es).
  assert (argument_of item = argument) as Harg by (unfold argument_of; by rewrite Es).
  case_match; [done|].
  destruct (directive_name name (B "no-store")) eqn:E1;
    [|destruct (directive_name name (B "no-cache")) eqn:E2;
      [|destruct (directive_name name (B "must-revalidate")) eqn:E3;
        [|destruct (directive_name name (B "max-age")) eqn:E4]]].
  all: try (repeat case_match; simplify_eq/=;
    split; rewrite !Hn, ?Harg, ?E1, ?E2, ?E3, ?E4; simpl;
    rewrite ?(directive_name_other _ _ (B "no-cache") E1), ?(directive_name_other _ _ (B "must-revalidate") E1),
      ?(directive_name_other _ _ (B "max-age") E1), ?(directive_name_other _ _ (B "must-revalidate") E2),
      ?(directive_name_other _ _ (B "max-age") E2), ?(directive_name_other _ _ (B "max-age") E3) by done;
    rewrite ?orb_true_r, ?orb_false_r; eauto; done).
Qed.

Lemma directives_effect segs st st' :
  segment_pass directive_body Some segs st = Some st' ->
  cv_no_store st' = cv_no_store st || existsb (named (B "no-store")) segs /\
  cv_no_cache st' = cv_no_cache st || existsb (named (B "no-cache")) segs /\
  cv_must_revalidate st' =
    cv_must_revalidate st || existsb (named (B "must-revalidate")) segs /\
  (if cv_has_max_age st then
     cv_has_max_age st' = true /\ cv_max_age_seconds st' = cv_max_age_seconds st /\
     existsb (named (B "max-age")) segs = false
   else if cv_has_max_age st' then
     exists item a, item ∈ segs /\ named (B "max-age") item = true /\
       argument_of item = Some a /\ decimal (unquote (trim a)) = Some (cv_max_age_seconds st')
   else existsb (named (B "max-age")) segs = false).
Proof.
  revert st. induction segs as [|item segs IH]; intros st Hp.
  { injection Hp as <-. simpl. rewrite !orb_false_r. split_and!; try done.
    by destruct (cv_has_max_age st). }
  assert ((item = [] /\ segs = []) \/
    match directive_body st item (bool_decide (segs = [[]])) with
    | inr r => r = Some st' | inl st1 => segment_pass directive_body Some segs st1 = Some st' end)
    as [[-> ->]|Hstep].
  { destruct item as [|c item], segs as [|s segs]; [by left|right..]; cbn [segment_pass] in Hp;
      by destruct (directive_body _ _ _). }
  { injection Hp as <-. simpl. rewrite !orb_false_r. split_and!; try done.
    by destruct (cv_has_max_age st). }
  destruct (directive_body st item _) as [st1|r] eqn:Eb.
  2:{ exfalso. subst r. revert Eb. unfold directive_body. repeat case_match; done. }
  apply directive_body_effect in Eb as [Es Ec Em Ea Eo].
  destruct (IH _ Hstep) as (Hs & Hc & Hm & Hmax). simpl existsb.
  rewrite !orb_assoc, <- Es, <- Ec, <- Em. split_and!; try done.
  destruct (named (B "max-age") item) eqn:En.
  - destruct (Ea eq_refl) as (-> & E1 & a & Harg & Hd). rewrite E1 in Hmax.
    destruct Hmax as (-> & Hv & _). exists item, a. rewrite Hv.
    split_and!; try done. apply list_elem_of_here.
  - destruct (Eo eq_refl) as [E1 E2]. rewrite E1, E2 in Hmax. simpl.
    destruct (cv_has_max_age st); [done|]. destruct (cv_has_max_age st'); [|done].
    destruct Hmax as (item' & a & Hin & ?). exists item', a.
    split; [by apply list_elem_of_further|done].
Qed.

Lemma parse_cache_control_spec value control :
  parse_cache_control value = Some control ->
  cv_no_store control = existsb (named (B "no-store")) (elements value) /\
  cv_no_cache control = existsb (named (B "no-cache")) (elements value) /\
  cv_must_revalidate control = existsb (named (B "must-revalidate")) (elements value) /\
  (if cv_has_max_age control then
     exists item a, item ∈ elements value /\ named (B "max-age") item = true /\
       argument_of item = Some a /\
       decimal (unquote (trim a)) = Some (cv_max_age_seconds control)
   else existsb (named (B "max-age")) (elements value) = false).
Proof.
  unfold parse_cache_control. rewrite comma_loop_segments by lia. simpl.
  intros Hp. apply directives_effect in Hp. exact Hp.
Qed.

(** ** Lifetimes *)

Lemma parse_age_range value n : parse_age value = Some n -> 0 <= n <= INT64_MAX.
Proof.
  unfold parse_age. case_bool_decide; [intros [= <-]; done|]. apply decimal_range.
Qed.

Lemma to_milliseconds_spec s :
  0 <= s -> seconds_to_milliseconds s = Z.min INT64_MAX (s * 1000) \/
            seconds_to_milliseconds s = INT64_MAX /\ INT64_MAX / 1000 < s.
Proof.
  intros Hs. unfold seconds_to_milliseconds.
  destruct (Z.ltb_spec (INT64_MAX / 1000) s); [by right|left].
  rewrite i64_id by (unfold INT64_MIN, INT64_MAX in *; lia). unfold INT64_MAX in *. lia.
Qed.

Lemma to_milliseconds_range s :
  0 <= s -> 0 <= seconds_to_milliseconds s <= INT64_MAX /\ seconds_to_milliseconds s <= s * 1000.
Proof.
  intros Hs. destruct (to_milliseconds_spec s Hs) as [->|[-> ?]]; unfold INT64_MAX in *; lia.
Qed.

Lemma bound_ttl_range policy control ttl :
  0 <= fp_maximum_ttl_ms policy -> 0 <= ttl ->
  0 <= bound_ttl policy control ttl <= fp_maximum_ttl_ms policy /\
  bound_ttl policy control ttl <= ttl /\
  (cv_no_cache control = true -> bound_ttl policy control ttl = 0).
Proof.
  intros Hm Ht. unfold bound_ttl. destruct (cv_no_cache control); [lia|].
  destruct (Z.ltb_spec (fp_maximum_ttl_ms policy) ttl); split_and!; (done || lia).
Qed.

Section Lifetimes.
Context (curl_getdate : bytes -> Z).

Lemma apparent_age_ge date age now a :
  0 <= age -> apparent_age curl_getdate date age now = Some a -> age <= a.
Proof.
  unfold apparent_age. intros Hage Ha. repeat case_match; simplify_eq; try lia.
Qed.

Lemma lifetime_range control date expires now f :
  (cv_has_max_age control = true -> 0 <= cv_max_age_seconds control <= INT64_MAX) ->
  freshness_lifetime curl_getdate control date expires now = Some (Some f) -> f <= INT64_MAX.
Proof.
  unfold freshness_lifetime. intros Hm Hf.
  repeat case_match; simplify_eq; first [by apply Hm|apply i64_range|by unfold INT64_MAX].
Qed.

(** What the code computes, once the two headers are parsed. *)
Lemma calculate_ok cache_control date expires age now policy old r :
  pg_oauth_http_freshness_calculate curl_getdate cache_control date expires age now
    (Some policy) (Some old) = (PG_OAUTH_HTTP_FRESHNESS_OK, Some r) ->
  exists control age_seconds,
    parse_cache_control cache_control = Some control /\ parse_age age = Some age_seconds /\
    0 <= fp_default_ttl_ms policy <= fp_maximum_ttl_ms policy /\ 0 <= now /\
    fr_cacheable r = negb (cv_no_store control) /\
    fr_revalidation_required r = cv_no_cache control || cv_must_revalidate control /\
    exists ttl, fr_ttl_ms r = bound_ttl policy control ttl /\
      match freshness_lifetime curl_getdate control date expires now with
      | Some None => ttl = fp_default_ttl_ms policy
      | Some (Some f) => exists a, apparent_age curl_getdate date age_seconds now = Some a /\
          ttl = if f <=? a then 0 else seconds_to_milliseconds (i64 (f - a))
      | None => False
      end.
Proof.
  unfold pg_oauth_http_freshness_calculate. case_match eqn:Eg; [done|]. prop_bools.
  destruct (parse_cache_control cache_control) as [control|]; [|done].
  destruct (parse_age age) as [age_seconds|]; [|done].
  destruct (freshness_lifetime _ _ _ _ _) as [[f|]|] eqn:Ef; [| |done].
  - destruct (apparent_age _ _ _ _) as [a|] eqn:Ea; [|done]. intros [= <-].
    exists control, age_seconds. simpl. rewrite Ef. split_and!; try done; try lia.
    eexists. split; [done|]. by exists a.
  - intros [= <-]. exists control, age_seconds. simpl. rewrite Ef.
    split_and!; try done; try lia. by eexists.
Qed.
End Lifetimes.

Module FreshnessExample.
Definition getdate (s : bytes) : Z := if bytes_eqb s (B "now") then 1000 else -1.
Definition policy : PgOAuthHttpFreshnessPolicy :=
  {| fp_default_ttl_ms := 300000; fp_maximum_ttl_ms := 3600000 |}.
Definition cache_control : option bytes := Some (B "public, Max-Age=60, must-revalidate").
End FreshnessExample.

(** ** Properties *)

(** C33: freshness is bounded and honours the headers.  In every successful
    answer the lifetime is between zero and the administrator's maximum; a
    [no-store] response is not cacheable; [no-cache] gives lifetime zero, and
    [no-cache] or [must-revalidate] forbid stale use; a lifetime from [max-age]
    never exceeds that many seconds less the response's age. *)
Theorem freshness_limits curl_getdate cache_control date expires age now policy old r :
  pg_oauth_http_freshness_calculate curl_getdate cache_control date expires age now
    (Some policy) (Some old) = (PG_OAUTH_HTTP_FRESHNESS_OK, Some r) ->
  0 <= fr_ttl_ms r <= fp_maximum_ttl_ms policy /\
  fr_cacheable r = negb (existsb (named (B "no-store")) (elements cache_control)) /\
  fr_revalidation_required r =
    existsb (named (B "no-cache")) (elements cache_control) ||
    existsb (named (B "must-revalidate")) (elements cache_control) /\
  (existsb (named (B "no-cache")) (elements cache_control) = true -> fr_ttl_ms r = 0) /\
  (existsb (named (B "max-age")) (elements cache_control) = true ->
   exists item a n age_seconds, item ∈ elements cache_control /\
     named (B "max-age") item = true /\ argument_of item = Some a /\
     decimal (unquote (trim a)) = Some n /\ parse_age age = Some age_seconds /\
     fr_ttl_ms r <= 1000 * Z.max 0 (n - age_seconds)).
Proof.
  intros (control & age_s & Hc & Ha & Hpol & Hnow & -> & -> & ttl & -> & Hl)%calculate_ok.
  destruct (parse_cache_control_spec _ _ Hc) as (Es & En & Em & Hmax).
  pose proof (parse_age_range _ _ Ha) as Hage.
  assert (cv_has_max_age control = true -> 0 <= cv_max_age_seconds control <= INT64_MAX) as Hma.
  { intros E. rewrite E in Hmax. destruct Hmax as (_ & a & _ & _ & _ & Hd). by eapply decimal_range. }
  assert (0 <= ttl /\ (forall f, freshness_lifetime curl_getdate control date expires now =
    Some (Some f) -> ttl <= 1000 * Z.max 0 (f - age_s))) as [Ht Hle].
  { destruct (freshness_lifetime _ _ _ _ _) as [[f|]|] eqn:Ef; [| |done].
    - destruct Hl as (a & Hap & ->). apply apparent_age_ge in Hap; [|lia].
      apply lifetime_range in Ef; [|done].
      destruct (Z.leb_spec f a); [split; [lia|intros ? [= <-]; lia]|].
      rewrite i64_id by (unfold INT64_MIN in *; lia).
      pose proof (to_milliseconds_range (f - a) ltac:(lia)). split; [lia|intros ? [= <-]; lia].
    - subst ttl. split; [lia|done]. }
  destruct (bound_ttl_range policy control ttl ltac:(lia) Ht) as (Hb & Hbl & Hb0).
  rewrite <- Es, <- En, <- Em. split_and!; try done; try lia.
  intros Hex. destruct (cv_has_max_age control) eqn:Eh; [|congruence].
  destruct Hmax as (item & a & Hin & Hn & Harg & Hd). exists item, a, (cv_max_age_seconds control), age_s.
  split_and!; try done. transitivity ttl; [done|]. apply Hle. unfold freshness_lifetime. by rewrite Eh.
Qed.

Lemma freshness_limits_witness :
  exists r, pg_oauth_http_freshness_calculate FreshnessExample.getdate
      FreshnessExample.cache_control (Some (B "now")) None (Some (B "5")) 1020
      (Some FreshnessExample.policy) (Some freshness_zero) =
    (PG_OAUTH_HTTP_FRESHNESS_OK, Some r) /\ fr_ttl_ms r = 40000 /\
    0 <= fr_ttl_ms r <= fp_maximum_ttl_ms FreshnessExample.policy.
Proof.
  eexists. assert (pg_oauth_http_freshness_calculate FreshnessExample.getdate
    FreshnessExample.cache_control (Some (B "now")) None (Some (B "5")) 1020
    (Some FreshnessExample.policy) (Some freshness_zero) =
    (PG_OAUTH_HTTP_FRESHNESS_OK, Some {| fr_ttl_ms := 40000; fr_cacheable := true;
      fr_revalidation_required := true; fr_explicit_freshness := true |})) as E
    by (vm_compute; reflexivity).
  split; [exact E|]. split; [reflexivity|]. apply (freshness_limits _ _ _ _ _ _ _ _ _ E).
Defined.

(** The age of a response at [now]: what its Age header says or, where it has a
    Date that makes it older, its age by that date. *)
Definition response_age (curl_getdate : bytes -> Z) (date : option bytes) (age_seconds now : Z) : Z :=
  if is_nonempty date then Z.max age_seconds (now - curl_getdate (setting date)) else age_seconds.

Lemma apparent_age_exact curl_getdate date age_seconds now :
  (forall s, - 2 ^ 61 <= curl_getdate s <= 2 ^ 61) -> 0 <= now <= 2 ^ 61 -> 0 <= age_seconds ->
  apparent_age curl_getdate date age_seconds now =
  if is_nonempty date && (curl_getdate (setting date) =? -1) then None
  else Some (response_age curl_getdate date age_seconds now).
Proof.
  intros Hdate Hnow Hage. unfold apparent_age, response_age. destruct (is_nonempty date); [|done].
  specialize (Hdate (setting date)). set (d := curl_getdate (setting date)) in *. simpl.
  destruct (d =? -1); [done|]. rewrite i64_id by (unfold INT64_MIN, INT64_MAX; lia).
  destruct (Z.ltb_spec d now), (Z.ltb_spec age_seconds (now - d)); simpl; f_equal; lia.
Qed.

(** Cutting the seconds that are left to the maximum. *)
Lemma remaining_ttl policy control f a :
  0 <= fp_maximum_ttl_ms policy <= INT64_MAX -> 0 <= f <= INT64_MAX -> 0 <= a ->
  bound_ttl policy control (if f <=? a then 0 else seconds_to_milliseconds (i64 (f - a))) =
  if cv_no_cache control then 0 else Z.min (fp_maximum_ttl_ms policy) (1000 * Z.max 0 (f - a)).
Proof.
  intros Hmax Hf Ha. unfold bound_ttl. destruct (cv_no_cache control); [done|].
  destruct (Z.leb_spec f a).
  - destruct (Z.ltb_spec (fp_maximum_ttl_ms policy) 0); lia.
  - rewrite i64_id by (unfold INT64_MIN, INT64_MAX in *; lia).
    destruct (to_milliseconds_spec (f - a) ltac:(lia)) as [->|[-> ?]].
    all: match goal with |- context [?x <? ?y] => destruct (Z.ltb_spec x y) end.
    all: unfold INT64_MAX in *; lia.
Qed.

(** C34: the lifetime of a response with [max-age] is exact, with or without a
    Date header.  A Date that is no date is an error.  Otherwise the lifetime is
    zero if the response has [no-cache], and else the seconds of [max-age] less
    the age of the response (its Age header or, if that is more, its age by its
    Date), in milliseconds and cut to the maximum.  Dates are taken to be within
    2^61 seconds of the epoch, so no subtraction wraps. *)
Theorem freshness_max_age_exact curl_getdate cache_control date expires age now policy old
    control age_seconds :
  (forall s, - 2 ^ 61 <= curl_getdate s <= 2 ^ 61) -> 0 <= now <= 2 ^ 61 ->
  0 <= fp_default_ttl_ms policy <= fp_maximum_ttl_ms policy ->
  fp_maximum_ttl_ms policy <= INT64_MAX ->
  parse_cache_control cache_control = Some control ->
  existsb (named (B "max-age")) (elements cache_control) = true ->
  parse_age age = Some age_seconds ->
  if is_nonempty date && (curl_getdate (setting date) =? -1)
  then fst (pg_oauth_http_freshness_calculate curl_getdate cache_control date expires age now
              (Some policy) (Some old)) = PG_OAUTH_HTTP_FRESHNESS_INVALID_HEADER
  else exists r item a n,
    pg_oauth_http_freshness_calculate curl_getdate cache_control date expires age now
      (Some policy) (Some old) = (PG_OAUTH_HTTP_FRESHNESS_OK, Some r) /\
    item ∈ elements cache_control /\ named (B "max-age") item = true /\
    argument_of item = Some a /\ decimal (unquote (trim a)) = Some n /\
    fr_explicit_freshness r = true /\
    fr_ttl_ms r =
      if existsb (named (B "no-cache")) (elements cache_control) then 0
      else Z.min (fp_maximum_ttl_ms policy)
             (1000 * Z.max 0 (n - response_age curl_getdate date age_seconds now)).
Proof.
  intros Hdate Hnow Hpol Hmax Hc Hm Ha.
  destruct (parse_cache_control_spec _ _ Hc) as (_ & Hnc & _ & Hitem).
  destruct (cv_has_max_age control) eqn:Eh; [|congruence].
  destruct Hitem as (item & a & Hin & Hn & Harg & Hdec). pose proof (decimal_range _ _ Hdec) as Hr.
  pose proof (parse_age_range _ _ Ha) as Hage.
  pose proof (apparent_age_exact curl_getdate date age_seconds now Hdate Hnow ltac:(lia)) as Hap.
  unfold pg_oauth_http_freshness_calculate, freshness_lifetime.
  replace ((now <? 0) || (fp_default_ttl_ms policy <? 0) || (fp_maximum_ttl_ms policy <? 0) ||
    (fp_maximum_ttl_ms policy <? fp_default_ttl_ms policy)) with false by lia.
  rewrite Hc, Ha, Eh, Hap, <- Hnc. destruct (is_nonempty date && _); [done|].
  eexists _, item, a, _. split_and!; [reflexivity|done..|]. simpl. apply remaining_ttl; [lia..|].
  unfold response_age. destruct (is_nonempty date); lia.
Qed.

(** With a Date and an Age; and, as in most responses, with neither. *)
Lemma freshness_max_age_exact_witness :
  (exists r, pg_oauth_http_freshness_calculate FreshnessExample.getdate
      FreshnessExample.cache_control (Some (B "now")) None (Some (B "5")) 1020
      (Some FreshnessExample.policy) (Some freshness_zero) =
    (PG_OAUTH_HTTP_FRESHNESS_OK, Some r) /\ fr_ttl_ms r = 40000) /\
  (exists r, pg_oauth_http_freshness_calculate FreshnessExample.getdate
      FreshnessExample.cache_control None None None 1020
      (Some FreshnessExample.policy) (Some freshness_zero) =
    (PG_OAUTH_HTTP_FRESHNESS_OK, Some r) /\ fr_ttl_ms r = 60000).
Proof.
  assert (forall s, - 2 ^ 61 <= FreshnessExample.getdate s <= 2 ^ 61) as Hd.
  { intros s. unfold FreshnessExample.getdate. destruct (bytes_eqb s (B "now")); lia. }
  set (control := {| cv_max_age_seconds := 60; cv_has_max_age := true; cv_no_store := false;
    cv_no_cache := false; cv_must_revalidate := true |}).
  split.
  - destruct (freshness_max_age_exact FreshnessExample.getdate FreshnessExample.cache_control
      (Some (B "now")) None (Some (B "5")) 1020 FreshnessExample.policy freshness_zero control 5 Hd)
      as (r & _ & _ & _ & Hr & _); [by vm_compute..|].
    exists r. split; [exact Hr|]. vm_compute in Hr. injection Hr as <-. reflexivity.
  - destruct (freshness_max_age_exact FreshnessExample.getdate FreshnessExample.cache_control
      None None None 1020 FreshnessExample.policy freshness_zero control 0 Hd)
      as (r & _ & _ & _ & Hr & _); [by vm_compute..|].
    exists r. split; [exact Hr|]. vm_compute in Hr. injection Hr as <-. reflexivity.
Defined.
