(* ===== verification/Transport.v ===== *)
(** * HTTP transport (src/http_transport.c, src/http_transport.h)

    One bounded GET of a JSON document from an allowed host.  libcurl is a
    parameter: its URL parser is the class [CurlUrl], and a transfer it performs
    is a value of [Transfer], with the answers of every call and the data handed
    to the two callbacks.  The build is against libcurl 7.87 or later, where the
    protocol options take names and CURLOPT_QUICK_EXIT exists. *)

From S2P Require Import Prelude Claims.

(** ** Data *)

Definition PG_OAUTH_MAX_FRESHNESS_HEADER_SIZE : Z := 4096.

Inductive PgOAuthHttpError :=
| PG_OAUTH_HTTP_OK
| PG_OAUTH_HTTP_INVALID_ARGUMENT
| PG_OAUTH_HTTP_INVALID_URL
| PG_OAUTH_HTTP_INSECURE_URL
| PG_OAUTH_HTTP_HOST_NOT_ALLOWED
| PG_OAUTH_HTTP_TIMEOUT
| PG_OAUTH_HTTP_INTERRUPTED
| PG_OAUTH_HTTP_TLS_FAILURE
| PG_OAUTH_HTTP_RESPONSE_TOO_LARGE
| PG_OAUTH_HTTP_STATUS
| PG_OAUTH_HTTP_CONTENT_TYPE
| PG_OAUTH_HTTP_NETWORK_FAILURE
| PG_OAUTH_HTTP_OUT_OF_MEMORY.

#[global] Instance http_error_eq_dec : EqDecision PgOAuthHttpError.
Proof. solve_decision. Defined.

(** [hp_cancel_requested] is whether the callback is set; its answers are part
    of the transfer. *)
Record PgOAuthHttpPolicy := {
  hp_max_url_size : Z;
  hp_max_response_size : Z;
  hp_connect_timeout_ms : Z;
  hp_total_timeout_ms : Z;
  hp_allowed_host : option bytes;
  hp_additional_allowed_hosts : option bytes;
  hp_ca_file : option bytes;
  hp_allow_insecure_http : bool;
  hp_cancel_requested : bool
}.

Record PgOAuthHttpResponse := {
  rs_body : option bytes;
  rs_status : Z;
  rs_cache_control : option bytes;
  rs_date : option bytes;
  rs_expires : option bytes;
  rs_age : option bytes
}.

Definition response_zero : PgOAuthHttpResponse :=
  {| rs_body := None; rs_status := 0; rs_cache_control := None; rs_date := None;
     rs_expires := None; rs_age := None |}.

Record ResponseBuffer := {
  bf_data : option bytes;
  bf_maximum : Z;
  bf_too_large : bool;
  bf_out_of_memory : bool
}.

Definition bf_length (b : ResponseBuffer) : Z := zlen (default [] (bf_data b)).

Record HeaderBuffer := {
  hd_response : PgOAuthHttpResponse;
  hd_too_large : bool;
  hd_out_of_memory : bool
}.

(** ** libcurl *)

Inductive CURLUPart := CURLUPART_HOST | CURLUPART_USER | CURLUPART_PASSWORD | CURLUPART_FRAGMENT.

(** [curl_url_set] and [curl_url_get] give [None] for a result other than
    CURLUE_OK. *)
Class CurlUrl := {
  CURLU : Type;
  curl_url : bool;
  curl_url_set : bytes -> option CURLU;
  curl_url_get : CURLU -> CURLUPart -> option bytes
}.

Inductive CURLcode :=
| CURLE_OK
| CURLE_FILESIZE_EXCEEDED
| CURLE_OPERATION_TIMEDOUT
| CURLE_PEER_FAILED_VERIFICATION
| CURLE_SSL_CONNECT_ERROR
| CURLE_SSL_CACERT_BADFILE
| CURLE_SSL_CERTPROBLEM
| CURLE_OTHER.

#[global] Instance curlcode_eq_dec : EqDecision CURLcode.
Proof. solve_decision. Defined.

(** The options the code sets. *)
Inductive setopt :=
| CURLOPT_CURLU
| CURLOPT_HTTPHEADER (header : bytes)
| CURLOPT_HTTPGET (on : Z)
| CURLOPT_FOLLOWLOCATION (on : Z)
| CURLOPT_MAXREDIRS (n : Z)
| CURLOPT_PROTOCOLS (names : bytes)
| CURLOPT_REDIR_PROTOCOLS (names : bytes)
| CURLOPT_SSL_VERIFYPEER (on : Z)
| CURLOPT_SSL_VERIFYHOST (level : Z)
| CURLOPT_SSLVERSION_TLSv1_2
| CURLOPT_NOSIGNAL (on : Z)
| CURLOPT_QUICK_EXIT (on : Z)
| CURLOPT_NETRC_IGNORED
| CURLOPT_PROXY (proxy : bytes)
| CURLOPT_CONNECTTIMEOUT_MS (ms : Z)
| CURLOPT_TIMEOUT_MS (ms : Z)
| CURLOPT_MAXFILESIZE_LARGE (size : Z)
| CURLOPT_WRITEFUNCTION_append_response
| CURLOPT_WRITEDATA
| CURLOPT_HEADERFUNCTION_capture_header
| CURLOPT_HEADERDATA
| CURLOPT_CAINFO (file : bytes).

(** One call of a callback during [curl_multi_perform]. *)
Inductive chunk :=
| header_chunk (contents : bytes)
| body_chunk (contents : bytes).

(** One turn of the loop: the answer of [cancel_requested], the callbacks, and
    the results of [curl_multi_perform] and [curl_multi_poll]. *)
Record round := {
  rd_cancel : bool;
  rd_chunks : list chunk;
  rd_perform_ok : bool;
  rd_poll_ok : bool
}.

(** CURLOPT_TIMEOUT_MS ends every transfer, so the turns are finitely many; in
    the last one nothing is [running] any more. *)
Inductive rounds :=
| last_round (r : round)
| more_rounds (r : round) (rest : rounds).

Record Transfer := {
  tr_easy_init : bool;
  tr_async_dns : option bool;
  tr_version_num : Z;
  tr_slist_append : bool;
  tr_setopt : setopt -> bool;
  tr_multi_init : bool;
  tr_add_handle : bool;
  tr_rounds : rounds;
  tr_cancel_after : bool;
  tr_message : option CURLcode;
  tr_status : option Z;
  tr_content_type : option (option bytes);
  tr_realloc : Z -> bool
}.

(** ** Callbacks *)

Definition append_response (realloc : Z -> bool) (contents : bytes) (size count : Z)
  (buffer : ResponseBuffer) : Z * ResponseBuffer :=
  if negb (size =? 0) && (SIZE_MAX / size <? count)
  then (0, {| bf_data := bf_data buffer; bf_maximum := bf_maximum buffer;
              bf_too_large := true; bf_out_of_memory := bf_out_of_memory buffer |})
  else
    let bytes := u64 (size * count) in
    if u64 (bf_maximum buffer - bf_length buffer) <? bytes
    then (0, {| bf_data := bf_data buffer; bf_maximum := bf_maximum buffer;
                bf_too_large := true; bf_out_of_memory := bf_out_of_memory buffer |})
    else if negb (realloc (u64 (bf_length buffer + bytes + 1)))
    then (0, {| bf_data := bf_data buffer; bf_maximum := bf_maximum buffer;
                bf_too_large := bf_too_large buffer; bf_out_of_memory := true |})
    else (bytes, {| bf_data := Some (default [] (bf_data buffer) ++
                                      take (Z.to_nat bytes) contents);
                    bf_maximum := bf_maximum buffer; bf_too_large := bf_too_large buffer;
                    bf_out_of_memory := bf_out_of_memory buffer |}).

(** The new text of the header, or [None] where the function returns false. *)
Definition append_header_value (realloc : Z -> bool) (target : option bytes) (value : bytes)
  : option bytes :=
  let text := default [] (c_str <$> target) in
  let current := zlen text in
  let separator := if 0 <? current then 1 else 0 in
  if u64 (PG_OAUTH_MAX_FRESHNESS_HEADER_SIZE - current - separator) <? zlen value then None
  else if negb (realloc (u64 (current + separator + zlen value + 1))) then None
  else Some (text ++ (if negb (separator =? 0) then [comma] else []) ++ value).

Inductive freshness_header := h_cache_control | h_date | h_expires | h_age.

(** The header a line is for, and the rest of the line. *)
Definition header_target (contents : bytes) : option (freshness_header * bytes) :=
  match split_at x3a contents with
  | (_, None) => None
  | (name, Some rest) =>
      if (zlen name =? 13) && strcaseeq name (B "Cache-Control")
      then Some (h_cache_control, rest)
      else if (zlen name =? 4) && strcaseeq name (B "Date") then Some (h_date, rest)
      else if (zlen name =? 7) && strcaseeq name (B "Expires") then Some (h_expires, rest)
      else if (zlen name =? 3) && strcaseeq name (B "Age") then Some (h_age, rest)
      else None
  end.

Definition get_header (h : freshness_header) (r : PgOAuthHttpResponse) : option bytes :=
  match h with
  | h_cache_control => rs_cache_control r
  | h_date => rs_date r
  | h_expires => rs_expires r
  | h_age => rs_age r
  end.

Definition set_header (h : freshness_header) (v : bytes) (r : PgOAuthHttpResponse)
  : PgOAuthHttpResponse :=
  {| rs_body := rs_body r; rs_status := rs_status r;
     rs_cache_control := match h with h_cache_control => Some v | _ => rs_cache_control r end;
     rs_date := match h with h_date => Some v | _ => rs_date r end;
     rs_expires := match h with h_expires => Some v | _ => rs_expires r end;
     rs_age := match h with h_age => Some v | _ => rs_age r end |}.

Definition line_end (c : byte) : bool :=
  bool_decide (c = x0d) || bool_decide (c = x0a) || is_blank c.

Definition capture_header (realloc : Z -> bool) (contents : bytes) (size count : Z)
  (headers : HeaderBuffer) : Z * HeaderBuffer :=
  if negb (size =? 0) && (SIZE_MAX / size <? count)
  then (0, {| hd_response := hd_response headers; hd_too_large := true;
              hd_out_of_memory := hd_out_of_memory headers |})
  else
    let bytes := u64 (size * count) in
    match header_target (take (Z.to_nat bytes) contents) with
    | None => (bytes, headers)
    | Some (h, rest) =>
        let value := rtrim line_end (ltrim is_blank rest) in
        let target := get_header h (hd_response headers) in
        match append_header_value realloc target value with
        | Some text =>
            (bytes, {| hd_response := set_header h text (hd_response headers);
                       hd_too_large := hd_too_large headers;
                       hd_out_of_memory := hd_out_of_memory headers |})
        | None =>
            if bool_decide (is_Some target) || (PG_OAUTH_MAX_FRESHNESS_HEADER_SIZE <? zlen value)
            then (0, {| hd_response := hd_response headers; hd_too_large := true;
                        hd_out_of_memory := hd_out_of_memory headers |})
            else (0, {| hd_response := hd_response headers;
                        hd_too_large := hd_too_large headers; hd_out_of_memory := true |})
        end
    end.

(** ** URLs *)

Definition starts_with (prefix s : bytes) : bool :=
  bytes_eqb (take (length prefix) s) prefix.

(** [length > strlen(prefix) && memcmp(value, prefix, strlen(prefix)) == 0]. *)
Definition has_scheme (prefix value : bytes) : bool :=
  (zlen prefix <? zlen value) && starts_with prefix value.

Definition https_prefix : bytes := B "https://".
Definition http_prefix : bytes := B "http://".

Definition authority_end (c : byte) : bool :=
  bool_decide (c = x2f) || bool_decide (c = x3f) || bool_decide (c = x23).

(** [strcspn(s, "/?#")], as the text it spans. *)
Fixpoint span_authority (s : bytes) : bytes :=
  match s with
  | [] => []
  | c :: t => if authority_end c then [] else c :: span_authority t
  end.

Definition url_octet (c : byte) : bool :=
  negb ((bz c <=? 32) || (127 <=? bz c) || bool_decide (c = x5c)).

Section Urls.
Context `{CurlUrl}.

(** What libcurl's parser must find: a host, and neither user, password nor
    fragment. *)
Definition curl_accepts (value : bytes) : option (CURLU * bytes) :=
  match curl_url_set value with
  | None => None
  | Some url =>
      match curl_url_get url CURLUPART_HOST with
      | None => None
      | Some host =>
          if negb (is_nonempty (Some host)) then None
          else if bool_decide (is_Some (curl_url_get url CURLUPART_USER)) then None
          else if bool_decide (is_Some (curl_url_get url CURLUPART_PASSWORD)) then None
          else if bool_decide (is_Some (curl_url_get url CURLUPART_FRAGMENT)) then None
          else Some (url, c_str host)
      end
  end.

Definition parse_url (value : option bytes) (max_url_size : Z) (allow_insecure_http : bool)
  : PgOAuthHttpError + CURLU * bytes :=
  match value with
  | None => inl PG_OAUTH_HTTP_INVALID_ARGUMENT
  | Some value =>
      let value := c_str value in
      if (zlen value =? 0) || (max_url_size <? zlen value) then inl PG_OAUTH_HTTP_INVALID_URL
      else if negb (forallb url_octet value) then inl PG_OAUTH_HTTP_INVALID_URL
      else
        let https := has_scheme https_prefix value in
        if negb https && negb (has_scheme http_prefix value) then inl PG_OAUTH_HTTP_INVALID_URL
        else if negb https && negb allow_insecure_http then inl PG_OAUTH_HTTP_INSECURE_URL
        else
          let scheme := if https then https_prefix else http_prefix in
          let authority := span_authority (drop (length scheme) value) in
          if (zlen authority =? 0) || memchr x23 value || memchr x40 authority
          then inl PG_OAUTH_HTTP_INVALID_URL
          else if negb curl_url then inl PG_OAUTH_HTTP_OUT_OF_MEMORY
          else match curl_accepts value with
               | None => inl PG_OAUTH_HTTP_INVALID_URL
               | Some parsed => inr parsed
               end
  end.

(** One entry of the list of hosts. *)
Definition host_body (host : bytes) (_ : unit) (entry : bytes) (_ : bool) : unit + bool :=
  let entry := trim_by is_blank entry in
  if (zlen entry =? zlen host) && strcaseeq entry host then inr true else inl tt.

Definition host_in_list (host : bytes) (list : option bytes) : bool :=
  if negb (is_nonempty list) then false
  else default false
         (comma_loop (host_body host) (fun _ => false) (S (length (setting list)))
            (setting list) tt).

Definition pg_oauth_http_url_host (malloc : Z -> bool) (url : option bytes) (max_url_size : Z)
  (allow_insecure_http : bool) : PgOAuthHttpError * option bytes :=
  match parse_url url max_url_size allow_insecure_http with
  | inl error => (error, None)
  | inr (_, curl_host) =>
      if negb (malloc (zlen curl_host + 1)) then (PG_OAUTH_HTTP_OUT_OF_MEMORY, None)
      else (PG_OAUTH_HTTP_OK, Some curl_host)
  end.

Definition validate_request_url (value : option bytes) (policy : PgOAuthHttpPolicy)
  : PgOAuthHttpError + CURLU :=
  match parse_url value (hp_max_url_size policy) (hp_allow_insecure_http policy) with
  | inl error => inl error
  | inr (url, host) =>
      if negb (strcaseeq host (setting (hp_allowed_host policy))) &&
         negb (host_in_list host (hp_additional_allowed_hosts policy))
      then inl PG_OAUTH_HTTP_HOST_NOT_ALLOWED
      else inr url
  end.

(** ** The request *)

Definition json_content_type (content_type : option bytes) : bool :=
  match content_type with
  | None => false
  | Some s =>
      let media := rtrim is_blank (fst (split_at x3b (ltrim is_blank (c_str s)))) in
      ((zlen media =? 16) && strcaseeq media (B "application/json")) ||
      ((zlen media =? 24) && strcaseeq media (B "application/jwk-set+json"))
  end.

Definition pg_oauth_http_response_clear (response : option PgOAuthHttpResponse)
  : option PgOAuthHttpResponse :=
  match response with
  | None => None
  | Some _ => Some response_zero
  end.

Definition request_options (policy : PgOAuthHttpPolicy) : list setopt :=
  let protocols := if hp_allow_insecure_http policy then B "http,https" else B "https" in
  [CURLOPT_CURLU; CURLOPT_HTTPHEADER (B "Accept: application/json"); CURLOPT_HTTPGET 1;
   CURLOPT_FOLLOWLOCATION 0; CURLOPT_MAXREDIRS 0; CURLOPT_PROTOCOLS protocols;
   CURLOPT_REDIR_PROTOCOLS protocols; CURLOPT_SSL_VERIFYPEER 1; CURLOPT_SSL_VERIFYHOST 2;
   CURLOPT_SSLVERSION_TLSv1_2; CURLOPT_NOSIGNAL 1] ++
  (if hp_cancel_requested policy then [CURLOPT_QUICK_EXIT 1] else []) ++
  [CURLOPT_NETRC_IGNORED; CURLOPT_PROXY [];
   CURLOPT_CONNECTTIMEOUT_MS (hp_connect_timeout_ms policy);
   CURLOPT_TIMEOUT_MS (hp_total_timeout_ms policy);
   CURLOPT_MAXFILESIZE_LARGE (i64 (hp_max_response_size policy));
   CURLOPT_WRITEFUNCTION_append_response; CURLOPT_WRITEDATA;
   CURLOPT_HEADERFUNCTION_capture_header; CURLOPT_HEADERDATA] ++
  match hp_ca_file policy with Some file => [CURLOPT_CAINFO file] | None => [] end.

(** What the callbacks have collected; [aborted] once one of them has not
    taken all of its data, after which libcurl calls none of them again. *)
Record collected := {
  co_buffer : ResponseBuffer;
  co_headers : HeaderBuffer;
  co_aborted : bool
}.

Definition deliver (realloc : Z -> bool) (c : collected) (ch : chunk) : collected :=
  if co_aborted c then c
  else match ch with
  | header_chunk contents =>
      let '(taken, headers) := capture_header realloc contents 1 (zlen contents) (co_headers c) in
      {| co_buffer := co_buffer c; co_headers := headers;
         co_aborted := negb (taken =? zlen contents) |}
  | body_chunk contents =>
      let '(taken, buffer) := append_response realloc contents 1 (zlen contents) (co_buffer c) in
      {| co_buffer := buffer; co_headers := co_headers c;
         co_aborted := negb (taken =? zlen contents) |}
  end.

(** The loop around [curl_multi_perform]. *)
Fixpoint perform_loop (policy : PgOAuthHttpPolicy) (realloc : Z -> bool) (rs : rounds)
  (c : collected) : PgOAuthHttpError + collected :=
  let turn r :=
    if hp_cancel_requested policy && rd_cancel r then inl PG_OAUTH_HTTP_INTERRUPTED
    else if negb (rd_perform_ok r) then inl PG_OAUTH_HTTP_NETWORK_FAILURE
    else inr (foldl (deliver realloc) c (rd_chunks r)) in
  match rs with
  | last_round r => turn r
  | more_rounds r rest =>
      match turn r with
      | inl error => inl error
      | inr c => if negb (rd_poll_ok r) then inl PG_OAUTH_HTTP_NETWORK_FAILURE
                 else perform_loop policy realloc rest c
      end
  end.

(** The error for a transfer libcurl reports as failed. *)
Definition transfer_error (result : CURLcode) (c : collected) : PgOAuthHttpError :=
  if bf_too_large (co_buffer c) || hd_too_large (co_headers c) ||
     bool_decide (result = CURLE_FILESIZE_EXCEEDED)
  then PG_OAUTH_HTTP_RESPONSE_TOO_LARGE
  else if bf_out_of_memory (co_buffer c) || hd_out_of_memory (co_headers c)
  then PG_OAUTH_HTTP_OUT_OF_MEMORY
  else if bool_decide (result = CURLE_OPERATION_TIMEDOUT) then PG_OAUTH_HTTP_TIMEOUT
  else if bool_decide (result = CURLE_PEER_FAILED_VERIFICATION) ||
          bool_decide (result = CURLE_SSL_CONNECT_ERROR) ||
          bool_decide (result = CURLE_SSL_CACERT_BADFILE) ||
          bool_decide (result = CURLE_SSL_CERTPROBLEM)
  then PG_OAUTH_HTTP_TLS_FAILURE
  else PG_OAUTH_HTTP_NETWORK_FAILURE.

(** The setup of the handles, up to the loop. *)
Definition request_setup (policy : PgOAuthHttpPolicy) (t : Transfer) : PgOAuthHttpError :=
  if negb (tr_easy_init t) then PG_OAUTH_HTTP_OUT_OF_MEMORY
  else if hp_cancel_requested policy &&
          (negb (default false (tr_async_dns t)) || (tr_version_num t <? 481024))
  then PG_OAUTH_HTTP_NETWORK_FAILURE
  else if negb (tr_slist_append t) then PG_OAUTH_HTTP_OUT_OF_MEMORY
  else if negb (forallb (tr_setopt t) (request_options policy))
  then PG_OAUTH_HTTP_NETWORK_FAILURE
  else if negb (tr_multi_init t) then PG_OAUTH_HTTP_OUT_OF_MEMORY
  else if negb (tr_add_handle t) then PG_OAUTH_HTTP_NETWORK_FAILURE
  else PG_OAUTH_HTTP_OK.

(** The empty buffers the callbacks start from. *)
Definition request_start (policy : PgOAuthHttpPolicy) : collected :=
  {| co_buffer := {| bf_data := None; bf_maximum := hp_max_response_size policy;
                     bf_too_large := false; bf_out_of_memory := false |};
     co_headers := {| hd_response := response_zero; hd_too_large := false;
                      hd_out_of_memory := false |};
     co_aborted := false |}.

(** The loop and the checks on the finished transfer. *)
Definition request_run (policy : PgOAuthHttpPolicy) (t : Transfer)
  : PgOAuthHttpError + PgOAuthHttpResponse :=
  match perform_loop policy (tr_realloc t) (tr_rounds t) (request_start policy) with
  | inl error => inl error
  | inr c =>
      if hp_cancel_requested policy && tr_cancel_after t then inl PG_OAUTH_HTTP_INTERRUPTED
      else match tr_message t with
      | None => inl PG_OAUTH_HTTP_NETWORK_FAILURE
      | Some result =>
          if negb (bool_decide (result = CURLE_OK)) then inl (transfer_error result c)
          else match tr_status t with
          | None => inl PG_OAUTH_HTTP_STATUS
          | Some status =>
              if (status <? 200) || (300 <=? status) then inl PG_OAUTH_HTTP_STATUS
              else match tr_content_type t with
              | None => inl PG_OAUTH_HTTP_CONTENT_TYPE
              | Some content_type =>
                  if negb (json_content_type content_type) then inl PG_OAUTH_HTTP_CONTENT_TYPE
                  else if negb (bool_decide (is_Some (bf_data (co_buffer c)))) &&
                          negb (tr_realloc t 1)
                  then inl PG_OAUTH_HTTP_OUT_OF_MEMORY
                  else
                    let r := hd_response (co_headers c) in
                    inr {| rs_body := Some (default [] (bf_data (co_buffer c)));
                           rs_status := status; rs_cache_control := rs_cache_control r;
                           rs_date := rs_date r; rs_expires := rs_expires r;
                           rs_age := rs_age r |}
              end
          end
      end
  end.

Definition http_policy_invalid (policy : PgOAuthHttpPolicy) : bool :=
  (hp_max_url_size policy =? 0) || (hp_max_response_size policy =? 0) ||
  negb (is_nonempty (hp_allowed_host policy)) || (hp_connect_timeout_ms policy <=? 0) ||
  (hp_total_timeout_ms policy <=? 0) ||
  (hp_total_timeout_ms policy <? hp_connect_timeout_ms policy).

(** [curl u] is the transfer libcurl performs for the request. *)
Definition pg_oauth_http_get_json (curl : CURLU -> Transfer) (url : option bytes)
  (policy : option PgOAuthHttpPolicy) (response : option PgOAuthHttpResponse)
  : PgOAuthHttpError * option PgOAuthHttpResponse :=
  match response with
  | None => (PG_OAUTH_HTTP_INVALID_ARGUMENT, None)
  | Some _ =>
      match url, policy with
      | Some _, Some policy =>
          if http_policy_invalid policy
          then (PG_OAUTH_HTTP_INVALID_ARGUMENT, Some response_zero)
          else match validate_request_url url policy with
          | inl error => (error, Some response_zero)
          | inr validated_url =>
              let t := curl validated_url in
              let error := request_setup policy t in
              if negb (bool_decide (error = PG_OAUTH_HTTP_OK))
              then (error, pg_oauth_http_response_clear response)
              else match request_run policy t with
              | inl error => (error, pg_oauth_http_response_clear response)
              | inr response => (PG_OAUTH_HTTP_OK, Some response)
              end
          end
      | _, _ => (PG_OAUTH_HTTP_INVALID_ARGUMENT, Some response_zero)
      end
  end.
End Urls.

(** The text after the switch is for values outside the enumeration, which no
    caller passes. *)
Definition pg_oauth_http_error_code (error : PgOAuthHttpError) : bytes :=
  match error with
  | PG_OAUTH_HTTP_OK => B "http_ok"
  | PG_OAUTH_HTTP_INVALID_ARGUMENT => B "http_invalid_argument"
  | PG_OAUTH_HTTP_INVALID_URL => B "http_invalid_url"
  | PG_OAUTH_HTTP_INSECURE_URL => B "http_insecure_url"
  | PG_OAUTH_HTTP_HOST_NOT_ALLOWED => B "http_host_not_allowed"
  | PG_OAUTH_HTTP_TIMEOUT => B "http_timeout"
  | PG_OAUTH_HTTP_INTERRUPTED => B "http_interrupted"
  | PG_OAUTH_HTTP_TLS_FAILURE => B "http_tls_failure"
  | PG_OAUTH_HTTP_RESPONSE_TOO_LARGE => B "http_response_too_large"
  | PG_OAUTH_HTTP_STATUS => B "http_status"
  | PG_OAUTH_HTTP_CONTENT_TYPE => B "http_content_type"
  | PG_OAUTH_HTTP_NETWORK_FAILURE => B "http_network_failure"
  | PG_OAUTH_HTTP_OUT_OF_MEMORY => B "http_out_of_memory"
  end.

(** ** The allowed hosts *)

(** [host] is one of the entries of [list], blanks around an entry and the case
    of letters aside. *)
Definition host_listed (host : bytes) (list : option bytes) : Prop :=
  exists entry, (entry ∈ split_on comma (setting list)) /\
    strcaseeq (trim_by is_blank entry) host = true.

Lemma strcaseeq_length a b : strcaseeq a b = true -> length a = length b.
Proof.
  unfold strcaseeq. intros H. prop_bools.
  apply (f_equal length) in H. by rewrite !length_map in H.
Qed.

Lemma host_body_spec host entry last :
  host_body host tt entry last =
  if strcaseeq (trim_by is_blank entry) host then inr true else inl tt.
Proof.
  unfold host_body. destruct (strcaseeq _ host) eqn:E.
  - apply strcaseeq_length in E. unfold zlen. by rewrite E, Z.eqb_refl.
  - by rewrite andb_false_r.
Qed.

Lemma host_pass host segs :
  host <> [] ->
  segment_pass (host_body host) (fun _ => false) segs tt = true <->
  exists entry, entry ∈ segs /\ strcaseeq (trim_by is_blank entry) host = true.
Proof.
  intros Hh. induction segs as [|item rest IH].
  { split; [done|]. intros (e & He & _). by apply not_elem_of_nil in He. }
  assert (strcaseeq (trim_by is_blank []) host = false) as H0.
  { destruct (strcaseeq _ host) eqn:E; [|done]. apply strcaseeq_length in E. by destruct host. }
  setoid_rewrite elem_of_cons.
  trans (strcaseeq (trim_by is_blank item) host = true \/
         segment_pass (host_body host) (fun _ => false) rest tt = true).
  - cbn [segment_pass]. rewrite host_body_spec.
    destruct item, rest; rewrite ?H0; cycle 2.
    1-2: destruct (strcaseeq (trim_by is_blank (_ :: _)) host).
    all: cbv iota beta; cbn [segment_pass]; intuition done.
  - rewrite IH. naive_solver.
Qed.

Lemma host_in_list_spec host list :
  host <> [] -> (host_in_list host list = true <-> host_listed host list).
Proof.
  intros Hh. unfold host_in_list, host_listed.
  rewrite comma_loop_segments by lia. simpl default.
  destruct (is_nonempty list) eqn:E; simpl; [by apply host_pass|].
  split; [done|]. intros (e & He & Hm). exfalso.
  assert (setting list = []) as Hs.
  { destruct list as [[|c l]|]; try done. simpl in E. prop_bools. subst c. done. }
  rewrite Hs in He. apply list_elem_of_singleton in He as ->.
  apply strcaseeq_length in Hm. by destruct host.
Qed.

(** The list of additional hosts admits exactly the hosts it names: for a
    host libcurl found (never empty), host_in_list answers true precisely when
    one of the comma-separated entries, with the spaces and tabs around it
    removed, is that host up to the case of letters.  In particular no host is
    admitted for being a prefix or a suffix of an entry. *)
Theorem host_in_list_exact host list :
  host <> [] -> (host_in_list host list = true <-> host_listed host list).
Proof. apply host_in_list_spec. Qed.

Lemma host_in_list_exact_witness :
  host_listed (B "keys.example") (Some (B "a.example , Keys.Example")) /\
  host_in_list (B "example") (Some (B "a.example , Keys.Example")) = false.
Proof.
  split; [|vm_compute; reflexivity].
  apply (host_in_list_exact (B "keys.example") (Some (B "a.example , Keys.Example"))).
  - discriminate.
  - vm_compute. reflexivity.
Defined.

(** ** The bound on a freshness header *)

Definition header_text (target : option bytes) : bytes := default [] (c_str <$> target).

(** C40: what append_header_value enforces of the 4096 byte bound, for sizes
    below 2^63 and with memory available.  While less than the bound is stored,
    a value is taken exactly when the result, with its separating comma, stays
    within the bound.  Once the bound is reached, the unsigned subtraction
    wraps around and a further value of any length is taken: the bound can be
    exceeded without limit by a second header of the same name. *)
Theorem header_limit_characterised target value :
  let text := header_text target in
  zlen text < 2 ^ 63 -> zlen value < 2 ^ 63 ->
  let result := if 0 <? zlen text then text ++ [comma] ++ value else value in
  append_header_value (fun _ => true) target value =
    (if (PG_OAUTH_MAX_FRESHNESS_HEADER_SIZE <=? zlen text) ||
        (zlen result <=? PG_OAUTH_MAX_FRESHNESS_HEADER_SIZE)
     then Some result else None).
Proof.
  cbv zeta. unfold append_header_value, header_text, PG_OAUTH_MAX_FRESHNESS_HEADER_SIZE.
  set (text := default [] _). intros Ht Hv.
  pose proof (zlen_nonneg text). pose proof (zlen_nonneg value).
  destruct (0 <? zlen text) eqn:E0; simpl negb; cbv iota.
  - unfold u64. rewrite !zlen_app. replace (zlen [comma]) with 1 by done.
    destruct (4096 <=? zlen text) eqn:E; simpl orb.
    + rewrite <- (Z.mod_add _ 1) by done. rewrite Z.mod_small by lia.
      by replace (_ <? zlen value) with false by lia.
    + rewrite Z.mod_small by lia.
      destruct (_ <? zlen value) eqn:E2; destruct (_ <=? 4096) eqn:E3; try done; lia.
  - assert (text = []) as -> by (apply zlen_nil; lia). simpl.
    change (zlen []) with 0. cbn [Z.leb Z.compare orb app].
    replace (u64 (4096 - 0 - 0)) with 4096 by done.
    destruct (4096 <? zlen value) eqn:E2; destruct (zlen value <=? 4096) eqn:E3; try done; lia.
Qed.

(** A header of 4096 bytes and one of 100: 4197 bytes are stored. *)
Lemma header_limit_characterised_witness :
  append_header_value (fun _ => true) (Some (replicate 4096 x61)) (replicate 100 x62) =
    Some (replicate 4096 x61 ++ [comma] ++ replicate 100 x62) /\
  zlen (replicate 4096 x61 ++ [comma] ++ replicate 100 x62) = 4197.
Proof.
  split; [|vm_compute; reflexivity].
  rewrite (header_limit_characterised (Some (replicate 4096 x61)) (replicate 100 x62)).
  1-3: vm_compute; reflexivity.
Defined.

(** ** What a transfer collects *)

Definition chunk_body (ch : chunk) : bytes :=
  match ch with
  | header_chunk _ => []
  | body_chunk contents => contents
  end.

(** The body bytes of a transfer, in the order libcurl delivers them. *)
Fixpoint delivered (rs : rounds) : bytes :=
  match rs with
  | last_round r => concat (map chunk_body (rd_chunks r))
  | more_rounds r rest => concat (map chunk_body (rd_chunks r)) ++ delivered rest
  end.

(** The buffer holds [body] unless a callback has refused data. *)
Definition holds_body (maximum : Z) (c : collected) (body : bytes) : Prop :=
  bf_maximum (co_buffer c) = maximum /\ bf_length (co_buffer c) <= maximum /\
  (co_aborted c = false -> default [] (bf_data (co_buffer c)) = body).

Lemma append_response_ok realloc contents buffer taken buffer' :
  0 <= bf_maximum buffer <= SIZE_MAX -> bf_length buffer <= bf_maximum buffer ->
  append_response realloc contents 1 (zlen contents) buffer = (taken, buffer') ->
  bf_maximum buffer' = bf_maximum buffer /\ bf_length buffer' <= bf_maximum buffer /\
  (taken = zlen contents ->
   default [] (bf_data buffer') = default [] (bf_data buffer) ++ contents).
Proof.
  intros Hmax Hlen. pose proof (zlen_nonneg contents).
  pose proof (zlen_nonneg (default [] (bf_data buffer))) as H1.
  unfold append_response. change (negb (1 =? 0)) with true. cbn [andb].
  rewrite Z.div_1_r, Z.mul_1_l.
  assert (0 = zlen contents -> contents = []) as Hnil by (intros; by apply zlen_nil).
  destruct (SIZE_MAX <? zlen contents) eqn:E1.
  { intros [= <- <-]. simpl. split_and!; [done..|]. intros ->%Hnil. by rewrite app_nil_r. }
  assert (u64 (zlen contents) = zlen contents) as ->
    by (apply u64_id; unfold UINT64_MAX, SIZE_MAX in *; lia).
  rewrite (u64_id (_ - _)) by (unfold bf_length, UINT64_MAX, SIZE_MAX in *; lia).
  destruct (_ - _ <? _) eqn:E2; [|destruct (realloc _); simpl].
  1,3: intros [= <- <-]; split_and!; [done..|]; intros ->%Hnil; by rewrite app_nil_r.
  intros [= <- <-]. unfold bf_length in *. simpl.
  replace (Z.to_nat (zlen contents)) with (length contents) by (unfold zlen; lia).
  rewrite firstn_all, zlen_app. split_and!; [done|lia|done].
Qed.

Lemma deliver_holds realloc maximum c body ch :
  0 <= maximum <= SIZE_MAX -> holds_body maximum c body ->
  holds_body maximum (deliver realloc c ch) (body ++ chunk_body ch) /\
  (co_aborted c = true -> co_aborted (deliver realloc c ch) = true).
Proof.
  intros Hmax (Hm & Hl & Hb). unfold deliver.
  destruct (co_aborted c) eqn:Ea; [split; [|done]; split_and!; congruence|].
  split; [|done]. destruct ch as [contents|contents]; simpl.
  - destruct (capture_header _ _ _ _ _) as [taken h]. split_and!; simpl; [done..|].
    rewrite app_nil_r. auto.
  - destruct (append_response _ _ _ _ _) as [taken b] eqn:E.
    apply append_response_ok in E as (? & ? & Ht); [|rewrite Hm; done|lia].
    split_and!; simpl; [congruence|lia|]. intros Hn. prop_bools.
    rewrite Ht by lia. by rewrite Hb.
Qed.

Lemma deliver_all_holds realloc maximum chunks c body :
  0 <= maximum <= SIZE_MAX -> holds_body maximum c body ->
  holds_body maximum (foldl (deliver realloc) c chunks) (body ++ concat (map chunk_body chunks)).
Proof.
  intros Hmax. revert c body. induction chunks as [|ch chunks IH]; intros c body Hc; simpl.
  - by rewrite app_nil_r.
  - rewrite app_assoc. apply IH. by apply deliver_holds.
Qed.

Lemma perform_loop_holds policy realloc maximum rs c body c' :
  0 <= maximum <= SIZE_MAX -> holds_body maximum c body ->
  perform_loop policy realloc rs c = inr c' -> holds_body maximum c' (body ++ delivered rs).
Proof.
  intros Hmax. revert c body. induction rs as [r|r rest IH]; intros c body Hc H; simpl in *.
  - guards. by apply deliver_all_holds.
  - guards. rewrite app_assoc. eapply IH; [|done]. by apply deliver_all_holds.
Qed.

(** ** The request *)

Section Requests.
Context `{CurlUrl}.

(** A text with the scheme the policy asks for: https, or http where the policy
    allows it. *)
Definition scheme_ok (policy : PgOAuthHttpPolicy) (value scheme rest : bytes) : Prop :=
  value = scheme ++ rest /\ rest <> [] /\
  (scheme = https_prefix \/ scheme = http_prefix /\ hp_allow_insecure_http policy = true).

(** The URL of an admissible request, which libcurl reads as [url] with
    [host]. *)
Definition request_url_ok (policy : PgOAuthHttpPolicy) (value : bytes) (url : CURLU)
  (host : bytes) : Prop :=
  zlen value <= hp_max_url_size policy /\ Forall (fun c => url_octet c = true) value /\
  (exists scheme rest, scheme_ok policy value scheme rest /\
     span_authority rest <> [] /\ (x23 ∉ value) /\ (x40 ∉ span_authority rest)) /\
  curl_url_set value = Some url /\ host <> [] /\
  (c_str <$> curl_url_get url CURLUPART_HOST) = Some host /\
  curl_url_get url CURLUPART_USER = None /\ curl_url_get url CURLUPART_PASSWORD = None /\
  curl_url_get url CURLUPART_FRAGMENT = None.

(** The host is the issuer's or one of the additional ones. *)
Definition host_allowed (policy : PgOAuthHttpPolicy) (host : bytes) : Prop :=
  strcaseeq host (setting (hp_allowed_host policy)) = true \/
  host_listed host (hp_additional_allowed_hosts policy).

Lemma has_scheme_spec prefix value :
  has_scheme prefix value = true <-> exists rest, value = prefix ++ rest /\ rest <> [].
Proof.
  unfold has_scheme, starts_with. rewrite andb_true_iff, Z.ltb_lt.
  unfold bytes_eqb. rewrite bool_decide_eq_true. unfold zlen. split.
  - intros [Hl Hp]. exists (drop (length prefix) value). split.
    + rewrite <- Hp at 1. by rewrite take_drop.
    + intros E%(f_equal length). rewrite length_drop in E. simpl in E. lia.
  - intros (rest & -> & Hr). rewrite length_app, take_app_length.
    destruct rest; [done|]. simpl. split; [lia|done].
Qed.

Lemma is_nonempty_c_str h : is_nonempty (Some h) = true <-> c_str h <> [].
Proof. destruct h as [|c h]; simpl; [done|]. case_bool_decide; simpl; split; congruence. Qed.

Lemma curl_accepts_spec value url host :
  curl_accepts value = Some (url, host) <->
  curl_url_set value = Some url /\ host <> [] /\
  (c_str <$> curl_url_get url CURLUPART_HOST) = Some host /\
  curl_url_get url CURLUPART_USER = None /\ curl_url_get url CURLUPART_PASSWORD = None /\
  curl_url_get url CURLUPART_FRAGMENT = None.
Proof.
  unfold curl_accepts. destruct (curl_url_set value) as [u|]; [|intuition congruence].
  split.
  - intros E. guards. prop_bools. rewrite <- eq_None_not_Some in *.
    rewrite H0. simpl. rewrite bool_decide_eq_false_2 by done. done.
  - intros ([= ->] & Hh & Hg & Hu & Hp & Hf).
    destruct (curl_url_get url CURLUPART_HOST) as [h|]; [|done].
    simpl in Hg. simplify_eq.
    rewrite (proj2 (is_nonempty_c_str h) Hh). by rewrite Hu, Hp, Hf.
Qed.

(** The scheme the parser settles on. *)
Lemma scheme_choice policy v :
  let https := has_scheme https_prefix v in
  negb https && negb (has_scheme http_prefix v) = false ->
  negb https && negb (hp_allow_insecure_http policy) = false ->
  exists rest, scheme_ok policy v (if https then https_prefix else http_prefix) rest.
Proof.
  cbv zeta. destruct (has_scheme https_prefix v) eqn:Es; simpl; intros H1 H2; prop_bools.
  - apply has_scheme_spec in Es as (rest & ? & ?). exists rest. split_and!; auto.
  - apply has_scheme_spec in H1 as (rest & ? & ?). exists rest. split_and!; auto.
Qed.

Lemma scheme_choice_complete policy v scheme rest :
  scheme_ok policy v scheme rest ->
  scheme = (if has_scheme https_prefix v then https_prefix else http_prefix) /\
  negb (has_scheme https_prefix v) && negb (has_scheme http_prefix v) = false /\
  negb (has_scheme https_prefix v) && negb (hp_allow_insecure_http policy) = false.
Proof.
  intros (-> & Hr & [->|[-> Hi]]).
  - assert (has_scheme https_prefix (https_prefix ++ rest) = true) as ->
      by (apply has_scheme_spec; eauto). done.
  - assert (has_scheme http_prefix (http_prefix ++ rest) = true) as ->
      by (apply has_scheme_spec; eauto).
    destruct (has_scheme https_prefix _) eqn:E; [|by rewrite Hi].
    by apply has_scheme_spec in E as (? & ? & _).
Qed.

Lemma forallb_Forall_bytes (p : byte -> bool) s :
  forallb p s = true <-> Forall (fun c => p c = true) s.
Proof.
  rewrite forallb_forall, Forall_forall. by setoid_rewrite list_elem_of_In.
Qed.

Lemma parse_url_spec policy value url host :
  curl_url = true ->
  parse_url value (hp_max_url_size policy) (hp_allow_insecure_http policy) = inr (url, host) <->
  is_Some value /\ request_url_ok policy (setting value) url host.
Proof.
  intros Hcu. unfold parse_url. destruct value as [value|]; [|split; [done|by intros [[? ?] _]]].
  change (setting (Some value)) with (c_str value). generalize (c_str value) as v. intros v. unfold request_url_ok.
  rewrite <- forallb_Forall_bytes, <- curl_accepts_spec. rewrite Hcu. split.
  - intros E. split; [done|].
    pose proof (scheme_choice policy v) as Hsc. cbv zeta in Hsc.
    remember (if has_scheme https_prefix v then https_prefix else http_prefix) as scheme eqn:He.
    clear He. guards. destruct Hsc as (rest & Hok); [done..|].
    prop_bools. unfold memchr in *. prop_bools. split_and!; [lia|done| |done].
    exists scheme, rest. split; [exact Hok|].
    destruct Hok as (Hv & _). rewrite Hv, drop_app_length in *.
    rewrite <- Hv in *. split_and!; try done. intros Hs. by rewrite Hs in *.
  - intros (_ & Hl & Hf & (scheme & rest & Hok & Ha & Hh & Hu) & Hc).
    rewrite Hf, Hc. destruct (scheme_choice_complete _ _ _ _ Hok) as (Hs & -> & ->).
    rewrite <- Hs. destruct Hok as (Hv & Hr & _).
    replace (drop (length scheme) v) with rest by (by rewrite Hv, drop_app_length).
    replace (zlen (span_authority rest) =? 0) with false
      by (symmetry; apply Z.eqb_neq; by rewrite zlen_nil).
    unfold memchr. rewrite !bool_decide_eq_false_2 by done.
    replace (zlen v =? 0) with false.
    2:{ symmetry. apply Z.eqb_neq. rewrite zlen_nil, Hv. by destruct scheme, rest. }
    by replace (hp_max_url_size policy <? zlen v) with false by lia.
Qed.
Lemma validate_request_url_spec policy value url :
  curl_url = true ->
  validate_request_url value policy = inr url <->
  is_Some value /\ exists host,
    request_url_ok policy (setting value) url host /\ host_allowed policy host.
Proof.
  intros Hcu. unfold validate_request_url.
  pose proof (fun u h => parse_url_spec policy value u h Hcu) as Hp.
  assert (forall u h, request_url_ok policy (setting value) u h ->
    (host_in_list h (hp_additional_allowed_hosts policy) = true <->
     host_listed h (hp_additional_allowed_hosts policy))) as Hl.
  { intros u h (_ & _ & _ & _ & Hh & _). by apply host_in_list_spec. }
  split.
  - intros E. destruct (parse_url _ _ _) as [|[u h]] eqn:Eq; [done|].
    destruct (proj1 (Hp u h) eq_refl) as [Hs Hok]. split; [done|]. exists h.
    destruct (strcaseeq h _) eqn:E1; simpl in E; [by simplify_eq; split; [|left]|].
    destruct (host_in_list h _) eqn:E2; simplify_eq/=. split; [done|right].
    by apply (Hl url h).
  - intros (Hs & h & Hok & Ha). rewrite (proj2 (Hp url h)) by done.
    destruct Ha as [->|Ha]; [done|]. rewrite (proj2 (Hl url h Hok) Ha).
    by rewrite andb_false_r.
Qed.

(** libcurl ends a transfer as failed when a callback does not take all the data
    it was given. *)
Definition refusal_aborts (policy : PgOAuthHttpPolicy) (t : Transfer) : Prop :=
  forall c, perform_loop policy (tr_realloc t) (tr_rounds t) (request_start policy) = inr c ->
    co_aborted c = true -> tr_message t <> Some CURLE_OK.

Lemma request_run_ok policy t r :
  0 <= hp_max_response_size policy <= SIZE_MAX -> refusal_aborts policy t ->
  request_run policy t = inr r ->
  rs_body r = Some (delivered (tr_rounds t)) /\
  zlen (delivered (tr_rounds t)) <= hp_max_response_size policy /\
  tr_status t = Some (rs_status r) /\ 200 <= rs_status r < 300 /\
  exists content_type, tr_content_type t = Some content_type /\
    json_content_type content_type = true.
Proof.
  intros Hmax Hlaw. unfold request_run, refusal_aborts in *. intros E.
  destruct (perform_loop _ _ _ _) as [|c] eqn:Ep; [done|].
  assert (holds_body (hp_max_response_size policy) c (delivered (tr_rounds t))) as (_ & Hl & Hb).
  { apply (perform_loop_holds policy (tr_realloc t) _ _ (request_start policy) []); try done.
    split_and!; [done| |done]. change (bf_length _) with 0. simpl. lia. }
  specialize (Hlaw c eq_refl). guards. prop_bools. subst.
  assert (co_aborted c = false) as Hab by (destruct (co_aborted c); [by destruct Hlaw|done]).
  unfold bf_length in Hl. rewrite Hb in * by done.
  split_and!; eauto; lia.
Qed.

Lemma request_run_error policy t : request_run policy t <> inl PG_OAUTH_HTTP_OK.
Proof.
  unfold request_run, transfer_error. intros E.
  destruct (perform_loop _ _ _ _) as [e|c] eqn:Ep; [|by guards].
  injection E as ->. revert Ep. generalize (request_start policy).
  induction (tr_rounds t) as [r|r rest IH]; intros c Ep; simpl in Ep; guards. eauto.
Qed.

Lemma request_setup_options policy t :
  request_setup policy t = PG_OAUTH_HTTP_OK ->
  forallb (tr_setopt t) (request_options policy) = true.
Proof.
  unfold request_setup. generalize (request_options policy). intros opts E.
  by guards; prop_bools.
Qed.

(** The options a request must run under, each given with exactly one value: a GET
    of the parsed URL that follows no redirect, over https only (or http where the
    policy allows it), with the certificate and the host name of the peer verified,
    TLS 1.2 or later, no proxy, no netrc, the policy's timeouts, size and CA file,
    and the two bounded callbacks. *)
Record options_secure (policy : PgOAuthHttpPolicy) (given : setopt -> Prop) : Prop := {
  os_url : given CURLOPT_CURLU;
  os_get : forall n, given (CURLOPT_HTTPGET n) <-> n = 1;
  os_accept : forall h, given (CURLOPT_HTTPHEADER h) <-> h = B "Accept: application/json";
  os_follow : forall n, given (CURLOPT_FOLLOWLOCATION n) <-> n = 0;
  os_redirects : forall n, given (CURLOPT_MAXREDIRS n) <-> n = 0;
  os_protocols : forall p, given (CURLOPT_PROTOCOLS p) <->
    p = if hp_allow_insecure_http policy then B "http,https" else B "https";
  os_redirect_protocols : forall p, given (CURLOPT_REDIR_PROTOCOLS p) <->
    p = if hp_allow_insecure_http policy then B "http,https" else B "https";
  os_verify_peer : forall n, given (CURLOPT_SSL_VERIFYPEER n) <-> n = 1;
  os_verify_host : forall n, given (CURLOPT_SSL_VERIFYHOST n) <-> n = 2;
  os_tls : given CURLOPT_SSLVERSION_TLSv1_2;
  os_no_netrc : given CURLOPT_NETRC_IGNORED;
  os_no_proxy : forall p, given (CURLOPT_PROXY p) <-> p = [];
  os_no_signal : forall n, given (CURLOPT_NOSIGNAL n) <-> n = 1;
  os_quick_exit : forall n, given (CURLOPT_QUICK_EXIT n) <->
    hp_cancel_requested policy = true /\ n = 1;
  os_connect_timeout : forall ms, given (CURLOPT_CONNECTTIMEOUT_MS ms) <->
    ms = hp_connect_timeout_ms policy;
  os_timeout : forall ms, given (CURLOPT_TIMEOUT_MS ms) <-> ms = hp_total_timeout_ms policy;
  os_size : forall n, given (CURLOPT_MAXFILESIZE_LARGE n) <->
    n = i64 (hp_max_response_size policy);
  os_ca_file : forall f, given (CURLOPT_CAINFO f) <-> hp_ca_file policy = Some f;
  os_body_callback : given CURLOPT_WRITEFUNCTION_append_response /\ given CURLOPT_WRITEDATA;
  os_header_callback : given CURLOPT_HEADERFUNCTION_capture_header /\ given CURLOPT_HEADERDATA
}.

Lemma request_options_secure policy :
  options_secure policy (fun o => In o (request_options policy)).
Proof.
  destruct policy as [? ? ? ? ? ? [file|] [] []]; split; unfold request_options; cbn -[B i64];
    intros; intuition (congruence || eauto 30).
Qed.

(** C20: a document the transport returns was fetched as the policy demands.
    When pg_oauth_http_get_json answers OK (libcurl failing every transfer in
    which a callback refused data), the URL is within the length bound, of
    printable octets, https unless the policy allows http, without user
    information or fragment, and its host is the allowed host or a listed one;
    libcurl was given exactly the options [options_secure] lists (no redirects, TLS
    peer and host verification, the timeouts, no proxy, ...) and accepted every
    one; the status is 2xx and the content type JSON; and the body is exactly what
    libcurl delivered, never more than the configured bound. *)
Theorem http_get_json_sound curl url policy response r :
  0 <= hp_max_response_size policy <= SIZE_MAX ->
  (forall u, refusal_aborts policy (curl u)) ->
  pg_oauth_http_get_json curl url (Some policy) response = (PG_OAUTH_HTTP_OK, Some r) ->
  exists u host, request_url_ok policy (setting url) u host /\ host_allowed policy host /\
    options_secure policy (fun o => In o (request_options policy)) /\
    (forall o, In o (request_options policy) -> tr_setopt (curl u) o = true) /\
    rs_body r = Some (delivered (tr_rounds (curl u))) /\
    zlen (delivered (tr_rounds (curl u))) <= hp_max_response_size policy /\
    200 <= rs_status r < 300 /\
    exists content_type, tr_content_type (curl u) = Some content_type /\
      json_content_type content_type = true.
Proof.
  intros Hmax Hlaw. unfold pg_oauth_http_get_json.
  destruct response; [|done]. destruct url as [url|]; [|done].
  destruct (http_policy_invalid policy); [done|].
  destruct (validate_request_url (Some url) policy) as [e|u] eqn:Ev.
  { intros [= ->]. exfalso. unfold validate_request_url, parse_url in Ev. guards. }
  assert (curl_url = true) as Hcu.
  { unfold validate_request_url, parse_url in Ev. destruct curl_url; [done|]. guards. }
  apply validate_request_url_spec in Ev as (_ & host & Hok & Ha); [|done].
  case_bool_decide as Es; simpl; [|by intros [= ? ?]].
  destruct (request_run policy (curl u)) as [e|r'] eqn:Er.
  { intros [= -> _]. by apply request_run_error in Er. }
  intros [= <-]. apply request_run_ok in Er as (? & ? & ? & ? & ?); [|done..].
  apply request_setup_options in Es. rewrite forallb_forall in Es.
  eauto 14 using request_options_secure.
Qed.

Lemma http_get_outcome curl url policy p0 :
  match pg_oauth_http_get_json curl url policy (Some p0) with
  | (PG_OAUTH_HTTP_OK, r) => exists r', r = Some r' /\ is_Some (rs_body r')
  | (_, r) => r = Some response_zero
  end.
Proof.
  destruct (pg_oauth_http_get_json _ _ _ _) as [e r] eqn:E.
  unfold pg_oauth_http_get_json in E. destruct url as [url|], policy as [policy|]; [|by simplify_eq..].
  destruct (http_policy_invalid policy); [by simplify_eq|].
  destruct (validate_request_url _ _) as [e'|u] eqn:Ev.
  { simplify_eq. destruct e; try done. exfalso.
    unfold validate_request_url, parse_url in Ev. guards. }
  case_bool_decide as Es; simpl in E; [|simplify_eq; by destruct (request_setup _ _)].
  destruct (request_run _ _) as [e'|r'] eqn:Er; simplify_eq.
  + destruct e; try done. by apply request_run_error in Er.
  + exists r'. split; [done|]. unfold request_run in Er. guards; eauto.
Qed.

(** A returned body is within the bound, whatever libcurl does. *)
Lemma http_get_body_bound curl url policy p0 r :
  0 <= hp_max_response_size policy <= SIZE_MAX ->
  pg_oauth_http_get_json curl url (Some policy) (Some p0) = (PG_OAUTH_HTTP_OK, Some r) ->
  zlen (default [] (rs_body r)) <= hp_max_response_size policy.
Proof.
  intros Hmax E. unfold pg_oauth_http_get_json in E. destruct url as [url|]; [|done].
  destruct (http_policy_invalid policy); [done|].
  destruct (validate_request_url _ _) as [e|u] eqn:Ev.
  { simplify_eq. exfalso. unfold validate_request_url, parse_url in Ev. guards. }
  case_bool_decide as Es; simpl in E; [|by simplify_eq].
  destruct (request_run policy (curl u)) as [e|r'] eqn:Er; simplify_eq.
  { by apply request_run_error in Er. }
  unfold request_run in Er. destruct (perform_loop _ _ _ _) as [|c] eqn:Ep; [done|].
  apply (perform_loop_holds policy (tr_realloc (curl u)) (hp_max_response_size policy) _ _ [])
    in Ep as (_ & Hl & _); [|done|split_and!; [done| |done]; change (bf_length _) with 0; simpl; lia].
  unfold bf_length in Hl. guards. simpl. lia.
Qed.

(** C26: the transport fails closed.  On every error the caller's response is
    the cleared one, so no part of a refused document or of its headers can be
    used; and a URL the policy does not admit is refused without the network:
    the answer does not depend on what libcurl would have transferred. *)
Theorem http_get_json_fail_closed curl url policy p0 :
  match pg_oauth_http_get_json curl url policy (Some p0) with
  | (PG_OAUTH_HTTP_OK, r) => exists r', r = Some r' /\ is_Some (rs_body r')
  | (_, r) => r = Some response_zero
  end /\
  (forall policy' error curl', policy = Some policy' ->
     validate_request_url url policy' = inl error ->
     pg_oauth_http_get_json curl url policy (Some p0) =
     pg_oauth_http_get_json curl' url policy (Some p0)).
Proof.
  split; [apply http_get_outcome|].
  intros policy' error curl' -> Hv. unfold pg_oauth_http_get_json. by rewrite Hv.
Qed.
End Requests.

(** A transfer of one document. *)
Definition sample_url : bytes := B "https://idp.example/.well-known/openid-configuration".

#[local] Instance sample_curl : CurlUrl := {|
  CURLU := bytes; curl_url := true; curl_url_set := Some;
  curl_url_get := fun u part =>
    match part with
    | CURLUPART_HOST => Some (span_authority (drop 8 u))
    | _ => None
    end
|}.

Definition sample_policy : PgOAuthHttpPolicy :=
  {| hp_max_url_size := 2048; hp_max_response_size := 64; hp_connect_timeout_ms := 1000;
     hp_total_timeout_ms := 2000; hp_allowed_host := Some (B "IDP.example");
     hp_additional_allowed_hosts := None; hp_ca_file := None;
     hp_allow_insecure_http := false; hp_cancel_requested := false |}.

Definition sample_transfer : Transfer :=
  {| tr_easy_init := true; tr_async_dns := Some true; tr_version_num := 525824;
     tr_slist_append := true; tr_setopt := fun _ => true; tr_multi_init := true;
     tr_add_handle := true;
     tr_rounds :=
       more_rounds
         {| rd_cancel := false; rd_perform_ok := true; rd_poll_ok := true;
            rd_chunks := [header_chunk (B "Cache-Control: max-age=60"); body_chunk (B "{")] |}
         (last_round {| rd_cancel := false; rd_perform_ok := true; rd_poll_ok := true;
                        rd_chunks := [body_chunk (B "}")] |});
     tr_cancel_after := false; tr_message := Some CURLE_OK; tr_status := Some 200;
     tr_content_type := Some (Some (B "application/json; charset=utf-8"));
     tr_realloc := fun _ => true |}.

Definition sample_response : PgOAuthHttpResponse :=
  {| rs_body := Some (B "{}"); rs_status := 200; rs_cache_control := Some (B "max-age=60");
     rs_date := None; rs_expires := None; rs_age := None |}.

Lemma sample_transfer_runs :
  pg_oauth_http_get_json (fun _ => sample_transfer) (Some sample_url) (Some sample_policy)
    (Some response_zero) = (PG_OAUTH_HTTP_OK, Some sample_response).
Proof. vm_compute. reflexivity. Qed.

Lemma sample_transfer_obeys : refusal_aborts sample_policy sample_transfer.
Proof. intros c Hc Ha. exfalso. vm_compute in Hc. by simplify_eq. Qed.

Lemma http_get_json_sound_witness :
  exists u host, request_url_ok sample_policy sample_url u host /\
    host_allowed sample_policy host.
Proof.
  destruct (http_get_json_sound (fun _ => sample_transfer) (Some sample_url) sample_policy
              (Some response_zero) sample_response) as (u & host & H1 & H2 & _).
  - vm_compute. split; discriminate.
  - intros _. exact sample_transfer_obeys.
  - exact sample_transfer_runs.
  - exact (ex_intro _ u (ex_intro _ host (conj H1 H2))).
Defined.
