(* ===== verification/Metadata.v ===== *)
(** * Issuer metadata (src/metadata.c, src/metadata.h)

    Reading the discovery document of the issuer: the document must name the
    expected issuer, and its [jwks_uri] is copied out once it has passed the
    URL checks.  Jansson and libcurl's URL parser are parameters. *)

From S2P Require Import Prelude Identity Jansson Claims Transport.

(** ** Data *)

Inductive PgOAuthMetadataError :=
| PG_OAUTH_METADATA_OK
| PG_OAUTH_METADATA_INVALID_ARGUMENT
| PG_OAUTH_METADATA_EMPTY
| PG_OAUTH_METADATA_TOO_LARGE
| PG_OAUTH_METADATA_INVALID_JSON
| PG_OAUTH_METADATA_INVALID_ISSUER
| PG_OAUTH_METADATA_ISSUER_MISMATCH
| PG_OAUTH_METADATA_INVALID_JWKS_URI
| PG_OAUTH_METADATA_INSECURE_URI.

#[global] Instance metadata_error_eq_dec : EqDecision PgOAuthMetadataError.
Proof. solve_decision. Defined.

Record PgOAuthMetadataPolicy := {
  mp_max_document_size : Z;
  mp_max_url_size : Z;
  mp_allow_insecure_http : bool
}.

Record PgOAuthMetadata := { jwks_uri : option bytes }.

Definition metadata_zero : PgOAuthMetadata := {| jwks_uri := None |}.

(** ** Definitions *)

Definition valid_url_octets (value : bytes) : bool := forallb url_octet value.

Section Metadata.
Context `{Jansson} `{CurlUrl}.

(** [value] is the text of the given length; [strchr] sees it up to a NUL. *)
Definition validate_url (value : bytes) (maximum : Z) (allow_http issuer : bool)
  : PgOAuthMetadataError :=
  let error := PG_OAUTH_METADATA_INVALID_JWKS_URI in
  if (zlen value =? 0) || (maximum <? zlen value) || negb (valid_url_octets value) ||
     memchr x23 (c_str value)
  then error
  else
    let https := has_scheme https_prefix value in
    if negb https && negb (has_scheme http_prefix value) then error
    else if negb https && negb allow_http then PG_OAUTH_METADATA_INSECURE_URI
    else
      let scheme := if https then https_prefix else http_prefix in
      let authority := span_authority (drop (length scheme) (c_str value)) in
      if (zlen authority =? 0) || memchr x40 authority then error
      else if issuer && memchr x3f (c_str value) then error
      else if negb curl_url then error
      else match curl_accepts (c_str value) with
           | None => error
           | Some _ => PG_OAUTH_METADATA_OK
           end.

Definition pg_oauth_metadata_clear (metadata : option PgOAuthMetadata)
  : option PgOAuthMetadata :=
  match metadata with
  | None => None
  | Some _ => Some metadata_zero
  end.

(** From the loaded document to the copied URL. *)
Definition metadata_document (malloc : Z -> bool) (root : option json_t)
  (expected_issuer : bytes) (policy : PgOAuthMetadataPolicy)
  : PgOAuthMetadataError + PgOAuthMetadata :=
  if negb (json_is_object root) then inl PG_OAUTH_METADATA_INVALID_JSON
  else
    let issuer := json_object_get root (B "issuer") in
    if negb (json_is_string issuer) then inl PG_OAUTH_METADATA_INVALID_ISSUER
    else if negb (json_string_length issuer =? zlen expected_issuer) ||
            negb (bytes_eqb (json_string_value issuer) expected_issuer)
    then inl PG_OAUTH_METADATA_ISSUER_MISMATCH
    else
      let uri := json_object_get root (B "jwks_uri") in
      if negb (json_is_string uri) then inl PG_OAUTH_METADATA_INVALID_JWKS_URI
      else
        let value := json_string_value uri in
        let error := validate_url value (mp_max_url_size policy)
                       (mp_allow_insecure_http policy) false in
        if negb (bool_decide (error = PG_OAUTH_METADATA_OK)) then inl error
        else if negb (malloc (u64 (json_string_length uri + 1)))
        then inl PG_OAUTH_METADATA_INVALID_ARGUMENT
        else inr {| jwks_uri := Some value |}.

Definition pg_oauth_metadata_parse (malloc : Z -> bool) (document expected_issuer : option bytes)
  (policy : option PgOAuthMetadataPolicy) (metadata : option PgOAuthMetadata)
  : PgOAuthMetadataError * option PgOAuthMetadata :=
  match metadata with
  | None => (PG_OAUTH_METADATA_INVALID_ARGUMENT, None)
  | Some _ =>
      let metadata := Some metadata_zero in
      match document, expected_issuer, policy with
      | Some document, Some expected_issuer, Some policy =>
          if (mp_max_document_size policy =? 0) || (mp_max_url_size policy =? 0)
          then (PG_OAUTH_METADATA_INVALID_ARGUMENT, metadata)
          else if zlen document =? 0 then (PG_OAUTH_METADATA_EMPTY, metadata)
          else if mp_max_document_size policy <? zlen document
          then (PG_OAUTH_METADATA_TOO_LARGE, metadata)
          else
            let expected_issuer := c_str expected_issuer in
            let error := validate_url expected_issuer (mp_max_url_size policy)
                           (mp_allow_insecure_http policy) true in
            if negb (bool_decide (error = PG_OAUTH_METADATA_OK))
            then (PG_OAUTH_METADATA_INVALID_ISSUER, metadata)
            else match metadata_document malloc (json_loadb document JSON_REJECT_DUPLICATES)
                         expected_issuer policy with
                 | inl error => (error, pg_oauth_metadata_clear metadata)
                 | inr metadata => (PG_OAUTH_METADATA_OK, Some metadata)
                 end
      | _, _, _ => (PG_OAUTH_METADATA_INVALID_ARGUMENT, metadata)
      end
  end.
End Metadata.

(** The text after the switch is for values outside the enumeration, which no
    caller passes. *)
Definition pg_oauth_metadata_error_code (error : PgOAuthMetadataError) : bytes :=
  match error with
  | PG_OAUTH_METADATA_OK => B "metadata_ok"
  | PG_OAUTH_METADATA_INVALID_ARGUMENT => B "metadata_invalid_argument"
  | PG_OAUTH_METADATA_EMPTY => B "metadata_empty"
  | PG_OAUTH_METADATA_TOO_LARGE => B "metadata_too_large"
  | PG_OAUTH_METADATA_INVALID_JSON => B "metadata_invalid_json"
  | PG_OAUTH_METADATA_INVALID_ISSUER => B "metadata_invalid_issuer"
  | PG_OAUTH_METADATA_ISSUER_MISMATCH => B "metadata_issuer_mismatch"
  | PG_OAUTH_METADATA_INVALID_JWKS_URI => B "metadata_invalid_jwks_uri"
  | PG_OAUTH_METADATA_INSECURE_URI => B "metadata_insecure_uri"
  end.

(** ** Specification *)

Section Specification.
Context `{J : Jansson} `{U : CurlUrl}.

(** The transport's own URL parser takes the text. *)
Definition url_acceptable (maximum : Z) (allow_http : bool) (value : bytes) : Prop :=
  exists parsed, parse_url (Some value) maximum allow_http = inr parsed.

Lemma url_octets_no_nul value : valid_url_octets value = true -> x00 ∉ value.
Proof.
  intros Hv Hin. unfold valid_url_octets in Hv. rewrite forallb_forall in Hv.
  by specialize (Hv x00 (proj1 (list_elem_of_In _ _) Hin)).
Qed.

(** The two copies of the URL checks agree. *)
Lemma validate_url_spec value maximum allow_http issuer :
  validate_url value maximum allow_http issuer = PG_OAUTH_METADATA_OK <->
  (x00 ∉ value) /\ url_acceptable maximum allow_http value /\ (issuer = true -> x3f ∉ value).
Proof.
  unfold validate_url, url_acceptable, parse_url.
  destruct (valid_url_octets value) eqn:Eo.
  2:{ split; [by rewrite orb_true_r|]. intros (Hn & [p Hp] & _). exfalso.
      rewrite c_str_id in Hp by done. unfold valid_url_octets in Eo. rewrite Eo in Hp. guards. }
  pose proof (url_octets_no_nul value Eo) as Hn. rewrite c_str_id by done.
  unfold valid_url_octets in Eo. rewrite Eo. simpl negb. rewrite orb_false_r.
  remember (if has_scheme https_prefix value then https_prefix else http_prefix) as scheme eqn:Es.
  clear Es. unfold memchr at 3. split.
  - intros E. guards; prop_bools; split_and!; try done; eauto.
    all: try (intros ->; simpl in *; by prop_bools).
    match goal with Hq : _ || _ = true |- _ => by rewrite H2, H, H8 in Hq end.
  - intros (_ & [p Hp] & Hi). guards; prop_bools; try congruence; simplify_eq.
    + by rewrite H2, H7 in *.
    + by destruct Hi.
Qed.

(** A discovery document of [issuer] with the key set at [uri]. *)
Definition metadata_acceptable (document issuer : bytes) (policy : PgOAuthMetadataPolicy)
  (uri : bytes) : Prop :=
  0 < zlen document <= mp_max_document_size policy /\
  mp_max_document_size policy <> 0 /\ mp_max_url_size policy <> 0 /\
  url_acceptable (mp_max_url_size policy) (mp_allow_insecure_http policy) issuer /\
  (x3f ∉ issuer) /\
  ~ json_duplicate_keys document /\
  (exists root, json_loadb document JSON_REJECT_DUPLICATES = Some root /\
     json_typeof root = JSON_OBJECT /\
     is_text (json_member root (B "issuer")) issuer /\
     is_text (json_member root (B "jwks_uri")) uri) /\
  (x00 ∉ uri) /\ url_acceptable (mp_max_url_size policy) (mp_allow_insecure_http policy) uri.

Lemma object_member root key :
  json_typeof root = JSON_OBJECT -> json_object_get (Some root) key = json_member root key.
Proof. intros E. unfold json_object_get, json_is_object. simpl. by rewrite E. Qed.

Lemma is_text_iff v s : is_text v s <-> json_is_string v = true /\ json_string_value v = s.
Proof.
  split.
  - intros Ht. split; [by eapply is_text_string|by apply is_text_value].
  - intros [Hs <-]. by apply json_is_string_text.
Qed.

Lemma metadata_document_spec malloc root issuer policy r :
  metadata_document malloc root issuer policy = inr r <->
  exists root' uri, root = Some root' /\ json_typeof root' = JSON_OBJECT /\
    is_text (json_member root' (B "issuer")) issuer /\
    is_text (json_member root' (B "jwks_uri")) uri /\ (x00 ∉ uri) /\
    url_acceptable (mp_max_url_size policy) (mp_allow_insecure_http policy) uri /\
    malloc (u64 (zlen uri + 1)) = true /\ r = {| jwks_uri := Some uri |}.
Proof.
  unfold metadata_document, json_string_length. setoid_rewrite is_text_iff. split.
  - intros E. destruct (json_is_object root) eqn:Eo; [|done].
    apply json_is_object_some in Eo as (j & -> & Ej).
    rewrite !object_member in E by done. guards. prop_bools.
    rewrite validate_url_spec in *. destruct_and!.
    eexists j, _. by split_and!.
  - intros (j & uri & -> & Ej & [Hi1 Hi2] & [Hu1 Hu2] & Hn & Hu & Hm & ->).
    rewrite !object_member by done. unfold json_is_object. simpl. rewrite Ej. simpl.
    rewrite Hi1, Hi2, Hu1, Hu2, Z.eqb_refl. unfold bytes_eqb.
    rewrite bool_decide_eq_true_2 by done. simpl.
    rewrite bool_decide_eq_true_2 by (rewrite validate_url_spec; by split_and!).
    by rewrite Hm.
Qed.

Lemma metadata_document_error malloc root issuer policy :
  metadata_document malloc root issuer policy <> inl PG_OAUTH_METADATA_OK.
Proof. unfold metadata_document. intros E. guards. prop_bools. congruence. Qed.

Lemma metadata_parse_ok malloc document issuer policy old r :
  pg_oauth_metadata_parse malloc document issuer (Some policy) (Some old) =
    (PG_OAUTH_METADATA_OK, r) ->
  exists d i m, document = Some d /\ issuer = Some i /\ r = Some m /\
    mp_max_document_size policy <> 0 /\ mp_max_url_size policy <> 0 /\
    0 < zlen d <= mp_max_document_size policy /\
    validate_url (c_str i) (mp_max_url_size policy) (mp_allow_insecure_http policy) true =
      PG_OAUTH_METADATA_OK /\
    metadata_document malloc (json_loadb d JSON_REJECT_DUPLICATES) (c_str i) policy = inr m.
Proof.
  unfold pg_oauth_metadata_parse. intros E. destruct document as [d|], issuer as [i|]; try done.
  destruct (metadata_document _ _ _ _) as [e|m] eqn:Ed.
  { assert (e <> PG_OAUTH_METADATA_OK) by (intros ->; by apply metadata_document_error in Ed).
    by guards. }
  guards. prop_bools. pose proof (zlen_nonneg d). exists d, i, m. split_and!; try done; lia.
Qed.

(** With memory and limits, no document is refused as an invalid argument. *)
Lemma metadata_parse_argument malloc document issuer policy old :
  (forall size, malloc size = true) -> mp_max_document_size policy <> 0 ->
  mp_max_url_size policy <> 0 ->
  fst (pg_oauth_metadata_parse malloc (Some document) (Some issuer) (Some policy) (Some old)) <>
    PG_OAUTH_METADATA_INVALID_ARGUMENT.
Proof.
  intros Hm Hd Hu.
  assert (forall value maximum allow issuer,
    validate_url value maximum allow issuer <> PG_OAUTH_METADATA_INVALID_ARGUMENT) as Hv.
  { intros. unfold validate_url. repeat case_match; done. }
  assert (forall root i,
    metadata_document malloc root i policy <> inl PG_OAUTH_METADATA_INVALID_ARGUMENT) as Hdoc.
  { intros root i. unfold metadata_document. rewrite Hm. cbn [negb]. intros E. guards.
    by eapply Hv. }
  unfold pg_oauth_metadata_parse. rewrite !(proj2 (Z.eqb_neq _ _)) by done. cbn [orb].
  specialize (Hdoc (json_loadb document JSON_REJECT_DUPLICATES) (c_str issuer)).
  destruct (metadata_document _ _ _ _); repeat case_match; simpl; congruence.
Qed.

(** C14: the metadata stage returns a key set URL exactly for acceptable
    discovery documents: within the size bound, a JSON object without duplicate
    members whose issuer is, byte for byte, the expected issuer (itself an
    admissible URL without a query), and whose jwks_uri is an admissible URL.
    The URL returned is the document's, and every failure leaves the cleared
    metadata. *)
Theorem metadata_parse_correct malloc document issuer policy old :
  (forall uri, pg_oauth_metadata_parse malloc (Some document) (Some issuer) (Some policy) (Some old) =
     (PG_OAUTH_METADATA_OK, Some {| jwks_uri := Some uri |}) <->
     metadata_acceptable document (c_str issuer) policy uri /\
     malloc (u64 (zlen uri + 1)) = true) /\
  (fst (pg_oauth_metadata_parse malloc (Some document) (Some issuer) (Some policy) (Some old)) <>
     PG_OAUTH_METADATA_OK ->
   snd (pg_oauth_metadata_parse malloc (Some document) (Some issuer) (Some policy) (Some old)) =
     Some metadata_zero).
Proof.
  unfold metadata_acceptable. split.
  - intros uri. pose proof (c_str_no_nul issuer). split.
    + intros (? & ? & ? & [= <-] & [= <-] & [= <-] & ? & ? & ? & Hv & Hd)%metadata_parse_ok.
      apply metadata_document_spec in Hd as (root & u & Hload & ? & ? & ? & ? & ? & ? & [= <-]).
      apply validate_url_spec in Hv as (_ & ? & ?).
      split_and!; auto; try lia; [by eapply loaded_unique|eauto].
    + intros ((Hl & Hd & Hu & Hi & Hq & _ & (root & Er & Ej & Ht & Htu) & Hn & Hv) & Hm).
      unfold pg_oauth_metadata_parse.
      replace (mp_max_document_size policy =? 0) with false by lia.
      replace (mp_max_url_size policy =? 0) with false by lia.
      replace (zlen document =? 0) with false by lia.
      replace (mp_max_document_size policy <? zlen document) with false by lia. simpl.
      rewrite bool_decide_eq_true_2 by (rewrite validate_url_spec; by split_and!). simpl.
      rewrite (proj2 (metadata_document_spec malloc (json_loadb document JSON_REJECT_DUPLICATES)
                        (c_str issuer) policy {| jwks_uri := Some uri |})); [done|].
      exists root, uri. by split_and!.
  - unfold pg_oauth_metadata_parse. repeat case_match; done.
Qed.

(** The URL checks of the two stages fit together.  A key set URL taken from
    accepted metadata passes every check of the transport except possibly the
    one on its host, when the transport runs with the same URL bound and the
    same setting for http. *)
Theorem metadata_uri_fetchable malloc document issuer policy old uri http_policy :
  pg_oauth_metadata_parse malloc document issuer (Some policy) (Some old) =
    (PG_OAUTH_METADATA_OK, Some {| jwks_uri := Some uri |}) ->
  hp_max_url_size http_policy = mp_max_url_size policy ->
  hp_allow_insecure_http http_policy = mp_allow_insecure_http policy ->
  (exists u, validate_request_url (Some uri) http_policy = inr u) \/
  validate_request_url (Some uri) http_policy = inl PG_OAUTH_HTTP_HOST_NOT_ALLOWED.
Proof.
  intros E Hs Ha. unfold validate_request_url. rewrite Hs, Ha.
  assert (url_acceptable (mp_max_url_size policy) (mp_allow_insecure_http policy) uri)
    as [[u h] Hp].
  { apply metadata_parse_ok in E as (? & ? & ? & _ & _ & [= <-] & _ & _ & _ & _ & Hd).
    by apply metadata_document_spec in Hd as (? & ? & ? & ? & ? & ? & ? & ? & ? & [= <-]). }
  rewrite Hp. case_match; eauto.
Qed.
End Specification.

(** ** An example *)

Module MetadataExample.
Definition issuer : bytes := B "https://idp.example".
Definition uri : bytes := B "https://idp.example/keys".
Definition document : bytes :=
  json_text "{'issuer':'https://idp.example','jwks_uri':'https://idp.example/keys'}".
#[local] Instance jansson : Jansson :=
  reference_jansson
    [(document, JObject [(B "issuer", JString issuer); (B "jwks_uri", JString uri)])].
#[local] Instance curl : CurlUrl := {|
  CURLU := bytes; curl_url := true; curl_url_set := Some;
  curl_url_get := fun u part =>
    match part with
    | CURLUPART_HOST => Some (span_authority (drop 8 u))
    | _ => None
    end
|}.
Definition policy : PgOAuthMetadataPolicy :=
  {| mp_max_document_size := 65536; mp_max_url_size := 2048; mp_allow_insecure_http := false |}.
Definition http_policy : PgOAuthHttpPolicy :=
  {| hp_max_url_size := 2048; hp_max_response_size := 65536; hp_connect_timeout_ms := 2000;
     hp_total_timeout_ms := 5000; hp_allowed_host := Some (B "idp.example");
     hp_additional_allowed_hosts := None; hp_ca_file := None;
     hp_allow_insecure_http := false; hp_cancel_requested := false |}.

Lemma example_metadata :
  pg_oauth_metadata_parse (fun _ => true) (Some document) (Some issuer) (Some policy)
    (Some metadata_zero) = (PG_OAUTH_METADATA_OK, Some {| jwks_uri := Some uri |}).
Proof. vm_compute. reflexivity. Qed.

Lemma metadata_uri_fetchable_witness :
  (exists u, validate_request_url (Some uri) http_policy = inr u) \/
  validate_request_url (Some uri) http_policy = inl PG_OAUTH_HTTP_HOST_NOT_ALLOWED.
Proof.
  apply (metadata_uri_fetchable (fun _ => true) (Some document) (Some issuer) policy
           metadata_zero uri http_policy).
  - exact example_metadata.
  - reflexivity.
  - reflexivity.
Defined.
End MetadataExample.
