(* ===== verification/Signature.v ===== *)
(** * Signature verification (src/signature.c, src/signature.h)

    The call sequence into libjwt: the selected key alone is serialised and
    imported, the checker is bound to the algorithm of that key, libjwt's own
    time checks are turned off, and the token is verified as received.  libjwt
    and Jansson are parameters. *)

From S2P Require Import Prelude Identity Jansson Envelope Jwks.

(** ** Data *)

Inductive PgOAuthSignatureError :=
| PG_OAUTH_SIGNATURE_OK
| PG_OAUTH_SIGNATURE_INVALID_ARGUMENT
| PG_OAUTH_SIGNATURE_KEY_SERIALIZATION_FAILED
| PG_OAUTH_SIGNATURE_KEY_IMPORT_FAILED
| PG_OAUTH_SIGNATURE_VERIFIER_FAILED
| PG_OAUTH_SIGNATURE_INVALID.

#[global] Instance signature_error_eq_dec : EqDecision PgOAuthSignatureError.
Proof. solve_decision. Defined.

Inductive jwt_alg_t := JWT_ALG_RS256 | JWT_ALG_ES256 | JWT_ALG_EDDSA | JWT_ALG_INVAL.

#[global] Instance jwt_alg_eq_dec : EqDecision jwt_alg_t.
Proof. solve_decision. Defined.

Inductive jwt_claims_t := JWT_CLAIM_EXP | JWT_CLAIM_NBF.

(** What the code calls of libjwt.  A function that changes the checker returns
    its new state. *)
Class LibJwt := {
  jwk_set_t : Type;
  jwk_item_t : Type;
  jwt_checker_t : Type;
  jwks_create_strn : bytes -> option jwk_set_t;
  jwks_error : jwk_set_t -> Z;
  jwks_item_count : jwk_set_t -> Z;
  jwks_item_get : jwk_set_t -> Z -> option jwk_item_t;
  jwt_checker_new : option jwt_checker_t;
  jwt_checker_setkey : jwt_checker_t -> jwt_alg_t -> jwk_item_t -> Z * jwt_checker_t;
  jwt_checker_time_leeway : jwt_checker_t -> jwt_claims_t -> Z -> Z * jwt_checker_t;
  jwt_checker_verify : jwt_checker_t -> bytes -> Z
}.

(** ** Definitions *)

Definition libjwt_algorithm (algorithm : Z) : jwt_alg_t :=
  if algorithm =? PG_OAUTH_ALGORITHM_RS256 then JWT_ALG_RS256
  else if algorithm =? PG_OAUTH_ALGORITHM_ES256 then JWT_ALG_ES256
  else if algorithm =? PG_OAUTH_ALGORITHM_EDDSA then JWT_ALG_EDDSA
  else JWT_ALG_INVAL.

Section Signature.
Context `{Jansson} `{LibJwt}.

(** The one key of the imported set. *)
Definition import_key (jwk_json : bytes) : option (jwk_set_t * option jwk_item_t) :=
  match jwks_create_strn jwk_json with
  | None => None
  | Some key_set =>
      if negb (jwks_error key_set =? 0) || negb (jwks_item_count key_set =? 1) then None
      else Some (key_set, jwks_item_get key_set 0)
  end.

(** The checker with its key, its algorithm and without time checks. *)
Definition configure_checker (checker : option jwt_checker_t) (algorithm : jwt_alg_t)
  (key : option jwk_item_t) : option jwt_checker_t :=
  match key, checker with
  | Some key, Some checker =>
      let '(result, checker) := jwt_checker_setkey checker algorithm key in
      if negb (result =? 0) then None
      else
        let '(result, checker) := jwt_checker_time_leeway checker JWT_CLAIM_EXP (-1) in
        if negb (result =? 0) then None
        else
          let '(result, checker) := jwt_checker_time_leeway checker JWT_CLAIM_NBF (-1) in
          if negb (result =? 0) then None else Some checker
  | _, _ => None
  end.

Definition pg_oauth_signature_verify (malloc : Z -> bool) (token : option bytes)
  (selected_key : option PgOAuthSelectedJwk) : PgOAuthSignatureError :=
  match token, selected_key with
  | Some token, Some selected =>
      if zlen token =? 0 then PG_OAUTH_SIGNATURE_INVALID_ARGUMENT
      else match sel_jwks selected, sel_jwk selected with
      | Some _, Some jwk =>
          let algorithm := libjwt_algorithm (sel_algorithm selected) in
          if bool_decide (algorithm = JWT_ALG_INVAL) then PG_OAUTH_SIGNATURE_INVALID_ARGUMENT
          else if memchr x00 token || (zlen token =? SIZE_MAX)
          then PG_OAUTH_SIGNATURE_INVALID_ARGUMENT
          else match json_dumps jwk with
          | None => PG_OAUTH_SIGNATURE_KEY_SERIALIZATION_FAILED
          | Some jwk_json =>
              match import_key (c_str jwk_json) with
              | None => PG_OAUTH_SIGNATURE_KEY_IMPORT_FAILED
              | Some (_, key) =>
                  match configure_checker jwt_checker_new algorithm key with
                  | None => PG_OAUTH_SIGNATURE_VERIFIER_FAILED
                  | Some checker =>
                      if negb (malloc (u64 (zlen token + 1)))
                      then PG_OAUTH_SIGNATURE_VERIFIER_FAILED
                      else if jwt_checker_verify checker token =? 0
                      then PG_OAUTH_SIGNATURE_OK else PG_OAUTH_SIGNATURE_INVALID
                  end
              end
          end
      | _, _ => PG_OAUTH_SIGNATURE_INVALID_ARGUMENT
      end
  | _, _ => PG_OAUTH_SIGNATURE_INVALID_ARGUMENT
  end.
End Signature.

Definition signature_error_value (error : PgOAuthSignatureError) : Z :=
  match error with
  | PG_OAUTH_SIGNATURE_OK => 0
  | PG_OAUTH_SIGNATURE_INVALID_ARGUMENT => 1
  | PG_OAUTH_SIGNATURE_KEY_SERIALIZATION_FAILED => 2
  | PG_OAUTH_SIGNATURE_KEY_IMPORT_FAILED => 3
  | PG_OAUTH_SIGNATURE_VERIFIER_FAILED => 4
  | PG_OAUTH_SIGNATURE_INVALID => 5
  end.

Definition pg_oauth_signature_error_code (error : Z) : bytes :=
  code_at
    [B "ok"; B "invalid_argument"; B "key_serialization_failed"; B "key_import_failed";
     B "verifier_failed"; B "invalid_signature"]
    (B "unknown") error.

(** ** Specification

    libjwt's manual: a checker with a key and an algorithm set accepts a token
    only if the token's algorithm is that algorithm and its signature verifies
    under that key ([jws_valid]); turning off a time claim does not change
    that. *)
Class LibJwtVerify `{L : LibJwt} := {
  jws_valid : jwt_alg_t -> jwk_item_t -> bytes -> Prop;
  checker_verifies : forall checker algorithm key c1 c2 c3 token,
    jwt_checker_new = Some checker ->
    jwt_checker_setkey checker algorithm key = (0, c1) ->
    jwt_checker_time_leeway c1 JWT_CLAIM_EXP (-1) = (0, c2) ->
    jwt_checker_time_leeway c2 JWT_CLAIM_NBF (-1) = (0, c3) ->
    jwt_checker_verify c3 token = 0 -> jws_valid algorithm key token
}.
Arguments LibJwtVerify : clear implicits.

(** The algorithms of the program and those of libjwt. *)
Definition algorithm_name (algorithm : Z) (alg : jwt_alg_t) : Prop :=
  (algorithm = PG_OAUTH_ALGORITHM_RS256 /\ alg = JWT_ALG_RS256) \/
  (algorithm = PG_OAUTH_ALGORITHM_ES256 /\ alg = JWT_ALG_ES256) \/
  (algorithm = PG_OAUTH_ALGORITHM_EDDSA /\ alg = JWT_ALG_EDDSA).

Section Specification.
Context `{J : Jansson} `{V : LibJwtVerify}.

(** [token] is signed by the key [jwk] with [algorithm]: the serialisation of
    that one key, imported on its own, verifies it. *)
Definition signed_by (jwk : json_t) (algorithm : Z) (token : bytes) : Prop :=
  exists jwk_json key_set key alg,
    json_dumps jwk = Some jwk_json /\ jwks_create_strn (c_str jwk_json) = Some key_set /\
    jwks_error key_set = 0 /\ jwks_item_count key_set = 1 /\
    jwks_item_get key_set 0 = Some key /\ algorithm_name algorithm alg /\
    jws_valid alg key token.

Lemma libjwt_algorithm_spec algorithm alg :
  libjwt_algorithm algorithm = alg -> alg <> JWT_ALG_INVAL -> algorithm_name algorithm alg.
Proof.
  unfold libjwt_algorithm, algorithm_name. intros <- Hn. guards; auto using Z.eqb_eq.
  all: rewrite Z.eqb_eq in *; auto.
Qed.

Lemma configured_verifies algorithm key checker token :
  configure_checker jwt_checker_new algorithm key = Some checker ->
  jwt_checker_verify checker token = 0 ->
  exists key', key = Some key' /\ jws_valid algorithm key' token.
Proof.
  unfold configure_checker. intros E Hv. guards. prop_bools. rewrite Z.eqb_eq in *. subst.
  eexists. split; [done|]. by eapply checker_verifies.
Qed.

Lemma signature_verify_ok malloc token selected :
  pg_oauth_signature_verify malloc token (Some selected) = PG_OAUTH_SIGNATURE_OK ->
  exists text jwk, token = Some text /\ sel_jwk selected = Some jwk /\ (x00 ∉ text) /\
    signed_by jwk (sel_algorithm selected) text.
Proof.
  unfold pg_oauth_signature_verify, import_key. intros E. guards. prop_bools.
  rewrite Z.eqb_eq in *.
  match goal with Hc : configure_checker _ _ _ = _, Hv : jwt_checker_verify _ _ = 0 |- _ =>
    destruct (configured_verifies _ _ _ _ Hc Hv) as (key & Hk & Hval) end.
  unfold memchr in *. prop_bools. eexists _, _. split_and!; try done.
  unfold signed_by. eexists _, _, key, _. split_and!; try done.
  by apply libjwt_algorithm_spec.
Qed.

(** C10: the signature stage accepts only what libjwt verified with the selected
    key.  When it answers OK, the token has no NUL (libjwt sees all of it), and
    the serialisation of the one selected key, imported by itself as a set of
    exactly one key, verifies the token under the algorithm the key was selected
    for: neither another key nor another algorithm named by the token can be
    used. *)
Theorem signature_verify_sound malloc token selected :
  pg_oauth_signature_verify malloc token (Some selected) = PG_OAUTH_SIGNATURE_OK ->
  exists text jwk, token = Some text /\ sel_jwk selected = Some jwk /\ (x00 ∉ text) /\
    signed_by jwk (sel_algorithm selected) text.
Proof. apply signature_verify_ok. Qed.
End Specification.

(** ** An example

    A libjwt whose keys are their own serialisation and which accepts a token
    that ends in its key. *)

Module SignatureExample.
Definition jwk : Json := JObject [(B "kid", JString (B "k1"))].
#[export] Instance lib : Jansson := {|
  json_t := Json; json_typeof := Json_typeof; json_member := Json_member;
  json_duplicate_keys := fun _ => False; json_loadb := fun _ _ => None;
  json_dumps := fun _ => Some (B "K"); json_loadb_unique := fun _ _ _ _ _ H => H |}.
#[export] Instance libjwt : LibJwt := {|
  jwk_set_t := bytes; jwk_item_t := bytes; jwt_checker_t := option (jwt_alg_t * bytes);
  jwks_create_strn := Some; jwks_error := fun _ => 0; jwks_item_count := fun _ => 1;
  jwks_item_get := fun set _ => Some set; jwt_checker_new := Some None;
  jwt_checker_setkey := fun _ alg key => (0, Some (alg, key));
  jwt_checker_time_leeway := fun checker _ _ => (0, checker);
  jwt_checker_verify := fun checker token =>
    match checker with
    | Some (_, key) => if bytes_eqb (drop (length token - length key) token) key then 0 else 1
    | None => 1
    end |}.
#[export] Instance libjwt_verify : LibJwtVerify libjwt.
Proof.
  refine {| jws_valid := fun _ key token => drop (length token - length key) token = key |}.
  intros c alg key c1 c2 c3 token [= <-] [= <-] [= <-] [= <-]. simpl. intros E.
  destruct (bytes_eqb _ key) eqn:Eb; [|done]. by prop_bools.
Defined.
Definition selected : PgOAuthSelectedJwk :=
  {| sel_jwks := Some jwk; sel_jwk := Some jwk; sel_algorithm := PG_OAUTH_ALGORITHM_ES256 |}.

Lemma signature_verify_sound_witness :
  exists text jwk, Some (B "header.payload.K") = Some text /\ sel_jwk selected = Some jwk /\
    (x00 ∉ text) /\ signed_by jwk (sel_algorithm selected) text.
Proof.
  apply (signature_verify_sound (fun _ => true) (Some (B "header.payload.K")) selected).
  vm_compute. reflexivity.
Defined.
End SignatureExample.
