(* ===== verification/IssuerKey.v ===== *)
(** * Issuer key retrieval (src/issuer_key.c, src/issuer_key.h, src/cache_io.h)

    Obtaining the verification key: metadata from the cache or the issuer, then
    the key set from the cache or its URL.  The function talks to the cache
    through the callbacks of [PgOAuthCacheIo] and to the network through
    [pg_oauth_http_get_json]; it is a program over those calls ([prog]), and a
    run of it ([exec]) is a list of calls with their answers.  The theorems are
    about all runs. *)

From S2P Require Import Prelude Identity Jansson Envelope Claims Jwks CacheState CacheKey.
From S2P Require Import Freshness Transport Metadata.

(** ** Data *)

Inductive PgOAuthIssuerKeyError :=
| PG_OAUTH_ISSUER_KEY_OK
| PG_OAUTH_ISSUER_KEY_INVALID_ARGUMENT
| PG_OAUTH_ISSUER_KEY_METADATA_HTTP
| PG_OAUTH_ISSUER_KEY_METADATA_INVALID
| PG_OAUTH_ISSUER_KEY_JWKS_HTTP
| PG_OAUTH_ISSUER_KEY_JWKS_INVALID
| PG_OAUTH_ISSUER_KEY_CACHE.

#[global] Instance issuer_key_error_eq_dec : EqDecision PgOAuthIssuerKeyError.
Proof. solve_decision. Defined.

Record PgOAuthIssuerKeyPolicy := {
  ikp_metadata_http : PgOAuthHttpPolicy;
  ikp_metadata : PgOAuthMetadataPolicy;
  ikp_jwks_http : PgOAuthHttpPolicy;
  ikp_jwks : PgOAuthJwksPolicy
}.

Record PgOAuthIssuerKeyResult `{Jansson} := {
  ik_selected : PgOAuthSelectedJwk;
  ik_http_error : PgOAuthHttpError;
  ik_metadata_error : PgOAuthMetadataError;
  ik_jwks_error : PgOAuthJwksError
}.

(** [payload] is what was copied into the output buffer; its length is
    [payload_length] whenever the copy succeeded. *)
Record PgOAuthCacheIoLookup := {
  lk_freshness : PgOAuthCacheLookup;
  lk_copy_result : PgOAuthCacheCopyResult;
  lk_payload : bytes
}.

(** Which of the callbacks are set. *)
Record PgOAuthCacheIo := {
  io_lookup : bool;
  io_begin_refresh : bool;
  io_wait_refresh : bool;
  io_complete_refresh : bool
}.

Record PgOAuthIssuerKeyCachePolicy := {
  cp_io : option PgOAuthCacheIo;
  cp_key_policy : PgOAuthCacheKeyPolicy;
  cp_metadata_freshness : PgOAuthHttpFreshnessPolicy;
  cp_jwks_freshness : PgOAuthHttpFreshnessPolicy;
  cp_jwks_stale_grace_ms : Z;
  cp_unknown_kid_refresh_cooldown_ms : Z;
  cp_refresh_wait_timeout_ms : Z
}.

(** ** Programs

    The calls that leave the function, with the type of their answers. *)

Inductive io_call :=
| call_lookup (key : bytes) (now_ms : Z) (allow_stale : bool) (output_size : Z)
| call_begin_refresh (key : bytes) (now_ms : Z) (unknown_kid : bool) (cooldown_ms : Z)
| call_wait_refresh (key : bytes) (timeout_ms : Z)
| call_complete_refresh (refresh : PgOAuthCacheRefresh) (now_ms : Z)
    (success cacheable revalidation_required : bool) (ttl_ms stale_grace_ms : Z)
    (payload : option bytes)
| call_http_get (url : option bytes) (policy : PgOAuthHttpPolicy).

#[global] Instance http_policy_eq_dec : EqDecision PgOAuthHttpPolicy.
Proof. solve_decision. Defined.
#[global] Instance cache_refresh_eq_dec : EqDecision PgOAuthCacheRefresh.
Proof. solve_decision. Defined.
#[global] Instance io_call_eq_dec : EqDecision io_call.
Proof. solve_decision. Defined.

Definition answer (c : io_call) : Type :=
  match c with
  | call_lookup _ _ _ _ => PgOAuthCacheIoLookup
  | call_begin_refresh _ _ _ _ => PgOAuthCacheRefreshResult * PgOAuthCacheRefresh
  | call_wait_refresh _ _ => bool * Z
  | call_complete_refresh _ _ _ _ _ _ _ _ => bool
  | call_http_get _ _ => PgOAuthHttpError * PgOAuthHttpResponse
  end.

Inductive prog (A : Type) : Type :=
| Ret (a : A)
| Call (c : io_call) (k : answer c -> prog A).
Arguments Ret {A} a.
Arguments Call {A} c k.

Fixpoint bind {A B} (p : prog A) (f : A -> prog B) : prog B :=
  match p with
  | Ret a => f a
  | Call c k => Call c (fun r => bind (k r) f)
  end.

(** A piece of the function either goes to [done] with the outcome, or goes on. *)
Definition piece (X A : Type) : Type := prog (X + A).

Definition bind_piece {X A B} (p : piece X A) (f : A -> piece X B) : piece X B :=
  bind p (fun o => match o with inl out => Ret (inl out) | inr a => f a end).

Declare Scope prog_scope.
Delimit Scope prog_scope with prog.
Notation "'let*' x := c 'in' k" := (Call c (fun x => k))
  (at level 10, x pattern, c at level 100, k at level 200) : prog_scope.
Notation "'let!' x := p 'in' k" := (bind_piece p (fun x => k))
  (at level 10, x pattern, p at level 100, k at level 200) : prog_scope.

Inductive event := Ev (c : io_call) (r : answer c).

(** ** Definitions *)

Section IssuerKey.
Context `{Jansson} `{OpenSsl} `{CurlUrl}.
Context (curl_getdate : bytes -> Z).
Context (malloc : Z -> bool) (key_malloc : nat -> Z -> bool).
Local Open Scope prog_scope.

Definition issuer_key_result_zero : PgOAuthIssuerKeyResult :=
  {| ik_selected := selected_zero; ik_http_error := PG_OAUTH_HTTP_OK;
     ik_metadata_error := PG_OAUTH_METADATA_OK; ik_jwks_error := PG_OAUTH_JWKS_OK |}.

Definition pg_oauth_issuer_key_result_clear (result : option PgOAuthIssuerKeyResult)
  : option PgOAuthIssuerKeyResult :=
  match result with
  | None => None
  | Some _ => Some issuer_key_result_zero
  end.

(** Assignments to fields of the result. *)
Definition set_http_error (e : PgOAuthHttpError) (r : PgOAuthIssuerKeyResult) :=
  {| ik_selected := ik_selected r; ik_http_error := e;
     ik_metadata_error := ik_metadata_error r; ik_jwks_error := ik_jwks_error r |}.
Definition set_metadata_error (e : PgOAuthMetadataError) (r : PgOAuthIssuerKeyResult) :=
  {| ik_selected := ik_selected r; ik_http_error := ik_http_error r;
     ik_metadata_error := e; ik_jwks_error := ik_jwks_error r |}.
Definition set_jwks (o : PgOAuthJwksError * option PgOAuthSelectedJwk)
  (r : PgOAuthIssuerKeyResult) :=
  {| ik_selected := default (ik_selected r) (snd o); ik_http_error := ik_http_error r;
     ik_metadata_error := ik_metadata_error r; ik_jwks_error := fst o |}.

Definition cache_policy_valid (policy : option PgOAuthIssuerKeyCachePolicy) : bool :=
  match policy with
  | None => false
  | Some policy =>
      match cp_io policy with
      | None => false
      | Some io =>
          io_lookup io && io_begin_refresh io && io_complete_refresh io &&
          ((cp_refresh_wait_timeout_ms policy =? 0) || io_wait_refresh io) &&
          (0 <=? fp_default_ttl_ms (cp_metadata_freshness policy)) &&
          (0 <? fp_maximum_ttl_ms (cp_metadata_freshness policy)) &&
          (0 <=? fp_default_ttl_ms (cp_jwks_freshness policy)) &&
          (0 <? fp_maximum_ttl_ms (cp_jwks_freshness policy)) &&
          (0 <=? cp_jwks_stale_grace_ms policy) &&
          (0 <=? cp_unknown_kid_refresh_cooldown_ms policy) &&
          (0 <=? cp_refresh_wait_timeout_ms policy)
      end
  end.

(** [complete_refresh] with success false: the refresh is given up. *)
Definition abandon (refresh : PgOAuthCacheRefresh) (now_ms : Z) : io_call :=
  call_complete_refresh refresh now_ms false false false 0 0 None.

Definition complete_response (refresh : PgOAuthCacheRefresh) (now_ms response_time_seconds : Z)
  (freshness_policy : PgOAuthHttpFreshnessPolicy) (stale_grace_ms : Z)
  (response : PgOAuthHttpResponse) : prog bool :=
  match pg_oauth_http_freshness_calculate curl_getdate (rs_cache_control response)
          (rs_date response) (rs_expires response) (rs_age response) response_time_seconds
          (Some freshness_policy) (Some freshness_zero) with
  | (PG_OAUTH_HTTP_FRESHNESS_OK, Some freshness) =>
      Call (call_complete_refresh refresh now_ms true (fr_cacheable freshness)
              (fr_revalidation_required freshness) (fr_ttl_ms freshness) stale_grace_ms
              (rs_body response)) Ret
  | _ => let* _ := abandon refresh now_ms in Ret false
  end.

Definition outcome : Type := PgOAuthIssuerKeyError * PgOAuthIssuerKeyResult.

(** The metadata document: its text, the response it came in (cleared when it
    came from the cache), the refresh then owned, and [cache_now_ms]. *)
Record acquired := {
  aq_result : PgOAuthIssuerKeyResult;
  aq_body : option bytes;
  aq_response : PgOAuthHttpResponse;
  aq_refresh : PgOAuthCacheRefresh;
  aq_cache_now_ms : Z
}.

Definition copied (wanted : PgOAuthCacheLookup -> bool) (lookup : PgOAuthCacheIoLookup) : bool :=
  wanted (lk_freshness lookup) && bool_decide (lk_copy_result lookup = PG_OAUTH_CACHE_COPY_OK).

Definition is_fresh (f : PgOAuthCacheLookup) : bool := bool_decide (f = PG_OAUTH_CACHE_FRESH).
Definition is_hit (f : PgOAuthCacheLookup) : bool := negb (bool_decide (f = PG_OAUTH_CACHE_MISS)).

(** Metadata published by another backend, after waiting for it. *)
Definition metadata_wait (key : bytes) (capacity now_ms elapsed_ms : Z)
  (result : PgOAuthIssuerKeyResult) : piece outcome acquired :=
  if i64 (INT64_MAX - now_ms) <? elapsed_ms
  then Ret (inl (PG_OAUTH_ISSUER_KEY_CACHE, result))
  else
    let cache_now_ms := i64 (now_ms + elapsed_ms) in
    let* lookup := call_lookup key cache_now_ms false capacity in
    if copied is_fresh lookup
    then Ret (inr {| aq_result := result; aq_body := Some (lk_payload lookup);
                     aq_response := response_zero; aq_refresh := refresh_none;
                     aq_cache_now_ms := cache_now_ms |})
    else Ret (inl (PG_OAUTH_ISSUER_KEY_CACHE, result)).

(** Metadata from the issuer, with the refresh owned. *)
Definition metadata_refresh (url : option bytes) (http : PgOAuthHttpPolicy)
  (refresh : PgOAuthCacheRefresh) (now_ms : Z) (result : PgOAuthIssuerKeyResult)
  : piece outcome acquired :=
  let* (http_error, response) := call_http_get url http in
  let result := set_http_error http_error result in
  if negb (bool_decide (http_error = PG_OAUTH_HTTP_OK))
  then let* _ := abandon refresh now_ms in
       Ret (inl (PG_OAUTH_ISSUER_KEY_METADATA_HTTP, result))
  else Ret (inr {| aq_result := result; aq_body := rs_body response; aq_response := response;
                   aq_refresh := refresh; aq_cache_now_ms := now_ms |}).

Definition metadata_cached (policy : PgOAuthIssuerKeyPolicy) (cp : PgOAuthIssuerKeyCachePolicy)
  (url : option bytes) (key : bytes) (capacity now_ms : Z) (result : PgOAuthIssuerKeyResult)
  : piece outcome acquired :=
  let* lookup := call_lookup key now_ms false capacity in
  if copied is_fresh lookup
  then Ret (inr {| aq_result := result; aq_body := Some (lk_payload lookup);
                   aq_response := response_zero; aq_refresh := refresh_none;
                   aq_cache_now_ms := now_ms |})
  else
    let* (refresh_result, refresh) := call_begin_refresh key now_ms false 0 in
    match refresh_result with
    | PG_OAUTH_CACHE_REFRESH_STARTED =>
        metadata_refresh url (ikp_metadata_http policy) refresh now_ms result
    | PG_OAUTH_CACHE_REFRESH_IN_PROGRESS =>
        if 0 <? cp_refresh_wait_timeout_ms cp
        then let* (published, elapsed_ms) :=
               call_wait_refresh key (cp_refresh_wait_timeout_ms cp) in
             if published : bool then metadata_wait key capacity now_ms elapsed_ms result
             else Ret (inl (PG_OAUTH_ISSUER_KEY_CACHE, result))
        else Ret (inl (PG_OAUTH_ISSUER_KEY_CACHE, result))
    | _ => Ret (inl (PG_OAUTH_ISSUER_KEY_CACHE, result))
    end.

Definition metadata_uncached (policy : PgOAuthIssuerKeyPolicy) (url : option bytes)
  (now_ms : Z) (result : PgOAuthIssuerKeyResult) : piece outcome acquired :=
  let* (http_error, response) := call_http_get url (ikp_metadata_http policy) in
  let result := set_http_error http_error result in
  if negb (bool_decide (http_error = PG_OAUTH_HTTP_OK))
  then Ret (inl (PG_OAUTH_ISSUER_KEY_METADATA_HTTP, result))
  else Ret (inr {| aq_result := result; aq_body := rs_body response; aq_response := response;
                   aq_refresh := refresh_none; aq_cache_now_ms := now_ms |}).

(** The fields the function fills into its copy of the key policy. *)
Definition key_policy_for (resource : Z) (issuer url jwks_url : option bytes)
  (k : PgOAuthCacheKeyPolicy) : PgOAuthCacheKeyPolicy :=
  {| ck_resource := resource; ck_issuer := issuer; ck_metadata_url := url;
     ck_jwks_url := jwks_url; ck_policy_name := ck_policy_name k;
     ck_required_scopes := ck_required_scopes k; ck_audiences := ck_audiences k;
     ck_allowed_token_types := ck_allowed_token_types k;
     ck_allow_missing_token_type := ck_allow_missing_token_type k;
     ck_identity_claim := ck_identity_claim k; ck_role_claim := ck_role_claim k;
     ck_allowed_jwks_hosts := ck_allowed_jwks_hosts k; ck_ca_file := ck_ca_file k;
     ck_allowed_algorithms := ck_allowed_algorithms k; ck_clock_skew_ms := ck_clock_skew_ms k;
     ck_max_token_size := ck_max_token_size k; ck_max_metadata_size := ck_max_metadata_size k;
     ck_max_jwks_size := ck_max_jwks_size k; ck_max_jwks_keys := ck_max_jwks_keys k;
     ck_minimum_rsa_bits := ck_minimum_rsa_bits k;
     ck_maximum_rsa_bits := ck_maximum_rsa_bits k;
     ck_jwks_stale_grace_ms := ck_jwks_stale_grace_ms k;
     ck_metadata_default_ttl_ms := ck_metadata_default_ttl_ms k;
     ck_jwks_default_ttl_ms := ck_jwks_default_ttl_ms k;
     ck_cache_max_ttl_ms := ck_cache_max_ttl_ms k;
     ck_unknown_kid_refresh_cooldown_ms := ck_unknown_kid_refresh_cooldown_ms k;
     ck_allow_insecure_http := ck_allow_insecure_http k |}.

(** [None] unless the key could be built. *)
Definition cache_key (k : PgOAuthCacheKeyPolicy) : option bytes :=
  match pg_oauth_cache_key_build (Some k) (Some []) with
  | (PG_OAUTH_CACHE_KEY_OK, key) => key
  | _ => None
  end.

(** The metadata document, from the cache where it is used ([cache] has the
    cache policy and the capacity of the buffer). *)
Definition metadata_acquire (policy : PgOAuthIssuerKeyPolicy)
  (cache : option (PgOAuthIssuerKeyCachePolicy * Z)) (url issuer : option bytes) (now_ms : Z)
  (result : PgOAuthIssuerKeyResult) : piece outcome acquired :=
  match cache with
  | None => metadata_uncached policy url now_ms result
  | Some (cp, capacity) =>
      match cache_key (key_policy_for PG_OAUTH_CACHE_RESOURCE_METADATA issuer url None
                         (cp_key_policy cp)) with
      | None => Ret (inl (PG_OAUTH_ISSUER_KEY_CACHE, result))
      | Some key => metadata_cached policy cp url key capacity now_ms result
      end
  end.

Definition fetched (cache : option (PgOAuthIssuerKeyCachePolicy * Z)) (a : acquired) : bool :=
  bool_decide (is_Some cache) && bool_decide (is_Some (rs_body (aq_response a))).

(** Parsing the metadata, publishing it where it was fetched, and the host of
    the discovery endpoint: the result, the key set URL and that host. *)
Definition metadata_use (policy : PgOAuthIssuerKeyPolicy)
  (cache : option (PgOAuthIssuerKeyCachePolicy * Z)) (url issuer : option bytes)
  (now_ms response_time_seconds : Z) (a : acquired)
  : piece outcome (PgOAuthIssuerKeyResult * option bytes * option bytes) :=
  let '(metadata_error, metadata) :=
    pg_oauth_metadata_parse malloc (aq_body a) issuer (Some (ikp_metadata policy))
      (Some metadata_zero) in
  let result := set_metadata_error metadata_error (aq_result a) in
  if negb (bool_decide (metadata_error = PG_OAUTH_METADATA_OK))
  then
    if fetched cache a
    then let* _ := abandon (aq_refresh a) now_ms in
         Ret (inl (PG_OAUTH_ISSUER_KEY_METADATA_INVALID, result))
    else Ret (inl (PG_OAUTH_ISSUER_KEY_METADATA_INVALID, result))
  else
    let host :=
      let '(http_error, discovery_host) :=
        pg_oauth_http_url_host malloc url (hp_max_url_size (ikp_metadata_http policy))
          (hp_allow_insecure_http (ikp_metadata_http policy)) in
      let result := set_http_error http_error result in
      if negb (bool_decide (http_error = PG_OAUTH_HTTP_OK))
      then inl (PG_OAUTH_ISSUER_KEY_METADATA_HTTP, result)
      else inr (result, metadata ≫= jwks_uri, discovery_host) in
    match cache with
    | Some (cp, _) =>
        if bool_decide (is_Some (rs_body (aq_response a)))
        then bind (complete_response (aq_refresh a) now_ms response_time_seconds
                     (cp_metadata_freshness cp) 0 (aq_response a))
               (fun completed =>
                  if negb completed then Ret (inl (PG_OAUTH_ISSUER_KEY_CACHE, result))
                  else Ret host)
        else Ret host
    | None => Ret host
    end.

(** The key set is to be fetched: the result, the refresh owned, [cache_now_ms]
    and [selected_from_stale]. *)
Record to_fetch := {
  tf_result : PgOAuthIssuerKeyResult;
  tf_refresh : PgOAuthCacheRefresh;
  tf_cache_now_ms : Z;
  tf_selected_from_stale : bool
}.

Definition select_key (policy : PgOAuthIssuerKeyPolicy) (document key_id : option bytes)
  (token_algorithm : Z) (result : PgOAuthIssuerKeyResult) : PgOAuthIssuerKeyResult :=
  set_jwks (pg_oauth_jwks_select key_malloc document key_id token_algorithm
              (Some (ikp_jwks policy)) (Some (ik_selected result))) result.

Definition jwks_ok (result : PgOAuthIssuerKeyResult) : bool :=
  bool_decide (ik_jwks_error result = PG_OAUTH_JWKS_OK).

(** A key set published by another backend, after waiting for it. *)
Definition jwks_wait (policy : PgOAuthIssuerKeyPolicy) (cp : PgOAuthIssuerKeyCachePolicy)
  (key : bytes) (capacity cache_now_ms elapsed_ms : Z) (key_id : option bytes)
  (token_algorithm : Z) (result : PgOAuthIssuerKeyResult) : piece outcome to_fetch :=
  if i64 (INT64_MAX - cache_now_ms) <? elapsed_ms
  then Ret (inl (PG_OAUTH_ISSUER_KEY_CACHE, result))
  else
    let cache_now_ms := i64 (cache_now_ms + elapsed_ms) in
    let* lookup := call_lookup key cache_now_ms (0 <? cp_jwks_stale_grace_ms cp) capacity in
    if copied is_hit lookup
    then
      let result := select_key policy (Some (lk_payload lookup)) key_id token_algorithm result in
      Ret (inl (if jwks_ok result then PG_OAUTH_ISSUER_KEY_OK else PG_OAUTH_ISSUER_KEY_CACHE,
                result))
    else Ret (inl (PG_OAUTH_ISSUER_KEY_CACHE, result)).

(** Claiming the refresh of the key set, or doing without. *)
Definition jwks_begin (policy : PgOAuthIssuerKeyPolicy) (cp : PgOAuthIssuerKeyCachePolicy)
  (key : bytes) (capacity cache_now_ms : Z) (key_id : option bytes) (token_algorithm : Z)
  (result : PgOAuthIssuerKeyResult) (selected_from_stale : bool) : piece outcome to_fetch :=
  let without := (if selected_from_stale then PG_OAUTH_ISSUER_KEY_OK
                  else PG_OAUTH_ISSUER_KEY_CACHE, result) in
  let* (refresh_result, refresh) :=
    call_begin_refresh key cache_now_ms
      (bool_decide (ik_jwks_error result = PG_OAUTH_JWKS_KEY_NOT_FOUND))
      (cp_unknown_kid_refresh_cooldown_ms cp) in
  match refresh_result with
  | PG_OAUTH_CACHE_REFRESH_STARTED =>
      Ret (inr {| tf_result := result; tf_refresh := refresh; tf_cache_now_ms := cache_now_ms;
                  tf_selected_from_stale := selected_from_stale |})
  | PG_OAUTH_CACHE_REFRESH_IN_PROGRESS =>
      if negb selected_from_stale && (0 <? cp_refresh_wait_timeout_ms cp)
      then let* (published, elapsed_ms) :=
             call_wait_refresh key (cp_refresh_wait_timeout_ms cp) in
           if published : bool
           then jwks_wait policy cp key capacity cache_now_ms elapsed_ms key_id
                  token_algorithm result
           else Ret (inl without)
      else Ret (inl without)
  | _ => Ret (inl without)
  end.

Definition jwks_cached (policy : PgOAuthIssuerKeyPolicy) (cp : PgOAuthIssuerKeyCachePolicy)
  (key : bytes) (capacity cache_now_ms : Z) (key_id : option bytes) (token_algorithm : Z)
  (result : PgOAuthIssuerKeyResult) : piece outcome to_fetch :=
  let* lookup := call_lookup key cache_now_ms (0 <? cp_jwks_stale_grace_ms cp) capacity in
  if copied is_hit lookup
  then
    let result := select_key policy (Some (lk_payload lookup)) key_id token_algorithm result in
    if jwks_ok result && is_fresh (lk_freshness lookup)
    then Ret (inl (PG_OAUTH_ISSUER_KEY_OK, result))
    else if negb (jwks_ok result) &&
            negb (bool_decide (ik_jwks_error result = PG_OAUTH_JWKS_KEY_NOT_FOUND))
    then Ret (inl (PG_OAUTH_ISSUER_KEY_CACHE, result))
    else jwks_begin policy cp key capacity cache_now_ms key_id token_algorithm result
           (jwks_ok result)
  else jwks_begin policy cp key capacity cache_now_ms key_id token_algorithm result false.

Definition jwks_acquire (policy : PgOAuthIssuerKeyPolicy)
  (cache : option (PgOAuthIssuerKeyCachePolicy * Z)) (url issuer jwks_url key_id : option bytes)
  (token_algorithm cache_now_ms : Z) (result : PgOAuthIssuerKeyResult)
  : piece outcome to_fetch :=
  match cache with
  | None => Ret (inr {| tf_result := result; tf_refresh := refresh_none;
                        tf_cache_now_ms := cache_now_ms; tf_selected_from_stale := false |})
  | Some (cp, capacity) =>
      match cache_key (key_policy_for PG_OAUTH_CACHE_RESOURCE_JWKS issuer url jwks_url
                         (cp_key_policy cp)) with
      | None => Ret (inl (PG_OAUTH_ISSUER_KEY_CACHE, result))
      | Some key =>
          jwks_cached policy cp key capacity cache_now_ms key_id token_algorithm result
      end
  end.

(** Give up the refresh, where there is one, and finish. *)
Definition give_back (cache : option (PgOAuthIssuerKeyCachePolicy * Z)) (f : to_fetch)
  (out : outcome) : prog outcome :=
  match cache with
  | Some _ => let* _ := abandon (tf_refresh f) (tf_cache_now_ms f) in Ret out
  | None => Ret out
  end.

(** The key set from its URL: from here on it alone decides. *)
Definition jwks_fetch (policy : PgOAuthIssuerKeyPolicy)
  (cache : option (PgOAuthIssuerKeyCachePolicy * Z)) (jwks_http : PgOAuthHttpPolicy)
  (jwks_url key_id : option bytes) (token_algorithm response_time_seconds : Z) (f : to_fetch)
  : prog outcome :=
  let* (http_error, response) := call_http_get jwks_url jwks_http in
  let result := set_http_error http_error (tf_result f) in
  if negb (bool_decide (http_error = PG_OAUTH_HTTP_OK))
  then give_back cache f (if tf_selected_from_stale f then PG_OAUTH_ISSUER_KEY_OK
                          else PG_OAUTH_ISSUER_KEY_JWKS_HTTP, result)
  else
    let result :=
      if tf_selected_from_stale f
      then set_jwks (ik_jwks_error result, pg_oauth_selected_jwk_clear (Some (ik_selected result)))
             result
      else result in
    let result := select_key policy (rs_body response) key_id token_algorithm result in
    if negb (jwks_ok result) then give_back cache f (PG_OAUTH_ISSUER_KEY_JWKS_INVALID, result)
    else match cache with
         | Some (cp, _) =>
             bind (complete_response (tf_refresh f) (tf_cache_now_ms f) response_time_seconds
                     (cp_jwks_freshness cp) (cp_jwks_stale_grace_ms cp) response)
               (fun completed =>
                  Ret (if completed then PG_OAUTH_ISSUER_KEY_OK else PG_OAUTH_ISSUER_KEY_CACHE,
                       result))
         | None => Ret (PG_OAUTH_ISSUER_KEY_OK, result)
         end.

(** [policy->jwks_http] with the discovery host as its allowed host. *)
Definition jwks_http_for (host : option bytes) (http : PgOAuthHttpPolicy) : PgOAuthHttpPolicy :=
  {| hp_max_url_size := hp_max_url_size http; hp_max_response_size := hp_max_response_size http;
     hp_connect_timeout_ms := hp_connect_timeout_ms http;
     hp_total_timeout_ms := hp_total_timeout_ms http; hp_allowed_host := host;
     hp_additional_allowed_hosts := hp_additional_allowed_hosts http;
     hp_ca_file := hp_ca_file http; hp_allow_insecure_http := hp_allow_insecure_http http;
     hp_cancel_requested := hp_cancel_requested http |}.

(** The capacity of the buffer for cached documents; [None] where it cannot be
    had. *)
Definition cached_capacity (policy : PgOAuthIssuerKeyPolicy) : option Z :=
  let capacity := hp_max_response_size (ikp_metadata_http policy) in
  let capacity := if capacity <? hp_max_response_size (ikp_jwks_http policy)
                  then hp_max_response_size (ikp_jwks_http policy) else capacity in
  if (capacity =? 0) || (PG_OAUTH_CACHE_MAX_PAYLOAD_SIZE <? capacity) || negb (malloc capacity)
  then None else Some capacity.

Definition finish (p : piece outcome outcome) : prog outcome :=
  bind p (fun o => match o with inl out => Ret out | inr out => Ret out end).

(** The function from the first call on. *)
Definition fetch_with (policy : PgOAuthIssuerKeyPolicy)
  (cache : option (PgOAuthIssuerKeyCachePolicy * Z)) (url issuer key_id : option bytes)
  (token_algorithm now_ms response_time_seconds : Z) : prog outcome :=
  finish
    (let! a := metadata_acquire policy cache url issuer now_ms issuer_key_result_zero in
     let! (result, jwks_url, host) :=
       metadata_use policy cache url issuer now_ms response_time_seconds a in
     let! f := jwks_acquire policy cache url issuer jwks_url key_id token_algorithm
                 (aq_cache_now_ms a) result in
     bind (jwks_fetch policy cache (jwks_http_for host (ikp_jwks_http policy)) jwks_url key_id
             token_algorithm response_time_seconds f) (fun out => Ret (inr out))).

Definition pg_oauth_issuer_key_fetch_cached
  (metadata_url expected_issuer key_id : option bytes) (token_algorithm : Z)
  (policy : option PgOAuthIssuerKeyPolicy) (cache_policy : option PgOAuthIssuerKeyCachePolicy)
  (now_ms response_time_seconds : Z) (result : option PgOAuthIssuerKeyResult)
  : prog (PgOAuthIssuerKeyError * option PgOAuthIssuerKeyResult) :=
  match result with
  | None => Ret (PG_OAUTH_ISSUER_KEY_INVALID_ARGUMENT, None)
  | Some _ =>
      let refuse error := Ret (error, Some issuer_key_result_zero) in
      let return_outcome (o : outcome) := Ret (fst o, Some (snd o)) in
      match metadata_url, expected_issuer, key_id, policy with
      | Some _, Some _, Some _, Some policy =>
          if token_algorithm =? 0 then refuse PG_OAUTH_ISSUER_KEY_INVALID_ARGUMENT
          else match cache_policy with
          | None =>
              bind (fetch_with policy None metadata_url expected_issuer key_id token_algorithm
                      now_ms response_time_seconds) return_outcome
          | Some cp =>
              if negb (cache_policy_valid cache_policy)
              then refuse PG_OAUTH_ISSUER_KEY_INVALID_ARGUMENT
              else match cached_capacity policy with
              | None => refuse PG_OAUTH_ISSUER_KEY_CACHE
              | Some capacity =>
                  bind (fetch_with policy (Some (cp, capacity)) metadata_url expected_issuer
                          key_id token_algorithm now_ms response_time_seconds) return_outcome
              end
          end
      | _, _, _, _ => refuse PG_OAUTH_ISSUER_KEY_INVALID_ARGUMENT
      end
  end.

Definition pg_oauth_issuer_key_fetch (metadata_url expected_issuer key_id : option bytes)
  (token_algorithm : Z) (policy : option PgOAuthIssuerKeyPolicy)
  (result : option PgOAuthIssuerKeyResult)
  : prog (PgOAuthIssuerKeyError * option PgOAuthIssuerKeyResult) :=
  pg_oauth_issuer_key_fetch_cached metadata_url expected_issuer key_id token_algorithm policy
    None 0 0 result.
End IssuerKey.

(** The text after the switch is for values outside the enumeration, which no
    caller passes. *)
Definition pg_oauth_issuer_key_error_code (error : PgOAuthIssuerKeyError) : bytes :=
  match error with
  | PG_OAUTH_ISSUER_KEY_OK => B "issuer_key_ok"
  | PG_OAUTH_ISSUER_KEY_INVALID_ARGUMENT => B "issuer_key_invalid_argument"
  | PG_OAUTH_ISSUER_KEY_METADATA_HTTP => B "issuer_key_metadata_http"
  | PG_OAUTH_ISSUER_KEY_METADATA_INVALID => B "issuer_key_metadata_invalid"
  | PG_OAUTH_ISSUER_KEY_JWKS_HTTP => B "issuer_key_jwks_http"
  | PG_OAUTH_ISSUER_KEY_JWKS_INVALID => B "issuer_key_jwks_invalid"
  | PG_OAUTH_ISSUER_KEY_CACHE => B "issuer_key_cache"
  end.

(** ** Runs

    A call of [pg_oauth_http_get_json] is answered as that function answers for
    some behaviour of libcurl; the cache reports a stale document only to a
    caller that allows one, and may otherwise answer anything. *)

Section Runs.
Context `{CurlUrl}.

Definition answer_ok (c : io_call) : answer c -> Prop :=
  match c with
  | call_http_get url policy => fun r =>
      exists curl, pg_oauth_http_get_json curl url (Some policy) (Some response_zero) =
        (fst r, Some (snd r))
  | call_lookup _ _ allow_stale _ => fun r =>
      lk_freshness r = PG_OAUTH_CACHE_STALE -> allow_stale = true
  | _ => fun _ => True
  end.

Fixpoint exec {A} (p : prog A) (tr : list event) (a : A) : Prop :=
  match p with
  | Ret b => tr = [] /\ a = b
  | Call c k => exists r tr', tr = Ev c r :: tr' /\ answer_ok c r /\ exec (k r) tr' a
  end.

Lemma exec_bind {A B} (p : prog A) (f : A -> prog B) tr b :
  exec (bind p f) tr b <->
  exists tr1 tr2 a, tr = tr1 ++ tr2 /\ exec p tr1 a /\ exec (f a) tr2 b.
Proof.
  revert tr. induction p as [a|c k IH]; intros tr; simpl.
  - split; [intros He; by exists [], tr, a|]. by intros (? & ? & ? & -> & [-> ->] & He).
  - split.
    + intros (r & tr' & -> & Ha & (tr1 & tr2 & a & -> & H1 & H2)%IH).
      exists (Ev c r :: tr1), tr2, a. split_and!; [done| |done]. by exists r, tr1.
    + intros (tr1 & tr2 & a & -> & (r & tr' & -> & Ha & H1) & H2).
      exists r, (tr' ++ tr2). split_and!; [done..|]. apply IH. eauto 10.
Qed.

Lemma exec_piece {X A B} (p : piece X A) (f : A -> piece X B) tr o :
  exec (bind_piece p f) tr o <->
  (exists x, exec p tr (inl x) /\ o = inl x) \/
  (exists tr1 tr2 a, tr = tr1 ++ tr2 /\ exec p tr1 (inr a) /\ exec (f a) tr2 o).
Proof.
  unfold bind_piece. rewrite exec_bind. split.
  - intros (tr1 & tr2 & [x|a] & -> & H1 & H2); [|eauto 8].
    destruct H2 as [-> ->]. rewrite app_nil_r. eauto.
  - intros [(x & Hx & ->)|(tr1 & tr2 & a & -> & H1 & H2)].
    + exists tr, [], (inl x). by rewrite app_nil_r.
    + by exists tr1, tr2, (inr a).
Qed.

(** A run determines its result. *)
Lemma exec_fun {A} (p : prog A) tr a a' : exec p tr a -> exec p tr a' -> a = a'.
Proof.
  revert tr. induction p as [b|c k IH]; intros tr; simpl.
  - by intros [_ ->] [_ ->].
  - intros (r & t & -> & _ & H1) (r' & t' & Heq & _ & H2). injection Heq as Hr <-.
    apply (Eqdep_dec.inj_pair2_eq_dec _ io_call_eq_dec) in Hr as <-. by eapply IH.
Qed.

(** An answered GET: on success there is a body, otherwise nothing. *)
Lemma http_answer url policy error response :
  answer_ok (call_http_get url policy) (error, response) ->
  if bool_decide (error = PG_OAUTH_HTTP_OK) then is_Some (rs_body response)
  else response = response_zero.
Proof.
  intros [curl E]. cbn [fst snd] in E. pose proof (http_get_outcome curl url (Some policy) response_zero) as Ho.
  rewrite E in Ho. case_bool_decide as Hb.
  - subst. destruct Ho as (r & [= <-] & ?). done.
  - destruct error; try done; by injection Ho.
Qed.
End Runs.

(** ** Ownership

    The refreshes a run owns: [own None tr = Some o] if, along [tr], a refresh is
    begun only while none is owned, the one owned is completed once and by its
    own handle, and the cache is neither searched nor waited for while one is
    owned; [o] is what is owned at the end. *)

Definition own_step (o : option PgOAuthCacheRefresh) (e : event)
  : option (option PgOAuthCacheRefresh) :=
  match e, o with
  | Ev (call_begin_refresh _ _ _ _) (PG_OAUTH_CACHE_REFRESH_STARTED, refresh), None =>
      Some (Some refresh)
  | Ev (call_begin_refresh _ _ _ _) _, None => Some None
  | Ev (call_complete_refresh refresh _ _ _ _ _ _ _) _, Some owned =>
      if decide (rf_entry_index refresh = rf_entry_index owned /\
                 rf_serial refresh = rf_serial owned) then Some None else None
  | Ev (call_lookup _ _ _ _) _, None | Ev (call_wait_refresh _ _) _, None => Some None
  | Ev (call_http_get _ _) _, _ => Some o
  | _, _ => None
  end.

Fixpoint own (o : option PgOAuthCacheRefresh) (tr : list event)
  : option (option PgOAuthCacheRefresh) :=
  match tr with
  | [] => Some o
  | e :: tr => own_step o e ≫= fun o => own o tr
  end.

Lemma own_app o tr1 tr2 : own o (tr1 ++ tr2) = own o tr1 ≫= fun o => own o tr2.
Proof.
  revert o. induction tr1 as [|e tr1 IH]; intros o; [done|]. simpl.
  destruct (own_step o e); simpl; [apply IH|done].
Qed.

(** Take a run apart. *)
Ltac run_step :=
  match goal with
  | H : exec (Ret _) _ _ |- _ => destruct H as [? ?]; simplify_eq
  | H : exec (Call _ _) _ _ |- _ =>
      let r := fresh "r" in let t := fresh "t" in let Ha := fresh "Ha" in
      destruct H as (r & t & ? & Ha & H); simplify_eq; cbn [answer] in r
  | H : exec (if ?b then _ else _) _ _ |- _ => destruct b eqn:?
  | H : exec (match ?x with _ => _ end) _ _ |- _ => destruct x eqn:?
  | H : exec (let '(_, _) := ?x in _) _ _ |- _ => destruct x eqn:?
  end.
Ltac run := repeat run_step.

Section Ownership.
Context `{J : Jansson} `{S : OpenSsl} `{U : CurlUrl}.
Context (curl_getdate : bytes -> Z) (malloc : Z -> bool) (key_malloc : nat -> Z -> bool).
Abbreviation cache_t := (option (PgOAuthIssuerKeyCachePolicy * Z)).

Lemma own_complete r now s c v ttl grace p b tr :
  own (Some r) (Ev (call_complete_refresh r now s c v ttl grace p) b :: tr) = own None tr.
Proof. simpl. by rewrite decide_True. Qed.

Lemma metadata_acquire_own policy (cache : cache_t) url issuer now result tr o :
  exec (metadata_acquire policy cache url issuer now result) tr o ->
  own None tr = Some (match o with
                      | inl _ => None
                      | inr a => if fetched cache a then Some (aq_refresh a) else None
                      end).
Proof.
  unfold metadata_acquire, metadata_cached, metadata_uncached, metadata_refresh, metadata_wait.
  intros He. run; try done.
  all: unfold fetched; simpl.
  all: try rewrite decide_True by done; try done.
  match goal with Ha : answer_ok (call_http_get _ _) _ |- _ => apply http_answer in Ha end.
  prop_bools. subst. by rewrite bool_decide_eq_true_2 in * by done.
Qed.

Lemma complete_response_own refresh now time fresh grace response tr b :
  exec (complete_response curl_getdate refresh now time fresh grace response) tr b ->
  own (Some refresh) tr = Some None.
Proof.
  unfold complete_response, abandon. intros He. run; by rewrite own_complete.
Qed.

(** What the function owns while it works on the metadata. *)
Definition metadata_owned (cache : cache_t) (a : acquired) : option PgOAuthCacheRefresh :=
  if fetched cache a then Some (aq_refresh a) else None.

Lemma metadata_use_own policy (cache : cache_t) url issuer now time a tr o :
  exec (metadata_use curl_getdate malloc policy cache url issuer now time a) tr o ->
  own (metadata_owned cache a) tr = Some None.
Proof.
  unfold metadata_use, metadata_owned, fetched, abandon. intros He.
  destruct (pg_oauth_metadata_parse _ _ _ _ _) as [e m].
  destruct cache as [[cp capacity]|]; cbn [is_Some] in *.
  - rewrite (bool_decide_eq_true_2 (is_Some (Some _))) in * by eauto. cbn [andb] in *.
    run; rewrite ?own_complete; try done.
    all: apply exec_bind in He as (tr1 & tr2 & b & -> & H1 & H2);
         apply complete_response_own in H1; rewrite own_app, H1; simpl; by run.
  - rewrite (bool_decide_eq_false_2 (is_Some None)) in * by by intros []. cbn [andb] in *. by run.
Qed.

(** What the function owns before it fetches the key set. *)
Definition jwks_owned (cache : cache_t) (f : to_fetch) : option PgOAuthCacheRefresh :=
  match cache with Some _ => Some (tf_refresh f) | None => None end.

Lemma jwks_acquire_own policy (cache : cache_t) url issuer jwks_url kid alg now result tr o :
  exec (jwks_acquire key_malloc policy cache url issuer jwks_url kid alg now result) tr o ->
  own None tr = Some (match o with inl _ => None | inr f => jwks_owned cache f end).
Proof.
  unfold jwks_acquire, jwks_cached, jwks_begin, jwks_wait, jwks_owned. intros He. run; done.
Qed.

Lemma jwks_fetch_own policy (cache : cache_t) http jwks_url kid alg time f tr out :
  exec (jwks_fetch curl_getdate key_malloc policy cache http jwks_url kid alg time f) tr out ->
  own (jwks_owned cache f) tr = Some None.
Proof.
  unfold jwks_fetch, give_back, jwks_owned, abandon. intros He.
  destruct cache as [[cp capacity]|]; run; cbn [own own_step option_bind mbind]; try done.
  1-2: by rewrite decide_True by done.
  apply exec_bind in He as (tr1 & tr2 & b & -> & H1 & H2).
  apply complete_response_own in H1. rewrite own_app, H1. by run.
Qed.

Lemma fetch_with_own policy (cache : cache_t) url issuer kid alg now time tr out :
  exec (fetch_with curl_getdate malloc key_malloc policy cache url issuer kid alg now time) tr out ->
  own None tr = Some None.
Proof.
  unfold fetch_with, finish. intros (tr1 & tr2 & o & -> & He & Hr)%exec_bind.
  assert (tr2 = []) as -> by (destruct o; by run). rewrite app_nil_r. clear Hr.
  apply exec_piece in He as [(x & He & ->)|(t1 & t2 & a & -> & H1 & He)].
  { by apply metadata_acquire_own in He. }
  apply metadata_acquire_own in H1. rewrite own_app, H1. simpl. clear H1.
  change (if fetched cache a then _ else _) with (metadata_owned cache a).
  apply exec_piece in He as [(x & He & ->)|(t3 & t4 & [[result uri] host] & -> & H1 & He)].
  { by apply metadata_use_own in He. }
  apply metadata_use_own in H1. rewrite own_app, H1. simpl. clear H1.
  apply exec_piece in He as [(x & He & ->)|(t5 & t6 & f & -> & H1 & He)].
  { by apply jwks_acquire_own in He. }
  apply jwks_acquire_own in H1. rewrite own_app, H1. simpl.
  apply exec_bind in He as (t7 & t8 & out' & -> & He & [-> _]). rewrite app_nil_r.
  by apply jwks_fetch_own in He.
Qed.

(** The buffer and the cache policy a run works with. *)
Definition cache_setting (policy : PgOAuthIssuerKeyPolicy)
  (cache_policy : option PgOAuthIssuerKeyCachePolicy) (cache : cache_t) : Prop :=
  match cache_policy, cache with
  | None, None => True
  | Some cp, Some (cp', capacity) =>
      cp' = cp /\ cache_policy_valid cache_policy = true /\
      cached_capacity malloc policy = Some capacity
  | _, _ => False
  end.

(** The function refuses its arguments, or runs [fetch_with]. *)
Lemma fetch_cached_runs url issuer kid alg policy cache_policy now time result tr out :
  exec (pg_oauth_issuer_key_fetch_cached curl_getdate malloc key_malloc url issuer kid alg policy
          cache_policy now time result) tr out ->
  (tr = [] /\ fst out <> PG_OAUTH_ISSUER_KEY_OK) \/
  exists p cache o, policy = Some p /\ alg <> 0 /\ cache_setting p cache_policy cache /\
    exec (fetch_with curl_getdate malloc key_malloc p cache url issuer kid alg now time) tr o /\
    out = (fst o, Some (snd o)).
Proof.
  unfold pg_oauth_issuer_key_fetch_cached. intros He.
  destruct result; [|left; run; split; [reflexivity|discriminate]].
  destruct url as [u|], issuer as [i|], kid as [k|], policy as [p0|];
    try (left; run; split; [reflexivity|discriminate]).
  destruct (alg =? 0) eqn:Ea; [left; run; split; [reflexivity|discriminate]|].
  apply Z.eqb_neq in Ea. destruct cache_policy as [cp|].
  - destruct (cache_policy_valid (Some cp)) eqn:Ev; cbn [negb] in He; [|left; run; split; [reflexivity|discriminate]].
    destruct (cached_capacity malloc p0) as [capacity|] eqn:Ec;
      [|left; run; split; [reflexivity|discriminate]].
    apply exec_bind in He as (tr1 & tr2 & o & -> & He & [-> Ho]). rewrite app_nil_r.
    right. exists p0, (Some (cp, capacity)), o.
    repeat (split; [first [assumption|reflexivity|by split_and!]|]). assumption.
  - apply exec_bind in He as (tr1 & tr2 & o & -> & He & [-> Ho]). rewrite app_nil_r.
    right. exists p0, None, o. split_and!; try assumption; reflexivity.
Qed.

(** C7: refreshes are never leaked.  Along every run of the retrieval, whatever
    the cache, the network and the documents answer, a refresh is begun only
    while none is owned, every refresh that was started is completed exactly
    once with the handle it was started with, the function never waits for
    another backend nor searches the cache while it owns a refresh (so two
    backends cannot wait for each other), and at the end nothing is owned. *)
Theorem issuer_key_refresh_discipline url issuer kid alg policy cache_policy now time result tr out :
  exec (pg_oauth_issuer_key_fetch_cached curl_getdate malloc key_malloc url issuer kid alg policy
          cache_policy now time result) tr out ->
  own None tr = Some None.
Proof.
  intros [[-> _]|(p & cache & o & _ & _ & _ & He & _)]%fetch_cached_runs; [reflexivity|].
  exact (fetch_with_own _ _ _ _ _ _ _ _ _ _ He).
Qed.
End Ownership.

(** ** Provenance *)

#[local] Arguments pg_oauth_jwks_select : simpl never.

Section Provenance.
Context `{J : Jansson} `{S : OpenSsl} `{U : CurlUrl}.
Context (curl_getdate : bytes -> Z) (malloc : Z -> bool) (key_malloc : nat -> Z -> bool).
Context (policy : PgOAuthIssuerKeyPolicy) (cache : option (PgOAuthIssuerKeyCachePolicy * Z)).
Context (url issuer kid : option bytes) (alg : Z).

Definition hit (freshness : PgOAuthCacheLookup) (document : bytes) : PgOAuthCacheIoLookup :=
  {| lk_freshness := freshness; lk_copy_result := PG_OAUTH_CACHE_COPY_OK;
     lk_payload := document |}.

(** [document] was copied from the cache entry of the given resource. *)
Definition from_cache (resource : Z) (jwks_url : option bytes) (allow_stale : bool)
  (freshness : PgOAuthCacheLookup) (document : bytes) (e : event) : Prop :=
  exists cp capacity key now, cache = Some (cp, capacity) /\
    cache_key (key_policy_for resource issuer url jwks_url (cp_key_policy cp)) = Some key /\
    e = Ev (call_lookup key now allow_stale capacity) (hit freshness document).

(** [document] is the body of a successful GET. *)
Definition from_network (target : option bytes) (http : PgOAuthHttpPolicy) (document : bytes)
  (e : event) : Prop :=
  exists response, rs_body response = Some document /\
    e = Ev (call_http_get target http) (PG_OAUTH_HTTP_OK, response).

Definition successful_get (e : event) : bool :=
  match e with
  | Ev c r =>
      match c return answer c -> bool with
      | call_http_get _ _ => fun r => bool_decide (fst r = PG_OAUTH_HTTP_OK)
      | _ => fun _ => false
      end r
  end.

(** The metadata was fresh in the cache or has just been fetched. *)
Definition metadata_source (tr : list event) (document : bytes) : Prop :=
  exists e, In e tr /\
    (from_cache PG_OAUTH_CACHE_RESOURCE_METADATA None false PG_OAUTH_CACHE_FRESH document e \/
     from_network url (ikp_metadata_http policy) document e).

Definition stale_allowed : Prop :=
  match cache with Some (cp, _) => 0 < cp_jwks_stale_grace_ms cp | None => False end.

Definition selects (document : option bytes) (selected : PgOAuthSelectedJwk) : Prop :=
  exists old, pg_oauth_jwks_select key_malloc document kid alg (Some (ikp_jwks policy)) (Some old) =
    (PG_OAUTH_JWKS_OK, Some selected).

(** The key set was fresh in the cache, or stale there with a grace configured
    and no GET succeeding afterwards. *)
Definition jwks_fresh (jwks_url : option bytes) (tr : list event) (document : bytes) : Prop :=
  exists e allow_stale, In e tr /\
    from_cache PG_OAUTH_CACHE_RESOURCE_JWKS jwks_url allow_stale PG_OAUTH_CACHE_FRESH document e.

Definition jwks_stale (jwks_url : option bytes) (tr : list event) (document : bytes) : Prop :=
  stale_allowed /\ exists t1 e t2, tr = t1 ++ e :: t2 /\
    from_cache PG_OAUTH_CACHE_RESOURCE_JWKS jwks_url true PG_OAUTH_CACHE_STALE document e /\
    Forall (fun e => successful_get e = false) t2.

(** The key set was fetched from its URL, or came from the cache. *)
Definition jwks_source (jwks_url host : option bytes) (tr : list event) (document : bytes)
  : Prop :=
  (exists e, In e tr /\
     from_network jwks_url (jwks_http_for host (ikp_jwks_http policy)) document e) \/
  jwks_fresh jwks_url tr document \/ jwks_stale jwks_url tr document.

Lemma copied_hit wanted lookup :
  copied wanted lookup = true ->
  lookup = hit (lk_freshness lookup) (lk_payload lookup) /\ wanted (lk_freshness lookup) = true.
Proof.
  unfold copied, hit. intros H. prop_bools. destruct lookup. simpl in *. by subst.
Qed.

Lemma lookup_event resource jwks_url wanted cp capacity key now allow_stale r :
  cache = Some (cp, capacity) ->
  cache_key (key_policy_for resource issuer url jwks_url (cp_key_policy cp)) = Some key ->
  copied wanted r = true ->
  from_cache resource jwks_url allow_stale (lk_freshness r) (lk_payload r)
    (Ev (call_lookup key now allow_stale capacity) r) /\ wanted (lk_freshness r) = true.
Proof.
  intros Hc Hk [Hr Hw]%copied_hit. split; [|done]. exists cp, capacity, key, now.
  split_and!; [done..|]. by rewrite <- Hr.
Qed.

Lemma get_event target http error response :
  answer_ok (call_http_get target http) (error, response) ->
  negb (bool_decide (error = PG_OAUTH_HTTP_OK)) = false ->
  exists document, rs_body response = Some document /\
    from_network target http document (Ev (call_http_get target http) (error, response)).
Proof.
  intros Ha%http_answer Hb. prop_bools. subst. rewrite bool_decide_eq_true_2 in Ha by done.
  destruct Ha as [document Ha]. exists document. split; [done|]. by exists response.
Qed.

Lemma metadata_acquire_source now result tr a :
  exec (metadata_acquire policy cache url issuer now result) tr (inr a) ->
  exists document, aq_body a = Some document /\ metadata_source tr document.
Proof.
  unfold metadata_acquire, metadata_cached, metadata_uncached, metadata_refresh, metadata_wait.
  intros He. run; simpl.
  1,3: eexists; split; [reflexivity|].
  1,2: match goal with Hc : copied is_fresh ?r = true |- context [lk_payload ?r] =>
         eapply lookup_event in Hc as [Hev Hf]; [|eassumption..];
         apply bool_decide_eq_true in Hf; rewrite Hf in Hev end.
  1,2: eexists; split; [|left; exact Hev]; simpl; tauto.
  all: match goal with Ha : answer_ok (call_http_get _ _) _ |- _ =>
         apply get_event in Ha as (document & ? & ?); [|assumption] end.
  all: exists document; split; [assumption|]; eexists; split; [|right; eassumption].
  all: simpl; tauto.
Qed.

Lemma metadata_acquire_fails now result tr out :
  exec (metadata_acquire policy cache url issuer now result) tr (inl out) ->
  fst out <> PG_OAUTH_ISSUER_KEY_OK.
Proof.
  unfold metadata_acquire, metadata_cached, metadata_uncached, metadata_refresh, metadata_wait.
  intros He. by run.
Qed.

(** Going on from the metadata means that it was accepted. *)
Lemma metadata_use_ok now time a tr o :
  exec (metadata_use curl_getdate malloc policy cache url issuer now time a) tr o ->
  match o with
  | inl out => fst out <> PG_OAUTH_ISSUER_KEY_OK
  | inr (result, jwks_url, host) => exists metadata,
      pg_oauth_metadata_parse malloc (aq_body a) issuer (Some (ikp_metadata policy))
        (Some metadata_zero) = (PG_OAUTH_METADATA_OK, metadata) /\
      jwks_url = metadata ≫= jwks_uri /\
      pg_oauth_http_url_host malloc url (hp_max_url_size (ikp_metadata_http policy))
        (hp_allow_insecure_http (ikp_metadata_http policy)) = (PG_OAUTH_HTTP_OK, host)
  end.
Proof.
  unfold metadata_use. intros He.
  destruct (pg_oauth_metadata_parse _ _ _ _ _) as [e m] eqn:Em.
  destruct (pg_oauth_http_url_host _ _ _ _) as [e' h] eqn:Eh.
  destruct (negb (bool_decide (e = _))) eqn:Eb; [by run|]. prop_bools. subst.
  set (rest := if negb (bool_decide (e' = _)) then _ else _) in *.
  assert (match rest with
          | inl out => fst out <> PG_OAUTH_ISSUER_KEY_OK
          | inr (result, jwks_url, host) => jwks_url = m ≫= jwks_uri /\
              e' = PG_OAUTH_HTTP_OK /\ h = host
          end) as Hrest.
  { unfold rest. destruct (bool_decide_reflect (e' = PG_OAUTH_HTTP_OK)); simpl; [tauto|discriminate]. }
  assert (o = rest \/ exists out, o = inl out /\ fst out <> PG_OAUTH_ISSUER_KEY_OK)
    as [->|(out & -> & Ho)]; [| |exact Ho].
  { clearbody rest. destruct cache as [[cp capacity]|]; [|by destruct He as [_ ->]; left].
    destruct (bool_decide _); [|by destruct He as [_ ->]; left].
    apply exec_bind in He as (t1 & t2 & [] & -> & _ & [_ ->]); [by left|by right; eexists]. }
  destruct rest as [out|[[result jwks_url] host]]; [exact Hrest|].
  destruct Hrest as (-> & -> & ->). by exists m.
Qed.

Lemma select_key_ok document result :
  jwks_ok (select_key key_malloc policy document kid alg result) = true ->
  selects document (ik_selected (select_key key_malloc policy document kid alg result)).
Proof.
  unfold jwks_ok, select_key, selects. intros Hok. prop_bools. simpl in *.
  exists (ik_selected result).
  destruct (pg_oauth_jwks_select _ _ _ _ _ _) as [e s'] eqn:E. simpl in *. subst.
  unfold pg_oauth_jwks_select in E. by guards.
Qed.

Lemma stale_event jwks_url cp capacity key now r t1 t2 :
  cache = Some (cp, capacity) ->
  cache_key (key_policy_for PG_OAUTH_CACHE_RESOURCE_JWKS issuer url jwks_url (cp_key_policy cp)) =
    Some key ->
  copied is_hit r = true -> is_fresh (lk_freshness r) = false ->
  answer_ok (call_lookup key now (0 <? cp_jwks_stale_grace_ms cp) capacity) r ->
  Forall (fun e => successful_get e = false) t2 ->
  jwks_stale jwks_url
    (t1 ++ Ev (call_lookup key now (0 <? cp_jwks_stale_grace_ms cp) capacity) r :: t2)
    (lk_payload r).
Proof.
  intros Hc Hk Hr Hf Ha Ht. unfold jwks_stale, stale_allowed. rewrite Hc.
  destruct (lookup_event PG_OAUTH_CACHE_RESOURCE_JWKS jwks_url is_hit cp capacity key now
              (0 <? cp_jwks_stale_grace_ms cp) r Hc Hk Hr) as [Hev Hh].
  assert (lk_freshness r = PG_OAUTH_CACHE_STALE) as Hs.
  { unfold is_hit, is_fresh in *. prop_bools. by destruct (lk_freshness r). }
  specialize (Ha Hs). rewrite Hs in Hev. split; [by apply Z.ltb_lt|].
  eexists t1, _, t2. split; [done|]. split; [|done]. by rewrite Ha in *.
Qed.

Lemma fresh_event jwks_url cp capacity key now allow_stale r tr :
  cache = Some (cp, capacity) ->
  cache_key (key_policy_for PG_OAUTH_CACHE_RESOURCE_JWKS issuer url jwks_url (cp_key_policy cp)) =
    Some key ->
  copied is_hit r = true -> is_fresh (lk_freshness r) = true ->
  In (Ev (call_lookup key now allow_stale capacity) r) tr -> jwks_fresh jwks_url tr (lk_payload r).
Proof.
  intros Hc Hk Hr Hf Hin. eexists _, allow_stale. split; [exact Hin|].
  destruct (lookup_event PG_OAUTH_CACHE_RESOURCE_JWKS jwks_url is_hit cp capacity key now
              allow_stale r Hc Hk Hr) as [Hev _].
  apply bool_decide_eq_true in Hf. by rewrite Hf in Hev.
Qed.

Lemma jwks_fresh_cons jwks_url e tr document :
  jwks_fresh jwks_url tr document -> jwks_fresh jwks_url (e :: tr) document.
Proof. intros (e' & b & Hin & Hc). exists e', b. split; [by right|done]. Qed.

Lemma jwks_stale_cons jwks_url e tr document :
  jwks_stale jwks_url tr document -> jwks_stale jwks_url (e :: tr) document.
Proof. intros [Ha (t1 & e' & t2 & -> & ?)]. split; [done|]. by exists (e :: t1), e', t2. Qed.

Lemma jwks_wait_source cp capacity key jwks_url now elapsed result tr o :
  cache = Some (cp, capacity) ->
  cache_key (key_policy_for PG_OAUTH_CACHE_RESOURCE_JWKS issuer url jwks_url (cp_key_policy cp)) =
    Some key ->
  exec (jwks_wait key_malloc policy cp key capacity now elapsed kid alg result) tr o ->
  Forall (fun e => successful_get e = false) tr /\
  exists out, o = inl out /\ (fst out = PG_OAUTH_ISSUER_KEY_OK -> exists document,
    selects (Some document) (ik_selected (snd out)) /\
    (jwks_fresh jwks_url tr document \/ jwks_stale jwks_url tr document)).
Proof.
  unfold jwks_wait. intros Hc Hk He. run.
  all: split; [by repeat constructor|]; eexists; split; [reflexivity|]; simpl; intros Hok; try done.
  destruct (jwks_ok _) eqn:Ej; [|done]. exists (lk_payload r).
  split; [by apply select_key_ok|]. destruct (is_fresh (lk_freshness r)) eqn:Ef.
  - left. eapply fresh_event; try eassumption. by left.
  - right. by eapply (stale_event _ _ _ _ _ _ [] []).
Qed.

Lemma jwks_begin_source cp capacity key jwks_url now result stale tr o :
  cache = Some (cp, capacity) ->
  cache_key (key_policy_for PG_OAUTH_CACHE_RESOURCE_JWKS issuer url jwks_url (cp_key_policy cp)) =
    Some key ->
  exec (jwks_begin key_malloc policy cp key capacity now kid alg result stale) tr o ->
  Forall (fun e => successful_get e = false) tr /\
  match o with
  | inl out => fst out = PG_OAUTH_ISSUER_KEY_OK ->
      (stale = true /\ snd out = result) \/ exists document,
        selects (Some document) (ik_selected (snd out)) /\
        (jwks_fresh jwks_url tr document \/ jwks_stale jwks_url tr document)
  | inr f => tf_result f = result /\ tf_selected_from_stale f = stale
  end.
Proof.
  intros Hc Hk He. unfold jwks_begin in He. run_step. run_step. run_step; run.
  all: try (split; [by repeat constructor|]; simpl; try done; destruct stale; by auto).
  eapply jwks_wait_source in He as (Hf & out & -> & Ho); [|eassumption..].
  split; [by repeat constructor|]. intros Hok. destruct (Ho Hok) as (document & Hs & Hd).
  right. exists document. split; [done|].
  destruct Hd; [left; by do 2 apply jwks_fresh_cons|right; by do 2 apply jwks_stale_cons].
Qed.

Lemma jwks_acquire_source jwks_url now result tr o :
  exec (jwks_acquire key_malloc policy cache url issuer jwks_url kid alg now result) tr o ->
  match o with
  | inl out => fst out = PG_OAUTH_ISSUER_KEY_OK -> exists document,
      selects (Some document) (ik_selected (snd out)) /\
      (jwks_fresh jwks_url tr document \/ jwks_stale jwks_url tr document)
  | inr f => tf_selected_from_stale f = true -> exists document,
      selects (Some document) (ik_selected (tf_result f)) /\ jwks_stale jwks_url tr document
  end.
Proof.
  unfold jwks_acquire, jwks_cached. intros He.
  destruct cache as [[cp capacity]|] eqn:Hc; [|by run].
  destruct (cache_key _) as [key|] eqn:Hk; [|by run].
  run_step. destruct (copied is_hit r) eqn:Eh.
  - destruct (_ && is_fresh _) eqn:Ef; [run; intros _; prop_bools|].
    { exists (lk_payload r). split; [by apply select_key_ok|]. left.
      eapply fresh_event; try eassumption. by left. }
    destruct (negb _ && negb _) eqn:En; [by run|].
    eapply jwks_begin_source in He as [Hf Ho]; [|eassumption..].
    assert (jwks_ok (select_key key_malloc policy (Some (lk_payload r)) kid alg result) = true ->
            jwks_stale jwks_url (Ev (call_lookup key now (0 <? cp_jwks_stale_grace_ms cp)
                                       capacity) r :: t) (lk_payload r)) as Hst.
    { intros Hok. rewrite Hok in Ef. by eapply (stale_event _ _ _ _ _ _ []). }
    destruct o as [out|f].
    + intros [[Hok ->]|(document & ? & Hd)]%Ho.
      * exists (lk_payload r). split; [by apply select_key_ok|]. right. by apply Hst.
      * exists document. split; [done|].
        destruct Hd; [left; by apply jwks_fresh_cons|right; by apply jwks_stale_cons].
    + destruct Ho as [-> ->]. intros Hok. exists (lk_payload r).
      split; [by apply select_key_ok|]. by apply Hst.
  - eapply jwks_begin_source in He as [Hf Ho]; [|eassumption..]. destruct o as [out|f].
    + intros [[? _]|(document & ? & Hd)]%Ho; [done|]. exists document. split; [done|].
      destruct Hd; [left; by apply jwks_fresh_cons|right; by apply jwks_stale_cons].
    + destruct Ho as [_ ->]. done.
Qed.
Lemma jwks_fetch_source http jwks_url time f tr out :
  exec (jwks_fetch curl_getdate key_malloc policy cache http jwks_url kid alg time f) tr out ->
  fst out = PG_OAUTH_ISSUER_KEY_OK ->
  (exists document e, In e tr /\ from_network jwks_url http document e /\
     selects (Some document) (ik_selected (snd out))) \/
  (tf_selected_from_stale f = true /\ ik_selected (snd out) = ik_selected (tf_result f) /\
   Forall (fun e => successful_get e = false) tr).
Proof.
  unfold jwks_fetch, give_back. intros He Hok. run_step. run_step.
  destruct (negb (bool_decide (p = PG_OAUTH_HTTP_OK))) eqn:Ep.
  - right. prop_bools. assert (successful_get (Ev (call_http_get jwks_url http) (p, p0)) = false)
      by (simpl; by rewrite bool_decide_eq_false_2).
    destruct cache as [[cp capacity]|]; run; simpl in *;
      (destruct (tf_selected_from_stale f); [|done]); (split; [done|]); (split; [done|]).
    + by repeat constructor.
    + by repeat constructor.
  - left. apply get_event in Ha as (document & Hb & Hn); [|done]. rewrite Hb in He.
    exists document, (Ev (call_http_get jwks_url http) (p, p0)). split; [by left|]. split; [done|].
    destruct (negb (jwks_ok _)) eqn:Ej.
    { destruct cache as [[cp capacity]|]; run; done. }
    prop_bools. apply select_key_ok in Ej.
    destruct cache as [[cp capacity]|]; [|by run].
    by apply exec_bind in He as (t1 & t2 & b & -> & _ & [_ ->]).
Qed.

Lemma jwks_stale_extend jwks_url tr tr' document :
  jwks_stale jwks_url tr document -> Forall (fun e => successful_get e = false) tr' ->
  jwks_stale jwks_url (tr ++ tr') document.
Proof.
  intros [Ha (t1 & e & t2 & -> & Hc & Hf)] Ht. split; [done|]. exists t1, e, (t2 ++ tr').
  rewrite <- app_assoc. split; [done|]. split; [done|]. by apply Forall_app.
Qed.

Lemma jwks_source_prepend jwks_url host tr tr' document :
  jwks_source jwks_url host tr document -> jwks_source jwks_url host (tr' ++ tr) document.
Proof.
  intros [(e & Hin & Hn)|[Hf|Hs]].
  - left. exists e. split; [|done]. apply in_or_app. by right.
  - right; left. induction tr'; [done|]. by apply jwks_fresh_cons.
  - right; right. induction tr'; [done|]. by apply jwks_stale_cons.
Qed.

(** The two parts of the work that decide the key set. *)
Lemma jwks_phase_source jwks_url host now time result t1 t2 o out :
  exec (jwks_acquire key_malloc policy cache url issuer jwks_url kid alg now result) t1 o ->
  match o with
  | inl out' => t2 = [] /\ out = out'
  | inr f => exec (jwks_fetch curl_getdate key_malloc policy cache
                     (jwks_http_for host (ikp_jwks_http policy)) jwks_url kid alg time f) t2 out
  end ->
  fst out = PG_OAUTH_ISSUER_KEY_OK ->
  exists document, jwks_source jwks_url host (t1 ++ t2) document /\
    selects (Some document) (ik_selected (snd out)).
Proof.
  intros Ha Hr Hok. apply jwks_acquire_source in Ha. destruct o as [out'|f].
  - destruct Hr as [-> ->]. rewrite app_nil_r. destruct (Ha Hok) as (document & ? & ?).
    exists document. split; [by right|done].
  - apply jwks_fetch_source in Hr as [(document & e & Hin & Hn & Hs)|(Hst & Hsel & Hf)]; [| |done].
    + exists document. split; [|done]. left. exists e. split; [|done]. apply in_or_app. by right.
    + destruct (Ha Hst) as (document & Hs & Hd). exists document. rewrite Hsel. split; [|done].
      right; right. by apply jwks_stale_extend.
Qed.

(** How a run of [fetch_with] that succeeds came by its key. *)
Definition key_obtained (tr : list event) (selected : PgOAuthSelectedJwk) : Prop :=
  exists metadata uri host document,
    metadata_source tr metadata /\
    pg_oauth_metadata_parse malloc (Some metadata) issuer (Some (ikp_metadata policy))
      (Some metadata_zero) = (PG_OAUTH_METADATA_OK, Some {| jwks_uri := Some uri |}) /\
    pg_oauth_http_url_host malloc url (hp_max_url_size (ikp_metadata_http policy))
      (hp_allow_insecure_http (ikp_metadata_http policy)) = (PG_OAUTH_HTTP_OK, host) /\
    jwks_source (Some uri) host tr document /\ selects (Some document) selected.

Lemma fetch_with_source now time tr out :
  exec (fetch_with curl_getdate malloc key_malloc policy cache url issuer kid alg now time) tr out ->
  fst out = PG_OAUTH_ISSUER_KEY_OK -> key_obtained tr (ik_selected (snd out)).
Proof.
  unfold fetch_with, finish. intros (tr1 & tr2 & o & -> & He & Hr)%exec_bind Hok.
  assert (tr2 = [] /\ (o = inl out \/ o = inr out)) as [-> Ho]
    by (destruct o; destruct Hr as [-> ->]; auto).
  rewrite app_nil_r. clear Hr.
  apply exec_piece in He as [(x & He & ->)|(t1 & t2 & a & -> & H1 & He)].
  { apply metadata_acquire_fails in He. by destruct Ho as [[= ->]|]. }
  apply metadata_acquire_source in H1 as (metadata & Hb & e & Hin & Hsrc).
  apply exec_piece in He as [(x & He & ->)|(t3 & t4 & [[result jwks_url] host] & -> & H1 & He)].
  { apply metadata_use_ok in He. by destruct Ho as [[= ->]|]. }
  apply metadata_use_ok in H1 as (m & Hm & -> & Hh). rewrite Hb in Hm.
  destruct (metadata_parse_ok _ _ _ _ _ _ Hm) as (? & ? & md & _ & _ & -> & _ & _ & _ & _ & Hd).
  apply metadata_document_spec in Hd as (_ & uri & _ & _ & _ & _ & _ & _ & _ & ->).
  exists metadata, uri, host. cbn [mbind option_bind jwks_uri] in He.
  assert (exists t5 t6 o', t4 = t5 ++ t6 /\
    exec (jwks_acquire key_malloc policy cache url issuer (Some uri) kid alg (aq_cache_now_ms a)
            result) t5 o' /\
    match o' with
    | inl out' => t6 = [] /\ out = out'
    | inr f => exec (jwks_fetch curl_getdate key_malloc policy cache
                (jwks_http_for host (ikp_jwks_http policy)) (Some uri) kid alg time f) t6 out
    end) as (t5 & t6 & o' & -> & Ha & Hrest).
  { apply exec_piece in He as [(y & He & ->)|(t5 & t6 & f & -> & H1 & He)].
    - exists t4, [], (inl y). rewrite app_nil_r. split_and!; [done..|]. by destruct Ho as [[= ->]|].
    - apply exec_bind in He as (t7 & t8 & out' & -> & He & [-> ->]). rewrite app_nil_r.
      exists t5, t7, (inr f). split_and!; [done..|]. by destruct Ho as [|[= ->]]. }
  destruct (jwks_phase_source _ _ _ _ _ _ _ _ _ Ha Hrest Hok) as (document & Hj & Hs).
  exists document. split_and!; [|done|done| |done].
  - exists e. split; [|done]. apply in_or_app. by left.
  - by do 2 apply jwks_source_prepend.
Qed.
End Provenance.

(** ** Bounded work *)

Definition calls (p : event -> bool) (tr : list event) : nat := length (List.filter p tr).

Definition is_get (e : event) : bool :=
  match e with Ev (call_http_get _ _) _ => true | _ => false end.
Definition is_wait (e : event) : bool :=
  match e with Ev (call_wait_refresh _ _) _ => true | _ => false end.
Definition is_unknown_kid (e : event) : bool :=
  match e with Ev (call_begin_refresh _ _ unknown_kid _) _ => unknown_kid | _ => false end.

Lemma calls_app p tr1 tr2 : calls p (tr1 ++ tr2) = (calls p tr1 + calls p tr2)%nat.
Proof. unfold calls. by rewrite List.filter_app, length_app. Qed.

(** At most so many GETs, waits, refreshes for an unknown key, and calls. *)
Definition within (gets waits unknown total : nat) (tr : list event) : Prop :=
  (calls is_get tr <= gets /\ calls is_wait tr <= waits /\ calls is_unknown_kid tr <= unknown /\
   length tr <= total)%nat.

Lemma within_app g w u n g' w' u' n' tr tr' :
  within g w u n tr -> within g' w' u' n' tr' ->
  within (g + g') (w + w') (u + u') (n + n') (tr ++ tr').
Proof. unfold within. rewrite !calls_app, length_app. lia. Qed.

Lemma within_le g w u n g' w' u' n' tr :
  within g w u n tr -> (g <= g' /\ w <= w' /\ u <= u' /\ n <= n')%nat -> within g' w' u' n' tr.
Proof. unfold within. lia. Qed.

Section Bounded.
Context `{J : Jansson} `{S : OpenSsl} `{U : CurlUrl}.
Context (curl_getdate : bytes -> Z) (malloc : Z -> bool) (key_malloc : nat -> Z -> bool).
Context (policy : PgOAuthIssuerKeyPolicy) (cache : option (PgOAuthIssuerKeyCachePolicy * Z)).

Lemma metadata_acquire_within url issuer now result tr o :
  exec (metadata_acquire policy cache url issuer now result) tr o -> within 1 1 0 4 tr.
Proof.
  unfold metadata_acquire, metadata_cached, metadata_uncached, metadata_refresh, metadata_wait.
  intros He. run; unfold within, calls; simpl; lia.
Qed.

Lemma complete_response_within refresh now time fresh grace response tr b :
  exec (complete_response curl_getdate refresh now time fresh grace response) tr b ->
  within 0 0 0 1 tr.
Proof. unfold complete_response. intros He. run; unfold within, calls; simpl; lia. Qed.

Lemma metadata_use_within url issuer now time a tr o :
  exec (metadata_use curl_getdate malloc policy cache url issuer now time a) tr o ->
  within 0 0 0 1 tr.
Proof.
  unfold metadata_use. intros He. destruct (pg_oauth_metadata_parse _ _ _ _ _) as [e m].
  run; try (unfold within, calls; simpl; lia).
  apply exec_bind in He as (t1 & t2 & b & -> & H1 & H2).
  apply complete_response_within in H1. destruct b; destruct H2 as [-> _]; by rewrite app_nil_r.
Qed.

Lemma jwks_acquire_within url issuer jwks_url kid alg now result tr o :
  exec (jwks_acquire key_malloc policy cache url issuer jwks_url kid alg now result) tr o ->
  within 0 1 1 4 tr.
Proof.
  unfold jwks_acquire, jwks_cached, jwks_begin, jwks_wait. intros He.
  run; unfold within, calls; simpl; repeat case_bool_decide; simpl; lia.
Qed.

Lemma jwks_fetch_within http jwks_url kid alg time f tr out :
  exec (jwks_fetch curl_getdate key_malloc policy cache http jwks_url kid alg time f) tr out ->
  within 1 0 0 2 tr.
Proof.
  unfold jwks_fetch, give_back. intros He. run; try (unfold within, calls; simpl; lia).
  apply exec_bind in He as (t1 & t2 & b & -> & H1 & [-> _]).
  apply complete_response_within in H1. rewrite app_nil_r.
  match goal with |- within _ _ _ _ (?e :: _) => apply (within_app 1 0 0 1 0 0 0 1 [e]); [|done] end.
  unfold within, calls; simpl; lia.
Qed.

Lemma fetch_with_within url issuer kid alg now time tr out :
  exec (fetch_with curl_getdate malloc key_malloc policy cache url issuer kid alg now time) tr out ->
  within 2 2 1 11 tr.
Proof.
  unfold fetch_with, finish. intros (tr1 & tr2 & o & -> & He & Hr)%exec_bind.
  assert (tr2 = []) as -> by (destruct o; by destruct Hr as [-> _]). rewrite app_nil_r. clear Hr.
  apply exec_piece in He as [(x & He & ->)|(t1 & t2 & a & -> & H1 & He)].
  { apply metadata_acquire_within in He. eapply within_le; [exact He|lia]. }
  apply metadata_acquire_within in H1. apply (within_app 1 1 0 4 1 1 1 7); [done|]. clear H1.
  apply exec_piece in He as [(x & He & ->)|(t3 & t4 & [[result uri] host] & -> & H1 & He)].
  { apply metadata_use_within in He. eapply within_le; [exact He|lia]. }
  apply metadata_use_within in H1. apply (within_app 0 0 0 1 1 1 1 6); [done|]. clear H1.
  apply exec_piece in He as [(x & He & ->)|(t5 & t6 & f & -> & H1 & He)].
  { apply jwks_acquire_within in He. eapply within_le; [exact He|lia]. }
  apply jwks_acquire_within in H1. apply (within_app 0 1 1 4 1 0 0 2); [done|].
  apply exec_bind in He as (t7 & t8 & out' & -> & He & [-> _]). rewrite app_nil_r.
  by apply jwks_fetch_within in He.
Qed.
End Bounded.

(** ** Refreshes for an unknown key

    [kid_seen seen tr] follows a run with the keys of the cache entries it has
    read a document from; [None] if it claims a refresh for an unknown key of an
    entry it has not read from. *)

Definition kid_step (seen : list bytes) (e : event) : option (list bytes) :=
  match e with
  | Ev (call_lookup key _ _ _) lookup => Some (if copied is_hit lookup then key :: seen else seen)
  | Ev (call_begin_refresh key _ true _) _ => if decide (key ∈ seen) then Some seen else None
  | _ => Some seen
  end.

Fixpoint kid_seen (seen : list bytes) (tr : list event) : option (list bytes) :=
  match tr with
  | [] => Some seen
  | e :: tr => kid_step seen e ≫= fun seen => kid_seen seen tr
  end.

Lemma kid_seen_app seen tr1 tr2 :
  kid_seen seen (tr1 ++ tr2) = kid_seen seen tr1 ≫= fun seen => kid_seen seen tr2.
Proof.
  revert seen. induction tr1 as [|e tr1 IH]; intros seen; [done|]. simpl.
  destruct (kid_step seen e); simpl; [apply IH|done].
Qed.

Lemma kid_seen_none seen tr : calls is_unknown_kid tr = 0%nat -> is_Some (kid_seen seen tr).
Proof.
  revert seen. induction tr as [|e tr IH]; intros seen Hc; [by eexists|].
  change (e :: tr) with ([e] ++ tr) in Hc. rewrite calls_app in Hc.
  assert (is_Some (kid_step seen e)) as [s Hs].
  { destruct e as [[] r]; try (by eexists). unfold calls in Hc. simpl in *.
    destruct unknown_kid; [done|by eexists]. }
  simpl. rewrite Hs. simpl. apply IH. lia.
Qed.

Section UnknownKid.
Context `{J : Jansson} `{S : OpenSsl} `{U : CurlUrl}.
Context (curl_getdate : bytes -> Z) (malloc : Z -> bool) (key_malloc : nat -> Z -> bool).
Context (policy : PgOAuthIssuerKeyPolicy) (cache : option (PgOAuthIssuerKeyCachePolicy * Z)).

Lemma metadata_acquire_jwks_error url issuer now result tr a :
  exec (metadata_acquire policy cache url issuer now result) tr (inr a) ->
  ik_jwks_error (aq_result a) = ik_jwks_error result.
Proof.
  unfold metadata_acquire, metadata_cached, metadata_uncached, metadata_refresh, metadata_wait.
  intros He. by run.
Qed.

Lemma metadata_use_jwks_error url issuer now time a tr result jwks_url host :
  exec (metadata_use curl_getdate malloc policy cache url issuer now time a) tr
    (inr (result, jwks_url, host)) ->
  ik_jwks_error result = ik_jwks_error (aq_result a).
Proof.
  unfold metadata_use. intros He. destruct (pg_oauth_metadata_parse _ _ _ _ _) as [e m].
  destruct (pg_oauth_http_url_host _ _ _ _) as [e' h]. run; try done.
  all: try (by destruct (bool_decide (e' = _)); simplify_eq/=).
  apply exec_bind in He as (t1 & t2 & b & -> & _ & H2).
  destruct b; destruct H2 as [_ H2]; [|done]. by destruct (bool_decide (e' = _)); simplify_eq/=.
Qed.

Lemma jwks_acquire_kid url issuer jwks_url kid alg now result tr o seen :
  ik_jwks_error result = PG_OAUTH_JWKS_OK ->
  exec (jwks_acquire key_malloc policy cache url issuer jwks_url kid alg now result) tr o ->
  is_Some (kid_seen seen tr).
Proof.
  unfold jwks_acquire, jwks_cached, jwks_begin, jwks_wait. intros Hr He.
  run; simpl; rewrite ?Hr; try (by eexists).
  all: repeat match goal with Hc : copied is_hit ?r = _ |- context [copied is_hit ?r] =>
         rewrite Hc end.
  all: repeat case_bool_decide; simpl; try done; try (by eexists).
  all: rewrite decide_True by left; simpl; by eexists.
Qed.

Lemma fetch_with_kid url issuer kid alg now time tr out :
  exec (fetch_with curl_getdate malloc key_malloc policy cache url issuer kid alg now time) tr out ->
  is_Some (kid_seen [] tr).
Proof.
  unfold fetch_with, finish. intros (tr1 & tr2 & o & -> & He & Hr)%exec_bind.
  assert (tr2 = []) as -> by (destruct o; by destruct Hr as [-> _]). rewrite app_nil_r. clear Hr.
  apply exec_piece in He as [(x & He & ->)|(t1 & t2 & a & -> & H1 & He)].
  { apply metadata_acquire_within in He as (_ & _ & Hu & _). apply kid_seen_none. lia. }
  pose proof (metadata_acquire_jwks_error _ _ _ _ _ _ H1) as Hj.
  apply metadata_acquire_within in H1 as (_ & _ & Hu & _).
  rewrite kid_seen_app. destruct (kid_seen_none [] t1) as [s ->]; [lia|]. simpl.
  apply exec_piece in He as [(x & He & ->)|(t3 & t4 & [[result uri] host] & -> & H1 & He)].
  { apply metadata_use_within in He as (_ & _ & Hu' & _). apply kid_seen_none. lia. }
  pose proof (metadata_use_jwks_error _ _ _ _ _ _ _ _ _ H1) as Hj'.
  apply metadata_use_within in H1 as (_ & _ & Hu' & _).
  rewrite kid_seen_app. destruct (kid_seen_none s t3) as [s' ->]; [lia|].
  cbn [mbind option_bind].
  assert (ik_jwks_error result = PG_OAUTH_JWKS_OK) as Hok by (by rewrite Hj', Hj).
  apply exec_piece in He as [(x & He & ->)|(t5 & t6 & f & -> & H1 & He)].
  { by eapply jwks_acquire_kid. }
  rewrite kid_seen_app. eapply jwks_acquire_kid in H1 as [s'' ->]; [|done]. cbn [mbind option_bind].
  apply exec_bind in He as (t7 & t8 & out' & -> & He & [-> _]). rewrite app_nil_r.
  apply jwks_fetch_within in He as (_ & _ & Hu'' & _). apply kid_seen_none. lia.
Qed.
End UnknownKid.

(** ** Properties *)

Section Properties.
Context `{J : Jansson} `{S : OpenSsl} `{U : CurlUrl}.
Context (curl_getdate : bytes -> Z) (malloc : Z -> bool) (key_malloc : nat -> Z -> bool).

(** C6: where an accepted key comes from.  Whenever retrieval succeeds, the
    metadata was fresh in the cache entry of exactly this policy, issuer and
    discovery URL, or is the body of a successful GET of the discovery URL
    (metadata is never used stale); it names the expected issuer and the key set
    URL; and the selected key is what the key selection picks from a document
    that was fetched from that URL with the discovery host as the allowed host,
    or was fresh in the cache entry for that URL, or was stale there, in which
    case a stale grace is configured and no GET succeeded afterwards: a stale
    key never outlives a fresh document. *)
Theorem issuer_key_provenance url issuer kid alg policy cache_policy now time result tr out :
  exec (pg_oauth_issuer_key_fetch_cached curl_getdate malloc key_malloc url issuer kid alg policy
          cache_policy now time result) tr out ->
  fst out = PG_OAUTH_ISSUER_KEY_OK ->
  exists p cache r, policy = Some p /\ cache_setting malloc p cache_policy cache /\
    snd out = Some r /\
    key_obtained malloc key_malloc p cache url issuer kid alg tr (ik_selected r).
Proof.
  intros [[_ Hn]|(p & cache & o & Hp & _ & Hc & He & ->)]%fetch_cached_runs Hok; [done|].
  exists p, cache, (snd o). split_and!; [done..|]. by eapply fetch_with_source.
Qed.

(** C35: the work of one retrieval is bounded: at most two GETs (so at most one
    fetch of the key set), at most two waits for other backends, at most one
    refresh claimed for an unknown key, and at most eleven calls in all,
    whatever is answered. *)
Theorem issuer_key_bounded url issuer kid alg policy cache_policy now time result tr out :
  exec (pg_oauth_issuer_key_fetch_cached curl_getdate malloc key_malloc url issuer kid alg policy
          cache_policy now time result) tr out ->
  (calls is_get tr <= 2)%nat /\ (calls is_wait tr <= 2)%nat /\
  (calls is_unknown_kid tr <= 1)%nat /\ (length tr <= 11)%nat.
Proof.
  intros [[-> _]|(p & cache & o & _ & _ & _ & He & _)]%fetch_cached_runs.
  - unfold calls. simpl. lia.
  - exact (fetch_with_within _ _ _ _ _ _ _ _ _ _ _ _ _ He).
Qed.

(** A refresh is claimed as one for an unknown key only for a cache entry
    from which a document was read before in the same run.  Consequently the
    cooldown for unknown keys does not apply when the entry of the key set is
    missing or has expired: the refresh is then an ordinary one. *)
Theorem issuer_key_unknown_kid url issuer kid alg policy cache_policy now time result tr out :
  exec (pg_oauth_issuer_key_fetch_cached curl_getdate malloc key_malloc url issuer kid alg policy
          cache_policy now time result) tr out ->
  is_Some (kid_seen [] tr).
Proof.
  intros [[-> _]|(p & cache & o & _ & _ & _ & He & _)]%fetch_cached_runs; [by eexists|].
  exact (fetch_with_kid _ _ _ _ _ _ _ _ _ _ _ _ _ He).
Qed.
End Properties.

(** ** An example

    Every program has a run for every way of answering. *)

Fixpoint replay {A} (oracle : forall c, answer c) (p : prog A) : list event * A :=
  match p with
  | Ret a => ([], a)
  | Call c k =>
      let '(tr, a) := replay oracle (k (oracle c)) in (Ev c (oracle c) :: tr, a)
  end.

Lemma replay_exec `{CurlUrl} {A} (oracle : forall c, answer c) (p : prog A) :
  (forall c, answer_ok c (oracle c)) -> exec p (fst (replay oracle p)) (snd (replay oracle p)).
Proof.
  intros Ho. induction p as [a|c k IH]; simpl; [done|].
  specialize (IH (oracle c)). destruct (replay oracle (k (oracle c))) as [tr a].
  by exists (oracle c), tr.
Qed.

(** An empty cache, and [transfer url] as the transfer for each URL. *)
Definition network_oracle `{CurlUrl} (transfer : option bytes -> Transfer) (c : io_call) : answer c :=
  match c with
  | call_lookup _ _ _ _ =>
      {| lk_freshness := PG_OAUTH_CACHE_MISS; lk_copy_result := PG_OAUTH_CACHE_COPY_NOT_FOUND;
         lk_payload := [] |}
  | call_begin_refresh _ _ _ _ =>
      (PG_OAUTH_CACHE_REFRESH_STARTED, {| rf_entry_index := Some 0%nat; rf_serial := 1 |})
  | call_wait_refresh _ _ => (false, 0)
  | call_complete_refresh _ _ _ _ _ _ _ _ => true
  | call_http_get url policy =>
      match pg_oauth_http_get_json (fun _ => transfer url) url (Some policy)
              (Some response_zero) with
      | (error, response) => (error, default response_zero response)
      end
  end.

Lemma network_oracle_ok `{CurlUrl} transfer c : answer_ok c (network_oracle transfer c).
Proof.
  destruct c; try done. cbn [answer_ok network_oracle]. exists (fun _ => transfer url).
  pose proof (http_get_outcome (fun _ => transfer url) url (Some policy) response_zero) as Ho.
  destruct (pg_oauth_http_get_json _ _ _ _) as [e r].
  destruct e; simpl; try (by rewrite Ho). by destruct Ho as (r' & -> & _).
Qed.

Module IssuerKeyExample.
Definition issuer : bytes := B "https://idp.example".
Definition metadata_url : bytes := B "https://idp.example/.well-known/openid-configuration".
Definition jwks_url : bytes := B "https://idp.example/keys".
Definition metadata_document : bytes :=
  json_text "{'issuer':'https://idp.example','jwks_uri':'https://idp.example/keys'}".

#[export] Instance lib : Jansson :=
  reference_jansson
    [(metadata_document, JObject [(B "issuer", JString issuer); (B "jwks_uri", JString jwks_url)]);
     (JwksExample.document, JwksExample.key_set_value)].
#[export] Instance ssl : OpenSsl := reference_openssl.
#[export] Instance curl : CurlUrl := {|
  CURLU := bytes; curl_url := true; curl_url_set := Some;
  curl_url_get := fun u part =>
    match part with
    | CURLUPART_HOST => Some (span_authority (drop 8 u))
    | _ => None
    end
|}.

Definition transfer_of (body : bytes) : Transfer :=
  {| tr_easy_init := true; tr_async_dns := Some true; tr_version_num := 525824;
     tr_slist_append := true; tr_setopt := fun _ => true; tr_multi_init := true;
     tr_add_handle := true;
     tr_rounds := last_round {| rd_cancel := false; rd_perform_ok := true; rd_poll_ok := true;
                                rd_chunks := [body_chunk body] |};
     tr_cancel_after := false; tr_message := Some CURLE_OK; tr_status := Some 200;
     tr_content_type := Some (Some (B "application/json")); tr_realloc := fun _ => true |}.

Definition network (url : option bytes) : Transfer :=
  transfer_of (if bool_decide (url = Some jwks_url) then JwksExample.document
               else metadata_document).

Definition http_policy : PgOAuthHttpPolicy :=
  {| hp_max_url_size := 2048; hp_max_response_size := 65536; hp_connect_timeout_ms := 2000;
     hp_total_timeout_ms := 5000; hp_allowed_host := Some (B "idp.example");
     hp_additional_allowed_hosts := None; hp_ca_file := None;
     hp_allow_insecure_http := false; hp_cancel_requested := true |}.

Definition policy : PgOAuthIssuerKeyPolicy :=
  {| ikp_metadata_http := http_policy;
     ikp_metadata := {| mp_max_document_size := 65536; mp_max_url_size := 2048;
                        mp_allow_insecure_http := false |};
     ikp_jwks_http := http_policy; ikp_jwks := JwksExample.policy |}.

Definition key_policy : PgOAuthCacheKeyPolicy :=
  {| ck_resource := 0; ck_issuer := None; ck_metadata_url := None; ck_jwks_url := None;
     ck_policy_name := Some (B "default"); ck_required_scopes := Some (B "db");
     ck_audiences := Some (B "pg"); ck_allowed_token_types := 3;
     ck_allow_missing_token_type := false; ck_identity_claim := Some (B "sub");
     ck_role_claim := Some []; ck_allowed_jwks_hosts := Some []; ck_ca_file := Some [];
     ck_allowed_algorithms := 7; ck_clock_skew_ms := 60000; ck_max_token_size := 16384;
     ck_max_metadata_size := 65536; ck_max_jwks_size := 65536; ck_max_jwks_keys := 16;
     ck_minimum_rsa_bits := 2048; ck_maximum_rsa_bits := 8192; ck_jwks_stale_grace_ms := 0;
     ck_metadata_default_ttl_ms := 300000; ck_jwks_default_ttl_ms := 300000;
     ck_cache_max_ttl_ms := 3600000; ck_unknown_kid_refresh_cooldown_ms := 30000;
     ck_allow_insecure_http := false |}.

Definition freshness : PgOAuthHttpFreshnessPolicy :=
  {| fp_default_ttl_ms := 300000; fp_maximum_ttl_ms := 3600000 |}.

Definition cache_policy : PgOAuthIssuerKeyCachePolicy :=
  {| cp_io := Some {| io_lookup := true; io_begin_refresh := true; io_wait_refresh := true;
                      io_complete_refresh := true |};
     cp_key_policy := key_policy; cp_metadata_freshness := freshness;
     cp_jwks_freshness := freshness; cp_jwks_stale_grace_ms := 0;
     cp_unknown_kid_refresh_cooldown_ms := 30000; cp_refresh_wait_timeout_ms := 5000 |}.

(** Retrieval of the key [kid]; 2 is ES256. *)
Definition fetch (kid : bytes) (now : Z)
  : prog (PgOAuthIssuerKeyError * option PgOAuthIssuerKeyResult) :=
  pg_oauth_issuer_key_fetch_cached (fun _ => -1) (fun _ => true) plenty (Some metadata_url)
    (Some issuer) (Some kid) 2 (Some policy) (Some cache_policy) now 1700000000
    (Some issuer_key_result_zero).

Definition outcome_of (kid : bytes) := replay (network_oracle network) (fetch kid 1000).

Lemma example_fetch_exec kid :
  exec (fetch kid 1000) (fst (outcome_of kid)) (snd (outcome_of kid)).
Proof.
  exact (replay_exec (network_oracle network) (fetch kid 1000) (network_oracle_ok network)).
Qed.

Lemma example_fetch_ok : fst (snd (outcome_of (B "k1"))) = PG_OAUTH_ISSUER_KEY_OK.
Proof. vm_compute. reflexivity. Qed.

Lemma issuer_key_refresh_discipline_witness :
  own None (fst (outcome_of (B "k1"))) = Some None /\
  (length (fst (outcome_of (B "k1"))) = 8)%nat.
Proof.
  split; [|vm_compute; reflexivity].
  exact (issuer_key_refresh_discipline (fun _ => -1) (fun _ => true) plenty _ _ _ _ _ _ _ _ _ _ _
           (example_fetch_exec (B "k1"))).
Defined.

Lemma issuer_key_provenance_witness :
  exists p cache r, Some policy = Some p /\
    cache_setting (fun _ => true) p (Some cache_policy) cache /\
    snd (snd (outcome_of (B "k1"))) = Some r /\
    key_obtained (fun _ => true) plenty p cache (Some metadata_url) (Some issuer) (Some (B "k1")) 2
      (fst (outcome_of (B "k1"))) (ik_selected r).
Proof.
  exact (issuer_key_provenance (fun _ => -1) (fun _ => true) plenty _ _ _ _ _ _ _ _ _ _ _
           (example_fetch_exec (B "k1")) example_fetch_ok).
Defined.

Lemma issuer_key_bounded_witness :
  (calls is_get (fst (outcome_of (B "nope"))) <= 2)%nat /\
  (length (fst (outcome_of (B "nope"))) <= 11)%nat.
Proof.
  destruct (issuer_key_bounded (fun _ => -1) (fun _ => true) plenty _ _ _ _ _ _ _ _ _ _ _
              (example_fetch_exec (B "nope"))) as (H1 & _ & _ & H2).
  exact (conj H1 H2).
Defined.

Lemma issuer_key_unknown_kid_witness : is_Some (kid_seen [] (fst (outcome_of (B "nope")))).
Proof.
  exact (issuer_key_unknown_kid (fun _ => -1) (fun _ => true) plenty _ _ _ _ _ _ _ _ _ _ _
           (example_fetch_exec (B "nope"))).
Defined.
End IssuerKeyExample.
