(* ===== verification/SharedCache.v ===== *)
(** * The shared cache (src/shared_cache.c, src/shared_cache.h)

    The cache of [CacheState] in a named segment of shared memory, used by all
    backends under one lock.  PostgreSQL's segment registry is a parameter
    ([NamedDsm]); the lock makes each operation one atomic step on the segment,
    and the condition variable only decides when a waiter looks again. *)

From S2P Require Import Prelude CacheState Transport IssuerKey.

(** ** Data *)

Definition PG_OAUTH_SHARED_CACHE_MAGIC : Z := 1346850627.
Definition PG_OAUTH_SHARED_CACHE_VERSION : Z := 3.

(** The segment; its lock, tranche and condition variable belong to
    PostgreSQL. *)
Record PgOAuthSharedCacheState := {
  ss_magic : Z;
  ss_version : Z;
  ss_capacity : Z;
  ss_control : PgOAuthCacheControl;
  ss_entries : list PgOAuthCacheEntry
}.

Record PgOAuthSharedCacheLookup := {
  sl_freshness : PgOAuthCacheLookup;
  sl_copy_result : PgOAuthCacheCopyResult;
  sl_payload_length : Z;
  sl_output : bytes
}.

(** One backend and the segment it may share: [shared_state] is non-NULL when
    [sv_attached], and is then the named segment. *)
Record shared_env := {
  sv_segment : option PgOAuthSharedCacheState;
  sv_attached : bool;
  sv_configured_capacity : Z
}.

(** What the code asks of PostgreSQL and the compiler: [GetNamedDSMSegment] for
    the existing segment (if any), the size and the initialiser, and the sizes of
    the two structures.  The manual: an existing segment is returned as it is, a
    new one after the initialiser has run.  [None] stands for the ERROR PostgreSQL
    raises when there is no memory or the existing segment has another size; it
    ends the authentication, and the model reports the failure to attach in its
    place. *)
Class NamedDsm := {
  sizeof_header : Z;
  sizeof_entry : Z;
  GetNamedDSMSegment : option PgOAuthSharedCacheState -> Z ->
    (PgOAuthSharedCacheState -> PgOAuthSharedCacheState) -> option PgOAuthSharedCacheState;
  sizes_small : 0 < sizeof_header < 2 ^ 32 /\ 0 < sizeof_entry < 2 ^ 32;
  dsm_existing : forall s size init s',
    GetNamedDSMSegment (Some s) size init = Some s' -> s' = s;
  dsm_new : forall size init s',
    GetNamedDSMSegment None size init = Some s' -> exists memory, s' = init memory
}.

(** ** Definitions *)

Section SharedCache.
Context `{NamedDsm}.

Definition shared_cache_size (capacity : Z) : option Z :=
  if (capacity <? 8) || (256 <? capacity) ||
     ((SIZE_MAX - sizeof_header) / sizeof_entry <? u64 capacity)
  then None
  else Some (u64 (sizeof_header + u64 (u64 capacity * sizeof_entry))).

Definition initialize_shared_cache (configured_capacity : Z) (memory : PgOAuthSharedCacheState)
  : PgOAuthSharedCacheState :=
  match shared_cache_size configured_capacity with
  | None => memory
  | Some _ =>
      {| ss_magic := PG_OAUTH_SHARED_CACHE_MAGIC; ss_version := PG_OAUTH_SHARED_CACHE_VERSION;
         ss_capacity := u32 configured_capacity;
         ss_control := {| cc_next_refresh_serial := 1; cc_stats := stats_zero |};
         ss_entries := replicate (Z.to_nat (u32 configured_capacity)) entry_zero |}
  end.

Definition capacity_agrees (e : shared_env) : bool :=
  match sv_segment e with
  | Some s => ss_capacity s =? u32 (sv_configured_capacity e)
  | None => false
  end.

Definition pg_oauth_shared_cache_configure_capacity (capacity : Z) (e : shared_env)
  : bool * shared_env :=
  match shared_cache_size capacity with
  | None => (false, e)
  | Some _ =>
      let e := {| sv_segment := sv_segment e; sv_attached := sv_attached e;
                  sv_configured_capacity := capacity |} in
      (negb (sv_attached e) || capacity_agrees e, e)
  end.

(** [cache_view] is the view of the segment's entries and control block. *)
Definition pg_oauth_shared_cache_attach (e : shared_env) : bool * shared_env :=
  if sv_attached e then (capacity_agrees e, e)
  else match shared_cache_size (sv_configured_capacity e) with
  | None => (false, e)
  | Some segment_size =>
      match GetNamedDSMSegment (sv_segment e) segment_size
              (initialize_shared_cache (sv_configured_capacity e)) with
      | None => (false, e)
      | Some s =>
          let env attached :=
            {| sv_segment := Some s; sv_attached := attached;
               sv_configured_capacity := sv_configured_capacity e |} in
          if negb (ss_magic s =? PG_OAUTH_SHARED_CACHE_MAGIC) ||
             negb (ss_version s =? PG_OAUTH_SHARED_CACHE_VERSION) ||
             negb (ss_capacity s =? u32 (sv_configured_capacity e))
          then (false, env false)
          else match pg_oauth_cache_attach (Some (ss_entries s)) (Some (ss_control s)) with
               | None => (false, env false)
               | Some _ => (true, env true)
               end
      end
  end.

Definition cache_view (s : PgOAuthSharedCacheState) : PgOAuthCache :=
  {| ca_entries := ss_entries s; ca_control := ss_control s |}.

Definition store_view (c : PgOAuthCache) (s : PgOAuthSharedCacheState)
  : PgOAuthSharedCacheState :=
  {| ss_magic := ss_magic s; ss_version := ss_version s; ss_capacity := ss_capacity s;
     ss_control := ca_control c; ss_entries := ca_entries c |}.

(** What [op], run under the lock, leaves in the segment. *)
Definition locked {R} (op : option PgOAuthCache -> R * option PgOAuthCache) (failed : R)
  (e : shared_env) : R * shared_env :=
  match sv_segment e with
  | None => (failed, e)
  | Some s =>
      let '(r, c) := op (Some (cache_view s)) in
      (r, {| sv_segment := Some (store_view (default (cache_view s) c) s);
             sv_attached := sv_attached e; sv_configured_capacity := sv_configured_capacity e |})
  end.

Definition lookup_none : PgOAuthSharedCacheLookup :=
  {| sl_freshness := PG_OAUTH_CACHE_MISS; sl_copy_result := PG_OAUTH_CACHE_COPY_NOT_FOUND;
     sl_payload_length := 0; sl_output := [] |}.

(** The lookup and the copy, in one section of the lock. *)
Definition lookup_and_copy (key : option bytes) (now_ms : Z) (allow_stale : bool)
  (output_size : option Z) (cache : option PgOAuthCache)
  : PgOAuthSharedCacheLookup * option PgOAuthCache :=
  let '(freshness, entry_index, cache) := pg_oauth_cache_lookup cache key now_ms allow_stale in
  if bool_decide (freshness = PG_OAUTH_CACHE_MISS) then (lookup_none, cache)
  else
    let '(copy_result, payload_length, output) :=
      pg_oauth_cache_copy_payload cache entry_index output_size in
    ({| sl_freshness := freshness; sl_copy_result := copy_result;
        sl_payload_length := payload_length; sl_output := default [] output |}, cache).

Definition pg_oauth_shared_cache_lookup (key : option bytes) (now_ms : Z) (allow_stale : bool)
  (output_size : option Z) (e : shared_env) : PgOAuthSharedCacheLookup * shared_env :=
  let '(attached, e) := pg_oauth_shared_cache_attach e in
  if negb attached then (lookup_none, e)
  else locked (lookup_and_copy key now_ms allow_stale output_size) lookup_none e.

Definition pg_oauth_shared_cache_begin_refresh (key : option bytes) (now_ms : Z)
  (unknown_kid : bool) (unknown_kid_cooldown_ms : Z) (e : shared_env)
  : PgOAuthCacheRefreshResult * PgOAuthCacheRefresh * shared_env :=
  let '(attached, e) := pg_oauth_shared_cache_attach e in
  if negb attached then (PG_OAUTH_CACHE_REFRESH_INVALID_ARGUMENT, refresh_none, e)
  else locked (fun cache => pg_oauth_cache_begin_refresh cache key now_ms unknown_kid
                              unknown_kid_cooldown_ms)
         (PG_OAUTH_CACHE_REFRESH_INVALID_ARGUMENT, refresh_none) e.

(** The second component tells whether waiters are woken. *)
Definition pg_oauth_shared_cache_complete_refresh (refresh : option PgOAuthCacheRefresh)
  (now_ms : Z) (success cacheable revalidation_required : bool) (ttl_ms stale_grace_ms : Z)
  (payload : option bytes) (e : shared_env) : bool * bool * shared_env :=
  let '(attached, e) := pg_oauth_shared_cache_attach e in
  if negb attached then (false, false, e)
  else
    let '(result, e) :=
      locked (fun cache => pg_oauth_cache_complete_refresh cache refresh now_ms success cacheable
                             revalidation_required ttl_ms stale_grace_ms payload) false e in
    (result, result, e).

Definition is_refreshing_in (key : option bytes) (e : shared_env) : bool :=
  pg_oauth_cache_is_refreshing (cache_view <$> sv_segment e) key.

(** [sleep] is what happens to the segment while the backend sleeps on the
    condition variable.  The result is the answer, [elapsed_ms] and the
    segment seen last. *)
Definition pg_oauth_shared_cache_wait_refresh (key : option bytes) (timeout_ms : Z)
  (sleep : shared_env -> shared_env) (e : shared_env) : bool * Z * shared_env :=
  let '(attached, e) := pg_oauth_shared_cache_attach e in
  if negb attached || negb (valid_key key) || (timeout_ms <=? 0) || (5000 <? timeout_ms)
  then (false, 0, e)
  else if negb (is_refreshing_in key e) then (true, 0, e)
  else
    let e := sleep e in
    (negb (is_refreshing_in key e), timeout_ms, e).

Definition pg_oauth_shared_cache_stats (e : shared_env) : option PgOAuthCacheStats * shared_env :=
  let '(attached, e) := pg_oauth_shared_cache_attach e in
  if negb attached then (None, e)
  else (cc_stats ∘ ss_control <$> sv_segment e, e).

(** The callbacks handed to the retrieval. *)
Definition shared_io_lookup (key : bytes) (now_ms : Z) (allow_stale : bool) (output_size : Z)
  (e : shared_env) : PgOAuthCacheIoLookup * shared_env :=
  let '(value, e) :=
    pg_oauth_shared_cache_lookup (Some key) now_ms allow_stale (Some output_size) e in
  ({| lk_freshness := sl_freshness value; lk_copy_result := sl_copy_result value;
      lk_payload := sl_output value |}, e).

Definition shared_io_begin (key : bytes) (now_ms : Z) (unknown_kid : bool) (cooldown_ms : Z)
  (e : shared_env) : PgOAuthCacheRefreshResult * PgOAuthCacheRefresh * shared_env :=
  pg_oauth_shared_cache_begin_refresh (Some key) now_ms unknown_kid cooldown_ms e.

Definition shared_io_complete (refresh : PgOAuthCacheRefresh) (now_ms : Z)
  (success cacheable revalidation_required : bool) (ttl_ms stale_grace_ms : Z)
  (payload : option bytes) (e : shared_env) : bool * shared_env :=
  let '(result, _, e) :=
    pg_oauth_shared_cache_complete_refresh (Some refresh) now_ms success cacheable
      revalidation_required ttl_ms stale_grace_ms payload e in
  (result, e).

Definition shared_io_wait (key : bytes) (timeout_ms : Z) (sleep : shared_env -> shared_env)
  (e : shared_env) : bool * Z * shared_env :=
  pg_oauth_shared_cache_wait_refresh (Some key) timeout_ms sleep e.

Definition pg_oauth_shared_cache_io (io : option PgOAuthCacheIo) (e : shared_env)
  : bool * option PgOAuthCacheIo * shared_env :=
  match io with
  | None => (false, None, e)
  | Some _ =>
      let '(attached, e) := pg_oauth_shared_cache_attach e in
      if negb attached then (false, io, e)
      else (true, Some {| io_lookup := true; io_begin_refresh := true; io_wait_refresh := true;
                          io_complete_refresh := true |}, e)
  end.
End SharedCache.

(** ** Invariant *)

Record shared_ok (s : PgOAuthSharedCacheState) : Prop := {
  so_magic : ss_magic s = PG_OAUTH_SHARED_CACHE_MAGIC;
  so_version : ss_version s = PG_OAUTH_SHARED_CACHE_VERSION;
  so_capacity : 8 <= ss_capacity s <= 256;
  so_entries : zlen (ss_entries s) = ss_capacity s;
  so_cache : cache_inv (cache_view s)
}.

(** The backend is attached to [s] with the capacity it is configured for. *)
Definition attached_to (e : shared_env) (s : PgOAuthSharedCacheState) : Prop :=
  sv_segment e = Some s /\ sv_attached e = true /\ capacity_agrees e = true /\ shared_ok s.

Section Attach.
Context `{D : NamedDsm}.

Lemma shared_cache_size_bounds capacity size :
  shared_cache_size capacity = Some size -> 8 <= capacity <= 256.
Proof. unfold shared_cache_size. case_match; [done|]. intros _. prop_bools. lia. Qed.

Lemma shared_cache_size_some capacity :
  8 <= capacity <= 256 -> is_Some (shared_cache_size capacity).
Proof.
  intros Hb. unfold shared_cache_size. replace (capacity <? 8) with false by lia.
  replace (256 <? capacity) with false by lia. rewrite (u64_id capacity) by (unfold UINT64_MAX; lia).
  destruct sizes_small as [Hh He].
  assert (2 ^ 31 <= (SIZE_MAX - sizeof_header) / sizeof_entry) as Hd.
  { unfold SIZE_MAX. apply Z.div_le_lower_bound; [lia|]. nia. }
  destruct (Z.ltb_spec ((SIZE_MAX - sizeof_header) / sizeof_entry) capacity); [lia|by eexists].
Qed.

Lemma initialize_ok capacity memory size :
  shared_cache_size capacity = Some size ->
  let s := initialize_shared_cache capacity memory in
  shared_ok s /\ contents (cache_view s) = ∅ /\ ss_capacity s = capacity.
Proof.
  intros Hs. pose proof (shared_cache_size_bounds _ _ Hs) as Hb.
  unfold initialize_shared_cache. rewrite Hs. cbv zeta.
  assert (u32 capacity = capacity) as -> by (unfold u32; apply Z.mod_small; lia).
  destruct (init_ok (replicate (Z.to_nat capacity) entry_zero)) as (c & Hc & Hinv & Hcon & _).
  { intros E%(f_equal length). rewrite length_replicate in E. simpl in E. lia. }
  unfold pg_oauth_cache_init in Hc. rewrite length_replicate in Hc.
  case_match; [done|]. injection Hc as <-. split; [|done].
  split; simpl; try done. unfold zlen. rewrite length_replicate. lia.
Qed.

(** Attaching to a sound segment, or to none. *)
Lemma attach_ok e ok e' :
  (forall s, sv_segment e = Some s -> shared_ok s) ->
  pg_oauth_shared_cache_attach e = (ok, e') ->
  (forall s, sv_segment e = Some s -> sv_segment e' = Some s) /\
  (sv_segment e = None -> forall s, sv_segment e' = Some s -> contents (cache_view s) = ∅) /\
  (forall s, sv_segment e' = Some s -> shared_ok s) /\
  (ok = true -> exists s, attached_to e' s) /\
  sv_configured_capacity e' = sv_configured_capacity e.
Proof.
  intros Hok. unfold pg_oauth_shared_cache_attach. destruct (sv_attached e) eqn:Ea.
  { intros [= <- <-]. split_and!; [by auto|congruence|by auto| |done]. intros Hc. unfold capacity_agrees in *.
    destruct (sv_segment e) as [s|] eqn:Es; [|done]. exists s.
    split_and!; auto. unfold capacity_agrees. by rewrite Es. }
  destruct (shared_cache_size _) as [size|] eqn:Ez; [|intros [= <- <-]; split_and!; by auto || congruence].
  destruct (GetNamedDSMSegment _ _ _) as [s|] eqn:Eg; [|intros [= <- <-]; split_and!; by auto || congruence].
  assert (shared_ok s /\ (forall s0, sv_segment e = Some s0 -> s = s0) /\
          (sv_segment e = None -> contents (cache_view s) = ∅)) as (Hs & Hsame & Hnew).
  { destruct (sv_segment e) as [s0|] eqn:Es.
    - apply dsm_existing in Eg as ->. split_and!; [by apply Hok|by intros ? [= ->]|done].
    - apply dsm_new in Eg as [memory ->].
      destruct (initialize_ok _ memory _ Ez) as (? & ? & _). by split_and!. }
  assert (exists v, pg_oauth_cache_attach (Some (ss_entries s)) (Some (ss_control s)) = Some v)
    as [v Hv].
  { destruct Hs as [_ _ Hcap Hlen [_ _ Hser]]. unfold pg_oauth_cache_attach.
    rewrite Hlen. replace (ss_capacity s =? 0) with false by lia. simpl in Hser |- *.
    destruct (Z.eqb_spec (cc_next_refresh_serial (ss_control s)) 0); [lia|eauto]. }
  rewrite Hv. case_match eqn:Eb; intros [= <- <-]; simpl.
  - split_and!; [by intros ? ->%Hsame|by intros ? ? [= <-]; auto|by intros ? [= <-]|done|done].
  - prop_bools.
    split_and!; [by intros ? ->%Hsame|by intros ? ? [= <-]; auto|by intros ? [= <-]| |done].
    intros _. exists s. by split_and!.
Qed.

Lemma attach_attached e s : attached_to e s -> pg_oauth_shared_cache_attach e = (true, e).
Proof.
  intros (_ & Ha & Hc & _). unfold pg_oauth_shared_cache_attach. by rewrite Ha, Hc.
Qed.

(** What a backend that could configure and attach knows of a segment that was
    there before. *)
Lemma configured_segment capacity e e1 e2 :
  pg_oauth_shared_cache_configure_capacity capacity e = (true, e1) ->
  pg_oauth_shared_cache_attach e1 = (true, e2) ->
  8 <= capacity <= 256 /\
  forall s, sv_segment e = Some s -> ss_capacity s = capacity /\
    (sv_attached e = false ->
       ss_magic s = PG_OAUTH_SHARED_CACHE_MAGIC /\ ss_version s = PG_OAUTH_SHARED_CACHE_VERSION).
Proof.
  unfold pg_oauth_shared_cache_configure_capacity.
  destruct (shared_cache_size capacity) as [size|] eqn:Ez; [|done].
  pose proof (shared_cache_size_bounds _ _ Ez) as Hb.
  assert (u32 capacity = capacity) as Hu by (unfold u32; apply Z.mod_small; lia).
  intros Hcfg Hatt. split; [done|]. intros s Hs.
  unfold capacity_agrees in Hcfg. cbn [sv_segment sv_attached sv_configured_capacity] in Hcfg.
  rewrite Hs, Hu in Hcfg. destruct (sv_attached e) eqn:Ea.
  { cbn [negb orb] in Hcfg. injection Hcfg as Hc _. apply Z.eqb_eq in Hc. done. }
  injection Hcfg as <-. unfold pg_oauth_shared_cache_attach in Hatt.
  cbn [sv_segment sv_attached sv_configured_capacity] in Hatt. rewrite Ez, Hu in Hatt.
  destruct (GetNamedDSMSegment _ _ _) as [s'|] eqn:Eg; [|done].
  apply dsm_existing in Eg as ->. cbv zeta in Hatt.
  destruct (_ || _) eqn:Eb; [done|]. prop_bools. rewrite Z.eqb_eq in *. done.
Qed.

(** A backend configures and attaches where there is memory, the capacity is
    admissible and the segment, if there is one, is sound and has it. *)
Lemma configure_attach capacity e :
  8 <= capacity <= 256 ->
  (forall s, sv_segment e = Some s -> shared_ok s /\ ss_capacity s = capacity) ->
  (forall size init, is_Some (GetNamedDSMSegment (sv_segment e) size init)) ->
  (sv_attached e = true -> is_Some (sv_segment e)) ->
  exists e1 e2, pg_oauth_shared_cache_configure_capacity capacity e = (true, e1) /\
    pg_oauth_shared_cache_attach e1 = (true, e2).
Proof.
  intros Hb Hs Hd Ha. destruct (shared_cache_size_some _ Hb) as [size Hz].
  assert (u32 capacity = capacity) as Hu by (unfold u32; apply Z.mod_small; lia).
  unfold pg_oauth_shared_cache_configure_capacity. rewrite Hz.
  set (e1 := {| sv_segment := _; sv_attached := _; sv_configured_capacity := _ |}). exists e1.
  destruct (sv_attached e) eqn:Ea.
  { destruct (Ha eq_refl) as [s Es]. destruct (Hs s Es) as [_ Hc].
    assert (capacity_agrees e1 = true) as Hag.
    { unfold capacity_agrees, e1. simpl. rewrite Es, Hu. by apply Z.eqb_eq. }
    exists e1. rewrite Hag, orb_true_r. split; [done|].
    unfold pg_oauth_shared_cache_attach. by rewrite Hag. }
  destruct (Hd size (initialize_shared_cache capacity)) as [s Eg].
  assert (shared_ok s /\ ss_capacity s = capacity) as [Hok Hc].
  { destruct (sv_segment e) as [s0|] eqn:Es.
    - apply dsm_existing in Eg as ->. by apply Hs.
    - apply dsm_new in Eg as [memory ->]. destruct (initialize_ok _ memory _ Hz) as (? & _ & ?). done. }
  eexists. split; [done|]. unfold pg_oauth_shared_cache_attach, e1.
  cbn [sv_segment sv_attached sv_configured_capacity]. rewrite Hz, Eg, Hu, Hc. cbv zeta.
  destruct Hok as [-> -> Hcap Hlen [_ _ Hser]]. rewrite !Z.eqb_refl. cbn [negb orb].
  unfold pg_oauth_cache_attach. rewrite Hlen.
  replace (ss_capacity s =? 0) with false by lia. simpl in Hser |- *.
  destruct (Z.eqb_spec (cc_next_refresh_serial (ss_control s)) 0); [lia|done].
Qed.

(** C15: attaching is safe.  A backend that attaches to the named segment never
    re-initialises one that exists: its contents stay as they are, and a new
    segment starts empty.  The segment is sound afterwards (magic, version,
    capacity between 8 and 256, the cache invariant), and the attachment
    succeeds only with exactly the configured capacity. *)
Theorem shared_cache_attach_safe e ok e' :
  (forall s, sv_segment e = Some s -> shared_ok s) ->
  pg_oauth_shared_cache_attach e = (ok, e') ->
  (forall s, sv_segment e = Some s -> sv_segment e' = Some s) /\
  (sv_segment e = None -> forall s, sv_segment e' = Some s -> contents (cache_view s) = ∅) /\
  (forall s, sv_segment e' = Some s -> shared_ok s) /\
  (ok = true -> exists s, attached_to e' s) /\
  sv_configured_capacity e' = sv_configured_capacity e.
Proof. apply attach_ok. Qed.

(** C36: a changed capacity fails closed.  After the number of entries is changed
    to anything other than the capacity of the segment in use, configuring fails
    and every operation refuses: no document is found, no refresh starts, none
    completes, no wait succeeds, no statistics are read and no callbacks are
    handed out, and the segment is not touched. *)
Theorem shared_cache_reload_fails_closed e s capacity e1 ok :
  attached_to e s -> 0 <= capacity < 2 ^ 31 -> ss_capacity s <> capacity ->
  pg_oauth_shared_cache_configure_capacity capacity e = (ok, e1) ->
  8 <= capacity <= 256 ->
  ok = false /\
  (forall key now stale size, pg_oauth_shared_cache_lookup key now stale size e1 = (lookup_none, e1)) /\
  (forall key now unknown cooldown,
     pg_oauth_shared_cache_begin_refresh key now unknown cooldown e1 =
       (PG_OAUTH_CACHE_REFRESH_INVALID_ARGUMENT, refresh_none, e1)) /\
  (forall refresh now success cacheable reval ttl grace payload,
     pg_oauth_shared_cache_complete_refresh refresh now success cacheable reval ttl grace payload e1 =
       (false, false, e1)) /\
  (forall key timeout sleep,
     pg_oauth_shared_cache_wait_refresh key timeout sleep e1 = (false, 0, e1)) /\
  pg_oauth_shared_cache_stats e1 = (None, e1) /\
  (forall io, pg_oauth_shared_cache_io io e1 = (false, io, e1)) /\
  sv_segment e1 = Some s.
Proof.
  intros (Hseg & Ha & _ & Hs) Hr Hne Hcfg Hb. unfold pg_oauth_shared_cache_configure_capacity in Hcfg.
  destruct (shared_cache_size_some capacity Hb) as [size Hz].
  rewrite Hz in Hcfg.
  assert (u32 capacity = capacity) as Hu by (unfold u32; apply Z.mod_small; lia).
  unfold capacity_agrees in Hcfg. simpl in Hcfg. rewrite Hseg, Ha, Hu in Hcfg.
  destruct (Z.eqb_spec (ss_capacity s) capacity); [done|]. injection Hcfg as <- <-.
  set (e1 := {| sv_segment := _; sv_attached := _; sv_configured_capacity := _ |}).
  assert (pg_oauth_shared_cache_attach e1 = (false, e1)) as Hatt.
  { unfold pg_oauth_shared_cache_attach. simpl. unfold capacity_agrees. simpl. rewrite Hu.
    by rewrite (proj2 (Z.eqb_neq _ _) n). }
  unfold pg_oauth_shared_cache_lookup, pg_oauth_shared_cache_begin_refresh,
    pg_oauth_shared_cache_complete_refresh, pg_oauth_shared_cache_wait_refresh,
    pg_oauth_shared_cache_stats, pg_oauth_shared_cache_io.
  rewrite Hatt. simpl. split_and!; try done. by intros [].
Qed.
End Attach.

(** ** Operations on an attached segment *)

Section Operations.
Context `{D : NamedDsm}.

Lemma attached_store e s c :
  attached_to e s -> cache_inv c -> capacity c = capacity (cache_view s) ->
  attached_to {| sv_segment := Some (store_view c s); sv_attached := sv_attached e;
                 sv_configured_capacity := sv_configured_capacity e |} (store_view c s).
Proof.
  intros (Hs & Ha & Hc & []) Hinv Hcap. unfold attached_to, capacity_agrees in *.
  rewrite Hs in Hc. simpl. split_and!; [done..|]. split; simpl; try done.
  - unfold zlen, capacity in *. simpl in Hcap. congruence.
  - by destruct c.
Qed.

Lemma view_store c s : cache_view (store_view c s) = c.
Proof. by destruct c. Qed.

(** The answer to a lookup that finds a document, and to one that finds none. *)
Definition answer_for (found : option (bytes * PgOAuthCacheLookup)) : PgOAuthCacheIoLookup :=
  match found with
  | Some (payload, freshness) =>
      {| lk_freshness := freshness; lk_copy_result := PG_OAUTH_CACHE_COPY_OK;
         lk_payload := payload |}
  | None =>
      {| lk_freshness := PG_OAUTH_CACHE_MISS; lk_copy_result := PG_OAUTH_CACHE_COPY_NOT_FOUND;
         lk_payload := [] |}
  end.

Definition replace_segment (s : PgOAuthSharedCacheState) (e : shared_env) : shared_env :=
  {| sv_segment := Some s; sv_attached := sv_attached e;
     sv_configured_capacity := sv_configured_capacity e |}.

(** A lookup whose buffer is large enough for the document of the key. *)
Lemma shared_lookup_ok e s k now stale size :
  attached_to e s -> valid_key (Some k) = true -> 0 <= now ->
  (forall payload f, contents (cache_view s) !! k ≫= CacheState.hit now stale = Some (payload, f) ->
     zlen payload <= size) ->
  exists s', shared_io_lookup k now stale size e =
      (answer_for (contents (cache_view s) !! k ≫= CacheState.hit now stale), replace_segment s' e) /\
    attached_to (replace_segment s' e) s' /\
    contents (cache_view s') =
      match contents (cache_view s) !! k ≫= CacheState.hit now stale with
      | Some _ => alter (touch_slot now) k (contents (cache_view s))
      | None => contents (cache_view s)
      end.
Proof.
  intros Hat Hvk Hnow Hsize. pose proof Hat as (Hseg & _ & _ & Hs).
  unfold shared_io_lookup, pg_oauth_shared_cache_lookup. rewrite (attach_attached _ _ Hat).
  simpl negb. unfold locked, lookup_and_copy. rewrite Hseg. cbv iota beta.
  destruct (lookup_ok (cache_view s) k now stale (so_cache _ Hs) Hvk Hnow)
    as (c1 & Hc1 & Hcap & _ & Hl). exists (store_view c1 s). rewrite view_store.
  destruct (contents (cache_view s) !! k ≫= CacheState.hit now stale) as [[payload f]|] eqn:Eh.
  - destruct Hl as (i & -> & Hm & Hcon & en & Hh & Hv & <-).
    rewrite bool_decide_eq_false_2 by done.
    rewrite (copy_payload_holds _ _ _ _ _ Hh Hv) by (by eapply Hsize).
    split_and!; [done|by apply attached_store|done].
  - destruct Hl as [-> Hent]. rewrite bool_decide_eq_true_2 by done.
    split_and!; [done|by apply attached_store|]. unfold contents. by rewrite Hent.
Qed.

(** The documents of a sound segment fit into the largest buffer. *)
Lemma hit_fits s k now stale payload f :
  shared_ok s -> contents (cache_view s) !! k ≫= CacheState.hit now stale = Some (payload, f) ->
  zlen payload <= PG_OAUTH_CACHE_MAX_PAYLOAD_SIZE.
Proof.
  intros Hs. destruct (contents (cache_view s) !! k) as [sl|] eqn:Hk; [|done].
  apply contents_lookup in Hk as (i & e & (Hi & _ & _) & ->); [|apply Hs].
  pose proof (eo_payload _ (ci_entries _ (so_cache _ Hs) _ _ Hi)) as Hp. simpl.
  unfold CacheState.hit, slot_of. simpl. destruct (ce_has_value e); [|done].
  repeat case_match; intros; simplify_eq; by apply Hp.
Qed.

(** C16: a lookup through the shared cache is the lookup in the map the segment
    stands for: a hit hands out exactly the value of the key, as fresh while it
    is fresh and as stale only to a caller that allows it, and the copy is
    complete; a miss changes nothing.  The segment stays sound. *)
Theorem shared_lookup_refines e s k now allow_stale size :
  attached_to e s -> valid_key (Some k) = true -> 0 <= now ->
  PG_OAUTH_CACHE_MAX_PAYLOAD_SIZE <= size ->
  exists s' e' r, shared_io_lookup k now allow_stale size e = (r, e') /\ attached_to e' s' /\
    match contents (cache_view s) !! k ≫= CacheState.hit now allow_stale with
    | Some (payload, freshness) =>
        r = {| lk_freshness := freshness; lk_copy_result := PG_OAUTH_CACHE_COPY_OK;
               lk_payload := payload |} /\
        (freshness = PG_OAUTH_CACHE_STALE -> allow_stale = true) /\
        contents (cache_view s') = alter (touch_slot now) k (contents (cache_view s))
    | None => lk_freshness r = PG_OAUTH_CACHE_MISS /\
        contents (cache_view s') = contents (cache_view s)
    end.
Proof.
  intros Hat Hvk Hnow Hsize.
  destruct (shared_lookup_ok e s k now allow_stale size) as (s' & Hl & Hat' & Hcon); [done..| |].
  { intros payload f Hh%hit_fits; [lia|apply Hat]. }
  eexists s', (replace_segment s' e), _. split; [exact Hl|]. split; [done|].
  destruct (contents (cache_view s) !! k ≫= CacheState.hit now allow_stale)
    as [[payload f]|] eqn:Eh; [|done]. split_and!; [done| |done].
  intros ->. destruct (contents (cache_view s) !! k) as [sl|]; [|done]. simpl in Eh.
  unfold CacheState.hit in Eh. repeat case_match; simplify_eq; prop_bools; done.
Qed.
End Operations.

(** ** An example *)

Module SharedExample.
Definition blank : PgOAuthSharedCacheState :=
  {| ss_magic := 0; ss_version := 0; ss_capacity := 0;
     ss_control := {| cc_next_refresh_serial := 0; cc_stats := stats_zero |};
     ss_entries := [] |}.
#[export] Instance dsm : NamedDsm.
Proof.
  refine {| sizeof_header := 256; sizeof_entry := 69728;
            GetNamedDSMSegment := fun existing _ init =>
              match existing with Some s => Some s | None => Some (init blank) end |}.
  - lia.
  - by intros s _ _ s' [= <-].
  - intros _ init s' [= <-]. by exists blank.
Defined.

Definition start : shared_env :=
  {| sv_segment := None; sv_attached := false; sv_configured_capacity := 32 |}.
Definition env : shared_env := snd (pg_oauth_shared_cache_attach start).

Lemma env_attached : exists s, attached_to env s.
Proof.
  destruct (attach_ok start true env) as (_ & _ & _ & H & _); [done|vm_compute; reflexivity|].
  by apply H.
Qed.

Lemma shared_cache_attach_safe_witness : exists s, attached_to env s.
Proof.
  destruct (shared_cache_attach_safe start true env) as (_ & _ & _ & H & _).
  - discriminate.
  - vm_compute. reflexivity.
  - exact (H eq_refl).
Defined.

Lemma shared_cache_reload_fails_closed_witness :
  fst (pg_oauth_shared_cache_configure_capacity 64 env) = false.
Proof.
  destruct env_attached as [s Hs].
  destruct (pg_oauth_shared_cache_configure_capacity 64 env) as [ok e1] eqn:E.
  apply (shared_cache_reload_fails_closed env s 64 e1 ok Hs).
  - lia.
  - destruct Hs as (Hseg & _ & Hc & _). unfold capacity_agrees in Hc. rewrite Hseg in Hc.
    change (u32 (sv_configured_capacity env)) with 32 in Hc. lia.
  - exact E.
  - lia.
Defined.

Lemma shared_lookup_refines_witness :
  exists s' e' r, shared_io_lookup (B "key") 5 true 65536 env = (r, e') /\ attached_to e' s'.
Proof.
  destruct env_attached as [s Hs].
  destruct (shared_lookup_refines env s (B "key") 5 true 65536 Hs)
    as (s' & e' & r & H1 & H2 & _); [reflexivity|lia|vm_compute; discriminate|].
  exact (ex_intro _ s' (ex_intro _ e' (ex_intro _ r (conj H1 H2)))).
Defined.
End SharedExample.
