(* ===== verification/Validator.v ===== *)
(** * The validation pipeline (src/validator.c, src/validator.h)

    Envelope, issuer key, signature, claims, identity: the stages in their order
    of trust, the first failure ending the validation.  The pipeline is a
    program over the calls of [IssuerKey]; the theorems compose those of the
    stages. *)

From S2P Require Import Prelude Base64url Identity Jansson Envelope Claims Jwks CacheState.
From S2P Require Import CacheKey Freshness Transport Metadata Signature IssuerKey.

(** ** Data *)

Inductive PgOAuthValidatorError :=
| PG_OAUTH_VALIDATOR_OK
| PG_OAUTH_VALIDATOR_INVALID_ARGUMENT
| PG_OAUTH_VALIDATOR_ENVELOPE
| PG_OAUTH_VALIDATOR_ISSUER_KEY
| PG_OAUTH_VALIDATOR_SIGNATURE
| PG_OAUTH_VALIDATOR_CLAIMS
| PG_OAUTH_VALIDATOR_IDENTITY.

#[global] Instance validator_error_eq_dec : EqDecision PgOAuthValidatorError.
Proof. solve_decision. Defined.

Record PgOAuthValidatorPolicy := {
  vp_envelope : PgOAuthJwtEnvelopePolicy;
  vp_issuer_key : PgOAuthIssuerKeyPolicy;
  vp_claims : PgOAuthClaimsPolicy;
  vp_identity : PgOAuthIdentityPolicy
}.

Record PgOAuthValidatorResult := {
  vr_identity : PgOAuthIdentity;
  vr_expires_at : Z;
  vr_envelope_error : PgOAuthJwtEnvelopeError;
  vr_issuer_key_error : PgOAuthIssuerKeyError;
  vr_http_error : PgOAuthHttpError;
  vr_metadata_error : PgOAuthMetadataError;
  vr_jwks_error : PgOAuthJwksError;
  vr_signature_error : PgOAuthSignatureError;
  vr_claims_error : PgOAuthClaimsError;
  vr_identity_error : PgOAuthIdentityError
}.

Definition validator_result_zero : PgOAuthValidatorResult :=
  {| vr_identity := identity_zero; vr_expires_at := 0;
     vr_envelope_error := PG_OAUTH_JWT_ENVELOPE_OK;
     vr_issuer_key_error := PG_OAUTH_ISSUER_KEY_OK; vr_http_error := PG_OAUTH_HTTP_OK;
     vr_metadata_error := PG_OAUTH_METADATA_OK; vr_jwks_error := PG_OAUTH_JWKS_OK;
     vr_signature_error := PG_OAUTH_SIGNATURE_OK; vr_claims_error := PG_OAUTH_CLAIMS_OK;
     vr_identity_error := PG_OAUTH_IDENTITY_OK |}.

(** Which allocations of the stages succeed. *)
Record allocator := {
  al_envelope : nat -> Z -> bool;
  al_issuer_key : Z -> bool;
  al_jwk : nat -> Z -> bool;
  al_signature : Z -> bool;
  al_identity : Z -> bool
}.

(** ** Definitions *)

Definition pg_oauth_validator_result_clear (result : option PgOAuthValidatorResult)
  : option PgOAuthValidatorResult :=
  match result with
  | None => None
  | Some _ => Some validator_result_zero
  end.

(** The result record as the stages fill it in; the fields of later stages still
    have the zeroes of the memset. *)
Definition result_envelope (e : PgOAuthJwtEnvelopeError) : PgOAuthValidatorResult :=
  {| vr_identity := identity_zero; vr_expires_at := 0; vr_envelope_error := e;
     vr_issuer_key_error := PG_OAUTH_ISSUER_KEY_OK; vr_http_error := PG_OAUTH_HTTP_OK;
     vr_metadata_error := PG_OAUTH_METADATA_OK; vr_jwks_error := PG_OAUTH_JWKS_OK;
     vr_signature_error := PG_OAUTH_SIGNATURE_OK; vr_claims_error := PG_OAUTH_CLAIMS_OK;
     vr_identity_error := PG_OAUTH_IDENTITY_OK |}.

Definition set_issuer_key (e : PgOAuthIssuerKeyError) (http : PgOAuthHttpError)
  (metadata : PgOAuthMetadataError) (jwks : PgOAuthJwksError) (r : PgOAuthValidatorResult)
  : PgOAuthValidatorResult :=
  {| vr_identity := vr_identity r; vr_expires_at := vr_expires_at r;
     vr_envelope_error := vr_envelope_error r; vr_issuer_key_error := e; vr_http_error := http;
     vr_metadata_error := metadata; vr_jwks_error := jwks;
     vr_signature_error := vr_signature_error r; vr_claims_error := vr_claims_error r;
     vr_identity_error := vr_identity_error r |}.

Definition set_signature_error (e : PgOAuthSignatureError) (r : PgOAuthValidatorResult)
  : PgOAuthValidatorResult :=
  {| vr_identity := vr_identity r; vr_expires_at := vr_expires_at r;
     vr_envelope_error := vr_envelope_error r; vr_issuer_key_error := vr_issuer_key_error r;
     vr_http_error := vr_http_error r; vr_metadata_error := vr_metadata_error r;
     vr_jwks_error := vr_jwks_error r; vr_signature_error := e;
     vr_claims_error := vr_claims_error r; vr_identity_error := vr_identity_error r |}.

Definition set_claims_error (e : PgOAuthClaimsError) (r : PgOAuthValidatorResult)
  : PgOAuthValidatorResult :=
  {| vr_identity := vr_identity r; vr_expires_at := vr_expires_at r;
     vr_envelope_error := vr_envelope_error r; vr_issuer_key_error := vr_issuer_key_error r;
     vr_http_error := vr_http_error r; vr_metadata_error := vr_metadata_error r;
     vr_jwks_error := vr_jwks_error r; vr_signature_error := vr_signature_error r;
     vr_claims_error := e; vr_identity_error := vr_identity_error r |}.

Definition set_identity (e : PgOAuthIdentityError) (identity : PgOAuthIdentity) (expires_at : Z)
  (r : PgOAuthValidatorResult) : PgOAuthValidatorResult :=
  {| vr_identity := identity; vr_expires_at := expires_at;
     vr_envelope_error := vr_envelope_error r; vr_issuer_key_error := vr_issuer_key_error r;
     vr_http_error := vr_http_error r; vr_metadata_error := vr_metadata_error r;
     vr_jwks_error := vr_jwks_error r; vr_signature_error := vr_signature_error r;
     vr_claims_error := vr_claims_error r; vr_identity_error := e |}.

Section Validator.
Context `{Jansson} `{OpenSsl} `{CurlUrl} `{LibJwt}.
Context (curl_getdate : bytes -> Z) (malloc : allocator).

(** Claims and identity, once the signature has been verified. *)
Definition validate_verified (policy : PgOAuthValidatorPolicy) (envelope : PgOAuthJwtEnvelope)
  (result : PgOAuthValidatorResult) : PgOAuthValidatorError * PgOAuthValidatorResult :=
  let '(claims_error, claims) :=
    pg_oauth_claims_validate (untrusted_payload envelope) (Some (vp_claims policy))
      (Some claims_zero) in
  let claims := default claims_zero claims in
  let result := set_claims_error claims_error result in
  if negb (bool_decide (claims_error = PG_OAUTH_CLAIMS_OK))
  then (PG_OAUTH_VALIDATOR_CLAIMS, result)
  else
    let '(identity_error, built) :=
      pg_oauth_identity_build (al_identity malloc)
        (take (Z.to_nat (vc_identity_length claims)) <$> vc_identity claims)
        (Some (vp_identity policy)) (Some (vr_identity result)) in
    let built := default identity_zero built in
    if negb (bool_decide (identity_error = PG_OAUTH_IDENTITY_OK))
    then (PG_OAUTH_VALIDATOR_IDENTITY,
          set_identity identity_error built (vr_expires_at result) result)
    else (PG_OAUTH_VALIDATOR_OK,
          set_identity identity_error built (vc_expires_at claims) result).

(** From the answer of the key retrieval on. *)
Definition validate_with_key (token : bytes) (policy : PgOAuthValidatorPolicy)
  (envelope : PgOAuthJwtEnvelope) (result : PgOAuthValidatorResult)
  (answer : PgOAuthIssuerKeyError * option PgOAuthIssuerKeyResult)
  : PgOAuthValidatorError * PgOAuthValidatorResult :=
  let '(issuer_key_error, key_result) := answer in
  let key_result := default issuer_key_result_zero key_result in
  let result := set_issuer_key issuer_key_error (ik_http_error key_result)
                  (ik_metadata_error key_result) (ik_jwks_error key_result) result in
  if negb (bool_decide (issuer_key_error = PG_OAUTH_ISSUER_KEY_OK))
  then (PG_OAUTH_VALIDATOR_ISSUER_KEY, result)
  else
    let signature_error :=
      pg_oauth_signature_verify (al_signature malloc) (Some token)
        (Some (ik_selected key_result)) in
    let result := set_signature_error signature_error result in
    if negb (bool_decide (signature_error = PG_OAUTH_SIGNATURE_OK))
    then (PG_OAUTH_VALIDATOR_SIGNATURE, result)
    else validate_verified policy envelope result.

Definition pg_oauth_validate_access_token_cached (token metadata_url : option bytes)
  (policy : option PgOAuthValidatorPolicy) (cache_policy : option PgOAuthIssuerKeyCachePolicy)
  (now_ms response_time_seconds : Z) (result : option PgOAuthValidatorResult)
  : prog (PgOAuthValidatorError * option PgOAuthValidatorResult) :=
  match result with
  | None => Ret (PG_OAUTH_VALIDATOR_INVALID_ARGUMENT, None)
  | Some _ =>
      match token, metadata_url, policy with
      | Some token, Some _, Some policy =>
          if bool_decide (cl_issuer (vp_claims policy) = None)
          then Ret (PG_OAUTH_VALIDATOR_INVALID_ARGUMENT, Some validator_result_zero)
          else
            let '(envelope_error, envelope) :=
              pg_oauth_jwt_envelope_parse (al_envelope malloc) (Some token)
                (Some (vp_envelope policy)) (Some envelope_zero) in
            let envelope := default envelope_zero envelope in
            let result := result_envelope envelope_error in
            if negb (bool_decide (envelope_error = PG_OAUTH_JWT_ENVELOPE_OK))
            then Ret (PG_OAUTH_VALIDATOR_ENVELOPE, Some result)
            else
              bind (pg_oauth_issuer_key_fetch_cached curl_getdate (al_issuer_key malloc)
                      (al_jwk malloc) metadata_url (cl_issuer (vp_claims policy))
                      (env_key_id envelope) (env_algorithm envelope)
                      (Some (vp_issuer_key policy)) cache_policy now_ms response_time_seconds
                      (Some issuer_key_result_zero))
                (fun answer =>
                   let '(error, result) :=
                     validate_with_key token policy envelope result answer in
                   Ret (error, Some result))
      | _, _, _ => Ret (PG_OAUTH_VALIDATOR_INVALID_ARGUMENT, Some validator_result_zero)
      end
  end.

Definition pg_oauth_validate_access_token (token metadata_url : option bytes)
  (policy : option PgOAuthValidatorPolicy) (result : option PgOAuthValidatorResult)
  : prog (PgOAuthValidatorError * option PgOAuthValidatorResult) :=
  pg_oauth_validate_access_token_cached token metadata_url policy None 0 0 result.
End Validator.

(** The text after the switch is for values outside the enumeration, which no
    caller passes. *)
Definition pg_oauth_validator_error_code (error : PgOAuthValidatorError) : bytes :=
  match error with
  | PG_OAUTH_VALIDATOR_OK => B "validator_ok"
  | PG_OAUTH_VALIDATOR_INVALID_ARGUMENT => B "validator_invalid_argument"
  | PG_OAUTH_VALIDATOR_ENVELOPE => B "validator_envelope"
  | PG_OAUTH_VALIDATOR_ISSUER_KEY => B "validator_issuer_key"
  | PG_OAUTH_VALIDATOR_SIGNATURE => B "validator_signature"
  | PG_OAUTH_VALIDATOR_CLAIMS => B "validator_claims"
  | PG_OAUTH_VALIDATOR_IDENTITY => B "validator_identity"
  end.

(** ** Runs of the pipeline *)

#[local] Arguments pg_oauth_claims_validate : simpl never.
#[local] Arguments pg_oauth_identity_build : simpl never.
#[local] Arguments pg_oauth_signature_verify : simpl never.
#[local] Arguments pg_oauth_issuer_key_fetch_cached : simpl never.

(** The error names the first stage that failed; the stages before it were
    passed and the ones after it have left no trace. *)
Definition first_failure (error : PgOAuthValidatorError) (r : PgOAuthValidatorResult) : Prop :=
  match error with
  | PG_OAUTH_VALIDATOR_OK =>
      vr_envelope_error r = PG_OAUTH_JWT_ENVELOPE_OK /\
      vr_issuer_key_error r = PG_OAUTH_ISSUER_KEY_OK /\
      vr_signature_error r = PG_OAUTH_SIGNATURE_OK /\ vr_claims_error r = PG_OAUTH_CLAIMS_OK /\
      vr_identity_error r = PG_OAUTH_IDENTITY_OK
  | PG_OAUTH_VALIDATOR_INVALID_ARGUMENT => r = validator_result_zero
  | PG_OAUTH_VALIDATOR_ENVELOPE =>
      vr_envelope_error r <> PG_OAUTH_JWT_ENVELOPE_OK /\
      r = result_envelope (vr_envelope_error r)
  | PG_OAUTH_VALIDATOR_ISSUER_KEY =>
      vr_issuer_key_error r <> PG_OAUTH_ISSUER_KEY_OK /\
      r = set_issuer_key (vr_issuer_key_error r) (vr_http_error r) (vr_metadata_error r)
            (vr_jwks_error r) validator_result_zero
  | PG_OAUTH_VALIDATOR_SIGNATURE =>
      vr_signature_error r <> PG_OAUTH_SIGNATURE_OK /\
      vr_envelope_error r = PG_OAUTH_JWT_ENVELOPE_OK /\
      vr_issuer_key_error r = PG_OAUTH_ISSUER_KEY_OK /\
      vr_claims_error r = PG_OAUTH_CLAIMS_OK /\ vr_identity_error r = PG_OAUTH_IDENTITY_OK
  | PG_OAUTH_VALIDATOR_CLAIMS =>
      vr_claims_error r <> PG_OAUTH_CLAIMS_OK /\
      vr_envelope_error r = PG_OAUTH_JWT_ENVELOPE_OK /\
      vr_issuer_key_error r = PG_OAUTH_ISSUER_KEY_OK /\
      vr_signature_error r = PG_OAUTH_SIGNATURE_OK /\ vr_identity_error r = PG_OAUTH_IDENTITY_OK
  | PG_OAUTH_VALIDATOR_IDENTITY =>
      vr_identity_error r <> PG_OAUTH_IDENTITY_OK /\
      vr_envelope_error r = PG_OAUTH_JWT_ENVELOPE_OK /\
      vr_issuer_key_error r = PG_OAUTH_ISSUER_KEY_OK /\
      vr_signature_error r = PG_OAUTH_SIGNATURE_OK /\ vr_claims_error r = PG_OAUTH_CLAIMS_OK
  end.

Section Runs.
Context `{J : Jansson} `{S : OpenSsl} `{U : CurlUrl} `{L : LibJwt}.
Context (curl_getdate : bytes -> Z) (malloc : allocator).

Lemma envelope_answer token policy error envelope :
  pg_oauth_jwt_envelope_parse (al_envelope malloc) (Some token) (Some policy)
    (Some envelope_zero) = (error, envelope) ->
  if bool_decide (error = PG_OAUTH_JWT_ENVELOPE_OK)
  then exists env, envelope = Some env /\ envelope_policy_invalid policy = false /\
    exists h p s header payload key_id,
      accepted_envelope policy token env h p s header payload key_id
  else True.
Proof.
  unfold pg_oauth_jwt_envelope_parse. intros E. case_bool_decide as Hok; [|done]. subst.
  destruct (envelope_policy_invalid policy) eqn:Ei; [done|].
  destruct (envelope_parse_token _ _ _) as [e|env] eqn:Ep; simplify_eq.
  - exfalso. revert Ep. unfold envelope_parse_token, envelope_header_checks, decode_json_object.
    intros. guards.
  - exists env. split_and!; [done..|]. by apply envelope_parse_token_sound in Ep.
Qed.

#[local] Ltac stopped He :=
  left; destruct He as [-> ->]; split; [done|]; eexists; split; [done|]; split; [done|by left].

(** A run either stops before the first call, or is a run of the key retrieval
    for the key id and algorithm of an accepted envelope. *)
Lemma validate_runs token url policy cp now time old tr out :
  exec (pg_oauth_validate_access_token_cached curl_getdate malloc token url policy cp now time
          (Some old)) tr out ->
  (tr = [] /\ exists r, snd out = Some r /\ first_failure (fst out) r /\
     (fst out = PG_OAUTH_VALIDATOR_INVALID_ARGUMENT \/ fst out = PG_OAUTH_VALIDATOR_ENVELOPE)) \/
  exists text p envelope h pl s header payload key_id answer,
    token = Some text /\ policy = Some p /\
    envelope_policy_invalid (vp_envelope p) = false /\
    accepted_envelope (vp_envelope p) text envelope h pl s header payload key_id /\
    exec (pg_oauth_issuer_key_fetch_cached curl_getdate (al_issuer_key malloc) (al_jwk malloc)
            url (cl_issuer (vp_claims p)) (Some key_id) (env_algorithm envelope)
            (Some (vp_issuer_key p)) cp now time (Some issuer_key_result_zero)) tr answer /\
    out = (fst (validate_with_key malloc text p envelope validator_result_zero answer),
           Some (snd (validate_with_key malloc text p envelope validator_result_zero answer))).
Proof.
  unfold pg_oauth_validate_access_token_cached. intros He.
  destruct token as [text|]; [|by stopped He].
  destruct url as [u|]; [|by stopped He].
  destruct policy as [p|]; [|by stopped He].
  case_bool_decide; [by stopped He|].
  destruct (pg_oauth_jwt_envelope_parse _ _ _ _) as [error envelope] eqn:Ep.
  apply envelope_answer in Ep. destruct (bool_decide_reflect (error = PG_OAUTH_JWT_ENVELOPE_OK)) as [->|Hn].
  - right. destruct Ep as (env & -> & Hi & h & pl & s & header & payload & key_id & Ha).
    cbn [negb] in He. change (default envelope_zero (Some env)) with env in He.
    apply exec_bind in He as (t1 & t2 & answer & -> & He & Hr).
    assert (env_key_id env = Some key_id) as Hk by (by rewrite (ae_result _ _ _ _ _ _ _ _ _ Ha)).
    rewrite Hk in He. exists text, p, env, h, pl, s, header, payload, key_id, answer.
    change (result_envelope PG_OAUTH_JWT_ENVELOPE_OK) with validator_result_zero in Hr.
    destruct (validate_with_key _ _ _ _ _ _) as [e r]. destruct Hr as [-> ->].
    rewrite app_nil_r. repeat (split; [assumption || reflexivity|]). reflexivity.
  - left. cbn [negb] in He. destruct He as [-> ->]. split; [done|].
    exists (result_envelope error). simpl. eauto 8.
Qed.

(** What is left in the result after each outcome, and what the later errors say
    of the earlier stages. *)
Lemma with_key_outcome text p envelope answer error r :
  validate_with_key malloc text p envelope validator_result_zero answer = (error, r) ->
  first_failure error r /\
  (error <> PG_OAUTH_VALIDATOR_OK -> vr_identity r = identity_zero /\ vr_expires_at r = 0) /\
  (error <> PG_OAUTH_VALIDATOR_ISSUER_KEY -> error <> PG_OAUTH_VALIDATOR_SIGNATURE ->
     fst answer = PG_OAUTH_ISSUER_KEY_OK /\
     pg_oauth_signature_verify (al_signature malloc) (Some text)
       (Some (ik_selected (default issuer_key_result_zero (snd answer)))) =
       PG_OAUTH_SIGNATURE_OK).
Proof.
  destruct answer as [key_error key_result]. cbn [fst snd]. unfold validate_with_key.
  set (key := default issuer_key_result_zero key_result).
  destruct (bool_decide_reflect (key_error = PG_OAUTH_ISSUER_KEY_OK)) as [->|Hk]; cbn [negb].
  2:{ intros [= <- <-]. by split_and!. }
  destruct (bool_decide_reflect (pg_oauth_signature_verify (al_signature malloc) (Some text)
    (Some (ik_selected key)) = PG_OAUTH_SIGNATURE_OK)) as [Es|Es]; cbn [negb].
  2:{ intros [= <- <-]. by split_and!. }
  rewrite Es. unfold validate_verified.
  destruct (pg_oauth_claims_validate _ _ _) as [claims_error claims] eqn:Ec.
  destruct (bool_decide_reflect (claims_error = PG_OAUTH_CLAIMS_OK)) as [->|Hc]; cbn [negb].
  2:{ intros [= <- <-]. by split_and!. }
  apply claims_validate_ok in Ec as (_ & identity & expires_at & ->). cbn.
  pose proof (identity_build_outcome (al_identity malloc) (take (Z.to_nat (zlen identity)) identity)
    (vp_identity p) identity_zero) as Hb.
  destruct (pg_oauth_identity_build _ _ _ _) as [identity_error built]. destruct Hb as [_ ->].
  case_decide as Hi; cbn.
  - subst. intros [= <- <-]. by split_and!.
  - rewrite bool_decide_eq_false_2 by done. intros [= <- <-]. by split_and!.
Qed.

(** The stages a token has passed when it is accepted. *)
Lemma with_key_ok text p envelope answer r :
  json_integers_bounded -> cl_current_time (vp_claims p) <= INT64_MAX ->
  0 <= cl_clock_skew_seconds (vp_claims p) ->
  validate_with_key malloc text p envelope validator_result_zero answer =
    (PG_OAUTH_VALIDATOR_OK, r) ->
  exists identity,
    claims_accepted (vp_claims p) (untrusted_payload envelope) identity (vr_expires_at r) /\
    subject_acceptable (vp_identity p) identity /\
    vr_identity r = {| id_value := Some identity; id_length := zlen identity |}.
Proof.
  intros Hint Htime Hskew E. destruct answer as [key_error key_result].
  unfold validate_with_key, validate_verified in E.
  destruct (bool_decide _) in E; [|done]. destruct (bool_decide _) in E; [|done]. cbn [negb] in E.
  destruct (pg_oauth_claims_validate _ _ _) as [claims_error claims] eqn:Ec.
  destruct (bool_decide_reflect (claims_error = PG_OAUTH_CLAIMS_OK)) as [->|Hc]; [|done].
  pose proof (claims_validate_ok _ _ _ _ Ec) as (Hv & identity & expires_at & ->).
  apply claims_validate_iff in Ec; [|done..]. cbn in E. exists identity.
  assert (take (Z.to_nat (zlen identity)) identity = identity) as Ht
    by (apply take_ge; unfold zlen; lia).
  rewrite Ht in E.
  pose proof (identity_build_outcome (al_identity malloc) identity (vp_identity p) identity_zero) as Hb.
  destruct (pg_oauth_identity_build _ _ _ _) as [identity_error built]. destruct Hb as [Hb ->].
  case_decide as Hi; [|by rewrite bool_decide_eq_false_2 in E by done].
  rewrite bool_decide_eq_true_2 in E by done. injection E as <-. cbn.
  by destruct (proj1 Hb Hi) as (? & _ & _).
Qed.
End Runs.

(** ** The claims stage and the identity stage agree

    The claims stage checks the identity byte by byte, the identity stage by
    decoding UTF-8.  On the well-formed text of a loaded document both refuse
    the same: the C0, DEL and C1 controls. *)

Lemma identity_bytes_ok_suffix a b : identity_bytes_ok (a ++ b) = true -> identity_bytes_ok b = true.
Proof.
  induction a as [|c a IH]; [done|]. simpl. destruct (_ || _); [done|]. exact IH.
Qed.

#[local] Ltac Zify.zify_post_hook ::= Z.div_mod_to_equations.

Lemma encoded_printable cp rest :
  scalar_value cp -> identity_bytes_ok (utf8_encode cp ++ rest) = true -> printable cp.
Proof.
  unfold scalar_value, printable, utf8_encode. intros Hs.
  destruct (Z.ltb_spec cp 128).
  - cbn [app identity_bytes_ok]. unfold iscntrl. rewrite bz_zb. intros E.
    destruct (_ || _) eqn:Ei in E; [done|]. prop_bools. lia.
  - destruct (Z.ltb_spec cp 160); [|intros _; lia].
    replace (cp <? 2048) with true by lia. cbn [app identity_bytes_ok]. rewrite !bz_zb.
    replace ((192 + cp / 64) mod 256 =? 194) with true by lia.
    replace (128 <=? (128 + cp mod 64) mod 256) with true by lia.
    replace ((128 + cp mod 64) mod 256 <=? 159) with true by lia.
    by rewrite orb_true_r.
Qed.

Lemma identity_text_printable s :
  utf8_text s -> identity_bytes_ok s = true -> printable_utf8 s.
Proof.
  intros (cps & Hcps & ->) Hok. exists cps. split; [|done].
  induction Hcps as [|cp cps Hcp _ IH]; constructor.
  - eapply encoded_printable; [done|exact Hok].
  - apply IH. exact (identity_bytes_ok_suffix _ _ Hok).
Qed.

Section Agreement.
Context `{J : Jansson} `{T : !JanssonText J}.

Lemma claimed_identity_acceptable policy segment maximum payload cp identity expires_at :
  segment_object segment maximum payload ->
  claims_accepted cp (Some payload) identity expires_at ->
  cl_max_identity_size cp <= id_max_subject_size policy ->
  cl_max_identity_size cp <= id_max_authn_id_size policy ->
  subject_acceptable policy identity.
Proof.
  intros (text & _ & _ & _ & Hload & _ & Hobj) Hc Hs Ha.
  destruct (ca_identity _ _ _ _ Hc) as [(v & Hv & Ht) (Hne & Hl & Hb)].
  assert (json_within payload v) as Hw.
  { unfold json_object_get in Hv. destruct (json_is_object _); [|done].
    eapply within_member; [done|apply within_self]. }
  destruct (loaded_text _ _ _ _ _ Hload Hw Ht) as [Hu _].
  unfold subject_acceptable. split_and!; [done|lia|lia|]. by apply identity_text_printable.
Qed.
End Agreement.

(** ** Properties *)

Section Properties.
Context `{J : Jansson} `{S : OpenSsl} `{U : CurlUrl} `{V : LibJwtVerify}.
Context (curl_getdate : bytes -> Z) (malloc : allocator).

(** Along the run [tr], the token [text] has been authenticated under the policy
    [p]: its envelope is acceptable, with [payload] as its payload, its key was
    obtained from the issuer for the key id and algorithm it names, that key
    signed it, and the claims of that payload give the identity. *)
Definition token_authenticated (p : PgOAuthValidatorPolicy)
  (cp : option PgOAuthIssuerKeyCachePolicy) (url : option bytes) (text : bytes)
  (tr : list event) (payload : json_t) (identity : bytes) (expires_at : Z) : Prop :=
  exists envelope h pl s header key_id cache selected jwk,
    accepted_envelope (vp_envelope p) text envelope h pl s header payload key_id /\
    cache_setting (al_issuer_key malloc) (vp_issuer_key p) cp cache /\
    key_obtained (al_issuer_key malloc) (al_jwk malloc) (vp_issuer_key p) cache url
      (cl_issuer (vp_claims p)) (Some key_id) (env_algorithm envelope) tr selected /\
    sel_jwk selected = Some jwk /\ sel_algorithm selected = env_algorithm envelope /\
    signed_by jwk (env_algorithm envelope) text /\
    claims_accepted (vp_claims p) (Some payload) identity expires_at /\
    subject_acceptable (vp_identity p) identity.

Lemma selects_algorithm policy kid alg document selected :
  selects (al_jwk malloc) policy (Some kid) alg (Some document) selected ->
  sel_algorithm selected = alg.
Proof. intros [old Hs]. by apply select_ok in Hs as (_ & ? & ? & [= ->] & _). Qed.

Lemma validate_authenticates token url policy cp now time old tr r :
  json_integers_bounded ->
  (forall p, policy = Some p -> cl_current_time (vp_claims p) <= INT64_MAX /\
     0 <= cl_clock_skew_seconds (vp_claims p)) ->
  exec (pg_oauth_validate_access_token_cached curl_getdate malloc token url policy cp now time
          (Some old)) tr (PG_OAUTH_VALIDATOR_OK, r) ->
  exists text p payload identity result,
    token = Some text /\ policy = Some p /\ r = Some result /\
    vr_identity result = {| id_value := Some identity; id_length := zlen identity |} /\
    token_authenticated p cp url text tr payload identity (vr_expires_at result).
Proof.
  intros Hint Hpol [(_ & ? & _ & _ & [?|?])|Hrun]%validate_runs; [done..|].
  destruct Hrun as (text & p & env & h & pl & s & header & payload & key_id & answer &
    -> & -> & _ & Henv & Hfetch & Hout).
  destruct (Hpol p eq_refl) as [Htime Hskew].
  destruct (validate_with_key _ _ _ _ _ answer) as [error result] eqn:Ek.
  cbn [fst snd] in Hout. injection Hout as <- ->.
  destruct (with_key_outcome _ _ _ _ _ _ _ Ek) as (_ & _ & Hsig).
  destruct (Hsig ltac:(done) ltac:(done)) as [Hkey Hs]. clear Hsig.
  destruct (with_key_ok _ _ _ _ _ _ Hint Htime Hskew Ek) as (identity & Hc & Ha & Hi).
  apply fetch_cached_runs in Hfetch as [[_ Hn]|(p' & cache & o & [= <-] & _ & Hset & He & ->)];
    [done|].
  pose proof (fetch_with_source _ _ _ _ _ _ _ _ _ _ _ _ _ He Hkey) as Hobt.
  cbn [fst snd] in Hs. change (default issuer_key_result_zero (Some (snd o))) with (snd o) in Hs.
  destruct (signature_verify_ok _ _ _ Hs) as (? & jwk & [= <-] & Hj & _ & Hsigned).
  assert (sel_algorithm (ik_selected (snd o)) = env_algorithm env) as Halg.
  { destruct Hobt as (? & ? & ? & ? & _ & _ & _ & _ & Hsel). by eapply selects_algorithm. }
  rewrite Halg in Hsigned. rewrite (ae_result _ _ _ _ _ _ _ _ _ Henv) in Hc.
  exists text, p, payload, identity, result. split_and!; [done..|].
  exists env, h, pl, s, header, key_id, cache, (ik_selected (snd o)), jwk.
  by split_and!.
Qed.

(** C2: the pipeline is sound.  Whenever validation accepts a token, whatever the
    cache, the network and the token's author do, the token has passed every
    stage: a strict envelope; a key obtained from the configured issuer's
    metadata and key set under exactly the key id and algorithm of the token's
    header; a signature by that key over the whole token; and acceptable claims
    read from the very payload that was signed.  The identity and the expiry
    handed out are those of these claims. *)
Theorem validator_sound token url policy cp now time old tr r :
  json_integers_bounded ->
  (forall p, policy = Some p -> cl_current_time (vp_claims p) <= INT64_MAX /\
     0 <= cl_clock_skew_seconds (vp_claims p)) ->
  exec (pg_oauth_validate_access_token_cached curl_getdate malloc token url policy cp now time
          (Some old)) tr (PG_OAUTH_VALIDATOR_OK, r) ->
  exists text p payload identity result,
    token = Some text /\ policy = Some p /\ r = Some result /\
    vr_identity result = {| id_value := Some identity; id_length := zlen identity |} /\
    token_authenticated p cp url text tr payload identity (vr_expires_at result).
Proof. apply validate_authenticates. Qed.

(** C11: validation fails closed, and says why.  After any error the result has no
    identity and no expiry; the error names the first stage that failed, whose
    own code is set, while the stages before it succeeded and those after it
    were not entered.  In particular claims are judged only once the signature
    has been verified: an error of the claims or identity stage means that the
    selected key signed the token. *)
Theorem validator_fail_closed token url policy cp now time old tr error r :
  exec (pg_oauth_validate_access_token_cached curl_getdate malloc token url policy cp now time
          (Some old)) tr (error, r) ->
  exists result, r = Some result /\ first_failure error result /\
    (error <> PG_OAUTH_VALIDATOR_OK ->
       vr_identity result = identity_zero /\ vr_expires_at result = 0) /\
    (error = PG_OAUTH_VALIDATOR_CLAIMS \/ error = PG_OAUTH_VALIDATOR_IDENTITY ->
       exists text jwk alg, token = Some text /\ signed_by jwk alg text).
Proof.
  intros [(-> & result & Hr & Hf & Herr)|Hrun]%validate_runs.
  - exists result. cbn [fst snd] in *. split_and!; [done..| |].
    + intros _. destruct Herr as [-> | ->].
      * cbn [first_failure] in Hf. by rewrite Hf.
      * destruct Hf as [_ ->]. done.
    + destruct Herr as [-> | ->]; by intros [?|?].
  - destruct Hrun as (text & p & env & h & pl & s & header & payload & key_id & answer &
      -> & -> & _ & Henv & Hfetch & Hout).
    destruct (validate_with_key _ _ _ _ _ answer) as [e result] eqn:Ek.
    cbn [fst snd] in Hout. injection Hout as -> ->. exists result.
    destruct (with_key_outcome _ _ _ _ _ _ _ Ek) as (Hf & Hz & Hsig).
    split_and!; [done..|]. intros Hce.
    destruct (Hsig ltac:(by destruct Hce as [-> | ->]) ltac:(by destruct Hce as [-> | ->]))
      as [_ Hs].
    destruct (signature_verify_ok _ _ _ Hs) as (? & jwk & [= <-] & _ & _ & Hsigned). eauto.
Qed.
End Properties.

Section Completeness.
Context `{J : Jansson} `{T : !JanssonText J} `{S : OpenSsl} `{U : CurlUrl} `{L : LibJwt}.
Context (curl_getdate : bytes -> Z) (malloc : allocator).

Lemma verified_complete p envelope payload segment maximum result identity expires_at :
  (forall n, al_identity malloc n = true) ->
  json_integers_bounded -> valid_policy (vp_claims p) = true ->
  cl_current_time (vp_claims p) <= INT64_MAX -> 0 <= cl_clock_skew_seconds (vp_claims p) ->
  cl_max_identity_size (vp_claims p) <= id_max_subject_size (vp_identity p) ->
  cl_max_identity_size (vp_claims p) <= id_max_authn_id_size (vp_identity p) ->
  cl_max_identity_size (vp_claims p) < SIZE_MAX ->
  untrusted_payload envelope = Some payload ->
  segment_object segment maximum payload ->
  claims_accepted (vp_claims p) (Some payload) identity expires_at ->
  validate_verified malloc p envelope result =
    (PG_OAUTH_VALIDATOR_OK,
     set_identity PG_OAUTH_IDENTITY_OK {| id_value := Some identity; id_length := zlen identity |}
       expires_at (set_claims_error PG_OAUTH_CLAIMS_OK result)).
Proof.
  intros Hm Hint Hv Htime Hskew Hs Ha Hmax Hp Hseg Hc. unfold validate_verified. rewrite Hp.
  rewrite (proj2 (claims_validate_iff _ _ claims_zero _ _ Hint Hv Htime Hskew) Hc). cbn.
  rewrite take_ge by (unfold zlen; lia).
  pose proof (claimed_identity_acceptable _ _ _ _ _ _ _ Hseg Hc Hs Ha) as Hacc.
  pose proof (identity_build_outcome (al_identity malloc) identity (vp_identity p)
    (vr_identity result)) as Hb.
  destruct (pg_oauth_identity_build _ _ _ _) as [identity_error built]. destruct Hb as [Hb ->].
  assert (identity_error = PG_OAUTH_IDENTITY_OK) as ->.
  { apply Hb. split_and!; [done| |apply Hm].
    destruct (ca_identity _ _ _ _ Hc) as [_ (_ & Hl & _)]. lia. }
  by rewrite decide_True.
Qed.

(** C13: the pipeline is complete: it refuses nothing it should accept.  When
    memory suffices, the envelope is acceptable, the key retrieval succeeds, the
    key verifies the signature and the claims are acceptable, validation
    succeeds with the claimed identity and expiry.  In particular the identity
    stage never refuses what the claims stage accepted: their byte-wise and
    decoding checks agree on the text of a loaded document. *)
Theorem validator_complete text url p cp now time old tr envelope h pl s header payload key_id
    key identity expires_at :
  (forall i n, al_envelope malloc i n = true) -> (forall n, al_identity malloc n = true) ->
  json_integers_bounded -> zlen text <= SIZE_MAX ->
  envelope_policy_invalid (vp_envelope p) = false -> valid_policy (vp_claims p) = true ->
  cl_current_time (vp_claims p) <= INT64_MAX -> 0 <= cl_clock_skew_seconds (vp_claims p) ->
  cl_max_identity_size (vp_claims p) <= id_max_subject_size (vp_identity p) ->
  cl_max_identity_size (vp_claims p) <= id_max_authn_id_size (vp_identity p) ->
  cl_max_identity_size (vp_claims p) < SIZE_MAX ->
  accepted_envelope (vp_envelope p) text envelope h pl s header payload key_id ->
  exec (pg_oauth_issuer_key_fetch_cached curl_getdate (al_issuer_key malloc) (al_jwk malloc)
          (Some url) (cl_issuer (vp_claims p)) (Some key_id) (env_algorithm envelope)
          (Some (vp_issuer_key p)) cp now time (Some issuer_key_result_zero)) tr
    (PG_OAUTH_ISSUER_KEY_OK, Some key) ->
  pg_oauth_signature_verify (al_signature malloc) (Some text) (Some (ik_selected key)) =
    PG_OAUTH_SIGNATURE_OK ->
  claims_accepted (vp_claims p) (Some payload) identity expires_at ->
  exists result,
    exec (pg_oauth_validate_access_token_cached curl_getdate malloc (Some text) (Some url)
            (Some p) cp now time (Some old)) tr (PG_OAUTH_VALIDATOR_OK, Some result) /\
    vr_identity result = {| id_value := Some identity; id_length := zlen identity |} /\
    vr_expires_at result = expires_at.
Proof.
  intros Hme Hmi Hint Hsz Henvp Hv Htime Hskew Hs1 Hs2 Hmax Henv Hfetch Hsig Hc.
  pose proof (ae_result _ _ _ _ _ _ _ _ _ Henv) as Hres.
  unfold pg_oauth_validate_access_token_cached.
  rewrite bool_decide_eq_false_2.
  2:{ intros Hn. unfold valid_policy in Hv. by rewrite Hn in Hv. }
  unfold pg_oauth_jwt_envelope_parse at 1. rewrite Henvp.
  rewrite (envelope_parse_token_complete _ _ _ _ _ _ _ _ _ _ Hme Hsz Henv).
  cbn [bool_decide decide_rel negb]. rewrite bool_decide_eq_true_2 by done. cbn [negb].
  change (default envelope_zero (Some envelope)) with envelope.
  assert (env_key_id envelope = Some key_id) as -> by (by rewrite Hres).
  eexists. split; [apply exec_bind; eexists tr, [], _; split_and!; [by rewrite app_nil_r|exact Hfetch|]|].
  - unfold validate_with_key. rewrite bool_decide_eq_true_2 by done. cbn [negb].
    change (default issuer_key_result_zero (Some key)) with key. rewrite Hsig.
    rewrite bool_decide_eq_true_2 by done. cbn [negb].
    rewrite (verified_complete p envelope payload pl (env_max_payload_size (vp_envelope p)) _
               identity expires_at); [by split|try done..].
    + by rewrite Hres.
    + exact (ae_payload _ _ _ _ _ _ _ _ _ Henv).
  - done.
Qed.
End Completeness.

(** ** An example

    A token of the example issuer, validated against an empty cache. *)

Module ValidatorExample.
Definition header_text : bytes := json_text "{'alg':'ES256','typ':'at+jwt','kid':'k1'}".
Definition payload_text : bytes := json_text "{'iss':'https://idp.example','sub':'user-7'}".
Definition header : Json :=
  JObject [(B "alg", JString (B "ES256")); (B "typ", JString (B "at+jwt"));
           (B "kid", JString (B "k1"))].
Definition documents : list (bytes * Json) :=
  [(IssuerKeyExample.metadata_document,
    JObject [(B "issuer", JString IssuerKeyExample.issuer);
             (B "jwks_uri", JString IssuerKeyExample.jwks_url)]);
   (JwksExample.document, JwksExample.key_set_value);
   (header_text, header); (payload_text, ClaimsExample.payload)].

#[export] Instance lib : Jansson := reference_jansson_with (fun _ => Some (B "c2ln")) documents.
#[export] Instance lib_text : JanssonText lib.
Proof. apply reference_jansson_text. vm_compute. reflexivity. Qed.
#[export] Instance ssl : OpenSsl := reference_openssl.
#[export] Instance curl : CurlUrl := IssuerKeyExample.curl.
#[export] Instance libjwt : LibJwt := SignatureExample.libjwt.
#[export] Instance libjwt_verify : LibJwtVerify libjwt := SignatureExample.libjwt_verify.

Definition token : bytes :=
  base64url_encode_blocks header_text ++ dot :: base64url_encode_blocks payload_text ++ dot ::
  B "c2ln".

Definition policy : PgOAuthValidatorPolicy :=
  {| vp_envelope := EnvelopeExample.policy; vp_issuer_key := IssuerKeyExample.policy;
     vp_claims := ClaimsExample.policy;
     vp_identity := {| id_max_subject_size := 1024; id_max_authn_id_size := 1024 |} |}.

Definition memory : allocator :=
  {| al_envelope := fun _ _ => true; al_issuer_key := fun _ => true; al_jwk := plenty;
     al_signature := fun _ => true; al_identity := fun _ => true |}.

Definition validate (text : bytes) : prog (PgOAuthValidatorError * option PgOAuthValidatorResult) :=
  pg_oauth_validate_access_token_cached (fun _ => -1) memory (Some text)
    (Some IssuerKeyExample.metadata_url) (Some policy) (Some IssuerKeyExample.cache_policy)
    1000 900 (Some validator_result_zero).

Definition run (text : bytes) := replay (network_oracle IssuerKeyExample.network) (validate text).

Lemma run_exec text : exec (validate text) (fst (run text)) (fst (snd (run text)), snd (snd (run text))).
Proof.
  rewrite <- surjective_pairing.
  exact (replay_exec _ (validate text) (network_oracle_ok IssuerKeyExample.network)).
Qed.

Lemma run_accepts : fst (snd (run token)) = PG_OAUTH_VALIDATOR_OK.
Proof. vm_compute. reflexivity. Qed.

(** Another key's signature. *)
Definition forged : bytes :=
  base64url_encode_blocks header_text ++ dot :: base64url_encode_blocks payload_text ++ dot ::
  B "c2lo".

Lemma run_refuses : fst (snd (run forged)) = PG_OAUTH_VALIDATOR_SIGNATURE.
Proof. vm_compute. reflexivity. Qed.

Lemma validator_sound_witness :
  exists text p payload identity result,
    Some token = Some text /\ Some policy = Some p /\ snd (snd (run token)) = Some result /\
    vr_identity result = {| id_value := Some identity; id_length := zlen identity |} /\
    token_authenticated memory p (Some IssuerKeyExample.cache_policy)
      (Some IssuerKeyExample.metadata_url) text (fst (run token)) payload identity
      (vr_expires_at result).
Proof.
  apply (validator_sound (fun _ => -1) memory (Some token) (Some IssuerKeyExample.metadata_url)
    (Some policy) (Some IssuerKeyExample.cache_policy) 1000 900 validator_result_zero
    (fst (run token)) (snd (snd (run token)))).
  - intros j n Hj. exact (reference_integers_bounded documents j n Hj).
  - intros p [= <-]. split; vm_compute; discriminate.
  - rewrite <- run_accepts. exact (run_exec token).
Defined.

Lemma validator_fail_closed_witness :
  exists result, snd (snd (run forged)) = Some result /\
    first_failure (fst (snd (run forged))) result /\ vr_identity result = identity_zero.
Proof.
  destruct (validator_fail_closed (fun _ => -1) memory (Some forged)
    (Some IssuerKeyExample.metadata_url) (Some policy) (Some IssuerKeyExample.cache_policy) 1000 900
    validator_result_zero (fst (run forged)) (fst (snd (run forged))) (snd (snd (run forged)))
    (run_exec forged)) as (result & Hr & Hf & Hz & _).
  exists result. split; [exact Hr|]. split; [exact Hf|]. apply Hz. rewrite run_refuses. discriminate.
Defined.

Definition envelope : PgOAuthJwtEnvelope :=
  {| untrusted_header := Some (header : json_t);
     untrusted_payload := Some (ClaimsExample.payload : json_t);
     env_algorithm := 2; env_key_id := Some (B "k1") |}.

Definition fetch_key : prog (PgOAuthIssuerKeyError * option PgOAuthIssuerKeyResult) :=
  pg_oauth_issuer_key_fetch_cached (fun _ => -1) (fun _ => true) plenty
    (Some IssuerKeyExample.metadata_url) (cl_issuer ClaimsExample.policy) (Some (B "k1")) 2
    (Some IssuerKeyExample.policy) (Some IssuerKeyExample.cache_policy) 1000 900
    (Some issuer_key_result_zero).
Definition fetch_run := replay (network_oracle IssuerKeyExample.network) fetch_key.
Definition key : PgOAuthIssuerKeyResult :=
  default issuer_key_result_zero (snd (snd fetch_run)).

Lemma fetch_key_run : exec fetch_key (fst fetch_run) (PG_OAUTH_ISSUER_KEY_OK, Some key).
Proof.
  assert (fst (snd fetch_run) = PG_OAUTH_ISSUER_KEY_OK) as Hok by (vm_compute; reflexivity).
  assert (match snd (snd fetch_run) with Some _ => true | None => false end = true) as Hs
    by (vm_compute; reflexivity).
  pose proof (replay_exec _ fetch_key (network_oracle_ok IssuerKeyExample.network)) as He.
  change (replay _ fetch_key) with fetch_run in He. revert He. unfold key.
  generalize (fst fetch_run) as t. intros t. destruct (snd fetch_run) as [e [r|]];
    cbn [fst snd] in Hok, Hs |- *; [|discriminate Hs]. subst e. intros He. exact He.
Qed.

Definition parts (e : PgOAuthJwtEnvelopeError + PgOAuthJwtEnvelope)
  : option Json * option Json * Z * option bytes :=
  match e with
  | inr e => (untrusted_header e, untrusted_payload e, env_algorithm e, env_key_id e)
  | inl _ => (None, None, 0, None)
  end.

Lemma token_parses :
  envelope_parse_token (fun _ _ => true) token EnvelopeExample.policy = inr envelope.
Proof.
  assert (parts (envelope_parse_token (fun _ _ => true) token EnvelopeExample.policy) =
    (Some header, Some ClaimsExample.payload, 2, Some (B "k1"))) as Hp by (vm_compute; reflexivity).
  revert Hp. generalize (envelope_parse_token (fun _ _ => true) token EnvelopeExample.policy).
  intros [e|[h p a k]]; unfold parts, envelope;
    cbn [untrusted_header untrusted_payload env_algorithm env_key_id]; [discriminate|].
  intros Hp. injection Hp as -> -> -> ->. reflexivity.
Qed.

Lemma envelope_accepted : exists h pl s,
  accepted_envelope EnvelopeExample.policy token envelope h pl s (header : json_t)
    (ClaimsExample.payload : json_t) (B "k1").
Proof.
  destruct (envelope_parse_token_sound _ _ _ _ token_parses) as (h & pl & s & hd & pay & kid & Ha).
  exists h, pl, s. pose proof (ae_result _ _ _ _ _ _ _ _ _ Ha) as Hr.
  apply (f_equal inr), (f_equal parts) in Hr. unfold parts, envelope in Hr.
  cbn [untrusted_header untrusted_payload env_algorithm env_key_id] in Hr.
  injection Hr as <- <- <-. exact Ha.
Qed.

Lemma claims_ok : claims_accepted ClaimsExample.policy (Some (ClaimsExample.payload : json_t))
  (B "a@example.org") 1000.
Proof.
  apply (claims_validate_iff _ _ claims_zero).
  1: intros j n Hj; exact (reference_integers_bounded documents j n Hj).
  all: by vm_compute.
Qed.

Lemma validator_complete_witness :
  exists result,
    exec (validate token) (fst fetch_run) (PG_OAUTH_VALIDATOR_OK, Some result) /\
    vr_identity result = {| id_value := Some (B "a@example.org"); id_length := 13 |} /\
    vr_expires_at result = 1000.
Proof.
  destruct envelope_accepted as (h & pl & s & Ha).
  apply (validator_complete (J := lib) (fun _ => -1) memory token IssuerKeyExample.metadata_url policy
    (Some IssuerKeyExample.cache_policy) 1000 900 validator_result_zero (fst fetch_run) envelope
    h pl s header ClaimsExample.payload (B "k1") key (B "a@example.org") 1000).
  - done.
  - done.
  - intros j n Hj. exact (reference_integers_bounded documents j n Hj).
  - vm_compute. discriminate.
  - vm_compute. reflexivity.
  - vm_compute. reflexivity.
  - vm_compute. discriminate.
  - vm_compute. discriminate.
  - vm_compute. discriminate.
  - vm_compute. discriminate.
  - vm_compute. reflexivity.
  - exact Ha.
  - exact fetch_key_run.
  - vm_compute. reflexivity.
  - exact claims_ok.
Defined.
End ValidatorExample.
