(* ===== verification/Callback.v ===== *)
(** * The validator module (src/pg_oauth_validator.c)

    The callback PostgreSQL calls with a bearer token and the requested role: it
    reads the matched HBA rule and the settings, builds the policies of all
    stages, attaches to the shared cache, runs the pipeline and reports the
    decision.  The backend it runs in (settings, clocks, shared memory, pending
    interrupts) is a record; the theorems are about every backend and every
    token. *)

From S2P Require Import Prelude Base64url Identity Jansson Envelope Claims Jwks CacheState.
From S2P Require Import CacheKey Policy Freshness Transport Metadata Signature IssuerKey.
From S2P Require Import SharedCache Validator.

(** ** Data *)

Definition PG_OAUTH_MAX_URL_SIZE : Z := 2048.
Definition PG_OAUTH_MAX_DOCUMENT_SIZE : Z := 65536.
Definition PG_OAUTH_MAX_IDENTITY_SIZE : Z := 1024.
Definition PG_OAUTH_HTTP_CONNECT_TIMEOUT_MS : Z := 2000.
Definition PG_OAUTH_HTTP_TOTAL_TIMEOUT_MS : Z := 5000.

(** The result PostgreSQL reads; [error_detail] exists from version 19 on. *)
Record ValidatorModuleResult := {
  mr_authorized : bool;
  mr_authn_id : option bytes;
  mr_error_detail : option bytes
}.

(** What the callback finds in its backend: the server's version and
    NAMEDATALEN, the matched HBA rule with the value of its option, the
    settings, the shared memory, the answers of [clock_gettime] ([None] when it
    fails, seconds and nanoseconds otherwise) and [time], and whether an
    interrupt is pending once the pipeline has returned. *)
Record backend := {
  be_pg19 : bool;
  be_namedatalen : Z;
  be_hba : option HbaLine;
  be_policy_option : option bytes;
  be_gucs : Gucs;
  be_shared : shared_env;
  be_clock_monotonic : option (Z * Z);
  be_time : Z;
  be_interrupt_pending : bool
}.

(** ** Definitions *)

Definition result_denied : ValidatorModuleResult :=
  {| mr_authorized := false; mr_authn_id := None; mr_error_detail := None |}.

Definition pg_oauth_metadata_url (issuer : option bytes) : option bytes :=
  match issuer with
  | None => None
  | Some issuer =>
      let issuer := c_str issuer in
      let length := zlen issuer in
      if (length =? 0) || (PG_OAUTH_MAX_URL_SIZE <? length) then None
      else
        let suffix := if bool_decide (List.last issuer x00 = x2f)
                      then B ".well-known/openid-configuration"
                      else B "/.well-known/openid-configuration" in
        if PG_OAUTH_MAX_URL_SIZE - length <? zlen suffix then None
        else Some (issuer ++ suffix)
  end.

Definition pg_oauth_monotonic_ms (now : option (Z * Z)) : option Z :=
  match now with
  | None => None
  | Some (tv_sec, tv_nsec) =>
      if (tv_sec <? 0) || (INT64_MAX / 1000 <? tv_sec) then None
      else Some (i64 (i64 (tv_sec * 1000) + Z.quot tv_nsec 1000000))
  end.

(** The options the module registers on a server that has them. *)
Definition pg_oauth_hba_policy_register_options : list bytes := [B "policy"].
Definition pg_oauth_validator_startup : list bytes := pg_oauth_hba_policy_register_options.

(** The loop that measures the token: it stops at the terminator (the end of the
    list, or a NUL in it) and one byte past the maximum. *)
Fixpoint token_length_loop (max_token_size : Z) (token : bytes) (token_length : Z) : Z :=
  match token with
  | [] => token_length
  | c :: rest =>
      if (token_length <=? max_token_size) && negb (bool_decide (c = x00))
      then token_length_loop max_token_size rest (token_length + 1)
      else token_length
  end.

Definition http_policy_for (policy : PgOAuthValidationPolicy) (host additional : option bytes)
  : PgOAuthHttpPolicy :=
  {| hp_max_url_size := PG_OAUTH_MAX_URL_SIZE;
     hp_max_response_size := PG_OAUTH_MAX_DOCUMENT_SIZE;
     hp_connect_timeout_ms := PG_OAUTH_HTTP_CONNECT_TIMEOUT_MS;
     hp_total_timeout_ms := PG_OAUTH_HTTP_TOTAL_TIMEOUT_MS;
     hp_allowed_host := host; hp_additional_allowed_hosts := additional;
     hp_ca_file := if is_nonempty (vp_ca_file policy) then vp_ca_file policy else None;
     hp_allow_insecure_http := vp_allow_insecure_http policy; hp_cancel_requested := true |}.

Definition validator_policy_for (namedatalen : Z) (policy : PgOAuthValidationPolicy)
  (metadata_host role : option bytes) (wall_time : Z) : PgOAuthValidatorPolicy :=
  {| vp_envelope :=
       {| env_max_token_size := vp_max_token_size policy; env_max_header_size := 4096;
          env_max_payload_size := vp_max_token_size policy;
          env_allowed_algorithms := vp_allowed_algorithms policy;
          env_allowed_token_types := vp_allowed_token_types policy;
          env_allow_missing_token_type := vp_allow_missing_token_type policy |};
     vp_issuer_key :=
       {| ikp_metadata_http := http_policy_for policy metadata_host None;
          ikp_metadata := {| mp_max_document_size := PG_OAUTH_MAX_DOCUMENT_SIZE;
                             mp_max_url_size := PG_OAUTH_MAX_URL_SIZE;
                             mp_allow_insecure_http := vp_allow_insecure_http policy |};
          ikp_jwks_http := http_policy_for policy metadata_host (vp_allowed_jwks_hosts policy);
          ikp_jwks := {| jp_max_jwks_size := PG_OAUTH_MAX_DOCUMENT_SIZE; jp_max_keys := 16;
                         jp_max_key_id_size := 1024;
                         jp_allowed_algorithms := vp_allowed_algorithms policy;
                         jp_minimum_rsa_bits := 2048; jp_maximum_rsa_bits := 8192 |} |};
     vp_claims :=
       {| cl_issuer := vp_issuer policy; cl_audiences := vp_audiences policy;
          cl_required_scopes := vp_required_scopes policy;
          cl_identity_claim := vp_identity_claim policy; cl_role_claim := vp_role_claim policy;
          cl_requested_role := role; cl_current_time := wall_time;
          cl_clock_skew_seconds := u32 (Z.quot (vp_clock_skew_ms policy) 1000);
          cl_max_identity_size := namedatalen - 1;
          cl_max_subject_size := PG_OAUTH_MAX_IDENTITY_SIZE; cl_max_audiences := 16;
          cl_max_scopes := 64; cl_max_roles := 64; cl_max_role_size := namedatalen - 1 |};
     vp_identity := {| id_max_subject_size := namedatalen - 1;
                       id_max_authn_id_size := namedatalen - 1 |} |}.

Definition cache_policy_for (policy : PgOAuthValidationPolicy) (io : option PgOAuthCacheIo)
  : PgOAuthIssuerKeyCachePolicy :=
  {| cp_io := io;
     cp_key_policy :=
       {| ck_resource := 0; ck_issuer := None; ck_metadata_url := None; ck_jwks_url := None;
          ck_policy_name := vp_name policy; ck_required_scopes := vp_required_scopes policy;
          ck_audiences := vp_audiences policy;
          ck_allowed_token_types := vp_allowed_token_types policy;
          ck_allow_missing_token_type := vp_allow_missing_token_type policy;
          ck_identity_claim := vp_identity_claim policy; ck_role_claim := vp_role_claim policy;
          ck_allowed_jwks_hosts := vp_allowed_jwks_hosts policy; ck_ca_file := vp_ca_file policy;
          ck_allowed_algorithms := vp_allowed_algorithms policy;
          ck_clock_skew_ms := u32 (vp_clock_skew_ms policy);
          ck_max_token_size := u32 (vp_max_token_size policy);
          ck_max_metadata_size := PG_OAUTH_MAX_DOCUMENT_SIZE;
          ck_max_jwks_size := PG_OAUTH_MAX_DOCUMENT_SIZE; ck_max_jwks_keys := 16;
          ck_minimum_rsa_bits := 2048; ck_maximum_rsa_bits := 8192;
          ck_jwks_stale_grace_ms := u64 (vp_jwks_stale_grace_ms policy);
          ck_metadata_default_ttl_ms := u64 (vp_metadata_default_ttl_ms policy);
          ck_jwks_default_ttl_ms := u64 (vp_jwks_default_ttl_ms policy);
          ck_cache_max_ttl_ms := u64 (vp_cache_max_ttl_ms policy);
          ck_unknown_kid_refresh_cooldown_ms := u64 (vp_unknown_kid_refresh_cooldown_ms policy);
          ck_allow_insecure_http := vp_allow_insecure_http policy |};
     cp_metadata_freshness := {| fp_default_ttl_ms := vp_metadata_default_ttl_ms policy;
                                 fp_maximum_ttl_ms := vp_cache_max_ttl_ms policy |};
     cp_jwks_freshness := {| fp_default_ttl_ms := vp_jwks_default_ttl_ms policy;
                             fp_maximum_ttl_ms := vp_cache_max_ttl_ms policy |};
     cp_jwks_stale_grace_ms := vp_jwks_stale_grace_ms policy;
     cp_unknown_kid_refresh_cooldown_ms := vp_unknown_kid_refresh_cooldown_ms policy;
     cp_refresh_wait_timeout_ms := vp_refresh_wait_timeout_ms policy |}.

(** A [PgOAuthCacheIo] before it is filled in. *)
Definition cache_io_unset : PgOAuthCacheIo :=
  {| io_lookup := false; io_begin_refresh := false; io_wait_refresh := false;
     io_complete_refresh := false |}.

Section Callback.
Context `{Jansson} `{OpenSsl} `{CurlUrl} `{LibJwt} `{NamedDsm}.
Context (curl_getdate : bytes -> Z) (malloc : allocator) (host_malloc : Z -> bool).

(** The policy the callback works with, and the time, URL and host it needs
    before it looks at the token; [None] where it returns false. *)
Record prepared := {
  pr_policy : PgOAuthValidationPolicy;
  pr_cache_io : option PgOAuthCacheIo;
  pr_monotonic_ms : Z;
  pr_metadata_url : bytes;
  pr_metadata_host : option bytes
}.

Definition prepare (b : backend) : option prepared * shared_env :=
  match pg_oauth_hba_policy_read (be_hba b) (be_policy_option b) with
  | (false, _) => (None, be_shared b)
  | (true, hba_policy) =>
      match pg_oauth_policy_build (Some (pg_oauth_config_snapshot (be_gucs b)))
              (Some hba_policy) (Some policy_zero) with
      | (PG_OAUTH_POLICY_OK, Some policy) =>
          let '(configured, e) := pg_oauth_shared_cache_configure_capacity
                                    (pg_oauth_config_cache_max_entries (be_gucs b))
                                    (be_shared b) in
          if negb configured then (None, e)
          else
            let '(ready, cache_io, e) := pg_oauth_shared_cache_io (Some cache_io_unset) e in
            if negb ready then (None, e)
            else match pg_oauth_monotonic_ms (be_clock_monotonic b) with
            | None => (None, e)
            | Some monotonic_ms =>
                match pg_oauth_metadata_url (vp_issuer policy) with
                | None => (None, e)
                | Some metadata_url =>
                    match pg_oauth_http_url_host host_malloc (Some metadata_url)
                            PG_OAUTH_MAX_URL_SIZE (vp_allow_insecure_http policy) with
                    | (PG_OAUTH_HTTP_OK, metadata_host) =>
                        (if be_time b <? 0 then None
                         else Some {| pr_policy := policy; pr_cache_io := cache_io;
                                      pr_monotonic_ms := monotonic_ms;
                                      pr_metadata_url := metadata_url;
                                      pr_metadata_host := metadata_host |}, e)
                    | _ => (None, e)
                    end
                end
            end
      | _ => (None, be_shared b)
      end
  end.

Definition rejected (b : backend) : bool * ValidatorModuleResult :=
  (true, {| mr_authorized := false; mr_authn_id := None;
            mr_error_detail := if be_pg19 b then Some (B "OAuth access token validation failed")
                               else None |}).

(** What is reported after the pipeline. *)
Definition decide_result (b : backend)
  (answer : PgOAuthValidatorError * option PgOAuthValidatorResult)
  : bool * ValidatorModuleResult :=
  let '(validation_error, validation) := answer in
  if be_interrupt_pending b then (false, result_denied)
  else if negb (bool_decide (validation_error = PG_OAUTH_VALIDATOR_OK)) then rejected b
  else (true, {| mr_authorized := true;
                 mr_authn_id := c_str <$> (validation ≫= id_value ∘ vr_identity);
                 mr_error_detail := None |}).

(** The second component is the shared memory as the pipeline finds it. *)
Definition pg_oauth_validator_validate (b : backend) (token role : option bytes)
  : prog (bool * ValidatorModuleResult) * shared_env :=
  match prepare b with
  | (None, e) => (Ret (false, result_denied), e)
  | (Some p, e) =>
      (match token with
       | None => Ret (rejected b)
       | Some token =>
           let maximum := vp_max_token_size (pr_policy p) in
           let token_length := token_length_loop maximum token 0 in
           if (token_length =? 0) || (maximum <? token_length) then Ret (rejected b)
           else
             bind (pg_oauth_validate_access_token_cached curl_getdate malloc
                     (Some (take (Z.to_nat token_length) token)) (Some (pr_metadata_url p))
                     (Some (validator_policy_for (be_namedatalen b) (pr_policy p)
                              (pr_metadata_host p) role (be_time b)))
                     (Some (cache_policy_for (pr_policy p) (pr_cache_io p)))
                     (pr_monotonic_ms p) (be_time b) (Some validator_result_zero))
               (fun answer => Ret (decide_result b answer))
       end, e)
  end.
End Callback.

(** ** The parts *)

#[local] Arguments pg_oauth_policy_build : simpl never.
#[local] Arguments pg_oauth_http_url_host : simpl never.
#[local] Arguments pg_oauth_validate_access_token_cached : simpl never.

Lemma token_length_loop_spec maximum token k :
  token_length_loop maximum token k =
  k + Z.min (zlen (c_str token)) (Z.max 0 (maximum + 1 - k)).
Proof.
  revert k. induction token as [|c token IH]; intros k; cbn [token_length_loop c_str].
  { change (zlen []) with 0. lia. }
  destruct (bool_decide (c = x00)); cbn [negb].
  { rewrite andb_false_r. change (zlen []) with 0. lia. }
  rewrite andb_true_r, zlen_cons. pose proof (zlen_nonneg (c_str token)).
  destruct (Z.leb_spec k maximum); [rewrite IH|]; lia.
Qed.

Lemma c_str_take token : take (length (c_str token)) token = c_str token.
Proof.
  induction token as [|c token IH]; [done|]. cbn [c_str].
  destruct (bool_decide (c = x00)); [done|]. simpl. by rewrite IH.
Qed.

(** A token within the bound is measured, and passed on, as the C string it is. *)
Lemma token_measured maximum token :
  token_length_loop maximum token 0 <= maximum ->
  token_length_loop maximum token 0 = zlen (c_str token) /\
  take (Z.to_nat (token_length_loop maximum token 0)) token = c_str token.
Proof.
  rewrite token_length_loop_spec. pose proof (zlen_nonneg (c_str token)). intros Hl.
  assert (0 + Z.min (zlen (c_str token)) (Z.max 0 (maximum + 1 - 0)) = zlen (c_str token)) as -> by lia.
  split; [done|]. unfold zlen. rewrite Nat2Z.id. apply c_str_take.
Qed.

Definition hba_inputs (line : HbaLine) (name : option bytes) : PgOAuthHbaPolicy :=
  {| hba_issuer := oauth_issuer line; hba_required_scopes := oauth_scope line;
     hba_policy_name := name; hba_delegate_ident_mapping := oauth_skip_usermap line |}.

(** [policy] is the policy of the backend's HBA rule and settings. *)
Definition policy_in_force (b : backend) (line : HbaLine) (policy : PgOAuthValidationPolicy)
  : Prop :=
  be_hba b = Some line /\
  exists algorithms token_types,
    settings_ok (pg_oauth_config_snapshot (be_gucs b)) (hba_inputs line (be_policy_option b))
      algorithms token_types /\
    policy_reflects (pg_oauth_config_snapshot (be_gucs b)) (hba_inputs line (be_policy_option b))
      algorithms token_types policy.

Lemma policy_in_force_of b line policy :
  policy_in_force b line policy ->
  be_hba b = Some line /\
  exists algorithms token_types,
    settings_ok (pg_oauth_config_snapshot (be_gucs b)) (hba_inputs line (be_policy_option b))
      algorithms token_types /\
    policy = policy_of (pg_oauth_config_snapshot (be_gucs b)) (hba_inputs line (be_policy_option b))
               algorithms token_types.
Proof.
  intros (Hb & algorithms & types & Hs & Hp%policy_reflects_iff). split; [done|].
  by exists algorithms, types.
Qed.

(** An issuer without its trailing slash, if it has one. *)
Definition strip_slash (issuer : bytes) : bytes :=
  if bool_decide (List.last issuer x00 = x2f) then removelast issuer else issuer.

Lemma bounded_url (i suffix url : bytes) :
  (if (zlen i =? 0) || (PG_OAUTH_MAX_URL_SIZE <? zlen i) then None
   else if PG_OAUTH_MAX_URL_SIZE - zlen i <? zlen suffix then None else Some (i ++ suffix)) =
    Some url <->
  i <> [] /\ zlen url <= PG_OAUTH_MAX_URL_SIZE /\ url = i ++ suffix.
Proof.
  pose proof (zlen_nonneg i). pose proof (zlen_nonneg suffix). rewrite <- zlen_nil.
  destruct (_ || _) eqn:E1; [|destruct (Z.ltb_spec (PG_OAUTH_MAX_URL_SIZE - zlen i) (zlen suffix))].
  - split; [done|]. intros (? & Hz & ->). rewrite zlen_app in Hz. lia.
  - split; [done|]. intros (? & Hz & ->). rewrite zlen_app in Hz. lia.
  - split; [|by intros (_ & _ & ->)]. intros [= <-]. rewrite zlen_app. split_and!; [lia..|done].
Qed.

(** The well-known document below an issuer. *)
Definition discovery_url (issuer : bytes) : bytes :=
  strip_slash issuer ++ B "/.well-known/openid-configuration".

(** The discovery URL.  For an issuer with or without a trailing slash the
    module asks exactly the well-known document below it, provided the URL is
    within 2048 bytes; otherwise (or without an issuer) there is no URL, and the
    arithmetic on the sizes never underflows. *)
Theorem metadata_url_correct issuer url :
  pg_oauth_metadata_url (Some issuer) = Some url <->
  c_str issuer <> [] /\ zlen url <= PG_OAUTH_MAX_URL_SIZE /\
  url = discovery_url (c_str issuer).
Proof.
  unfold pg_oauth_metadata_url, discovery_url, strip_slash. set (i := c_str issuer).
  rewrite bounded_url. case_bool_decide as Hl; [|done].
  enough (i <> [] -> i ++ B ".well-known/openid-configuration" =
    removelast i ++ B "/.well-known/openid-configuration") as Hu.
  { split; intros (Hne & ? & ->); rewrite (Hu Hne) in *; done. }
  intros Hne. pose proof (app_removelast_last x00 Hne) as Hi. rewrite Hl in Hi.
  rewrite Hi at 1. by rewrite <- app_assoc.
Qed.

Section Parts.
Context `{U : CurlUrl} `{D : NamedDsm} (host_malloc : Z -> bool).

Lemma hba_read_ok hba name policy :
  pg_oauth_hba_policy_read hba name = (true, policy) ->
  exists line, hba = Some line /\ policy = hba_inputs line name.
Proof.
  unfold pg_oauth_hba_policy_read. destruct hba as [line|]; [|done].
  destruct (_ || _); [done|]. intros [= <-]. eauto.
Qed.

Lemma policy_build_ok config hba policy :
  pg_oauth_policy_build (Some config) (Some hba) (Some policy_zero) =
    (PG_OAUTH_POLICY_OK, Some policy) ->
  exists algorithms token_types, settings_ok config hba algorithms token_types /\
    policy = policy_of config hba algorithms token_types.
Proof.
  unfold pg_oauth_policy_build.
  destruct (policy_checks config hba) as [e|[algorithms types]] eqn:E.
  - intros [= -> _]. by apply policy_checks_error in E.
  - intros [= <-]. apply policy_checks_sound in E. eauto.
Qed.

Lemma shared_io_ready io e ready io' e' :
  pg_oauth_shared_cache_io (Some io) e = (ready, io', e') ->
  ready = true ->
  io' = Some {| io_lookup := true; io_begin_refresh := true; io_wait_refresh := true;
                io_complete_refresh := true |} /\
  pg_oauth_shared_cache_attach e = (true, e').
Proof.
  unfold pg_oauth_shared_cache_io. destruct (pg_oauth_shared_cache_attach e) as [[] e1]; simpl.
  - by intros [= <- <- <-].
  - by intros [= <- <- <-].
Qed.

Lemma prepare_ok b p e :
  prepare host_malloc b = (Some p, e) ->
  exists line, policy_in_force b line (pr_policy p) /\
    pr_cache_io p = Some {| io_lookup := true; io_begin_refresh := true; io_wait_refresh := true;
                            io_complete_refresh := true |} /\
    pg_oauth_monotonic_ms (be_clock_monotonic b) = Some (pr_monotonic_ms p) /\
    pg_oauth_metadata_url (oauth_issuer line) = Some (pr_metadata_url p) /\
    pg_oauth_http_url_host host_malloc (Some (pr_metadata_url p)) PG_OAUTH_MAX_URL_SIZE
      (vp_allow_insecure_http (pr_policy p)) = (PG_OAUTH_HTTP_OK, pr_metadata_host p) /\
    0 <= be_time b /\
    8 <= oauth_cache_max_entries (be_gucs b) <= 256 /\
    (forall s, sv_segment (be_shared b) = Some s ->
       ss_capacity s = oauth_cache_max_entries (be_gucs b) /\
       (sv_attached (be_shared b) = false ->
          ss_magic s = PG_OAUTH_SHARED_CACHE_MAGIC /\ ss_version s = PG_OAUTH_SHARED_CACHE_VERSION)).
Proof.
  unfold prepare.
  destruct (pg_oauth_hba_policy_read _ _) as [[] hba] eqn:Eh; [|done].
  apply hba_read_ok in Eh as (line & Hb & ->).
  destruct (pg_oauth_policy_build _ _ _) as [pe [policy|]] eqn:Ep; [|by destruct pe].
  destruct (decide (pe = PG_OAUTH_POLICY_OK)) as [->|Hn]; [|by destruct pe].
  pose proof (policy_build_ok _ _ _ Ep) as (algorithms & types & Hs & Hpol).
  destruct (pg_oauth_shared_cache_configure_capacity _ _) as [[] e1] eqn:Ecfg; [|done]. cbn [negb].
  destruct (pg_oauth_shared_cache_io _ e1) as [[[] io] e2] eqn:Eio; [|done]. cbn [negb].
  apply shared_io_ready in Eio as [Eio Hatt]; [|done].
  destruct (configured_segment _ _ _ _ Ecfg Hatt) as [Hcap Hseg].
  change (pg_oauth_config_cache_max_entries ?g) with (oauth_cache_max_entries g) in *.
  destruct (pg_oauth_monotonic_ms _) as [ms|] eqn:Em; [|done].
  destruct (pg_oauth_metadata_url _) as [url|] eqn:Eu; [|done].
  destruct (pg_oauth_http_url_host _ _ _ _) as [he host] eqn:Ehost.
  destruct (decide (he = PG_OAUTH_HTTP_OK)) as [->|Hn]; [|by destruct he].
  destruct (Z.ltb_spec (be_time b) 0); [done|]. intros [= <- <-]. exists line.
  subst policy. split_and!; try (done || lia). split; [done|]. exists algorithms, types.
  split; [done|]. by apply policy_reflects_iff.
Qed.
End Parts.

(** ** Misconfiguration *)

Section Misconfiguration.
Context `{U : CurlUrl} `{D : NamedDsm} (host_malloc : Z -> bool).




Lemma discovery_url_text issuer : c_str (discovery_url (c_str issuer)) = discovery_url (c_str issuer).
Proof.
  apply c_str_id. unfold discovery_url, strip_slash. rewrite elem_of_app. intros [Hin|Hin].
  - apply (c_str_no_nul issuer). case_bool_decide; [|done].
    destruct (decide (c_str issuer = [])) as [E|E]; [rewrite E in Hin; by apply not_elem_of_nil in Hin|].
    rewrite (app_removelast_last x00 E), elem_of_app. by left.
  - apply list_elem_of_In in Hin. vm_compute in Hin. intuition discriminate.
Qed.







End Misconfiguration.

Section Runs.
Context `{J : Jansson} `{S : OpenSsl} `{U : CurlUrl} `{L : LibJwt} `{D : NamedDsm}.
Context (curl_getdate : bytes -> Z) (malloc : allocator) (host_malloc : Z -> bool).

(** A token that is present, not empty and within the bound. *)
Definition token_in_bounds (p : prepared) (token : option bytes) (text : bytes) : Prop :=
  c_str <$> token = Some text /\ text <> [] /\ zlen text <= vp_max_token_size (pr_policy p).

(** The pipeline as the callback runs it. *)
Definition pipeline (b : backend) (p : prepared) (text : bytes) (role : option bytes) :=
  pg_oauth_validate_access_token_cached curl_getdate malloc (Some text)
    (Some (pr_metadata_url p))
    (Some (validator_policy_for (be_namedatalen b) (pr_policy p) (pr_metadata_host p) role
             (be_time b)))
    (Some (cache_policy_for (pr_policy p) (pr_cache_io p))) (pr_monotonic_ms p) (be_time b)
    (Some validator_result_zero).

Lemma token_check maximum token :
  (token_length_loop maximum token 0 =? 0) || (maximum <? token_length_loop maximum token 0) = false ->
  c_str token <> [] /\ zlen (c_str token) <= maximum.
Proof.
  intros Hb. prop_bools. apply Z.ltb_ge in H0. destruct (token_measured _ _ H0) as [Hl _].
  rewrite Hl in *. apply Z.eqb_neq in H. rewrite zlen_nil in H. done.
Qed.


(** The three ways a call of the callback can go. *)
Lemma callback_runs b token role tr out :
  exec (fst (pg_oauth_validator_validate curl_getdate malloc host_malloc b token role)) tr out ->
  match prepare host_malloc b with
  | (None, _) => tr = [] /\ out = (false, result_denied)
  | (Some p, _) =>
      (tr = [] /\ out = rejected b /\ (forall text, ~ token_in_bounds p token text)) \/
      exists text answer, token_in_bounds p token text /\
        exec (pipeline b p text role) tr answer /\ out = decide_result b answer
  end.
Proof.
  unfold pg_oauth_validator_validate. destruct (prepare host_malloc b) as [[p|] e]; cbn [fst]; [|done].
  destruct token as [token|].
  2:{ intros [-> ->]. left. split_and!; [done..|]. by intros text [? _]. }
  destruct (_ || _) eqn:Eb.
  - intros [-> ->]. left. split_and!; [done..|]. intros text ([= <-] & Hne & Hl).
    rewrite token_length_loop_spec in Eb. pose proof (zlen_nonneg (c_str token)).
    rewrite <- zlen_nil in Hne. lia.
  - intros He. apply token_check in Eb as [Hne Hl]. right.
    assert (token_length_loop (vp_max_token_size (pr_policy p)) token 0 <=
      vp_max_token_size (pr_policy p)) as Hm by (rewrite token_length_loop_spec; lia).
    destruct (token_measured _ _ Hm) as [_ Ht]. rewrite Ht in He.
    apply exec_bind in He as (t1 & t2 & answer & -> & He & [-> ->]). rewrite app_nil_r.
    exists (c_str token), answer. by split_and!.
Qed.
End Runs.

(** ** The policies fit the stages *)

Lemma mask_bits code l bits :
  0 <= bits -> Forall (fun e => is_Some (code e)) l ->
  (forall e c, code e = Some c -> 0 < c /\ Z.land c (Z.lnot bits) = 0) ->
  0 <= mask code l /\ (l <> [] -> 0 < mask code l) /\ Z.land (mask code l) (Z.lnot bits) = 0.
Proof.
  intros Hbits Hl Hc. induction Hl as [|e l [c Hce] _ (H1 & _ & H3)]; [by split_and!|].
  simpl. rewrite Hce. simpl. destruct (Hc _ _ Hce) as [Hpos Hland].
  assert (0 <= Z.lor c (mask code l)) as Hn by (apply Z.lor_nonneg; lia).
  split_and!; [done| |].
  - intros _. assert (Z.lor c (mask code l) <> 0); [|lia]. rewrite Z.lor_eq_0_iff. lia.
  - by rewrite Z.land_lor_distr_l, Hland, H3.
Qed.

Lemma names_mask code value m bits :
  0 <= bits -> names_of code value m ->
  (forall e c, code e = Some c -> 0 < c /\ Z.land c (Z.lnot bits) = 0) ->
  0 < m /\ Z.land m (Z.lnot bits) = 0.
Proof.
  intros Hb (_ & Hf & _ & ->) Hc. destruct (mask_bits _ _ _ Hb Hf Hc) as (_ & H2 & H3).
  split; [|done]. apply H2, entries_nonempty.
Qed.

Lemma algorithms_positive value m : names_of algorithm_code value m -> 0 < m.
Proof.
  intros Hn. apply (names_mask _ _ _ 7) in Hn; [tauto|lia|].
  unfold algorithm_code. intros e c Hc. guards; by vm_compute.
Qed.

Lemma token_types_bits value m :
  names_of token_type_code value m -> 0 < m /\ Z.land m (Z.lnot PG_OAUTH_TOKEN_TYPES_ALL) = 0.
Proof.
  intros Hn. apply (names_mask _ _ _ PG_OAUTH_TOKEN_TYPES_ALL) in Hn; [done|by vm_compute|].
  unfold token_type_code. intros e c Hc. guards; by vm_compute.
Qed.

Lemma u32_small z : 0 <= z < 2 ^ 32 -> u32 z = z.
Proof. intros Hz. unfold u32. by apply Z.mod_small. Qed.

Section Fit.
Context (b : backend) (line : HbaLine) (policy : PgOAuthValidationPolicy).
Hypothesis in_force : policy_in_force b line policy.
Context (host role : option bytes).
Let vp := validator_policy_for (be_namedatalen b) policy host role (be_time b).

Lemma envelope_policy_fits : envelope_policy_invalid (vp_envelope vp) = false.
Proof.
  destruct (policy_in_force_of _ _ _ in_force) as (_ & algorithms & types & Hs & ->).
  pose proof (algorithms_positive _ _ (so_algorithms _ _ _ _ Hs)).
  pose proof (token_types_bits _ _ (proj1 (so_types _ _ _ _ Hs))) as [? Hbits].
  pose proof (so_token_size _ _ _ _ Hs). unfold envelope_policy_invalid. simpl in *.
  rewrite Hbits. lia.
Qed.

Lemma claims_policy_fits :
  1 < be_namedatalen b -> 0 <= be_time b ->
  (oauth_skip_usermap line = true -> is_nonempty role = true) ->
  valid_policy (vp_claims vp) = true.
Proof.
  intros Hn Ht Hr. destruct (policy_in_force_of _ _ _ in_force) as (_ & algorithms & types & Hs & ->).
  pose proof (so_clock_skew _ _ _ _ Hs) as Hskew. pose proof (so_delegation _ _ _ _ Hs) as Hd.
  destruct (so_role _ _ _ _ Hs) as [Hrs _]. simpl in *.
  unfold valid_policy. simpl.
  rewrite (so_issuer _ _ _ _ Hs : is_nonempty (oauth_issuer line) = true).
  rewrite (so_scopes _ _ _ _ Hs : is_nonempty (oauth_scope line) = true).
  rewrite (proj1 (so_audiences _ _ _ _ Hs) : is_nonempty (oauth_audiences _) = true).
  rewrite (proj1 (so_identity _ _ _ _ Hs) : is_nonempty (oauth_identity_claim _) = true).
  rewrite bool_decide_eq_true_2 by done.
  assert (0 <= Z.quot (oauth_clock_skew_ms (be_gucs b)) 1000 <= 300) as Hq.
  { rewrite Z.quot_div_nonneg by lia. split; [apply Z.div_pos|apply Z.div_le_upper_bound]; lia. }
  rewrite u32_small by lia.
  assert (bool_decide (setting (oauth_role_claim (be_gucs b)) = []) || is_nonempty role = true) as Hor.
  { destruct (is_nonempty (oauth_role_claim (be_gucs b))) eqn:Erc.
    - rewrite Hr by done. apply orb_true_r.
    - apply nonempty_setting in Erc. by rewrite bool_decide_eq_true_2. }
  unfold PG_OAUTH_MAX_IDENTITY_SIZE.
  destruct (bool_decide _), (is_nonempty role); simpl in *; lia.
Qed.

Lemma cache_policy_fits :
  cache_policy_valid (Some (cache_policy_for policy
    (Some {| io_lookup := true; io_begin_refresh := true; io_wait_refresh := true;
             io_complete_refresh := true |}))) = true.
Proof.
  destruct (policy_in_force_of _ _ _ in_force) as (_ & algorithms & types & Hs & ->).
  pose proof (so_metadata_ttl _ _ _ _ Hs). pose proof (so_jwks_ttl _ _ _ _ Hs).
  pose proof (so_max_ttl _ _ _ _ Hs). pose proof (so_grace _ _ _ _ Hs).
  pose proof (so_cooldown _ _ _ _ Hs). pose proof (so_wait _ _ _ _ Hs).
  unfold cache_policy_valid. simpl in *. rewrite orb_true_r. lia.
Qed.

Lemma jwks_policy_fits `{Jansson} text envelope h pl s header payload key_id :
  accepted_envelope (vp_envelope vp) text envelope h pl s header payload key_id ->
  jwks_arguments_invalid (ikp_jwks (vp_issuer_key vp)) key_id (env_algorithm envelope) = false.
Proof.
  intros Ha. destruct (ae_key_id_ok _ _ _ _ _ _ _ _ _ Ha) as (Hne & Hl & Hc).
  assert (x00 ∉ key_id) as Hnul.
  { intros Hin. rewrite Forall_forall in Hc. by specialize (Hc _ Hin). }
  destruct (ae_algorithm _ _ _ _ _ _ _ _ _ Ha) as (name & _ & Hname).
  pose proof (ae_allowed _ _ _ _ _ _ _ _ _ Ha) as Hallow.
  rewrite <- zlen_nil in Hne. rewrite <- existsb_cntrl in Hc. pose proof (zlen_nonneg key_id).
  change (PG_OAUTH_JWT_MAX_KEY_ID_SIZE) with 1024 in Hl.
  unfold jwks_arguments_invalid, strlen. simpl in *. rewrite c_str_id by done. rewrite Hc.
  assert (vp_allowed_algorithms policy <> 0) as Hz.
  { intros Hz. rewrite Hz, Z.land_0_r in Hallow. done. }
  destruct Hname as [[_ E]|[[_ E]|[_ E]]]; rewrite E in *; simpl; lia.
Qed.

Lemma freshness_policy_fits curl_getdate cache_control date expires age old :
  0 <= be_time b ->
  let cp := cache_policy_for policy (Some cache_io_unset) in
  fst (pg_oauth_http_freshness_calculate curl_getdate cache_control date expires age (be_time b)
         (Some (cp_metadata_freshness cp)) (Some old)) <> PG_OAUTH_HTTP_FRESHNESS_INVALID_ARGUMENT /\
  fst (pg_oauth_http_freshness_calculate curl_getdate cache_control date expires age (be_time b)
         (Some (cp_jwks_freshness cp)) (Some old)) <> PG_OAUTH_HTTP_FRESHNESS_INVALID_ARGUMENT.
Proof.
  intros Ht cp. destruct (policy_in_force_of _ _ _ in_force) as (_ & algorithms & types & Hs & ->).
  pose proof (so_metadata_ttl _ _ _ _ Hs). pose proof (so_jwks_ttl _ _ _ _ Hs).
  pose proof (so_max_ttl _ _ _ _ Hs). simpl in *.
  unfold pg_oauth_http_freshness_calculate. cbn [fp_default_ttl_ms fp_maximum_ttl_ms].
  split; (rewrite (proj2 (Z.ltb_ge _ _)) by done);
    repeat (rewrite (proj2 (Z.ltb_ge _ _)) by (simpl; lia)); cbn [orb];
    repeat case_match; done.
Qed.

Lemma metadata_policy_fits `{Jansson} `{CurlUrl} malloc document old :
  (forall size, malloc size = true) ->
  fst (pg_oauth_metadata_parse malloc (Some document) (oauth_issuer line)
         (Some (ikp_metadata (vp_issuer_key vp))) (Some old)) <> PG_OAUTH_METADATA_INVALID_ARGUMENT.
Proof.
  intros Hm. destruct (policy_in_force_of _ _ _ in_force) as (_ & algorithms & types & Hs & ->).
  destruct (nonempty_some _ (so_issuer _ _ _ _ Hs : is_nonempty (oauth_issuer line) = true))
    as [issuer ->].
  by apply metadata_parse_argument.
Qed.

Lemma identity_policy_fits malloc subject old :
  1 < be_namedatalen b ->
  fst (pg_oauth_identity_build malloc (Some subject) (Some (vp_identity vp)) (Some old)) <>
    PG_OAUTH_IDENTITY_INVALID_ARGUMENT.
Proof.
  intros Hn. unfold pg_oauth_identity_build, vp. cbn [vp_identity validator_policy_for
    id_max_subject_size id_max_authn_id_size].
  replace (be_namedatalen b - 1 =? 0) with false by lia. cbn [orb]. repeat case_match; done.
Qed.

(** The size of a cache key: 128 bytes and the texts of the rule, the settings
    and the two URLs. *)
Definition key_size (url jwks_url : bytes) : Z :=
  128 + zlen (setting (oauth_issuer line)) + zlen url + zlen jwks_url +
  zlen (setting (oauth_scope line)) + zlen (setting (oauth_audiences (be_gucs b))) +
  zlen (setting (oauth_identity_claim (be_gucs b))) +
  zlen (setting (oauth_role_claim (be_gucs b))) +
  zlen (setting (oauth_allowed_jwks_hosts (be_gucs b))) + zlen (setting (oauth_ca_file (be_gucs b))).

Lemma text_of_setting s : text_of s = setting s.
Proof. by destruct s. Qed.

Lemma cache_key_policy_fits io url resource jwks_url :
  is_Some (oauth_allowed_jwks_hosts (be_gucs b)) ->
  pg_oauth_metadata_url (oauth_issuer line) = Some url ->
  resource = PG_OAUTH_CACHE_RESOURCE_METADATA /\ jwks_url = None \/
  resource = PG_OAUTH_CACHE_RESOURCE_JWKS /\ is_nonempty jwks_url = true ->
  cache_key_policy_invalid (key_policy_for resource (oauth_issuer line) (Some url) jwks_url
                              (cp_key_policy (cache_policy_for policy io))) = false.
Proof.
  intros Hhosts Hu Hr.
  destruct (policy_in_force_of _ _ _ in_force) as (_ & algorithms & types & Hs & ->).
  pose proof (algorithms_positive _ _ (so_algorithms _ _ _ _ Hs)) as Ha.
  pose proof (token_types_bits _ _ (proj1 (so_types _ _ _ _ Hs))) as [Ht Hbits].
  pose proof (so_token_size _ _ _ _ Hs) as Hsize.
  pose proof (so_issuer _ _ _ _ Hs : is_nonempty (oauth_issuer line) = true) as Hi.
  assert (is_nonempty (Some url) = true) as Hurl.
  { destruct (oauth_issuer line) as [issuer|]; [|done].
    apply metadata_url_correct in Hu as (_ & _ & ->). apply is_nonempty_c_str.
    rewrite discovery_url_text. unfold discovery_url. by intros []%app_eq_nil. }
  unfold cache_key_policy_invalid. cbn -[is_nonempty Z.land Z.lnot Z.eqb Z.ltb is_Some u32].
  rewrite Hi, Hurl, Hbits. rewrite !bool_decide_eq_true_2.
  2: apply (so_ca_file _ _ _ _ Hs).
  2: exact Hhosts.
  2: apply (so_role _ _ _ _ Hs).
  2: apply nonempty_some, (proj1 (so_identity _ _ _ _ Hs)).
  2: apply nonempty_some, (proj1 (so_audiences _ _ _ _ Hs)).
  2: apply nonempty_some, (so_scopes _ _ _ _ Hs).
  rewrite u32_small by (simpl in Hsize; lia). simpl in Hsize.
  replace (oauth_max_token_size (be_gucs b) =? 0) with false by lia.
  replace (types =? 0) with false by lia. replace (algorithms =? 0) with false by lia.
  by destruct Hr as [[-> ->]|[-> ->]].
Qed.

(** A cache key is refused for its size only. *)
Lemma cache_key_fits io url resource jwks_url :
  is_Some (oauth_allowed_jwks_hosts (be_gucs b)) ->
  pg_oauth_metadata_url (oauth_issuer line) = Some url ->
  resource = PG_OAUTH_CACHE_RESOURCE_METADATA /\ jwks_url = None \/
  resource = PG_OAUTH_CACHE_RESOURCE_JWKS /\ is_nonempty jwks_url = true ->
  is_Some (cache_key (key_policy_for resource (oauth_issuer line) (Some url) jwks_url
                        (cp_key_policy (cache_policy_for policy io)))) <->
  key_size url (setting jwks_url) <= 4096.
Proof.
  intros Hhosts Hu Hr. pose proof (cache_key_policy_fits io url resource jwks_url Hhosts Hu Hr) as Hv.
  destruct (policy_in_force_of _ _ _ in_force) as (_ & algorithms & types & Hs & ->).
  set (k := key_policy_for _ _ _ _ _) in *.
  assert (zlen (encoding k) = key_size url (setting jwks_url)) as Hsize.
  { rewrite encoding_size, !text_of_setting. destruct (oauth_issuer line) as [issuer|] eqn:Ei; [|done].
    apply metadata_url_correct in Hu as (_ & _ & ->). unfold key_size, k. rewrite Ei. simpl.
    change (setting (Some (discovery_url ?x))) with (c_str (discovery_url x)).
    rewrite discovery_url_text. change (zlen (setting (Some (B "default")))) with 7. lia. }
  unfold cache_key. pose proof (build_ok k [] (encoding k)) as Hok. rewrite <- Hsize.
  change PG_OAUTH_CACHE_MAX_KEY_SIZE with 4096 in Hok. split.
  - intros [key Hk]. destruct (pg_oauth_cache_key_build _ _) as [error r] eqn:E.
    destruct error; try done. subst r. rewrite <- E in Hok. apply build_ok in E as (_ & _ & Hl). done.
  - intros Hl. rewrite (proj2 Hok) by done. by eexists.
Qed.

(** Where it is too large, the retrieval refuses every key id at once. *)
Lemma oversized_key_refused `{Jansson} `{OpenSsl} `{CurlUrl} curl_getdate malloc key_malloc url key_id algorithm
  now_ms response_time old :
  is_Some (oauth_allowed_jwks_hosts (be_gucs b)) ->
  pg_oauth_metadata_url (oauth_issuer line) = Some url -> 4096 < key_size url [] ->
  algorithm <> 0 -> (forall size, malloc size = true) ->
  pg_oauth_issuer_key_fetch_cached curl_getdate malloc key_malloc (Some url) (oauth_issuer line)
    (Some key_id) algorithm (Some (vp_issuer_key vp))
    (Some (cache_policy_for policy
       (Some {| io_lookup := true; io_begin_refresh := true; io_wait_refresh := true;
                io_complete_refresh := true |})))
    now_ms response_time (Some old) =
  Ret (PG_OAUTH_ISSUER_KEY_CACHE, Some issuer_key_result_zero).
Proof.
  intros Hhosts Hu Hsize Halg Hm. unfold pg_oauth_issuer_key_fetch_cached.
  destruct (oauth_issuer line) as [issuer|] eqn:Ei; [|done].
  rewrite cache_policy_fits, (proj2 (Z.eqb_neq _ _)) by done. cbn [negb].
  assert (cached_capacity malloc (vp_issuer_key vp) = Some PG_OAUTH_MAX_DOCUMENT_SIZE) as ->.
  { unfold cached_capacity. rewrite Hm. reflexivity. }
  set (cp := cache_policy_for policy _).
  assert (cache_key (key_policy_for PG_OAUTH_CACHE_RESOURCE_METADATA (Some issuer) (Some url) None
                       (cp_key_policy cp)) = None) as Hk.
  { apply eq_None_not_Some. rewrite <- Ei. intros Hk. apply cache_key_fits in Hk; [|by rewrite ?Ei; auto..].
    change (setting None) with (@nil byte) in Hk. lia. }
  unfold fetch_with, metadata_acquire. rewrite Hk. reflexivity.
Qed.
End Fit.

(** ** Properties *)

Section Properties.
Context `{J : Jansson} `{S : OpenSsl} `{U : CurlUrl} `{V : LibJwtVerify} `{D : NamedDsm}.
Context (curl_getdate : bytes -> Z) (malloc : allocator) (host_malloc : Z -> bool).

(** A delegated authorisation is backed by the role claim. *)
Lemma delegated_role b line policy host role identity expires_at payload :
  policy_in_force b line policy -> oauth_skip_usermap line = true ->
  claims_accepted (vp_claims (validator_policy_for (be_namedatalen b) policy host role (be_time b)))
    (Some payload) identity expires_at ->
  exists requested, role = Some requested /\
    role_granted (vp_claims (validator_policy_for (be_namedatalen b) policy host role (be_time b)))
      (json_object_get (Some payload) (setting (oauth_role_claim (be_gucs b)))) (c_str requested).
Proof.
  intros (Hb & algorithms & types & Hs & ->)%policy_in_force_of Hskip Hc.
  pose proof (so_delegation _ _ _ _ Hs) as Hd. simpl in Hd. rewrite Hskip in Hd. symmetry in Hd.
  destruct (ca_role _ _ _ _ Hc) as [Hn|(Hne & _ & Hg)].
  - simpl in Hn. by apply setting_nonempty in Hd.
  - simpl in Hne, Hg. destruct role as [requested|]; [|done]. exists requested. by split.
Qed.

(** The claims are judged by the rule's issuer and scopes, the settings'
    audiences and claim names, the role the client asked for, the wall clock with
    the configured skew in whole seconds, and names that fit into a role name. *)
Record claims_reflect (b : backend) (line : HbaLine) (role : option bytes)
  (p : PgOAuthClaimsPolicy) : Prop := {
  cr_issuer : cl_issuer p = oauth_issuer line;
  cr_scopes : cl_required_scopes p = oauth_scope line;
  cr_audiences : cl_audiences p = oauth_audiences (be_gucs b);
  cr_identity_claim : cl_identity_claim p = oauth_identity_claim (be_gucs b);
  cr_role_claim : cl_role_claim p = oauth_role_claim (be_gucs b);
  cr_requested_role : cl_requested_role p = role;
  cr_time : cl_current_time p = be_time b;
  cr_skew : cl_clock_skew_seconds p = oauth_clock_skew_ms (be_gucs b) / 1000;
  cr_identity_size : cl_max_identity_size p = be_namedatalen b - 1;
  cr_role_size : cl_max_role_size p = be_namedatalen b - 1;
  cr_limits : cl_max_subject_size p = 1024 /\ cl_max_audiences p = 16 /\ cl_max_scopes p = 64 /\
    cl_max_roles p = 64
}.

Lemma claims_reflected b line policy host role :
  policy_in_force b line policy ->
  claims_reflect b line role
    (vp_claims (validator_policy_for (be_namedatalen b) policy host role (be_time b))).
Proof.
  intros (_ & algorithms & types & Hs & ->)%policy_in_force_of. split; try done.
  pose proof (so_clock_skew _ _ _ _ Hs) as Hskew. simpl in *.
  rewrite Z.quot_div_nonneg by lia. apply u32_small. split; [apply Z.div_pos; lia|].
  apply Z.div_lt_upper_bound; lia.
Qed.

(** C1: the module authorises only authenticated tokens.  When the callback
    reports [authorized], it returns true, no interrupt is pending, the HBA rule
    and the settings make a valid policy, the bearer token is a non-empty C
    string within the configured size, and it has been authenticated under the
    policies built from that rule and those settings (field by field in
    [policy_reflects] and [claims_reflect]), against the issuer of the rule at its
    well-known URL.  The reported identity is exactly the identity
    claim of the signed payload, whose issuer is the rule's, and fits into a
    role name; and where the rule delegates the mapping of users, the role the
    client asked for is in the token's role claim. *)
Theorem callback_sound b token role tr ret result :
  json_integers_bounded -> be_time b <= INT64_MAX ->
  exec (fst (pg_oauth_validator_validate curl_getdate malloc host_malloc b token role)) tr
    (ret, result) ->
  mr_authorized result = true ->
  ret = true /\ be_interrupt_pending b = false /\
  exists text line policy url host io payload identity expires_at,
    c_str <$> token = Some text /\ text <> [] /\
    zlen text <= oauth_max_token_size (be_gucs b) /\
    policy_in_force b line policy /\ pg_oauth_metadata_url (oauth_issuer line) = Some url /\
    url = discovery_url (setting (oauth_issuer line)) /\
    claims_reflect b line role
      (vp_claims (validator_policy_for (be_namedatalen b) policy host role (be_time b))) /\
    mr_authn_id result = Some identity /\ zlen identity <= be_namedatalen b - 1 /\
    token_authenticated malloc
      (validator_policy_for (be_namedatalen b) policy host role (be_time b))
      (Some (cache_policy_for policy io)) (Some url) text tr payload identity expires_at /\
    is_text (json_object_get (Some payload) (B "iss")) (setting (oauth_issuer line)) /\
    (oauth_skip_usermap line = true -> exists requested, role = Some requested /\
       role_granted
         (vp_claims (validator_policy_for (be_namedatalen b) policy host role (be_time b)))
         (json_object_get (Some payload) (setting (oauth_role_claim (be_gucs b))))
         (c_str requested)).
Proof.
  intros Hint Htime He%callback_runs Hauth.
  destruct (prepare host_malloc b) as [[p|] e] eqn:Ep; [|by destruct He as [_ [= -> ->]]].
  destruct He as [(_ & Hr & _)|(text & answer & (Ht & Hne & Hl) & He & Hout)].
  { injection Hr as -> ->. done. }
  unfold decide_result in Hout. destruct answer as [error validation].
  destruct (be_interrupt_pending b); [by injection Hout as -> ->|].
  destruct (bool_decide_reflect (error = PG_OAUTH_VALIDATOR_OK)) as [->|Hn]; cbn [negb] in Hout;
    [|by injection Hout as -> ->].
  injection Hout as -> ->. split_and!; [done..|].
  destruct (prepare_ok _ _ _ _ Ep) as (line & Hpol & Hio & _ & Hurl & _ & _).
  unfold pipeline in He.
  apply validate_authenticates in He as (? & ? & payload & identity & vr & [= <-] & [= <-] & -> &
    Hid & Hta); [|done|].
  2:{ intros ? [= <-]. split; [exact Htime|]. simpl. unfold u32. apply Z.mod_pos_bound. lia. }
  pose proof Hta as (? & ? & ? & ? & ? & ? & ? & ? & ? & _ & _ & _ & _ & _ & _ & Hc & Hacc).
  exists text, line, (pr_policy p), (pr_metadata_url p), (pr_metadata_host p), (pr_cache_io p),
    payload, identity, (vr_expires_at vr).
  assert (x00 ∉ identity) as Hnul by (apply printable_utf8_no_nul; apply Hacc).
  split_and!; try done.
  - destruct (policy_in_force_of _ _ _ Hpol) as (_ & ? & ? & _ & Hp). by rewrite Hp in Hl.
  - destruct (oauth_issuer line) as [issuer|]; [|done].
    by apply metadata_url_correct in Hurl as (_ & _ & ->).
  - by apply claims_reflected.
  - simpl. rewrite Hid. simpl. by rewrite c_str_id.
  - apply Hacc.
  - destruct (policy_in_force_of _ _ _ Hpol) as (_ & ? & ? & _ & Hp). pose proof (ca_issuer _ _ _ _ Hc) as Hi.
    simpl in Hi. by rewrite Hp in Hi.
  - intros Hskip. by eapply delegated_role.
Qed.

End Properties.

(** C37: the policies the module builds suit every stage.  Whenever the rule and
    the settings make a policy (and the client names a role where the rule
    delegates, and the list of hosts is not NULL, which no setting with a boot
    value is), the policies derived from it pass the argument checks of the
    envelope stage, the claims stage, the cached key retrieval, both requests,
    the metadata parser, the computation of both lifetimes and the identity
    stage; the document buffer has its 64 KiB, and the key selection accepts the
    key id and algorithm of every token the envelope stage accepts.  The cache
    keys of both documents are well formed, and exist exactly where the texts of
    the rule, the settings and the URLs fit with 128 bytes into 4096: beyond
    that, although the settings are accepted, the retrieval answers every token
    with a cache error, without a call. *)
Theorem callback_policies_fit `{Jansson} `{OpenSsl} `{CurlUrl} curl_getdate malloc key_malloc b
  line policy host role url :
  policy_in_force b line policy -> 1 < be_namedatalen b -> 0 <= be_time b ->
  (oauth_skip_usermap line = true -> is_nonempty role = true) ->
  is_Some (oauth_allowed_jwks_hosts (be_gucs b)) ->
  pg_oauth_metadata_url (oauth_issuer line) = Some url ->
  (forall size, malloc size = true) ->
  let vp := validator_policy_for (be_namedatalen b) policy host role (be_time b) in
  let cp := cache_policy_for policy
              (Some {| io_lookup := true; io_begin_refresh := true; io_wait_refresh := true;
                       io_complete_refresh := true |}) in
  envelope_policy_invalid (vp_envelope vp) = false /\
  valid_policy (vp_claims vp) = true /\
  cache_policy_valid (Some cp) = true /\
  cached_capacity malloc (vp_issuer_key vp) = Some 65536 /\
  (forall text envelope h pl s header payload key_id,
     accepted_envelope (vp_envelope vp) text envelope h pl s header payload key_id ->
     jwks_arguments_invalid (ikp_jwks (vp_issuer_key vp)) key_id (env_algorithm envelope) = false) /\
  (is_nonempty host = true ->
     http_policy_invalid (ikp_metadata_http (vp_issuer_key vp)) = false /\
     http_policy_invalid (ikp_jwks_http (vp_issuer_key vp)) = false) /\
  (forall document old,
     fst (pg_oauth_metadata_parse malloc (Some document) (oauth_issuer line)
            (Some (ikp_metadata (vp_issuer_key vp))) (Some old)) <>
       PG_OAUTH_METADATA_INVALID_ARGUMENT) /\
  (forall cache_control date expires age old,
     fst (pg_oauth_http_freshness_calculate curl_getdate cache_control date expires age (be_time b)
            (Some (cp_metadata_freshness cp)) (Some old)) <>
       PG_OAUTH_HTTP_FRESHNESS_INVALID_ARGUMENT /\
     fst (pg_oauth_http_freshness_calculate curl_getdate cache_control date expires age (be_time b)
            (Some (cp_jwks_freshness cp)) (Some old)) <>
       PG_OAUTH_HTTP_FRESHNESS_INVALID_ARGUMENT) /\
  (forall subject old,
     fst (pg_oauth_identity_build malloc (Some subject) (Some (vp_identity vp)) (Some old)) <>
       PG_OAUTH_IDENTITY_INVALID_ARGUMENT) /\
  (is_Some (cache_key (key_policy_for PG_OAUTH_CACHE_RESOURCE_METADATA (oauth_issuer line) (Some url)
                         None (cp_key_policy cp))) <-> key_size b line url [] <= 4096) /\
  (forall jwks_url, is_nonempty (Some jwks_url) = true ->
     is_Some (cache_key (key_policy_for PG_OAUTH_CACHE_RESOURCE_JWKS (oauth_issuer line) (Some url)
                           (Some jwks_url) (cp_key_policy cp))) <->
     key_size b line url (c_str jwks_url) <= 4096) /\
  (4096 < key_size b line url [] -> forall key_id algorithm now_ms response_time old,
     algorithm <> 0 ->
     pg_oauth_issuer_key_fetch_cached curl_getdate malloc key_malloc (Some url) (oauth_issuer line)
       (Some key_id) algorithm (Some (vp_issuer_key vp)) (Some cp) now_ms response_time (Some old) =
     Ret (PG_OAUTH_ISSUER_KEY_CACHE, Some issuer_key_result_zero)).
Proof.
  intros Hpol Hn Ht Hr Hhosts Hu Hm vp cp. split_and!.
  - by eapply envelope_policy_fits.
  - by eapply claims_policy_fits.
  - by eapply cache_policy_fits.
  - unfold cached_capacity. by rewrite Hm.
  - intros. by eapply jwks_policy_fits.
  - intros Hh. unfold http_policy_invalid. simpl. by rewrite Hh.
  - intros. by eapply metadata_policy_fits.
  - intros. by eapply (freshness_policy_fits b line policy).
  - intros. by apply identity_policy_fits.
  - eapply cache_key_fits with (jwks_url := None); eauto.
  - intros jwks_url Hj. eapply cache_key_fits with (jwks_url := Some jwks_url); eauto.
  - intros. by eapply oversized_key_refused.
Qed.

(** ** An example

    The defaults with two audiences, an HBA rule for the example issuer, and the
    example token. *)

Module CallbackExample.
Import ValidatorExample SharedExample.

Definition here (interrupted : bool) : backend :=
  {| be_pg19 := true; be_namedatalen := 64; be_hba := Some PolicyExample.hba;
     be_policy_option := None; be_gucs := boot_gucs (B "db, postgres");
     be_shared := SharedExample.start; be_clock_monotonic := Some (5, 250000000);
     be_time := 900; be_interrupt_pending := interrupted |}.

Definition call (interrupted : bool) (token : bytes) :=
  pg_oauth_validator_validate (fun _ => -1) memory (fun _ => true) (here interrupted)
    (Some token) (Some (B "alice")).

Definition ran (interrupted : bool) (text : bytes) :=
  replay (network_oracle IssuerKeyExample.network) (fst (call interrupted text)).

Lemma ran_exec interrupted text :
  exec (fst (call interrupted text)) (fst (ran interrupted text))
    (fst (snd (ran interrupted text)), snd (snd (ran interrupted text))).
Proof.
  rewrite <- surjective_pairing.
  exact (replay_exec _ (fst (call interrupted text)) (network_oracle_ok IssuerKeyExample.network)).
Qed.

Lemma ran_authorizes :
  snd (ran false token) =
  (true, {| mr_authorized := true; mr_authn_id := Some (B "user-7"); mr_error_detail := None |}).
Proof. vm_compute. reflexivity. Qed.

Lemma callback_sound_witness :
  fst (snd (ran false token)) = true /\ mr_authn_id (snd (snd (ran false token))) = Some (B "user-7").
Proof.
  assert (mr_authorized (snd (snd (ran false token))) = true) as Ha by (rewrite ran_authorizes; reflexivity).
  destruct (callback_sound (fun _ => -1) memory (fun _ => true) (here false) (Some token)
    (Some (B "alice")) (fst (ran false token)) (fst (snd (ran false token)))
    (snd (snd (ran false token)))) as (H1 & _ & _).
  - intros j n Hj. exact (reference_integers_bounded documents j n Hj).
  - vm_compute. discriminate.
  - exact (ran_exec false token).
  - exact Ha.
  - split; [exact H1|]. rewrite ran_authorizes. reflexivity.
Defined.




Definition policy : PgOAuthValidationPolicy :=
  policy_of PolicyExample.config (hba_inputs PolicyExample.hba None) 3 3.

Lemma example_in_force : policy_in_force (here false) PolicyExample.hba policy.
Proof.
  split; [reflexivity|]. exists 3, 3. split; [|by apply policy_reflects_iff].
  apply policy_checks_sound. vm_compute. reflexivity.
Qed.

Lemma callback_policies_fit_witness :
  valid_policy (vp_claims (validator_policy_for 64 policy (Some (B "idp.example"))
    (Some (B "alice")) 900)) = true /\
  key_size (here false) PolicyExample.hba
    (discovery_url (setting (oauth_issuer PolicyExample.hba))) [] <= 4096.
Proof.
  pose proof (callback_policies_fit (fun _ => -1) (fun _ => true) (fun _ _ => true) (here false) PolicyExample.hba
    policy (Some (B "idp.example")) (Some (B "alice"))
    (discovery_url (setting (oauth_issuer PolicyExample.hba))) example_in_force) as H.
  destruct H as (_ & H2 & _ & _ & _ & _ & _ & _ & _ & H10 & _).
  - vm_compute. reflexivity.
  - vm_compute. discriminate.
  - discriminate.
  - eexists. reflexivity.
  - vm_compute. reflexivity.
  - reflexivity.
  - split; [exact H2|]. apply H10. vm_compute. eexists. reflexivity.
Defined.

(** Settings that are accepted although no cache key fits: the rule's scope alone
    has 4000 bytes. *)
Definition long_rule : HbaLine :=
  {| oauth_issuer := oauth_issuer PolicyExample.hba; oauth_scope := Some (replicate 4000 x61);
     oauth_skip_usermap := false |}.
Definition long_backend : backend :=
  {| be_pg19 := true; be_namedatalen := 64; be_hba := Some long_rule;
     be_policy_option := None; be_gucs := boot_gucs (B "db, postgres");
     be_shared := SharedExample.start; be_clock_monotonic := Some (5, 250000000);
     be_time := 900; be_interrupt_pending := false |}.

Lemma accepted_but_too_long :
  (exists policy, policy_in_force long_backend long_rule policy) /\
  4096 < key_size long_backend long_rule (discovery_url (setting (oauth_issuer long_rule))) [].
Proof.
  split; [|vm_compute; reflexivity].
  exists (policy_of PolicyExample.config (hba_inputs long_rule None) 3 3).
  split; [reflexivity|]. exists 3, 3. split; [|by apply policy_reflects_iff].
  apply policy_checks_sound. vm_compute. reflexivity.
Qed.
End CallbackExample.
