(* ===== verification/Backends.v ===== *)
(** * Concurrent backends

    Any number of backends run the module's callback ([Callback]) against one
    shared cache ([SharedCache]).  A step of the system is one call of one
    backend, answered by the shared cache under its lock or by the network, or
    an interrupt that ends a backend while it sleeps.  The theorems are about
    all interleavings: a refresh has exactly one owner, every execution ends,
    and at its end no refresh is left behind. *)

From S2P Require Import Prelude Identity Jansson Envelope Claims Jwks CacheState CacheKey.
From S2P Require Import Policy Freshness Transport Metadata Signature IssuerKey SharedCache.
From S2P Require Import Validator Callback.

(** ** Refreshes in flight

    The serial of the refresh in progress in a slot. *)

Definition entry_flight (e : PgOAuthCacheEntry) : option Z :=
  if ce_refreshing e then Some (ce_refresh_serial e) else None.

Definition flight (c : PgOAuthCache) (i : nat) : option Z := ca_entries c !! i ≫= entry_flight.

(** What the argument needs of the cache; it holds whatever the operations are
    called with. *)
Record sane (c : PgOAuthCache) : Prop := {
  sa_free : forall i e, ca_entries c !! i = Some e -> ce_refreshing e = true ->
    ce_occupied e = true /\ ce_refresh_serial e <> 0;
  sa_keys : forall i j ei ej, ca_entries c !! i = Some ei -> ca_entries c !! j = Some ej ->
    ce_occupied ei = true -> ce_occupied ej = true -> ce_key ei = ce_key ej -> i = j;
  sa_serial : 1 <= cc_next_refresh_serial (ca_control c) <= UINT64_MAX
}.

Lemma inv_sane c : cache_inv c -> sane c.
Proof.
  intros Hc. split; [|apply (ci_keys _ Hc)|apply (ci_serial _ Hc)].
  intros i e Hi Hr. pose proof (ci_entries _ Hc _ _ Hi) as He. split.
  - destruct (ce_occupied e) eqn:Eo; [done|]. by rewrite (eo_free _ He Eo) in Hr.
  - pose proof (eo_serial _ He Hr). lia.
Qed.

Lemma flight_set c i e old j :
  ca_entries c !! i = Some old ->
  flight (set_entry i e c) j = if decide (j = i) then entry_flight e else flight c j.
Proof.
  intros Hi. unfold flight, set_entry. simpl. destruct (decide (j = i)) as [->|Hne].
  - rewrite list_lookup_insert_eq; [done|]. by eapply lookup_lt_Some.
  - by rewrite list_lookup_insert_ne.
Qed.

Lemma sane_count k c : sane c -> sane (count_in k c).
Proof. by intros []. Qed.

(** Replacing an entry by one that is sane by itself, whose key is its own or
    nobody else's. *)
Lemma sane_set c i old e :
  sane c -> ca_entries c !! i = Some old ->
  (ce_refreshing e = true -> ce_occupied e = true /\ ce_refresh_serial e <> 0) ->
  (ce_occupied e = true -> forall j ej, ca_entries c !! j = Some ej -> ce_occupied ej = true ->
     ce_key ej = ce_key e -> j = i) ->
  sane (set_entry i e c).
Proof.
  intros [Hf Hk Hs] Hi He Hu. split; [| |done].
  - intros j ej Hj. apply lookup_set_entry in Hj as [[-> ->]|[Hne Hj]]; [done|by eapply Hf].
  - intros j l ej el Hj Hl. apply lookup_set_entry in Hj as [[-> ->]|[Hj' Hj]];
      apply lookup_set_entry in Hl as [[-> ->]|[Hl' Hl]]; intros Hoj Hol Hkk; [done| | |by eapply Hk].
    + symmetry. by apply (Hu Hoj l el).
    + by apply (Hu Hol j ej).
Qed.

(** The same with an entry that keeps its key. *)
Lemma sane_update c i old e :
  sane c -> ca_entries c !! i = Some old ->
  (ce_refreshing e = true -> ce_occupied e = true /\ ce_refresh_serial e <> 0) ->
  (ce_occupied e = true -> ce_occupied old = true /\ ce_key e = ce_key old) ->
  sane (set_entry i e c).
Proof.
  intros Hc Hi He Hk. eapply sane_set; [done..|]. intros Ho j ej Hj Hoj Hkj.
  destruct (Hk Ho) as [Hoo Hke]. eapply (sa_keys _ Hc j i ej old); [done..|congruence].
Qed.

(** ** The operations *)

Lemma lookup_loop_entry k now st n l i e f :
  lookup_loop k now st n l = Some (i, e, f) ->
  (n <= i)%nat /\ l !! (i - n)%nat = Some e /\ (f = PG_OAUTH_CACHE_STALE -> st = true).
Proof.
  revert n. induction l as [|e' l IH]; intros n Hl; simpl in Hl; [done|].
  destruct (_ || _).
  - destruct (IH _ Hl) as (Hn & He & Hf). split; [lia|].
    replace (i - n)%nat with (S (i - S n)) by lia. done.
  - repeat case_match; simplify_eq; prop_bools; rewrite Nat.sub_diag; done.
Qed.

(** A lookup leaves the refreshes alone. *)
Lemma lookup_flight c key now st f i c1 :
  sane c -> pg_oauth_cache_lookup (Some c) key now st = (f, i, c1) ->
  exists c', c1 = Some c' /\ sane c' /\ (forall j, flight c' j = flight c j) /\
    (f = PG_OAUTH_CACHE_STALE -> st = true).
Proof.
  intros Hc. unfold pg_oauth_cache_lookup.
  destruct key as [k|]; [|intros [= <- <- <-]; by exists c].
  destruct (_ || _); [intros [= <- <- <-]; by exists c|].
  destruct (lookup_loop _ _ _ _ _) as [[[n e] f']|] eqn:El;
    [|intros [= <- <- <-]; exists (count_in misses c); by split_and!; [|apply sane_count| |]].
  intros [= <- <- <-]. apply lookup_loop_entry in El as (_ & He & Hf).
  rewrite Nat.sub_0_r in He. eexists. split; [done|]. split_and!; [| |done].
  - apply sane_count. eapply sane_update; [done..| |done]. apply (sa_free _ Hc _ _ He).
  - intros j. change (flight (set_entry n (touch now e) c) j = flight c j).
    rewrite (flight_set _ _ _ _ _ He). case_decide; [|done]. subst. unfold flight. by rewrite He.
Qed.

(** The slot a refresh is given: the entry of the key, or one without a
    refresh. *)
Definition slot_for (key : bytes) (l : list PgOAuthCacheEntry) (i : nat) (existing : bool) : Prop :=
  exists e, l !! i = Some e /\
    if existing then same_key e key = true
    else (ce_occupied e = false \/ ce_refreshing e = false) /\
         Forall (fun e => same_key e key = false) l.

Lemma find_slot_loop_for key now p l empty victim i existing :
  Forall (fun e => same_key e key = false) p ->
  (forall j, empty = Some j -> exists e, (p ++ l) !! j = Some e /\ ce_occupied e = false) ->
  (forall j z, victim = Some (j, z) -> exists e, (p ++ l) !! j = Some e /\ ce_refreshing e = false) ->
  find_slot_loop key now (length p) l empty victim = (Some i, existing) ->
  slot_for key (p ++ l) i existing.
Proof.
  revert p empty victim. induction l as [|e l IH]; intros p empty victim Hp He Hv; cbn [find_slot_loop].
  - intros E. rewrite app_nil_r in *. destruct empty as [j|].
    + injection E as <- <-. destruct (He j eq_refl) as (e & ? & ?). exists e. by split; [|split; [left|]].
    + destruct victim as [[j z]|]; [|done]. injection E as <- <-.
      destruct (Hv j z eq_refl) as (e & ? & ?). exists e. by split; [|split; [right|]].
  - assert ((p ++ e :: l) !! length p = Some e) as Hl by (by rewrite lookup_app_r, Nat.sub_diag).
    destruct (same_key e key) eqn:Es.
    { intros [= <- <-]. by exists e. }
    specialize (IH (p ++ [e])). rewrite length_app, Nat.add_1_r, <- app_assoc in IH. simpl in IH.
    assert (Forall (fun e => same_key e key = false) (p ++ [e])) as Hp'
      by (apply Forall_app; split; [done|by constructor]).
    destruct (negb (ce_occupied e) && bool_decide (empty = None)) eqn:E1.
    { intros E. eapply IH; [exact Hp'| |exact Hv|exact E]. prop_bools. intros ? [= <-]. eauto. }
    destruct (ce_occupied e && negb (ce_refreshing e) && _ && _) eqn:E2.
    + intros E. eapply IH; [exact Hp'|exact He| |exact E]. prop_bools. intros ? ? [= <- <-]. eauto.
    + intros E. eapply IH; [exact Hp'|exact He|exact Hv|exact E].
Qed.

Lemma find_refresh_slot_for c key now i existing :
  find_refresh_slot c key now = (Some i, existing) -> slot_for key (ca_entries c) i existing.
Proof. intros E. by eapply (find_slot_loop_for key now [] _ None None). Qed.

(** The entry a refresh starts from has no refresh yet. *)
Lemma start_flight c i old e now uk refresh c' :
  sane c -> ca_entries c !! i = Some old -> entry_flight old = None -> ce_occupied e = true ->
  (forall j ej, ca_entries c !! j = Some ej -> ce_occupied ej = true ->
     ce_key ej = ce_key e -> j = i) ->
  start_refresh i e now uk c = (refresh, c') ->
  sane c' /\ flight c i = None /\ rf_entry_index refresh = Some i /\
  (forall j, flight c' j = if decide (j = i) then Some (rf_serial refresh) else flight c j).
Proof.
  intros Hc Hi Hf Ho Hu [= <- <-]. split_and!.
  - pose proof (sane_set c i old (mark_refreshing now uk (cc_next_refresh_serial (ca_control c)) e) Hc Hi)
      as [Hf' Hk' _]; [|done|].
    + intros _. split; [done|]. simpl. pose proof (sa_serial _ Hc). lia.
    + split; [exact Hf'|exact Hk'|]. simpl. apply next_serial_range, (sa_serial _ Hc).
  - unfold flight. by rewrite Hi.
  - done.
  - intros j. exact (flight_set c i (mark_refreshing now uk _ e) old j Hi).
Qed.

(** Beginning a refresh puts at most one more in flight, in a slot that had
    none. *)
Lemma begin_flight c key now uk cd result refresh c1 :
  sane c -> pg_oauth_cache_begin_refresh (Some c) key now uk cd = (result, refresh, c1) ->
  exists c', c1 = Some c' /\ sane c' /\
    if decide (result = PG_OAUTH_CACHE_REFRESH_STARTED)
    then exists i, rf_entry_index refresh = Some i /\ flight c i = None /\
      (forall j, flight c' j = if decide (j = i) then Some (rf_serial refresh) else flight c j)
    else forall j, flight c' j = flight c j.
Proof.
  intros Hc. unfold pg_oauth_cache_begin_refresh.
  destruct key as [k|]; [|intros [= <- <- <-]; by exists c].
  destruct (_ || _); [intros [= <- <- <-]; by exists c|].
  destruct (find_refresh_slot c k now) as [[i|] existing] eqn:Ef;
    [|intros [= <- <- <-]; eexists; split; [done|]; by split; [apply sane_count|]].
  apply find_refresh_slot_for in Ef as (old & Hi & Hex). rewrite Hi. simpl default.
  destruct (existing && ce_refreshing old) eqn:E1;
    [intros [= <- <- <-]; eexists; split; [done|]; by split; [apply sane_count|]|].
  destruct (existing && uk && _ && _);
    [intros [= <- <- <-]; eexists; split; [done|]; by split; [apply sane_count|]|].
  set (c2 := if negb existing && ce_occupied old then count_in evictions c else c).
  assert (sane c2 /\ ca_entries c2 = ca_entries c) as [Hc2 He2]
    by (unfold c2; destruct (negb existing && ce_occupied old); auto using sane_count).
  assert (forall j, flight c2 j = flight c j) as Hf2 by (intros j; unfold flight; by rewrite He2).
  destruct (start_refresh _ _ _ _ c2) as [refresh' c3] eqn:Es. intros [= <- <- <-].
  assert (entry_flight old = None) as Hold.
  { unfold entry_flight. destruct existing; [simpl in E1; by rewrite E1|].
    destruct Hex as [[Ho|Hr] _]; [|by rewrite Hr].
    destruct (ce_refreshing old) eqn:Er; [|done]. destruct (sa_free _ Hc _ _ Hi Er). congruence. }
  rewrite <- He2 in Hi. eapply start_flight in Es; [| |exact Hi|exact Hold|..]; [|done| |].
  - exists c3. split; [done|]. destruct Es as (Hs & Hn & Hidx & Hfl). split; [done|].
    exists i. rewrite <- Hf2. split_and!; [done..|]. intros j. by rewrite Hfl, Hf2.
  - destruct existing; [|done]. by apply same_key_spec in Hex as [? _].
  - intros j ej Hj Hoj Hkj. destruct existing.
    + apply same_key_spec in Hex as [Hoo Hko]. eapply (sa_keys _ Hc2 j i); done.
    + simpl in Hkj. destruct Hex as [_ Hall]. rewrite He2 in Hj. rewrite Forall_lookup in Hall.
      specialize (Hall _ _ Hj). by rewrite (proj2 (same_key_spec ej k)) in Hall.
Qed.

(** The owner's completion ends the refresh, whatever else it says. *)
Lemma complete_flight c refresh i now success cacheable reval ttl grace payload ok c1 :
  sane c -> rf_entry_index refresh = Some i -> flight c i = Some (rf_serial refresh) ->
  pg_oauth_cache_complete_refresh (Some c) (Some refresh) now success cacheable reval ttl grace
    payload = (ok, c1) ->
  exists c', c1 = Some c' /\ sane c' /\
    forall j, flight c' j = if decide (j = i) then None else flight c j.
Proof.
  intros Hc Hidx Hf. unfold pg_oauth_cache_complete_refresh. rewrite Hidx. simpl.
  unfold flight in Hf. destruct (ca_entries c !! i) as [e|] eqn:Hi; [|done]. simpl in Hf.
  unfold entry_flight in Hf. destruct (ce_refreshing e) eqn:Er; [|done]. injection Hf as Hser.
  destruct (sa_free _ Hc _ _ Hi Er) as [Ho Hn0]. simpl. rewrite <- Hser.
  rewrite (proj2 (Z.eqb_neq _ _) Hn0), Ho, Er, Z.eqb_refl. simpl.
  assert (forall k e', entry_flight e' = None ->
    (ce_occupied e' = true -> ce_occupied e = true /\ ce_key e' = ce_key e) ->
    sane (set_entry i e' c) /\ sane (count_in k (set_entry i e' c)) /\
    forall j, flight (set_entry i e' c) j = if decide (j = i) then None else flight c j) as Hset.
  { intros k e' Hfe Hke.
    assert (sane (set_entry i e' c)) as Hs.
    { eapply sane_update; [done..| |done]. unfold entry_flight in Hfe. by destruct (ce_refreshing e'). }
    split_and!; [done|by apply sane_count|]. intros j. rewrite (flight_set _ _ _ _ _ Hi).
    by case_decide. }
  assert (entry_flight (release e) = None /\
    (ce_occupied (release e) = true -> ce_occupied e = true /\ ce_key (release e) = ce_key e)) as [R1 R2].
  { unfold release, entry_flight. destruct (ce_has_value e); simpl; by split. }
  repeat case_match; intros [= <- <-]; eexists; (split; [done|]).
  - by destruct (Hset failures _ R1 R2) as (_ & ? & ?).
  - by destruct (Hset failures _ R1 R2) as (_ & ? & ?).
  - by destruct (Hset failures entry_zero) as (? & _ & ?).
  - by destruct (Hset failures (publish now reval ttl grace (default [] payload) e)) as (? & _ & ?).
Qed.

(** ** The system *)

#[local] Arguments pg_oauth_cache_lookup : simpl never.
#[local] Arguments pg_oauth_cache_begin_refresh : simpl never.
#[local] Arguments pg_oauth_cache_complete_refresh : simpl never.
#[local] Arguments pg_oauth_cache_copy_payload : simpl never.
#[local] Arguments pg_oauth_shared_cache_attach : simpl never.

(** The view of a backend that is attached to the segment. *)
Definition env_of (s : PgOAuthSharedCacheState) : shared_env :=
  {| sv_segment := Some s; sv_attached := true; sv_configured_capacity := ss_capacity s |}.

(** The program a backend still has to run, unless an interrupt has ended it. *)
Inductive status (A : Type) :=
| Running (p : prog A)
| Interrupted.
Arguments Running {A} p.
Arguments Interrupted {A}.

Record thread (A : Type) := { th_trace : list event; th_status : status A }.
Arguments Build_thread {A}.
Arguments th_trace {A}.
Arguments th_status {A}.

Section Serving.
Context `{U : CurlUrl} `{D : NamedDsm}.

(** How a call is answered, and what it leaves in the segment.  A backend that
    waits has found the refresh in progress in some state [before] the one in
    which it wakes up. *)
Definition serve (c : io_call)
  : answer c -> PgOAuthSharedCacheState -> PgOAuthSharedCacheState -> Prop :=
  match c with
  | call_lookup key now stale size => fun r s s' =>
      shared_io_lookup key now stale size (env_of s) = (r, env_of s')
  | call_begin_refresh key now unknown_kid cooldown => fun r s s' =>
      shared_io_begin key now unknown_kid cooldown (env_of s) = (fst r, snd r, env_of s')
  | call_wait_refresh key timeout => fun r s s' =>
      s' = s /\ exists before,
        shared_io_wait key timeout (fun _ => env_of s) (env_of before) = (fst r, snd r, env_of s)
  | call_complete_refresh refresh now success cacheable revalidation ttl grace payload =>
      fun r s s' =>
        shared_io_complete refresh now success cacheable revalidation ttl grace payload
          (env_of s) = (r, env_of s')
  | call_http_get url policy => fun r s s' => s' = s /\ answer_ok (call_http_get url policy) r
  end.

(** *** Serving *)

Definition segment_ok (s : PgOAuthSharedCacheState) : Prop :=
  ss_capacity s = u32 (ss_capacity s) /\ sane (cache_view s).

Lemma attach_env_of s : segment_ok s -> pg_oauth_shared_cache_attach (env_of s) = (true, env_of s).
Proof.
  intros [Hc _]. unfold pg_oauth_shared_cache_attach, capacity_agrees. simpl.
  by rewrite <- Hc, Z.eqb_refl.
Qed.

Lemma env_of_inj s s' : env_of s = env_of s' -> s = s'.
Proof. by intros [= ->]. Qed.

Lemma store_env c s : sane c -> segment_ok s ->
  {| sv_segment := Some (store_view c s); sv_attached := true;
     sv_configured_capacity := ss_capacity s |} = env_of (store_view c s) /\
  segment_ok (store_view c s) /\ cache_view (store_view c s) = c.
Proof. intros Hc [Hs _]. rewrite view_store. split_and!; [done| |done]. split; [done|by rewrite view_store]. Qed.

(** What each call does to the refreshes in flight. *)
Lemma serve_lookup key now stale size r s s' :
  segment_ok s -> serve (call_lookup key now stale size) r s s' ->
  segment_ok s' /\ (forall j, flight (cache_view s') j = flight (cache_view s) j) /\
  answer_ok (call_lookup key now stale size) r.
Proof.
  intros Hs. simpl. unfold shared_io_lookup, pg_oauth_shared_cache_lookup.
  rewrite attach_env_of by done. cbn [negb]. unfold lookup_and_copy.
  unfold locked. cbn [sv_segment env_of sv_attached sv_configured_capacity].
  destruct (pg_oauth_cache_lookup _ _ _ _) as [[f i] c1] eqn:El.
  apply lookup_flight in El as (c' & -> & Hc' & Hf & Hst); [|by apply Hs].
  destruct (store_env c' s Hc' Hs) as (He & Hok & Hv).
  case_bool_decide; [|destruct (pg_oauth_cache_copy_payload _ _ _) as [[? ?] ?]]; simpl;
    rewrite He; intros [= <- <-]; rewrite Hv; by split_and!.
Qed.

Lemma serve_begin key now uk cd r s s' :
  segment_ok s -> serve (call_begin_refresh key now uk cd) r s s' ->
  segment_ok s' /\
  if decide (fst r = PG_OAUTH_CACHE_REFRESH_STARTED)
  then exists i, rf_entry_index (snd r) = Some i /\ flight (cache_view s) i = None /\
    (forall j, flight (cache_view s') j =
       if decide (j = i) then Some (rf_serial (snd r)) else flight (cache_view s) j)
  else forall j, flight (cache_view s') j = flight (cache_view s) j.
Proof.
  intros Hs. simpl. unfold shared_io_begin, pg_oauth_shared_cache_begin_refresh.
  rewrite attach_env_of by done. cbn [negb].
  unfold locked. cbn [sv_segment env_of sv_attached sv_configured_capacity].
  destruct (pg_oauth_cache_begin_refresh _ _ _ _ _) as [[result refresh] c1] eqn:Eb.
  apply begin_flight in Eb as (c' & -> & Hc' & Hf); [|by apply Hs].
  destruct (store_env c' s Hc' Hs) as (He & Hok & Hv). simpl. rewrite He.
  intros E. injection E as E1 E2 E3. destruct r as [r1 r2]. simpl in *. subst.
  rewrite Hv. by split.
Qed.

Lemma serve_complete refresh now su ca re ttl gr pl r s s' i :
  segment_ok s -> rf_entry_index refresh = Some i ->
  flight (cache_view s) i = Some (rf_serial refresh) ->
  serve (call_complete_refresh refresh now su ca re ttl gr pl) r s s' ->
  segment_ok s' /\
  forall j, flight (cache_view s') j = if decide (j = i) then None else flight (cache_view s) j.
Proof.
  intros Hs Hi Hfl. simpl. unfold shared_io_complete, pg_oauth_shared_cache_complete_refresh.
  rewrite attach_env_of by done. cbn [negb].
  unfold locked. cbn [sv_segment env_of sv_attached sv_configured_capacity].
  destruct (pg_oauth_cache_complete_refresh _ _ _ _ _ _ _ _ _) as [ok c1] eqn:Ec.
  eapply complete_flight in Ec as (c' & -> & Hc' & Hf); [|by apply Hs|done..].
  destruct (store_env c' s Hc' Hs) as (He & Hok & Hv). simpl. rewrite He.
  intros [= <- <-]. by rewrite Hv.
Qed.
End Serving.

Section System.
Context `{U : CurlUrl} `{D : NamedDsm} {A : Type}.

Definition system : Type := PgOAuthSharedCacheState * list (thread A).

(** The sleep on the condition variable is the only call during which a pending
    interrupt is raised: the transfer polls for it and returns, and the lock
    holds interrupts off. *)
Inductive step : system -> system -> Prop :=
| step_call s s' ts a tr c k r :
    ts !! a = Some {| th_trace := tr; th_status := Running (Call c k) |} ->
    serve c r s s' ->
    step (s, ts) (s', <[a := {| th_trace := tr ++ [Ev c r]; th_status := Running (k r) |}]> ts)
| step_interrupt s ts a tr key timeout k :
    ts !! a = Some {| th_trace := tr;
                      th_status := Running (Call (call_wait_refresh key timeout) k) |} ->
    step (s, ts) (s, <[a := {| th_trace := tr; th_status := Interrupted |}]> ts).

Inductive steps : nat -> system -> system -> Prop :=
| steps_none x : steps 0 x x
| steps_more n x y z : steps n x y -> step y z -> steps (S n) x z.

End System.
Arguments step {U D A}.
Arguments steps {U D A}.

(** ** Ownership across backends *)

Section Owners.
Context `{U : CurlUrl} `{D : NamedDsm} {A : Type}.
Implicit Types (t : thread A) (ts : list (thread A)).

(** The refresh a backend owns. *)
Definition owned t : option PgOAuthCacheRefresh := mjoin (own None (th_trace t)).

(** The rest of the program keeps to the discipline of [own]. *)
Definition disciplined (o : option PgOAuthCacheRefresh) (p : prog A) : Prop :=
  forall tr a, exec p tr a -> own o tr = Some None.

Definition thread_ok t : Prop :=
  exists o, own None (th_trace t) = Some o /\
    match th_status t with
    | Running p => disciplined o p
    | Interrupted => o = None
    end.

(** Refreshes in flight and owners match one to one. *)
Record held (c : PgOAuthCache) ts : Prop := {
  he_owner : forall a t r, ts !! a = Some t -> owned t = Some r ->
    exists i, rf_entry_index r = Some i /\ flight c i = Some (rf_serial r);
  he_owned : forall i serial, flight c i = Some serial ->
    exists a t r, ts !! a = Some t /\ owned t = Some r /\ rf_entry_index r = Some i;
  he_single : forall a b ta tb ra rb, ts !! a = Some ta -> ts !! b = Some tb ->
    owned ta = Some ra -> owned tb = Some rb -> rf_entry_index ra = rf_entry_index rb -> a = b
}.

(** Every program can be run: the network has an answer for every request. *)
Lemma exec_exists (p : prog A) : exists tr a, exec p tr a.
Proof.
  eexists _, _. apply (replay_exec (network_oracle IssuerKeyExample.network)).
  apply network_oracle_ok.
Qed.

Lemma disciplined_call o c k r :
  disciplined o (Call c k) -> answer_ok c r ->
  exists o', own_step o (Ev c r) = Some o' /\ disciplined o' (k r).
Proof.
  intros Hd Ha.
  assert (forall tr a, exec (k r) tr a ->
    own_step o (Ev c r) ≫= (fun o' => own o' tr) = Some None) as Hk.
  { intros tr a He. apply (Hd (Ev c r :: tr) a). by exists r, tr. }
  destruct (exec_exists (k r)) as (tr & a & He). pose proof (Hk _ _ He) as Ho.
  destruct (own_step o (Ev c r)) as [o'|] eqn:Es; [|done]. exists o'. split; [done|].
  intros tr' a' He'. exact (Hk _ _ He').
Qed.

Lemma lookup_replace ts a t t' b u :
  ts !! a = Some t -> <[a := t']> ts !! b = Some u ->
  (b = a /\ u = t') \/ (b <> a /\ ts !! b = Some u).
Proof.
  intros Ha Hb. destruct (decide (a = b)) as [<-|Hne].
  - rewrite list_lookup_insert_eq in Hb by (by eapply lookup_lt_Some). left. naive_solver.
  - rewrite list_lookup_insert_ne in Hb by done. right. auto.
Qed.

Lemma lookup_replace_self ts a t t' : ts !! a = Some t -> <[a := t']> ts !! a = Some t'.
Proof. intros Ha. apply list_lookup_insert_eq. by eapply lookup_lt_Some. Qed.

Lemma lookup_replace_other ts a t' b u :
  b <> a -> ts !! b = Some u -> <[a := t']> ts !! b = Some u.
Proof. intros Hne Hb. by rewrite list_lookup_insert_ne. Qed.

(** A step that leaves the owners alone. *)
Lemma held_same c c' ts a t t' :
  held c ts -> ts !! a = Some t -> owned t' = owned t ->
  (forall j, flight c' j = flight c j) -> held c' (<[a := t']> ts).
Proof.
  intros [H1 H2 H3] Ha Ho Hf. split.
  - intros b u r Hb Hr.
    apply (lookup_replace _ _ _ _ _ _ Ha) in Hb as [[-> ->]|[_ Hb]].
    + rewrite Ho in Hr. destruct (H1 _ _ _ Ha Hr) as (i & ? & ?). exists i. by rewrite Hf.
    + destruct (H1 _ _ _ Hb Hr) as (i & ? & ?). exists i. by rewrite Hf.
  - intros i serial. rewrite Hf. intros (b & u & r & Hb & Hr & Hi)%H2.
    destruct (decide (b = a)) as [->|Hne].
    + exists a, t', r. split_and!; [by eapply lookup_replace_self| |done].
      assert (u = t) as -> by congruence. congruence.
    + exists b, u, r. split_and!; [by apply lookup_replace_other|done..].
  - intros b1 b2 u1 u2 r1 r2 Hb1 Hb2 Hr1 Hr2 Hi.
    apply (lookup_replace _ _ _ _ _ _ Ha) in Hb1 as [[-> ->]|[_ Hb1]];
      apply (lookup_replace _ _ _ _ _ _ Ha) in Hb2 as [[-> ->]|[_ Hb2]];
      try rewrite Ho in *; eauto.
Qed.

(** A refresh begins in a slot that had none. *)
Lemma held_begin c c' ts a t t' r i :
  held c ts -> ts !! a = Some t -> owned t = None -> owned t' = Some r ->
  rf_entry_index r = Some i -> flight c i = None ->
  (forall j, flight c' j = if decide (j = i) then Some (rf_serial r) else flight c j) ->
  held c' (<[a := t']> ts).
Proof.
  intros [H1 H2 H3] Ha Ho Ho' Hi Hn Hf.
  assert (forall b u q, ts !! b = Some u -> owned u = Some q ->
    exists j, rf_entry_index q = Some j /\ j <> i /\ flight c' j = Some (rf_serial q)) as Hold.
  { intros b u q Hb Hq. destruct (H1 _ _ _ Hb Hq) as (j & Hj & Hfj). exists j.
    assert (j <> i) as Hne by congruence. split_and!; [done..|]. rewrite Hf. by rewrite decide_False. }
  split.
  - intros b u q Hb Hq. apply (lookup_replace _ _ _ _ _ _ Ha) in Hb as [[-> ->]|[_ Hb]].
    + exists i. assert (q = r) as -> by congruence. split; [done|]. rewrite Hf. by rewrite decide_True.
    + destruct (Hold _ _ _ Hb Hq) as (j & ? & _ & ?). eauto.
  - intros j serial. rewrite Hf. case_decide as Hji.
    + intros [= <-]. subst. exists a, t', r. split_and!; [by eapply lookup_replace_self|done..].
    + intros (b & u & q & Hb & Hq & Hj)%H2. exists b, u, q.
      split_and!; [apply lookup_replace_other; [congruence|done]|done..].
  - intros b1 b2 u1 u2 q1 q2 Hb1 Hb2 Hq1 Hq2 He.
    apply (lookup_replace _ _ _ _ _ _ Ha) in Hb1 as [[-> ->]|[_ Hb1]];
      apply (lookup_replace _ _ _ _ _ _ Ha) in Hb2 as [[-> ->]|[_ Hb2]]; eauto.
    + destruct (Hold _ _ _ Hb2 Hq2) as (j & Hj & Hne & _). congruence.
    + destruct (Hold _ _ _ Hb1 Hq1) as (j & Hj & Hne & _). congruence.
Qed.

(** The owner's refresh ends. *)
Lemma held_complete c c' ts a t t' r i :
  held c ts -> ts !! a = Some t -> owned t = Some r -> owned t' = None ->
  rf_entry_index r = Some i ->
  (forall j, flight c' j = if decide (j = i) then None else flight c j) ->
  held c' (<[a := t']> ts).
Proof.
  intros [H1 H2 H3] Ha Ho Ho' Hi Hf. split.
  - intros b u q Hb Hq. apply (lookup_replace _ _ _ _ _ _ Ha) in Hb as [[-> ->]|[Hne Hb]];
      [congruence|].
    destruct (H1 _ _ _ Hb Hq) as (j & Hj & Hfj). exists j. split; [done|]. rewrite Hf.
    rewrite decide_False; [done|]. intros ->. apply Hne. eapply (H3 b a u t q r); congruence.
  - intros j serial. rewrite Hf. case_decide as Hji; [done|].
    intros (b & u & q & Hb & Hq & Hj)%H2. exists b, u, q.
    split_and!; [|done..]. apply lookup_replace_other; [|done]. intros ->.
    assert (u = t) as -> by congruence. congruence.
  - intros b1 b2 u1 u2 q1 q2 Hb1 Hb2 Hq1 Hq2 He.
    apply (lookup_replace _ _ _ _ _ _ Ha) in Hb1 as [[-> ->]|[_ Hb1]]; [congruence|].
    apply (lookup_replace _ _ _ _ _ _ Ha) in Hb2 as [[-> ->]|[_ Hb2]]; [congruence|]. eauto.
Qed.
End Owners.

(** *** One step of [own] per call *)

Lemma own_snoc o tr e : own o (tr ++ [e]) = own o tr ≫= fun o' => own_step o' e.
Proof.
  rewrite own_app. destruct (own o tr) as [o'|]; [|done].
  change (own_step o' e ≫= Some = own_step o' e). by destruct (own_step o' e).
Qed.

Lemma own_step_lookup o o' key now stale size (r : answer (call_lookup key now stale size)) :
  own_step o (Ev (call_lookup key now stale size) r) = Some o' -> o = None /\ o' = None.
Proof. destruct o; simpl; [done|]. by intros [= <-]. Qed.

Lemma own_step_wait o o' key timeout (r : answer (call_wait_refresh key timeout)) :
  own_step o (Ev (call_wait_refresh key timeout) r) = Some o' -> o = None /\ o' = None.
Proof. destruct o; simpl; [done|]. by intros [= <-]. Qed.

Lemma own_step_get o o' url policy (r : answer (call_http_get url policy)) :
  own_step o (Ev (call_http_get url policy) r) = Some o' -> o' = o.
Proof. simpl. by destruct o; intros [= <-]. Qed.

Lemma own_step_begin o o' key now uk cd (r : answer (call_begin_refresh key now uk cd)) :
  own_step o (Ev (call_begin_refresh key now uk cd) r) = Some o' ->
  o = None /\ o' = if decide (fst r = PG_OAUTH_CACHE_REFRESH_STARTED) then Some (snd r) else None.
Proof.
  destruct r as [[] refresh]; destruct o; simpl; try done; intros [= <-]; done.
Qed.

Lemma own_step_complete o o' refresh now su ca re ttl gr pl
    (r : answer (call_complete_refresh refresh now su ca re ttl gr pl)) :
  own_step o (Ev (call_complete_refresh refresh now su ca re ttl gr pl) r) = Some o' ->
  o' = None /\ exists mine, o = Some mine /\ rf_entry_index refresh = rf_entry_index mine /\
    rf_serial refresh = rf_serial mine.
Proof.
  destruct o as [mine|]; simpl; [|done]. case_decide as Hd; [|done]. intros [= <-].
  split; [done|]. exists mine. tauto.
Qed.

(** ** The invariant of the system *)

Section Invariant.
Context `{U : CurlUrl} `{D : NamedDsm} {A : Type}.
Implicit Types (x y : @system A) (t : thread A).

Definition system_ok x : Prop :=
  segment_ok (fst x) /\ Forall thread_ok (snd x) /\ held (cache_view (fst x)) (snd x).

Lemma serve_answer_ok c r s s' : segment_ok s -> serve c r s s' -> answer_ok c r.
Proof.
  intros Hs. destruct c; try done.
  - intros Hr. by destruct (serve_lookup _ _ _ _ _ _ _ Hs Hr) as (_ & _ & ?).
  - by intros [_ ?].
Qed.

(** What a call of one backend does to the segment and the ownership. *)
Lemma call_held s s' (ts : list (thread A)) a tr c k r o o' :
  segment_ok s -> held (cache_view s) ts ->
  ts !! a = Some {| th_trace := tr; th_status := Running (Call c k) |} ->
  own None tr = Some o -> serve c r s s' -> own_step o (Ev c r) = Some o' ->
  segment_ok s' /\
  held (cache_view s') (<[a := {| th_trace := tr ++ [Ev c r]; th_status := Running (k r) |}]> ts).
Proof.
  intros Hs Hh Ha Ho Hserve Hstep.
  set (t := {| th_trace := tr; th_status := Running (Call c k) |}) in *.
  set (t' := {| th_trace := tr ++ [Ev c r]; th_status := Running (k r) |}).
  assert (owned t = o) as Hot by (unfold owned; simpl; by rewrite Ho).
  assert (owned t' = o') as Hot'.
  { unfold owned. simpl. rewrite own_snoc, Ho. change (mjoin (own_step o (Ev c r)) = o').
    by rewrite Hstep. }
  destruct c as [key now stale size|key now uk cd|key timeout|refresh now su ca re ttl gr pl|url pol].
  - apply own_step_lookup in Hstep as [-> ->].
    destruct (serve_lookup _ _ _ _ _ _ _ Hs Hserve) as (? & Hf & _). split; [done|].
    eapply held_same; [done..|congruence|done].
  - apply own_step_begin in Hstep as [-> ->].
    destruct (serve_begin _ _ _ _ _ _ _ Hs Hserve) as [? Hf]. split; [done|]. case_decide.
    + destruct Hf as (i & Hi & Hn & Hf). by eapply held_begin.
    + eapply held_same; [done..|congruence|done].
  - apply own_step_wait in Hstep as [-> ->]. destruct Hserve as [-> _]. split; [done|].
    eapply held_same; [done..|congruence|done].
  - apply own_step_complete in Hstep as (-> & mine & -> & Hi & Hser).
    destruct (he_owner _ _ Hh _ _ _ Ha Hot) as (i & Hmi & Hmf). rewrite Hmi in Hi.
    rewrite <- Hser in Hmf.
    destruct (serve_complete _ _ _ _ _ _ _ _ _ _ _ _ Hs Hi Hmf Hserve) as [? Hf].
    split; [done|]. by eapply held_complete.
  - apply own_step_get in Hstep as ->. destruct Hserve as [-> _]. split; [done|].
    eapply held_same; [done..|congruence|done].
Qed.

Lemma step_ok x y : system_ok x -> step x y -> system_ok y.
Proof.
  intros (Hs & Ht & Hh) Hxy.
  destruct Hxy as [s s' ts a tr c k r Ha Hserve|s ts a tr key timeout k Ha]; simpl in *;
    pose proof (proj1 (Forall_lookup _ _) Ht _ _ Ha) as (o & Ho & Hd); simpl in Ho, Hd.
  - destruct (disciplined_call o c k r Hd (serve_answer_ok _ _ _ _ Hs Hserve)) as (o' & Hstep & Hd').
    destruct (call_held s s' ts a tr c k r o o' Hs Hh Ha Ho Hserve Hstep) as [Hs' Hh'].
    split_and!; [done| |done]. apply Forall_insert; [done|]. exists o'. split; [|done].
    simpl. rewrite own_snoc, Ho. exact Hstep.
  - destruct (exec_exists (Call (call_wait_refresh key timeout) k)) as (tr' & a' & He).
    pose proof (Hd _ _ He) as Hown. destruct He as (r & tr1 & -> & _ & _). simpl in Hown.
    assert (o = None) as -> by (by destruct o).
    split_and!; [done| |].
    + apply Forall_insert; [done|]. by exists None.
    + eapply held_same; [done..| |done]. done.
Qed.

Lemma steps_ok n x y : system_ok x -> steps n x y -> system_ok y.
Proof. intros Hx. induction 1; [done|]. by eapply step_ok; [apply IHsteps|]. Qed.
End Invariant.

(** ** Termination *)

Lemma sum_insert {T} (f : T -> nat) (l : list T) a x y :
  l !! a = Some x -> (sum_list_with f (<[a := y]> l) + f x = sum_list_with f l + f y)%nat.
Proof.
  revert a. induction l as [|z l IH]; intros [|a] Ha; simplify_eq/=; [lia|].
  specialize (IH _ Ha). lia.
Qed.

Section Termination.
Context `{U : CurlUrl} `{D : NamedDsm} {A : Type}.
Implicit Types (x y : @system A) (t : thread A).

Definition call_limit : nat := 11.

(** No run of the backend makes more than [call_limit] calls. *)
Definition bounded_thread t : Prop :=
  match th_status t with
  | Running p => forall tr a, exec p tr a -> (length (th_trace t) + length tr <= call_limit)%nat
  | Interrupted => True
  end.

(** What a backend can still do. *)
Definition weight t : nat :=
  match th_status t with
  | Running _ => S call_limit - length (th_trace t)
  | Interrupted => 0
  end.

Lemma bounded_running t p :
  bounded_thread t -> th_status t = Running p -> (length (th_trace t) <= call_limit)%nat.
Proof.
  unfold bounded_thread. intros Hb Hp. rewrite Hp in Hb.
  destruct (exec_exists p) as (tr & a & He). specialize (Hb _ _ He). lia.
Qed.

(** Every step uses some of it up. *)
Lemma step_weight x y :
  segment_ok (fst x) -> Forall bounded_thread (snd x) -> step x y ->
  Forall bounded_thread (snd y) /\
  (sum_list_with weight (snd y) < sum_list_with weight (snd x))%nat.
Proof.
  intros Hs Hb Hxy.
  destruct Hxy as [s s' ts a tr c k r Ha Hserve|s ts a tr key timeout k Ha]; simpl in *;
    pose proof (proj1 (Forall_lookup _ _) Hb _ _ Ha) as Hbt.
  - set (t' := {| th_trace := tr ++ [Ev c r]; th_status := Running (k r) |}).
    assert (bounded_thread t') as Hbt'.
    { intros tr' a' He. simpl. rewrite length_app. simpl.
      assert (exec (Call c k) (Ev c r :: tr') a') as He'
        by (exists r, tr'; split_and!; [done|by eapply serve_answer_ok|done]).
      specialize (Hbt _ _ He'). simpl in Hbt. lia. }
    split; [by apply Forall_insert|].
    pose proof (sum_insert weight ts a _ t' Ha) as Hsum.
    pose proof (bounded_running _ _ Hbt' eq_refl) as Hl. unfold weight in Hsum at 2 4. simpl in Hsum.
    simpl in Hl. rewrite length_app in *. simpl in *. lia.
  - split; [by apply Forall_insert|].
    pose proof (sum_insert weight ts a _ {| th_trace := tr; th_status := Interrupted |} Ha) as Hsum.
    pose proof (bounded_running _ _ Hbt eq_refl) as Hl. unfold weight in Hsum at 2 4. simpl in *. lia.
Qed.

Lemma steps_bound n x y :
  system_ok x -> Forall bounded_thread (snd x) -> steps n x y ->
  Forall bounded_thread (snd y) /\
  (n + sum_list_with weight (snd y) <= sum_list_with weight (snd x))%nat.
Proof.
  intros Hx Hb Hxy. induction Hxy as [|n x y z Hxy IH Hyz]; [by split|].
  destruct (IH Hx Hb) as [Hby Hn]. pose proof (steps_ok _ _ _ Hx Hxy) as (Hs & _).
  destruct (step_weight _ _ Hs Hby Hyz). split; [done|lia].
Qed.

(** Every call is answered. *)
Lemma serve_total c s : segment_ok s -> exists r s', serve c r s s'.
Proof.
  intros Hs.
  assert (forall c', {| sv_segment := Some (store_view c' s); sv_attached := true;
    sv_configured_capacity := ss_capacity s |} = env_of (store_view c' s)) as He by done.
  destruct c as [key now stale size|key now uk cd|key timeout|refresh now su ca re ttl gr pl|url pol];
    cbn [serve answer].
  - unfold shared_io_lookup, pg_oauth_shared_cache_lookup, locked. rewrite attach_env_of by done.
    cbn [negb sv_segment env_of sv_attached sv_configured_capacity].
    destruct (lookup_and_copy _ _ _ _ _) as [v c']. rewrite He. eauto.
  - unfold shared_io_begin, pg_oauth_shared_cache_begin_refresh, locked. rewrite attach_env_of by done.
    cbn [negb sv_segment env_of sv_attached sv_configured_capacity].
    destruct (pg_oauth_cache_begin_refresh _ _ _ _ _) as [[r1 r2] c']. rewrite He.
    by eexists (r1, r2), _.
  - destruct (pg_oauth_shared_cache_wait_refresh (Some key) timeout (fun _ => env_of s) (env_of s))
      as [[r1 r2] e] eqn:Ew.
    exists (r1, r2), s. split; [done|]. exists s. unfold shared_io_wait. rewrite Ew. f_equal.
    revert Ew. unfold pg_oauth_shared_cache_wait_refresh. rewrite attach_env_of by done.
    repeat case_match; by intros [= _ _ <-].
  - unfold shared_io_complete, pg_oauth_shared_cache_complete_refresh, locked.
    rewrite attach_env_of by done. cbn [negb sv_segment env_of sv_attached sv_configured_capacity].
    destruct (pg_oauth_cache_complete_refresh _ _ _ _ _ _ _ _ _) as [ok c']. rewrite He. eauto.
  - exists (network_oracle IssuerKeyExample.network (call_http_get url pol)), s. split; [done|].
    apply (network_oracle_ok IssuerKeyExample.network (call_http_get url pol)).
Qed.

Definition finished t : Prop :=
  match th_status t with Running (Call _ _) => False | _ => True end.

(** A system that cannot move has finished. *)
Lemma stuck_finished x : segment_ok (fst x) -> ~ (exists y, step x y) -> Forall finished (snd x).
Proof.
  destruct x as [s ts]. simpl. intros Hs Hno. apply Forall_lookup. intros a [tr [[b|c k]|]] Ha; try done.
  destruct (serve_total c s Hs) as (r & s' & Hr). destruct Hno. eexists. by eapply step_call.
Qed.

Lemma finished_releases x i :
  system_ok x -> Forall finished (snd x) -> flight (cache_view (fst x)) i = None.
Proof.
  intros (_ & Ht & Hh) Hf. destruct (flight _ i) as [serial|] eqn:E; [|done]. exfalso.
  destruct (he_owned _ _ Hh _ _ E) as (a & t & r & Ha & Hr & _).
  rewrite Forall_lookup in Ht, Hf. destruct (Ht _ _ Ha) as (o & Ho & Hd). specialize (Hf _ _ Ha).
  unfold owned in Hr. rewrite Ho in Hr. simpl in Hr. subst o. unfold finished in Hf.
  destruct (th_status t) as [[b|c k]|]; [|done..].
  by specialize (Hd [] b (conj eq_refl eq_refl)).
Qed.
End Termination.

(** ** Properties *)

Section Properties.
Context `{J : Jansson} `{S : OpenSsl} `{U : CurlUrl} `{L : LibJwt} `{D : NamedDsm}.

(** A backend about to run the callback for some token, role and settings. *)
Definition backend_starts (t : thread (bool * ValidatorModuleResult)) : Prop :=
  exists curl_getdate malloc host_malloc b token role,
    t = {| th_trace := [];
           th_status := Running (fst (pg_oauth_validator_validate curl_getdate malloc host_malloc
                                        b token role)) |}.

Lemma callback_trace curl_getdate malloc host_malloc b token role tr out :
  exec (fst (pg_oauth_validator_validate curl_getdate malloc host_malloc b token role)) tr out ->
  own None tr = Some None /\ (length tr <= call_limit)%nat.
Proof.
  intros He%callback_runs.
  assert (tr = [] \/ exists answer text p, exec (pipeline curl_getdate malloc b p text role) tr answer)
    as [->|(answer & text & p & Hp)].
  { destruct (prepare host_malloc b) as [[p|] e]; [|left; tauto].
    destruct He as [(? & _)|(text & answer & _ & ? & _)]; [by left|]. right. eauto. }
  { split; [done|]. unfold call_limit. simpl. lia. }
  unfold pipeline in Hp.
  apply validate_runs in Hp as [[-> _]|(? & ? & ? & ? & ? & ? & ? & ? & ? & ? & _ & _ & _ & _ & Hf & _)].
  { split; [done|]. unfold call_limit. simpl. lia. }
  apply fetch_cached_runs in Hf as [[-> _]|(q & cache & o & _ & _ & _ & Hf & _)].
  { split; [done|]. unfold call_limit. simpl. lia. }
  split; [eapply fetch_with_own; exact Hf|].
  eapply fetch_with_within in Hf as (_ & _ & _ & Hl). exact Hl.
Qed.

Lemma backend_starts_ok t : backend_starts t -> thread_ok t /\ bounded_thread t /\ owned t = None.
Proof.
  intros (g & m & h & b & token & role & ->). split_and!; [| |done].
  - exists None. split; [done|]. intros tr out He. by apply callback_trace in He as [? _].
  - intros tr out He. by apply callback_trace in He as [_ ?].
Qed.

Lemma starts_ok s ts :
  shared_ok s -> (forall i, flight (cache_view s) i = None) -> Forall backend_starts ts ->
  system_ok (s, ts) /\ Forall bounded_thread ts.
Proof.
  intros Hs Hf Ht.
  assert (Forall (fun t => thread_ok t /\ bounded_thread t /\ owned t = None) ts) as Hall
    by (by eapply Forall_impl; [|apply backend_starts_ok]).
  apply Forall_and in Hall as [Hok Hrest]. apply Forall_and in Hrest as [Hb Ho].
  split; [|done]. split_and!; [|done|].
  - split; [|apply inv_sane, (so_cache _ Hs)]. simpl. unfold u32.
    rewrite Z.mod_small; [done|]. pose proof (so_capacity _ Hs). lia.
  - rewrite Forall_lookup in Ho. split; simpl.
    + intros a t r Ha Hr. by rewrite (Ho _ _ Ha) in Hr.
    + intros i serial. by rewrite Hf.
    + intros a b ta tb ra rb Ha _ Hr. by rewrite (Ho _ _ Ha) in Hr.
Qed.

(** C8: one owner per refresh.  However any number of backends interleave, from
    an idle cache: two backends never own refreshes of the same entry, nor of
    entries with the same key, so a document is fetched by at most one backend at a
    time; and every refresh in progress belongs to exactly one backend, which
    holds the matching handle, is still running and has calls to make.  No
    refresh is ever orphaned, even when interrupts end sleeping backends. *)
Theorem backends_single_flight n s ts s' ts' :
  shared_ok s -> (forall i, flight (cache_view s) i = None) -> Forall backend_starts ts ->
  steps n (s, ts) (s', ts') ->
  (forall a b ta tb ra rb, ts' !! a = Some ta -> ts' !! b = Some tb ->
     owned ta = Some ra -> owned tb = Some rb -> a <> b ->
     exists i j ei ej, rf_entry_index ra = Some i /\ rf_entry_index rb = Some j /\
       ca_entries (cache_view s') !! i = Some ei /\ ca_entries (cache_view s') !! j = Some ej /\
       i <> j /\ ce_key ei <> ce_key ej) /\
  (forall i serial, flight (cache_view s') i = Some serial ->
     exists a t r c k, ts' !! a = Some t /\ owned t = Some r /\ rf_entry_index r = Some i /\
       rf_serial r = serial /\ th_status t = Running (Call c k)).
Proof.
  intros Hs Hf Ht Hsteps. destruct (starts_ok _ _ Hs Hf Ht) as [Hok _].
  pose proof (steps_ok _ _ _ Hok Hsteps) as (Hseg & Hth & Hh). simpl in *. split.
  - intros a b ta tb ra rb Ha Hb Hra Hrb Hab.
    destruct (he_owner _ _ Hh _ _ _ Ha Hra) as (i & Hi & Hfi).
    destruct (he_owner _ _ Hh _ _ _ Hb Hrb) as (j & Hj & Hfj).
    assert (i <> j) as Hij by (intros ->; apply Hab, (he_single _ _ Hh a b ta tb ra rb Ha Hb Hra Hrb); congruence).
    unfold flight in Hfi, Hfj. destruct (ca_entries (cache_view s') !! i) as [ei|] eqn:Ei; [|done].
    destruct (ca_entries (cache_view s') !! j) as [ej|] eqn:Ej; [|done].
    exists i, j, ei, ej. split_and!; [done..|]. intros Hk. apply Hij.
    unfold entry_flight in *. simpl in Hfi, Hfj.
    destruct (ce_refreshing ei) eqn:Ri; [|done]. destruct (ce_refreshing ej) eqn:Rj; [|done].
    destruct Hseg as [_ Hsane].
    apply (sa_keys _ Hsane i j ei ej); [done..| | |done].
    + by apply (sa_free _ Hsane i ei).
    + by apply (sa_free _ Hsane j ej).
  - intros i serial Hi. destruct (he_owned _ _ Hh _ _ Hi) as (a & t & r & Ha & Hr & Hri).
    destruct (he_owner _ _ Hh _ _ _ Ha Hr) as (i' & Hri' & Hfi').
    assert (i' = i) as -> by congruence. assert (rf_serial r = serial) as Hser by congruence.
    rewrite Forall_lookup in Hth. destruct (Hth _ _ Ha) as (o & Ho & Hd).
    unfold owned in Hr. rewrite Ho in Hr. simpl in Hr. subst o.
    destruct (th_status t) as [[out|c k]|] eqn:Est; [|by exists a, t, r, c, k; split_and!; [|unfold owned; rewrite Ho|..]|done].
    by specialize (Hd [] out (conj eq_refl eq_refl)).
Qed.

(** C9: every execution ends, and ends clean.  With any number of backends, no
    execution has more than twelve steps per backend, whatever the network
    answers and however the steps interleave; as long as a backend has not
    finished some step is possible (there is no deadlock); and when no step is
    possible every backend has returned or was interrupted, and no refresh is in
    progress: the next client can refresh every document again. *)
Theorem backends_quiesce n s ts s' ts' :
  shared_ok s -> (forall i, flight (cache_view s) i = None) -> Forall backend_starts ts ->
  steps n (s, ts) (s', ts') ->
  (n <= 12 * length ts)%nat /\
  (~ (exists y, step (s', ts') y) ->
     Forall finished ts' /\ forall i, flight (cache_view s') i = None).
Proof.
  intros Hs Hf Ht Hsteps. destruct (starts_ok _ _ Hs Hf Ht) as [Hok Hb].
  pose proof (steps_ok _ _ _ Hok Hsteps) as Hok'. split.
  - destruct (steps_bound _ _ _ Hok Hb Hsteps) as [_ Hn]. simpl in Hn.
    enough (sum_list_with weight ts <= 12 * length ts)%nat by lia. clear -Ht.
    induction Ht as [|t ts (? & ? & ? & ? & ? & ? & ->) _ IH]; [done|]. simpl in *. lia.
  - intros Hno. assert (Forall finished ts') as Hfin by (apply (stuck_finished (s', ts')); [apply Hok'|done]).
    split; [done|]. intros i. by apply (finished_releases (s', ts')).
Qed.
End Properties.

(** ** Running one backend after the other *)

Section Sequential.
Context `{U : CurlUrl} `{D : NamedDsm}.
Context (network : option bytes -> Transfer).

(** The answer to a call when nothing happens in between, and the segment it
    leaves. *)
Definition respond (c : io_call) (s : PgOAuthSharedCacheState)
  : answer c * PgOAuthSharedCacheState :=
  let left e := default s (sv_segment e) in
  match c with
  | call_lookup key now stale size =>
      let '(r, e) := shared_io_lookup key now stale size (env_of s) in (r, left e)
  | call_begin_refresh key now unknown_kid cooldown =>
      let '(r, e) := shared_io_begin key now unknown_kid cooldown (env_of s) in (r, left e)
  | call_wait_refresh key timeout =>
      let '(r, _) := shared_io_wait key timeout (fun e => e) (env_of s) in (r, s)
  | call_complete_refresh refresh now success cacheable revalidation ttl grace payload =>
      let '(r, e) := shared_io_complete refresh now success cacheable revalidation ttl grace
                       payload (env_of s) in (r, left e)
  | call_http_get url policy => (network_oracle network (call_http_get url policy), s)
  end.

(** At most [n] calls of a program: the calls, what is left to run, and the
    segment. *)
Fixpoint run_calls {A} (n : nat) (p : prog A) (s : PgOAuthSharedCacheState)
  : list event * prog A * PgOAuthSharedCacheState :=
  match n, p with
  | S n, Call c k =>
      let '(r, s) := respond c s in
      let '(tr, q, s) := run_calls n (k r) s in
      (Ev c r :: tr, q, s)
  | _, _ => ([], p, s)
  end.

Lemma respond_serve c s : segment_ok s -> serve c (fst (respond c s)) s (snd (respond c s)).
Proof.
  intros Hs.
  destruct c as [key now stale size|key now uk cd|key timeout|refresh now su ca re ttl gr pl|url pol];
    cbn [serve respond].
  - unfold shared_io_lookup, pg_oauth_shared_cache_lookup, locked. rewrite attach_env_of by done.
    cbn [negb sv_segment env_of sv_attached sv_configured_capacity].
    by destruct (lookup_and_copy _ _ _ _ _) as [v c'].
  - unfold shared_io_begin, pg_oauth_shared_cache_begin_refresh, locked. rewrite attach_env_of by done.
    cbn [negb sv_segment env_of sv_attached sv_configured_capacity].
    by destruct (pg_oauth_cache_begin_refresh _ _ _ _ _) as [[r1 r2] c'].
  - destruct (shared_io_wait key timeout (fun e => e) (env_of s)) as [[r1 r2] e] eqn:Ew.
    split; [done|]. exists s. cbn [fst snd]. revert Ew.
    unfold shared_io_wait, pg_oauth_shared_cache_wait_refresh. rewrite attach_env_of by done.
    repeat case_match; by intros [= <- <- <-].
  - unfold shared_io_complete, pg_oauth_shared_cache_complete_refresh, locked.
    rewrite attach_env_of by done. cbn [negb sv_segment env_of sv_attached sv_configured_capacity].
    by destruct (pg_oauth_cache_complete_refresh _ _ _ _ _ _ _ _ _) as [ok c'].
  - split; [done|]. apply (network_oracle_ok network (call_http_get url pol)).
Qed.

Lemma steps_trans {A} n m (x y z : @system A) : steps n x y -> steps m y z -> steps (n + m) x z.
Proof.
  intros Hxy. induction 1 as [|m y z w _ IH Hzw]; [by rewrite Nat.add_0_r|].
  rewrite Nat.add_succ_r. by eapply steps_more; [apply IH|].
Qed.

(** Calls of one backend are an execution of the system. *)
Lemma run_calls_steps {A} n (p : prog A) s ts b tr :
  system_ok (s, ts) -> ts !! b = Some {| th_trace := tr; th_status := Running p |} ->
  steps (length (fst (fst (run_calls n p s)))) (s, ts)
    (snd (run_calls n p s),
     <[b := {| th_trace := tr ++ fst (fst (run_calls n p s));
               th_status := Running (snd (fst (run_calls n p s))) |}]> ts).
Proof.
  revert p s ts tr. induction n as [|n IH]; intros [x|c k] s ts tr Hok Hb; cbn [run_calls];
    try (cbn [fst snd length]; rewrite app_nil_r, list_insert_id by done; constructor).
  pose proof (respond_serve c s (proj1 Hok)) as Hr. destruct (respond c s) as [r s1].
  cbn [fst snd] in Hr. pose proof (step_call s s1 ts b tr c k r Hb Hr) as Hstep.
  specialize (IH (k r) s1 _ (tr ++ [Ev c r]) (step_ok _ _ Hok Hstep)
    (lookup_replace_self _ _ _ _ Hb)).
  destruct (run_calls n (k r) s1) as [[tr' q] s2]. cbn [fst snd] in *.
  rewrite list_insert_insert_eq, <- app_assoc in IH.
  change (length (Ev c r :: tr')) with (1 + length tr')%nat.
  eapply steps_trans; [|exact IH]. eapply steps_more; [constructor|exact Hstep].
Qed.

(** Calls of one backend, then of another. *)
Lemma run_two_steps {A} n m (p q : prog A) s :
  let r := run_calls n p s in
  let r' := run_calls m q (snd r) in
  system_ok (s, [{| th_trace := []; th_status := Running p |};
                 {| th_trace := []; th_status := Running q |}]) ->
  steps (length (fst (fst r)) + length (fst (fst r')))
    (s, [{| th_trace := []; th_status := Running p |};
         {| th_trace := []; th_status := Running q |}])
    (snd r', [{| th_trace := fst (fst r); th_status := Running (snd (fst r)) |};
              {| th_trace := fst (fst r'); th_status := Running (snd (fst r')) |}]).
Proof.
  intros r r' Hok. pose proof (run_calls_steps n p s _ 0 [] Hok eq_refl) as H1.
  pose proof (run_calls_steps m q (snd r) _ 1 [] (steps_ok _ _ _ Hok H1) eq_refl) as H2.
  exact (steps_trans _ _ _ _ _ H1 H2).
Qed.
End Sequential.

(** The URLs fetched along a run. *)
Definition fetches (tr : list event) : list (option bytes) :=
  omap (fun e => match e with
                 | Ev (call_http_get url _) _ => Some url
                 | _ => None
                 end) tr.

Module BackendsExample.
Import ValidatorExample SharedExample CallbackExample.

(** A new segment of 32 entries. *)
Definition segment : PgOAuthSharedCacheState := initialize_shared_cache 32 blank.

Definition client : thread (bool * ValidatorModuleResult) :=
  {| th_trace := []; th_status := Running (fst (call false token)) |}.

(** Two clients: the first makes [n] calls, then the second [m]. *)
Definition first n := run_calls IssuerKeyExample.network n (fst (call false token)) segment.
Definition second n m :=
  run_calls IssuerKeyExample.network m (fst (call false token)) (snd (first n)).

Definition decided (p : prog (bool * ValidatorModuleResult)) :=
  match p with Ret out => Some out | Call _ _ => None end.

(** When the first has finished, the second is served from the cache. *)
Lemma second_cached :
  fetches (fst (fst (first 12))) =
    [Some IssuerKeyExample.metadata_url; Some IssuerKeyExample.jwks_url] /\
  fetches (fst (fst (second 12 12))) = [] /\
  decided (snd (fst (second 12 12))) =
    Some (true, {| mr_authorized := true; mr_authn_id := Some (B "user-7"); mr_error_detail := None |}).
Proof. vm_compute. by split_and!. Qed.

Lemma segment_shared_ok : shared_ok segment.
Proof.
  destruct env_attached as (s & Hs & _ & _ & Hok).
  change (sv_segment env) with (Some segment) in Hs. by injection Hs as ->.
Qed.

Lemma segment_idle i : flight (cache_view segment) i = None.
Proof.
  unfold flight. destruct (ca_entries (cache_view segment) !! i) as [e|] eqn:E; [|done].
  change (replicate 32 entry_zero !! i = Some e) in E. by apply lookup_replicate in E as [-> _].
Qed.

Lemma client_starts : backend_starts client.
Proof. unfold backend_starts, client, call. do 6 eexists. reflexivity. Qed.

Definition clients := [client; client].
Definition served n m : list (thread (bool * ValidatorModuleResult)) :=
  [{| th_trace := fst (fst (first n)); th_status := Running (snd (fst (first n))) |};
   {| th_trace := fst (fst (second n m)); th_status := Running (snd (fst (second n m))) |}].

Lemma clients_start : Forall backend_starts clients.
Proof. repeat constructor; apply client_starts. Qed.

Lemma clients_run n m :
  steps (length (fst (fst (first n))) + length (fst (fst (second n m)))) (segment, clients)
    (snd (second n m), served n m).
Proof.
  destruct (starts_ok segment clients segment_shared_ok segment_idle clients_start) as [Hok _].
  exact (run_two_steps IssuerKeyExample.network n m (fst (call false token))
           (fst (call false token)) segment Hok).
Qed.

(** The first client has begun the refresh of the metadata, the second is about
    to wait for it. *)
Lemma backends_single_flight_witness :
  exists a t r c k, served 2 2 !! a = Some t /\ owned t = Some r /\ rf_entry_index r = Some 0%nat /\
    rf_serial r = 1 /\ th_status t = Running (Call c k).
Proof.
  apply (proj2 (backends_single_flight _ _ _ _ _ segment_shared_ok segment_idle clients_start
           (clients_run 2 2))).
  vm_compute. reflexivity.
Defined.

Lemma backends_quiesce_witness :
  (length (fst (fst (first 12))) + length (fst (fst (second 12 12))) <= 24)%nat.
Proof.
  exact (proj1 (backends_quiesce _ _ _ _ _ segment_shared_ok segment_idle clients_start
           (clients_run 12 12))).
Defined.
End BackendsExample.

(** ** Unknown key ids over the shared cache *)

Module UnknownKid.
Import IssuerKeyExample SharedExample.

(** Retrievals one after the other: the URLs each fetched, and its error. *)
Fixpoint retrievals (l : list (bytes * Z)) (s : PgOAuthSharedCacheState)
  : list (list (option bytes) * option PgOAuthIssuerKeyError) :=
  match l with
  | [] => []
  | (kid, now) :: l =>
      let '(tr, rest, s) := run_calls network call_limit (fetch kid now) s in
      (fetches tr, match rest with Ret out => Some (fst out) | Call _ _ => None end) ::
      retrievals l s
  end.

Definition segment : PgOAuthSharedCacheState := initialize_shared_cache 32 blank.

(** The cooldown for unknown key ids at work, and where it ends.  With a cooldown of
    30 seconds: once the key set is cached, a first token with an unknown key id
    has it fetched again, and another such token 1 ms later is refused without a
    request.  But while the key set is not cached (at a cold start, or after
    its entry expired), every token with an unknown key id has the key set
    fetched, with no cooldown between them: the fetch counts as an ordinary
    refresh, and as no key is found its document is not stored either. *)
Theorem unknown_kid_cooldown :
  cp_unknown_kid_refresh_cooldown_ms cache_policy = 30000 /\
  retrievals [(B "k1", 1000); (B "nope", 2000); (B "nope", 2001)] segment =
    [([Some metadata_url; Some jwks_url], Some PG_OAUTH_ISSUER_KEY_OK);
     ([Some jwks_url], Some PG_OAUTH_ISSUER_KEY_JWKS_INVALID);
     ([], Some PG_OAUTH_ISSUER_KEY_CACHE)] /\
  retrievals [(B "nope", 1000); (B "nope", 1001); (B "nope", 1002)] segment =
    [([Some metadata_url; Some jwks_url], Some PG_OAUTH_ISSUER_KEY_JWKS_INVALID);
     ([Some jwks_url], Some PG_OAUTH_ISSUER_KEY_JWKS_INVALID);
     ([Some jwks_url], Some PG_OAUTH_ISSUER_KEY_JWKS_INVALID)].
Proof. vm_compute. by split_and!. Qed.
End UnknownKid.
