(* ===== verification/Coherence.v ===== *)
(** * What the shared cache gives its clients

    Three results about the cache and the retrieval together.  [publish_then_lookup]:
    what one backend publishes is what every backend gets, for exactly the lifetime
    it was published with.  [cache_transparent]: with fresh documents in the cache a
    retrieval gives the result it would have given from the network, without a
    request.  [unknown_kid_gate]: when a token with a key id the cached key set
    lacks has the key set fetched again. *)

From S2P Require Import Prelude Identity Jansson Envelope Claims Jwks CacheState CacheKey.
From S2P Require Import Policy Freshness Transport Metadata IssuerKey SharedCache Backends.

#[local] Arguments pg_oauth_cache_lookup : simpl never.
#[local] Arguments pg_oauth_cache_begin_refresh : simpl never.
#[local] Arguments pg_oauth_cache_complete_refresh : simpl never.
#[local] Arguments pg_oauth_cache_copy_payload : simpl never.
#[local] Arguments pg_oauth_shared_cache_attach : simpl never.
#[local] Arguments shared_io_lookup : simpl never.
#[local] Arguments pg_oauth_jwks_select : simpl never.
#[local] Arguments pg_oauth_metadata_parse : simpl never.
#[local] Arguments pg_oauth_http_url_host : simpl never.

(** ** The operations in terms of the map *)

Section Operations.
Context `{D : NamedDsm}.

Lemma env_of_attached s : shared_ok s -> attached_to (env_of s) s.
Proof.
  intros Hs. split_and!; try done. unfold capacity_agrees. simpl. destruct Hs.
  apply Z.eqb_eq. unfold u32. rewrite Z.mod_small; lia.
Qed.

Lemma store_ok s c :
  shared_ok s -> cache_inv c -> capacity c = capacity (cache_view s) -> shared_ok (store_view c s).
Proof.
  intros Hs Hc Hcap. by destruct (attached_store (env_of s) s c (env_of_attached _ Hs) Hc Hcap)
    as (_ & _ & _ & ?).
Qed.

Lemma contents_valid_key c k sl : cache_inv c -> contents c !! k = Some sl -> valid_key (Some k) = true.
Proof.
  intros Hc (i & e & (Hi & Ho & <-) & _)%contents_lookup; [|done].
  pose proof (eo_key _ (ci_entries _ Hc _ _ Hi) Ho). simpl. lia.
Qed.

(** A lookup whose buffer is large enough for the document of the key. *)
Lemma lookup_segment s k now stale size :
  shared_ok s -> valid_key (Some k) = true -> 0 <= now ->
  (forall payload f, contents (cache_view s) !! k ≫= CacheState.hit now stale = Some (payload, f) ->
     zlen payload <= size) ->
  exists s', shared_io_lookup k now stale size (env_of s) =
      (answer_for (contents (cache_view s) !! k ≫= CacheState.hit now stale), env_of s') /\
    shared_ok s' /\
    contents (cache_view s') =
      match contents (cache_view s) !! k ≫= CacheState.hit now stale with
      | Some _ => alter (touch_slot now) k (contents (cache_view s))
      | None => contents (cache_view s)
      end.
Proof.
  intros Hs Hvk Hnow Hsize.
  destruct (shared_lookup_ok (env_of s) s k now stale size) as (s' & Hl & Hat & Hcon);
    [by apply env_of_attached|done..|].
  assert (replace_segment s' (env_of s) = env_of s') as He.
  { destruct Hat as (_ & _ & Hc & [_ _ Hb _ _]), Hs as [_ _ Hb' _ _]. unfold capacity_agrees in Hc.
    simpl in Hc. unfold u32 in Hc. rewrite Z.mod_small in Hc by lia.
    unfold replace_segment, env_of. simpl. f_equal. lia. }
  exists s'. rewrite Hl, He. by split_and!; [|apply Hat|].
Qed.

(** Beginning a refresh. *)
Lemma begin_segment s k now unknown_kid cooldown :
  shared_ok s -> valid_key (Some k) = true -> 0 <= now <= INT64_MAX -> 0 <= cooldown ->
  exists result refresh s',
    shared_io_begin k now unknown_kid cooldown (env_of s) = (result, refresh, env_of s') /\
    shared_ok s' /\
    begin_ok (cache_view s) k now unknown_kid cooldown result refresh (cache_view s').
Proof.
  intros Hs Hvk Hnow Hcd.
  destruct (begin_refresh_ok (cache_view s) k now unknown_kid cooldown (so_cache _ Hs) Hnow Hcd Hvk)
    as (result & refresh & c1 & Hcall & Hok).
  exists result, refresh, (store_view c1 s). rewrite view_store. pose proof Hok as [? ? _ _ _].
  split_and!; [|by apply store_ok|done].
  unfold shared_io_begin, pg_oauth_shared_cache_begin_refresh, locked.
  rewrite (attach_attached _ _ (env_of_attached _ Hs)). cbn [negb].
  cbn [sv_segment env_of sv_attached sv_configured_capacity]. by rewrite Hcall.
Qed.

(** The owner publishes a document. *)
Lemma publish_segment s refresh k now reval ttl grace payload :
  shared_ok s -> owns (cache_view s) refresh k ->
  0 <= now <= INT64_MAX -> 0 <= ttl <= INT64_MAX -> 0 <= grace <= INT64_MAX ->
  0 < zlen payload <= PG_OAUTH_CACHE_MAX_PAYLOAD_SIZE ->
  exists s' sl, shared_io_complete refresh now true true reval ttl grace (Some payload) (env_of s) =
      (true, env_of s') /\ shared_ok s' /\
    contents (cache_view s') =
      <[k := publish_slot now reval ttl grace payload sl]> (contents (cache_view s)).
Proof.
  intros Hs Hown Hnow Httl Hgrace Hp.
  assert (exists sl, contents (cache_view s) !! k = Some sl) as [sl Hsl].
  { destruct Hown as (i & e & _ & Hh & _). exists (slot_of e). eapply contents_holds; [|done]. apply Hs. }
  destruct (complete_refresh_owner (cache_view s) refresh k sl now true true reval ttl grace
              (Some payload) (so_cache _ Hs) Hown Hsl) as (ok & c1 & Hcall & Hc1 & Hcap & _ & Hspec);
    [lia..|].
  unfold complete_spec, times_ok in Hspec.
  replace ((0 <=? now) && (0 <=? ttl) && (0 <=? grace)) with true in Hspec by lia. simpl in Hspec.
  replace ((0 <? zlen payload) && (zlen payload <=? PG_OAUTH_CACHE_MAX_PAYLOAD_SIZE)) with true
    in Hspec by lia. injection Hspec as -> Hcon.
  exists (store_view c1 s), sl. rewrite view_store. split_and!; [|by apply store_ok|done].
  unfold shared_io_complete, pg_oauth_shared_cache_complete_refresh, locked.
  rewrite (attach_attached _ _ (env_of_attached _ Hs)). cbn [negb].
  cbn [sv_segment env_of sv_attached sv_configured_capacity]. by rewrite Hcall.
Qed.

(** C18: what is published is what is served.  When the owner of a key's refresh
    publishes a document, then every backend that looks the key up gets exactly
    that document, byte for byte: as fresh until [now + ttl], as stale (if it
    allows stale documents, and the response did not demand revalidation) until
    the grace has passed as well, and not at all afterwards; the times saturate
    at the largest representable one.  Other keys are not affected. *)
Theorem publish_then_lookup s refresh k now reval ttl grace payload :
  shared_ok s -> owns (cache_view s) refresh k ->
  0 <= now <= INT64_MAX -> 0 <= ttl <= INT64_MAX -> 0 <= grace <= INT64_MAX ->
  0 < zlen payload <= PG_OAUTH_CACHE_MAX_PAYLOAD_SIZE ->
  exists s', shared_io_complete refresh now true true reval ttl grace (Some payload) (env_of s) =
      (true, env_of s') /\ shared_ok s' /\
    (forall t allow_stale size, 0 <= t -> zlen payload <= size ->
       let fresh_until := Z.min INT64_MAX (now + ttl) in
       let stale_until := Z.min INT64_MAX (fresh_until + grace) in
       fst (shared_io_lookup k t allow_stale size (env_of s')) =
       if t <? fresh_until then answer_for (Some (payload, PG_OAUTH_CACHE_FRESH))
       else if allow_stale && negb reval && (t <? stale_until)
       then answer_for (Some (payload, PG_OAUTH_CACHE_STALE))
       else answer_for None) /\
    (forall k', k' <> k -> contents (cache_view s') !! k' = contents (cache_view s) !! k').
Proof.
  intros Hs Hown Hnow Httl Hgrace Hp.
  destruct (publish_segment s refresh k now reval ttl grace payload)
    as (s' & sl & Hcall & Hs' & Hcon); [done..|].
  exists s'. split_and!; [done..| |intros k' Hne; by rewrite Hcon, lookup_insert_ne].
  intros t stale size Ht Hsize fresh_until stale_until.
  assert (contents (cache_view s') !! k = Some (publish_slot now reval ttl grace payload sl)) as Hk
    by (by rewrite Hcon, lookup_insert_eq).
  destruct (lookup_segment s' k t stale size Hs') as (s2 & -> & _);
    [by eapply contents_valid_key; [apply Hs'|]|done| |]; rewrite Hk; simpl.
  - intros p f. unfold CacheState.hit. simpl. repeat case_match; intros; simplify_eq; done.
  - unfold CacheState.hit. simpl. fold fresh_until. destruct (Z.ltb_spec t fresh_until); [done|].
    destruct stale, reval; simpl; try done.
    + destruct (Z.ltb_spec t fresh_until); [lia|done].
    + fold stale_until. by destruct (t <? stale_until).
Qed.
End Operations.

(** ** Retrieval from a warm cache *)

(** The documents fetched along a run, with their URLs. *)
Definition documents (tr : list event) : list (option bytes * option bytes) :=
  omap (fun e => match e with
                 | Ev (call_http_get url _) r => Some (url, rs_body (snd r))
                 | _ => None
                 end) tr.

(** The segment holds [document] under [key], fresh at [now]. *)
Definition fresh_document (s : PgOAuthSharedCacheState) (key : bytes) (now : Z) (document : bytes)
  : Prop :=
  exists sl fresh_until stale_until, contents (cache_view s) !! key = Some sl /\
    sl_value sl = Some (document, fresh_until, stale_until) /\ now < fresh_until.

Section Warm.
Context `{J : Jansson} `{O : OpenSsl} `{U : CurlUrl} `{D : NamedDsm}.
Context (curl_getdate : bytes -> Z) (malloc : Z -> bool) (key_malloc : nat -> Z -> bool).

(** What a retrieval makes of the two documents, wherever they came from. *)
Definition selection (policy : PgOAuthIssuerKeyPolicy) (url issuer kid : option bytes) (alg : Z)
  (mdoc jdoc : bytes) (jwks_url : option bytes) (r : PgOAuthIssuerKeyResult) : Prop :=
  exists m host,
    pg_oauth_metadata_parse malloc (Some mdoc) issuer (Some (ikp_metadata policy))
      (Some metadata_zero) = (PG_OAUTH_METADATA_OK, m) /\
    m ≫= jwks_uri = jwks_url /\
    pg_oauth_http_url_host malloc url (hp_max_url_size (ikp_metadata_http policy))
      (hp_allow_insecure_http (ikp_metadata_http policy)) = (PG_OAUTH_HTTP_OK, host) /\
    r = select_key key_malloc policy (Some jdoc) kid alg issuer_key_result_zero /\
    jwks_ok r = true.

(** The phases of a retrieval without a cache. *)
Lemma metadata_uncached_ok policy url now result tr o :
  exec (metadata_uncached policy url now result) tr o ->
  match o with
  | inl out => fst out <> PG_OAUTH_ISSUER_KEY_OK
  | inr a => exists response mdoc,
      tr = [Ev (call_http_get url (ikp_metadata_http policy)) (PG_OAUTH_HTTP_OK, response)] /\
      answer_ok (call_http_get url (ikp_metadata_http policy)) (PG_OAUTH_HTTP_OK, response) /\
      rs_body response = Some mdoc /\ aq_body a = Some mdoc /\
      aq_result a = set_http_error PG_OAUTH_HTTP_OK result
  end.
Proof.
  intros ((error & response) & tr' & -> & Ha & He). pose proof (http_answer _ _ _ _ Ha) as Hb.
  case_bool_decide as Ee; simpl in He; destruct He as [-> ->]; [|done].
  subst error. destruct Hb as [mdoc Hb]. by exists response, mdoc.
Qed.

Lemma metadata_use_result policy url issuer now time a tr result jwks_url host :
  exec (metadata_use curl_getdate malloc policy None url issuer now time a) tr
    (inr (result, jwks_url, host)) ->
  tr = [] /\ result = set_http_error PG_OAUTH_HTTP_OK
                        (set_metadata_error PG_OAUTH_METADATA_OK (aq_result a)).
Proof.
  unfold metadata_use. destruct (pg_oauth_metadata_parse _ _ _ _ _) as [e m].
  destruct (pg_oauth_http_url_host _ _ _ _) as [e' h].
  case_bool_decide; simpl; [|by intros [_ [=]]].
  case_bool_decide; simpl; intros [-> Heq]; by simplify_eq.
Qed.

Lemma jwks_fetch_uncached policy http jwks_url kid alg time f tr r :
  tf_selected_from_stale f = false ->
  exec (jwks_fetch curl_getdate key_malloc policy None http jwks_url kid alg time f) tr
    (PG_OAUTH_ISSUER_KEY_OK, r) ->
  exists response jdoc,
    tr = [Ev (call_http_get jwks_url http) (PG_OAUTH_HTTP_OK, response)] /\
    answer_ok (call_http_get jwks_url http) (PG_OAUTH_HTTP_OK, response) /\
    rs_body response = Some jdoc /\ jwks_ok r = true /\
    r = select_key key_malloc policy (Some jdoc) kid alg
          (set_http_error PG_OAUTH_HTTP_OK (tf_result f)).
Proof.
  intros Hf ((error & response) & tr' & -> & Ha & He). pose proof (http_answer _ _ _ _ Ha) as Hb.
  rewrite Hf in He. case_bool_decide as Ee; cbn [negb give_back] in He; [|by destruct He].
  subst error. destruct Hb as [jdoc Hb]. rewrite Hb in He.
  destruct (jwks_ok _) eqn:Ej; cbn [negb give_back] in He; destruct He as [-> [= ->]].
  by exists response, jdoc.
Qed.

(** A successful retrieval without a cache. *)
Lemma uncached_ok policy url issuer kid alg tr r :
  exec (pg_oauth_issuer_key_fetch curl_getdate malloc key_malloc url issuer kid alg (Some policy)
          (Some issuer_key_result_zero)) tr (PG_OAUTH_ISSUER_KEY_OK, Some r) ->
  is_Some url /\ is_Some issuer /\ is_Some kid /\ alg <> 0 /\
  exists jwks_url host mdoc jdoc response1 response2,
    tr = [Ev (call_http_get url (ikp_metadata_http policy)) (PG_OAUTH_HTTP_OK, response1);
          Ev (call_http_get jwks_url (jwks_http_for host (ikp_jwks_http policy)))
             (PG_OAUTH_HTTP_OK, response2)] /\
    answer_ok (call_http_get url (ikp_metadata_http policy)) (PG_OAUTH_HTTP_OK, response1) /\
    answer_ok (call_http_get jwks_url (jwks_http_for host (ikp_jwks_http policy)))
      (PG_OAUTH_HTTP_OK, response2) /\
    rs_body response1 = Some mdoc /\ rs_body response2 = Some jdoc /\
    selection policy url issuer kid alg mdoc jdoc jwks_url r.
Proof.
  intros Hx. assert (is_Some url /\ is_Some issuer /\ is_Some kid) as (Hu & Hi & Hk).
  { destruct url, issuer, kid; try (by destruct Hx as [_ [=]]). split_and!; by eexists. }
  unfold pg_oauth_issuer_key_fetch in Hx. apply fetch_cached_runs in Hx as [[_ H']|(p & cache & o & [= <-] & Halg & Hc & He & Ho)]; [done|].
  destruct cache as [[cp capacity]|]; [destruct Hc|]. injection Ho as Ho1 Ho2. split_and!; [done..|].
  unfold fetch_with, finish in He. apply exec_bind in He as (t1 & t2 & o' & -> & He & Hr).
  apply exec_piece in He as [(x & He & ->)|(t3 & t4 & a & -> & H1 & He)].
  { apply metadata_uncached_ok in He. destruct Hr as [_ <-]. congruence. }
  apply metadata_uncached_ok in H1 as (response1 & mdoc & -> & Ha1 & Hb1 & Hbody & Hres).
  apply exec_piece in He as [(x & He & ->)|(t5 & t6 & [[result jwks_url] host] & -> & H1 & He)].
  { apply metadata_use_ok in He. destruct Hr as [_ <-]. congruence. }
  pose proof (metadata_use_ok _ _ _ _ _ _ _ _ _ _ _ H1) as (m & Hm & Hurl & Hhost).
  apply metadata_use_result in H1 as [-> ->].
  apply exec_piece in He as [(x & [_ [=]] & _)|(t7 & t8 & f & -> & [-> [= ->]] & He)].
  apply exec_bind in He as (t9 & t10 & out & -> & He & [-> ->]). destruct Hr as [-> ->].
  destruct out as [e r']. cbn [fst snd] in *. subst e r'.
  apply jwks_fetch_uncached in He as (response2 & jdoc & -> & Ha2 & Hb2 & Hj & Hr); [|done].
  exists jwks_url, host, mdoc, jdoc, response1, response2. split_and!; [done..|].
  exists m, host. rewrite <- Hbody. split_and!; [done..| |done]. rewrite Hr. simpl. by rewrite Hres.
Qed.

(** The metadata document leads to [jwks_url], with [host] as its host. *)
Definition discovered (policy : PgOAuthIssuerKeyPolicy) (url issuer : option bytes) (mdoc : bytes)
  (jwks_url host : option bytes) : Prop :=
  exists m,
    pg_oauth_metadata_parse malloc (Some mdoc) issuer (Some (ikp_metadata policy))
      (Some metadata_zero) = (PG_OAUTH_METADATA_OK, m) /\
    m ≫= jwks_uri = jwks_url /\
    pg_oauth_http_url_host malloc url (hp_max_url_size (ikp_metadata_http policy))
      (hp_allow_insecure_http (ikp_metadata_http policy)) = (PG_OAUTH_HTTP_OK, host).

(** The retrieval from the lookup of the key set on. *)
Definition key_stage (policy : PgOAuthIssuerKeyPolicy) (cp : PgOAuthIssuerKeyCachePolicy)
  (capacity : Z) (jwks_url host : option bytes) (jk : bytes) (kid : option bytes) (alg now time : Z)
  : prog (PgOAuthIssuerKeyError * option PgOAuthIssuerKeyResult) :=
  bind (finish (bind_piece
      (jwks_cached key_malloc policy cp jk capacity now kid alg issuer_key_result_zero)
      (fun f => bind (jwks_fetch curl_getdate key_malloc policy (Some (cp, capacity))
                        (jwks_http_for host (ikp_jwks_http policy)) jwks_url kid alg time f)
                  (fun out => Ret (inr out)))))
    (fun o => Ret (fst o, Some (snd o))).

(** With the metadata in the cache, a retrieval is its lookup and the key stage. *)
Lemma warm_metadata_program policy cp capacity url issuer kid alg now time mdoc jwks_url host mk jk :
  is_Some url -> is_Some issuer -> is_Some kid -> alg <> 0 ->
  cache_policy_valid (Some cp) = true -> cached_capacity malloc policy = Some capacity ->
  cache_key (key_policy_for PG_OAUTH_CACHE_RESOURCE_METADATA issuer url None (cp_key_policy cp)) =
    Some mk ->
  cache_key (key_policy_for PG_OAUTH_CACHE_RESOURCE_JWKS issuer url jwks_url (cp_key_policy cp)) =
    Some jk ->
  discovered policy url issuer mdoc jwks_url host ->
  exists k1,
    pg_oauth_issuer_key_fetch_cached curl_getdate malloc key_malloc url issuer kid alg (Some policy)
      (Some cp) now time (Some issuer_key_result_zero) =
      Call (call_lookup mk now false capacity) k1 /\
    k1 (answer_for (Some (mdoc, PG_OAUTH_CACHE_FRESH))) =
      key_stage policy cp capacity jwks_url host jk kid alg now time.
Proof.
  intros [u ->] [i ->] [k ->] Halg Hcp Hcap Hmk Hjk (m & Hm & Hurl & Hhost).
  unfold pg_oauth_issuer_key_fetch_cached, fetch_with, metadata_acquire.
  rewrite (proj2 (Z.eqb_neq _ _) Halg), Hcp, Hcap, Hmk. cbn [negb].
  unfold metadata_cached. cbn [bind bind_piece finish].
  eexists. split; [reflexivity|]. cbv beta.
  cbn [answer_for]. change (copied is_fresh _) with true. cbn [bind lk_payload aq_cache_now_ms].
  unfold metadata_use. cbn [aq_body aq_response aq_result response_zero rs_body]. rewrite Hm, Hhost.
  rewrite (bool_decide_eq_true_2 (PG_OAUTH_METADATA_OK = _)) by done.
  rewrite (bool_decide_eq_true_2 (PG_OAUTH_HTTP_OK = _)) by done.
  rewrite (bool_decide_eq_false_2 (is_Some None)) by (by intros [? [=]]).
  cbn [negb bind_piece bind]. rewrite Hurl. unfold jwks_acquire. rewrite Hjk. reflexivity.
Qed.

(** The retrieval when both lookups find fresh documents: two calls and the
    result. *)
Lemma warm_program policy cp capacity url issuer kid alg now time mdoc jdoc jwks_url mk jk r :
  is_Some url -> is_Some issuer -> is_Some kid -> alg <> 0 ->
  cache_policy_valid (Some cp) = true -> cached_capacity malloc policy = Some capacity ->
  cache_key (key_policy_for PG_OAUTH_CACHE_RESOURCE_METADATA issuer url None (cp_key_policy cp)) =
    Some mk ->
  cache_key (key_policy_for PG_OAUTH_CACHE_RESOURCE_JWKS issuer url jwks_url (cp_key_policy cp)) =
    Some jk ->
  selection policy url issuer kid alg mdoc jdoc jwks_url r ->
  exists k1 k2,
    pg_oauth_issuer_key_fetch_cached curl_getdate malloc key_malloc url issuer kid alg (Some policy)
      (Some cp) now time (Some issuer_key_result_zero) =
      Call (call_lookup mk now false capacity) k1 /\
    k1 (answer_for (Some (mdoc, PG_OAUTH_CACHE_FRESH))) =
      Call (call_lookup jk now (0 <? cp_jwks_stale_grace_ms cp) capacity) k2 /\
    k2 (answer_for (Some (jdoc, PG_OAUTH_CACHE_FRESH))) = Ret (PG_OAUTH_ISSUER_KEY_OK, Some r).
Proof.
  intros Hu Hi Hk Halg Hcp Hcap Hmk Hjk (m & host & Hm & Hurl & Hhost & Hr & Hj).
  destruct (warm_metadata_program policy cp capacity url issuer kid alg now time mdoc jwks_url host
    mk jk) as (k1 & H1 & H2); try done; [by exists m|].
  eexists k1, _. split; [exact H1|]. rewrite H2. unfold key_stage, jwks_cached.
  cbn [bind_piece bind finish]. split; [reflexivity|]. cbv beta. change (copied is_hit _) with true.
  cbn [answer_for lk_payload lk_freshness]. rewrite <- Hr, Hj. reflexivity.
Qed.

(** A lookup of a fresh document. *)
Lemma respond_fresh network s k now stale size document :
  shared_ok s -> 0 <= now -> fresh_document s k now document -> zlen document <= size ->
  exists s', respond network (call_lookup k now stale size) s =
      (answer_for (Some (document, PG_OAUTH_CACHE_FRESH)), s') /\
    shared_ok s' /\ contents (cache_view s') = alter (touch_slot now) k (contents (cache_view s)).
Proof.
  intros Hs Hnow (sl & fu & su & Hk & Hv & Hf) Hsize.
  assert (contents (cache_view s) !! k ≫= CacheState.hit now stale =
    Some (document, PG_OAUTH_CACHE_FRESH)) as Hhit.
  { rewrite Hk. simpl. unfold CacheState.hit. rewrite Hv. by rewrite (proj2 (Z.ltb_lt _ _) Hf). }
  destruct (lookup_segment s k now stale size Hs) as (s' & Hl & Hs' & Hcon);
    [by eapply contents_valid_key; [apply Hs|]|done|rewrite Hhit; by intros ? ? [= <- <-]|].
  rewrite Hhit in Hl, Hcon. exists s'. cbn [respond]. by rewrite Hl.
Qed.

(** Looking up one document leaves the others as they are. *)
Lemma fresh_document_touch s s' k k' now t document :
  contents (cache_view s') = alter (touch_slot t) k (contents (cache_view s)) ->
  fresh_document s k' now document -> fresh_document s' k' now document.
Proof.
  intros Hc (sl & fu & su & Hk & Hv & Hf). unfold fresh_document. rewrite Hc.
  destruct (decide (k = k')) as [->|Hne].
  - exists (touch_slot t sl), fu, su. by rewrite lookup_alter_eq, Hk.
  - exists sl, fu, su. by rewrite lookup_alter_ne.
Qed.

(** A document that was fetched fits into the buffer for cached ones. *)
Lemma fetched_fits http url response document capacity :
  answer_ok (call_http_get url http) (PG_OAUTH_HTTP_OK, response) ->
  rs_body response = Some document -> 0 <= hp_max_response_size http <= SIZE_MAX ->
  hp_max_response_size http <= capacity -> zlen document <= capacity.
Proof.
  intros [curl Hg] Hb Hm Hc. cbn [fst snd] in Hg. apply http_get_body_bound in Hg; [|done].
  rewrite Hb in Hg. simpl in Hg. lia.
Qed.

Lemma cached_capacity_bounds policy capacity :
  cached_capacity malloc policy = Some capacity ->
  hp_max_response_size (ikp_metadata_http policy) <= capacity /\
  hp_max_response_size (ikp_jwks_http policy) <= capacity <= PG_OAUTH_CACHE_MAX_PAYLOAD_SIZE.
Proof.
  unfold cached_capacity.
  destruct (Z.ltb_spec (hp_max_response_size (ikp_metadata_http policy))
              (hp_max_response_size (ikp_jwks_http policy)));
    case_match eqn:E; intros [= <-]; prop_bools; lia.
Qed.

(** C17: the cache is transparent.  Suppose that a retrieval without a cache
    succeeds, having fetched the two documents [mdoc] and [jdoc], and that the
    shared cache holds the same two documents, fresh, under the keys of the policy.
    Then the cached retrieval makes two lookups and nothing else, no request to
    the network, and returns exactly the same result; the segment stays sound and
    only the times of last use change. *)
Theorem cache_transparent network policy cp capacity url issuer kid alg now time s tr r
    jwks_url mdoc jdoc mk jk :
  shared_ok s -> 0 <= now ->
  0 <= hp_max_response_size (ikp_metadata_http policy) ->
  0 <= hp_max_response_size (ikp_jwks_http policy) ->
  cache_policy_valid (Some cp) = true -> cached_capacity malloc policy = Some capacity ->
  exec (pg_oauth_issuer_key_fetch curl_getdate malloc key_malloc url issuer kid alg (Some policy)
          (Some issuer_key_result_zero)) tr (PG_OAUTH_ISSUER_KEY_OK, Some r) ->
  documents tr = [(url, Some mdoc); (jwks_url, Some jdoc)] ->
  cache_key (key_policy_for PG_OAUTH_CACHE_RESOURCE_METADATA issuer url None (cp_key_policy cp)) =
    Some mk ->
  cache_key (key_policy_for PG_OAUTH_CACHE_RESOURCE_JWKS issuer url jwks_url (cp_key_policy cp)) =
    Some jk ->
  fresh_document s mk now mdoc -> fresh_document s jk now jdoc ->
  exists tr' s',
    run_calls network 2
      (pg_oauth_issuer_key_fetch_cached curl_getdate malloc key_malloc url issuer kid alg
         (Some policy) (Some cp) now time (Some issuer_key_result_zero)) s =
      (tr', Ret (PG_OAUTH_ISSUER_KEY_OK, Some r), s') /\
    fetches tr' = [] /\ shared_ok s' /\
    contents (cache_view s') =
      alter (touch_slot now) jk (alter (touch_slot now) mk (contents (cache_view s))).
Proof.
  intros Hs Hnow Hm1 Hm2 Hcp Hcap
    (Hu & Hi & Hkid & Halg & ju & host & md & jd & resp1 & resp2 & -> & Ha1 & Ha2 & Hb1 & Hb2 & Hsel)%uncached_ok
    Hdocs Hmk Hjk Hfm Hfj.
  simpl in Hdocs. rewrite Hb1, Hb2 in Hdocs. injection Hdocs as <- <- <-.
  destruct (cached_capacity_bounds _ _ Hcap) as (? & ? & ?).
  destruct (warm_program policy cp capacity url issuer kid alg now time md jd ju mk jk r)
    as (k1 & k2 & -> & Hk1 & Hk2); [done..|].
  destruct (respond_fresh network s mk now false capacity md) as (s1 & Hr1 & Hs1 & Hc1); [done..| |].
  { eapply fetched_fits; [exact Ha1|exact Hb1|unfold SIZE_MAX, PG_OAUTH_CACHE_MAX_PAYLOAD_SIZE in *; lia|lia]. }
  destruct (respond_fresh network s1 jk now (0 <? cp_jwks_stale_grace_ms cp) capacity jd)
    as (s2 & Hr2 & Hs2 & Hc2); [done|done|by eapply fresh_document_touch| |].
  { eapply fetched_fits; [exact Ha2|exact Hb2|simpl; unfold SIZE_MAX, PG_OAUTH_CACHE_MAX_PAYLOAD_SIZE in *; lia|done]. }
  cbn [run_calls]. rewrite Hr1, Hk1. rewrite Hr2, Hk2. eexists _, s2.
  split_and!; [reflexivity|done|done|]. by rewrite Hc2, Hc1.
Qed.

(** ** The gate for unknown key ids *)









End Warm.

(** ** An example *)

Module CoherenceExample.
Import IssuerKeyExample SharedExample.

Definition segment : PgOAuthSharedCacheState := BackendsExample.segment.

(** The keys of the example's policy. *)
Definition metadata_key : bytes :=
  default [] (cache_key (key_policy_for PG_OAUTH_CACHE_RESOURCE_METADATA (Some issuer)
                           (Some metadata_url) None (cp_key_policy cache_policy))).
Definition jwks_key : bytes :=
  default [] (cache_key (key_policy_for PG_OAUTH_CACHE_RESOURCE_JWKS (Some issuer)
                           (Some metadata_url) (Some jwks_url) (cp_key_policy cache_policy))).

(** The refresh of [k] begins, and its document is published for five minutes. *)
Definition claim (unknown_kid : bool) (k : bytes) (s : PgOAuthSharedCacheState) :=
  shared_io_begin k 1000 unknown_kid 0 (env_of s).
Definition claimed (unknown_kid : bool) (k : bytes) (s : PgOAuthSharedCacheState) : PgOAuthSharedCacheState :=
  default s (sv_segment (snd (claim unknown_kid k s))).
Definition put (unknown_kid : bool) (k document : bytes) (s : PgOAuthSharedCacheState) : PgOAuthSharedCacheState :=
  default s (sv_segment (snd (shared_io_complete (snd (fst (claim unknown_kid k s))) 1000 true true false 300000 0
                                (Some document) (env_of (claimed unknown_kid k s))))).

Lemma claimed_ok unknown_kid k s :
  shared_ok s -> valid_key (Some k) = true -> fst (fst (claim unknown_kid k s)) = PG_OAUTH_CACHE_REFRESH_STARTED ->
  shared_ok (claimed unknown_kid k s) /\ owns (cache_view (claimed unknown_kid k s)) (snd (fst (claim unknown_kid k s))) k.
Proof.
  intros Hs Hvk. unfold claimed, claim.
  destruct (begin_segment s k 1000 unknown_kid 0 Hs Hvk) as (result & refresh & s' & -> & Hs' & Hb);
    [by unfold INT64_MAX|done|]. simpl. intros ->. by destruct (bo_owner _ _ _ _ _ _ _ _ Hb eq_refl).
Qed.

Lemma put_ok unknown_kid k document s :
  shared_ok s -> valid_key (Some k) = true -> fst (fst (claim unknown_kid k s)) = PG_OAUTH_CACHE_REFRESH_STARTED ->
  0 < zlen document <= PG_OAUTH_CACHE_MAX_PAYLOAD_SIZE -> shared_ok (put unknown_kid k document s).
Proof.
  intros Hs Hvk Hc Hd. destruct (claimed_ok unknown_kid k s Hs Hvk Hc) as [Hs1 Hown]. unfold put.
  destruct (publish_segment (claimed unknown_kid k s) (snd (fst (claim unknown_kid k s))) k 1000 false 300000 0 document)
    as (s' & sl & -> & Hs' & _); [done..|by unfold INT64_MAX|by unfold INT64_MAX|by unfold INT64_MAX|done|].
  done.
Qed.

Definition filled : PgOAuthSharedCacheState := put false metadata_key metadata_document segment.
Definition warm : PgOAuthSharedCacheState := put false jwks_key JwksExample.document filled.

Lemma warm_ok : shared_ok warm.
Proof.
  apply put_ok; [|vm_compute; reflexivity..|by vm_compute].
  apply put_ok; [apply BackendsExample.segment_shared_ok|vm_compute; reflexivity..|by vm_compute].
Qed.

Lemma fresh_at s i k document now e :
  shared_ok s -> ca_entries (cache_view s) !! i = Some e ->
  ce_occupied e = true -> ce_key e = k -> ce_has_value e = true -> ce_payload e = document ->
  now < ce_fresh_until_ms e -> fresh_document s k now document.
Proof.
  intros Hs Hi Ho Hk Hv <- Hf. exists (slot_of e), (ce_fresh_until_ms e), (ce_stale_until_ms e).
  split_and!; [|unfold slot_of; simpl; by rewrite Hv|done].
  eapply contents_holds; [apply Hs|]. by split.
Qed.

Definition entry (i : nat) : PgOAuthCacheEntry :=
  default entry_zero (ca_entries (cache_view warm) !! i).

Lemma warm_metadata : fresh_document warm metadata_key 2000 metadata_document.
Proof. apply (fresh_at warm 0 _ _ _ (entry 0) warm_ok); vm_compute; reflexivity. Qed.
Lemma warm_jwks : fresh_document warm jwks_key 2000 JwksExample.document.
Proof. apply (fresh_at warm 1 _ _ _ (entry 1) warm_ok); vm_compute; reflexivity. Qed.





Lemma segment_claim :
  shared_ok (claimed false metadata_key segment) /\
  owns (cache_view (claimed false metadata_key segment)) (snd (fst (claim false metadata_key segment))) metadata_key.
Proof. apply claimed_ok; [apply BackendsExample.segment_shared_ok|vm_compute; reflexivity..]. Qed.

(** Published at 1000 for 300000 ms with a grace of 1000 ms. *)
Lemma publish_then_lookup_witness :
  exists s', shared_io_complete (snd (fst (claim false metadata_key segment))) 1000 true true false 300000
      1000 (Some metadata_document) (env_of (claimed false metadata_key segment)) = (true, env_of s') /\
    fst (shared_io_lookup metadata_key 300999 false 65536 (env_of s')) =
      answer_for (Some (metadata_document, PG_OAUTH_CACHE_FRESH)) /\
    fst (shared_io_lookup metadata_key 301000 true 65536 (env_of s')) =
      answer_for (Some (metadata_document, PG_OAUTH_CACHE_STALE)) /\
    fst (shared_io_lookup metadata_key 302000 true 65536 (env_of s')) = answer_for None.
Proof.
  destruct segment_claim as [Hs Hown].
  destruct (publish_then_lookup (claimed false metadata_key segment) (snd (fst (claim false metadata_key segment)))
              metadata_key 1000 false 300000 1000 metadata_document Hs Hown)
    as (s' & Hcall & _ & Hl & _); [by unfold INT64_MAX..|by vm_compute|].
  exists s'. split; [exact Hcall|].
  repeat split; rewrite Hl by (by vm_compute); reflexivity.
Defined.

(** The same retrieval without the cache. *)
Definition direct : prog (PgOAuthIssuerKeyError * option PgOAuthIssuerKeyResult) :=
  pg_oauth_issuer_key_fetch (fun _ => -1) (fun _ => true) plenty (Some metadata_url) (Some issuer)
    (Some (B "k1")) 2 (Some policy) (Some issuer_key_result_zero).
Definition direct_run := replay (network_oracle network) direct.
Definition direct_result : PgOAuthIssuerKeyResult :=
  default issuer_key_result_zero (snd (snd direct_run)).

Lemma direct_exec : exec direct (fst direct_run) (PG_OAUTH_ISSUER_KEY_OK, Some direct_result).
Proof.
  pose proof (replay_exec (network_oracle network) direct (network_oracle_ok network)) as He.
  fold direct_run in He. assert (fst (snd direct_run) = PG_OAUTH_ISSUER_KEY_OK) as H1
    by (vm_compute; reflexivity).
  assert (bool_decide (is_Some (snd (snd direct_run))) = true) as H2 by (vm_compute; reflexivity).
  unfold direct_result. destruct (snd direct_run) as [e [r|]]; [|discriminate H2].
  cbn [fst snd] in H1. subst e. exact He.
Qed.

Lemma cache_transparent_witness :
  exists tr' s', run_calls network 2 (fetch (B "k1") 2000) warm =
      (tr', Ret (PG_OAUTH_ISSUER_KEY_OK, Some direct_result), s') /\ fetches tr' = [].
Proof.
  destruct (cache_transparent (fun _ => -1) (fun _ => true) plenty network policy cache_policy 65536
    (Some metadata_url) (Some issuer) (Some (B "k1")) 2 2000 1700000000 warm (fst direct_run)
    direct_result (Some jwks_url) metadata_document JwksExample.document metadata_key jwks_key
    warm_ok) as (tr' & s' & Hrun & Hf & _).
  - by vm_compute.
  - by vm_compute.
  - by vm_compute.
  - vm_compute; reflexivity.
  - vm_compute; reflexivity.
  - exact direct_exec.
  - vm_compute; reflexivity.
  - vm_compute; reflexivity.
  - vm_compute; reflexivity.
  - exact warm_metadata.
  - exact warm_jwks.
  - exact (ex_intro _ tr' (ex_intro _ s' (conj Hrun Hf))).
Defined.

End CoherenceExample.
